(* ===== verification/_CoqProject ===== *)
-Q . S2P
Prelude.v
Clock.v
Fairness.v
Message.v
OrderIndex.v
IndexProperties.v
BookSpec.v
BookInterface.v
OrderBook.v
BookQueues.v
OrderBookInv.v
OrderBookRep.v
OrderBookCorrect.v
OrderBookMake.v
OrderBookTheorems.v
BookProperties.v
BookTypes.v
SpscQueue.v
QueueVariants.v
SpscConcurrent.v
SpscRaceFree.v
RaceDemo.v
RaceDemoCorrect.v
Channel.v
SharedMemory.v
Wire.v
History.v
SocketIo.v
Recovery.v
Sockets.v
SequenceManager.v
SequenceInv.v
SequenceCorrect.v
SequenceProperties.v
InOrder.v
Engine.v
EngineProperties.v
NodeBook.v
BookBenchmark.v
Latency.v
Handler.v
HandlerProperties.v
HandlerStops.v
Coupling.v
Exchange.v
ExchangeCorrect.v
ExchangeProperties.v
EndToEnd.v
System.v
Live.v
Report.v
Args.v
RaceDemoStops.v
QueueRuns.v
MutexRuns.v
SpinRuns.v
Pipeline.v
Process.v
ProcessProperties.v
Conformance.v
