(* ===== verification/Prelude.v ===== *)
(** * LLTE: a low-latency trading pipeline

    ** The program

    Three processes on one host. The exchange ([src/exchange]) makes order flow,
    keeps the authoritative book, numbers every event, keeps the last ones in a
    history, and sends them in UDP multicast datagrams; a recovery server answers
    retransmission requests over TCP. The handler ([src/market_data]) receives the
    datagrams, restores order and asks for what is missing (sequence manager,
    recovery client), and pushes the events into a single-producer single-consumer
    ring in shared memory ([src/include/llte/spsc_queue.hpp], [src/ipc]). The
    engine ([src/orderbook]) pops the events and applies them to its book: arrays
    of price levels, a preallocated pool of orders linked into queues, and an
    open-addressed index of order ids.

    ** How it is modelled

    C++ code is translated to functions on explicit state. A call that the
    language leaves undefined (a vector index out of range, signed overflow, a
    zero modulus, a data race) is a [Fault]; every theorem that says a call
    returns says so with [Ret]. Integers are [Z], unsigned results reduced with
    [u64] and the like; signed ones are checked with [i64], [i32]. Loops that are
    not structural take fuel and end in [Fault OutOfFuel] without it; the theorems
    give enough: the table size for a probe, the window for the sequencer, one
    iteration per number for [fetch], the longest run of refusals for the push loop
    ([3 * gap], three engine turns at most for each event it takes), one iteration
    per datagram for the main loop of the handler, [timeout / 10 + 2] for the waits
    of [attach] and [timeout / 20 + 2] for those of [connect], [total_messages + 1]
    for the publishing loop, the readings of the stop flag that are still to come
    for the loops of the processes, [enough_rounds] fair rounds for the race
    demonstration, [15 n + 9] and [16 n + 7] fair rounds for the runs of the queue
    benchmark with [n] messages, one iteration per message for the producer of the
    pipeline; 500 sleeps are the source's own bound on the final wait of the handler,
    and [4 * capacity + 5] turns are enough for the engine to empty a ring and leave.
    What is not code of the repository (sockets, clock, random generator, system calls,
    signals) is an argument: a class of operations and a class of laws that state
    documented behaviour, with a concrete instance in the witnesses.

    ** Files

    - [Prelude]: outcomes, machine integers, vectors, shared lemmas.
    - [Clock]: [clock.hpp] and the sleeps.
    - [Fairness]: threads that take turns; a measure that bounds the fair rounds to
      their end.
    - [Message]: [market_message.hpp], [protocol.hpp], [pipeline.hpp].
    - [OrderIndex], [IndexProperties]: the id index of [order_book.cpp] ([mix],
      [find_index], [index_insert], [index_erase]); it implements a finite map.
    - [BookSpec]: the abstract book, a list of resting orders in priority order.
      [BookInterface]: the operations and the contract of a book, and its clients.
    - [OrderBook] (Module [Book]): [order_book.hpp] and [order_book.cpp]. Its
      proof: [BookQueues] (linked queues), [OrderBookInv] (levels and best
      quotes), [OrderBookRep] (representation), [OrderBookCorrect] (operations),
      [OrderBookMake] (construction, [clear]), [OrderBookTheorems] (the contract
      discharged, queries), [BookProperties] (the properties), [BookTypes] (what is
      stored is in the range of its machine type).
    - [SpscQueue] (Module [Spsc]): the ring called sequentially, a bounded FIFO.
      [QueueVariants]: the other queues of [queue_benchmark.cpp], the same FIFO.
      [QueueRuns]: the runs of that benchmark, Module [Mutexed] with the mutex and the
      condition variables, Module [Spinning] for any ring; [MutexRuns] and [SpinRuns]:
      they end with everything delivered.
      [SpscConcurrent] (Module [Conc]), [SpscRaceFree]: its accesses as steps of a
      machine with release/acquire views, in which a load may return any store
      that coherence allows; race freedom, FIFO, wait-freedom.
    - [RaceDemo], [RaceDemoCorrect], [RaceDemoStops]: [spsc_race_demo.cpp], its
      threads as turns of two machines, its verifier and verdict, its main; the
      fixed mode keeps the stream whole and ends.
    - [Channel]: [ShmChannel] and the shutdown handshake of handler and engine.
      [SharedMemory] (Module [Shm]): [shared_memory_queue.cpp].
    - [Wire]: bytes of every structure, datagrams. [History] (Module
      [HistoryStore]): the retransmission ring. [SocketIo]: [read_exact],
      [write_exact]. [Recovery]: [serve_connection] and [request], over the wire.
    - [Sockets]: [multicast_publisher.cpp], [multicast_receiver.cpp], [connect] of
      [recovery_client.cpp]; [start], the accept loop and [stop] of
      [recovery_server.cpp].
    - [SequenceManager] (Module [Seq]): [sequence_manager.cpp]; [SequenceInv],
      [SequenceCorrect], [SequenceProperties] its invariant and properties;
      [InOrder]: a feed without gaps goes straight through.
    - [Engine], [EngineProperties]: the event loop of [order_book_engine.cpp].
      [Latency]: [percentile] and [summarize] of [latency_stats.hpp].
      [Handler], [HandlerProperties]: the loop of [market_data_handler.cpp];
      [HandlerStops]: it ends when it is asked to, whatever the feed brings;
      [Coupling]: it does the same in two environments that answer alike.
    - [NodeBook], [BookBenchmark]: [book_benchmark.cpp], its node-based book, the
      workload it builds and the loops that run both books on it. [Pipeline]:
      [end_to_end.cpp], producer and consumer threads in one process.
    - [Exchange], [ExchangeCorrect], [ExchangeProperties]:
      [exchange_simulator.cpp].
    - [EndToEnd]: exchange, network, recovery, sequencer and book together.
      [System]: the same with handler and engine side by side over the shared ring.
      [Live]: the exchange's publishing loop in turns, beside both.
    - [Report]: what the mains print at the end.
    - [Args]: [args.hpp], [cpu.hpp] and the options of the three processes.
      [Process], [ProcessProperties]: their mains, from the command line to the
      exit code, with the destructors that run on every way out and the join of the
      server's thread.
    - [Conformance]: the deterministic unit tests of [src/tests], passed by the
      definitions.

    ** What is proved

    - The book: for every configuration and call sequence it refines the abstract
      book ([book_run_refines]) and so every query is exact; its links, pool,
      index and cached best quotes are consistent; rejected calls change nothing.
    - The ring: no data race and FIFO delivery under every interleaving of one
      producer and one consumer; wait-free; a race with two producers, which loses an
      item, where the sequencer of the race demonstration loses none and ends
      ([race_main_ends]).
    - The queues of the benchmark: the same bounded FIFO ([queue_variants_agree]). A run
      loses no wake-up, leaves nothing in the queue and ends, with the mutex queue
      ([mutex_run_complete]) and with every ring ([spinning_run_complete]).
    - The benchmark's two books: they agree on every workload it builds
      ([books_agree]); the pipeline in one process loses nothing and ends with the
      book of that workload ([pipeline_complete]).
    - The channel: the engine leaves its loop through the flag only with every event
      consumed, and does leave it unless a signal takes it out first. The segment, the sockets, the server's accept loop: on every
      path what was opened is closed.
    - The feed: datagrams and recovery frames survive encoding; malformed ones are
      refused; the history returns what it retains, but for a request that ends at the
      last 64-bit number, which runs on ([history_fetch_wraps]); the sequencer delivers in
      order, never stalls, accounts for every number, and delivers all of them
      when recovery is complete.
    - The exchange: it publishes a gap-free numbered stream that describes its own
      book, which is never crossed.
    - The processes: each main returns an exit code, once it is asked to stop, and
      has then released every descriptor, mapping, stream and segment name it
      held, on every path, but for a segment whose creation failed half-way. The theorems
      name the settings and the peers for which this does not hold: capacities of zero,
      message numbers and requests at the end of the 64 bits.
    - The latency summary: its fields are samples, in order, at the nearest ranks
      up to the rounding of [double]. The command line: what is written as
      [--key=value] is read back, a detached negative number is not.
    - The reports: the numbers that engine and exchange print are those of what
      they consumed and published ([engine_report_exact]).
    - End to end ([live_mirrors_exchange]): for every schedule of exchange, handler
      and engine and every loss, repetition and reordering inside the window, with
      retransmissions served while the exchange goes on publishing, the engine ends
      with a book that answers every query as the exchange's book.

    ** What is not modelled

    Error texts, usage and start-up lines; the mean of the latency summary (a [long double]
    that is not printed), the printing of a [double] and [strtod] are parameters.
    The allocation counts of [book_benchmark.cpp], the throughputs, what the
    benchmarks print, and the random, threaded and layout tests. [to_string] of
    [market_message.hpp], which nothing calls. Memory that cannot be allocated. Timing:
    pacing is a wait on the clock, and nothing is said about latency. The mutex of the history
    and the calls on the ring are taken as atomic where they are used by other
    components, which the mutex and [SpscRaceFree] justify. A drop rate
    that is infinite or not a number: rates and draws are rationals. Signals in [System]
    and [Live]: the engine there turns inside its loop; [Channel] has the exit by a
    signal, [Process] and [HandlerStops] the flag of each main. In [Process] the
    sockets, the shared memory and the rest of the system are independent states,
    each of which may answer in any way its laws allow; what the thread of the
    recovery server does, [Listener.run], is put at the [join] of [stop], with the
    readings of [running_] up to one that is false.

    ** Plan for extensions

    The numbers of the handler's report; the accept loop of the recovery server as a
    thread beside the exchange's turns, with more than one connection. *)

From stdpp Require Export base tactics list gmap.
From Stdlib Require Export ZArith Lia.

#[export] Set Warnings "-clear-no-such-hyp".

Declare Scope llte_scope.
Delimit Scope llte_scope with llte.

#[local] Open Scope Z_scope.

(** ** Results of C++ code: a value, or the fault that stopped it *)

(** What the language leaves undefined, and a loop that has used its fuel. *)
Inductive fault :=
  | OutOfBounds
  | SignedOverflow
  | DivByZero
  | OutOfFuel
  | DataRace
  | DanglingIterator.

Inductive outcome (A : Type) :=
  | Ret (a : A)
  | Fault (f : fault).
Arguments Ret {A} a.
Arguments Fault {A} f.

#[export] Instance outcome_ret : MRet outcome := @Ret.
#[export] Instance outcome_bind : MBind outcome := λ A B f m,
  match m with
  | Ret a => f a
  | Fault e => Fault e
  end.

#[export] Instance fault_eq_dec : EqDecision fault.
Proof. solve_decision. Defined.
#[export] Instance outcome_eq_dec `{EqDecision A} : EqDecision (outcome A).
Proof. solve_decision. Defined.

Definition of_option {A} (f : fault) (o : option A) : outcome A :=
  match o with
  | Some a => Ret a
  | None => Fault f
  end.

(** ** Machine integers *)

Definition u8 (z : Z) : Z := z mod 2 ^ 8.
Definition u16 (z : Z) : Z := z mod 2 ^ 16.
Definition u32 (z : Z) : Z := z mod 2 ^ 32.
Definition u64 (z : Z) : Z := z mod 2 ^ 64.

Definition int64_min : Z := - 2 ^ 63.
Definition int64_max : Z := 2 ^ 63 - 1.
Definition in_i64 (z : Z) : bool := (int64_min <=? z) && (z <=? int64_max).

(** Signed arithmetic: a result outside the type is undefined behaviour. *)
Definition i64 (z : Z) : outcome Z :=
  if in_i64 z then Ret z else Fault SignedOverflow.

Definition i32 (z : Z) : outcome Z :=
  if (- 2 ^ 31 <=? z) && (z <=? 2 ^ 31 - 1) then Ret z else Fault SignedOverflow.

(** [std::size_t] modulus: a zero divisor is undefined behaviour. *)
Definition umod (a b : Z) : outcome Z :=
  if b =? 0 then Fault DivByZero else Ret (a mod b).

(** ** Vectors indexed by machine integers *)

Definition vlen {A} (l : list A) : Z := Z.of_nat (length l).

Definition vget {A} (l : list A) (i : Z) : option A :=
  if 0 <=? i then l !! Z.to_nat i else None.

Definition vset {A} (l : list A) (i : Z) (x : A) : list A :=
  if 0 <=? i then <[Z.to_nat i := x]> l else l.

Notation "l ⟦ i ⟧" := (vget l i) (at level 1, left associativity, format "l ⟦ i ⟧") : llte_scope.
Notation "l ⟦ i := x ⟧" := (vset l i x)
  (at level 1, left associativity, format "l ⟦ i  :=  x ⟧") : llte_scope.
#[local] Open Scope llte_scope.

(** [v[i]] as an rvalue, and as the target of an assignment. *)
Definition load {A} (l : list A) (i : Z) : outcome A := of_option OutOfBounds (l⟦i⟧).
Definition assign {A} (l : list A) (i : Z) (x : A) : outcome (list A) :=
  if (0 <=? i) && (i <? vlen l) then Ret (l⟦i := x⟧) else Fault OutOfBounds.

(** ** Lemmas: outcomes *)

Lemma bind_ret {A B} (a : A) (f : A → outcome B) : mbind f (Ret a) = f a.
Proof. done. Qed.

Lemma bind_Ret_inv {A B} (m : outcome A) (f : A → outcome B) b :
  mbind f m = Ret b → ∃ a, m = Ret a ∧ f a = Ret b.
Proof. destruct m; naive_solver. Qed.

(** Goes on with the result of a call that returned. *)
Ltac returns := cbn [mbind outcome_bind].

(** The call returns, with a result that satisfies [P]. *)
Definition yields {A} (m : outcome A) (P : A → Prop) : Prop := ∃ a, m = Ret a ∧ P a.

Lemma yields_ret {A} (a : A) P : P a → yields (Ret a) P.
Proof. intros. by exists a. Qed.

Lemma yields_bind {A B} (m : outcome A) (f : A → outcome B) P Q :
  yields m P → (∀ a, P a → yields (f a) Q) → yields (m ≫= f) Q.
Proof. intros (a & -> & Ha) Hf. by apply Hf. Qed.

Lemma yields_impl {A} (m : outcome A) P Q : yields m P → (∀ a, P a → Q a) → yields m Q.
Proof. intros (a & -> & Ha) HPQ. exists a. auto. Qed.

(** Inverts a run that returned: one equation per call, one per test. *)
Ltac run_inv :=
  repeat match goal with
  | H : mbind _ _ = Ret _ |- _ => apply bind_Ret_inv in H as (? & ? & H); cbn beta iota in H
  | H : (let '(_, _) := ?x in _) = Ret _ |- _ => destruct x; cbn beta iota in H
  | H : (if ?c then _ else _) = Ret _ |- _ => destruct c eqn:?
  | H : Ret _ = Ret _ |- _ => injection H; clear H; intros
  | H : Fault _ = Ret _ |- _ => discriminate H
  end.

(** ** Lemmas: vectors *)

Section vectors.
Context {A : Type}.
Implicit Types (l : list A) (i j : Z) (x y : A).

Lemma vlen_nonneg l : 0 ≤ vlen l.
Proof. unfold vlen. lia. Qed.

Lemma vget_Some_range l i x : l⟦i⟧ = Some x → 0 ≤ i < vlen l.
Proof.
  unfold vget, vlen. case_match; [|done].
  intros ?%lookup_lt_Some. lia.
Qed.

Lemma vget_is_Some l i : 0 ≤ i < vlen l → ∃ x, l⟦i⟧ = Some x.
Proof.
  unfold vget, vlen. intros. destruct (Z.leb_spec 0 i); [|lia].
  destruct (lookup_lt_is_Some_2 l (Z.to_nat i)) as [x ?]; [lia|eauto].
Qed.

Lemma vget_out l i : ¬ (0 ≤ i < vlen l) → l⟦i⟧ = None.
Proof.
  intros. destruct (l⟦i⟧) eqn:E; [|done]. by apply vget_Some_range in E.
Qed.

Lemma vlen_vset l i x : vlen (l⟦i := x⟧) = vlen l.
Proof. unfold vset, vlen. case_match; [by rewrite length_insert|done]. Qed.

Lemma vget_vset_eq l i x : 0 ≤ i < vlen l → l⟦i := x⟧⟦i⟧ = Some x.
Proof.
  unfold vget, vset, vlen. intros. destruct (Z.leb_spec 0 i); [|lia].
  apply list_lookup_insert_eq. lia.
Qed.

Lemma vget_vset_ne l i j x : i ≠ j → l⟦i := x⟧⟦j⟧ = l⟦j⟧.
Proof.
  unfold vget, vset. intros.
  destruct (Z.leb_spec 0 i), (Z.leb_spec 0 j); try done.
  apply list_lookup_insert_ne. lia.
Qed.

Lemma vget_vset l i j x :
  l⟦i := x⟧⟦j⟧ = if decide (i = j ∧ 0 ≤ i < vlen l) then Some x else l⟦j⟧.
Proof.
  case_decide as H; [destruct H as [-> ?]; by apply vget_vset_eq|].
  destruct (decide (i = j)) as [->|]; [|by apply vget_vset_ne].
  rewrite !vget_out; rewrite ?vlen_vset; tauto.
Qed.

Lemma vget_replicate n i x y : vget (replicate n x) i = Some y → y = x.
Proof.
  unfold vget. case_match; [|done]. intros [? _]%lookup_replicate. done.
Qed.

Lemma vlen_replicate n x : vlen (replicate n x) = Z.of_nat n.
Proof. unfold vlen. by rewrite length_replicate. Qed.

Lemma vget_nat l (n : nat) : l⟦Z.of_nat n⟧ = l !! n.
Proof. unfold vget. destruct (Z.leb_spec 0 (Z.of_nat n)); [|lia]. by rewrite Nat2Z.id. Qed.

Lemma vget_elem_of l i x : l⟦i⟧ = Some x → x ∈ l.
Proof. unfold vget. case_match; [|done]. apply list_elem_of_lookup_2. Qed.

Lemma vget_nil i : vget (A := A) [] i = None.
Proof. unfold vget. by case_match. Qed.

Lemma vlen_nil : vlen (@nil A) = 0.
Proof. done. Qed.

Lemma vlen_cons x l : vlen (x :: l) = vlen l + 1.
Proof. unfold vlen. simpl. lia. Qed.

Lemma vlen_app l k : vlen (l ++ k) = vlen l + vlen k.
Proof. unfold vlen. rewrite length_app. lia. Qed.

Lemma vlen_snoc l x : vlen (l ++ [x]) = vlen l + 1.
Proof. by rewrite vlen_app. Qed.

Lemma vget_cons_succ x l i : 0 ≤ i → (x :: l)⟦i + 1⟧ = l⟦i⟧.
Proof.
  intros. unfold vget. destruct (Z.leb_spec 0 (i + 1)), (Z.leb_spec 0 i); try lia.
  by replace (Z.to_nat (i + 1)) with (S (Z.to_nat i)) by lia.
Qed.

Lemma vget_snoc_eq l x : (l ++ [x])⟦vlen l⟧ = Some x.
Proof. unfold vlen. rewrite vget_nat. apply list_lookup_middle. done. Qed.

Lemma vget_snoc_ne l x i : i < vlen l → (l ++ [x])⟦i⟧ = l⟦i⟧.
Proof.
  unfold vget, vlen. intros. case_match; [|done]. apply lookup_app_l. lia.
Qed.

Lemma load_Some l i x : l⟦i⟧ = Some x → load l i = Ret x.
Proof. unfold load. by intros ->. Qed.

Lemma assign_ok l i x : 0 ≤ i < vlen l → assign l i x = Ret (l⟦i := x⟧).
Proof.
  intros. unfold assign. destruct (Z.leb_spec 0 i), (Z.ltb_spec i (vlen l)); lia || done.
Qed.

Lemma vec_eq l l' :
  vlen l = vlen l' → (∀ i, 0 ≤ i < vlen l → l⟦i⟧ = l'⟦i⟧) → l = l'.
Proof.
  intros Hlen H. apply list_eq_same_length with (length l); unfold vlen in *; [lia..|].
  intros i x y Hi Hx Hy. specialize (H (Z.of_nat i)). rewrite !vget_nat in H.
  rewrite Hx, Hy in H. assert (Some x = Some y) by (apply H; lia). by simplify_eq.
Qed.
End vectors.

(** Lengths of built vectors. *)
Create Rewrite HintDb vec.
#[export] Hint Rewrite @vlen_vset @vlen_replicate @vlen_nil @vlen_cons @vlen_app : vec.

Ltac vlen_lia := autorewrite with vec; lia.

(** ** Lemmas: machine integers *)

Lemma u32_small z : 0 ≤ z < 2 ^ 32 → u32 z = z.
Proof. apply Z.mod_small. Qed.

Lemma u64_small z : 0 ≤ z < 2 ^ 64 → u64 z = z.
Proof. apply Z.mod_small. Qed.

Lemma u64_range z : 0 ≤ u64 z < 2 ^ 64.
Proof. by apply Z.mod_pos_bound. Qed.

(** Counters closer than 2^64 are compared through their residues. *)
Lemma u64_sub a b : 0 ≤ b ≤ a → a - b < 2 ^ 64 → u64 (u64 a - u64 b) = a - b.
Proof.
  intros. unfold u64. rewrite <- Zminus_mod. apply Z.mod_small. lia.
Qed.

Lemma u64_eqb a b : 0 ≤ b ≤ a → a - b < 2 ^ 64 → (u64 b =? u64 a) = (b =? a).
Proof.
  intros H1 H2. destruct (Z.eqb_spec (u64 b) (u64 a)) as [E|E].
  - pose proof (u64_sub a b H1 H2) as Hs. rewrite E, Z.sub_diag in Hs.
    symmetry. apply Z.eqb_eq. unfold u64 in Hs. rewrite Z.mod_0_l in Hs by lia. lia.
  - symmetry. apply Z.eqb_neq. congruence.
Qed.

Lemma u64_succ n : u64 (u64 n + 1) = u64 (n + 1).
Proof. unfold u64. apply Zplus_mod_idemp_l. Qed.

Lemma i64_ok z : - 2 ^ 63 ≤ z ≤ 2 ^ 63 - 1 → i64 z = Ret z.
Proof.
  intros. unfold i64, in_i64, int64_min, int64_max.
  destruct (Z.leb_spec (- 2 ^ 63) z), (Z.leb_spec z (2 ^ 63 - 1)); lia || done.
Qed.

Lemma umod_ok a b : b ≠ 0 → umod a b = Ret (a mod b).
Proof. intros. unfold umod. by destruct (Z.eqb_spec b 0). Qed.

(** ** Updating one element, and the ends of a list *)

Definition vupd {A} (l : list A) (i : Z) (f : A → A) : list A :=
  match l⟦i⟧ with
  | Some x => l⟦i := f x⟧
  | None => l
  end.

Definition hd_or {A} (d : A) (l : list A) : A :=
  match l with [] => d | x :: _ => x end.

Fixpoint last_or {A} (d : A) (l : list A) : A :=
  match l with [] => d | x :: l => last_or x l end.

Section updates.
Context {A : Type}.
Implicit Types (l : list A) (i j : Z) (x d : A).

Lemma vget_vupd l i j f :
  (vupd l i f)⟦j⟧ = if decide (i = j) then f <$> l⟦j⟧ else l⟦j⟧.
Proof.
  unfold vupd. destruct (l⟦i⟧) as [x|] eqn:E.
  - rewrite vget_vset. pose proof (vget_Some_range _ _ _ E).
    repeat case_decide; subst; rewrite ?E; tauto || done.
  - case_decide; subst; by rewrite ?E.
Qed.

Lemma vget_vupd_eq l i f : (vupd l i f)⟦i⟧ = f <$> l⟦i⟧.
Proof. rewrite vget_vupd. by case_decide. Qed.

Lemma vget_vupd_ne l i j f : i ≠ j → (vupd l i f)⟦j⟧ = l⟦j⟧.
Proof. rewrite vget_vupd. by case_decide. Qed.

Lemma vlen_vupd l i f : vlen (vupd l i f) = vlen l.
Proof. unfold vupd. case_match; [apply vlen_vset|done]. Qed.

Lemma vupd_Some l i f x : l⟦i⟧ = Some x → vupd l i f = l⟦i := f x⟧.
Proof. unfold vupd. by intros ->. Qed.

Lemma vupd_vupd l i f g : vupd (vupd l i f) i g = vupd l i (λ x, g (f x)).
Proof.
  apply vec_eq; [by rewrite !vlen_vupd|]. intros j _. rewrite !vget_vupd.
  case_decide; [|done]. by destruct (l⟦j⟧).
Qed.

Lemma last_or_app d l k : last_or d (l ++ k) = last_or (last_or d l) k.
Proof. revert d. induction l; simpl; auto. Qed.

Lemma hd_or_app d l k : hd_or d (l ++ k) = hd_or (hd_or d k) l.
Proof. by destruct l. Qed.

Lemma last_or_elem d l : last_or d l = d ∨ last_or d l ∈ l.
Proof.
  revert d. induction l as [|x l IH]; intros d; simpl; [by left|right].
  destruct (IH x) as [->|]; set_solver.
Qed.

Lemma last_or_elem_of d l : l ≠ [] → last_or d l ∈ l.
Proof.
  destruct l as [|x l]; [done|]. intros _. simpl.
  destruct (last_or_elem x l) as [->|]; set_solver.
Qed.

Lemma hd_or_elem_of d l : l ≠ [] → hd_or d l ∈ l.
Proof. destruct l; [done|]. simpl. set_solver. Qed.

(** A list with a first and a last element: either end, or neither. *)
Lemma list_snoc_case l : l = [] ∨ ∃ k x, l = k ++ [x].
Proof. destruct l as [|x l _] using rev_ind; eauto. Qed.
End updates.

Lemma NoDup_fst_inj {A B} (l : list (A * B)) x y y' :
  NoDup l.*1 → (x, y) ∈ l → (x, y') ∈ l → y = y'.
Proof.
  intros Hnd Hy Hy'. apply list_elem_of_lookup in Hy as [i Hi], Hy' as [j Hj].
  assert (i = j) as ->.
  { eapply NoDup_lookup; [done|..]; rewrite list_lookup_fmap; [by rewrite Hi|by rewrite Hj]. }
  congruence.
Qed.

Lemma fmap_sublist {A B} (f : A → B) (l k : list A) :
  l `sublist_of` k → f <$> l `sublist_of` f <$> k.
Proof. induction 1; simpl; by constructor. Qed.

Lemma filter_keep {A} (P : A → Prop) `{!∀ x, Decision (P x)} (l : list A) :
  (∀ x, x ∈ l → P x) → filter P l = l.
Proof.
  induction l as [|x l IH]; intros Hall; [done|].
  rewrite filter_cons_True by (apply Hall; set_solver). f_equal. apply IH. set_solver.
Qed.

Lemma filter_drop {A} (P : A → Prop) `{!∀ x, Decision (P x)} (l : list A) :
  (∀ x, x ∈ l → ¬ P x) → filter P l = [].
Proof.
  induction l as [|x l IH]; intros Hall; [done|].
  rewrite filter_cons_False by (apply Hall; set_solver). apply IH. set_solver.
Qed.

Lemma filter_ext_elem {A} (P Q : A → Prop) `{!∀ x, Decision (P x), !∀ x, Decision (Q x)}
    (l : list A) :
  (∀ x, x ∈ l → P x ↔ Q x) → filter P l = filter Q l.
Proof.
  induction l as [|x l IH]; intros Hall; [done|]. rewrite !filter_cons.
  assert (P x ↔ Q x) as Hx by (apply Hall; set_solver).
  rewrite IH by (intros; apply Hall; set_solver). by repeat case_decide; try tauto.
Qed.

Lemma fmap_keep {A} (f : A → A) (l : list A) : (∀ x, x ∈ l → f x = x) → f <$> l = l.
Proof.
  induction l as [|x l IH]; intros Hall; [done|]. rewrite fmap_cons.
  f_equal; [apply Hall; set_solver|apply IH; set_solver].
Qed.

Lemma seqZ_vec_elem n x : x ∈ seqZ 0 n ↔ 0 ≤ x < n.
Proof. rewrite elem_of_seqZ. lia. Qed.

(** ** Sums over a vector *)

Definition total {A} (f : A → Z) (l : list A) : Z := foldr (λ x acc, f x + acc) 0 l.

Section totals.
Context {A : Type} (f : A → Z).
Implicit Types l : list A.

Lemma total_app l k : total f (l ++ k) = total f l + total f k.
Proof. induction l as [|x l IH]; simpl; lia. Qed.

Lemma total_vset l i x y : l⟦i⟧ = Some x → total f (l⟦i := y⟧) = total f l - f x + f y.
Proof.
  unfold vget, vset. case_match; [|done]. intros E. apply list_elem_of_split_length in E as (l1 & l2 & -> & E).
  rewrite E, insert_app_r_alt, Nat.sub_diag by lia. simpl. rewrite !total_app. simpl. lia.
Qed.

Lemma total_bounds lo hi l : Forall (λ x, lo ≤ f x ≤ hi) l → vlen l * lo ≤ total f l ≤ vlen l * hi.
Proof. induction 1; [done|]. rewrite vlen_cons. simpl. lia. Qed.

Lemma total_replicate m x : total f (replicate m x) = Z.of_nat m * f x.
Proof. induction m as [|m IH]; [done|]. simpl replicate. simpl. lia. Qed.

(** A sum that attains its bound attains it everywhere. *)
Lemma total_max hi l : Forall (λ x, f x ≤ hi) l → total f l = vlen l * hi → Forall (λ x, f x = hi) l.
Proof.
  assert (∀ l, Forall (λ x, f x ≤ hi) l → total f l ≤ vlen l * hi) as Hle.
  { induction 1; [done|]. rewrite vlen_cons. simpl. lia. }
  induction 1 as [|x l Hx Hl IH]; [by constructor|]. rewrite vlen_cons. simpl.
  pose proof (Hle l Hl). intros. constructor; [lia|]. apply IH. lia.
Qed.
End totals.

Lemma total_fmap {A B} (f : B → Z) (g : A → B) (l : list A) : total f (g <$> l) = total (λ x, f (g x)) l.
Proof. induction l as [|x l IH]; simpl; [done|]. by rewrite <- IH. Qed.

Lemma vset_fmap {A B} (f : A → B) (l : list A) i x : (f <$> l⟦i := x⟧) = (f <$> l)⟦i := f x⟧.
Proof. unfold vset. case_match; [apply list_fmap_insert|done]. Qed.

Lemma vget_fmap {A B} (f : A → B) (l : list A) i : (f <$> l)⟦i⟧ = f <$> l⟦i⟧.
Proof. unfold vget. case_match; [apply list_lookup_fmap|done]. Qed.

Lemma vlen_fmap {A B} (f : A → B) (l : list A) : vlen (f <$> l) = vlen l.
Proof. unfold vlen. by rewrite length_fmap. Qed.

Lemma Forall_vget {A} (P : A → Prop) l i x : Forall P l → l⟦i⟧ = Some x → P x.
Proof. rewrite Forall_forall. intros H ?%vget_elem_of. auto. Qed.

Lemma Forall_vset {A} (P : A → Prop) l i x : Forall P l → P x → Forall P (l⟦i := x⟧).
Proof. intros. unfold vset. case_match; [by apply Forall_insert|done]. Qed.

Lemma Forall2_vget {A B} (P : A → B → Prop) l k i x :
  Forall2 P l k → l⟦i⟧ = Some x → ∃ y, k⟦i⟧ = Some y ∧ P x y.
Proof. unfold vget. case_match; [|done]. intros H' Hx. destruct (Forall2_lookup_l _ _ _ _ _ H' Hx). eauto. Qed.

Lemma Forall2_vset {A B} (P : A → B → Prop) l k i x y :
  Forall2 P l k → P x y → Forall2 P (l⟦i := x⟧) (k⟦i := y⟧).
Proof. intros. unfold vset. case_match; [by apply Forall2_insert|done]. Qed.

Lemma vset_same {A} (l : list A) i x : l⟦i⟧ = Some x → l⟦i := x⟧ = l.
Proof.
  intros Hx. apply vec_eq; [apply vlen_vset|]. intros j _. rewrite vget_vset.
  case_decide as Hj; [|done]. by destruct Hj as [<- _].
Qed.

Lemma vget_in {A} (l : list A) x : x ∈ l → ∃ i, l⟦i⟧ = Some x.
Proof. intros [i Hi]%list_elem_of_lookup. exists (Z.of_nat i). by rewrite vget_nat. Qed.
