(* ===== verification/Clock.v ===== *)
(** * The clock and the sleeps

    [include/llte/clock.hpp] and the [sleep_ms] of the exchange, which the recovery
    client and the shared segment repeat: what is computed from and for the
    [timespec] of the C library. *)

From S2P Require Import Prelude.

#[local] Open Scope Z_scope.

Record timespec := mkTimespec { tv_sec : Z; tv_nsec : Z }.

(** What [clock_gettime] fills in, and what [nanosleep] accepts. *)
Definition timespec_ok (ts : timespec) : Prop := 0 ≤ tv_sec ts < 2 ^ 63 ∧ 0 ≤ tv_nsec ts < 1000000000.

(** [now_ns], from the reading of [CLOCK_MONOTONIC] *)
Definition now_ns (ts : timespec) : Z := u64 (u64 (u64 (tv_sec ts) * 1000000000) + u64 (tv_nsec ts)).

(** [sleep_ms]: the request passed to [nanosleep] *)
Definition sleep_ms (milliseconds : Z) : timespec :=
  mkTimespec (Z.quot milliseconds 1000) (Z.rem milliseconds 1000 * 1000000).

Definition earlier (a b : timespec) : Prop := tv_sec a < tv_sec b ∨ tv_sec a = tv_sec b ∧ tv_nsec a < tv_nsec b.

(** For the first 584 years the number of nanoseconds is exact, and so a later
    reading is a larger number. *)
Lemma now_ns_exact ts : timespec_ok ts → tv_sec ts < 18446744073 → now_ns ts = tv_sec ts * 1000000000 + tv_nsec ts.
Proof. intros [Hs Hn] Hr. unfold now_ns. rewrite (u64_small (tv_sec ts)), (u64_small (tv_nsec ts)) by lia. by rewrite (u64_small (_ * _)), u64_small by lia. Qed.

Lemma now_ns_monotone a b :
  timespec_ok a → timespec_ok b → tv_sec a < 18446744073 → tv_sec b < 18446744073 → earlier a b ↔ now_ns a < now_ns b.
Proof.
  intros Ha Hb Hsa Hsb. rewrite !now_ns_exact by done. destruct Ha as [? ?], Hb as [? ?]. unfold earlier. lia.
Qed.

(** A sleep of [ms] milliseconds is asked for exactly; a negative one is a request
    that [nanosleep] refuses, and so no sleep. *)
Lemma sleep_ms_exact ms : 0 ≤ ms ≤ 2 ^ 31 - 1 →
  timespec_ok (sleep_ms ms) ∧ tv_sec (sleep_ms ms) * 1000000000 + tv_nsec (sleep_ms ms) = ms * 1000000.
Proof. intros Hms. unfold timespec_ok, sleep_ms. simpl. Z.quot_rem_to_equations. lia. Qed.

Lemma sleep_ms_negative ms : ms < 0 → ¬ timespec_ok (sleep_ms ms).
Proof.
  intros Hms [Hs Hn]. unfold sleep_ms in *. simpl in *. Z.quot_rem_to_equations. lia.
Qed.
