(* ===== verification/Fairness.v ===== *)
(** * Fair schedules

    Threads that take turns. In a round every thread that could make progress gets a
    turn in which it can; a measure that turns never raise, and that a turn of the
    thread whose progress counts lowers, then bounds the rounds until the end. *)

From S2P Require Import Prelude.

Section turns.
Context {S T : Type} (turn : S → T → outcome S).

(** The turns of a schedule, one after the other. *)
Fixpoint take_turns (s : S) (ts : list T) : outcome S :=
  match ts with
  | [] => Ret s
  | t :: ts => s ← turn s t; take_turns s ts
  end.

Lemma take_turns_app ts ts' : ∀ s, take_turns s (ts ++ ts') = (s ← take_turns s ts; take_turns s ts').
Proof. induction ts as [|t ts IH]; intros s; [done|]. cbn [take_turns app]. destruct (turn s t); [apply IH|done]. Qed.

(** [helps s t]: in [s] it is up to the turn [t]. [allowed]: the turns that are considered. *)
Context (I ended : S → Prop) (measure : S → nat) (helps : S → T → Prop) (allowed : T → Prop).

Class Progress : Prop := {
  progress_turn s t : I s → allowed t → ∃ s', turn s t = Ret s' ∧ I s' ∧
    (measure s' < measure s ∨ measure s' = measure s ∧ (helps s t → ended s) ∧ ∀ t', helps s t' → helps s' t')%nat;
  progress_end s : I s → measure s = 0%nat → ended s;
  progress_stays s s' t : I s → ended s → turn s t = Ret s' → ended s'
}.

Context `{Hprog : !Progress}.

(** A round in which, whatever the state, a turn that helps occurs. *)
Definition fair_round (ts : list T) : Prop :=
  Forall allowed ts ∧ ∀ s, I s → ended s ∨ ∃ t, t ∈ ts ∧ helps s t.

Lemma turns_return ts : ∀ s, I s → Forall allowed ts →
  ∃ s', take_turns s ts = Ret s' ∧ I s' ∧ (measure s' ≤ measure s)%nat ∧ (ended s → ended s').
Proof using Hprog.
  induction ts as [|t ts IH]; intros s Hs Hts; cbn [take_turns]; [by exists s|].
  apply Forall_cons in Hts as [Ht Hts]. destruct (progress_turn s t Hs Ht) as (s1 & Hturn & Hs1 & Hm).
  rewrite Hturn. returns. destruct (IH s1 Hs1 Hts) as (s2 & Hrun & Hs2 & Hle & Hend). exists s2. split; [exact Hrun|].
  split; [done|]. split; [destruct Hm as [?|[? _]]; lia|]. intros He. apply Hend. exact (progress_stays s s1 t Hs He Hturn).
Qed.

(** A round with a helpful turn in it ends or lowers the measure. *)
Lemma round_progress ts : ∀ s, I s → Forall allowed ts → (∃ t, t ∈ ts ∧ helps s t) →
  ∃ s', take_turns s ts = Ret s' ∧ I s' ∧ (ended s' ∨ (measure s' < measure s)%nat).
Proof using Hprog.
  induction ts as [|t ts IH]; intros s Hs Hts (t0 & Hin & Hhelp); [by apply elem_of_nil in Hin|].
  apply Forall_cons in Hts as [Ht Hts]. cbn [take_turns]. destruct (progress_turn s t Hs Ht) as (s1 & Hturn & Hs1 & Hm).
  rewrite Hturn. returns. destruct Hm as [Hlt|(Heq & Hno & Hkeep)].
  { destruct (turns_return ts s1 Hs1 Hts) as (s2 & -> & Hs2 & Hle & _). exists s2. split; [done|]. split; [done|]. right. lia. }
  apply elem_of_cons in Hin as [->|Hin].
  - destruct (turns_return ts s1 Hs1 Hts) as (s2 & -> & Hs2 & _ & Hend). exists s2. split; [done|]. split; [done|].
    left. exact (Hend (progress_stays s s1 t Hs (Hno Hhelp) Hturn)).
  - destruct (IH s1 Hs1 Hts) as (s2 & -> & Hs2 & Hcase); [by eauto|]. exists s2. split; [done|]. split; [done|].
    destruct Hcase; [by left|right; lia].
Qed.

Lemma fair_rounds_end rounds : ∀ s, I s → Forall fair_round rounds → (measure s ≤ length rounds)%nat →
  ∃ s', take_turns s (concat rounds) = Ret s' ∧ I s' ∧ ended s'.
Proof using Hprog.
  induction rounds as [|ts rounds IH]; intros s Hs Hfair Hlen; simpl.
  { exists s. split; [done|]. split; [done|]. apply progress_end; [done|]. simpl in Hlen. lia. }
  apply Forall_cons in Hfair as [[Hts Hfr] Hfair]. rewrite take_turns_app.
  assert (Forall allowed (concat rounds)) as Hall.
  { clear IH Hlen. induction Hfair as [|ts' rounds [Hok _] _ IH]; simpl; [constructor|]. by apply Forall_app. }
  destruct (Hfr s Hs) as [He|Hh].
  - destruct (turns_return ts s Hs Hts) as (s1 & -> & Hs1 & _ & Hend). returns.
    destruct (turns_return (concat rounds) s1 Hs1 Hall) as (s2 & -> & Hs2 & _ & Hend2). exists s2. auto.
  - destruct (round_progress ts s Hs Hts Hh) as (s1 & -> & Hs1 & [He|Hlt]); returns.
    + destruct (turns_return (concat rounds) s1 Hs1 Hall) as (s2 & -> & Hs2 & _ & Hend2). exists s2. auto.
    + apply IH; [done|done|]. simpl in Hlen. lia.
Qed.
End turns.
