(* ===== verification/Message.v ===== *)
(** * Messages and protocol constants

    The data of [include/llte/market_message.hpp], [protocol.hpp],
    [pipeline.hpp] and of [FeedMessage] in [sequence_manager.hpp]. The C++
    scoped enumerations have a fixed underlying type, so a byte from the wire
    that names no enumerator is a legal value: it is kept as [..._raw]. *)

From S2P Require Import Prelude.

#[local] Open Scope Z_scope.

(** ** Enumerations *)

Inductive MessageType :=
  | Add | Cancel | Modify | Trade
  | MessageType_raw (byte : Z).

Inductive Side :=
  | Buy | Sell
  | Side_raw (byte : Z).

#[export] Instance MessageType_eq_dec : EqDecision MessageType.
Proof. solve_decision. Defined.
#[export] Instance Side_eq_dec : EqDecision Side.
Proof. solve_decision. Defined.

Definition MessageType_to_byte (t : MessageType) : Z :=
  match t with
  | Add => 1 | Cancel => 2 | Modify => 3 | Trade => 4
  | MessageType_raw b => b
  end.

Definition MessageType_of_byte (b : Z) : MessageType :=
  if b =? 1 then Add else if b =? 2 then Cancel else if b =? 3 then Modify
  else if b =? 4 then Trade else MessageType_raw b.

Definition Side_to_byte (s : Side) : Z :=
  match s with Buy => 1 | Sell => 2 | Side_raw b => b end.

Definition Side_of_byte (b : Z) : Side :=
  if b =? 1 then Buy else if b =? 2 then Sell else Side_raw b.

(** The test [side == Side::Buy]. *)
Definition is_buy (s : Side) : bool :=
  match s with Buy => true | _ => false end.

(** ** Records *)

Record MarketMessage := mkMessage {
  sequence_number : Z;
  timestamp_ns : Z;
  order_id : Z;
  price : Z;
  quantity : Z;
  symbol_id : Z;
  type : MessageType;
  side : Side;
  reserved : Z
}.

#[export] Instance MarketMessage_eq_dec : EqDecision MarketMessage.
Proof. solve_decision. Defined.

(** [MarketMessage{}]: every field zero, both enumerations unnamed. *)
Definition MarketMessage_zero : MarketMessage :=
  mkMessage 0 0 0 0 0 0 (MessageType_raw 0) (Side_raw 0) 0.

Record FeedMessage := mkFeed {
  message : MarketMessage;
  t0_recv : Z;
  t1_parsed : Z;
  recovered : bool
}.

Definition FeedMessage_zero : FeedMessage := mkFeed MarketMessage_zero 0 0 false.

Record PipelineEvent := mkEvent {
  msg : MarketMessage;
  ev_t0_recv : Z;
  ev_t1_parsed : Z;
  t2_enqueue : Z;
  ev_recovered : Z
}.

#[export] Instance FeedMessage_eq_dec : EqDecision FeedMessage.
Proof. solve_decision. Defined.
#[export] Instance PipelineEvent_eq_dec : EqDecision PipelineEvent.
Proof. solve_decision. Defined.

(** ** Protocol constants *)

Definition kFeedMagic : Z := 0x4C4C5445.
Definition kRecoveryMagic : Z := 0x4C4C5452.
Definition kMaxBatch : Z := 32.
Definition kMaxRecoveryBatch : Z := 1024.
