(* ===== verification/OrderIndex.v ===== *)
(** * The order-id index of [OrderBook]

    [IndexSlot], [mix], [find_index], [index_insert] and [index_erase] of
    [orderbook/order_book.cpp]: an open-addressed table with linear probing and
    backward-shift deletion. The loops carry the table's size as fuel. The
    second half proves that the table implements a finite map from order ids to
    pool slots, for every table whose size is a power of two. *)

From S2P Require Import Prelude.

#[local] Open Scope Z_scope.
#[local] Open Scope llte_scope.

(** ** Data *)

Record IndexSlot := mkIndexSlot { key : Z; value : Z }.

#[export] Instance IndexSlot_eq_dec : EqDecision IndexSlot.
Proof. solve_decision. Defined.

Definition kEmptyKey : Z := 0.
(** [std::numeric_limits<std::size_t>::max()]: "no position", "no level". *)
Definition kNoLevel : Z := 2 ^ 64 - 1.

(** ** Operations *)

(** The splitmix64 finalizer, on 64-bit words. *)
Definition mix (k : Z) : Z :=
  let k := u64 (k + 0x9e3779b97f4a7c15) in
  let k := u64 (Z.lxor k (Z.shiftr k 30) * 0xbf58476d1ce4e5b9) in
  let k := u64 (Z.lxor k (Z.shiftr k 27) * 0x94d049bb133111eb) in
  Z.lxor k (Z.shiftr k 31).

Definition ideal_position (mask k : Z) : Z := Z.land (mix k) mask.
Definition next_position (mask position : Z) : Z := Z.land (u64 (position + 1)) mask.

Fixpoint find_loop (fuel : nat) (index : list IndexSlot) (mask order_id position : Z)
    : outcome Z :=
  match fuel with
  | O => Fault OutOfFuel
  | S fuel =>
      slot ← load index position;
      if key slot =? kEmptyKey then Ret kNoLevel
      else if key slot =? order_id then Ret position
      else find_loop fuel index mask order_id (next_position mask position)
  end.

Definition find_index (index : list IndexSlot) (mask order_id : Z) : outcome Z :=
  find_loop (length index) index mask order_id (ideal_position mask order_id).

Fixpoint insert_loop (fuel : nat) (index : list IndexSlot) (mask order_id slot position : Z)
    : outcome (list IndexSlot) :=
  match fuel with
  | O => Fault OutOfFuel
  | S fuel =>
      here ← load index position;
      if key here =? kEmptyKey then assign index position (mkIndexSlot order_id slot)
      else insert_loop fuel index mask order_id slot (next_position mask position)
  end.

Definition index_insert (index : list IndexSlot) (mask order_id slot : Z)
    : outcome (list IndexSlot) :=
  insert_loop (length index) index mask order_id slot (ideal_position mask order_id).

Definition must_stay (hole probe ideal : Z) : bool :=
  if hole <? probe then (hole <? ideal) && (ideal <=? probe)
  else (hole <? ideal) || (ideal <=? probe).

(** The inner [for (;;)] of [index_erase]: [None] is its [return], [Some probe]
    its [break] with an entry that has to move into the hole. *)
Fixpoint erase_scan (fuel : nat) (index : list IndexSlot) (mask hole probe : Z)
    : outcome (option Z) :=
  match fuel with
  | O => Fault OutOfFuel
  | S fuel =>
      let probe := next_position mask probe in
      here ← load index probe;
      if key here =? kEmptyKey then Ret None
      else if negb (must_stay hole probe (ideal_position mask (key here)))
      then Ret (Some probe)
      else erase_scan fuel index mask hole probe
  end.

Fixpoint erase_loop (fuel : nat) (index : list IndexSlot) (mask hole : Z)
    : outcome (list IndexSlot) :=
  match fuel with
  | O => Fault OutOfFuel
  | S fuel =>
      here ← load index hole;
      index ← assign index hole (mkIndexSlot kEmptyKey (value here));
      found ← erase_scan (length index) index mask hole hole;
      match found with
      | None => Ret index
      | Some probe =>
          moved ← load index probe;
          index ← assign index hole moved;
          erase_loop fuel index mask probe
      end
  end.

Definition index_erase (index : list IndexSlot) (mask position : Z)
    : outcome (list IndexSlot) :=
  erase_loop (length index) index mask position.

(** ** Cyclic positions of a table of [2 ^ lg] slots *)

Section cyclic.
Context (lg : Z) (Hlg : 0 ≤ lg < 64).

Definition tsize : Z := 2 ^ lg.
Definition fwd (d p : Z) : Z := (p + d) mod tsize.
Definition dist (a b : Z) : Z := (b - a) mod tsize.
Definition home (k : Z) : Z := ideal_position (tsize - 1) k.

Lemma tsize_bounds : 0 < tsize < 2 ^ 64.
Proof using Hlg. unfold tsize. split; [lia|]. apply Z.pow_lt_mono_r; lia. Qed.

Lemma land_mask z : Z.land z (tsize - 1) = z mod tsize.
Proof using Hlg.
  unfold tsize. rewrite <- Z.land_ones by lia. f_equal.
  rewrite Z.ones_equiv. lia.
Qed.

Lemma home_range k : 0 ≤ home k < tsize.
Proof using Hlg.
  unfold home, ideal_position. rewrite land_mask.
  apply Z.mod_pos_bound. pose proof tsize_bounds. lia.
Qed.

Lemma next_position_fwd p : 0 ≤ p < tsize → next_position (tsize - 1) p = fwd 1 p.
Proof using Hlg.
  intros. pose proof tsize_bounds. unfold next_position.
  rewrite land_mask, u64_small by lia. done.
Qed.

Lemma fwd_range d p : 0 ≤ fwd d p < tsize.
Proof using Hlg. apply Z.mod_pos_bound. pose proof tsize_bounds. lia. Qed.

Lemma dist_range a b : 0 ≤ dist a b < tsize.
Proof using Hlg. apply Z.mod_pos_bound. pose proof tsize_bounds. lia. Qed.

Lemma fwd_cases d p : 0 ≤ p < tsize → 0 ≤ d < tsize →
  fwd d p = if decide (p + d < tsize) then p + d else p + d - tsize.
Proof using Hlg.
  intros. unfold fwd. case_decide; [apply Z.mod_small; lia|].
  symmetry. apply (Zmod_unique _ _ 1); lia.
Qed.

Lemma dist_cases a b : 0 ≤ a < tsize → 0 ≤ b < tsize →
  dist a b = if decide (a ≤ b) then b - a else b - a + tsize.
Proof using Hlg.
  intros. unfold dist. case_decide; [apply Z.mod_small; lia|].
  symmetry. apply (Zmod_unique _ _ (-1)); lia.
Qed.

Lemma dist_fwd d a : 0 ≤ a < tsize → 0 ≤ d < tsize → dist a (fwd d a) = d.
Proof using Hlg.
  intros. pose proof (fwd_range d a). rewrite dist_cases by done.
  rewrite fwd_cases by done. repeat case_decide; lia.
Qed.

Lemma fwd_dist a b : 0 ≤ a < tsize → 0 ≤ b < tsize → fwd (dist a b) a = b.
Proof using Hlg.
  intros. pose proof (dist_range a b). rewrite fwd_cases by done.
  rewrite dist_cases by done. repeat case_decide; lia.
Qed.

Lemma fwd_fwd d d' a : fwd d (fwd d' a) = fwd (d' + d) a.
Proof using Hlg.
  unfold fwd. pose proof tsize_bounds. rewrite Zplus_mod_idemp_l. f_equal. lia.
Qed.

Lemma fwd_0 a : 0 ≤ a < tsize → fwd 0 a = a.
Proof using Hlg. intros. unfold fwd. rewrite Z.add_0_r. by apply Z.mod_small. Qed.

Lemma must_stay_spec h p i :
  0 ≤ h < tsize → 0 ≤ p < tsize → 0 ≤ i < tsize → h ≠ p →
  must_stay h p i = true ↔ 0 < dist h i ≤ dist h p.
Proof using Hlg.
  intros. rewrite !dist_cases by done. unfold must_stay.
  repeat case_decide;
    destruct (Z.ltb_spec h p), (Z.ltb_spec h i), (Z.leb_spec i p); simpl;
    split; intros; try done; lia.
Qed.

(** The probe path from [i] to [p], in distances: what a scan from a hole
    learns about the entry at [p]. *)
Lemma path_avoids h p i d :
  0 ≤ h < tsize → 0 ≤ p < tsize → 0 ≤ i < tsize →
  0 < dist h i ≤ dist h p → 0 ≤ d < dist i p → fwd d i ≠ h.
Proof using Hlg.
  intros Hh Hp Hi. pose proof (dist_range i p). intros.
  rewrite fwd_cases by lia. revert H0 H1. rewrite !dist_cases by done.
  repeat case_decide; lia.
Qed.

Lemma path_prefix h p i :
  0 ≤ h < tsize → 0 ≤ p < tsize → 0 ≤ i < tsize → h ≠ p →
  ¬ (0 < dist h i ≤ dist h p) → dist i h < dist i p.
Proof using Hlg.
  intros Hh Hp Hi Hne. rewrite !dist_cases by done. repeat case_decide; lia.
Qed.

(** Going from [i] to [h] and then [j] further, without passing [p]. *)
Lemma path_extends h p i d j :
  0 ≤ h < tsize → 0 ≤ p < tsize → 0 ≤ i < tsize →
  0 ≤ d < dist i p → fwd d i = h → 0 ≤ j < dist h p → 0 ≤ d + j < dist i p.
Proof using Hlg.
  intros Hh Hp Hi Hd. pose proof (dist_range i p). rewrite fwd_cases by lia.
  revert Hd. rewrite !dist_cases by done. repeat case_decide; lia.
Qed.

(** ** The table as a finite map *)

Definition occupied (T : list IndexSlot) (p : Z) : Prop :=
  ∃ s, T⟦p⟧ = Some s ∧ key s ≠ kEmptyKey.

(** [probe_inv T exc m]: every entry is reachable from its home position
    through occupied slots, the positions of [exc] aside; keys are unique; the
    entries are those of [m]. *)
Record probe_inv (T : list IndexSlot) (exc : Z → Prop) (m : gmap Z Z) : Prop := {
  pi_len : vlen T = tsize;
  pi_path p s d :
    T⟦p⟧ = Some s → key s ≠ kEmptyKey → 0 ≤ d < dist (home (key s)) p →
    occupied T (fwd d (home (key s))) ∨ exc (fwd d (home (key s)));
  pi_uniq p q s t :
    T⟦p⟧ = Some s → T⟦q⟧ = Some t → key s = key t → key s ≠ kEmptyKey → p = q;
  pi_map k v :
    m !! k = Some v ↔ k ≠ kEmptyKey ∧ ∃ p, T⟦p⟧ = Some (mkIndexSlot k v)
}.

Definition index_rep (T : list IndexSlot) (m : gmap Z Z) : Prop :=
  probe_inv T (λ _, False) m.

Lemma slot_eta s : s = mkIndexSlot (key s) (value s).
Proof. by destruct s. Qed.

(** Fewer entries than slots: some slot is empty. *)
Lemma has_empty T exc m :
  probe_inv T exc m → Z.of_nat (size m) < tsize → ∃ e s, T⟦e⟧ = Some s ∧ key s = kEmptyKey.
Proof using Hlg.
  intros HT Hsize. destruct (decide (Exists (λ s, key s = kEmptyKey) T)) as [He|He].
  { apply Exists_exists in He as (s & Hs & Hk).
    apply list_elem_of_lookup in Hs as [i Hi].
    exists (Z.of_nat i), s. by rewrite vget_nat. }
  apply not_Exists_Forall in He; [|apply _]. rewrite Forall_forall in He. exfalso.
  assert (NoDup (key <$> T)) as Hnd.
  { apply NoDup_alt. intros i j k. rewrite !list_lookup_fmap.
    intros (s & Hi & ->)%fmap_Some (t & Hj & Hk)%fmap_Some.
    rewrite <- vget_nat in Hi, Hj.
    apply Nat2Z.inj, (pi_uniq _ _ _ HT _ _ s t Hi Hj Hk).
    apply He. by eapply vget_elem_of. }
  assert (list_to_set (C:=gset Z) (key <$> T) ⊆ dom m) as Hsub.
  { intros k. rewrite elem_of_list_to_set, list_elem_of_fmap.
    intros (s & -> & Hs). apply elem_of_dom. exists (value s).
    apply (pi_map _ _ _ HT). split; [by apply He|].
    apply list_elem_of_lookup in Hs as [i Hi]. exists (Z.of_nat i).
    by rewrite vget_nat, <- slot_eta. }
  apply subseteq_size in Hsub.
  rewrite size_list_to_set, length_fmap, size_dom in Hsub by done.
  pose proof (pi_len _ _ _ HT). unfold vlen in *. lia.
Qed.

Section with_table.
Context (T : list IndexSlot) (m : gmap Z Z).
Context (HT : index_rep T m) (Hload : Z.of_nat (size m) < tsize).

Lemma table_get p : 0 ≤ p < tsize → ∃ s, T⟦p⟧ = Some s.
Proof using HT. rewrite <- (pi_len _ _ _ HT). apply vget_is_Some. Qed.

Lemma table_path p s d :
  T⟦p⟧ = Some s → key s ≠ kEmptyKey → 0 ≤ d < dist (home (key s)) p →
  occupied T (fwd d (home (key s))).
Proof using HT. intros ? ? ?. by edestruct (pi_path _ _ _ HT). Qed.

(** A scan that starts at [a] and has seen only occupied slots up to distance
    [d] has not yet gone round the table. *)
Lemma scan_within a d :
  0 ≤ a < tsize → 0 ≤ d → (∀ d', 0 ≤ d' < d → occupied T (fwd d' a)) → d < tsize.
Proof using HT Hload Hlg.
  intros Ha Hd Hocc. destruct (has_empty _ _ _ HT Hload) as (e & s & He & Hk).
  destruct (Z.lt_ge_cases d tsize) as [|Hge]; [done|]. exfalso.
  pose proof (vget_Some_range _ _ _ He) as Hr. rewrite (pi_len _ _ _ HT) in Hr.
  pose proof (dist_range a e).
  destruct (Hocc (dist a e)) as (s' & Hs' & Hk'); [lia|].
  rewrite fwd_dist in Hs' by done. by simplify_eq.
Qed.

Definition find_result (k : Z) (r : Z) : Prop :=
  match m !! k with
  | Some v => T⟦r⟧ = Some (mkIndexSlot k v)
  | None => r = kNoLevel
  end.

Lemma find_loop_spec k fuel d :
  0 ≤ d → Z.of_nat fuel = tsize - d →
  (∀ d', 0 ≤ d' < d → occupied T (fwd d' (home k)) ∧
     ∀ s, T⟦fwd d' (home k)⟧ = Some s → key s ≠ k) →
  ∃ r, find_loop fuel T (tsize - 1) k (fwd d (home k)) = Ret r ∧ find_result k r.
Proof using HT Hload Hlg.
  revert d. induction fuel as [|fuel IH]; intros d Hd Hfuel Hseen.
  { pose proof (scan_within (home k) d (home_range k) Hd (λ d' H, proj1 (Hseen d' H))). lia. }
  destruct (table_get (fwd d (home k))) as [s Hs]; [apply fwd_range|].
  simpl. rewrite (load_Some _ _ _ Hs). simpl.
  destruct (Z.eqb_spec (key s) kEmptyKey) as [He|Hne].
  { eexists; split; [done|]. unfold find_result.
    destruct (m !! k) as [v|] eqn:Hm; [exfalso|done].
    apply (pi_map _ _ _ HT) in Hm as [Hk0 [p Hp]].
    pose proof (vget_Some_range _ _ _ Hp) as Hr. rewrite (pi_len _ _ _ HT) in Hr.
    pose proof (dist_range (home k) p).
    destruct (Z.lt_trichotomy (dist (home k) p) d) as [Hlt|[Heq|Hgt]].
    - apply (proj2 (Hseen (dist (home k) p) ltac:(lia)) (mkIndexSlot k v)); [|done].
      by rewrite fwd_dist by auto using home_range.
    - subst d. rewrite fwd_dist in Hs by auto using home_range. by simplify_eq/=.
    - destruct (table_path p _ d Hp) as (s' & Hs' & Hk'); [done|simpl; lia|].
      simpl in Hs'. by simplify_eq. }
  destruct (Z.eqb_spec (key s) k) as [<-|Hk].
  { eexists; split; [done|]. unfold find_result.
    assert (m !! key s = Some (value s)) as ->; [|by rewrite <- slot_eta].
    apply (pi_map _ _ _ HT). split; [done|]. eexists. by rewrite <- slot_eta. }
  rewrite next_position_fwd, fwd_fwd by apply fwd_range.
  apply IH; [lia..|]. intros d' Hd'.
  destruct (decide (d' = d)) as [->|]; [|apply Hseen; lia].
  split; [by exists s|]. intros s' Hs'. by simplify_eq.
Qed.

Lemma find_index_spec k :
  ∃ r, find_index T (tsize - 1) k = Ret r ∧ find_result k r.
Proof using HT Hload Hlg.
  unfold find_index. change (ideal_position (tsize - 1) k) with (home k).
  rewrite <- (fwd_0 (home k)) by apply home_range.
  apply find_loop_spec; [lia| |lia].
  pose proof (pi_len _ _ _ HT). unfold vlen in *. lia.
Qed.

Lemma occupied_mono T' p q s :
  T' = T⟦q := s⟧ → key s ≠ kEmptyKey → occupied T p → occupied T' p.
Proof.
  intros -> Hs (t & Ht & Hk). unfold occupied. rewrite vget_vset.
  case_decide; [by exists s|by exists t].
Qed.

(** Writing a fresh key into the first empty slot of its probe path. *)
Lemma insert_at k v d :
  k ≠ kEmptyKey → m !! k = None →
  0 ≤ d < tsize → (∀ d', 0 ≤ d' < d → occupied T (fwd d' (home k))) →
  (∃ s, T⟦fwd d (home k)⟧ = Some s ∧ key s = kEmptyKey) →
  index_rep (T⟦fwd d (home k) := mkIndexSlot k v⟧) (<[k := v]> m).
Proof using HT Hlg.
  intros Hk Hm Hd Hpath (e & He & Hek). set (pos := fwd d (home k)) in *.
  pose proof (vget_Some_range _ _ _ He) as Hpos.
  assert (∀ p s, T⟦p⟧ = Some s → key s ≠ k) as Hfresh.
  { intros p s Hp <-. assert (m !! key s = Some (value s)); [|congruence].
    apply (pi_map _ _ _ HT). split; [done|]. exists p. by rewrite <- slot_eta. }
  split.
  - by rewrite vlen_vset, (pi_len _ _ _ HT).
  - intros p s d' Hp Hs Hd'. left. eapply occupied_mono; [done|done|].
    rewrite vget_vset in Hp. case_decide as Hc; [|by eapply table_path].
    destruct Hc as [<- _]. injection Hp as <-. simpl in *. apply Hpath.
    unfold pos in Hd'. rewrite dist_fwd in Hd' by auto using home_range. lia.
  - intros p q s t. rewrite !vget_vset. intros Hp Hq Hst Hs.
    destruct (decide (pos = p ∧ _)) as [[<- _]|];
      destruct (decide (pos = q ∧ _)) as [[<- _]|].
    + done.
    + injection Hp as <-. by destruct (Hfresh q t).
    + injection Hq as <-. by destruct (Hfresh p s).
    + by eapply (pi_uniq _ _ _ HT).
  - intros k' v'. rewrite lookup_insert. case_decide as Hkk; [subst k'|].
    + split.
      * intros [= <-]. split; [done|]. exists pos. by apply vget_vset_eq.
      * intros [_ [p Hp]]. rewrite vget_vset in Hp. case_decide; [congruence|].
        by apply Hfresh in Hp.
    + rewrite (pi_map _ _ _ HT). split; intros [Hk' [p Hp]]; (split; [done|]); exists p.
      * rewrite vget_vset. case_decide as Hc; [|done].
        destruct Hc as [<- _]. by simplify_eq/=.
      * rewrite vget_vset in Hp. case_decide; [congruence|done].
Qed.

Lemma insert_loop_spec k v fuel d :
  k ≠ kEmptyKey → m !! k = None → 0 ≤ d → Z.of_nat fuel = tsize - d →
  (∀ d', 0 ≤ d' < d → occupied T (fwd d' (home k))) →
  ∃ T', insert_loop fuel T (tsize - 1) k v (fwd d (home k)) = Ret T' ∧
        index_rep T' (<[k := v]> m).
Proof using HT Hload Hlg.
  intros Hk Hm. revert d. induction fuel as [|fuel IH]; intros d Hd Hfuel Hseen.
  { pose proof (scan_within (home k) d (home_range k) Hd Hseen). lia. }
  destruct (table_get (fwd d (home k))) as [s Hs]; [apply fwd_range|].
  simpl. rewrite (load_Some _ _ _ Hs). simpl.
  destruct (Z.eqb_spec (key s) kEmptyKey) as [He|Hne].
  - rewrite assign_ok by (by eapply vget_Some_range). eexists; split; [done|].
    apply insert_at; [done..| |done|by exists s]. lia.
  - rewrite next_position_fwd, fwd_fwd by apply fwd_range.
    apply IH; [lia..|]. intros d' Hd'.
    destruct (decide (d' = d)) as [->|]; [by exists s|apply Hseen; lia].
Qed.

Lemma index_insert_spec k v :
  k ≠ kEmptyKey → m !! k = None →
  ∃ T', index_insert T (tsize - 1) k v = Ret T' ∧ index_rep T' (<[k := v]> m).
Proof using HT Hload Hlg.
  intros Hk Hm. unfold index_insert. change (ideal_position (tsize - 1) k) with (home k).
  rewrite <- (fwd_0 (home k)) by apply home_range.
  apply insert_loop_spec; [done..|lia| |lia].
  pose proof (pi_len _ _ _ HT). unfold vlen in *. lia.
Qed.
End with_table.

(** ** Backward-shift deletion *)

(** The loop invariant of [index_erase]: the hole is an empty slot that probe
    paths may cross; some other slot [e] is empty. *)
Record hole_inv (T : list IndexSlot) (h e : Z) (m : gmap Z Z) : Prop := {
  hi_inv : probe_inv T (eq h) m;
  hi_hole : ∃ s, T⟦h⟧ = Some s ∧ key s = kEmptyKey;
  hi_empty : ∃ s, T⟦e⟧ = Some s ∧ key s = kEmptyKey;
  hi_ne : h ≠ e
}.

Definition stays (T : list IndexSlot) (h q : Z) : Prop :=
  ∃ s, T⟦q⟧ = Some s ∧ key s ≠ kEmptyKey ∧ 0 < dist h (home (key s)) ≤ dist h q.

(** Reaching an empty slot closes the hole: no path needs it any more. *)
Lemma hole_closed T h e m j :
  hole_inv T h e m → 0 < j < tsize →
  (∀ j', 0 < j' < j → stays T h (fwd j' h)) →
  (∃ s, T⟦fwd j h⟧ = Some s ∧ key s = kEmptyKey) →
  index_rep T m.
Proof using Hlg.
  intros HI Hj Hstay (se & Hse & Hke). pose proof (hi_inv _ _ _ _ HI) as HT.
  destruct (hi_hole _ _ _ _ HI) as (sh & Hh & Hkh).
  assert (0 ≤ h < tsize) as Hhr.
  { rewrite <- (pi_len _ _ _ HT). by eapply vget_Some_range. }
  split; [apply HT| |apply HT|apply HT].
  intros p s d Hp Hk Hd. left.
  assert (0 ≤ p < tsize) as Hpr.
  { rewrite <- (pi_len _ _ _ HT). by eapply vget_Some_range. }
  destruct (pi_path _ _ _ HT p s d Hp Hk Hd) as [|Hq]; [done|exfalso].
  pose proof (home_range (key s)) as Hhome. pose proof (dist_range h p).
  destruct (decide (p = h)) as [->|Hph]; [by simplify_eq|].
  assert (0 < dist h p).
  { destruct (decide (dist h p = 0)) as [E|]; [|lia].
    pose proof (fwd_dist h p Hhr Hpr) as F. rewrite E, fwd_0 in F by done. done. }
  destruct (Z.lt_trichotomy (dist h p) j) as [Hlt|[Heq|Hgt]].
  - destruct (Hstay (dist h p) ltac:(lia)) as (s' & Hs' & _ & Hd').
    rewrite fwd_dist in Hs', Hd' by done.
    assert (s' = s) as -> by congruence. symmetry in Hq. revert Hq.
    by eapply (path_avoids h p (home (key s)) d).
  - subst j. rewrite fwd_dist in Hse by done. by simplify_eq.
  - pose proof (path_extends h p (home (key s)) d j Hhr Hpr Hhome Hd (eq_sym Hq) ltac:(lia)).
    destruct (pi_path _ _ _ HT p s (d + j) Hp Hk ltac:(lia)) as [Ho|Ho];
      rewrite <- fwd_fwd, <- Hq in Ho.
    + destruct Ho as (? & ? & ?). by simplify_eq.
    + assert (dist h (fwd j h) = j) as E by (apply dist_fwd; lia).
      rewrite <- Ho in E. unfold dist in E. rewrite Z.sub_diag, Zmod_0_l in E. lia.
Qed.

(** Moving an entry that may move: the hole goes to its old slot. *)
Section moved.
Context {T : list IndexSlot} {h e : Z} {m : gmap Z Z} {p : Z} {s : IndexSlot}.
Context (HI : hole_inv T h e m) (Hp : T⟦p⟧ = Some s) (Hk : key s ≠ kEmptyKey).
Context (Hmove : ¬ (0 < dist h (home (key s)) ≤ dist h p)).
#[local] Abbreviation T' := (T⟦h := s⟧⟦p := mkIndexSlot kEmptyKey (value s)⟧).

Lemma hole_not_moved : h ≠ p ∧ p ≠ e.
Proof using HI Hp Hk.
  destruct (hi_hole _ _ _ _ HI) as (sh & Hh & Hkh), (hi_empty _ _ _ _ HI) as (se & He & Hke).
  split; intros E; apply Hk; [rewrite E, Hp in Hh|rewrite <- E, Hp in He]; clear Hmove; congruence.
Qed.

Lemma moved_get q :
  T'⟦q⟧ = if decide (q = p) then Some (mkIndexSlot kEmptyKey (value s))
          else if decide (q = h) then Some s else T⟦q⟧.
Proof using HI Hp.
  destruct (hi_hole _ _ _ _ HI) as (sh & Hh & _).
  pose proof (vget_Some_range _ _ _ Hh) as Hhr. pose proof (vget_Some_range _ _ _ Hp) as Hpr.
  case_decide as Hqp; [subst q; by rewrite vget_vset_eq by (by rewrite vlen_vset)|].
  rewrite vget_vset_ne by done.
  case_decide as Hqh; [subst q; by rewrite vget_vset_eq|by rewrite vget_vset_ne].
Qed.

(** The entry that moved is closer to its home, the others stay. *)
Lemma moved_inv : probe_inv T' (eq p) m.
Proof using Hlg HI Hp Hk Hmove.
  pose proof (hi_inv _ _ _ _ HI) as HT. destruct hole_not_moved as [Hhp _].
  destruct (hi_hole _ _ _ _ HI) as (sh & Hh & Hkh).
  pose proof (vget_Some_range _ _ _ Hh) as Hhr. pose proof (vget_Some_range _ _ _ Hp) as Hpr. split.
  - rewrite !vlen_vset. apply HT.
  - intros q t d Hq Ht Hd.
    assert (∀ x, occupied T x ∨ h = x → occupied T' x ∨ p = x) as Hocc.
    { intros x [(y & Hy & Hyk)|<-]; unfold occupied; rewrite moved_get; repeat case_decide;
        subst; try (by right); left; eauto. }
    rewrite moved_get in Hq. case_decide; [by simplify_eq|]. case_decide as Hqh; apply Hocc.
    + simplify_eq. rewrite (pi_len _ _ _ HT) in Hhr, Hpr.
      assert (dist (home (key t)) h < dist (home (key t)) p) by (apply path_prefix; auto using home_range).
      apply (pi_path _ _ _ HT p t d); [done..|lia].
    + by apply (pi_path _ _ _ HT q t d).
  - intros q r t u. rewrite !moved_get. intros Hq Hr Htu Ht.
    destruct (decide (q = p)); [by simplify_eq/=|]. destruct (decide (r = p)); [by simplify_eq/=|].
    destruct (decide (q = h)), (decide (r = h)); [congruence|..].
    + injection Hq as <-. by destruct (pi_uniq _ _ _ HT p r s u).
    + injection Hr as <-. by destruct (pi_uniq _ _ _ HT q p t s).
    + by eapply (pi_uniq _ _ _ HT).
  - intros k v. rewrite (pi_map _ _ _ HT). split; intros [Hk0 [q Hq]]; (split; [done|]).
    + destruct (decide (q = p)) as [->|]; [exists h|exists q]; rewrite moved_get;
        repeat case_decide; simplify_eq/=; done.
    + rewrite moved_get in Hq. case_decide; [by simplify_eq/=|].
      case_decide; [exists p|exists q]; by simplify_eq.
Qed.

Lemma hole_moved : hole_inv T' p e m.
Proof using Hlg HI Hp Hk Hmove.
  destruct hole_not_moved as [Hhp Hpe]. destruct (hi_empty _ _ _ _ HI) as (se & He & Hke).
  pose proof (hi_ne _ _ _ _ HI) as Hhe. split.
  - exact moved_inv.
  - rewrite moved_get. case_decide; [|done]. by eexists.
  - rewrite moved_get. repeat case_decide; [done|by subst|by exists se].
  - done.
Qed.
End moved.

Lemma hole_range T h e m :
  hole_inv T h e m → 0 ≤ h < tsize ∧ 0 ≤ e < tsize ∧ 0 < dist h e.
Proof using Hlg.
  intros HI. pose proof (pi_len _ _ _ (hi_inv _ _ _ _ HI)) as Hl.
  destruct (hi_hole _ _ _ _ HI) as (sh & Hh & _), (hi_empty _ _ _ _ HI) as (se & He & _).
  apply vget_Some_range in Hh, He. rewrite Hl in Hh, He.
  repeat split; try lia. pose proof (hi_ne _ _ _ _ HI). pose proof (dist_range h e).
  destruct (decide (dist h e = 0)) as [E|]; [|lia].
  pose proof (fwd_dist h e Hh He) as F. rewrite E, fwd_0 in F by done. done.
Qed.

Lemma erase_scan_spec T h e m fuel j :
  hole_inv T h e m → 0 ≤ j → dist h e - j ≤ Z.of_nat fuel →
  (∀ j', 0 < j' ≤ j → stays T h (fwd j' h)) →
  (erase_scan fuel T (tsize - 1) h (fwd j h) = Ret None ∧ index_rep T m) ∨
  (∃ p s, erase_scan fuel T (tsize - 1) h (fwd j h) = Ret (Some p) ∧
     T⟦p⟧ = Some s ∧ key s ≠ kEmptyKey ∧
     ¬ (0 < dist h (home (key s)) ≤ dist h p) ∧ dist p e < dist h e).
Proof using Hlg.
  intros HI. destruct (hole_range _ _ _ _ HI) as (Hh & He & Hpos).
  pose proof (hi_inv _ _ _ _ HI) as HT. pose proof (dist_range h e).
  revert j. induction fuel as [|fuel IH]; intros j Hj Hfuel Hstay.
  all: assert (j < dist h e) by
    (destruct (Z.lt_ge_cases j (dist h e)); [done|];
     destruct (Hstay (dist h e) ltac:(lia)) as (s & Hs & Hk & _);
     rewrite fwd_dist in Hs by done;
     destruct (hi_empty _ _ _ _ HI) as (? & ? & ?); by simplify_eq).
  { lia. }
  simpl. rewrite next_position_fwd, fwd_fwd by apply fwd_range.
  destruct (vget_is_Some T (fwd (j + 1) h)) as [s Hs].
  { rewrite (pi_len _ _ _ HT). apply fwd_range. }
  rewrite (load_Some _ _ _ Hs). simpl.
  destruct (Z.eqb_spec (key s) kEmptyKey) as [Hk|Hk].
  { left. split; [done|]. eapply (hole_closed T h e m (j + 1)); [done|lia| |by exists s].
    intros j' ?. apply Hstay. lia. }
  assert (dist h (fwd (j + 1) h) = j + 1) as Hdist by (apply dist_fwd; lia).
  assert (h ≠ fwd (j + 1) h) as Hne.
  { intros E. rewrite <- E in Hdist. unfold dist in Hdist.
    rewrite Z.sub_diag, Zmod_0_l in Hdist. lia. }
  pose proof (must_stay_spec h (fwd (j + 1) h) (home (key s)) Hh (fwd_range _ _)
    (home_range _) Hne) as Hms.
  change (ideal_position (tsize - 1) (key s)) with (home (key s)).
  destruct (must_stay h (fwd (j + 1) h) (home (key s))); simpl.
  - apply IH; [lia..|]. intros j' Hj'.
    destruct (decide (j' = j + 1)) as [->|]; [|apply Hstay; lia].
    exists s. split; [done|]. split; [done|]. by apply Hms.
  - right. exists (fwd (j + 1) h), s. repeat split; [done..| |].
    { intros ?%Hms. done. }
    assert (j + 1 ≠ dist h e).
    { intros E. rewrite E, fwd_dist in Hs by done.
      destruct (hi_empty _ _ _ _ HI) as (? & ? & ?). by simplify_eq. }
    pose proof (dist_fwd (dist h e - (j + 1)) _ (fwd_range (j + 1) h) ltac:(lia)) as D.
    rewrite fwd_fwd in D. replace (j + 1 + (dist h e - (j + 1))) with (dist h e) in D by lia.
    rewrite fwd_dist in D by done. lia.
Qed.

Lemma erase_loop_spec fuel T h e m s :
  T⟦h⟧ = Some s → hole_inv (T⟦h := mkIndexSlot kEmptyKey (value s)⟧) h e m →
  dist h e < Z.of_nat fuel →
  ∃ T', erase_loop fuel T (tsize - 1) h = Ret T' ∧ index_rep T' m.
Proof using Hlg.
  revert T h s. induction fuel as [|fuel IH]; intros T h s Hs HI Hfuel.
  { pose proof (dist_range h e). lia. }
  simpl. rewrite (load_Some _ _ _ Hs). simpl.
  rewrite assign_ok by (by eapply vget_Some_range). simpl.
  set (T0 := T⟦h := mkIndexSlot kEmptyKey (value s)⟧) in *.
  destruct (hole_range _ _ _ _ HI) as (Hh & He & Hpos). pose proof (dist_range h e).
  assert (vlen T0 = tsize) as Hlen by apply HI.
  pose proof (erase_scan_spec T0 h e m (length T0) 0 HI) as Hscan.
  rewrite fwd_0 in Hscan by done.
  destruct Hscan as [[-> HT]|(p & t & -> & Hp & Hk & Hmove & Hd)]; [lia|..|].
  - unfold vlen in Hlen. lia.
  - lia.
  - eexists. split; done.
  - simpl. rewrite (load_Some _ _ _ Hp). simpl. rewrite assign_ok by (rewrite Hlen; done).
    simpl. apply (IH _ p t); [| |lia].
    + rewrite vget_vset_ne; [done|]. intros ->.
      destruct (hi_hole _ _ _ _ HI) as (? & ? & ?). by simplify_eq.
    + by apply hole_moved.
Qed.

Lemma erase_opens_hole T m pos k v :
  index_rep T m → Z.of_nat (size m) < tsize → k ≠ kEmptyKey →
  T⟦pos⟧ = Some (mkIndexSlot k v) →
  ∃ e, hole_inv (T⟦pos := mkIndexSlot kEmptyKey v⟧) pos e (delete k m).
Proof using Hlg.
  intros HT Hload Hk Hpos. destruct (has_empty _ _ _ HT Hload) as (e & se & He & Hke).
  assert (pos ≠ e) as Hpe by (intros ->; by simplify_eq/=).
  pose proof (vget_Some_range _ _ _ Hpos) as Hr.
  exists e. set (T' := T⟦pos := mkIndexSlot kEmptyKey v⟧).
  assert (∀ q s, T'⟦q⟧ = Some s → key s ≠ kEmptyKey → q ≠ pos ∧ T⟦q⟧ = Some s) as Hold.
  { intros q s. unfold T'. rewrite vget_vset. case_decide as Hc; [by intros [= <-]|].
    intros ? ?. split; [|done]. intros ->. tauto. }
  assert (∀ q s, T⟦q⟧ = Some s → q ≠ pos → T'⟦q⟧ = Some s) as Hnew.
  { intros q s ? ?. unfold T'. by rewrite vget_vset_ne. }
  split; [split| | |done].
  - unfold T'. rewrite vlen_vset. apply HT.
  - intros p s d Hp Hs Hd. apply Hold in Hp as [Hne Hp]; [|done].
    destruct (decide (pos = fwd d (home (key s)))) as [|Hx]; [by right|left].
    destruct (table_path _ _ HT p s d Hp Hs Hd) as (t & Ht & Hkt). exists t. eauto.
  - intros p q s t Hp Hq Hst Hs. apply Hold in Hp as [_ Hp], Hq as [_ Hq]; [|congruence..].
    by eapply (pi_uniq _ _ _ HT).
  - intros k' v'. rewrite lookup_delete_Some, (pi_map _ _ _ HT). split.
    + intros (Hkk & Hk' & p & Hp). split; [done|]. exists p. apply Hnew; [done|]. congruence.
    + intros (Hk' & p & Hp). apply Hold in Hp as [Hne Hp]; [|done].
      split; [|by eauto]. intros ->. by destruct (pi_uniq _ _ _ HT p pos _ _ Hp Hpos).
  - exists (mkIndexSlot kEmptyKey v). split; [by apply vget_vset_eq|done].
  - exists se. eauto.
Qed.

Lemma index_erase_spec T m pos k v :
  index_rep T m → Z.of_nat (size m) < tsize → k ≠ kEmptyKey →
  T⟦pos⟧ = Some (mkIndexSlot k v) →
  ∃ T', index_erase T (tsize - 1) pos = Ret T' ∧ index_rep T' (delete k m).
Proof using Hlg.
  intros HT Hload Hk Hpos.
  destruct (erase_opens_hole T m pos k v) as [e HI]; [done..|].
  apply (erase_loop_spec _ _ _ e _ _ Hpos); [done|].
  pose proof (dist_range pos e). pose proof (pi_len _ _ _ HT). unfold vlen in *. lia.
Qed.

Lemma index_rep_empty n :
  Z.of_nat n = tsize → index_rep (replicate n (mkIndexSlot kEmptyKey 0)) ∅.
Proof.
  intros Hn. assert (∀ p s, (replicate n (mkIndexSlot kEmptyKey 0))⟦p⟧ = Some s →
    key s = kEmptyKey) as Hall by (by intros p s ->%vget_replicate).
  split.
  - by rewrite vlen_replicate.
  - intros p s d Hp Hs. by apply Hall in Hp.
  - intros p q s t Hp _ _ Hs. by apply Hall in Hp.
  - intros k v. rewrite lookup_empty. split; [done|]. intros [Hk [p Hp]].
    by apply Hall in Hp.
Qed.
End cyclic.
