(* ===== verification/IndexProperties.v ===== *)
(** * The id index as a finite map

    Sequences of [index_insert] and [index_erase] against the same sequence on
    a finite map. The callers' obligations ([add] inserts a fresh non-zero id
    and never more than half the table, [cancel] erases a position that
    [find_index] returned) are the guards of the map side. *)

From S2P Require Import Prelude OrderIndex.

#[local] Open Scope Z_scope.
#[local] Open Scope llte_scope.

Inductive index_op :=
  | IxInsert (k v : Z)
  | IxErase (k : Z).

Definition index_step (mask : Z) (T : list IndexSlot) (o : index_op) : outcome (list IndexSlot) :=
  match o with
  | IxInsert k v => index_insert T mask k v
  | IxErase k => position ← find_index T mask k; index_erase T mask position
  end.

Fixpoint index_run (mask : Z) (T : list IndexSlot) (os : list index_op) : outcome (list IndexSlot) :=
  match os with
  | [] => Ret T
  | o :: os => T ← index_step mask T o; index_run mask T os
  end.

(** The value under a key, as the callers read it. *)
Definition index_lookup (mask : Z) (T : list IndexSlot) (k : Z) : outcome (option Z) :=
  position ← find_index T mask k;
  if position =? kNoLevel then Ret None
  else here ← load T position; Ret (Some (value here)).

Definition map_step (lg : Z) (m : gmap Z Z) (o : index_op) : option (gmap Z Z) :=
  match o with
  | IxInsert k v =>
      if bool_decide (k ≠ kEmptyKey ∧ m !! k = None ∧ Z.of_nat (size m) + 1 < tsize lg)
      then Some (<[k := v]> m) else None
  | IxErase k => if bool_decide (is_Some (m !! k)) then Some (delete k m) else None
  end.

Fixpoint map_run (lg : Z) (m : gmap Z Z) (os : list index_op) : option (gmap Z Z) :=
  match os with
  | [] => Some m
  | o :: os => m ← map_step lg m o; map_run lg m os
  end.

Definition index_empty (lg : Z) : list IndexSlot :=
  replicate (Z.to_nat (tsize lg)) (mkIndexSlot kEmptyKey 0).

Section index.
Context (lg : Z) (Hlg : 0 ≤ lg < 64).
Implicit Types (T : list IndexSlot) (m : gmap Z Z).

Definition loaded T m : Prop := index_rep lg T m ∧ Z.of_nat (size m) < tsize lg.

Lemma index_lookup_spec T m k : loaded T m → index_lookup (tsize lg - 1) T k = Ret (m !! k).
Proof using Hlg.
  intros [HT Hload]. unfold index_lookup.
  destruct (find_index_spec lg Hlg T m HT Hload k) as (r & -> & Hr). simpl.
  unfold find_result in Hr. destruct (m !! k) as [v|]; [|by subst].
  pose proof (vget_Some_range _ _ _ Hr) as Hrange. rewrite (pi_len _ _ _ _ HT) in Hrange.
  pose proof (tsize_bounds lg Hlg).
  destruct (Z.eqb_spec r kNoLevel) as [E|]; [unfold kNoLevel in E; lia|].
  by rewrite (load_Some _ _ _ Hr).
Qed.

Lemma index_step_spec T m o m' :
  loaded T m → map_step lg m o = Some m' →
  ∃ T', index_step (tsize lg - 1) T o = Ret T' ∧ loaded T' m'.
Proof using Hlg.
  intros [HT Hload]. destruct o as [k v|k]; simpl; case_bool_decide as Hc; try done; intros [= <-].
  - destruct Hc as (Hk & Hm & Hsz).
    destruct (index_insert_spec lg Hlg T m HT Hload k v Hk Hm) as (T' & -> & HT').
    exists T'. split; [done|]. split; [done|]. rewrite map_size_insert_None by done. lia.
  - destruct Hc as [v Hv]. destruct (find_index_spec lg Hlg T m HT Hload k) as (r & -> & Hr). simpl.
    unfold find_result in Hr. rewrite Hv in Hr.
    assert (k ≠ kEmptyKey) as Hk by (by apply (pi_map _ _ _ _ HT) in Hv as [? _]).
    destruct (index_erase_spec lg Hlg T m r k v HT Hload Hk Hr) as (T' & -> & HT').
    exists T'. split; [done|]. split; [done|]. rewrite map_size_delete_Some by eauto. lia.
Qed.

Lemma index_run_spec os : ∀ T m m',
  loaded T m → map_run lg m os = Some m' →
  ∃ T', index_run (tsize lg - 1) T os = Ret T' ∧ loaded T' m'.
Proof using Hlg.
  induction os as [|o os IH]; intros T m m' HT; simpl; [intros [= <-]; by exists T|].
  intros (m1 & H1 & H2)%bind_Some.
  destruct (index_step_spec T m o m1 HT H1) as (T1 & -> & HT1). simpl. by eapply IH.
Qed.

Lemma loaded_empty : loaded (index_empty lg) ∅.
Proof using Hlg.
  pose proof (tsize_bounds lg Hlg). split; [apply index_rep_empty; lia|].
  rewrite map_size_empty. lia.
Qed.
End index.

(** C9. Open addressing with linear probing and backward-shift deletion is a
    finite map: after any sequence of insertions of fresh ids and erasures of
    present ids that leaves a slot free, every loop has ended and every lookup,
    of present and of absent ids, finds what the map holds. *)
Theorem index_implements_map lg os m :
  0 ≤ lg < 64 → map_run lg ∅ os = Some m →
  ∃ T, index_run (tsize lg - 1) (index_empty lg) os = Ret T ∧
    ∀ k, index_lookup (tsize lg - 1) T k = Ret (m !! k).
Proof.
  intros Hlg Hm. destruct (index_run_spec lg Hlg os _ _ _ (loaded_empty lg Hlg) Hm) as (T & HT & Hl).
  exists T. split; [done|]. intros k. by apply index_lookup_spec.
Qed.

(** Three ids with one home position in a table of four slots, so that the
    probe sequence wraps round its end; the first one is erased. *)
Lemma index_implements_map_witness :
  ∃ T, index_run 3 (index_empty 2) [IxInsert 2 20; IxInsert 4 40; IxInsert 5 50; IxErase 2] = Ret T ∧
    ∀ k, index_lookup 3 T k = Ret ((<[5 := 50]> (<[4 := 40]> ∅) : gmap Z Z) !! k).
Proof.
  apply (index_implements_map 2 [IxInsert 2 20; IxInsert 4 40; IxInsert 5 50; IxErase 2]);
    [lia|vm_compute; reflexivity].
Defined.
