(* ===== verification/BookSpec.v ===== *)
(** * What an order book promises

    The abstract book is the list of resting orders, oldest priority first. The
    queue of a price level is the sublist of that level, so time priority is
    the order of the list. The operations are those of the class [OrderBook]
    with their guards in the order of the source; the representation is gone. *)

From S2P Require Import Prelude Message.

#[local] Open Scope Z_scope.

Inductive Result :=
  | Ok | UnknownOrder | DuplicateOrder | PriceOutOfBand | PoolExhausted | InvalidQuantity.

#[export] Instance Result_eq_dec : EqDecision Result.
Proof. solve_decision. Defined.

Record aorder := mkAOrder { a_id : Z; a_side : Side; a_price : Z; a_qty : Z }.

#[export] Instance aorder_eq_dec : EqDecision aorder.
Proof. solve_decision. Defined.

(** The static limits of a book: price band and number of orders. *)
Record limits := mkLimits { l_min : Z; l_max : Z; l_orders : Z }.

Definition a_in_band (L : limits) (p : Z) : bool := (l_min L <=? p) && (p <=? l_max L).

Definition a_find (id : Z) (B : list aorder) : option aorder :=
  snd <$> list_find (λ o, a_id o = id) B.

Definition a_remove (id : Z) (B : list aorder) : list aorder :=
  filter (λ o, a_id o ≠ id) B.

(** Replaces the quantity of an order where it stands in its queue. *)
Definition a_resize (id q : Z) (B : list aorder) : list aorder :=
  (λ o, if decide (a_id o = id) then mkAOrder (a_id o) (a_side o) (a_price o) q else o) <$> B.

Definition spec_add (L : limits) (id : Z) (s : Side) (p q : Z) (B : list aorder)
    : list aorder * Result :=
  if id =? 0 then (B, UnknownOrder)
  else if q =? 0 then (B, InvalidQuantity)
  else if negb (a_in_band L p) then (B, PriceOutOfBand)
  else match a_find id B with
  | Some _ => (B, DuplicateOrder)
  | None =>
      if Z.of_nat (length B) <? l_orders L
      then (B ++ [mkAOrder id s p q], Ok) else (B, PoolExhausted)
  end.

Definition spec_cancel (id : Z) (B : list aorder) : list aorder * Result :=
  match a_find id B with
  | None => (B, UnknownOrder)
  | Some _ => (a_remove id B, Ok)
  end.

Definition spec_modify (L : limits) (id p q : Z) (B : list aorder)
    : list aorder * Result :=
  if q =? 0 then (B, InvalidQuantity)
  else if negb (a_in_band L p) then (B, PriceOutOfBand)
  else match a_find id B with
  | None => (B, UnknownOrder)
  | Some o =>
      if (p =? a_price o) && (q <? a_qty o) then (a_resize id q B, Ok)
      else (a_remove id B ++ [mkAOrder id (a_side o) p q], Ok)
  end.

Definition spec_execute (id q : Z) (B : list aorder) : list aorder * Result :=
  if q =? 0 then (B, InvalidQuantity)
  else match a_find id B with
  | None => (B, UnknownOrder)
  | Some o =>
      if a_qty o <=? q then (a_remove id B, Ok)
      else (a_resize id (a_qty o - q) B, Ok)
  end.

(** ** Observations *)

Definition at_level (b : bool) (p : Z) (o : aorder) : Prop :=
  is_buy (a_side o) = b ∧ a_price o = p.
#[export] Instance at_level_dec b p o : Decision (at_level b p o).
Proof. unfold at_level. apply _. Defined.

Definition a_queue (b : bool) (p : Z) (B : list aorder) : list aorder :=
  filter (at_level b p) B.

Definition sum_qty (B : list aorder) : Z := foldr (λ o, Z.add (a_qty o)) 0 B.

(** [p] is the best price of the side: nobody on that side offers better. *)
Definition is_best (b : bool) (p : Z) (B : list aorder) : Prop :=
  (∃ o, o ∈ B ∧ at_level b p o) ∧
  ∀ o, o ∈ B → is_buy (a_side o) = b → if b then a_price o ≤ p else p ≤ a_price o.

Definition no_side (b : bool) (B : list aorder) : Prop :=
  ∀ o, o ∈ B → is_buy (a_side o) ≠ b.
