(* ===== verification/BookInterface.v ===== *)
(** * The interface between a book and its clients

    [BookOps] lists the operations of the class [OrderBook] that the engine and
    the benchmarks call; [BookLaws] is the contract: every operation returns, and
    its effect and result are those of the abstract book of [BookSpec]. Clients
    (command sequences here, the engine's event loop in [Engine]) are verified
    against the contract; [OrderBookTheorems] discharges it. *)

From S2P Require Import Prelude Message BookSpec.

#[local] Open Scope Z_scope.

Class BookOps (T : Type) := {
  bk_add : T → Z → Side → Z → Z → outcome (T * Result);
  bk_cancel : T → Z → outcome (T * Result);
  bk_modify : T → Z → Z → Z → outcome (T * Result);
  bk_execute : T → Z → Z → outcome (T * Result);
  bk_clear : T → outcome T;
  bk_live : T → Z
}.

(** A step that returns the state and the result the abstract step gives. *)
Definition simulates {T} (R : T → list aorder → Prop) (m : outcome (T * Result))
    (s : list aorder * Result) : Prop :=
  ∃ b', m = Ret (b', s.2) ∧ R b' s.1.

Class BookLaws (T : Type) {ops : BookOps T} (L : limits) (R : T → list aorder → Prop) : Prop := {
  law_add b B id s p q : R b B → 0 ≤ q < 2 ^ 32 →
    simulates R (bk_add b id s p q) (spec_add L id s p q B);
  law_cancel b B id : R b B → simulates R (bk_cancel b id) (spec_cancel id B);
  law_modify b B id p q : R b B → 0 ≤ q < 2 ^ 32 →
    simulates R (bk_modify b id p q) (spec_modify L id p q B);
  law_execute b B id q : R b B → 0 ≤ q < 2 ^ 32 →
    simulates R (bk_execute b id q) (spec_execute id q B);
  law_clear b B : R b B → ∃ b', bk_clear b = Ret b' ∧ R b' [];
  law_live b B : R b B → bk_live b = Z.of_nat (length B)
}.

(** ** Command sequences *)

Inductive op :=
  | OpAdd (id : Z) (s : Side) (p q : Z)
  | OpCancel (id : Z)
  | OpModify (id p q : Z)
  | OpExecute (id q : Z)
  | OpClear.

(** A quantity argument is a [std::uint32_t]. *)
Definition op_ok (o : op) : Prop :=
  match o with
  | OpAdd _ _ _ q | OpModify _ _ q | OpExecute _ q => 0 ≤ q < 2 ^ 32
  | OpCancel _ | OpClear => True
  end.

Definition with_result {T} (m : outcome (T * Result)) : outcome (T * option Result) :=
  '(b, r) ← m; Ret (b, Some r).

Definition apply_op `{BookOps T} (b : T) (o : op) : outcome (T * option Result) :=
  match o with
  | OpAdd id s p q => with_result (bk_add b id s p q)
  | OpCancel id => with_result (bk_cancel b id)
  | OpModify id p q => with_result (bk_modify b id p q)
  | OpExecute id q => with_result (bk_execute b id q)
  | OpClear => b ← bk_clear b; Ret (b, None)
  end.

Fixpoint run_ops `{BookOps T} (b : T) (os : list op) : outcome (T * list (option Result)) :=
  match os with
  | [] => Ret (b, [])
  | o :: os =>
      '(b, r) ← apply_op b o;
      '(b, rs) ← run_ops b os;
      Ret (b, r :: rs)
  end.

Definition some_result (p : list aorder * Result) : list aorder * option Result := (p.1, Some p.2).

Definition spec_op (L : limits) (o : op) (B : list aorder) : list aorder * option Result :=
  match o with
  | OpAdd id s p q => some_result (spec_add L id s p q B)
  | OpCancel id => some_result (spec_cancel id B)
  | OpModify id p q => some_result (spec_modify L id p q B)
  | OpExecute id q => some_result (spec_execute id q B)
  | OpClear => ([], None)
  end.

Fixpoint spec_ops (L : limits) (os : list op) (B : list aorder)
    : list aorder * list (option Result) :=
  match os with
  | [] => (B, [])
  | o :: os =>
      let '(B, r) := spec_op L o B in
      let '(B, rs) := spec_ops L os B in
      (B, r :: rs)
  end.

(** A call adds one order at most, and finds the pool full only with every slot taken. *)
Lemma spec_op_room L o B :
  (length (spec_op L o B).1 ≤ S (length B))%nat ∧
  ((spec_op L o B).2 = Some PoolExhausted → l_orders L ≤ Z.of_nat (length B)).
Proof.
  assert (∀ id, length (a_remove id B) ≤ length B)%nat as Hrem by (intros; apply length_filter).
  assert (∀ id q, length (a_resize id q B) = length B)%nat as Hres by (intros; apply length_fmap).
  destruct o as [id s p q|id|id p q|id q|]; cbn [spec_op some_result fst snd]; [| | | |split; [cbn; lia|done]].
  - unfold spec_add. destruct (_ =? 0); [split; [cbn; lia|done]|]. destruct (_ =? 0); [split; [cbn; lia|done]|].
    destruct (negb _); [split; [cbn; lia|done]|]. destruct (a_find _ B); [split; [cbn; lia|done]|].
    destruct (Z.ltb_spec (Z.of_nat (length B)) (l_orders L)) as [Hlt|Hge]; cbn [fst snd].
    + split; [rewrite length_app; simpl; lia|done].
    + split; [lia|]. intros _. lia.
  - unfold spec_cancel. destruct (a_find _ B); cbn [fst snd]; (split; [|done]); [specialize (Hrem id)|]; lia.
  - unfold spec_modify. destruct (_ =? 0); [split; [cbn; lia|done]|]. destruct (negb _); [split; [cbn; lia|done]|].
    destruct (a_find _ B); [|split; [cbn; lia|done]]. destruct (_ && _); cbn [fst snd]; (split; [|done]).
    + rewrite Hres. lia.
    + rewrite length_app. specialize (Hrem id). simpl. lia.
  - unfold spec_execute. destruct (_ =? 0); [split; [cbn; lia|done]|]. destruct (a_find _ B) as [x|]; [|split; [cbn; lia|done]].
    destruct (_ <=? _); cbn [fst snd]; (split; [|done]); [specialize (Hrem id); lia|rewrite Hres; lia].
Qed.

Section client.
Context `{BookLaws T L R}.

Lemma with_result_simulates (m : outcome (T * Result)) s :
  simulates R m s → ∃ b', with_result m = Ret (b', (some_result s).2) ∧ R b' (some_result s).1.
Proof. intros (b' & -> & HR). exists b'. done. Qed.

Lemma apply_op_spec b B o :
  R b B → op_ok o →
  ∃ b', apply_op b o = Ret (b', (spec_op L o B).2) ∧ R b' (spec_op L o B).1.
Proof using H.
  intros HR Ho. destruct o; simpl in *.
  1-4: apply with_result_simulates; eauto using law_add, law_cancel, law_modify, law_execute.
  destruct (law_clear b B HR) as (b' & -> & HR'). by exists b'.
Qed.

Lemma run_ops_spec os : ∀ b B,
  R b B → Forall op_ok os →
  ∃ b', run_ops b os = Ret (b', (spec_ops L os B).2) ∧ R b' (spec_ops L os B).1.
Proof using H.
  induction os as [|o os IH]; intros b B HR Hok; [by exists b|]. simpl.
  apply Forall_cons in Hok as [Ho Hos].
  destruct (apply_op_spec b B o HR Ho) as (b1 & -> & HR1). simpl.
  destruct (spec_op L o B) as [B1 r]. simpl in *.
  destruct (IH b1 B1 HR1 Hos) as (b2 & -> & HR2). simpl.
  destruct (spec_ops L os B1) as [B2 rs]. by exists b2.
Qed.
End client.
