(* ===== verification/OrderBook.v ===== *)
(** * The preallocated central limit order book

    The class [OrderBook] of [include/llte/order_book.hpp] and
    [orderbook/order_book.cpp], one definition per member function. A function
    that mutates [*this] takes the book and returns the new one. Every access
    to a vector is checked and every fault is a value of [outcome]; references
    ([Order& order = pool_[slot]]) are re-read after each write through
    another path. *)

From S2P Require Import Prelude Message OrderIndex BookSpec.

#[local] Open Scope Z_scope.
#[local] Open Scope llte_scope.

Module Book.

(** ** Data *)

Definition kNoPrice : Z := int64_min.
Definition kNullOrder : Z := 2 ^ 32 - 1.

Record Config := mkConfig { min_price : Z; max_price : Z; max_orders : Z }.

Record Order := mkOrder {
  o_id : Z;
  o_price : Z;
  o_quantity : Z;
  o_next : Z;
  o_prev : Z;
  o_side : Side
}.

Record Level := mkLevel {
  total_quantity : Z;
  order_count : Z;
  head : Z;
  tail : Z
}.

Record t := mkBook {
  min_price_ : Z;
  max_price_ : Z;
  bid_levels_ : list Level;
  ask_levels_ : list Level;
  pool_ : list Order;
  index_ : list IndexSlot;
  index_mask_ : Z;
  free_head_ : Z;
  live_orders_ : Z;
  best_bid_level_ : Z;
  best_ask_level_ : Z
}.

#[export] Instance Order_eq_dec : EqDecision Order.
Proof. solve_decision. Defined.
#[export] Instance Level_eq_dec : EqDecision Level.
Proof. solve_decision. Defined.
#[export] Instance t_eq_dec : EqDecision t.
Proof. solve_decision. Defined.

(** ** Assignments to single members *)

Definition set_next (v : Z) (o : Order) : Order :=
  mkOrder (o_id o) (o_price o) (o_quantity o) v (o_prev o) (o_side o).
Definition set_prev (v : Z) (o : Order) : Order :=
  mkOrder (o_id o) (o_price o) (o_quantity o) (o_next o) v (o_side o).
Definition set_quantity (v : Z) (o : Order) : Order :=
  mkOrder (o_id o) (o_price o) v (o_next o) (o_prev o) (o_side o).
Definition set_price (v : Z) (o : Order) : Order :=
  mkOrder (o_id o) v (o_quantity o) (o_next o) (o_prev o) (o_side o).

Definition set_head (v : Z) (l : Level) : Level :=
  mkLevel (total_quantity l) (order_count l) v (tail l).
Definition set_tail (v : Z) (l : Level) : Level :=
  mkLevel (total_quantity l) (order_count l) (head l) v.
Definition set_count (v : Z) (l : Level) : Level :=
  mkLevel (total_quantity l) v (head l) (tail l).
Definition set_total (v : Z) (l : Level) : Level :=
  mkLevel v (order_count l) (head l) (tail l).

Definition set_pool (v : list Order) (b : t) : t :=
  mkBook (min_price_ b) (max_price_ b) (bid_levels_ b) (ask_levels_ b) v (index_ b)
    (index_mask_ b) (free_head_ b) (live_orders_ b) (best_bid_level_ b) (best_ask_level_ b).
Definition set_index (v : list IndexSlot) (b : t) : t :=
  mkBook (min_price_ b) (max_price_ b) (bid_levels_ b) (ask_levels_ b) (pool_ b) v
    (index_mask_ b) (free_head_ b) (live_orders_ b) (best_bid_level_ b) (best_ask_level_ b).
Definition set_free_head (v : Z) (b : t) : t :=
  mkBook (min_price_ b) (max_price_ b) (bid_levels_ b) (ask_levels_ b) (pool_ b) (index_ b)
    (index_mask_ b) v (live_orders_ b) (best_bid_level_ b) (best_ask_level_ b).
Definition set_live (v : Z) (b : t) : t :=
  mkBook (min_price_ b) (max_price_ b) (bid_levels_ b) (ask_levels_ b) (pool_ b) (index_ b)
    (index_mask_ b) (free_head_ b) v (best_bid_level_ b) (best_ask_level_ b).
Definition set_best_bid (v : Z) (b : t) : t :=
  mkBook (min_price_ b) (max_price_ b) (bid_levels_ b) (ask_levels_ b) (pool_ b) (index_ b)
    (index_mask_ b) (free_head_ b) (live_orders_ b) v (best_ask_level_ b).
Definition set_best_ask (v : Z) (b : t) : t :=
  mkBook (min_price_ b) (max_price_ b) (bid_levels_ b) (ask_levels_ b) (pool_ b) (index_ b)
    (index_mask_ b) (free_head_ b) (live_orders_ b) (best_bid_level_ b) v.

(** [levels_for(side)], as a value and as the target of an update. *)
Definition levels_for (b : t) (s : Side) : list Level :=
  if is_buy s then bid_levels_ b else ask_levels_ b.
Definition set_levels_for (s : Side) (v : list Level) (b : t) : t :=
  if is_buy s then
    mkBook (min_price_ b) (max_price_ b) v (ask_levels_ b) (pool_ b) (index_ b)
      (index_mask_ b) (free_head_ b) (live_orders_ b) (best_bid_level_ b) (best_ask_level_ b)
  else
    mkBook (min_price_ b) (max_price_ b) (bid_levels_ b) v (pool_ b) (index_ b)
      (index_mask_ b) (free_head_ b) (live_orders_ b) (best_bid_level_ b) (best_ask_level_ b).

Definition upd_order (b : t) (slot : Z) (f : Order → Order) : outcome t :=
  o ← load (pool_ b) slot;
  pool ← assign (pool_ b) slot (f o);
  Ret (set_pool pool b).

Definition upd_level (b : t) (s : Side) (level_idx : Z) (f : Level → Level) : outcome t :=
  l ← load (levels_for b s) level_idx;
  ls ← assign (levels_for b s) level_idx (f l);
  Ret (set_levels_for s ls b).

(** ** Price levels *)

Definition in_band (b : t) (price : Z) : bool :=
  (min_price_ b <=? price) && (price <=? max_price_ b).

Definition level_index (b : t) (price : Z) : outcome Z :=
  d ← i64 (price - min_price_ b); Ret (u64 d).

Definition level_price (b : t) (index : Z) : outcome Z := i64 (min_price_ b + index).

(** ** Order pool *)

Definition acquire_slot (b : t) : outcome (t * Z) :=
  if free_head_ b =? kNullOrder then Ret (b, kNullOrder)
  else
    let slot := free_head_ b in
    o ← load (pool_ b) slot;
    Ret (set_free_head (o_next o) b, slot).

Definition release_slot (b : t) (slot : Z) : outcome t :=
  b1 ← upd_order b slot (set_next (free_head_ b));
  Ret (set_free_head slot b1).

(** ** Level queues *)

Definition link_back (b : t) (level_idx : Z) (s : Side) (slot : Z) : outcome t :=
  level ← load (levels_for b s) level_idx;
  b ← upd_order b slot (set_next kNullOrder);
  b ← upd_order b slot (set_prev (tail level));
  b ← (if negb (tail level =? kNullOrder)
       then upd_order b (tail level) (set_next slot)
       else upd_level b s level_idx (set_head slot));
  b ← upd_level b s level_idx (set_tail slot);
  b ← upd_level b s level_idx (λ l, set_count (u32 (order_count l + 1)) l);
  order ← load (pool_ b) slot;
  upd_level b s level_idx (λ l, set_total (u64 (total_quantity l + o_quantity order)) l).

(** [while (scan-- > 0)]: [n] is [scan] before the decrement. *)
Fixpoint scan_down (levels : list Level) (n : nat) : outcome (option Z) :=
  match n with
  | O => Ret None
  | S scan =>
      level ← load levels (Z.of_nat scan);
      if 0 <? order_count level then Ret (Some (Z.of_nat scan)) else scan_down levels scan
  end.

Fixpoint scan_up (fuel : nat) (levels : list Level) (scan : Z) : outcome (option Z) :=
  match fuel with
  | O => Fault OutOfFuel
  | S fuel =>
      if scan <? vlen levels then
        level ← load levels scan;
        if 0 <? order_count level then Ret (Some scan)
        else scan_up fuel levels (u64 (scan + 1))
      else Ret None
  end.

Definition on_level_emptied (b : t) (s : Side) (level_idx : Z) : outcome t :=
  if is_buy s then
    if negb (level_idx =? best_bid_level_ b) then Ret b
    else
      found ← scan_down (bid_levels_ b) (Z.to_nat level_idx);
      Ret (set_best_bid (default kNoLevel found) b)
  else
    if negb (level_idx =? best_ask_level_ b) then Ret b
    else
      found ← scan_up (S (length (ask_levels_ b))) (ask_levels_ b) (u64 (level_idx + 1));
      Ret (set_best_ask (default kNoLevel found) b).

Definition unlink (b : t) (level_idx : Z) (s : Side) (slot : Z) : outcome t :=
  order ← load (pool_ b) slot;
  b ← (if negb (o_prev order =? kNullOrder)
       then upd_order b (o_prev order) (set_next (o_next order))
       else upd_level b s level_idx (set_head (o_next order)));
  order ← load (pool_ b) slot;
  b ← (if negb (o_next order =? kNullOrder)
       then upd_order b (o_next order) (set_prev (o_prev order))
       else upd_level b s level_idx (set_tail (o_prev order)));
  b ← upd_level b s level_idx (λ l, set_count (u32 (order_count l - 1)) l);
  order ← load (pool_ b) slot;
  b ← upd_level b s level_idx (λ l, set_total (u64 (total_quantity l - o_quantity order)) l);
  level ← load (levels_for b s) level_idx;
  if order_count level =? 0 then on_level_emptied b s level_idx else Ret b.

Definition note_level_filled (b : t) (s : Side) (level_idx : Z) : t :=
  if is_buy s then
    if (best_bid_level_ b =? kNoLevel) || (best_bid_level_ b <? level_idx)
    then set_best_bid level_idx b else b
  else
    if (best_ask_level_ b =? kNoLevel) || (level_idx <? best_ask_level_ b)
    then set_best_ask level_idx b else b.

(** ** Public operations *)

(** [add] from [Order& order = pool_[slot]] on, with the slot acquired. *)
Definition place_order (b : t) (slot order_id : Z) (s : Side) (price quantity : Z) : outcome t :=
  b ← upd_order b slot (λ o, mkOrder order_id price quantity (o_next o) (o_prev o) s);
  level_idx ← level_index b price;
  b ← link_back b level_idx s slot;
  let b := note_level_filled b s level_idx in
  index ← index_insert (index_ b) (index_mask_ b) order_id slot;
  let b := set_index index b in
  Ret (set_live (u64 (live_orders_ b + 1)) b).

Definition add (b : t) (order_id : Z) (s : Side) (price quantity : Z)
    : outcome (t * Result) :=
  if order_id =? kEmptyKey then Ret (b, UnknownOrder)
  else if quantity =? 0 then Ret (b, InvalidQuantity)
  else if negb (in_band b price) then Ret (b, PriceOutOfBand)
  else
    position ← find_index (index_ b) (index_mask_ b) order_id;
    if negb (position =? kNoLevel) then Ret (b, DuplicateOrder)
    else
      '(b, slot) ← acquire_slot b;
      if slot =? kNullOrder then Ret (b, PoolExhausted)
      else
        b ← place_order b slot order_id s price quantity;
        Ret (b, Ok).

(** The removal shared by [cancel] and a complete fill. *)
Definition remove_order (b : t) (position level_idx : Z) (s : Side) (slot : Z)
    : outcome t :=
  b ← unlink b level_idx s slot;
  index ← index_erase (index_ b) (index_mask_ b) position;
  b ← release_slot (set_index index b) slot;
  Ret (set_live (u64 (live_orders_ b - 1)) b).

Definition cancel (b : t) (order_id : Z) : outcome (t * Result) :=
  position ← find_index (index_ b) (index_mask_ b) order_id;
  if position =? kNoLevel then Ret (b, UnknownOrder)
  else
    entry ← load (index_ b) position;
    let slot := value entry in
    order ← load (pool_ b) slot;
    level_idx ← level_index b (o_price order);
    b ← remove_order b position level_idx (o_side order) slot;
    Ret (b, Ok).

(** The end of [modify]: the order goes to the back of its new queue. *)
Definition requeue (b : t) (old_level : Z) (s : Side) (slot new_price new_quantity : Z)
    : outcome t :=
  b ← unlink b old_level s slot;
  b ← upd_order b slot (set_price new_price);
  b ← upd_order b slot (set_quantity new_quantity);
  new_level ← level_index b new_price;
  b ← link_back b new_level s slot;
  Ret (note_level_filled b s new_level).

Definition modify (b : t) (order_id new_price new_quantity : Z) : outcome (t * Result) :=
  if new_quantity =? 0 then Ret (b, InvalidQuantity)
  else if negb (in_band b new_price) then Ret (b, PriceOutOfBand)
  else
    position ← find_index (index_ b) (index_mask_ b) order_id;
    if position =? kNoLevel then Ret (b, UnknownOrder)
    else
      entry ← load (index_ b) position;
      let slot := value entry in
      order ← load (pool_ b) slot;
      old_level ← level_index b (o_price order);
      if (new_price =? o_price order) && (new_quantity <? o_quantity order) then
        b ← upd_level b (o_side order) old_level
          (λ l, set_total (u64 (total_quantity l - u32 (o_quantity order - new_quantity))) l);
        b ← upd_order b slot (set_quantity new_quantity);
        Ret (b, Ok)
      else
        b ← requeue b old_level (o_side order) slot new_price new_quantity;
        Ret (b, Ok).

Definition execute (b : t) (order_id quantity : Z) : outcome (t * Result) :=
  if quantity =? 0 then Ret (b, InvalidQuantity)
  else
    position ← find_index (index_ b) (index_mask_ b) order_id;
    if position =? kNoLevel then Ret (b, UnknownOrder)
    else
      entry ← load (index_ b) position;
      let slot := value entry in
      order ← load (pool_ b) slot;
      level_idx ← level_index b (o_price order);
      if o_quantity order <=? quantity then
        b ← remove_order b position level_idx (o_side order) slot;
        Ret (b, Ok)
      else
        b ← upd_level b (o_side order) level_idx
          (λ l, set_total (u64 (total_quantity l - quantity)) l);
        b ← upd_order b slot (λ o, set_quantity (u32 (o_quantity o - quantity)) o);
        Ret (b, Ok).

(** ** Observers *)

Definition best_bid (b : t) : outcome Z :=
  if best_bid_level_ b =? kNoLevel then Ret kNoPrice else level_price b (best_bid_level_ b).

Definition best_ask (b : t) : outcome Z :=
  if best_ask_level_ b =? kNoLevel then Ret kNoPrice else level_price b (best_ask_level_ b).

Definition quantity_at (b : t) (s : Side) (price : Z) : outcome Z :=
  if negb (in_band b price) then Ret 0
  else
    i ← level_index b price;
    level ← load (levels_for b s) i;
    Ret (total_quantity level).

Definition order_count_at (b : t) (s : Side) (price : Z) : outcome Z :=
  if negb (in_band b price) then Ret 0
  else
    i ← level_index b price;
    level ← load (levels_for b s) i;
    Ret (order_count level).

Definition contains (b : t) (order_id : Z) : outcome bool :=
  position ← find_index (index_ b) (index_mask_ b) order_id;
  Ret (negb (position =? kNoLevel)).

Definition live_order_count (b : t) : Z := live_orders_ b.

(** ** Construction *)

(** [std::bit_ceil]: undefined when the result is not representable. *)
Definition bit_ceil (value : Z) : outcome Z :=
  if 2 ^ 63 <? value then Fault SignedOverflow else Ret (2 ^ Z.log2_up value).

Definition round_up_pow2 (value : Z) : outcome Z :=
  if value <? 2 then Ret 2 else bit_ceil value.

Definition level_zero : Level := mkLevel 0 0 kNullOrder kNullOrder.
Definition order_zero : Order := mkOrder 0 0 0 0 0 (Side_raw 0).

(** [for (i = 0; i < slots; ++i) pool_[i].next = ...] *)
Fixpoint thread_pool (fuel : nat) (slots i : Z) (pool : list Order) : outcome (list Order) :=
  match fuel with
  | O => Fault OutOfFuel
  | S fuel =>
      if i <? slots then
        o ← load pool i;
        pool ← assign pool i
          (set_next (if u32 (i + 1) <? slots then u32 (i + 1) else kNullOrder) o);
        thread_pool fuel slots (u32 (i + 1)) pool
      else Ret pool
  end.

Definition clear (b : t) : outcome t :=
  let bids := (λ _, level_zero) <$> bid_levels_ b in
  let asks := (λ _, level_zero) <$> ask_levels_ b in
  let index := (λ _, mkIndexSlot kEmptyKey 0) <$> index_ b in
  let slots := u32 (vlen (pool_ b)) in
  pool ← thread_pool (S (length (pool_ b))) slots 0 (pool_ b);
  Ret (mkBook (min_price_ b) (max_price_ b) bids asks pool index (index_mask_ b)
    (if 0 <? slots then 0 else kNullOrder) 0 kNoLevel kNoLevel).

Definition make (config : Config) : outcome t :=
  span ← i64 (max_price config - min_price config);
  let level_count := u64 (u64 span + 1) in
  let levels := replicate (Z.to_nat level_count) level_zero in
  let pool := replicate (Z.to_nat (max_orders config)) order_zero in
  index_size ← round_up_pow2 (u64 (max_orders config * 2));
  let index := replicate (Z.to_nat index_size) (mkIndexSlot kEmptyKey 0) in
  clear (mkBook (min_price config) (max_price config) levels levels pool index
    (u64 (index_size - 1)) kNullOrder 0 kNoLevel kNoLevel).

End Book.
