(* ===== verification/BookQueues.v ===== *)
(** * Level queues threaded through the order pool

    The intrusive doubly linked queues that [link_back] and [unlink] maintain,
    as a predicate on the pool, and the effect of the two functions on every
    queue of the book at once. *)

From S2P Require Import Prelude Message OrderIndex BookSpec OrderBook.
Import Book.

#[local] Open Scope Z_scope.
#[local] Open Scope llte_scope.

(** ** Links and data of a pool slot *)

Definition links (pool : list Order) (s : Z) : option (Z * Z) :=
  (λ o, (o_prev o, o_next o)) <$> pool⟦s⟧.

Definition data (pool : list Order) (s : Z) : option aorder :=
  (λ o, mkAOrder (o_id o) (o_side o) (o_price o) (o_quantity o)) <$> pool⟦s⟧.

(** The slots [q] form a doubly linked segment between [prev] and [next]. *)
Fixpoint dlseg (pool : list Order) (prev : Z) (q : list Z) (next : Z) : Prop :=
  match q with
  | [] => True
  | s :: q => links pool s = Some (prev, hd_or next q) ∧ dlseg pool s q next
  end.

Lemma dlseg_app pool p q1 q2 n :
  dlseg pool p (q1 ++ q2) n ↔
  dlseg pool p q1 (hd_or n q2) ∧ dlseg pool (last_or p q1) q2 n.
Proof.
  revert p. induction q1 as [|s q1 IH]; intros p; simpl; [tauto|].
  rewrite IH, hd_or_app. tauto.
Qed.

Lemma dlseg_frame pool pool' p q n :
  (∀ s, s ∈ q → links pool' s = links pool s) → dlseg pool p q n → dlseg pool' p q n.
Proof.
  revert p. induction q as [|s q IH]; intros p Hf; simpl; [done|].
  intros [Hs Hq]. split; [rewrite Hf; set_solver|]. apply IH; set_solver.
Qed.

(** What [set_next] and [set_prev] do to a slot, seen through [links], [data]. *)
Lemma links_set_next pool i v s :
  links (vupd pool i (set_next v)) s =
  if decide (i = s) then (λ l, (l.1, v)) <$> links pool s else links pool s.
Proof. unfold links. rewrite vget_vupd. case_decide; by destruct (pool⟦s⟧). Qed.

Lemma links_set_prev pool i v s :
  links (vupd pool i (set_prev v)) s =
  if decide (i = s) then (λ l, (v, l.2)) <$> links pool s else links pool s.
Proof. unfold links. rewrite vget_vupd. case_decide; by destruct (pool⟦s⟧). Qed.

Lemma data_set_next pool i v s : data (vupd pool i (set_next v)) s = data pool s.
Proof. unfold data. rewrite vget_vupd. case_decide; by destruct (pool⟦s⟧). Qed.

Lemma data_set_prev pool i v s : data (vupd pool i (set_prev v)) s = data pool s.
Proof. unfold data. rewrite vget_vupd. case_decide; by destruct (pool⟦s⟧). Qed.

Create Rewrite HintDb book.
#[export] Hint Rewrite links_set_next links_set_prev data_set_next data_set_prev
  @vlen_vupd @vlen_vset : book.

(** ** The pool after [unlink] and after [link_back] *)

Definition unlink_pool (pool : list Order) (prev next : Z) : list Order :=
  let pool := if negb (prev =? kNullOrder) then vupd pool prev (set_next next) else pool in
  if negb (next =? kNullOrder) then vupd pool next (set_prev prev) else pool.

Definition link_pool (pool : list Order) (slot tl : Z) : list Order :=
  let pool := vupd (vupd pool slot (set_next kNullOrder)) slot (set_prev tl) in
  if negb (tl =? kNullOrder) then vupd pool tl (set_next slot) else pool.

Lemma unlink_pool_data pool p n s : data (unlink_pool pool p n) s = data pool s.
Proof. unfold unlink_pool. repeat case_match; by autorewrite with book. Qed.

Lemma link_pool_data pool s tl x : data (link_pool pool s tl) x = data pool x.
Proof. unfold link_pool. repeat case_match; by autorewrite with book. Qed.

Lemma unlink_pool_len pool p n : vlen (unlink_pool pool p n) = vlen pool.
Proof. unfold unlink_pool. repeat case_match; by autorewrite with book. Qed.

Lemma link_pool_len pool s tl : vlen (link_pool pool s tl) = vlen pool.
Proof. unfold link_pool. repeat case_match; by autorewrite with book. Qed.

Lemma unlink_pool_links_ne pool p n s :
  (p ≠ kNullOrder → s ≠ p) → (n ≠ kNullOrder → s ≠ n) →
  links (unlink_pool pool p n) s = links pool s.
Proof.
  intros Hp Hn. unfold unlink_pool.
  destruct (Z.eqb_spec p kNullOrder), (Z.eqb_spec n kNullOrder); simpl;
    autorewrite with book; repeat case_decide; naive_solver.
Qed.

Lemma link_pool_links_ne pool s tl x :
  x ≠ s → (tl ≠ kNullOrder → x ≠ tl) → links (link_pool pool s tl) x = links pool x.
Proof.
  intros Hs Ht. unfold link_pool. destruct (Z.eqb_spec tl kNullOrder); simpl;
    autorewrite with book; repeat case_decide; naive_solver.
Qed.

(** ** Segments under [unlink] and [link_back] *)

Definition not_null (q : list Z) : Prop := ∀ s, s ∈ q → s ≠ kNullOrder.

Lemma dlseg_unlink pool q1 s q2 :
  NoDup (q1 ++ s :: q2) → not_null (q1 ++ s :: q2) →
  dlseg pool kNullOrder (q1 ++ s :: q2) kNullOrder →
  let p := last_or kNullOrder q1 in let n := hd_or kNullOrder q2 in
  links pool s = Some (p, n) ∧
  dlseg (unlink_pool pool p n) kNullOrder (q1 ++ q2) kNullOrder.
Proof.
  intros Hnd Hnn H p n. subst p n. rewrite dlseg_app in H. simpl in H.
  destruct H as (H1 & Hs & H2). split; [done|]. rewrite dlseg_app.
  apply NoDup_app in Hnd as (Hnd1 & Hdis & Hnd2). apply NoDup_cons in Hnd2 as [Hs2 Hnd2].
  split.
  - destruct (list_snoc_case q1) as [->|(q & x & ->)]; [done|].
    rewrite last_or_app. simpl. rewrite dlseg_app in H1 |- *. simpl in *.
    destruct H1 as (H1 & Hx & _). apply NoDup_app in Hnd1 as (_ & Hdx & _).
    assert (x ≠ kNullOrder) by (apply Hnn; set_solver).
    assert (∀ y, y ∈ q ++ [x] → hd_or kNullOrder q2 ≠ kNullOrder → y ≠ hd_or kNullOrder q2)
      as Hn.
    { intros y Hy Hne ->. apply (Hdis _ Hy). destruct q2; [done|]. simpl. set_solver. }
    split.
    + eapply dlseg_frame; [|done]. intros y Hy. apply unlink_pool_links_ne.
      * intros _ ->. apply (Hdx x); set_solver.
      * apply Hn. set_solver.
    + split; [|done]. specialize (Hn x ltac:(set_solver)). unfold unlink_pool.
      destruct (Z.eqb_spec x kNullOrder); [done|]. simpl.
      destruct (Z.eqb_spec (hd_or kNullOrder q2) kNullOrder) as [E|E]; simpl;
        autorewrite with book; repeat case_decide; try done; rewrite ?Hx; try done.
      by destruct (Hn E).
  - destruct q2 as [|x q2]; [done|]. simpl in *. destruct H2 as [Hx H2].
    assert (x ≠ kNullOrder) by (apply Hnn; set_solver).
    apply NoDup_cons in Hnd2 as [Hx2 Hnd2].
    assert (∀ y, y ∈ x :: q2 → last_or kNullOrder q1 ≠ kNullOrder → y ≠ last_or kNullOrder q1)
      as Hn.
    { intros y Hy Hl ->. destruct (last_or_elem kNullOrder q1) as [|Hin]; [done|].
      apply (Hdis _ Hin). set_solver. }
    split.
    + unfold unlink_pool. destruct (Z.eqb_spec x kNullOrder); [done|]. simpl.
      destruct (Z.eqb_spec (last_or kNullOrder q1) kNullOrder) as [E|E]; simpl;
        autorewrite with book; repeat case_decide; try done; rewrite ?Hx; try done.
      by destruct (Hn x ltac:(set_solver) E).
    + eapply dlseg_frame; [|done]. intros y Hy.
      apply unlink_pool_links_ne; [apply Hn; set_solver|by intros _ ->].
Qed.

Lemma dlseg_link pool q s :
  NoDup q → s ∉ q → not_null (s :: q) → is_Some (links pool s) →
  dlseg pool kNullOrder q kNullOrder →
  dlseg (link_pool pool s (last_or kNullOrder q)) kNullOrder (q ++ [s]) kNullOrder.
Proof.
  intros Hnd Hs Hnn [[a b] Hl] Hq. rewrite dlseg_app. simpl.
  assert (s ≠ kNullOrder) by (apply Hnn; set_solver).
  assert (last_or kNullOrder q ≠ s).
  { intros E. destruct (last_or_elem kNullOrder q); congruence. }
  split; [|split; [|done]].
  - destruct (list_snoc_case q) as [->|(k & x & ->)]; [done|].
    rewrite last_or_app in *. simpl in *. rewrite dlseg_app in Hq |- *. simpl in *.
    destruct Hq as (Hk & Hx & _).
    assert (x ≠ kNullOrder) by (apply Hnn; set_solver). split; [|split; [|done]].
    + apply NoDup_app in Hnd as (_ & Hxk & _).
      eapply dlseg_frame; [|exact Hk]. intros y Hy.
      apply link_pool_links_ne; [|intros _]; intros ->; set_solver.
    + unfold link_pool. destruct (Z.eqb_spec x kNullOrder); [done|]. simpl.
      autorewrite with book. repeat case_decide; try congruence. by rewrite Hx.
  - unfold link_pool. destruct (Z.eqb_spec (last_or kNullOrder q) kNullOrder) as [E|E]; simpl;
      autorewrite with book; repeat case_decide; try congruence; by rewrite Hl.
Qed.

(** ** All the queues of a book

    The book's resting orders are a list of entries: a pool slot and the order
    in it, oldest priority first. *)

Abbreviation entry := (Z * aorder)%type.

Definition equeue (sd : bool) (p : Z) (G : list entry) : list entry :=
  filter (λ e, at_level sd p e.2) G.

Record level_rep (pool : list Order) (l : Level) (q : list entry) : Prop := {
  lr_head : head l = hd_or kNullOrder q.*1;
  lr_tail : tail l = last_or kNullOrder q.*1;
  lr_count : order_count l = Z.of_nat (length q);
  lr_total : total_quantity l = sum_qty q.*2;
  lr_seg : dlseg pool kNullOrder q.*1 kNullOrder
}.

Definition order_ok (mn mx : Z) (a : aorder) : Prop :=
  mn ≤ a_price a ≤ mx ∧ 0 < a_qty a < 2 ^ 32.

Record queues_rep (mn mx : Z) (pool : list Order) (lv : bool → list Level)
    (G : list entry) : Prop := {
  qr_data s a : (s, a) ∈ G → data pool s = Some a;
  qr_nodup : NoDup G.*1;
  qr_pool : vlen pool ≤ kNullOrder;
  qr_ok s a : (s, a) ∈ G → order_ok mn mx a;
  qr_levels sd p : mn ≤ p ≤ mx →
    ∃ l, (lv sd)⟦p - mn⟧ = Some l ∧ level_rep pool l (equeue sd p G);
  qr_len sd : vlen (lv sd) = mx - mn + 1
}.

Definition set_lv (lv : bool → list Level) (sd : bool) (i : Z) (l : Level) (sd' : bool)
    : list Level :=
  if eqb sd sd' then (lv sd)⟦i := l⟧ else lv sd'.

Lemma data_range pool s a : data pool s = Some a → 0 ≤ s < vlen pool.
Proof. unfold data. intros (o & Ho & _)%fmap_Some. by eapply vget_Some_range. Qed.

Lemma data_links pool s a : data pool s = Some a → is_Some (links pool s).
Proof. unfold data, links. intros (o & -> & _)%fmap_Some. by eexists. Qed.

Lemma equeue_elem sd p G e : e ∈ equeue sd p G ↔ at_level sd p e.2 ∧ e ∈ G.
Proof. unfold equeue. by rewrite list_elem_of_filter. Qed.

Lemma equeue_app sd p G G' : equeue sd p (G ++ G') = equeue sd p G ++ equeue sd p G'.
Proof. apply filter_app. Qed.

Lemma equeue_in sd p e G : at_level sd p e.2 → equeue sd p (e :: G) = e :: equeue sd p G.
Proof. intros. by apply filter_cons_True. Qed.

Lemma equeue_out sd p e G : ¬ at_level sd p e.2 → equeue sd p (e :: G) = equeue sd p G.
Proof. intros. by apply filter_cons_False. Qed.

Lemma equeue_orders sd p G : (equeue sd p G).*2 = a_queue sd p G.*2.
Proof.
  unfold equeue, a_queue. induction G as [|e G IH]; [done|].
  rewrite fmap_cons, !filter_cons. case_decide; rewrite ?fmap_cons; [f_equal|]; exact IH.
Qed.

Lemma sum_qty_cons a B : sum_qty (a :: B) = a_qty a + sum_qty B.
Proof. done. Qed.

Lemma sum_qty_app B B' : sum_qty (B ++ B') = sum_qty B + sum_qty B'.
Proof. induction B; [done|]. rewrite <- app_comm_cons, !sum_qty_cons. lia. Qed.

Lemma equeue_sublist sd p G : equeue sd p G `sublist_of` G.
Proof. unfold equeue. apply sublist_filter. Qed.

Section queues.
Context {mn mx : Z} {pool : list Order} {lv : bool → list Level} {G : list entry}.
Context (HG : queues_rep mn mx pool lv G).

Lemma entry_not_null s a : (s, a) ∈ G → s ≠ kNullOrder.
Proof using HG.
  intros H%(qr_data _ _ _ _ _ HG)%data_range. pose proof (qr_pool _ _ _ _ _ HG). lia.
Qed.

Lemma equeue_not_null sd p : not_null (equeue sd p G).*1.
Proof using HG.
  intros s ([s' a] & -> & [_ Hin]%equeue_elem)%list_elem_of_fmap.
  by eapply entry_not_null.
Qed.

Lemma equeue_nodup sd p : NoDup (equeue sd p G).*1.
Proof using HG.
  eapply sublist_NoDup; [apply HG|]. apply fmap_sublist, equeue_sublist.
Qed.

(** A slot belongs to one level only. *)
Lemma equeue_disjoint sd p sd' p' s :
  s ∈ (equeue sd p G).*1 → s ∈ (equeue sd' p' G).*1 → sd = sd' ∧ p = p'.
Proof using HG.
  intros ([x a] & -> & [[? ?] Ha]%equeue_elem)%list_elem_of_fmap.
  intros ([x' a'] & E & [[? ?] Ha']%equeue_elem)%list_elem_of_fmap. simpl in *. subst x'.
  assert (a = a') as -> by (by eapply NoDup_fst_inj; [apply HG| |]). split; congruence.
Qed.

Lemma pool_small : Z.of_nat (length G) ≤ kNullOrder.
Proof using HG.
  transitivity (Z.of_nat (length (seqZ 0 (vlen pool)))).
  - apply inj_le. rewrite <- (length_fmap fst G). apply submseteq_length.
    apply NoDup_submseteq; [apply HG|].
    intros s ([s' a] & -> & Hin)%list_elem_of_fmap. apply seqZ_vec_elem.
    eapply data_range. by apply (qr_data _ _ _ _ _ HG).
  - rewrite length_seqZ. pose proof (qr_pool _ _ _ _ _ HG).
    pose proof (vlen_nonneg pool). lia.
Qed.

Lemma sum_qty_nonneg q : q ⊆ G → 0 ≤ sum_qty q.*2.
Proof using HG.
  induction q as [|[s a] q IH]; [done|]. intros Hq. rewrite fmap_cons, sum_qty_cons. simpl.
  assert (order_ok mn mx a) as [_ ?] by (apply (qr_ok _ _ _ _ _ HG s); set_solver).
  assert (0 ≤ sum_qty q.*2) by (apply IH; set_solver). lia.
Qed.

Lemma sum_qty_bound q :
  q ⊆ G → sum_qty q.*2 ≤ Z.of_nat (length q) * (2 ^ 32 - 1).
Proof using HG.
  induction q as [|[s a] q IH]; [done|]. intros Hq.
  rewrite fmap_cons, sum_qty_cons, length_cons. simpl.
  assert (order_ok mn mx a) as [_ ?] by (apply (qr_ok _ _ _ _ _ HG s); set_solver).
  assert (sum_qty q.*2 ≤ Z.of_nat (length q) * (2 ^ 32 - 1)) by (apply IH; set_solver).
  lia.
Qed.

(** The totals of a level fit their machine types. *)
Lemma equeue_bounds sd p :
  Z.of_nat (length (equeue sd p G)) ≤ 2 ^ 32 - 1 ∧ 0 ≤ sum_qty (equeue sd p G).*2 < 2 ^ 64.
Proof using HG.
  assert (equeue sd p G ⊆ G) as Hsub by (intros e [_ ?]%equeue_elem; done).
  pose proof (sublist_length _ _ (equeue_sublist sd p G)) as Hlen.
  pose proof pool_small as Hsmall. unfold kNullOrder in *.
  pose proof (sum_qty_bound _ Hsub). pose proof (sum_qty_nonneg _ Hsub).
  assert (Z.of_nat (length (equeue sd p G)) ≤ 2 ^ 32 - 1) by lia. split; [done|].
  split; [done|]. nia.
Qed.
End queues.

Lemma level_rep_frame pool pool' l q :
  (∀ s, s ∈ q.*1 → links pool' s = links pool s) → level_rep pool l q → level_rep pool' l q.
Proof. intros Hf [????]. split; try done. by eapply dlseg_frame. Qed.

(** ** [unlink] on all queues *)

Definition unlink_level (l : Level) (pv nx qty : Z) : Level :=
  mkLevel (total_quantity l - qty) (order_count l - 1)
    (if negb (pv =? kNullOrder) then head l else nx)
    (if negb (nx =? kNullOrder) then tail l else pv).

Definition link_level (l : Level) (slot qty : Z) : Level :=
  mkLevel (total_quantity l + qty) (order_count l + 1)
    (if negb (tail l =? kNullOrder) then head l else slot) slot.

Lemma last_or_null q : not_null q → last_or kNullOrder q = kNullOrder ↔ q = [].
Proof.
  intros Hq. split; [|by intros ->]. intros E. destruct (decide (q = [])) as [|Hne]; [done|].
  exfalso. apply (Hq (last_or kNullOrder q)); [by apply last_or_elem_of|done].
Qed.

Lemma hd_or_null q : not_null q → hd_or kNullOrder q = kNullOrder ↔ q = [].
Proof.
  intros Hq. split; [|by intros ->]. intros E. destruct q as [|x q]; [done|].
  exfalso. apply (Hq x); [set_solver|done].
Qed.

Lemma level_unlink pool l q1 s a q2 :
  level_rep pool l (q1 ++ (s, a) :: q2) →
  NoDup (q1 ++ (s, a) :: q2).*1 → not_null (q1 ++ (s, a) :: q2).*1 →
  let pv := last_or kNullOrder q1.*1 in let nx := hd_or kNullOrder q2.*1 in
  links pool s = Some (pv, nx) ∧
  level_rep (unlink_pool pool pv nx) (unlink_level l pv nx (a_qty a)) (q1 ++ q2).
Proof.
  intros [Hh Ht Hc Hq Hseg] Hnd Hnn pv nx.
  rewrite fmap_app, fmap_cons in *. simpl in *.
  assert (not_null q1.*1) as Hn1 by (intros x Hx; apply Hnn; set_solver).
  assert (not_null q2.*1) as Hn2 by (intros x Hx; apply Hnn; set_solver).
  destruct (dlseg_unlink pool q1.*1 s q2.*1 Hnd Hnn Hseg) as [Hl Hseg'].
  split; [done|]. split; simpl; rewrite ?fmap_app.
  - rewrite Hh, !hd_or_app. simpl. unfold pv.
    destruct (Z.eqb_spec (last_or kNullOrder q1.*1) kNullOrder) as [E|E]; simpl.
    + apply last_or_null in E as ->; [|done]. done.
    + destruct q1; [by destruct E|]. done.
  - rewrite Ht, !last_or_app. simpl. unfold nx.
    destruct (Z.eqb_spec (hd_or kNullOrder q2.*1) kNullOrder) as [E|E]; simpl.
    + apply hd_or_null in E; [|done]. rewrite E. done.
    + destruct q2; [by destruct E|]. done.
  - rewrite Hc, !length_app, length_cons. lia.
  - rewrite Hq, fmap_app, fmap_cons, !sum_qty_app, sum_qty_cons. simpl. lia.
  - done.
Qed.

Section unlink.
Context {mn mx : Z} {pool : list Order} {lv : bool → list Level}.
Context {G1 G2 : list entry} {s : Z} {a : aorder}.
Context (HG : queues_rep mn mx pool lv (G1 ++ (s, a) :: G2)).

Let sd : bool := is_buy (a_side a).
Let q1 : list entry := equeue sd (a_price a) G1.
Let q2 : list entry := equeue sd (a_price a) G2.
Let pv : Z := last_or kNullOrder q1.*1.
Let nx : Z := hd_or kNullOrder q2.*1.

Lemma unlink_queue : equeue sd (a_price a) (G1 ++ (s, a) :: G2) = q1 ++ (s, a) :: q2.
Proof. rewrite equeue_app, equeue_in; [done|]. by split. Qed.

Lemma unlink_neighbours x :
  x ≠ kNullOrder → x = pv ∨ x = nx → x ∈ (q1 ++ q2).*1.
Proof.
  intros Hx [->| ->]; rewrite fmap_app, elem_of_app.
  - left. apply last_or_elem_of. intros E. apply Hx. unfold pv. by rewrite E.
  - right. apply hd_or_elem_of. intros E. apply Hx. unfold nx. by rewrite E.
Qed.

Lemma unlink_not_self : pv ≠ s ∧ nx ≠ s.
Proof using HG.
  pose proof (equeue_nodup HG sd (a_price a)) as Hnd. rewrite unlink_queue in Hnd.
  rewrite fmap_app, fmap_cons in Hnd. simpl in Hnd.
  assert (s ≠ kNullOrder) as Hs by (apply (entry_not_null HG s a); set_solver).
  assert (s ∉ (q1 ++ q2).*1) as Hnot.
  { rewrite fmap_app. apply NoDup_app in Hnd as (_ & Hd & [? ?]%NoDup_cons).
    rewrite elem_of_app. intros [Hin|Hin]; [|done]. apply (Hd s Hin). set_solver. }
  split; intros E; apply Hnot, unlink_neighbours; auto.
Qed.

Lemma unlink_frame x :
  x ∉ (q1 ++ q2).*1 → links (unlink_pool pool pv nx) x = links pool x.
Proof.
  intros Hx. apply unlink_pool_links_ne; intros Hne ->; apply Hx, unlink_neighbours; auto.
Qed.

Lemma queues_unlink :
  ∃ l, (lv sd)⟦a_price a - mn⟧ = Some l ∧ links pool s = Some (pv, nx) ∧
    level_rep pool l (equeue sd (a_price a) (G1 ++ (s, a) :: G2)) ∧
    queues_rep mn mx (unlink_pool pool pv nx)
      (set_lv lv sd (a_price a - mn) (unlink_level l pv nx (a_qty a))) (G1 ++ G2).
Proof using HG.
  assert (order_ok mn mx a) as [Hband _] by (apply (qr_ok _ _ _ _ _ HG s); set_solver).
  destruct (qr_levels _ _ _ _ _ HG sd (a_price a) Hband) as (l & Hl & Hrep).
  pose proof (equeue_nodup HG sd (a_price a)) as Hnd.
  pose proof (equeue_not_null HG sd (a_price a)) as Hnn.
  exists l. split; [done|]. rewrite unlink_queue in Hrep, Hnd, Hnn.
  destruct (level_unlink _ _ _ _ _ _ Hrep Hnd Hnn) as [Hlinks Hrep'].
  split; [done|]. split; [by rewrite unlink_queue|].
  assert (G1 ++ G2 ⊆ G1 ++ (s, a) :: G2) as Hsub by set_solver. split.
  - intros x b Hx. rewrite unlink_pool_data. apply HG. by apply Hsub.
  - eapply sublist_NoDup; [apply HG|]. apply fmap_sublist, sublist_app; [done|].
    by apply sublist_cons.
  - rewrite unlink_pool_len. apply HG.
  - intros x b Hx. apply (qr_ok _ _ _ _ _ HG x). by apply Hsub.
  - intros sd' p Hp. destruct (qr_levels _ _ _ _ _ HG sd' p Hp) as (l' & Hl' & Hr').
    unfold set_lv. destruct (decide (sd = sd' ∧ a_price a = p)) as [[E <-]|Hne].
    + rewrite <- E. rewrite eqb_reflx. eexists. rewrite equeue_app.
      split; [|exact Hrep']. apply vget_vset_eq. by eapply vget_Some_range.
    + exists l'. split.
      { destruct (eqb sd sd') eqn:E; [|done]. apply eqb_prop in E as <-.
        rewrite vget_vset_ne; [done|]. intros ?. apply Hne. split; [done|lia]. }
      rewrite equeue_app in Hr' |- *. rewrite equeue_out in Hr'.
      2:{ intros [E1 E2]. apply Hne. done. }
      eapply level_rep_frame; [|exact Hr']. intros x Hx. apply unlink_frame. intros Hin.
      destruct (equeue_disjoint HG sd (a_price a) sd' p x).
      * rewrite unlink_queue. set_solver.
      * rewrite equeue_app. rewrite fmap_app in *. apply elem_of_app.
        apply elem_of_app in Hx as [?|?]; [by left|right].
        by rewrite equeue_out by (intros [? ?]; by apply Hne).
      * by apply Hne.
  - intros sd'. unfold set_lv. case_match; [rewrite vlen_vset|]; apply HG.
Qed.
Lemma other_slot x b : (x, b) ∈ G1 ++ G2 → x ≠ s.
Proof using HG.
  intros Hin ->. pose proof (qr_nodup _ _ _ _ _ HG) as Hnd.
  rewrite fmap_app, fmap_cons in Hnd. simpl in Hnd.
  apply NoDup_app in Hnd as (_ & Hd & [Hn _]%NoDup_cons).
  apply elem_of_app in Hin as [Hin|Hin];
    apply (list_elem_of_fmap_2 fst) in Hin; simpl in Hin; [|done].
  apply (Hd s Hin). set_solver.
Qed.

End unlink.

(** ** [link_back] on all queues *)

Lemma level_link pool l q s a :
  level_rep pool l q → NoDup q.*1 → not_null (s :: q.*1) → s ∉ q.*1 →
  is_Some (links pool s) →
  level_rep (link_pool pool s (tail l)) (link_level l s (a_qty a)) (q ++ [(s, a)]).
Proof.
  intros [Hh Ht Hc Hq Hseg] Hnd Hnn Hs Hl.
  assert (not_null q.*1) as Hn by (intros x Hx; apply Hnn; set_solver).
  split; simpl; rewrite ?fmap_app, ?fmap_cons; simpl.
  - rewrite Hh, Ht, hd_or_app. simpl.
    destruct (Z.eqb_spec (last_or kNullOrder q.*1) kNullOrder) as [E|E]; simpl.
    + apply last_or_null in E as ->; [|done]. done.
    + destruct q; [by destruct E|]. done.
  - by rewrite last_or_app.
  - rewrite Hc, length_app. simpl. lia.
  - rewrite Hq, sum_qty_app, sum_qty_cons. simpl. unfold sum_qty. simpl. lia.
  - rewrite Ht. by apply dlseg_link.
Qed.

Section link.
Context {mn mx : Z} {pool : list Order} {lv : bool → list Level} {G : list entry}.
Context (HG : queues_rep mn mx pool lv G).
Context {s : Z} {a : aorder}.
Context (Hs : s ∉ G.*1) (Hdata : data pool s = Some a) (Hok : order_ok mn mx a).

Let sd : bool := is_buy (a_side a).
Let q : list entry := equeue sd (a_price a) G.

Lemma equeue_fst_sub sd' p x : x ∈ (equeue sd' p G).*1 → x ∈ G.*1.
Proof.
  intros ([y b] & -> & [_ Hin]%equeue_elem)%list_elem_of_fmap.
  apply list_elem_of_fmap. by exists (y, b).
Qed.

Lemma link_tail l :
  level_rep pool l q → tail l ≠ kNullOrder → tail l ∈ q.*1.
Proof.
  intros Hr. rewrite (lr_tail _ _ _ Hr). intros Hne. apply last_or_elem_of.
  intros E. apply Hne. by rewrite E.
Qed.

Lemma queues_link :
  ∃ l, (lv sd)⟦a_price a - mn⟧ = Some l ∧ level_rep pool l q ∧
    queues_rep mn mx (link_pool pool s (tail l))
      (set_lv lv sd (a_price a - mn) (link_level l s (a_qty a))) (G ++ [(s, a)]).
Proof using HG Hs Hdata Hok.
  destruct (qr_levels _ _ _ _ _ HG sd (a_price a) (proj1 Hok)) as (l & Hl & Hrep).
  exists l. split; [done|]. split; [done|].
  assert (s ∉ q.*1) as Hsq by (intros Hin%equeue_fst_sub; done).
  assert (s ≠ kNullOrder) as Hsn.
  { apply data_range in Hdata. pose proof (qr_pool _ _ _ _ _ HG). lia. }
  assert (not_null (s :: q.*1)) as Hnn.
  { intros x [->|Hx]%elem_of_cons; [done|]. by apply (equeue_not_null HG) in Hx. }
  split.
  - intros x b. rewrite link_pool_data. rewrite elem_of_app, list_elem_of_singleton.
    intros [Hx|[= -> ->]]; [by apply HG|done].
  - rewrite fmap_app. apply NoDup_app. split; [apply HG|]. split; [set_solver|].
    apply NoDup_singleton.
  - rewrite link_pool_len. apply HG.
  - intros x b. rewrite elem_of_app, list_elem_of_singleton.
    intros [Hx|[= -> ->]]; [by apply (qr_ok _ _ _ _ _ HG x)|done].
  - intros sd' p Hp. destruct (qr_levels _ _ _ _ _ HG sd' p Hp) as (l' & Hl' & Hr').
    unfold set_lv. rewrite equeue_app.
    destruct (decide (sd = sd' ∧ a_price a = p)) as [[E <-]|Hne].
    + rewrite <- E. rewrite eqb_reflx. eexists. rewrite equeue_in by done.
      split; [apply vget_vset_eq; by eapply vget_Some_range|].
      apply level_link; [done|apply (equeue_nodup HG)|done..|by eapply data_links].
    + exists l'. split.
      { destruct (eqb sd sd') eqn:E; [|done]. apply eqb_prop in E as <-.
        rewrite vget_vset_ne; [done|]. intros ?. apply Hne. split; [done|lia]. }
      rewrite equeue_out by (intros [? ?]; by apply Hne).
      change (equeue sd' p []) with (@nil entry). rewrite app_nil_r.
      eapply level_rep_frame; [|exact Hr']. intros x Hx. apply link_pool_links_ne.
      * intros ->. apply Hs. by eapply equeue_fst_sub.
      * intros Ht ->. apply Hne.
        apply (equeue_disjoint HG _ _ _ _ (tail l)); [by apply link_tail|done].
  - intros sd'. unfold set_lv. case_match; [rewrite vlen_vset|]; apply HG.
Qed.
End link.

(** ** Changing a quantity in place *)

Lemma data_set_quantity pool i v s :
  data (vupd pool i (set_quantity v)) s =
  if decide (i = s)
  then (λ a, mkAOrder (a_id a) (a_side a) (a_price a) v) <$> data pool s
  else data pool s.
Proof. unfold data. rewrite vget_vupd. case_decide; by destruct (pool⟦s⟧). Qed.

Lemma links_set_quantity pool i v s : links (vupd pool i (set_quantity v)) s = links pool s.
Proof. unfold links. rewrite vget_vupd. case_decide; by destruct (pool⟦s⟧). Qed.
#[export] Hint Rewrite links_set_quantity : book.

Definition resized (a : aorder) (v : Z) : aorder :=
  mkAOrder (a_id a) (a_side a) (a_price a) v.

Lemma equeue_resize sd p G1 s a v G2 :
  (equeue sd p (G1 ++ (s, resized a v) :: G2)).*1 = (equeue sd p (G1 ++ (s, a) :: G2)).*1 ∧
  sum_qty (equeue sd p (G1 ++ (s, resized a v) :: G2)).*2 =
  sum_qty (equeue sd p (G1 ++ (s, a) :: G2)).*2 +
    (if decide (at_level sd p a) then v - a_qty a else 0).
Proof.
  rewrite !equeue_app. destruct (decide (at_level sd p a)) as [Ha|Ha].
  - rewrite !equeue_in by done. rewrite !fmap_app, !fmap_cons, !sum_qty_app, !sum_qty_cons.
    simpl. split; [done|lia].
  - rewrite !equeue_out by done. split; [done|lia].
Qed.

Section resize.
Context {mn mx : Z} {pool : list Order} {lv : bool → list Level}.
Context {G1 G2 : list entry} {s : Z} {a : aorder} (v : Z).
Context (HG : queues_rep mn mx pool lv (G1 ++ (s, a) :: G2)) (Hv : 0 < v < 2 ^ 32).

Lemma queues_resize :
  ∃ l, (lv (is_buy (a_side a)))⟦a_price a - mn⟧ = Some l ∧
    total_quantity l = sum_qty (equeue (is_buy (a_side a)) (a_price a) (G1 ++ (s, a) :: G2)).*2 ∧
    queues_rep mn mx (vupd pool s (set_quantity v))
      (set_lv lv (is_buy (a_side a)) (a_price a - mn)
        (set_total (total_quantity l - (a_qty a - v)) l)) (G1 ++ (s, resized a v) :: G2).
Proof using HG Hv.
  assert (order_ok mn mx a) as [Hband _] by (apply (qr_ok _ _ _ _ _ HG s); set_solver).
  destruct (qr_levels _ _ _ _ _ HG (is_buy (a_side a)) (a_price a) Hband) as (l & Hl & Hrep).
  exists l. split; [done|]. split; [apply Hrep|].
  assert (∀ x b, (x, b) ∈ G1 ++ (s, resized a v) :: G2 →
    (x = s ∧ b = resized a v) ∨ (x ≠ s ∧ (x, b) ∈ G1 ++ (s, a) :: G2)) as Hcase.
  { intros x b Hin. destruct (decide ((x, b) = (s, resized a v))) as [[= -> ->]|Hne].
    - by left.
    - right. assert ((x, b) ∈ G1 ++ G2) as Hin' by set_solver.
      split; [by eapply (other_slot HG)|set_solver]. }
  split.
  - intros x b [[-> ->]|[Hx Hin]]%Hcase; rewrite data_set_quantity; case_decide; try done.
    + by rewrite (qr_data _ _ _ _ _ HG s a) by set_solver.
    + by apply HG.
  - pose proof (qr_nodup _ _ _ _ _ HG) as Hnd. rewrite fmap_app, fmap_cons in *. done.
  - rewrite vlen_vupd. apply HG.
  - intros x b [[-> ->]|[Hx Hin]]%Hcase; [done|by apply (qr_ok _ _ _ _ _ HG x)].
  - intros sd p Hp. destruct (qr_levels _ _ _ _ _ HG sd p Hp) as (l' & Hl' & Hr').
    destruct (equeue_resize sd p G1 s a v G2) as [Hq Hsum]. unfold set_lv.
    destruct (decide (at_level sd p a)) as [[E <-]|Hne].
    + rewrite E, eqb_reflx. rewrite <- E in Hl'. rewrite Hl in Hl'. injection Hl' as <-.
      eexists. rewrite <- E. split; [apply vget_vset_eq; by eapply vget_Some_range|].
      rewrite E. split; simpl; rewrite ?Hq; try apply Hr'.
      * rewrite <- (length_fmap fst (equeue _ _ _)), Hq, length_fmap. apply Hr'.
      * rewrite Hsum, (lr_total _ _ _ Hr'). lia.
      * eapply dlseg_frame; [|apply Hr']. intros. by autorewrite with book.
    + exists l'. split.
      { destruct (eqb (is_buy (a_side a)) sd) eqn:E; [|done]. apply eqb_prop in E.
        rewrite vget_vset_ne; [congruence|]. intros ?. apply Hne. split; [done|lia]. }
      split; rewrite ?Hq; try apply Hr'.
      * rewrite <- (length_fmap fst (equeue _ _ _)), Hq, length_fmap. apply Hr'.
      * rewrite Hsum, (lr_total _ _ _ Hr'). lia.
      * eapply dlseg_frame; [|apply Hr']. intros. by autorewrite with book.
  - intros sd. unfold set_lv. case_match; [rewrite vlen_vset|]; apply HG.
Qed.
End resize.
