(* ===== verification/OrderBookInv.v ===== *)
(** * Running the queue operations on a book

    [link_back], [unlink], [on_level_emptied] and [note_level_filled] executed
    on a book whose queues are well formed: no fault, and the new queues and
    best levels. *)

From S2P Require Import Prelude Message OrderIndex BookSpec OrderBook BookQueues.
Import Book.

#[local] Open Scope Z_scope.
#[local] Open Scope llte_scope.

(** ** Both sides of a book as functions of the side *)

Definition lvls (b : t) (sd : bool) : list Level := if sd then bid_levels_ b else ask_levels_ b.
Definition bests (b : t) (sd : bool) : Z := if sd then best_bid_level_ b else best_ask_level_ b.
Definition set_best (sd : bool) (v : Z) (b : t) : t :=
  if sd then set_best_bid v b else set_best_ask v b.

Definition rebuild (b : t) (lv : bool → list Level) (pool : list Order) : t :=
  mkBook (min_price_ b) (max_price_ b) (lv true) (lv false) pool (index_ b)
    (index_mask_ b) (free_head_ b) (live_orders_ b) (best_bid_level_ b) (best_ask_level_ b).

Lemma rebuild_eta b : b = rebuild b (lvls b) (pool_ b).
Proof. by destruct b. Qed.

Lemma rebuild_ext b lv lv' pool : (∀ sd, lv sd = lv' sd) → rebuild b lv pool = rebuild b lv' pool.
Proof. intros H. unfold rebuild. by rewrite !H. Qed.

Lemma lvls_rebuild b lv pool sd : lvls (rebuild b lv pool) sd = lv sd.
Proof. by destruct sd. Qed.

Lemma levels_for_rebuild b lv pool s : levels_for (rebuild b lv pool) s = lv (is_buy s).
Proof. unfold levels_for. by destruct (is_buy s). Qed.

Lemma upd_order_rebuild b lv pool x o f :
  pool⟦x⟧ = Some o → upd_order (rebuild b lv pool) x f = Ret (rebuild b lv (vupd pool x f)).
Proof.
  intros Ho. unfold upd_order. simpl. rewrite (load_Some _ _ _ Ho). simpl.
  rewrite assign_ok by (by eapply vget_Some_range). by rewrite (vupd_Some _ _ _ _ Ho).
Qed.

Lemma upd_level_rebuild b lv pool s i l f :
  (lv (is_buy s))⟦i⟧ = Some l →
  upd_level (rebuild b lv pool) s i f = Ret (rebuild b (set_lv lv (is_buy s) i (f l)) pool).
Proof.
  intros Hl. unfold upd_level. rewrite !levels_for_rebuild, (load_Some _ _ _ Hl). simpl.
  rewrite assign_ok by (by eapply vget_Some_range). unfold set_levels_for, set_lv.
  simpl. by destruct (is_buy s).
Qed.

Lemma set_lv_eq lv sd i l l' : (lv sd)⟦i⟧ = Some l' → (set_lv lv sd i l sd)⟦i⟧ = Some l.
Proof.
  intros H. unfold set_lv. rewrite eqb_reflx. apply vget_vset_eq. by eapply vget_Some_range.
Qed.

Lemma vset_vset {A} (v : list A) i x y : v⟦i := x⟧⟦i := y⟧ = v⟦i := y⟧.
Proof. unfold vset. case_match; [apply list_insert_insert_eq|done]. Qed.

Lemma set_lv_twice lv sd i l l' sd' :
  set_lv (set_lv lv sd i l) sd i l' sd' = set_lv lv sd i l' sd'.
Proof.
  unfold set_lv. rewrite eqb_reflx. case_match; [|done]. by rewrite vset_vset.
Qed.

Lemma rebuild_twice b lv sd i l l' pool :
  rebuild b (set_lv (set_lv lv sd i l) sd i l') pool = rebuild b (set_lv lv sd i l') pool.
Proof. apply rebuild_ext. intros. apply set_lv_twice. Qed.

(** What the queue operations leave alone. *)
Record same_rest (b b' : t) : Prop := {
  sr_min : min_price_ b' = min_price_ b;
  sr_max : max_price_ b' = max_price_ b;
  sr_index : index_ b' = index_ b;
  sr_mask : index_mask_ b' = index_mask_ b;
  sr_free : free_head_ b' = free_head_ b;
  sr_live : live_orders_ b' = live_orders_ b;
  sr_len : vlen (pool_ b') = vlen (pool_ b);
  sr_data x : data (pool_ b') x = data (pool_ b) x
}.

(** ** Well-formed books, level by level *)

(** The band fits the index arithmetic: prices are [int64_t], their difference
    does not overflow, and so a level is never [kNoLevel]. *)
Definition band_ok (mn mx : Z) : Prop :=
  int64_min ≤ mn ∧ mn ≤ mx ∧ mx ≤ int64_max ∧ mx - mn ≤ int64_max.

Definition book_queues (b : t) (G : list entry) : Prop :=
  band_ok (min_price_ b) (max_price_ b) ∧
  queues_rep (min_price_ b) (max_price_ b) (pool_ b) (lvls b) G.

Definition best_ok (mn best : Z) (sd : bool) (B : list aorder) : Prop :=
  (best = kNoLevel ∧ no_side sd B) ∨ (best ≠ kNoLevel ∧ is_best sd (mn + best) B).

Definition book_best (b : t) (B : list aorder) : Prop :=
  ∀ sd, best_ok (min_price_ b) (bests b sd) sd B.

Lemma queues_rep_ext mn mx pool lv lv' G :
  (∀ sd, lv sd = lv' sd) → queues_rep mn mx pool lv G → queues_rep mn mx pool lv' G.
Proof.
  intros E [?????]. split; try done; intros sd; rewrite <- E; auto.
Qed.

Lemma pool_get pool x l : links pool x = Some l →
  ∃ o, pool⟦x⟧ = Some o ∧ o_prev o = l.1 ∧ o_next o = l.2.
Proof. unfold links. intros (o & -> & ->)%fmap_Some. by exists o. Qed.

Lemma pool_data pool x a : data pool x = Some a →
  ∃ o, pool⟦x⟧ = Some o ∧ o_id o = a_id a ∧ o_side o = a_side a ∧
       o_price o = a_price a ∧ o_quantity o = a_qty a.
Proof. unfold data. intros (o & -> & ->)%fmap_Some. by exists o. Qed.

(** One more update of a level that this run has already updated. *)
Ltac level_again :=
  erewrite upd_level_rebuild by (by eapply set_lv_eq); simpl; rewrite rebuild_twice.

(** ** [link_back] *)

(** The straight-line run of [link_back], with the machine arithmetic resolved. *)
Lemma link_back_run b s slot i l o a :
  (lvls b (is_buy s))⟦i⟧ = Some l → (pool_ b)⟦slot⟧ = Some o → data (pool_ b) slot = Some a →
  (tail l ≠ kNullOrder → tail l ≠ slot ∧ is_Some ((pool_ b)⟦tail l⟧)) →
  0 ≤ order_count l < 2 ^ 32 - 1 → 0 ≤ total_quantity l + a_qty a < 2 ^ 64 →
  link_back b i s slot =
  Ret (rebuild b (set_lv (lvls b) (is_buy s) i (link_level l slot (a_qty a)))
    (link_pool (pool_ b) slot (tail l))).
Proof.
  intros Hl Ho Hdata Htail Hc Ht. rewrite (rebuild_eta b) at 1. unfold link_back.
  rewrite levels_for_rebuild, (load_Some _ _ _ Hl). simpl.
  rewrite (upd_order_rebuild _ _ _ _ _ _ Ho). simpl.
  rewrite (upd_order_rebuild _ _ _ slot (set_next kNullOrder o)) by (by rewrite vget_vupd_eq, Ho).
  simpl. unfold link_pool, link_level. set (pool2 := vupd _ slot (set_prev (tail l))).
  assert (data pool2 slot = Some a) as Hd2 by (unfold pool2; by autorewrite with book).
  destruct (Z.eqb_spec (tail l) kNullOrder) as [E|E]; simpl.
  - rewrite (upd_level_rebuild _ _ _ _ _ _ _ Hl). simpl. do 2 level_again.
    destruct (pool_data _ _ _ Hd2) as (o2 & Ho2 & _ & _ & _ & Hq2).
    rewrite (load_Some _ _ _ Ho2). simpl. level_again.
    rewrite Hq2, u32_small, u64_small by lia. done.
  - destruct (Htail E) as [Hne [ot Hot]].
    rewrite (upd_order_rebuild _ _ _ _ ot) by (unfold pool2; by rewrite !vget_vupd_ne).
    simpl. rewrite (upd_level_rebuild _ _ _ _ _ _ _ Hl). simpl. level_again.
    destruct (pool_data (vupd pool2 (tail l) (set_next slot)) slot a)
      as (o2 & Ho2 & _ & _ & _ & Hq2); [by autorewrite with book|].
    rewrite (load_Some _ _ _ Ho2). simpl. level_again.
    rewrite Hq2, u32_small, u64_small by lia. done.
Qed.

Lemma link_back_spec b G s a :
  book_queues b G → s ∉ G.*1 → data (pool_ b) s = Some a →
  order_ok (min_price_ b) (max_price_ b) a →
  ∃ b', link_back b (a_price a - min_price_ b) (a_side a) s = Ret b' ∧
    book_queues b' (G ++ [(s, a)]) ∧ same_rest b b' ∧
    (∀ sd, bests b' sd = bests b sd) ∧
    (∀ x, x ∉ G.*1 → x ≠ s → links (pool_ b') x = links (pool_ b) x).
Proof.
  intros [Hband HG] Hs Hdata Hok.
  destruct (queues_link HG Hs Hdata Hok) as (l & Hl & Hrep & HG').
  pose proof (link_tail l Hrep) as Htail.
  pose proof (equeue_bounds HG' (is_buy (a_side a)) (a_price a)) as Hbnd.
  rewrite equeue_app, equeue_in in Hbnd by done.
  rewrite length_app, fmap_app, sum_qty_app, fmap_cons, sum_qty_cons in Hbnd.
  change (sum_qty (equeue _ _ []).*2) with 0 in Hbnd. simpl in Hbnd.
  pose proof (lr_count _ _ _ Hrep) as Hc. pose proof (lr_total _ _ _ Hrep) as Ht.
  destruct (pool_data _ _ _ Hdata) as (o & Ho & _).
  eexists. split; [|split; [|split; [|split]]].
  - eapply link_back_run; [done..| | |lia]; [|lia].
    intros Hne. apply Htail, equeue_fst_sub in Hne as Hin. split; [by intros E; rewrite E in Hin|].
    apply list_elem_of_fmap in Hin as ([x c] & E & Hin). simpl in E. subst x.
    apply (qr_data _ _ _ _ _ HG) in Hin. destruct (pool_data _ _ _ Hin) as (? & ? & _). eauto.
  - split; [done|]. eapply queues_rep_ext; [|exact HG']. intros sd'. by rewrite lvls_rebuild.
  - split; try done; simpl; [apply link_pool_len|intros; apply link_pool_data].
  - by intros [].
  - intros x Hx Hxs. simpl. apply link_pool_links_ne; [done|]. intros Hne ->.
    apply Hx. by eapply equeue_fst_sub, Htail.
Qed.

(** ** Best levels *)

Definition counts (levels : list Level) (i : Z) : Prop :=
  ∃ l, levels⟦i⟧ = Some l ∧ 0 < order_count l.

Lemma scan_down_spec levels n :
  Z.of_nat n ≤ vlen levels →
  ∃ r, scan_down levels n = Ret r ∧
    match r with
    | Some j => 0 ≤ j < Z.of_nat n ∧ counts levels j ∧ ∀ k, j < k < Z.of_nat n → ¬ counts levels k
    | None => ∀ k, 0 ≤ k < Z.of_nat n → ¬ counts levels k
    end.
Proof.
  induction n as [|n IH]; intros Hn; [exists None; split; [done|]; lia|].
  simpl. destruct (vget_is_Some levels (Z.of_nat n)) as [l Hl]; [lia|].
  rewrite (load_Some _ _ _ Hl). simpl. destruct (Z.ltb_spec 0 (order_count l)) as [H|H].
  - eexists. split; [done|]. simpl. split; [lia|]. split; [by exists l|]. lia.
  - destruct IH as (r & -> & Hr); [lia|]. exists r. split; [done|].
    assert (¬ counts levels (Z.of_nat n)) as Hn' by (intros (l' & Hl' & ?); simplify_eq; lia).
    destruct r as [j|].
    + destruct Hr as (? & ? & Hr). split; [lia|]. split; [done|].
      intros k Hk. destruct (decide (k = Z.of_nat n)) as [->|]; [done|apply Hr; lia].
    + intros k Hk. destruct (decide (k = Z.of_nat n)) as [->|]; [done|apply Hr; lia].
Qed.

Lemma scan_up_spec levels fuel i :
  0 ≤ i ≤ vlen levels → vlen levels ≤ 2 ^ 63 → vlen levels - i < Z.of_nat fuel →
  ∃ r, scan_up fuel levels i = Ret r ∧
    match r with
    | Some j => i ≤ j < vlen levels ∧ counts levels j ∧ ∀ k, i ≤ k < j → ¬ counts levels k
    | None => ∀ k, i ≤ k → ¬ counts levels k
    end.
Proof.
  intros Hi Hlen. revert i Hi. induction fuel as [|fuel IH]; intros i Hi Hfuel; simpl.
  { lia. }
  destruct (Z.ltb_spec i (vlen levels)) as [H|H].
  2:{ exists None. split; [done|]. intros k Hk (l & Hl%vget_Some_range & _). lia. }
  destruct (vget_is_Some levels i) as [l Hl]; [lia|].
  rewrite (load_Some _ _ _ Hl). simpl. destruct (Z.ltb_spec 0 (order_count l)) as [Hp|Hp].
  - eexists. split; [done|]. simpl. split; [lia|]. split; [by exists l|]. lia.
  - rewrite u64_small by lia. destruct (IH (i + 1)) as (r & -> & Hr); [lia..|].
    exists r. split; [done|].
    assert (¬ counts levels i) as Hn by (intros (l' & Hl' & ?); simplify_eq; lia).
    destruct r as [j|].
    + destruct Hr as (? & ? & Hr). split; [lia|]. split; [done|].
      intros k Hk. destruct (decide (k = i)) as [->|]; [done|apply Hr; lia].
    + intros k Hk. destruct (decide (k = i)) as [->|]; [done|apply Hr; lia].
Qed.

(** A level counts orders exactly when its queue is inhabited. *)
Lemma counts_iff b G sd i :
  book_queues b G → 0 ≤ i ≤ max_price_ b - min_price_ b →
  counts (lvls b sd) i ↔ ∃ o, o ∈ G.*2 ∧ at_level sd (min_price_ b + i) o.
Proof.
  intros [Hband HG] Hi.
  destruct (qr_levels _ _ _ _ _ HG sd (min_price_ b + i)) as (l & Hl & Hr); [lia|].
  replace (min_price_ b + i - min_price_ b) with i in Hl by lia.
  pose proof (lr_count _ _ _ Hr) as Hc. split.
  - intros (l' & Hl' & Hpos). simplify_eq.
    destruct (equeue sd (min_price_ b + i) G) as [|[s a] q] eqn:E; [simpl in *; lia|].
    assert ((s, a) ∈ equeue sd (min_price_ b + i) G) as [Ha Hin]%equeue_elem by (rewrite E; set_solver).
    exists a. split; [|done]. apply list_elem_of_fmap. by exists (s, a).
  - intros (o & ([s a] & -> & Hin)%list_elem_of_fmap & Ha). exists l. split; [done|].
    rewrite Hc. assert ((s, a) ∈ equeue sd (min_price_ b + i) G) as Hq by (by apply equeue_elem).
    destruct (equeue sd (min_price_ b + i) G); [by apply elem_of_nil in Hq|]. rewrite length_cons. lia.
Qed.

Lemma queues_prices b G o :
  book_queues b G → o ∈ G.*2 → 0 ≤ a_price o - min_price_ b ≤ max_price_ b - min_price_ b.
Proof.
  intros [_ HG] ([s a] & -> & Hin)%list_elem_of_fmap.
  destruct (qr_ok _ _ _ _ _ HG s a Hin). simpl. lia.
Qed.

(** The level that [on_level_emptied] looks for. *)
Definition found_best (b : t) (sd : bool) (i : Z) (r : option Z) : Prop :=
  match r with
  | Some j => 0 ≤ j ≤ max_price_ b - min_price_ b ∧ counts (lvls b sd) j ∧
      ∀ k, 0 ≤ k ≤ max_price_ b - min_price_ b → counts (lvls b sd) k →
        if sd then i ≤ k ∨ k ≤ j else k ≤ i ∨ j ≤ k
  | None => ∀ k, 0 ≤ k ≤ max_price_ b - min_price_ b → counts (lvls b sd) k →
      if sd then i ≤ k else k ≤ i
  end.

Lemma on_level_emptied_run b G s i :
  book_queues b G → 0 ≤ i ≤ max_price_ b - min_price_ b →
  ∃ b', on_level_emptied b s i = Ret b' ∧
    ((i ≠ bests b (is_buy s) ∧ b' = b) ∨
     (i = bests b (is_buy s) ∧ ∃ r, b' = set_best (is_buy s) (default kNoLevel r) b ∧
        found_best b (is_buy s) i r)).
Proof.
  intros [Hband HG] Hi. unfold on_level_emptied, bests, set_best.
  pose proof (qr_len _ _ _ _ _ HG (is_buy s)) as Hlen. unfold lvls in Hlen.
  unfold band_ok, int64_min, int64_max in Hband.
  destruct (is_buy s) eqn:Es; [destruct (Z.eqb_spec i (best_bid_level_ b))|
    destruct (Z.eqb_spec i (best_ask_level_ b))]; cbn [negb]; try (eexists; split; [done|by left]).
  - destruct (scan_down_spec (bid_levels_ b) (Z.to_nat i)) as (r & -> & Hr); [lia|].
    simpl. eexists. split; [done|]. right. split; [done|]. exists r. split; [done|].
    rewrite Z2Nat.id in Hr by lia. destruct r as [j|]; simpl.
    + destruct Hr as (? & ? & Hr). split; [lia|]. split; [done|]. intros k Hk Hc.
      destruct (Z.lt_ge_cases k i), (Z.le_gt_cases k j); [lia..| |lia|lia].
      exfalso. by apply (Hr k); [lia|].
    + intros k Hk Hc. destruct (Z.lt_ge_cases k i); [|lia]. exfalso. by apply (Hr k); [lia|].
  - rewrite u64_small by lia.
    destruct (scan_up_spec (ask_levels_ b) (S (length (ask_levels_ b))) (i + 1)) as (r & -> & Hr);
      [lia..|unfold vlen; lia|].
    simpl. eexists. split; [done|]. right. split; [done|]. exists r. split; [done|].
    destruct r as [j|]; simpl.
    + destruct Hr as (? & ? & Hr). split; [lia|]. split; [done|]. intros k Hk Hc.
      destruct (Z.le_gt_cases k i), (Z.lt_ge_cases k j); [lia..| |lia].
      exfalso. by apply (Hr k); [lia|].
    + intros k Hk Hc. destruct (Z.le_gt_cases k i); [lia|]. exfalso. by apply (Hr k); [lia|].
Qed.

Lemma best_ok_remove mn best sd B1 a B2 :
  best_ok mn best sd (B1 ++ a :: B2) →
  (at_level sd (mn + best) a → ∃ o, o ∈ B1 ++ B2 ∧ at_level sd (mn + best) o) →
  best_ok mn best sd (B1 ++ B2).
Proof.
  assert (∀ o, o ∈ B1 ++ B2 → o ∈ B1 ++ a :: B2) as Hsub by set_solver.
  intros [[E Hno]|[E [(o & Ho & Hl) Hmax]]] Ha; [left|right]; (split; [done|]).
  - intros o Ho. apply Hno. auto.
  - split; [|intros o' Ho'; by apply Hmax; auto].
    destruct (decide (o ∈ B1 ++ B2)) as [|Hn]; [by exists o|].
    apply Ha. assert (o = a) as <- by set_solver. done.
Qed.

Lemma bests_set_best sd v b sd' :
  bests (set_best sd v b) sd' = if eqb sd sd' then v else bests b sd'.
Proof. by destruct sd, sd'. Qed.

Lemma same_rest_refl b : same_rest b b.
Proof. by split. Qed.

Lemma same_rest_trans b1 b2 b3 : same_rest b1 b2 → same_rest b2 b3 → same_rest b1 b3.
Proof. intros [] []. split; congruence. Qed.

Lemma same_rest_set_best sd v b : same_rest b (set_best sd v b).
Proof. by destruct sd; split. Qed.

Lemma book_queues_set_best sd v b G : book_queues b G → book_queues (set_best sd v b) G.
Proof.
  intros HG. split; [destruct sd; apply HG|].
  eapply (queues_rep_ext _ _ _ (lvls b)); [|destruct sd; apply HG]. by destruct sd; intros [].
Qed.

Lemma best_rescan b G1 G2 s a r :
  book_queues b (G1 ++ G2) → book_best b (G1 ++ (s, a) :: G2).*2 →
  order_ok (min_price_ b) (max_price_ b) a →
  let sd := is_buy (a_side a) in let i := a_price a - min_price_ b in
  ¬ counts (lvls b sd) i → bests b sd = i → found_best b sd i r →
  best_ok (min_price_ b) (default kNoLevel r) sd (G1 ++ G2).*2.
Proof.
  intros HG Hbest [Ha _] sd i Hempty Hi Hr. pose proof (proj1 HG) as Hband.
  unfold band_ok, int64_min, int64_max in Hband.
  assert (∀ o, o ∈ (G1 ++ G2).*2 → is_buy (a_side o) = sd →
    let k := a_price o - min_price_ b in
    0 ≤ k ≤ max_price_ b - min_price_ b ∧ counts (lvls b sd) k ∧ k ≠ i ∧
    if sd then k ≤ i else i ≤ k) as Hall.
  { intros o Ho Hsd k. pose proof (queues_prices _ _ _ HG Ho) as Hk. split; [done|].
    assert (counts (lvls b sd) k) as Hck.
    { apply (counts_iff _ _ _ _ HG Hk). exists o. split; [done|]. split; [done|]. unfold k. lia. }
    split; [done|]. split; [congruence|].
    destruct (Hbest sd) as [[E _]|[_ [_ Hmax]]].
    { rewrite Hi in E. unfold kNoLevel, i in E. lia. }
    rewrite Hi in Hmax. specialize (Hmax o). unfold i in *.
    destruct sd; (lapply Hmax; [intros H; specialize (H Hsd); lia|]);
      rewrite fmap_app, fmap_cons; rewrite fmap_app in Ho; set_solver. }
  destruct r as [j|]; simpl in *.
  - destruct Hr as (Hj & Hcj & Hr). right. split; [unfold kNoLevel; lia|]. split.
    + by apply (counts_iff _ _ _ _ HG Hj).
    + intros o Ho Hsd. destruct (Hall o Ho Hsd) as (Hk & Hc & Hne & Hle).
      specialize (Hr _ Hk Hc). destruct sd; lia.
  - left. split; [done|]. intros o Ho Hsd. destruct (Hall o Ho Hsd) as (Hk & Hc & Hne & Hle).
    specialize (Hr _ Hk Hc). destruct sd; lia.
Qed.

(** The tail of [unlink]: the best levels after the queue has been cut. *)
Lemma best_after_unlink b G1 G2 s a l :
  book_queues b (G1 ++ G2) → book_best b (G1 ++ (s, a) :: G2).*2 →
  order_ok (min_price_ b) (max_price_ b) a →
  let sd := is_buy (a_side a) in let i := a_price a - min_price_ b in
  (lvls b sd)⟦i⟧ = Some l →
  ∃ b', (if order_count l =? 0 then on_level_emptied b (a_side a) i else Ret b) = Ret b' ∧
    book_best b' (G1 ++ G2).*2 ∧ book_queues b' (G1 ++ G2) ∧ same_rest b b' ∧ pool_ b' = pool_ b.
Proof.
  intros HG Hbest Hok sd i Hl. pose proof (proj1 Hok) as Hp.
  assert (0 ≤ i ≤ max_price_ b - min_price_ b) as Hi by (unfold i; lia).
  assert (∀ sd', (at_level sd' (min_price_ b + bests b sd') a →
      sd' = sd ∧ counts (lvls b sd) i) →
    best_ok (min_price_ b) (bests b sd') sd' (G1 ++ G2).*2) as Hkeep.
  { intros sd' Hc. specialize (Hbest sd'). rewrite fmap_app, fmap_cons in Hbest.
    change ((s, a).2) with a in Hbest. rewrite fmap_app. eapply best_ok_remove; [done|]. intros Hal.
    destruct (Hc Hal) as [-> Hcc]. rewrite <- fmap_app.
    apply (counts_iff _ _ _ _ HG Hi) in Hcc. destruct Hal as [_ Hal]. unfold i in *.
    replace (min_price_ b + (a_price a - min_price_ b)) with (a_price a) in Hcc by lia.
    by rewrite Hal in Hcc. }
  destruct (Z.eqb_spec (order_count l) 0) as [Hc|Hc].
  - assert (¬ counts (lvls b sd) i) as Hempty by (intros (l' & Hl' & ?); simplify_eq; lia).
    destruct (on_level_emptied_run b _ (a_side a) i HG Hi) as (b' & -> & [[Hne ->]|(Heq & r & -> & Hr)]).
    + exists b. split; [done|]. split; [|by auto using same_rest_refl]. intros sd'. apply Hkeep.
      intros [E1 E2]. exfalso. apply Hne. unfold i. rewrite E1. lia.
    + eexists. split; [done|]. fold sd in Heq, Hr |- *.
      split; [|split; [by apply book_queues_set_best|split; [apply same_rest_set_best|by destruct sd]]].
      intros sd'. rewrite bests_set_best.
      replace (min_price_ (set_best sd (default kNoLevel r) b)) with (min_price_ b) by (by destruct sd).
      destruct (eqb sd sd') eqn:E.
      * apply eqb_prop in E as <-. by eapply (best_rescan b G1 G2 s a).
      * apply Hkeep. intros [E1 _]. apply eqb_false_iff in E. by destruct E.
  - exists b. split; [done|]. split; [|by auto using same_rest_refl]. intros sd'. apply Hkeep.
    intros [E1 E2]. split; [done|]. exists l. split; [done|].
    destruct (qr_levels _ _ _ _ _ (proj2 HG) sd (a_price a) Hp) as (l' & Hl' & Hr).
    fold i in Hl'. simplify_eq. rewrite (lr_count _ _ _ Hr) in *. lia.
Qed.

(** ** [unlink] *)

Lemma unlink_level_small l pv nx q :
  0 < order_count l < 2 ^ 32 → 0 ≤ total_quantity l - q < 2 ^ 64 →
  unlink_level l pv nx q =
  mkLevel (u64 (total_quantity l - q)) (u32 (order_count l - 1))
    (if negb (pv =? kNullOrder) then head l else nx)
    (if negb (nx =? kNullOrder) then tail l else pv).
Proof. intros. rewrite u32_small, u64_small by lia. done. Qed.

(** The straight-line run of [unlink], up to the test for an empty level. *)
Lemma unlink_run b s slot i l pv nx a :
  (lvls b (is_buy s))⟦i⟧ = Some l → links (pool_ b) slot = Some (pv, nx) →
  data (pool_ b) slot = Some a → pv ≠ slot → nx ≠ slot →
  (pv ≠ kNullOrder → is_Some ((pool_ b)⟦pv⟧)) → (nx ≠ kNullOrder → is_Some ((pool_ b)⟦nx⟧)) →
  0 < order_count l < 2 ^ 32 → 0 ≤ total_quantity l - a_qty a < 2 ^ 64 →
  let b' := rebuild b (set_lv (lvls b) (is_buy s) i (unlink_level l pv nx (a_qty a)))
    (unlink_pool (pool_ b) pv nx) in
  unlink b i s slot =
  if order_count l - 1 =? 0 then on_level_emptied b' s i else Ret b'.
Proof.
  intros Hl Hlinks Hdata Hpv Hnx Hpv' Hnx' Hc Ht b'. subst b'.
  rewrite (rebuild_eta b) at 1. unfold unlink.
  destruct (pool_get _ _ _ Hlinks) as (o & Ho & Hop & Hon). simpl in Hop, Hon.
  destruct (pool_data _ _ _ Hdata) as (o' & Ho' & _ & _ & _ & Hq). simplify_eq.
  simpl. rewrite (load_Some _ _ _ Ho). simpl. rewrite unlink_level_small by done.
  unfold unlink_pool.
  destruct (Z.eqb_spec (o_prev o) kNullOrder) as [Ep|Ep]; cbn [negb].
  - rewrite (upd_level_rebuild _ _ _ _ _ _ _ Hl). simpl. rewrite (load_Some _ _ _ Ho). simpl.
    destruct (Z.eqb_spec (o_next o) kNullOrder) as [En|En]; cbn [negb].
    + level_again. level_again. rewrite (load_Some _ _ _ Ho). simpl. level_again.
      rewrite levels_for_rebuild. erewrite load_Some by (by eapply set_lv_eq). simpl.
      rewrite Hq, u32_small by lia. done.
    + destruct (Hnx' En) as [on Hn]. rewrite (upd_order_rebuild _ _ _ _ _ _ Hn). simpl.
      level_again. erewrite load_Some by (by rewrite vget_vupd_ne). simpl. level_again.
      rewrite levels_for_rebuild. erewrite load_Some by (by eapply set_lv_eq). simpl.
      rewrite Hq, u32_small by lia. done.
  - destruct (Hpv' Ep) as [op Hp]. rewrite (upd_order_rebuild _ _ _ _ _ _ Hp). simpl.
    erewrite load_Some by (by rewrite vget_vupd_ne). simpl.
    destruct (Z.eqb_spec (o_next o) kNullOrder) as [En|En]; cbn [negb].
    + rewrite (upd_level_rebuild _ _ _ _ _ _ _ Hl). simpl. level_again.
      erewrite load_Some by (by rewrite vget_vupd_ne). simpl. level_again.
      rewrite levels_for_rebuild. erewrite load_Some by (by eapply set_lv_eq). simpl.
      rewrite Hq, u32_small by lia. done.
    + destruct (Hnx' En) as [on Hn].
      assert (is_Some ((vupd (pool_ b) (o_prev o) (set_next (o_next o)))⟦o_next o⟧)) as [on' Hn'].
      { rewrite vget_vupd, Hn. case_decide; by eexists. }
      rewrite (upd_order_rebuild _ _ _ _ _ _ Hn'). simpl.
      rewrite (upd_level_rebuild _ _ _ _ _ _ _ Hl). simpl.
      erewrite load_Some by (by rewrite !vget_vupd_ne). simpl. level_again.
      rewrite levels_for_rebuild. erewrite load_Some by (by eapply set_lv_eq). simpl.
      rewrite Hq, u32_small by lia. done.
Qed.

Lemma unlink_spec b G1 s a G2 :
  book_queues b (G1 ++ (s, a) :: G2) → book_best b (G1 ++ (s, a) :: G2).*2 →
  ∃ b', unlink b (a_price a - min_price_ b) (a_side a) s = Ret b' ∧
    book_queues b' (G1 ++ G2) ∧ book_best b' (G1 ++ G2).*2 ∧ same_rest b b' ∧
    (∀ x, x ∉ (G1 ++ (s, a) :: G2).*1 → links (pool_ b') x = links (pool_ b) x).
Proof.
  intros [Hband HG] Hbest.
  assert ((s, a) ∈ G1 ++ (s, a) :: G2) as Hin by set_solver.
  pose proof (qr_ok _ _ _ _ _ HG s a Hin) as Hok.
  pose proof (qr_data _ _ _ _ _ HG s a Hin) as Hdata.
  destruct (unlink_not_self HG) as [Hpv Hnx].
  destruct (queues_unlink HG) as (l & Hl & Hlinks & Hrep & HG').
  set (pv := last_or _ _) in *. set (nx := hd_or _ _) in *.
  pose proof (equeue_bounds HG (is_buy (a_side a)) (a_price a)) as Hbnd.
  pose proof (equeue_bounds HG' (is_buy (a_side a)) (a_price a)) as Hbnd'.
  rewrite equeue_app, fmap_app, sum_qty_app, length_app in Hbnd'.
  pose proof (lr_count _ _ _ Hrep) as Hc. pose proof (lr_total _ _ _ Hrep) as Ht.
  rewrite unlink_queue in Hbnd, Hc, Ht.
  rewrite length_app in Hbnd, Hc. rewrite fmap_app, sum_qty_app, fmap_cons, sum_qty_cons in Hbnd, Ht.
  simpl in Hbnd, Hc, Ht.
  assert (∀ x, x ≠ kNullOrder → x = pv ∨ x = nx → x ∈ (G1 ++ G2).*1) as Hnb.
  { intros x Hx Hxx. apply (unlink_neighbours (a := a)) in Hxx; [|done].
    rewrite <- equeue_app in Hxx. by eapply equeue_fst_sub. }
  assert (∀ x, x ≠ kNullOrder → x = pv ∨ x = nx → is_Some ((pool_ b)⟦x⟧)) as Hsome.
  { intros x Hx Hxx. pose proof (Hnb x Hx Hxx) as Hi.
    apply list_elem_of_fmap in Hi as ([y c] & -> & Hi).
    apply (qr_data _ _ _ _ _ HG') in Hi. rewrite unlink_pool_data in Hi.
    destruct (pool_data _ _ _ Hi) as (? & ? & _). eauto. }
  set (b1 := rebuild b (set_lv (lvls b) (is_buy (a_side a)) (a_price a - min_price_ b)
    (unlink_level l pv nx (a_qty a))) (unlink_pool (pool_ b) pv nx)).
  assert (book_queues b1 (G1 ++ G2)) as HG1.
  { split; [done|]. eapply queues_rep_ext; [|exact HG']. intros sd. unfold b1. by rewrite lvls_rebuild. }
  destruct (best_after_unlink b1 G1 G2 s a (unlink_level l pv nx (a_qty a))) as
    (b' & Hrun & Hbest' & HGb' & Hsame & Hpool); [done|intros []; [exact (Hbest true)|exact (Hbest false)]|done| |].
  { unfold b1. rewrite lvls_rebuild. by eapply set_lv_eq. }
  exists b'. split; [|split; [done|split; [done|split]]].
  - rewrite <- Hrun. eapply unlink_run; eauto; lia.
  - eapply same_rest_trans; [|done].
    split; try done; simpl; [apply unlink_pool_len|intros; apply unlink_pool_data].
  - intros x Hx. rewrite Hpool. apply unlink_pool_links_ne; intros Hne ->; apply Hx;
      (assert ((G1 ++ G2).*1 ⊆ (G1 ++ (s, a) :: G2).*1) as Hs
        by (rewrite !fmap_app, fmap_cons; set_solver)); apply Hs, Hnb; auto.
Qed.
