(* ===== verification/OrderBookRep.v ===== *)
(** * The representation of a book

    Pool partition, free list, id index, queues and best levels as one
    representation relation [rep], and its preservation by the private steps
    of the public operations. *)

From S2P Require Import Prelude Message OrderIndex BookSpec OrderBook BookQueues OrderBookInv.
Import Book.

#[local] Open Scope Z_scope.
#[local] Open Scope llte_scope.

Fixpoint free_chain (pool : list Order) (h : Z) (fl : list Z) : Prop :=
  match fl with
  | [] => h = kNullOrder
  | s :: fl => h = s ∧ ∃ l, links pool s = Some l ∧ free_chain pool l.2 fl
  end.

Definition idmap (G : list entry) : gmap Z Z := list_to_map ((λ e, (a_id e.2, e.1)) <$> G).

(** Limits that the constructor's types and sentinels allow. *)
Definition limits_ok (L : limits) : Prop :=
  band_ok (l_min L) (l_max L) ∧ 0 < l_orders L ≤ kNullOrder.

Record index_ok (L : limits) (b : t) (G : list entry) (lg : Z) : Prop := {
  io_lg : 0 ≤ lg < 64;
  io_mask : index_mask_ b = tsize lg - 1;
  io_load : 2 * l_orders L ≤ tsize lg;
  io_rep : index_rep lg (index_ b) (idmap G)
}.

Record rep (L : limits) (b : t) (G : list entry) (fl : list Z) : Prop := {
  rp_min : min_price_ b = l_min L;
  rp_max : max_price_ b = l_max L;
  rp_queues : book_queues b G;
  rp_best : book_best b G.*2;
  rp_slots : G.*1 ++ fl ≡ₚ seqZ 0 (l_orders L);
  rp_len : vlen (pool_ b) = l_orders L;
  rp_free : free_chain (pool_ b) (free_head_ b) fl;
  rp_ids : NoDup (a_id <$> G.*2);
  rp_id a : a ∈ G.*2 → a_id a ≠ kEmptyKey;
  rp_index : ∃ lg, index_ok L b G lg;
  rp_live : live_orders_ b = Z.of_nat (length G)
}.

(** [b] is a book with the resting orders [B]. *)
Definition refines (L : limits) (b : t) (B : list aorder) : Prop :=
  ∃ G fl, rep L b G fl ∧ G.*2 = B.

(** ** Lists of orders *)

Lemma a_find_split id B1 a B2 :
  NoDup (a_id <$> B1 ++ a :: B2) → a_id a = id → a_find id (B1 ++ a :: B2) = Some a.
Proof.
  intros Hnd Hid. unfold a_find.
  destruct (list_find (λ o, a_id o = id) (B1 ++ a :: B2)) as [[i o]|] eqn:E; simpl.
  - apply list_find_Some in E as (Hi & Ho & _). f_equal.
    assert ((B1 ++ a :: B2) !! length B1 = Some a) as Ha.
    { rewrite lookup_app_r, Nat.sub_diag by lia. done. }
    assert (i = length B1) as ->.
    { apply (NoDup_lookup _ i (length B1) id Hnd); rewrite list_lookup_fmap.
      - rewrite Hi. simpl. by rewrite Ho.
      - rewrite Ha. simpl. by rewrite Hid. }
    congruence.
  - apply list_find_None in E. rewrite Forall_forall in E. exfalso. apply (E a); set_solver.
Qed.

Lemma a_find_None id B : (∀ a, a ∈ B → a_id a ≠ id) → a_find id B = None.
Proof.
  intros H. unfold a_find. assert (list_find (λ o, a_id o = id) B = None) as ->; [|done].
  apply list_find_None, Forall_forall. done.
Qed.

Lemma ids_split B1 a B2 :
  NoDup (a_id <$> B1 ++ a :: B2) →
  (∀ o, o ∈ B1 → a_id o ≠ a_id a) ∧ (∀ o, o ∈ B2 → a_id o ≠ a_id a).
Proof.
  rewrite fmap_app, fmap_cons. intros (_ & Hd & [Hn _]%NoDup_cons)%NoDup_app. split.
  - intros o Ho E. apply (Hd (a_id o)); [by apply list_elem_of_fmap_2|rewrite E; set_solver].
  - intros o Ho E. apply Hn. rewrite <- E. by apply list_elem_of_fmap_2.
Qed.

Lemma a_remove_split B1 a B2 :
  NoDup (a_id <$> B1 ++ a :: B2) → a_remove (a_id a) (B1 ++ a :: B2) = B1 ++ B2.
Proof.
  intros [H1 H2]%ids_split. unfold a_remove. rewrite filter_app, filter_cons_False by auto.
  f_equal; by apply filter_keep.
Qed.

Lemma a_resize_split B1 a B2 v :
  NoDup (a_id <$> B1 ++ a :: B2) →
  a_resize (a_id a) v (B1 ++ a :: B2) = B1 ++ resized a v :: B2.
Proof.
  intros [H1 H2]%ids_split. unfold a_resize. rewrite fmap_app, fmap_cons.
  rewrite decide_True by done.
  f_equal; [|f_equal]; apply fmap_keep; intros o Ho; rewrite decide_False; auto.
Qed.

(** ** The id map *)

Lemma idmap_keys (G : list entry) : ((λ e, (a_id e.2, e.1)) <$> G).*1 = a_id <$> G.*2.
Proof. by rewrite <- !list_fmap_compose. Qed.

Lemma idmap_lookup G id s :
  NoDup (a_id <$> G.*2) → idmap G !! id = Some s ↔ ∃ a, (s, a) ∈ G ∧ a_id a = id.
Proof.
  intros Hnd. unfold idmap. rewrite <- elem_of_list_to_map.
  - rewrite list_elem_of_fmap. split.
    + intros ([s' a] & [= -> ->] & Hin). eauto.
    + intros (a & Hin & <-). by exists (s, a).
  - by rewrite idmap_keys.
Qed.

Lemma idmap_size G : NoDup (a_id <$> G.*2) → size (idmap G) = length G.
Proof.
  intros Hnd. unfold idmap. rewrite map_size_list_to_map, length_fmap; [done|].
  by rewrite idmap_keys.
Qed.

Lemma idmap_perm G G' :
  NoDup (a_id <$> G.*2) → G ≡ₚ G' → idmap G = idmap G'.
Proof.
  intros Hnd HP. unfold idmap. apply list_to_map_proper; [|by rewrite HP].
  by rewrite idmap_keys.
Qed.

Lemma idmap_cons s a G : idmap ((s, a) :: G) = <[a_id a := s]> (idmap G).
Proof. done. Qed.

Lemma idmap_delete G1 s a G2 :
  NoDup (a_id <$> (G1 ++ (s, a) :: G2).*2) →
  idmap (G1 ++ G2) = delete (a_id a) (idmap (G1 ++ (s, a) :: G2)).
Proof.
  intros Hnd. rewrite (idmap_perm (G1 ++ (s, a) :: G2) ((s, a) :: G1 ++ G2)) by
    first [done|symmetry; apply Permutation_middle].
  rewrite idmap_cons, delete_insert_id; [done|].
  destruct (idmap (G1 ++ G2) !! a_id a) as [s'|] eqn:E; [exfalso|done].
  rewrite fmap_app, fmap_cons in Hnd. pose proof (ids_split _ _ _ Hnd) as [H1 H2].
  apply idmap_lookup in E as (a' & Hin & Heq).
  - apply elem_of_app in Hin as [Hin|Hin]; apply (list_elem_of_fmap_2 snd) in Hin.
    + by apply (H1 a').
    + by apply (H2 a').
  - rewrite fmap_app. eapply sublist_NoDup; [done|]. apply fmap_sublist, sublist_app; [done|].
    by apply sublist_cons.
Qed.

(** ** The free list *)

Lemma free_chain_frame pool pool' h fl :
  (∀ x, x ∈ fl → links pool' x = links pool x) → free_chain pool h fl → free_chain pool' h fl.
Proof.
  revert h. induction fl as [|s fl IH]; intros h Hf; simpl; [done|].
  intros (-> & l & Hl & Hc). split; [done|]. exists l.
  split; [rewrite Hf; set_solver|]. apply IH; set_solver.
Qed.

Section rep.
Context {L : limits} {b : t} {G : list entry} {fl : list Z} (HR : rep L b G fl).

Lemma rep_nodup : NoDup (G.*1 ++ fl).
Proof using HR. rewrite (rp_slots _ _ _ _ HR). apply NoDup_seqZ. Qed.

Lemma rep_disjoint x : x ∈ G.*1 → x ∉ fl.
Proof using HR. pose proof rep_nodup as H. apply NoDup_app in H as (_ & H & _). apply H. Qed.

Lemma rep_slot_range x : x ∈ G.*1 ++ fl → 0 ≤ x < l_orders L.
Proof using HR. rewrite (rp_slots _ _ _ _ HR). apply seqZ_vec_elem. Qed.

Lemma rep_orders_bound : l_orders L ≤ kNullOrder.
Proof using HR. rewrite <- (rp_len _ _ _ _ HR). apply (rp_queues _ _ _ _ HR). Qed.

Lemma rep_length : Z.of_nat (length G) + Z.of_nat (length fl) = l_orders L.
Proof using HR.
  pose proof (Permutation_length (rp_slots _ _ _ _ HR)) as H.
  rewrite length_app, length_fmap, length_seqZ in H.
  assert (0 ≤ l_orders L) by (rewrite <- (rp_len _ _ _ _ HR); apply vlen_nonneg). lia.
Qed.

Lemma rep_load lg : index_ok L b G lg → Z.of_nat (size (idmap G)) < tsize lg.
Proof using HR.
  intros [Hlg _ Hl _]. rewrite idmap_size by apply HR. pose proof rep_length.
  pose proof (tsize_bounds lg Hlg). lia.
Qed.

Lemma in_band_spec p : in_band b p = a_in_band L p.
Proof using HR. unfold in_band, a_in_band. by rewrite (rp_min _ _ _ _ HR), (rp_max _ _ _ _ HR). Qed.

Lemma in_band_true p : a_in_band L p = true ↔ min_price_ b ≤ p ≤ max_price_ b.
Proof using HR.
  unfold a_in_band. rewrite (rp_min _ _ _ _ HR), (rp_max _ _ _ _ HR).
  rewrite andb_true_iff, !Z.leb_le. done.
Qed.

Lemma level_index_ok p :
  min_price_ b ≤ p ≤ max_price_ b → level_index b p = Ret (p - min_price_ b).
Proof using HR.
  intros Hp. destruct (rp_queues _ _ _ _ HR) as [(H1 & H2 & H3 & H4) _].
  unfold int64_min, int64_max in *. unfold level_index. rewrite i64_ok by lia. simpl.
  by rewrite u64_small by lia.
Qed.

(** Looking an id up in the index, in terms of the resting orders. *)
Lemma find_spec id :
  ∃ r, find_index (index_ b) (index_mask_ b) id = Ret r ∧
    ((r = kNoLevel ∧ ∀ a, a ∈ G.*2 → a_id a ≠ id) ∨
     (r ≠ kNoLevel ∧ ∃ G1 s a G2, G = G1 ++ (s, a) :: G2 ∧ a_id a = id ∧
        (index_ b)⟦r⟧ = Some (mkIndexSlot id s))).
Proof using HR.
  destruct (rp_index _ _ _ _ HR) as [lg Hix]. pose proof (rep_load lg Hix) as Hload.
  destruct Hix as [Hlg Hmask _ Hrep]. rewrite Hmask.
  destruct (find_index_spec lg Hlg _ _ Hrep Hload id) as (r & -> & Hr).
  exists r. split; [done|]. unfold find_result in Hr.
  destruct (idmap G !! id) as [s|] eqn:E.
  - right. apply idmap_lookup in E as (a & Hin & Hid); [|apply HR].
    apply list_elem_of_split in Hin as (G1 & G2 & ->). split; [|by eauto 8].
    apply vget_Some_range in Hr. rewrite (pi_len _ _ _ _ Hrep) in Hr.
    pose proof (tsize_bounds lg Hlg). unfold kNoLevel. lia.
  - left. split; [done|]. intros a Ha Hid.
    apply list_elem_of_fmap in Ha as ([s a'] & -> & Hin). simpl in Hid.
    assert (idmap G !! id = Some s) by (apply idmap_lookup; [apply HR|eauto]). congruence.
Qed.
End rep.

(** The entry found by [find_spec], read back from the pool. *)
Lemma found_order L b G1 s a G2 fl :
  rep L b (G1 ++ (s, a) :: G2) fl →
  min_price_ b ≤ a_price a ≤ max_price_ b ∧
  ∃ o, (pool_ b)⟦s⟧ = Some o ∧ o_id o = a_id a ∧ o_side o = a_side a ∧
       o_price o = a_price a ∧ o_quantity o = a_qty a.
Proof.
  intros HR. destruct (rp_queues _ _ _ _ HR) as [_ HG].
  assert ((s, a) ∈ G1 ++ (s, a) :: G2) as Hin by set_solver.
  split; [apply (qr_ok _ _ _ _ _ HG _ _ Hin)|]. apply pool_data, (qr_data _ _ _ _ _ HG _ _ Hin).
Qed.

Lemma note_level_filled_spec b B a :
  book_best b B → band_ok (min_price_ b) (max_price_ b) →
  min_price_ b ≤ a_price a ≤ max_price_ b →
  ∃ v, note_level_filled b (a_side a) (a_price a - min_price_ b) = set_best (is_buy (a_side a)) v b ∧
    book_best (set_best (is_buy (a_side a)) v b) (B ++ [a]).
Proof.
  intros Hbest (_ & _ & _ & Hspan) Ha. unfold int64_max in Hspan.
  set (sd := is_buy (a_side a)). set (i := a_price a - min_price_ b).
  exists (if (bests b sd =? kNoLevel) || (if sd then bests b sd <? i else i <? bests b sd)
          then i else bests b sd). split.
  - unfold note_level_filled, bests, set_best, sd. destruct b.
    destruct (is_buy (a_side a)); simpl; by repeat case_match.
  - intros sd'. rewrite bests_set_best.
    replace (min_price_ (set_best sd _ b)) with (min_price_ b) by (by destruct sd).
    destruct (eqb sd sd') eqn:E.
    + apply eqb_prop in E as <-. right. specialize (Hbest sd). fold i.
      assert (∀ o, o ∈ B ++ [a] → o ∈ B ∨ o = a) as Hin by set_solver.
      assert (at_level sd (min_price_ b + i) a) as Hal by (split; [done|unfold i; lia]).
      destruct (Z.eqb_spec (bests b sd) kNoLevel) as [En|En]; simpl.
      * split; [unfold kNoLevel, i; lia|]. split; [exists a; set_solver|].
        intros o [Ho| ->]%Hin Hsd; [|destruct sd; unfold i; lia].
        destruct Hbest as [[_ Hno]|[Hb _]]; [by apply Hno in Ho|done].
      * destruct Hbest as [[Hb _]|[_ [(o1 & Ho1 & Hl1) Hmax]]]; [done|].
        destruct sd.
        -- destruct (Z.ltb_spec (bests b true) i) as [Hlt|Hlt].
           ++ split; [unfold kNoLevel, i; lia|]. split; [exists a; set_solver|].
              intros o [Ho| ->]%Hin Hsd; [specialize (Hmax o Ho Hsd)|]; unfold i in *; simpl in *; lia.
           ++ split; [done|]. split; [exists o1; set_solver|].
              intros o [Ho| ->]%Hin Hsd; [by apply Hmax|unfold i in *; lia].
        -- destruct (Z.ltb_spec i (bests b false)) as [Hlt|Hlt].
           ++ split; [unfold kNoLevel, i; lia|]. split; [exists a; set_solver|].
              intros o [Ho| ->]%Hin Hsd; [specialize (Hmax o Ho Hsd)|]; unfold i in *; simpl in *; lia.
           ++ split; [done|]. split; [exists o1; set_solver|].
              intros o [Ho| ->]%Hin Hsd; [by apply Hmax|unfold i in *; lia].
    + destruct (Hbest sd') as [[E1 Hno]|[E1 [(o1 & Ho1 & Hl1) Hmax]]]; [left|right];
        (split; [done|]).
      * intros o Ho. apply elem_of_app in Ho as [Ho|Ho%list_elem_of_singleton]; [by apply Hno|].
        subst o. by apply eqb_false_iff in E.
      * split; [exists o1; set_solver|]. intros o Ho Hsd.
        apply elem_of_app in Ho as [Ho|Ho%list_elem_of_singleton]; [by apply Hmax|].
        subst o. by apply eqb_false_iff in E.
Qed.
