(* ===== verification/OrderBookCorrect.v ===== *)
(** * The order book refines its abstract specification

    Each public operation of [OrderBook], on a represented book, runs without
    fault, returns the result of the specification and re-establishes the
    representation. *)

From S2P Require Import Prelude Message OrderIndex BookSpec OrderBook BookQueues.
From S2P Require Import OrderBookInv OrderBookRep.
Import Book.

#[local] Open Scope Z_scope.
#[local] Open Scope llte_scope.

(** ** Writing into a slot that is in no queue *)

Lemma queues_frame mn mx pool pool' lv G :
  queues_rep mn mx pool lv G → vlen pool' = vlen pool →
  (∀ x, x ∈ G.*1 → links pool' x = links pool x ∧ data pool' x = data pool x) →
  queues_rep mn mx pool' lv G.
Proof.
  intros HG Hlen Hf. split.
  - intros s a Hin. destruct (Hf s) as [_ ->]; [|by apply HG].
    apply list_elem_of_fmap. by exists (s, a).
  - apply HG.
  - rewrite Hlen. apply HG.
  - apply HG.
  - intros sd p Hp. destruct (qr_levels _ _ _ _ _ HG sd p Hp) as (l & Hl & Hr).
    exists l. split; [done|]. eapply level_rep_frame; [|done].
    intros s Hs. apply Hf. by eapply equeue_fst_sub.
  - apply HG.
Qed.

(** ** Removal: [cancel] and a complete fill *)

Lemma release_slot_run b slot o :
  (pool_ b)⟦slot⟧ = Some o →
  release_slot b slot =
  Ret (set_free_head slot (set_pool (vupd (pool_ b) slot (set_next (free_head_ b))) b)).
Proof.
  intros Ho. unfold release_slot, upd_order. rewrite (load_Some _ _ _ Ho). simpl.
  rewrite assign_ok by (by eapply vget_Some_range). simpl. by rewrite (vupd_Some _ _ _ _ Ho).
Qed.

Lemma removed_slot L b G1 s a G2 fl :
  rep L b (G1 ++ (s, a) :: G2) fl → (s ∉ (G1 ++ G2).*1) ∧ s ∉ fl.
Proof.
  intros HR. pose proof (rep_nodup HR) as Hnd. rewrite fmap_app, fmap_cons in Hnd. rewrite fmap_app. simpl in Hnd.
  rewrite <- app_assoc in Hnd. apply NoDup_app in Hnd as (_ & Hd & Hnd).
  rewrite <- app_comm_cons, NoDup_cons in Hnd. set_solver.
Qed.

Lemma remove_order_spec L b G1 s a G2 fl pos :
  rep L b (G1 ++ (s, a) :: G2) fl → (index_ b)⟦pos⟧ = Some (mkIndexSlot (a_id a) s) →
  ∃ b', remove_order b pos (a_price a - min_price_ b) (a_side a) s = Ret b' ∧
    rep L b' (G1 ++ G2) (s :: fl).
Proof.
  intros HR Hpos. destruct (unlink_spec _ _ _ _ _ (rp_queues _ _ _ _ HR) (rp_best _ _ _ _ HR))
    as (b1 & Hrun & HG1 & Hb1 & Hsame & Hlinks).
  unfold remove_order. rewrite Hrun. simpl.
  destruct (rp_index _ _ _ _ HR) as [lg Hix]. pose proof (rep_load HR lg Hix) as Hload.
  destruct Hix as [Hlg Hmask Hfit Hrep].
  assert (a_id a ≠ kEmptyKey) as Hid by (apply (rp_id _ _ _ _ HR); rewrite fmap_app; set_solver).
  rewrite (sr_index _ _ Hsame), (sr_mask _ _ Hsame), Hmask.
  destruct (index_erase_spec lg Hlg _ _ pos _ s Hrep Hload Hid Hpos) as (T & -> & HT). simpl.
  destruct (removed_slot _ _ _ _ _ _ _ HR) as [HsG Hsfl].
  destruct (found_order _ _ _ _ _ _ _ HR) as (_ & o & Ho & _).
  assert (is_Some ((pool_ b1)⟦s⟧)) as [o1 Ho1].
  { apply vget_is_Some. rewrite (sr_len _ _ Hsame). by eapply vget_Some_range. }
  rewrite (release_slot_run (set_index T b1) s o1) by done. simpl.
  rewrite (sr_free _ _ Hsame), (sr_live _ _ Hsame), (rp_live _ _ _ _ HR).
  eexists. split; [done|]. split.
  - apply (eq_trans (sr_min _ _ Hsame)), HR.
  - apply (eq_trans (sr_max _ _ Hsame)), HR.
  - destruct HG1 as [Hband HG1]. split; [done|]. eapply queues_frame; [exact HG1| |].
    + simpl. apply vlen_vupd.
    + intros x Hx. simpl. autorewrite with book. split; [|done]. rewrite decide_False; [done|].
      by intros ->.
  - exact Hb1.
  - rewrite <- (rp_slots _ _ _ _ HR), !fmap_app, fmap_cons. simpl.
    rewrite <- !app_assoc. apply Permutation_app_head. symmetry. apply Permutation_middle.
  - simpl. rewrite vlen_vupd, (sr_len _ _ Hsame). apply HR.
  - simpl. split; [done|]. autorewrite with book. rewrite decide_True by done.
    unfold links at 1. rewrite Ho1. simpl. eexists. split; [done|]. simpl.
    eapply free_chain_frame; [|apply HR]. intros x Hx. autorewrite with book.
    rewrite decide_False by (by intros ->). apply Hlinks. intros Hin.
    by apply (rep_disjoint HR) in Hin.
  - pose proof (rp_ids _ _ _ _ HR) as Hnd. eapply sublist_NoDup; [exact Hnd|].
    do 2 apply fmap_sublist. apply sublist_app; [done|]. by apply sublist_cons.
  - intros a' Ha'. apply (rp_id _ _ _ _ HR). rewrite fmap_app, ?fmap_cons in *. set_solver.
  - exists lg. split; try done; simpl.
    + by rewrite (sr_mask _ _ Hsame).
    + by rewrite (idmap_delete _ s a) by apply HR.
  - simpl. rewrite length_app, length_cons, length_app.
    pose proof (rep_length HR) as Hl. rewrite length_app, length_cons in Hl.
    pose proof (rep_orders_bound HR). unfold kNullOrder in *. rewrite u64_small; lia.
Qed.

Lemma cancel_refines L b B id :
  refines L b B →
  ∃ b', cancel b id = Ret (b', (spec_cancel id B).2) ∧ refines L b' (spec_cancel id B).1.
Proof.
  intros (G & fl & HR & <-). unfold cancel, spec_cancel.
  destruct (find_spec HR id) as (r & -> & [[-> Hno]|(Hr & G1 & s & a & G2 & -> & <- & Hix)]); simpl.
  { rewrite a_find_None by done. exists b. split; [done|]. by exists G, fl. }
  destruct (Z.eqb_spec r kNoLevel); [done|]. rewrite (load_Some _ _ _ Hix). simpl.
  destruct (found_order _ _ _ _ _ _ _ HR) as (Hband & o & Ho & _ & Hs & Hp & _).
  rewrite (load_Some _ _ _ Ho). simpl. rewrite Hp, Hs, (level_index_ok HR) by done. simpl.
  destruct (remove_order_spec _ _ _ _ _ _ _ _ HR Hix) as (b' & -> & HR').
  pose proof (rp_ids _ _ _ _ HR) as Hnd. rewrite fmap_app, fmap_cons in Hnd |- *.
  rewrite a_find_split, a_remove_split by done. exists b'. split; [done|].
  exists (G1 ++ G2), (s :: fl). split; [done|]. by rewrite fmap_app.
Qed.

(** ** Linking at the back of a queue *)

Lemma link_note_spec b G s a :
  book_queues b G → book_best b G.*2 → s ∉ G.*1 → data (pool_ b) s = Some a →
  order_ok (min_price_ b) (max_price_ b) a →
  ∃ b1 b', link_back b (a_price a - min_price_ b) (a_side a) s = Ret b1 ∧
    note_level_filled b1 (a_side a) (a_price a - min_price_ b) = b' ∧
    book_queues b' (G ++ [(s, a)]) ∧ book_best b' (G ++ [(s, a)]).*2 ∧ same_rest b b' ∧
    (∀ x, x ∉ G.*1 → x ≠ s → links (pool_ b') x = links (pool_ b) x).
Proof.
  intros HG Hbest Hs Hdata Hok.
  destruct (link_back_spec _ _ _ _ HG Hs Hdata Hok) as (b1 & Hrun & HG1 & Hsame & Hb1 & Hlinks).
  assert (book_best b1 G.*2) as Hbest1.
  { intros sd. rewrite Hb1, (sr_min _ _ Hsame). apply Hbest. }
  destruct (note_level_filled_spec b1 G.*2 a Hbest1) as (v & Hv & Hb').
  { apply HG1. }
  { rewrite (sr_min _ _ Hsame), (sr_max _ _ Hsame). apply Hok. }
  exists b1. eexists. split; [done|]. split; [done|].
  rewrite <- (sr_min _ _ Hsame), Hv.
  split; [by apply book_queues_set_best|]. split; [by rewrite fmap_app|].
  split; [by eapply same_rest_trans, same_rest_set_best|].
  intros x Hx Hxs. rewrite <- Hlinks by done. by destruct (is_buy (a_side a)).
Qed.

Lemma data_write pool s f o x :
  pool⟦s⟧ = Some o →
  data (vupd pool s f) x = if decide (s = x)
    then Some (mkAOrder (o_id (f o)) (o_side (f o)) (o_price (f o)) (o_quantity (f o)))
    else data pool x.
Proof.
  intros Ho. unfold data. rewrite vget_vupd. case_decide; [|done]. subst. by rewrite Ho.
Qed.

Lemma links_write pool s f x : s ≠ x → links (vupd pool s f) x = links pool x.
Proof. intros. unfold links. by rewrite vget_vupd_ne. Qed.

(** Writing the fields of an order that is in no queue. *)
Lemma queues_write b G s f o :
  book_queues b G → s ∉ G.*1 → (pool_ b)⟦s⟧ = Some o →
  book_queues (set_pool (vupd (pool_ b) s f) b) G.
Proof.
  intros [Hband HG] Hs Ho. split; [done|]. eapply queues_frame; [exact HG|apply vlen_vupd|].
  intros x Hx. assert (s ≠ x) by (by intros ->). simpl.
  by rewrite links_write, (data_write _ _ _ _ _ Ho), decide_False.
Qed.

(** ** [add] *)

Lemma idmap_snoc G s a :
  NoDup (a_id <$> G.*2) → (∀ o, o ∈ G.*2 → a_id o ≠ a_id a) →
  NoDup (a_id <$> (G ++ [(s, a)]).*2) ∧ idmap (G ++ [(s, a)]) = <[a_id a := s]> (idmap G) ∧
  idmap G !! a_id a = None.
Proof.
  intros Hnd Hfresh.
  assert (NoDup (a_id <$> (G ++ [(s, a)]).*2)) as Hnd'.
  { rewrite !fmap_app. apply NoDup_app. split; [done|]. split; [|apply NoDup_singleton].
    intros id (o & -> & Ho)%list_elem_of_fmap. simpl. rewrite list_elem_of_singleton. auto. }
  split; [done|]. split.
  - rewrite (idmap_perm (G ++ [(s, a)]) ((s, a) :: G)); [done|done|].
    symmetry. apply Permutation_cons_append.
  - destruct (idmap G !! a_id a) as [s'|] eqn:E; [exfalso|done].
    apply idmap_lookup in E as (o & Hin & Heq); [|done].
    apply (Hfresh o); [|done]. apply list_elem_of_fmap. by exists (s', o).
Qed.

Lemma acquire_slot_run L b G s fl :
  rep L b G (s :: fl) →
  ∃ o, (pool_ b)⟦s⟧ = Some o ∧ s ≠ kNullOrder ∧
    acquire_slot b = Ret (set_free_head (o_next o) b, s) ∧
    free_chain (pool_ b) (o_next o) fl.
Proof.
  intros HR. destruct (rp_free _ _ _ _ HR) as (Hh & l & Hl & Hc).
  destruct (pool_get _ _ _ Hl) as (o & Ho & _ & Hn).
  assert (0 ≤ s < l_orders L) by (apply (rep_slot_range HR); set_solver).
  pose proof (rep_orders_bound HR). exists o. split; [done|]. split; [lia|].
  split; [|by rewrite Hn]. unfold acquire_slot. rewrite Hh.
  destruct (Z.eqb_spec s kNullOrder); [lia|]. by rewrite (load_Some _ _ _ Ho).
Qed.

Lemma place_order_spec L b G x fl id s p q o :
  rep L b G (x :: fl) → (pool_ b)⟦x⟧ = Some o → free_chain (pool_ b) (o_next o) fl →
  id ≠ kEmptyKey → (∀ a, a ∈ G.*2 → a_id a ≠ id) → min_price_ b ≤ p ≤ max_price_ b →
  0 < q < 2 ^ 32 →
  ∃ b', place_order (set_free_head (o_next o) b) x id s p q = Ret b' ∧
    rep L b' (G ++ [(x, mkAOrder id s p q)]) fl.
Proof.
  intros HR Ho Hfree Hid Hno Hband Hq. unfold place_order, upd_order. simpl.
  rewrite (load_Some _ _ _ Ho). simpl. rewrite assign_ok by (by eapply vget_Some_range). simpl.
  set (f := λ o, mkOrder id p q (o_next o) (o_prev o) s).
  change (mkOrder id p q (o_next o) (o_prev o) s) with (f o).
  rewrite <- (vupd_Some _ _ f _ Ho). set (a := mkAOrder id s p q).
  assert (x ∉ G.*1) as HxG by (intros Hin%(rep_disjoint HR); set_solver).
  destruct (link_note_spec (set_pool (vupd (pool_ b) x f) (set_free_head (o_next o) b)) G x a)
    as (b1 & b2 & Hlink & Hnote & HG2 & Hb2 & Hs2 & Hl2); [|apply HR|done|..].
  { eapply (queues_write (set_free_head (o_next o) b)); [apply HR|done|done]. }
  { simpl. rewrite (data_write _ _ _ _ _ Ho), decide_True by done. done. }
  { done. }
  unfold level_index. simpl. destruct (rp_queues _ _ _ _ HR) as [(_ & _ & _ & Hsp) _].
  unfold int64_max in Hsp. rewrite i64_ok by lia. simpl. rewrite u64_small by lia.
  simpl in Hlink, Hnote. rewrite Hlink. simpl. rewrite Hnote.
  destruct (rp_index _ _ _ _ HR) as [lg Hix]. pose proof (rep_load HR lg Hix) as Hload.
  destruct Hix as [Hlg Hmask Hfit Hrep].
  destruct (idmap_snoc G x a (rp_ids _ _ _ _ HR) Hno) as (Hnd & Hmap & Hnone).
  rewrite (sr_index _ _ Hs2), (sr_mask _ _ Hs2). simpl. rewrite Hmask.
  destruct (index_insert_spec lg Hlg _ _ Hrep Hload id x Hid Hnone) as (T & -> & HT). simpl.
  eexists. split; [done|]. split.
  - apply (eq_trans (sr_min _ _ Hs2)), HR.
  - apply (eq_trans (sr_max _ _ Hs2)), HR.
  - exact HG2.
  - exact Hb2.
  - rewrite <- (rp_slots _ _ _ _ HR), fmap_app. simpl. by rewrite <- app_assoc.
  - simpl. rewrite (sr_len _ _ Hs2). simpl. rewrite vlen_vupd. apply HR.
  - simpl. rewrite (sr_free _ _ Hs2). simpl. eapply free_chain_frame; [|exact Hfree].
    pose proof (rep_nodup HR) as Hnd'. apply NoDup_app in Hnd' as (_ & Hd & [Hxfl _]%NoDup_cons).
    intros y Hy. assert (x ≠ y) by (by intros ->). rewrite Hl2; [|set_solver|done].
    by apply links_write.
  - done.
  - intros a' Ha'. rewrite fmap_app in Ha'.
    apply elem_of_app in Ha' as [Ha'|Ha'%list_elem_of_singleton]; [by apply (rp_id _ _ _ _ HR)|by subst].
  - exists lg. split; try done; simpl; [by rewrite (sr_mask _ _ Hs2)|by rewrite Hmap].
  - simpl. rewrite (sr_live _ _ Hs2). simpl. rewrite (rp_live _ _ _ _ HR), length_app. simpl.
    pose proof (rep_length HR). pose proof (rep_orders_bound HR). unfold kNullOrder in *.
    rewrite u64_small; simpl in *; lia.
Qed.

Lemma add_refines L b B id s p q :
  refines L b B → 0 ≤ q < 2 ^ 32 →
  ∃ b', add b id s p q = Ret (b', (spec_add L id s p q B).2) ∧
    refines L b' (spec_add L id s p q B).1.
Proof.
  intros (G & fl & HR & <-) Hq. unfold add, spec_add. rewrite (in_band_spec HR).
  assert (refines L b G.*2) as Hsame by (by exists G, fl).
  change kEmptyKey with 0. destruct (Z.eqb_spec id 0) as [|Hid]; [by eauto|].
  destruct (Z.eqb_spec q 0) as [|Hq0]; [by eauto|].
  destruct (a_in_band L p) eqn:Hband; simpl; [|by eauto].
  apply (in_band_true HR) in Hband.
  destruct (find_spec HR id) as (r & -> & [[-> Hno]|(Hr & G1 & x & a & G2 & -> & <- & Hix)]);
    returns.
  2:{ destruct (Z.eqb_spec r kNoLevel); [done|]. simpl. pose proof (rp_ids _ _ _ _ HR) as Hnd.
      rewrite fmap_app, fmap_cons in Hnd, Hsame |- *. rewrite a_find_split by done. eauto. }
  rewrite a_find_None, Z.eqb_refl, length_fmap by done. simpl.
  pose proof (rep_length HR) as Hlen.
  destruct fl as [|x fl], (Z.ltb_spec (Z.of_nat (length G)) (l_orders L)); simpl in Hlen; try lia.
  { unfold acquire_slot. rewrite (rp_free _ _ _ _ HR : free_head_ b = kNullOrder). simpl. eauto. }
  destruct (acquire_slot_run _ _ _ _ _ HR) as (o & Ho & Hnull & -> & Hfree). simpl.
  destruct (Z.eqb_spec x kNullOrder); [done|].
  destruct (place_order_spec L b G x fl id s p q o) as (b' & -> & HR'); [done..|lia|].
  simpl. eexists. split; [done|]. eexists _, _. split; [done|]. by rewrite fmap_app.
Qed.

(** ** [modify] *)

Lemma idmap_requeue G1 s a G2 a' :
  NoDup (a_id <$> (G1 ++ (s, a) :: G2).*2) → a_id a' = a_id a →
  NoDup (a_id <$> (G1 ++ G2 ++ [(s, a')]).*2) ∧
  idmap (G1 ++ G2 ++ [(s, a')]) = idmap (G1 ++ (s, a) :: G2).
Proof.
  intros Hnd Hid.
  assert (G1 ++ (s, a') :: G2 ≡ₚ G1 ++ G2 ++ [(s, a')]) as HP.
  { apply Permutation_app_head, Permutation_cons_append. }
  assert (NoDup (a_id <$> (G1 ++ (s, a') :: G2).*2)) as Hnd'.
  { rewrite !fmap_app, !fmap_cons in *. simpl in *. by rewrite Hid. }
  split; [by rewrite <- HP|]. rewrite <- (idmap_perm _ _ Hnd' HP).
  unfold idmap. f_equal. rewrite !fmap_app, !fmap_cons. simpl. by rewrite Hid.
Qed.

(** All but the queues, the best levels and the one order. *)
Record moved_rest (b b' : t) : Prop := {
  mr_min : min_price_ b' = min_price_ b;
  mr_max : max_price_ b' = max_price_ b;
  mr_index : index_ b' = index_ b;
  mr_mask : index_mask_ b' = index_mask_ b;
  mr_free : free_head_ b' = free_head_ b;
  mr_live : live_orders_ b' = live_orders_ b;
  mr_len : vlen (pool_ b') = vlen (pool_ b)
}.

(** Writing the new price and quantity into a slot that is in no queue. *)
Lemma moved_rest_write b b1 b4 s f :
  same_rest b b1 → same_rest (set_pool (vupd (pool_ b1) s f) b1) b4 → moved_rest b b4.
Proof.
  intros [H1 H2 H3 H4 H5 H6 H7 _] [K1 K2 K3 K4 K5 K6 K7 _]. simpl in *. rewrite vlen_vupd in K7.
  split; congruence.
Qed.

Lemma requeue_run L b G1 s a G2 fl p q :
  rep L b (G1 ++ (s, a) :: G2) fl → min_price_ b ≤ p ≤ max_price_ b → 0 < q < 2 ^ 32 →
  let G' := G1 ++ G2 ++ [(s, mkAOrder (a_id a) (a_side a) p q)] in
  ∃ b', requeue b (a_price a - min_price_ b) (a_side a) s p q = Ret b' ∧
    book_queues b' G' ∧ book_best b' G'.*2 ∧ moved_rest b b' ∧
    (∀ x, x ∉ (G1 ++ (s, a) :: G2).*1 → links (pool_ b') x = links (pool_ b) x).
Proof.
  intros HR Hp Hq G'. set (a' := mkAOrder (a_id a) (a_side a) p q) in *.
  destruct (unlink_spec _ _ _ _ _ (rp_queues _ _ _ _ HR) (rp_best _ _ _ _ HR))
    as (b1 & Hrun & HG1 & Hb1 & Hs1 & Hl1).
  unfold requeue. rewrite Hrun. simpl.
  assert (data (pool_ b1) s = Some a) as Hd1.
  { rewrite (sr_data _ _ Hs1). apply (rp_queues _ _ _ _ HR). set_solver. }
  destruct (pool_data _ _ _ Hd1) as (o & Ho & Hoid & Hos & _ & _).
  destruct (removed_slot _ _ _ _ _ _ _ HR) as [HsG _].
  rewrite (rebuild_eta b1), (upd_order_rebuild _ _ _ _ _ _ Ho). simpl.
  erewrite upd_order_rebuild by (by rewrite vget_vupd_eq, Ho). simpl. rewrite vupd_vupd.
  set (f := λ o, set_quantity q (set_price p o)).
  change (rebuild b1 (lvls b1) (vupd (pool_ b1) s f)) with (set_pool (vupd (pool_ b1) s f) b1).
  set (b2 := set_pool (vupd (pool_ b1) s f) b1).
  destruct (link_note_spec b2 (G1 ++ G2) s a') as (b3 & b4 & Hlink & Hnote & HG4 & Hb4 & Hs4 & Hl4).
  { by eapply queues_write. }
  { exact Hb1. }
  { done. }
  { simpl. rewrite (data_write _ _ _ _ _ Ho), decide_True by done. simpl. by rewrite Hoid, Hos. }
  { split; [|done]. simpl. by rewrite (sr_min _ _ Hs1), (sr_max _ _ Hs1). }
  assert (level_index b2 p = Ret (p - min_price_ b2)) as ->.
  { transitivity (level_index b p); [|rewrite (level_index_ok HR) by done]; unfold level_index, b2;
      simpl; by rewrite (sr_min _ _ Hs1). }
  simpl in Hlink, Hnote |- *. rewrite Hlink. simpl. rewrite Hnote.
  exists b4. split; [done|]. rewrite <- app_assoc in HG4, Hb4. split; [done|]. split; [done|].
  split; [by eapply moved_rest_write|]. intros x HxG.
  assert (x ≠ s) by (intros ->; apply HxG; rewrite fmap_app; set_solver).
  rewrite Hl4; [|rewrite fmap_app, ?fmap_cons in *; set_solver|done].
  simpl. rewrite links_write by done. by apply Hl1.
Qed.

Lemma requeue_spec L b G1 s a G2 fl p q :
  rep L b (G1 ++ (s, a) :: G2) fl → min_price_ b ≤ p ≤ max_price_ b → 0 < q < 2 ^ 32 →
  let a' := mkAOrder (a_id a) (a_side a) p q in
  ∃ b', requeue b (a_price a - min_price_ b) (a_side a) s p q = Ret b' ∧
    rep L b' (G1 ++ G2 ++ [(s, a')]) fl.
Proof.
  intros HR Hp Hq a'. destruct (requeue_run L b G1 s a G2 fl p q HR Hp Hq)
    as (b' & Hrun & HG & Hb & [M1 M2 M3 M4 M5 M6 M7] & Hlinks).
  exists b'. split; [done|].
  destruct (idmap_requeue G1 s a G2 a' (rp_ids _ _ _ _ HR) eq_refl) as [Hnd Hmap]. split.
  - rewrite M1. apply HR.
  - rewrite M2. apply HR.
  - done.
  - done.
  - rewrite <- (rp_slots _ _ _ _ HR). apply Permutation_app_tail. rewrite !fmap_app, fmap_cons.
    apply Permutation_app_head. symmetry. apply Permutation_cons_append.
  - rewrite M7. apply HR.
  - rewrite M5. eapply free_chain_frame; [|apply HR]. intros x Hx. apply Hlinks.
    intros Hin%(rep_disjoint HR). done.
  - done.
  - pose proof (rp_id _ _ _ _ HR) as Hids. rewrite fmap_app, fmap_cons in Hids.
    intros c. rewrite !fmap_app, !elem_of_app.
    intros [Hc|[Hc|Hc%list_elem_of_singleton]]; [apply Hids; set_solver..|].
    subst c. apply (Hids a). set_solver.
  - destruct (rp_index _ _ _ _ HR) as [lg [Hlg Hmask Hfit Hrep]]. exists lg.
    split; [done|by rewrite M4|done|by rewrite M3, Hmap].
  - rewrite M6, (rp_live _ _ _ _ HR), !length_app. simpl. lia.
Qed.

(** ** Changing a quantity in place: a shrinking [modify], a partial fill *)

Lemma best_resize b B1 a B2 v :
  book_best b (B1 ++ a :: B2) → book_best b (B1 ++ resized a v :: B2).
Proof.
  intros Hb sd. destruct (Hb sd) as [[E Hno]|[E [(o & Ho & Hl) Hmax]]]; [left|right]; (split; [done|]).
  - intros o Ho. apply elem_of_app in Ho as [Ho|[->|Ho]%elem_of_cons].
    + apply Hno. set_solver.
    + simpl. apply (Hno a). set_solver.
    + apply Hno. set_solver.
  - split.
    + destruct (decide (o = a)) as [->|]; [exists (resized a v)|exists o]; set_solver.
    + intros o' Ho'. apply elem_of_app in Ho' as [Ho'|[->|Ho']%elem_of_cons].
      * apply Hmax. set_solver.
      * simpl. apply (Hmax a). set_solver.
      * apply Hmax. set_solver.
Qed.

Lemma resize_spec L b G1 s a G2 fl v :
  rep L b (G1 ++ (s, a) :: G2) fl → 0 < v < a_qty a →
  ∃ b1 b', upd_level b (a_side a) (a_price a - min_price_ b)
      (λ l, set_total (u64 (total_quantity l - (a_qty a - v))) l) = Ret b1 ∧
    upd_order b1 s (set_quantity v) = Ret b' ∧
    rep L b' (G1 ++ (s, resized a v) :: G2) fl.
Proof.
  intros HR Hv. destruct (rp_queues _ _ _ _ HR) as [Hband HG].
  assert ((s, a) ∈ G1 ++ (s, a) :: G2) as Hin by set_solver.
  pose proof (qr_ok _ _ _ _ _ HG _ _ Hin) as [_ Hqa].
  destruct (queues_resize v HG) as (l & Hl & Ht & HG'); [lia|].
  destruct (pool_data _ _ _ (qr_data _ _ _ _ _ HG _ _ Hin)) as (o & Ho & _).
  assert (0 ≤ total_quantity l - (a_qty a - v) < 2 ^ 64) as Hb.
  { pose proof (equeue_bounds HG' (is_buy (a_side a)) (a_price a)) as [_ Hb].
    destruct (equeue_resize (is_buy (a_side a)) (a_price a) G1 s a v G2) as [_ Hsum].
    rewrite decide_True in Hsum by done. rewrite Hsum in Hb. lia. }
  eexists _, _. split; [|split].
  - rewrite (rebuild_eta b) at 1. erewrite upd_level_rebuild by exact Hl.
    rewrite u64_small by done. done.
  - by eapply upd_order_rebuild.
  - assert (∀ G : list entry, (λ e, (a_id e.2, e.1)) <$> G1 ++ (s, resized a v) :: G2 =
      (λ e, (a_id e.2, e.1)) <$> G1 ++ (s, a) :: G2) as Hkeys.
    { intros _. by rewrite !fmap_app, !fmap_cons. }
    split; try apply HR.
    + split; [done|]. eapply queues_rep_ext; [|exact HG']. intros sd. by rewrite lvls_rebuild.
    + pose proof (rp_best _ _ _ _ HR) as Hb'. rewrite fmap_app, fmap_cons in Hb' |- *.
      by apply best_resize.
    + rewrite <- (rp_slots _ _ _ _ HR), !fmap_app, !fmap_cons. done.
    + simpl. rewrite vlen_vupd. apply HR.
    + simpl. eapply free_chain_frame; [|apply HR]. intros x Hx. by autorewrite with book.
    + rewrite <- idmap_keys, Hkeys, idmap_keys by exact []. apply HR.
    + intros c Hc. rewrite fmap_app, fmap_cons in Hc.
      apply elem_of_app in Hc as [Hc|[->|Hc]%elem_of_cons]; simpl;
        apply (rp_id _ _ _ _ HR); rewrite fmap_app, fmap_cons; set_solver.
    + destruct (rp_index _ _ _ _ HR) as [lg [Hlg Hmask Hfit Hrep]]. exists lg. split; try done.
      unfold idmap. rewrite Hkeys by exact []. done.
    + simpl. rewrite (rp_live _ _ _ _ HR), !length_app. done.
Qed.

Lemma modify_refines L b B id p q :
  refines L b B → 0 ≤ q < 2 ^ 32 →
  ∃ b', modify b id p q = Ret (b', (spec_modify L id p q B).2) ∧
    refines L b' (spec_modify L id p q B).1.
Proof.
  intros (G & fl & HR & <-) Hq. unfold modify, spec_modify. rewrite (in_band_spec HR).
  assert (refines L b G.*2) as Hsame by (by exists G, fl).
  destruct (Z.eqb_spec q 0) as [|Hq0]; [by eauto|].
  destruct (a_in_band L p) eqn:Hband; simpl; [|by eauto]. apply (in_band_true HR) in Hband.
  destruct (find_spec HR id) as (r & -> & [[-> Hno]|(Hr & G1 & s & a & G2 & -> & <- & Hix)]); simpl.
  { rewrite a_find_None by done. eauto. }
  destruct (Z.eqb_spec r kNoLevel); [done|]. rewrite (load_Some _ _ _ Hix). simpl.
  destruct (found_order _ _ _ _ _ _ _ HR) as (Hba & o & Ho & _ & Hs & Hp & Hqty).
  rewrite (load_Some _ _ _ Ho). simpl. rewrite Hp, Hs, Hqty, (level_index_ok HR) by done. simpl.
  pose proof (rp_ids _ _ _ _ HR) as Hnd. rewrite fmap_app, fmap_cons in Hnd |- *.
  rewrite a_find_split, a_remove_split, a_resize_split by done. simpl.
  destruct ((p =? a_price a) && (q <? a_qty a)) eqn:Hc.
  - apply andb_true_iff in Hc as [->%Z.eqb_eq Hlt%Z.ltb_lt].
    destruct (qr_ok _ _ _ _ _ (proj2 (rp_queues _ _ _ _ HR)) s a) as [_ Hqa]; [set_solver|].
    rewrite u32_small by lia.
    destruct (resize_spec _ _ _ _ _ _ _ q HR) as (b1 & b' & -> & Hu & HR'); [lia|]. simpl.
    rewrite Hu. simpl. eexists. split; [done|]. eexists _, _. split; [done|]. by rewrite fmap_app.
  - destruct (requeue_spec _ _ _ _ _ _ _ p q HR) as (b' & -> & HR'); [done|lia|]. simpl.
    eexists. split; [done|]. eexists _, _. split; [done|]. rewrite !fmap_app, <- app_assoc. done.
Qed.

(** ** [execute] *)

Lemma execute_refines L b B id q :
  refines L b B → 0 ≤ q < 2 ^ 32 →
  ∃ b', execute b id q = Ret (b', (spec_execute id q B).2) ∧
    refines L b' (spec_execute id q B).1.
Proof.
  intros (G & fl & HR & <-) Hq. unfold execute, spec_execute.
  assert (refines L b G.*2) as Hsame by (by exists G, fl).
  destruct (Z.eqb_spec q 0) as [|Hq0]; [by eauto|].
  destruct (find_spec HR id) as (r & -> & [[-> Hno]|(Hr & G1 & s & a & G2 & -> & <- & Hix)]); simpl.
  { rewrite a_find_None by done. eauto. }
  destruct (Z.eqb_spec r kNoLevel); [done|]. rewrite (load_Some _ _ _ Hix). simpl.
  destruct (found_order _ _ _ _ _ _ _ HR) as (Hba & o & Ho & _ & Hs & Hp & Hqty).
  rewrite (load_Some _ _ _ Ho). simpl. rewrite Hp, Hs, Hqty, (level_index_ok HR) by done. simpl.
  pose proof (rp_ids _ _ _ _ HR) as Hnd. rewrite fmap_app, fmap_cons in Hnd |- *.
  rewrite a_find_split, a_remove_split by done. simpl.
  destruct (Z.leb_spec (a_qty a) q) as [Hle|Hlt].
  - destruct (remove_order_spec _ _ _ _ _ _ _ _ HR Hix) as (b' & -> & HR'). simpl.
    eexists. split; [done|]. eexists _, _. split; [done|]. by rewrite fmap_app.
  - destruct (qr_ok _ _ _ _ _ (proj2 (rp_queues _ _ _ _ HR)) s a) as [_ Hqa]; [set_solver|].
    destruct (resize_spec _ _ _ _ _ _ _ (a_qty a - q) HR) as (b1 & b' & Hu1 & Hu & HR'); [lia|].
    replace (a_qty a - (a_qty a - q)) with q in Hu1 by lia. rewrite Hu1. simpl.
    rewrite a_resize_split by done.
    assert (upd_order b1 s (λ o, set_quantity (u32 (o_quantity o - q)) o) = Ret b') as ->.
    { rewrite <- Hu. unfold upd_level in Hu1.
      apply bind_Ret_inv in Hu1 as (l & _ & Hu1). apply bind_Ret_inv in Hu1 as (ls & _ & [= <-]).
      unfold upd_order. assert (pool_ (set_levels_for (a_side a) ls b) = pool_ b) as ->
        by (unfold set_levels_for; by destruct (is_buy _)).
      rewrite (load_Some _ _ _ Ho). simpl. rewrite Hqty, u32_small by lia. done. }
    simpl. eexists. split; [done|]. eexists _, _. split; [done|]. by rewrite fmap_app.
Qed.
