(* ===== verification/OrderBookMake.v ===== *)
(** * Construction, [clear] and the observers of a book *)

From S2P Require Import Prelude Message OrderIndex BookSpec OrderBook BookQueues.
From S2P Require Import OrderBookInv OrderBookRep OrderBookCorrect.
Import Book.

#[local] Open Scope Z_scope.
#[local] Open Scope llte_scope.

(** ** Threading the free list *)

Definition next_free (n j : Z) : Z := if j + 1 <? n then j + 1 else kNullOrder.

Lemma thread_pool_spec n fuel i pool :
  vlen pool = n → n ≤ kNullOrder → 0 ≤ i ≤ n → n - i < Z.of_nat fuel →
  ∃ pool', thread_pool fuel n i pool = Ret pool' ∧ vlen pool' = n ∧
    ∀ j, 0 ≤ j < n → snd <$> links pool' j =
      if decide (i ≤ j) then Some (next_free n j) else snd <$> links pool j.
Proof.
  intros Hlen Hn. unfold kNullOrder in Hn. revert i pool Hlen.
  induction fuel as [|fuel IH]; intros i pool Hlen Hi Hfuel; [lia|]. simpl.
  destruct (Z.ltb_spec i n) as [Hlt|Hge].
  - destruct (vget_is_Some pool i) as [o Ho]; [lia|]. rewrite (load_Some _ _ _ Ho). simpl.
    rewrite u32_small by lia. rewrite assign_ok by lia. simpl. fold (next_free n i).
    rewrite <- (vupd_Some _ _ (set_next (next_free n i)) _ Ho).
    destruct (IH (i + 1) (vupd pool i (set_next (next_free n i)))) as (pool' & -> & Hl & Hp);
      [by rewrite vlen_vupd|lia..|].
    exists pool'. split; [done|]. split; [done|]. intros j Hj. rewrite Hp by done.
    rewrite links_set_next. repeat case_decide; try lia; subst; try done.
    unfold links. by rewrite Ho.
  - exists pool. split; [done|]. split; [done|]. intros j Hj. rewrite decide_False by lia. done.
Qed.

Lemma free_chain_threaded n pool (k : nat) :
  (∀ j, 0 ≤ j < n → snd <$> links pool j = Some (next_free n j)) →
  Z.of_nat k ≤ n →
  free_chain pool (if n - Z.of_nat k <? n then n - Z.of_nat k else kNullOrder)
    (seqZ (n - Z.of_nat k) (Z.of_nat k)).
Proof.
  intros Hp. induction k as [|k IH]; intros Hk.
  { rewrite Z.sub_0_r, Z.ltb_irrefl. done. }
  destruct (Z.ltb_spec (n - Z.of_nat (S k)) n) as [_|]; [|lia].
  rewrite seqZ_cons by lia. split; [done|].
  specialize (Hp (n - Z.of_nat (S k)) ltac:(lia)).
  apply fmap_Some in Hp as (l & Hl & Hnx). exists l. split; [done|]. rewrite <- Hnx.
  unfold next_free. replace (n - Z.of_nat (S k) + 1) with (n - Z.of_nat k) by lia.
  replace (Z.pred (Z.of_nat (S k))) with (Z.of_nat k) by lia.
  replace (Z.succ (n - Z.of_nat (S k))) with (n - Z.of_nat k) by lia.
  apply IH. lia.
Qed.

(** ** [clear] *)

(** The sizes fixed by the constructor. *)
Record shape_ok (L : limits) (b : t) : Prop := {
  sh_limits : limits_ok L;
  sh_min : min_price_ b = l_min L;
  sh_max : max_price_ b = l_max L;
  sh_levels sd : vlen (lvls b sd) = l_max L - l_min L + 1;
  sh_pool : vlen (pool_ b) = l_orders L;
  sh_index : ∃ lg, 0 ≤ lg < 64 ∧ index_mask_ b = tsize lg - 1 ∧
    2 * l_orders L ≤ tsize lg ∧ vlen (index_ b) = tsize lg
}.

Lemma fmap_const_replicate {A B} (x : B) (l : list A) :
  (λ _, x) <$> l = replicate (length l) x.
Proof. induction l as [|y l IH]; [done|]. rewrite fmap_cons, IH. done. Qed.

Lemma level_zero_rep pool : level_rep pool level_zero [].
Proof. by split. Qed.

Lemma clear_spec L b : shape_ok L b → ∃ b', clear b = Ret b' ∧ refines L b' [].
Proof.
  intros [[Hband Hord] Hmn Hmx Hlv Hpool (lg & Hlg & Hmask & Hfit & Hilen)].
  unfold clear. unfold kNullOrder in Hord. rewrite Hpool, u32_small by lia.
  destruct (thread_pool_spec (l_orders L) (S (length (pool_ b))) 0 (pool_ b)) as
    (pool & Hrun & Hplen & Hp); [done|unfold kNullOrder; lia|lia|unfold vlen in *; lia|].
  rewrite Hrun. simpl. destruct (Z.ltb_spec 0 (l_orders L)); [|lia].
  eexists. split; [done|]. exists [], (seqZ 0 (l_orders L)). split; [|done].
  split; simpl; try done.
  - rewrite <- Hmn, <- Hmx in Hband. split; [done|]. split; simpl.
    + intros s a Hin. by apply elem_of_nil in Hin.
    + constructor.
    + rewrite Hplen. unfold kNullOrder. lia.
    + intros s a Hin. by apply elem_of_nil in Hin.
    + intros sd p Hpr. exists level_zero. split; [|apply level_zero_rep].
      assert (∃ x, (lvls b sd)⟦p - min_price_ b⟧ = Some x) as [x Hx].
      { apply vget_is_Some. rewrite Hlv. lia. }
      unfold vget in Hx |- *. case_match; [|done].
      destruct sd; simpl in *; rewrite list_lookup_fmap, Hx; done.
    + intros []; simpl; unfold vlen; rewrite length_fmap; rewrite <- Hmn, <- Hmx in Hlv.
      * apply (Hlv true).
      * apply (Hlv false).
  - intros sd. left. split; [by destruct sd|]. intros o Ho. by apply elem_of_nil in Ho.
  - pose proof (free_chain_threaded (l_orders L) pool (Z.to_nat (l_orders L))) as Hc.
    rewrite Z2Nat.id, Z.sub_diag in Hc by lia.
    destruct (Z.ltb_spec 0 (l_orders L)); [|lia]. apply Hc; [|lia].
    intros j Hj. by rewrite Hp, decide_True by lia.
  - constructor.
  - intros a Ha. by apply elem_of_nil in Ha.
  - exists lg. split; simpl; [done..|]. rewrite fmap_const_replicate.
    apply index_rep_empty. done.
Qed.

(** ** The constructor *)

Definition limits_of (c : Config) : limits := mkLimits (min_price c) (max_price c) (max_orders c).

Lemma round_up_pow2_spec n :
  2 ≤ n ≤ 2 ^ 33 → ∃ lg, round_up_pow2 n = Ret (2 ^ lg) ∧ 0 ≤ lg < 64 ∧ n ≤ 2 ^ lg.
Proof.
  intros Hn. unfold round_up_pow2, bit_ceil.
  destruct (Z.ltb_spec n 2); [lia|]. destruct (Z.ltb_spec (2 ^ 63) n); [lia|].
  exists (Z.log2_up n). split; [done|]. split.
  - split; [apply Z.log2_up_nonneg|].
    apply Z.le_lt_trans with (Z.log2_up (2 ^ 33)); [apply Z.log2_up_le_mono; lia|done].
  - apply Z.log2_up_spec. lia.
Qed.

Lemma make_spec c : limits_ok (limits_of c) → ∃ b, make c = Ret b ∧ refines (limits_of c) b [].
Proof.
  intros HL. pose proof HL as [(H1 & H2 & H3 & H4) Hord]. simpl in *.
  unfold int64_min, int64_max, kNullOrder in *. unfold make.
  rewrite i64_ok by lia. simpl. rewrite (u64_small (_ * 2)) by lia.
  destruct (round_up_pow2_spec (max_orders c * 2)) as (lg & -> & Hlg & Hfit); [lia|]. simpl.
  rewrite (u64_small (max_price c - min_price c)), u64_small by lia.
  assert (0 < 2 ^ lg < 2 ^ 64) by (split; [lia|apply Z.pow_lt_mono_r; lia]).
  rewrite (u64_small (2 ^ lg - 1)) by lia.
  apply clear_spec. split; simpl; try done.
  - intros []; simpl; vlen_lia.
  - rewrite vlen_replicate. lia.
  - exists lg. unfold tsize. split; [done|]. split; [done|]. split; [lia|].
    rewrite vlen_replicate. lia.
Qed.

(** A represented book keeps the shape its constructor gave it. *)
Lemma refines_shape L b B : limits_ok L → refines L b B → shape_ok L b.
Proof.
  intros HL (G & fl & HR & _). destruct (rp_index _ _ _ _ HR) as [lg [Hlg Hm Hf Hr]].
  pose proof (rp_min _ _ _ _ HR) as Hmn. pose proof (rp_max _ _ _ _ HR) as Hmx.
  split; try done; try apply HR.
  - intros sd. rewrite <- Hmn, <- Hmx. apply (rp_queues _ _ _ _ HR).
  - exists lg. split; [done|]. split; [done|]. split; [done|]. apply Hr.
Qed.

(** ** Observers *)

Section observers.
Context {L : limits} {b : t} {B : list aorder} (HR : refines L b B).

Lemma best_refines sd :
  ∃ p, (if bests b sd =? kNoLevel then Ret kNoPrice else level_price b (bests b sd)) = Ret p ∧
    ((no_side sd B ∧ p = kNoPrice) ∨ is_best sd p B).
Proof using HR.
  destruct HR as (G & fl & HG & <-). destruct (rp_best _ _ _ _ HG sd) as [[-> Hno]|[Hne Hbest]].
  - exists kNoPrice. split; [done|]. by left.
  - destruct (Z.eqb_spec (bests b sd) kNoLevel); [done|].
    exists (min_price_ b + bests b sd). split; [|by right].
    destruct Hbest as [(o & Ho & _ & Hp) _]. unfold level_price. apply i64_ok.
    pose proof (queues_prices _ _ _ (rp_queues _ _ _ _ HG) Ho) as Hr. rewrite Hp in Hr.
    destruct (rp_queues _ _ _ _ HG) as [(? & ? & ? & ?) _]. unfold int64_min, int64_max in *. lia.
Qed.

Lemma queue_out_of_band sd p : a_in_band L p = false → a_queue sd p B = [].
Proof using HR.
  destruct HR as (G & fl & HG & <-). intros Hb. rewrite <- equeue_orders.
  destruct (equeue sd p G) as [|[s a] q] eqn:E; [done|exfalso].
  assert ((s, a) ∈ equeue sd p G) as [[_ Hp] Hin]%equeue_elem by (rewrite E; set_solver).
  destruct (qr_ok _ _ _ _ _ (proj2 (rp_queues _ _ _ _ HG)) s a Hin) as [Hr _].
  simpl in Hp. rewrite Hp in Hr. apply (in_band_true HG) in Hr. congruence.
Qed.

Lemma level_lookup s p :
  a_in_band L p = true →
  ∃ l q, level_index b p = Ret (p - min_price_ b) ∧
    load (levels_for b s) (p - min_price_ b) = Ret l ∧
    level_rep (pool_ b) l q ∧ q.*2 = a_queue (is_buy s) p B ∧
    ∀ x a, (x, a) ∈ q → data (pool_ b) x = Some a.
Proof using HR.
  destruct HR as (G & fl & HG & <-). intros Hb. apply (in_band_true HG) in Hb.
  destruct (rp_queues _ _ _ _ HG) as [_ HQ].
  destruct (qr_levels _ _ _ _ _ HQ (is_buy s) p Hb) as (l & Hl & Hr).
  exists l, (equeue (is_buy s) p G). split; [by apply (level_index_ok HG)|].
  split; [by apply load_Some|]. split; [done|]. split; [apply equeue_orders|].
  intros x a [_ Hin]%equeue_elem. by apply (qr_data _ _ _ _ _ HQ).
Qed.

Lemma refines_band p : in_band b p = a_in_band L p.
Proof using HR. destruct HR as (G & fl & HG & _). apply (in_band_spec HG). Qed.

Lemma quantity_at_refines s p : quantity_at b s p = Ret (sum_qty (a_queue (is_buy s) p B)).
Proof using HR.
  unfold quantity_at. rewrite refines_band. destruct (a_in_band L p) eqn:Hb; simpl.
  - destruct (level_lookup s p Hb) as (l & q & -> & Hl & Hr & Hq & _). simpl. rewrite Hl. simpl.
    by rewrite (lr_total _ _ _ Hr), Hq.
  - by rewrite queue_out_of_band.
Qed.

Lemma order_count_at_refines s p :
  order_count_at b s p = Ret (Z.of_nat (length (a_queue (is_buy s) p B))).
Proof using HR.
  unfold order_count_at. rewrite refines_band. destruct (a_in_band L p) eqn:Hb; simpl.
  - destruct (level_lookup s p Hb) as (l & q & -> & Hl & Hr & Hq & _). simpl. rewrite Hl. simpl.
    by rewrite (lr_count _ _ _ Hr), <- Hq, length_fmap.
  - by rewrite queue_out_of_band.
Qed.

Lemma contains_refines id : contains b id = Ret (bool_decide (is_Some (a_find id B))).
Proof using HR.
  destruct HR as (G & fl & HG & <-). unfold contains.
  destruct (find_spec HG id) as (r & -> & [[-> Hno]|(Hr & G1 & s & a & G2 & -> & <- & Hix)]); simpl.
  - rewrite a_find_None by done. done.
  - destruct (Z.eqb_spec r kNoLevel); [done|]. pose proof (rp_ids _ _ _ _ HG) as Hnd.
    rewrite fmap_app, fmap_cons in Hnd |- *. by rewrite a_find_split.
Qed.

Lemma live_refines : live_order_count b = Z.of_nat (length B).
Proof using HR.
  destruct HR as (G & fl & HG & <-). rewrite length_fmap. apply HG.
Qed.
End observers.
