(* ===== verification/OrderBookTheorems.v ===== *)
(** * What the order book guarantees

    The contract of [BookInterface] discharged by [Book], the states a program
    can reach, and the guarantees read off the data structure itself: the
    queues are walked through the pool's links, the free list through
    [free_head_]. *)

From S2P Require Import Prelude Message OrderIndex BookSpec BookInterface OrderBook BookQueues.
From S2P Require Import OrderBookInv OrderBookRep OrderBookCorrect OrderBookMake.
Import Book.

#[local] Open Scope Z_scope.
#[local] Open Scope llte_scope.

(** ** The contract *)

#[export] Instance book_ops : BookOps t := {
  bk_add := add;
  bk_cancel := cancel;
  bk_modify := modify;
  bk_execute := execute;
  bk_clear := clear;
  bk_live := live_order_count
}.

Definition sized (L : limits) (b : t) (B : list aorder) : Prop := limits_ok L ∧ refines L b B.

Section simulations.
Context {L : limits}.
Implicit Types (b : t) (B : list aorder).

Lemma add_simulates b B id s p q : sized L b B → 0 ≤ q < 2 ^ 32 →
  simulates (sized L) (add b id s p q) (spec_add L id s p q B).
Proof. intros [HL HR] Hq. destruct (add_refines L b B id s p q HR Hq) as (b' & ? & ?). by exists b'. Qed.

Lemma cancel_simulates b B id : sized L b B →
  simulates (sized L) (cancel b id) (spec_cancel id B).
Proof. intros [HL HR]. destruct (cancel_refines L b B id HR) as (b' & ? & ?). by exists b'. Qed.

Lemma modify_simulates b B id p q : sized L b B → 0 ≤ q < 2 ^ 32 →
  simulates (sized L) (modify b id p q) (spec_modify L id p q B).
Proof. intros [HL HR] Hq. destruct (modify_refines L b B id p q HR Hq) as (b' & ? & ?). by exists b'. Qed.

Lemma execute_simulates b B id q : sized L b B → 0 ≤ q < 2 ^ 32 →
  simulates (sized L) (execute b id q) (spec_execute id q B).
Proof. intros [HL HR] Hq. destruct (execute_refines L b B id q HR Hq) as (b' & ? & ?). by exists b'. Qed.

Lemma clear_sized b B : sized L b B → ∃ b', clear b = Ret b' ∧ sized L b' [].
Proof.
  intros [HL HR]. destruct (clear_spec L b) as (b' & ? & ?); [by eapply refines_shape|].
  by exists b'.
Qed.

Lemma live_sized b B : sized L b B → live_order_count b = Z.of_nat (length B).
Proof. intros [_ HR]. apply (live_refines HR). Qed.
End simulations.

#[export] Instance book_laws L : BookLaws t L (sized L) := {
  law_add := add_simulates;
  law_cancel := cancel_simulates;
  law_modify := modify_simulates;
  law_execute := execute_simulates;
  law_clear := clear_sized;
  law_live := live_sized
}.

(** The books a program can hold: built by the constructor, then any calls. *)
Inductive reachable (c : Config) : t → Prop :=
  | reach_make b : limits_ok (limits_of c) → make c = Ret b → reachable c b
  | reach_op b o b' r : reachable c b → op_ok o → apply_op b o = Ret (b', r) → reachable c b'.

Lemma reachable_sized c b : reachable c b → ∃ B, sized (limits_of c) b B.
Proof.
  induction 1 as [b HL Hb|b o b' r _ [B HB] Ho Hrun].
  - destruct (make_spec c HL) as (b' & Hb' & HR). exists []. split; [done|]. congruence.
  - destruct (apply_op_spec b B o HB Ho) as (b2 & Hrun2 & HR). exists (spec_op (limits_of c) o B).1.
    congruence.
Qed.

Lemma reachable_ops c b os b' rs :
  reachable c b → Forall op_ok os → run_ops b os = Ret (b', rs) → reachable c b'.
Proof.
  revert b rs. induction os as [|o os IH]; intros b rs Hb Hos; simpl; [by intros [= <- _]|].
  apply Forall_cons in Hos as [Ho Hos].
  intros ([b1 r] & H1 & ([b2 rs'] & H2 & [= <- <-])%bind_Ret_inv)%bind_Ret_inv.
  eapply IH; [|done..]. by eapply reach_op.
Qed.

(** ** Reading the data structure *)

Definition order_data (o : Order) : aorder :=
  mkAOrder (o_id o) (o_side o) (o_price o) (o_quantity o).

(** The slots reached from [h] along [step] links, with what they hold. *)
Fixpoint walk (step : Order → Z) (fuel : nat) (pool : list Order) (h : Z) : outcome (list entry) :=
  if h =? kNullOrder then Ret []
  else match fuel with
  | O => Fault OutOfFuel
  | S fuel =>
      o ← load pool h;
      rest ← walk step fuel pool (step o);
      Ret ((h, order_data o) :: rest)
  end.

Definition level_at (b : t) (sd : bool) (p : Z) : outcome Level :=
  i ← level_index b p; load (lvls b sd) i.

(** A price level from its oldest order to its newest, and back. *)
Definition level_walk (b : t) (sd : bool) (p : Z) : outcome (list entry) :=
  l ← level_at b sd p; walk o_next (length (pool_ b)) (pool_ b) (head l).
Definition level_walk_back (b : t) (sd : bool) (p : Z) : outcome (list entry) :=
  l ← level_at b sd p; walk o_prev (length (pool_ b)) (pool_ b) (tail l).

Definition free_walk (b : t) : outcome (list entry) :=
  walk o_next (length (pool_ b)) (pool_ b) (free_head_ b).

(** The order an id stands for, through the index. *)
Definition lookup_order (b : t) (id : Z) : outcome (option aorder) :=
  position ← find_index (index_ b) (index_mask_ b) id;
  if position =? kNoLevel then Ret None
  else
    entry ← load (index_ b) position;
    o ← load (pool_ b) (value entry);
    Ret (Some (order_data o)).

Lemma walk_null step fuel pool : walk step fuel pool kNullOrder = Ret [].
Proof. by destruct fuel. Qed.

Lemma walk_step step fuel pool h o :
  h ≠ kNullOrder → pool⟦h⟧ = Some o →
  walk step (S fuel) pool h =
    (rest ← walk step fuel pool (step o); Ret ((h, order_data o) :: rest)).
Proof.
  intros Hh Ho. simpl. destruct (Z.eqb_spec h kNullOrder); [done|]. by rewrite (load_Some _ _ _ Ho).
Qed.

Lemma slot_split pool s a l :
  data pool s = Some a → links pool s = Some l →
  ∃ o, pool⟦s⟧ = Some o ∧ order_data o = a ∧ o_prev o = l.1 ∧ o_next o = l.2.
Proof. unfold data, links. destruct (pool⟦s⟧) as [o|]; naive_solver. Qed.

Section walks.
Context (pool : list Order).

Lemma walk_forward q fuel p :
  not_null q.*1 → (∀ s a, (s, a) ∈ q → data pool s = Some a) →
  dlseg pool p q.*1 kNullOrder → (length q ≤ fuel)%nat →
  walk o_next fuel pool (hd_or kNullOrder q.*1) = Ret q.
Proof.
  revert fuel p. induction q as [|[s a] q IH]; intros fuel p Hnn Hd Hseg Hf.
  { apply walk_null. }
  destruct fuel as [|fuel]; simpl in Hf; [lia|]. destruct Hseg as [Hs Hseg].
  destruct (slot_split pool s a _ (Hd s a ltac:(set_solver)) Hs) as (o & Ho & <- & _ & Hn).
  cbn [fmap list_fmap hd_or fst]. rewrite (walk_step _ _ _ _ o); [|apply Hnn; set_solver|done].
  rewrite Hn. cbn [snd]. erewrite IH; [done| |set_solver|done|lia].
  intros x Hx. apply Hnn. set_solver.
Qed.

Lemma walk_backward q fuel n :
  not_null q.*1 → (∀ s a, (s, a) ∈ q → data pool s = Some a) →
  dlseg pool kNullOrder q.*1 n → (length q ≤ fuel)%nat →
  walk o_prev fuel pool (last_or kNullOrder q.*1) = Ret (reverse q).
Proof.
  revert fuel n. induction q as [|[s a] q IH] using rev_ind; intros fuel n Hnn Hd Hseg Hf.
  { apply walk_null. }
  rewrite length_app in Hf. destruct fuel as [|fuel]; simpl in Hf; [lia|].
  rewrite fmap_app in Hseg, Hnn |- *. rewrite dlseg_app in Hseg. destruct Hseg as [Hseg [Hs _]].
  destruct (slot_split pool s a _ (Hd s a ltac:(set_solver)) Hs) as (o & Ho & <- & Hp & _).
  rewrite last_or_app. cbn [fmap list_fmap last_or fst].
  rewrite (walk_step _ _ _ _ o); [|apply Hnn; set_solver|done].
  rewrite Hp. cbn [fst]. rewrite (IH fuel s); [by rewrite reverse_app| |set_solver|done|lia].
  intros x Hx. apply Hnn. set_solver.
Qed.

Lemma walk_free fl fuel h :
  not_null fl → free_chain pool h fl → (length fl ≤ fuel)%nat →
  ∃ q, walk o_next fuel pool h = Ret q ∧ q.*1 = fl.
Proof.
  revert fuel h. induction fl as [|s fl IH]; intros fuel h Hnn Hc Hf.
  { simpl in Hc. subst. exists []. by rewrite walk_null. }
  destruct fuel as [|fuel]; simpl in Hf; [lia|]. destruct Hc as (-> & l & Hl & Hc).
  unfold links in Hl. apply fmap_Some in Hl as (o & Ho & ->). cbn [snd] in Hc.
  rewrite (walk_step _ _ _ _ o); [|apply Hnn; set_solver|done].
  destruct (IH fuel (o_next o)) as (q & -> & <-); [|done|lia|by eexists].
  intros x Hx. apply Hnn. set_solver.
Qed.
End walks.

(** ** The walks of a represented book *)

Section represented.
Context {L : limits} {b : t} {G : list entry} {fl : list Z} (HG : rep L b G fl).

Lemma slot_range s : s ∈ G.*1 ∨ s ∈ fl ↔ 0 ≤ s < l_orders L.
Proof using HG. rewrite <- elem_of_app, (rp_slots _ _ _ _ HG), seqZ_vec_elem. done. Qed.

Lemma pool_length : (length G + length fl = length (pool_ b))%nat.
Proof using HG.
  pose proof (Permutation_length (rp_slots _ _ _ _ HG)) as H.
  pose proof (rp_len _ _ _ _ HG) as Hl. unfold vlen in Hl.
  rewrite length_app, length_fmap, length_seqZ in H. lia.
Qed.

Lemma small_pool : l_orders L ≤ kNullOrder.
Proof using HG.
  pose proof (qr_pool _ _ _ _ _ (proj2 (rp_queues _ _ _ _ HG))) as H.
  by rewrite (rp_len _ _ _ _ HG) in H.
Qed.

Lemma free_walk_run : ∃ q, free_walk b = Ret q ∧ q.*1 = fl.
Proof using HG.
  apply walk_free; [|apply HG|pose proof pool_length; lia].
  intros s Hs. pose proof (proj1 (slot_range s) (or_intror Hs)). pose proof small_pool. lia.
Qed.

Lemma level_at_run sd p :
  a_in_band L p = true → ∃ l, level_at b sd p = Ret l ∧ level_rep (pool_ b) l (equeue sd p G).
Proof using HG.
  intros Hb. apply (in_band_true HG) in Hb. unfold level_at.
  rewrite (level_index_ok HG) by done. simpl.
  destruct (qr_levels _ _ _ _ _ (proj2 (rp_queues _ _ _ _ HG)) sd p Hb) as (l & Hl & Hr).
  exists l. split; [by apply load_Some|done].
Qed.

Lemma equeue_fits sd p : (length (equeue sd p G) ≤ length (pool_ b))%nat.
Proof using HG.
  pose proof (sublist_length _ _ (equeue_sublist sd p G)). pose proof pool_length. lia.
Qed.

Lemma level_walks_run sd p :
  a_in_band L p = true →
  level_walk b sd p = Ret (equeue sd p G) ∧
  level_walk_back b sd p = Ret (reverse (equeue sd p G)).
Proof using HG.
  intros Hb. destruct (rp_queues _ _ _ _ HG) as [_ HQ].
  destruct (level_at_run sd p Hb) as (l & Hl & Hr).
  assert (∀ s a, (s, a) ∈ equeue sd p G → data (pool_ b) s = Some a) as Hd.
  { intros s a [_ Hin]%equeue_elem. by apply (qr_data _ _ _ _ _ HQ). }
  pose proof (equeue_fits sd p). pose proof (lr_seg _ _ _ Hr).
  unfold level_walk, level_walk_back. rewrite Hl. simpl.
  rewrite (lr_head _ _ _ Hr), (lr_tail _ _ _ Hr).
  split; [eapply walk_forward|eapply walk_backward]; eauto using equeue_not_null.
Qed.

Lemma lookup_order_run id : lookup_order b id = Ret (a_find id G.*2).
Proof using HG.
  unfold lookup_order.
  destruct (find_spec HG id) as (r & -> & [[-> Hno]|(Hr & G1 & s & a & G2 & HGe & <- & Hix)]); simpl.
  - by rewrite a_find_None.
  - destruct (Z.eqb_spec r kNoLevel); [done|]. rewrite (load_Some _ _ _ Hix). simpl.
    pose proof (rp_ids _ _ _ _ HG) as Hnd.
    assert (data (pool_ b) s = Some a) as Ha.
    { apply (qr_data _ _ _ _ _ (proj2 (rp_queues _ _ _ _ HG))). rewrite HGe. set_solver. }
    unfold data in Ha. apply fmap_Some in Ha as (o & Ho & Ha).
    rewrite (load_Some _ _ _ Ho). simpl. rewrite HGe in Hnd |- *.
    rewrite fmap_app, fmap_cons in Hnd |- *. rewrite a_find_split by done. by rewrite Ha.
Qed.
End represented.

(** ** Observations of a refined book *)

(** The resting orders of one price level, best time priority first. *)
Definition level_orders (b : t) (sd : bool) (p : Z) : outcome (list aorder) :=
  q ← level_walk b sd p; Ret q.*2.

(** Every question a client can ask, answered as on the list of orders [B]. *)
Record observed (L : limits) (b : t) (B : list aorder) : Prop := {
  ob_live : live_order_count b = Z.of_nat (length B);
  ob_contains id : contains b id = Ret (bool_decide (is_Some (a_find id B)));
  ob_lookup id : lookup_order b id = Ret (a_find id B);
  ob_quantity s p : quantity_at b s p = Ret (sum_qty (a_queue (is_buy s) p B));
  ob_count s p : order_count_at b s p = Ret (Z.of_nat (length (a_queue (is_buy s) p B)));
  ob_level sd p : in_band b p = true → level_orders b sd p = Ret (a_queue sd p B);
  ob_bid : ∃ p, best_bid b = Ret p ∧ ((no_side true B ∧ p = kNoPrice) ∨ is_best true p B);
  ob_ask : ∃ p, best_ask b = Ret p ∧ ((no_side false B ∧ p = kNoPrice) ∨ is_best false p B)
}.

Lemma refines_observed L b B : refines L b B → observed L b B.
Proof.
  intros HR. split; eauto using live_refines, contains_refines, quantity_at_refines,
    order_count_at_refines.
  - destruct HR as (G & fl & HG & <-). intros id. apply (lookup_order_run HG).
  - intros sd p. rewrite (refines_band HR). destruct HR as (G & fl & HG & <-). intros Hb.
    unfold level_orders. destruct (level_walks_run HG sd p Hb) as [-> _]. simpl.
    by rewrite equeue_orders.
  - apply (best_refines HR true).
  - apply (best_refines HR false).
Qed.

(** A queue of the abstract book after each change of the list of orders. *)
Lemma a_queue_app sd p B B' : a_queue sd p (B ++ B') = a_queue sd p B ++ a_queue sd p B'.
Proof. apply filter_app. Qed.

Lemma a_queue_one sd p' id s p q :
  a_queue sd p' [mkAOrder id s p q] =
  if decide (sd = is_buy s ∧ p' = p) then [mkAOrder id s p q] else [].
Proof.
  unfold a_queue. case_decide as H.
  - by rewrite filter_cons_True by (destruct H as [-> ->]; done).
  - rewrite filter_cons_False; [done|]. intros [Hs Hp]. simpl in *. by apply H.
Qed.

Lemma a_queue_remove sd p id B : a_queue sd p (a_remove id B) = a_remove id (a_queue sd p B).
Proof.
  unfold a_queue, a_remove. rewrite !list_filter_filter. apply list_filter_iff. tauto.
Qed.

Lemma a_queue_resize sd p id q B : a_queue sd p (a_resize id q B) = a_resize id q (a_queue sd p B).
Proof.
  unfold a_queue, a_resize. induction B as [|o B IH]; [done|].
  rewrite fmap_cons, !filter_cons. set (o' := if decide (a_id o = id) then _ else o).
  assert (at_level sd p o' ↔ at_level sd p o) as Hiff by (unfold o'; by case_decide).
  destruct (decide (at_level sd p o)), (decide (at_level sd p o')); try tauto.
  by rewrite fmap_cons, IH.
Qed.

Lemma a_find_remove_ne id id' B : id' ≠ id → a_find id' (a_remove id B) = a_find id' B.
Proof.
  intros Hne. unfold a_find, a_remove. induction B as [|o B IH]; [done|]. rewrite filter_cons.
  case_decide as Hid; simpl.
  - case_decide; [done|]. by destruct (list_find _ B), (list_find _ (filter _ B)); naive_solver.
  - rewrite IH, decide_False by congruence. by destruct (list_find _ B).
Qed.

Lemma a_find_resize id q B o :
  a_find id B = Some o →
  a_find id (a_resize id q B) = Some (mkAOrder id (a_side o) (a_price o) q).
Proof.
  unfold a_find, a_resize. induction B as [|x B IH]; [done|]. rewrite fmap_cons. simpl.
  destruct (decide (a_id x = id)) as [Hx|Hx]; simpl.
  - intros [= <-]. rewrite decide_True by done. simpl. by rewrite Hx.
  - rewrite decide_False by done. destruct (list_find _ B); [|done].
    intros ?. destruct (list_find _ (_ <$> B)); naive_solver.
Qed.

Lemma step_observed {L b b' B m s r} :
  sized L b B → simulates (sized L) m s → m = Ret (b', r) →
  r = s.2 ∧ observed L b B ∧ observed L b' s.1 ∧ in_band b' = in_band b.
Proof.
  intros [HL HR] (b2 & -> & [_ HR2]) [= -> <-]. split; [done|].
  split; [by apply refines_observed|]. split; [by apply refines_observed|].
  destruct HR as (G & fl & HG & _), HR2 as (G2 & fl2 & HG2 & _). unfold in_band.
  by rewrite (rp_min _ _ _ _ HG), (rp_max _ _ _ _ HG), (rp_min _ _ _ _ HG2), (rp_max _ _ _ _ HG2).
Qed.
