(* ===== verification/BookProperties.v ===== *)
(** * Properties of the order book

    The guarantees of [orderbook/order_book.cpp], each stated on the book the
    code builds and each with a concrete run that meets its hypotheses. *)

From S2P Require Import Prelude Message OrderIndex BookSpec BookInterface OrderBook BookQueues.
From S2P Require Import OrderBookInv OrderBookRep OrderBookCorrect OrderBookMake OrderBookTheorems.
Import Book.

#[local] Open Scope Z_scope.
#[local] Open Scope llte_scope.

(** ** A concrete book for the witnesses *)

Definition demo_config : Config := mkConfig 100 103 3.

(** Three orders at two levels, one reduced; then the pool is full. *)
Definition demo_ops : list op :=
  [OpAdd 11 Buy 101 5; OpAdd 12 Buy 101 7; OpAdd 13 Sell 103 2; OpModify 12 101 4].

Definition demo_book : t :=
  Eval vm_compute in
  match (b ← make demo_config; run_ops b demo_ops) with
  | Ret (b, _) => b
  | Fault _ => mkBook 0 0 [] [] [] [] 0 0 0 0 0
  end.

Lemma demo_limits : limits_ok (limits_of demo_config).
Proof. repeat split; vm_compute; congruence. Qed.

Lemma demo_ops_ok : Forall op_ok demo_ops.
Proof. repeat constructor; vm_compute; congruence. Qed.

Lemma demo_reachable : reachable demo_config demo_book.
Proof.
  destruct (make demo_config) as [b|] eqn:Hb; [|vm_compute in Hb; congruence].
  apply (reachable_ops demo_config b demo_ops demo_book [Some Ok; Some Ok; Some Ok; Some Ok]).
  - apply reach_make; [apply demo_limits|done].
  - apply demo_ops_ok.
  - vm_compute in Hb. injection Hb as <-. vm_compute. reflexivity.
Qed.

(** ** Refinement *)

(** C2. For every configuration the types allow and every sequence of calls,
    construction and all calls return (no undefined behaviour, no loop runs
    on), every call reports the result the list-of-orders specification gives,
    and afterwards every query answers as on that list. *)
Theorem book_run_refines c os :
  limits_ok (limits_of c) → Forall op_ok os →
  ∃ b0 b, make c = Ret b0 ∧ run_ops b0 os = Ret (b, (spec_ops (limits_of c) os []).2) ∧
    observed (limits_of c) b (spec_ops (limits_of c) os []).1.
Proof.
  intros HL Hos. destruct (make_spec c HL) as (b0 & Hb0 & HR0).
  destruct (run_ops_spec os b0 [] (conj HL HR0 : sized _ b0 []) Hos) as (b & Hb & _ & HR).
  exists b0, b. eauto using refines_observed.
Qed.

Lemma book_run_refines_witness :
  ∃ b0 b, make demo_config = Ret b0 ∧
    run_ops b0 demo_ops = Ret (b, (spec_ops (limits_of demo_config) demo_ops []).2) ∧
    observed (limits_of demo_config) b (spec_ops (limits_of demo_config) demo_ops []).1.
Proof. exact (book_run_refines demo_config demo_ops demo_limits demo_ops_ok). Defined.

(** After [clear] a book cannot be told from a new one: every later
    sequence of calls returns with the same results, and the same observations. *)
Lemma clear_like_new c b os :
  reachable c b → Forall op_ok os →
  ∃ b0 bn b' bn' rs B, clear b = Ret b0 ∧ make c = Ret bn ∧
    run_ops b0 os = Ret (b', rs) ∧ run_ops bn os = Ret (bn', rs) ∧
    observed (limits_of c) b' B ∧ observed (limits_of c) bn' B.
Proof.
  intros Hb Hos. destruct (reachable_sized c b Hb) as (B & HL & HR).
  destruct (make_spec c HL) as (bn & Hbn & HRn).
  destruct (clear_spec _ b (refines_shape _ _ _ HL HR)) as (b0 & Hb0 & HR0).
  destruct (run_ops_spec os b0 [] (conj HL HR0 : sized _ b0 []) Hos) as (b' & Hb' & _ & HR').
  destruct (run_ops_spec os bn [] (conj HL HRn : sized _ bn []) Hos) as (bn' & Hbn' & _ & HRn').
  eexists b0, bn, b', bn', _, _. eauto 10 using refines_observed.
Qed.

Lemma clear_like_new_witness :
  ∃ b0 bn b' bn' rs B, clear demo_book = Ret b0 ∧ make demo_config = Ret bn ∧
    run_ops b0 demo_ops = Ret (b', rs) ∧ run_ops bn demo_ops = Ret (bn', rs) ∧
    observed (limits_of demo_config) b' B ∧ observed (limits_of demo_config) bn' B.
Proof. exact (clear_like_new demo_config demo_book demo_ops demo_reachable demo_ops_ok). Defined.

(** ** Quotes *)

Lemma count_zero_level sd p B :
  Z.of_nat (length (a_queue sd p B)) = 0 ↔ ∀ o, o ∈ B → ¬ at_level sd p o.
Proof.
  rewrite <- Nat2Z.inj_0, Nat2Z.inj_iff, length_zero_iff_nil. unfold a_queue. split.
  - intros H o Ho Hl. assert (o ∈ filter (at_level sd p) B) as Hin by (by apply list_elem_of_filter).
    rewrite H in Hin. by apply elem_of_nil in Hin.
  - intros H. destruct (filter (at_level sd p) B) as [|o q] eqn:E; [done|exfalso].
    assert (o ∈ filter (at_level sd p) B) as [Hl Ho]%list_elem_of_filter by (rewrite E; set_solver).
    by apply (H o Ho).
Qed.

Definition better (sd : bool) (p p' : Z) : Prop := if sd then p < p' else p' < p.

Lemma quote_exact s B p :
  (no_side (is_buy s) B ∧ p = kNoPrice) ∨ is_best (is_buy s) p B →
  let count p := Z.of_nat (length (a_queue (is_buy s) p B)) in
  ((∀ p', count p' = 0) ∧ p = kNoPrice) ∨
  (0 < count p ∧ ∀ p', better (is_buy s) p p' → count p' = 0).
Proof.
  intros [[Hno ->]|[(o & Ho & Hl) Hbest]]; simpl.
  - left. split; [|done]. intros p'. apply count_zero_level. intros o Ho [Hs _]. by apply (Hno o).
  - right. split.
    + destruct (decide (Z.of_nat (length (a_queue (is_buy s) p B)) = 0)) as [E|]; [|lia].
      exfalso. by apply (proj1 (count_zero_level _ _ _) E o).
    + intros p' Hp'. apply count_zero_level. intros o' Ho' [Hs Hp].
      specialize (Hbest o' Ho' Hs). unfold better in Hp'. destruct (is_buy s); lia.
Qed.

(** C14. [best_bid] (resp. [best_ask]) returns the price of a level with at
    least one resting order of that side, above (below) which every level is
    empty, or, when the side has no order at any price, [kNoPrice]. In a book whose band
    starts above [kNoPrice], the least [int64_t], the answer is [kNoPrice] exactly when
    the side is empty; a band that starts at [kNoPrice] makes the two indistinguishable. *)
Theorem best_quotes_exact c b :
  reachable c b →
  ∃ bid ask, best_bid b = Ret bid ∧ best_ask b = Ret ask ∧
    (((∀ p, order_count_at b Buy p = Ret 0) ∧ bid = kNoPrice) ∨
     ((∃ n, order_count_at b Buy bid = Ret n ∧ 0 < n) ∧
      ∀ p, bid < p → order_count_at b Buy p = Ret 0)) ∧
    (((∀ p, order_count_at b Sell p = Ret 0) ∧ ask = kNoPrice) ∨
     ((∃ n, order_count_at b Sell ask = Ret n ∧ 0 < n) ∧
      ∀ p, p < ask → order_count_at b Sell p = Ret 0)) ∧
    (kNoPrice < min_price c →
     (bid = kNoPrice ↔ ∀ p, order_count_at b Buy p = Ret 0) ∧
     (ask = kNoPrice ↔ ∀ p, order_count_at b Sell p = Ret 0)).
Proof.
  intros (B & _ & HR)%reachable_sized. pose proof (refines_observed _ _ _ HR) as HO.
  destruct (ob_bid _ _ _ HO) as (bid & Hbid & Hb), (ob_ask _ _ _ HO) as (ask & Hask & Ha).
  exists bid, ask. split; [done|]. split; [done|].
  apply (quote_exact Buy) in Hb. apply (quote_exact Sell) in Ha. simpl in *.
  assert (∀ s p, order_count_at b s p = Ret (Z.of_nat (length (a_queue (is_buy s) p B)))) as Hcount by (apply HO).
  split; [|split].
  { destruct Hb as [[Hz ->]|[Hp Hz]]; [left|right]; (split; [|try done]); [|by eexists|];
      intros p; rewrite Hcount; simpl; intros; by rewrite Hz. }
  { destruct Ha as [[Hz ->]|[Hp Hz]]; [left|right]; (split; [|try done]); [|by eexists|];
      intros p; rewrite Hcount; simpl; intros; by rewrite Hz. }
  intros Hband. assert (∀ s, order_count_at b s kNoPrice = Ret 0) as Hout.
  { intros s. unfold order_count_at. rewrite (refines_band HR). unfold a_in_band, limits_of. cbn [l_min l_max]. destruct (Z.leb_spec (min_price c) kNoPrice); [lia|done]. }
  split; (split; [|intros Hempty]).
  - intros ->. destruct Hb as [[Hz _]|[Hp _]]; [intros p; rewrite Hcount; simpl; by rewrite Hz|].
    specialize (Hout Buy). rewrite Hcount in Hout. simpl in Hout. injection Hout as Hout. lia.
  - destruct Hb as [[_ ->]|[Hp _]]; [done|]. specialize (Hempty bid). rewrite Hcount in Hempty. simpl in Hempty. injection Hempty as E. lia.
  - intros ->. destruct Ha as [[Hz _]|[Hp _]]; [intros p; rewrite Hcount; simpl; by rewrite Hz|].
    specialize (Hout Sell). rewrite Hcount in Hout. simpl in Hout. injection Hout as Hout. lia.
  - destruct Ha as [[_ ->]|[Hp _]]; [done|]. specialize (Hempty ask). rewrite Hcount in Hempty. simpl in Hempty. injection Hempty as E. lia.
Qed.

Lemma best_quotes_exact_witness :
  ∃ bid ask, best_bid demo_book = Ret bid ∧ best_ask demo_book = Ret ask ∧
    (bid = kNoPrice ↔ ∀ p, order_count_at demo_book Buy p = Ret 0) ∧
    (ask = kNoPrice ↔ ∀ p, order_count_at demo_book Sell p = Ret 0).
Proof.
  destruct (best_quotes_exact demo_config demo_book demo_reachable) as (bid & ask & H1 & H2 & _ & _ & H3).
  exists bid, ask. split; [exact H1|]. split; [exact H2|]. apply H3. vm_compute. reflexivity.
Defined.

(** A bid at the least price of a band that starts at [kNoPrice] is quoted as no bid. *)
Lemma sentinel_ambiguous :
  ∃ b0 b, make (mkConfig kNoPrice (kNoPrice + 3) 2) = Ret b0 ∧ add b0 1 Buy kNoPrice 5 = Ret (b, Ok) ∧
    best_bid b = Ret kNoPrice ∧ order_count_at b Buy kNoPrice = Ret 1.
Proof. eexists _, _. repeat (split; [vm_compute; reflexivity|]). vm_compute. reflexivity. Qed.

(** ** Price-time priority *)

(** A successful [add] puts the order at the back of its level's queue,
    walked through the links of the pool, and leaves every other level alone. *)
Lemma add_joins_back c b id s p q b' :
  reachable c b → 0 ≤ q < 2 ^ 32 → add b id s p q = Ret (b', Ok) →
  in_band b p = true ∧
  ∀ sd p', in_band b p' = true →
    ∃ os, level_orders b sd p' = Ret os ∧
      level_orders b' sd p' = Ret (os ++ if decide (sd = is_buy s ∧ p' = p)
                                         then [mkAOrder id s p q] else []).
Proof.
  intros (B & HB)%reachable_sized Hq Hrun.
  destruct (step_observed HB (add_simulates b B id s p q HB Hq) Hrun) as (Hok & HO & HO' & Hband).
  unfold spec_add in *. rewrite <- (refines_band (proj2 HB)) in Hok, HO'.
  destruct (id =? 0); [done|]. destruct (q =? 0); [done|].
  destruct (in_band b p) eqn:Hp; [|done]. cbn [negb] in *.
  destruct (a_find id B); [done|]. destruct (_ <? _); [|done]. split; [done|].
  intros sd p' Hp'. exists (a_queue sd p' B). split; [by apply HO|].
  rewrite (ob_level _ _ _ HO') by (by rewrite Hband). cbn [fst].
  by rewrite a_queue_app, a_queue_one.
Qed.

Lemma add_joins_back_witness :
  ∃ b0 b', reachable demo_config b0 ∧ add b0 11 Buy 101 5 = Ret (b', Ok) ∧ in_band b0 101 = true.
Proof.
  destruct (make demo_config) as [b0|] eqn:Hb; [|vm_compute in Hb; congruence].
  destruct (add b0 11 Buy 101 5) as [[b' r]|] eqn:Hadd.
  2: vm_compute in Hb; injection Hb as <-; vm_compute in Hadd; congruence.
  exists b0, b'.
  assert (reachable demo_config b0) as Hr by (apply reach_make; [apply demo_limits|done]).
  assert (r = Ok) as ->.
  { vm_compute in Hb; injection Hb as <-; vm_compute in Hadd; congruence. }
  split; [done|]. split; [done|].
  apply (add_joins_back demo_config b0 11 Buy 101 5 b' Hr); [lia|done].
Defined.

(** A successful [cancel] removes exactly the order named, from its queue
    and from the index; the orders behind it keep their relative priority. *)
Lemma cancel_removes c b id b' :
  reachable c b → cancel b id = Ret (b', Ok) →
  lookup_order b' id = Ret None ∧
  (∀ id', id' ≠ id → lookup_order b' id' = lookup_order b id') ∧
  ∀ sd p, in_band b p = true →
    ∃ os, level_orders b sd p = Ret os ∧ level_orders b' sd p = Ret (a_remove id os).
Proof.
  intros (B & HB)%reachable_sized Hrun.
  destruct (step_observed HB (cancel_simulates b B id HB) Hrun) as (Hok & HO & HO' & Hband).
  unfold spec_cancel in *. destruct (a_find id B) as [o|] eqn:Hfind; [|done]. simpl in *.
  split; [|split].
  - rewrite (ob_lookup _ _ _ HO'). f_equal. apply a_find_None. intros a.
    unfold a_remove. rewrite list_elem_of_filter. tauto.
  - intros id' Hne. rewrite (ob_lookup _ _ _ HO'), (ob_lookup _ _ _ HO). f_equal.
    by apply a_find_remove_ne.
  - intros sd p Hp. exists (a_queue sd p B). split; [by apply HO|].
    rewrite (ob_level _ _ _ HO') by (by rewrite Hband). by rewrite a_queue_remove.
Qed.

Lemma cancel_removes_witness :
  ∃ b', cancel demo_book 11 = Ret (b', Ok) ∧ lookup_order b' 11 = Ret None.
Proof.
  destruct (cancel demo_book 11) as [[b' r]|] eqn:Hc; [|vm_compute in Hc; congruence].
  assert (r = Ok) as -> by (vm_compute in Hc; congruence).
  exists b'. split; [reflexivity|]. apply (cancel_removes demo_config demo_book 11 b' demo_reachable Hc).
Defined.

(** C32. [modify] keeps an order's time priority exactly when its price is
    unchanged and its quantity shrinks; any other accepted change takes it out
    of its old queue and puts it at the back of the queue of the new price. *)
Theorem modify_priority c b id p q b' :
  reachable c b → 0 ≤ q < 2 ^ 32 → modify b id p q = Ret (b', Ok) →
  ∃ o, lookup_order b id = Ret (Some o) ∧
    ∀ sd p', in_band b p' = true →
      ∃ os, level_orders b sd p' = Ret os ∧
        level_orders b' sd p' = Ret
          (if (p =? a_price o) && (q <? a_qty o) then a_resize id q os
           else a_remove id os ++ if decide (sd = is_buy (a_side o) ∧ p' = p)
                                  then [mkAOrder id (a_side o) p q] else []).
Proof.
  intros (B & HB)%reachable_sized Hq Hrun.
  destruct (step_observed HB (modify_simulates b B id p q HB Hq) Hrun) as (Hok & HO & HO' & Hband).
  unfold spec_modify in *. destruct (q =? 0); [done|].
  destruct (negb (a_in_band (limits_of c) p)); [done|].
  destruct (a_find id B) as [o|] eqn:Hfind; [|done].
  exists o. split; [by rewrite (ob_lookup _ _ _ HO), Hfind|].
  intros sd p' Hp'. exists (a_queue sd p' B). split; [by apply HO|].
  rewrite (ob_level _ _ _ HO') by (by rewrite Hband). f_equal.
  destruct ((p =? a_price o) && (q <? a_qty o)); cbn [fst]; [apply a_queue_resize|].
  by rewrite a_queue_app, a_queue_one, a_queue_remove.
Qed.

Lemma modify_priority_witness :
  ∃ b' o, modify demo_book 11 102 5 = Ret (b', Ok) ∧ lookup_order demo_book 11 = Ret (Some o).
Proof.
  destruct (modify demo_book 11 102 5) as [[b' r]|] eqn:Hc; [|vm_compute in Hc; congruence].
  assert (r = Ok) as -> by (vm_compute in Hc; congruence). exists b'.
  destruct (modify_priority demo_config demo_book 11 102 5 b' demo_reachable) as [o [Ho _]];
    [lia|exact Hc|]. exists o. split; [reflexivity|exact Ho].
Defined.

(** C38. [execute] takes exactly [min(quantity, resting)] from the order's level
    and from no other; a complete fill removes the order, a partial fill leaves
    it in its place in the queue with the rest. *)
Theorem execute_fills c b id q b' :
  reachable c b → 0 ≤ q < 2 ^ 32 → execute b id q = Ret (b', Ok) →
  ∃ o, lookup_order b id = Ret (Some o) ∧
    lookup_order b' id = Ret (if a_qty o <=? q then None
      else Some (mkAOrder id (a_side o) (a_price o) (a_qty o - q))) ∧
    ∀ sd p, in_band b p = true →
      ∃ os, level_orders b sd p = Ret os ∧
        level_orders b' sd p =
          Ret (if a_qty o <=? q then a_remove id os else a_resize id (a_qty o - q) os).
Proof.
  intros (B & HB)%reachable_sized Hq Hrun.
  destruct (step_observed HB (execute_simulates b B id q HB Hq) Hrun) as (Hok & HO & HO' & Hband).
  unfold spec_execute in *. destruct (q =? 0); [done|].
  destruct (a_find id B) as [o|] eqn:Hfind; [|done].
  exists o. split; [by rewrite (ob_lookup _ _ _ HO), Hfind|]. split.
  - rewrite (ob_lookup _ _ _ HO'). f_equal. destruct (a_qty o <=? q); simpl.
    + apply a_find_None. intros a. unfold a_remove. rewrite list_elem_of_filter. tauto.
    + by apply a_find_resize.
  - intros sd p Hp. exists (a_queue sd p B). split; [by apply HO|].
    rewrite (ob_level _ _ _ HO') by (by rewrite Hband).
    destruct (a_qty o <=? q); simpl; by rewrite ?a_queue_remove, ?a_queue_resize.
Qed.

Lemma execute_fills_witness :
  ∃ b' o, execute demo_book 11 2 = Ret (b', Ok) ∧ lookup_order demo_book 11 = Ret (Some o).
Proof.
  destruct (execute demo_book 11 2) as [[b' r]|] eqn:Hc; [|vm_compute in Hc; congruence].
  assert (r = Ok) as -> by (vm_compute in Hc; congruence). exists b'.
  destruct (execute_fills demo_config demo_book 11 2 b' demo_reachable) as [o [Ho _]];
    [lia|exact Hc|]. exists o. split; [reflexivity|exact Ho].
Defined.

(** ** Structure of the pool *)

(** C12. Every level is a well-formed doubly linked queue: the walk along [next]
    from [head] ends, the walk along [prev] from [tail] is its reverse, every
    order on it belongs to that level, has a positive quantity and is the one
    the index finds under its id; the cached count and total are exact. *)
Theorem level_queue_wf c b s p :
  reachable c b → in_band b p = true →
  ∃ q, level_walk b (is_buy s) p = Ret q ∧ level_walk_back b (is_buy s) p = Ret (reverse q) ∧
    order_count_at b s p = Ret (Z.of_nat (length q)) ∧ quantity_at b s p = Ret (sum_qty q.*2) ∧
    ∀ slot o, (slot, o) ∈ q → at_level (is_buy s) p o ∧ 0 < a_qty o < 2 ^ 32 ∧
      lookup_order b (a_id o) = Ret (Some o).
Proof.
  intros (B & _ & HR)%reachable_sized Hp. pose proof (refines_observed _ _ _ HR) as HO.
  rewrite (refines_band HR) in Hp. destruct HR as (G & fl & HG & <-).
  exists (equeue (is_buy s) p G).
  destruct (level_walks_run HG (is_buy s) p Hp) as [-> ->].
  rewrite (ob_count _ _ _ HO), (ob_quantity _ _ _ HO), <- equeue_orders, length_fmap.
  repeat (split; [done|]). intros slot o [Hl Hin]%equeue_elem. split; [done|].
  split; [apply (qr_ok _ _ _ _ _ (proj2 (rp_queues _ _ _ _ HG)) _ _ Hin)|].
  rewrite (ob_lookup _ _ _ HO). f_equal. pose proof (rp_ids _ _ _ _ HG) as Hnd.
  apply list_elem_of_split in Hin as (G1 & G2 & ->).
  rewrite fmap_app, fmap_cons in Hnd |- *. by apply a_find_split.
Qed.

Lemma level_queue_wf_witness :
  ∃ q, level_walk demo_book true 101 = Ret q ∧ level_walk_back demo_book true 101 = Ret (reverse q).
Proof.
  destruct (level_queue_wf demo_config demo_book Buy 101 demo_reachable) as (q & H1 & H2 & _);
    [reflexivity|]. exists q. split; [exact H1|exact H2].
Defined.

(** C13. Every slot of the pool is either on the free list or in the queue of
    exactly one price level, never both and never neither: slots are not leaked
    and not handed out twice. *)
Theorem pool_partition c b :
  reachable c b →
  ∃ free, free_walk b = Ret free ∧ NoDup free.*1 ∧
    Z.of_nat (length free) + live_order_count b = max_orders c ∧
    ∀ slot, 0 ≤ slot < max_orders c →
      ((slot ∈ free.*1) ∧
       ∀ sd p q, in_band b p = true → level_walk b sd p = Ret q → slot ∉ q.*1) ∨
      ((slot ∉ free.*1) ∧
       ∃ sd p, in_band b p = true ∧ ∀ sd' p', in_band b p' = true →
         ∃ q, level_walk b sd' p' = Ret q ∧ (slot ∈ q.*1 ↔ sd' = sd ∧ p' = p)).
Proof.
  intros (B & _ & HR)%reachable_sized. pose proof (refines_band HR) as Hband.
  destruct HR as (G & fl & HG & _). destruct (free_walk_run HG) as (free & Hfree & Hfl).
  pose proof (rp_slots _ _ _ _ HG) as Hperm.
  assert (NoDup (G.*1 ++ fl)) as Hnd by (rewrite Hperm; apply NoDup_seqZ).
  apply NoDup_app in Hnd as (HndG & Hdis & Hndf).
  exists free. rewrite Hfl. split; [done|]. split; [done|]. split.
  { unfold live_order_count. rewrite (rp_live _ _ _ _ HG). pose proof (pool_length HG).
    pose proof (rp_len _ _ _ _ HG) as Hlen. unfold vlen in Hlen. simpl in Hlen.
    rewrite <- (length_fmap fst free), Hfl. lia. }
  intros slot Hslot. apply (slot_range HG) in Hslot as [Hs|Hs].
  - right. split; [by apply Hdis|]. apply list_elem_of_fmap in Hs as ([x a] & -> & Hin).
    exists (is_buy (a_side a)), (a_price a). split.
    { rewrite Hband. apply (in_band_true HG), (qr_ok _ _ _ _ _ (proj2 (rp_queues _ _ _ _ HG)) _ _ Hin). }
    intros sd' p' Hp'. rewrite Hband in Hp'. eexists. split; [by apply (level_walks_run HG)|].
    rewrite list_elem_of_fmap. split.
    + intros ([y a'] & E & [[Hs' Hp'']  Hin']%equeue_elem). simpl in *. subst y.
      assert (a' = a) as -> by (by eapply NoDup_fst_inj). done.
    + intros [-> ->]. exists (x, a). split; [done|]. by apply equeue_elem.
  - left. split; [done|]. intros sd p q Hp Hq Hin. rewrite Hband in Hp.
    destruct (level_walks_run HG sd p Hp) as [Hq' _]. rewrite Hq in Hq'. injection Hq' as ->.
    apply (Hdis slot); [|done]. apply list_elem_of_fmap in Hin as ([x a] & -> & [_ Hin]%equeue_elem).
    apply list_elem_of_fmap. by exists (x, a).
Qed.

Lemma pool_partition_witness :
  ∃ free, free_walk demo_book = Ret free ∧ NoDup free.*1 ∧
    Z.of_nat (length free) + live_order_count demo_book = 3.
Proof.
  destruct (pool_partition demo_config demo_book demo_reachable) as (free & H1 & H2 & H3 & _).
  exists free. split; [exact H1|]. split; [exact H2|exact H3].
Defined.

(** ** Errors *)

(** C33. A call that reports anything but [Ok] has changed nothing: the book is
    the same value, field by field. This holds of any book, also a corrupt one. *)
Theorem rejected_unchanged (b : t) o b' r :
  apply_op b o = Ret (b', Some r) → r ≠ Ok → b' = b.
Proof.
  destruct o; simpl; unfold with_result, add, cancel, modify, execute, acquire_slot;
    intros Hrun Hr; run_inv; subst; try done; congruence.
Qed.

Lemma rejected_unchanged_witness :
  ∃ b', apply_op demo_book (OpAdd 14 Sell 103 1) = Ret (b', Some PoolExhausted) ∧ b' = demo_book.
Proof.
  destruct (apply_op demo_book (OpAdd 14 Sell 103 1)) as [[b' r]|] eqn:H; [|vm_compute in H; congruence].
  assert (r = Some PoolExhausted) as -> by (vm_compute in H; congruence).
  exists b'. split; [reflexivity|].
  apply (rejected_unchanged demo_book (OpAdd 14 Sell 103 1) b' PoolExhausted); [exact H|discriminate].
Defined.
