(* ===== verification/BookTypes.v ===== *)
(** * The members of the book keep their types

    The model computes with unbounded integers and reduces where C++ does. Here
    every member of every structure of the book is shown to stay inside its C++
    type, for any book, so that no reduction is missing from the model. *)

From S2P Require Import Prelude Message OrderIndex BookSpec BookInterface OrderBook.
From S2P Require Import OrderBookRep OrderBookTheorems BookProperties.
Import Book.

#[local] Open Scope Z_scope.
#[local] Open Scope llte_scope.

Definition is_u32 (z : Z) : Prop := 0 ≤ z < 2 ^ 32.
Definition is_u64 (z : Z) : Prop := 0 ≤ z < 2 ^ 64.
Definition is_i64 (z : Z) : Prop := int64_min ≤ z ≤ int64_max.

Record order_typed (o : Order) : Prop := {
  ot_id : is_u64 (o_id o);
  ot_price : is_i64 (o_price o);
  ot_quantity : is_u32 (o_quantity o);
  ot_next : is_u32 (o_next o);
  ot_prev : is_u32 (o_prev o)
}.

Record level_typed (l : Level) : Prop := {
  lt_total : is_u64 (total_quantity l);
  lt_count : is_u32 (order_count l);
  lt_head : is_u32 (head l);
  lt_tail : is_u32 (tail l)
}.

Record slot_typed (s : IndexSlot) : Prop := {
  st_key : is_u64 (key s);
  st_value : is_u32 (value s)
}.

Record typed (b : t) : Prop := {
  bt_min : is_i64 (min_price_ b);
  bt_max : is_i64 (max_price_ b);
  bt_bids : Forall level_typed (bid_levels_ b);
  bt_asks : Forall level_typed (ask_levels_ b);
  bt_pool : Forall order_typed (pool_ b);
  bt_index : Forall slot_typed (index_ b);
  bt_mask : is_u64 (index_mask_ b);
  bt_free : is_u32 (free_head_ b);
  bt_live : is_u64 (live_orders_ b);
  bt_best_bid : is_u64 (best_bid_level_ b);
  bt_best_ask : is_u64 (best_ask_level_ b)
}.

(** The arguments of a call, as the signatures type them. *)
Definition op_typed (o : op) : Prop :=
  match o with
  | OpAdd id _ price quantity | OpModify id price quantity => is_u64 id ∧ is_i64 price ∧ is_u32 quantity
  | OpCancel id => is_u64 id
  | OpExecute id quantity => is_u64 id ∧ is_u32 quantity
  | OpClear => True
  end.

Definition config_typed (c : Config) : Prop :=
  is_i64 (min_price c) ∧ is_i64 (max_price c) ∧ is_u64 (max_orders c).

(** ** Values *)

Create HintDb typing discriminated.

Lemma u32_typed z : is_u32 (u32 z).
Proof. by apply Z.mod_pos_bound. Qed.

Lemma u64_typed z : is_u64 (u64 z).
Proof. apply u64_range. Qed.

Lemma null_typed : is_u32 kNullOrder.
Proof. done. Qed.

Lemma no_level_typed : is_u64 kNoLevel.
Proof. done. Qed.

#[local] Hint Resolve u32_typed u64_typed null_typed no_level_typed : typing.
#[local] Hint Resolve ot_id ot_price ot_quantity ot_next ot_prev lt_total lt_count lt_head lt_tail
  st_key st_value : typing.
#[local] Hint Resolve bt_min bt_max bt_bids bt_asks bt_pool bt_index bt_mask bt_free bt_live
  bt_best_bid bt_best_ask : typing.

Lemma load_typed {A} (P : A → Prop) l i x : Forall P l → load l i = Ret x → P x.
Proof.
  intros Hl. unfold load, of_option. destruct (l⟦i⟧) eqn:E; [|done]. intros [= <-]. by eapply Forall_vget.
Qed.

Lemma assign_typed {A} (P : A → Prop) l i x l' : Forall P l → P x → assign l i x = Ret l' → Forall P l'.
Proof. intros Hl Hx. unfold assign. destruct (_ && _); [|done]. intros [= <-]. by apply Forall_vset. Qed.

(** ** Members *)

Lemma set_typed b : typed b →
  (∀ v, Forall order_typed v → typed (set_pool v b)) ∧ (∀ v, Forall slot_typed v → typed (set_index v b)) ∧
  (∀ v, is_u32 v → typed (set_free_head v b)) ∧ (∀ v, is_u64 v → typed (set_live v b)) ∧
  (∀ v, is_u64 v → typed (set_best_bid v b)) ∧ (∀ v, is_u64 v → typed (set_best_ask v b)) ∧
  (∀ s v, Forall level_typed v → typed (set_levels_for s v b)).
Proof.
  intros []. split_and!; intros; unfold set_levels_for; repeat case_match; by split.
Qed.

Lemma levels_typed b s : typed b → Forall level_typed (levels_for b s).
Proof. intros []. unfold levels_for. by case_match. Qed.

Lemma upd_order_typed b slot f b' :
  typed b → (∀ o, order_typed o → order_typed (f o)) → upd_order b slot f = Ret b' → typed b'.
Proof.
  intros Hb Hf Hrun. unfold upd_order in Hrun. run_inv. subst. apply (set_typed b Hb).
  eapply assign_typed; [exact (bt_pool _ Hb)| |done]. apply Hf. by eapply load_typed; [exact (bt_pool _ Hb)|].
Qed.

Lemma upd_level_typed b s i f b' :
  typed b → (∀ l, level_typed l → level_typed (f l)) → upd_level b s i f = Ret b' → typed b'.
Proof.
  intros Hb Hf Hrun. unfold upd_level in Hrun. run_inv. subst. apply (set_typed b Hb).
  pose proof (levels_typed b s Hb) as Hl. eapply assign_typed; [done| |done]. apply Hf. by eapply load_typed.
Qed.

(** Runs of member updates: the update of the last call, then the rest. *)
Ltac typed_updates :=
  repeat match goal with
  | H : upd_order ?b _ _ = Ret ?b', Hb : typed ?b |- _ =>
      assert (typed b') by (eapply (upd_order_typed b); [exact Hb| |exact H];
        let o := fresh in let Ho := fresh in intros o Ho; destruct Ho; split; simpl; eauto with typing);
      clear H
  | H : upd_level ?b _ _ _ = Ret ?b', Hb : typed ?b |- _ =>
      assert (typed b') by (eapply (upd_level_typed b); [exact Hb| |exact H];
        let l := fresh in let Hl := fresh in intros l Hl; destruct Hl; split; simpl; eauto with typing);
      clear H
  | H : load (pool_ ?b) _ = Ret ?o, Hb : typed ?b |- _ =>
      assert (order_typed o) by (eapply load_typed; [exact (bt_pool _ Hb)|exact H]); clear H
  | H : load (index_ ?b) _ = Ret ?e, Hb : typed ?b |- _ =>
      assert (slot_typed e) by (eapply load_typed; [exact (bt_index _ Hb)|exact H]); clear H
  | H : load (levels_for ?b ?s) _ = Ret ?l, Hb : typed ?b |- _ =>
      assert (level_typed l) by (eapply load_typed; [exact (levels_typed b s Hb)|exact H]); clear H
  end.

Lemma level_index_typed b price i : level_index b price = Ret i → is_u64 i.
Proof. intros Hrun. unfold level_index in Hrun. run_inv. subst. auto with typing. Qed.

Lemma acquire_typed b b' slot : typed b → acquire_slot b = Ret (b', slot) → typed b' ∧ is_u32 slot.
Proof.
  intros Hb Hrun. unfold acquire_slot in Hrun. run_inv; subst; [auto with typing|]. typed_updates.
  split; [apply (set_typed b Hb)|]; auto with typing.
Qed.

Lemma release_typed b slot b' : typed b → is_u32 slot → release_slot b slot = Ret b' → typed b'.
Proof.
  intros Hb Hs Hrun. unfold release_slot in Hrun. run_inv. subst.
  pose proof (bt_free _ Hb). typed_updates. by apply set_typed.
Qed.

Lemma link_back_typed b i s slot b' : typed b → is_u32 slot → link_back b i s slot = Ret b' → typed b'.
Proof.
  intros Hb Hs Hrun. unfold link_back in Hrun. run_inv; typed_updates; done.
Qed.

Lemma scan_down_typed ls n r : Z.of_nat n < 2 ^ 64 → scan_down ls n = Ret r → is_u64 (default kNoLevel r).
Proof.
  induction n as [|n IH]; intros Hn; simpl; [intros [= <-]; auto with typing|]. intros Hrun.
  run_inv; subst; simpl; [unfold is_u64; lia|]. apply IH; [lia|done].
Qed.

Lemma scan_up_typed fuel ls : ∀ i r, is_u64 i → scan_up fuel ls i = Ret r → is_u64 (default kNoLevel r).
Proof.
  induction fuel as [|fuel IH]; intros i r Hi Hrun; simpl in Hrun; [done|].
  run_inv; subst; simpl; [done| |auto with typing]. eapply IH; [|done]. auto with typing.
Qed.

Lemma emptied_typed b s i b' : typed b → is_u64 i → on_level_emptied b s i = Ret b' → typed b'.
Proof.
  intros Hb Hi Hrun. unfold on_level_emptied in Hrun. run_inv; subst; try done; apply (set_typed b Hb).
  - eapply scan_down_typed; [|done]. unfold is_u64 in Hi. lia.
  - eapply scan_up_typed; [|done]. auto with typing.
Qed.

Lemma unlink_typed b i s slot b' : typed b → is_u64 i → unlink b i s slot = Ret b' → typed b'.
Proof.
  intros Hb Hi Hrun. unfold unlink in Hrun. run_inv; subst; typed_updates; try done; by eapply emptied_typed.
Qed.

Lemma filled_typed b s i : typed b → is_u64 i → typed (note_level_filled b s i).
Proof. intros Hb Hi. unfold note_level_filled. repeat case_match; try done; by apply set_typed. Qed.

(** ** The index *)

Lemma insert_typed index mask id slot index' :
  Forall slot_typed index → is_u64 id → is_u32 slot → index_insert index mask id slot = Ret index' →
  Forall slot_typed index'.
Proof.
  intros Hi Hid Hs. unfold index_insert. generalize (length index), (ideal_position mask id).
  intros fuel. induction fuel as [|fuel IH]; intros p Hrun; simpl in Hrun; [done|].
  run_inv; [|by eapply IH]. by eapply assign_typed; [| |exact Hrun].
Qed.

Lemma erase_loop_typed fuel mask : ∀ index hole index',
  Forall slot_typed index → erase_loop fuel index mask hole = Ret index' → Forall slot_typed index'.
Proof.
  induction fuel as [|fuel IH]; intros index hole index' Hi Hrun; simpl in Hrun; [done|].
  apply bind_Ret_inv in Hrun as (here & Hh & Hrun). apply bind_Ret_inv in Hrun as (ix & Hx & Hrun).
  apply bind_Ret_inv in Hrun as (found & _ & Hrun).
  assert (Forall slot_typed ix) as Hix.
  { eapply assign_typed; [done| |done]. split; [done|]. simpl. apply st_value. by eapply load_typed. }
  destruct found as [probe|]; [|by injection Hrun as <-].
  run_inv. eapply IH; [|done]. eapply assign_typed; [exact Hix| |done]. by eapply load_typed.
Qed.

(** ** Calls *)

Lemma add_typed b id s p q b' r :
  typed b → is_u64 id → is_i64 p → is_u32 q → add b id s p q = Ret (b', r) → typed b'.
Proof.
  intros Hb Hid Hp Hq Hrun. unfold add in Hrun. run_inv; subst; try done.
  - by eapply acquire_typed.
  - match goal with H : acquire_slot _ = _ |- _ => apply acquire_typed in H as [Ht Hs]; [|done] end.
    match goal with H : place_order _ _ _ _ _ _ = _ |- _ => unfold place_order in H; rename H into Hrun end.
    run_inv. subst. typed_updates.
    match goal with H : level_index _ _ = _ |- _ => apply level_index_typed in H end.
    match goal with H : link_back _ _ _ _ = _ |- _ => apply link_back_typed in H; [|done..] end.
    apply set_typed; [|auto with typing]. apply set_typed; [by apply filled_typed|].
    eapply insert_typed; [|exact Hid|exact Hs|done]. by apply bt_index, filled_typed.
Qed.

Lemma remove_typed b position i s slot b' :
  typed b → is_u64 i → is_u32 slot → remove_order b position i s slot = Ret b' → typed b'.
Proof.
  intros Hb Hi Hs Hrun. unfold remove_order in Hrun. run_inv. subst.
  match goal with H : unlink _ _ _ _ = _ |- _ => apply unlink_typed in H as Hu; [|done..] end.
  apply set_typed; [|auto with typing]. eapply release_typed; [|done..]. apply set_typed; [done|].
  by eapply erase_loop_typed; [|done]; apply bt_index.
Qed.

Lemma cancel_typed b id b' r : typed b → cancel b id = Ret (b', r) → typed b'.
Proof.
  intros Hb Hrun. unfold cancel in Hrun. run_inv; subst; [done|]. typed_updates.
  eapply remove_typed; [done| | |done]; [by eapply level_index_typed|auto with typing].
Qed.

Lemma requeue_typed b i s slot p q b' :
  typed b → is_u64 i → is_u32 slot → is_i64 p → is_u32 q → requeue b i s slot p q = Ret b' → typed b'.
Proof.
  intros Hb Hi Hs Hp Hq Hrun. unfold requeue in Hrun. run_inv. subst.
  match goal with H : unlink _ _ _ _ = _ |- _ => apply unlink_typed in H; [|done..] end.
  typed_updates. match goal with H : link_back _ _ _ _ = _ |- _ => apply link_back_typed in H; [|done..] end.
  apply filled_typed; [done|]. by eapply level_index_typed.
Qed.

Lemma modify_typed b id p q b' r :
  typed b → is_i64 p → is_u32 q → modify b id p q = Ret (b', r) → typed b'.
Proof.
  intros Hb Hp Hq Hrun. unfold modify in Hrun. run_inv; subst; try done; typed_updates; [done|].
  eapply requeue_typed; [exact Hb| | |exact Hp|exact Hq|done]; [by eapply level_index_typed|auto with typing].
Qed.

Lemma execute_typed b id q b' r : typed b → execute b id q = Ret (b', r) → typed b'.
Proof.
  intros Hb Hrun. unfold execute in Hrun. run_inv; subst; try done; typed_updates; [|done].
  eapply remove_typed; [exact Hb| | |done]; [by eapply level_index_typed|auto with typing].
Qed.

Lemma thread_typed fuel slots : ∀ i pool pool',
  Forall order_typed pool → thread_pool fuel slots i pool = Ret pool' → Forall order_typed pool'.
Proof.
  induction fuel as [|fuel IH]; intros i pool pool' Hp Hrun; simpl in Hrun; [done|].
  destruct (i <? slots); [|by injection Hrun as <-].
  apply bind_Ret_inv in Hrun as (o & Ho & Hrun). apply bind_Ret_inv in Hrun as (p1 & H1 & Hrun).
  eapply IH; [|done]. eapply assign_typed; [exact Hp| |done].
  apply (load_typed order_typed) in Ho as [? ? ? ? ?]; [|done]. split; simpl; try done. case_match; auto with typing.
Qed.

Lemma clear_typed b b' : typed b → clear b = Ret b' → typed b'.
Proof.
  intros [] Hrun. unfold clear in Hrun. run_inv. subst. split; simpl; try done.
  - apply Forall_fmap, Forall_forall. by intros.
  - apply Forall_fmap, Forall_forall. by intros.
  - by eapply thread_typed.
  - apply Forall_fmap, Forall_forall. by intros.
  - by case_match.
Qed.

Lemma make_typed c b : config_typed c → make c = Ret b → typed b.
Proof.
  intros (Hmin & Hmax & Ho) Hrun. unfold make in Hrun.
  apply bind_Ret_inv in Hrun as (span & _ & Hrun). apply bind_Ret_inv in Hrun as (n & _ & Hrun).
  eapply clear_typed; [|exact Hrun]. split; simpl; try done; try (by apply Forall_replicate). auto with typing.
Qed.

Lemma apply_op_typed b o b' r : typed b → op_typed o → apply_op b o = Ret (b', r) → typed b'.
Proof.
  intros Hb Ho Hrun. destruct o as [id s p q|id|id p q|id q|]; simpl in Ho, Hrun; unfold with_result in Hrun;
    run_inv; subst.
  - destruct Ho as (Hid & Hp & Hq). by eapply add_typed.
  - by eapply cancel_typed.
  - destruct Ho as (_ & Hp & Hq). by eapply modify_typed.
  - by eapply execute_typed.
  - by eapply clear_typed.
Qed.

(** ** The property *)

(** The book is well typed. For a configuration and calls whose arguments
    have their C++ types, every member of every structure of the book (ids,
    prices, quantities, links, level totals and counts, index entries, the
    cached levels and the counters) has its C++ type after construction and after
    any sequence of calls that return; and so have the answers of the queries. *)
Lemma book_well_typed c os b0 b rs :
  config_typed c → Forall op_typed os → make c = Ret b0 → run_ops b0 os = Ret (b, rs) →
  typed b ∧
  (∀ p, best_bid b = Ret p ∨ best_ask b = Ret p → is_i64 p) ∧
  (∀ s p q, quantity_at b s p = Ret q → is_u64 q) ∧ (∀ s p n, order_count_at b s p = Ret n → is_u32 n).
Proof.
  intros Hc Hos Hmake Hrun.
  assert (typed b) as Hb.
  { apply (make_typed c) in Hmake; [|done]. revert b0 rs Hmake Hrun.
    induction Hos as [|o os Ho _ IH]; intros b0 rs Hb0 Hrun; simpl in Hrun; run_inv; subst; [done|].
    eapply IH; [|done]. by eapply apply_op_typed. }
  split; [done|]. split; [|split].
  - intros p [H|H]; unfold best_bid, best_ask, level_price, i64, in_i64 in H; run_inv; subst; try done;
      match goal with H : _ && _ = true |- _ => apply andb_true_iff in H as [?%Z.leb_le ?%Z.leb_le] end;
      unfold is_i64; lia.
  - intros s p q H. unfold quantity_at in H. run_inv; subst; typed_updates; [done|auto with typing].
  - intros s p n H. unfold order_count_at in H. run_inv; subst; typed_updates; [done|auto with typing].
Qed.

Lemma book_well_typed_witness :
  ∃ b0 b rs, make demo_config = Ret b0 ∧ run_ops b0 demo_ops = Ret (b, rs) ∧ typed b.
Proof.
  destruct (make demo_config) as [b0|] eqn:Hb0; [|vm_compute in Hb0; congruence].
  destruct (run_ops b0 demo_ops) as [[b rs]|] eqn:Hrun;
    [|vm_compute in Hb0; injection Hb0 as <-; vm_compute in Hrun; congruence].
  exists b0, b, rs. split; [reflexivity|]. split; [exact Hrun|].
  apply (book_well_typed demo_config demo_ops b0 b rs).
  - repeat split; vm_compute; congruence.
  - repeat constructor; vm_compute; congruence.
  - exact Hb0.
  - exact Hrun.
Defined.
