(* ===== verification/SpscQueue.v ===== *)
(** * The single-producer single-consumer ring

    [include/llte/spsc_queue.hpp], called from one thread at a time: the indices
    are 64-bit counters that wrap, the buffer position is the counter masked.
    The queue is proved to be a bounded FIFO through any number of operations,
    wrap-around of both counters included. What several threads can do with it
    is the subject of [SpscConcurrent]. *)

From S2P Require Import Prelude Message.

#[local] Open Scope Z_scope.
#[local] Open Scope llte_scope.

(** ** The interface: a bounded FIFO *)

Class FifoOps (Q T : Type) := {
  q_push : Q → T → outcome (Q * bool);
  q_pop : Q → outcome (Q * option T)
}.

Class FifoLaws (Q T : Type) {ops : FifoOps Q T} (cap : Z) (R : Q → list T → Prop) : Prop := {
  law_push q l v : R q l →
    ∃ q', q_push q v = Ret (q', bool_decide (vlen l < cap)) ∧
      R q' (if decide (vlen l < cap) then l ++ [v] else l);
  law_pop q l : R q l → ∃ q', q_pop q = Ret (q', hd_error l) ∧ R q' (tail l)
}.

Inductive call (T : Type) := CPush (v : T) | CPop.
Arguments CPush {T} v.
Arguments CPop {T}.

Inductive answer (T : Type) := APush (accepted : bool) | APop (out : option T).
Arguments APush {T} accepted.
Arguments APop {T} out.

Definition run_call `{FifoOps Q T} (q : Q) (c : call T) : outcome (Q * answer T) :=
  match c with
  | CPush v => '(q, b) ← q_push q v; Ret (q, APush b)
  | CPop => '(q, o) ← q_pop q; Ret (q, APop o)
  end.

Fixpoint run_calls `{FifoOps Q T} (q : Q) (cs : list (call T)) : outcome (Q * list (answer T)) :=
  match cs with
  | [] => Ret (q, [])
  | c :: cs =>
      '(q, a) ← run_call q c;
      '(q, rest) ← run_calls q cs;
      Ret (q, a :: rest)
  end.

Definition spec_call {T} (cap : Z) (l : list T) (c : call T) : list T * answer T :=
  match c with
  | CPush v => if decide (vlen l < cap) then (l ++ [v], APush true) else (l, APush false)
  | CPop => (tail l, APop (hd_error l))
  end.

Fixpoint spec_calls {T} (cap : Z) (l : list T) (cs : list (call T)) : list T * list (answer T) :=
  match cs with
  | [] => (l, [])
  | c :: cs =>
      let '(l, a) := spec_call cap l c in
      let '(l, rest) := spec_calls cap l cs in
      (l, a :: rest)
  end.

(** What was accepted and what was delivered, in order. *)
Fixpoint accepted {T} (cs : list (call T)) (ans : list (answer T)) : list T :=
  match cs, ans with
  | CPush v :: cs, APush true :: ans => v :: accepted cs ans
  | _ :: cs, _ :: ans => accepted cs ans
  | _, _ => []
  end.

Definition delivered {T} (ans : list (answer T)) : list T :=
  omap (λ a, match a with APop o => o | APush _ => None end) ans.

Section fifo_client.
Context `{FifoLaws Q T cap R}.

Lemma run_calls_spec cs : ∀ q l,
  R q l →
  ∃ q', run_calls q cs = Ret (q', (spec_calls cap l cs).2) ∧ R q' (spec_calls cap l cs).1.
Proof using H.
  induction cs as [|c cs IH]; intros q l HR; [by exists q|].
  assert (∃ q1, run_call q c = Ret (q1, (spec_call cap l c).2) ∧ R q1 (spec_call cap l c).1)
    as (q1 & Hc & HR1).
  { destruct c as [v|]; simpl.
    - destruct (law_push q l v HR) as (q1 & -> & HR1). exists q1. simpl.
      case_decide; [rewrite bool_decide_true by done|rewrite bool_decide_false by done]; done.
    - destruct (law_pop q l HR) as (q1 & -> & HR1). by exists q1. }
  simpl. rewrite Hc. simpl. destruct (spec_call cap l c) as [l1 a].
  destruct (IH q1 l1 HR1) as (q2 & -> & HR2). simpl.
  destruct (spec_calls cap l1 cs) as [l2 rest]. by exists q2.
Qed.
End fifo_client.

(** Nothing is lost, duplicated or reordered. *)
Lemma spec_calls_conserve {T} cap (cs : list (call T)) : ∀ l,
  l ++ accepted cs (spec_calls cap l cs).2 =
  delivered (spec_calls cap l cs).2 ++ (spec_calls cap l cs).1.
Proof.
  induction cs as [|c cs IH]; intros l; simpl; [by rewrite app_nil_r|].
  destruct c as [v|]; simpl.
  - case_decide; simpl.
    + specialize (IH (l ++ [v])). destruct (spec_calls cap (l ++ [v]) cs) as [l2 rest]. simpl in *.
      by rewrite <- IH, <- app_assoc.
    + specialize (IH l). destruct (spec_calls cap l cs) as [l2 rest]. done.
  - specialize (IH (tail l)). destruct (spec_calls cap (tail l) cs) as [l2 rest]. simpl in *.
    destruct l as [|x l]; simpl in *; [done|]. by rewrite IH.
Qed.

Module Spsc.
Section queue.
Context {T : Type} (Capacity : Z).

Record t := mkQueue {
  write_idx_ : Z;
  cached_read_idx_ : Z;
  read_idx_ : Z;
  cached_write_idx_ : Z;
  buffer_ : list T
}.

Definition kMask : Z := u64 (Capacity - 1).

(** [SpscQueue()]: every counter zero, [T{}] in every slot. *)
Definition make (zero : T) : t := mkQueue 0 0 0 0 (replicate (Z.to_nat Capacity) zero).

Definition full (write cached_read : Z) : bool := Capacity <=? u64 (write - cached_read).

Definition try_push (q : t) (value : T) : outcome (t * bool) :=
  let write := write_idx_ q in
  let cached_read :=
    if full write (cached_read_idx_ q) then read_idx_ q else cached_read_idx_ q in
  if full write cached_read
  then Ret (mkQueue write cached_read (read_idx_ q) (cached_write_idx_ q) (buffer_ q), false)
  else
    buffer ← assign (buffer_ q) (Z.land write kMask) value;
    Ret (mkQueue (u64 (write + 1)) cached_read (read_idx_ q) (cached_write_idx_ q) buffer, true).

Definition try_pop (q : t) : outcome (t * option T) :=
  let read := read_idx_ q in
  let cached_write :=
    if read =? cached_write_idx_ q then write_idx_ q else cached_write_idx_ q in
  if read =? cached_write
  then Ret (mkQueue (write_idx_ q) (cached_read_idx_ q) read cached_write (buffer_ q), None)
  else
    out ← load (buffer_ q) (Z.land read kMask);
    Ret (mkQueue (write_idx_ q) (cached_read_idx_ q) (u64 (read + 1)) cached_write (buffer_ q),
         Some out).

Definition empty (q : t) : bool := read_idx_ q =? write_idx_ q.
Definition size (q : t) : Z := u64 (write_idx_ q - read_idx_ q).

(** ** Representation *)

Context (lg : Z) (Hlg : 0 ≤ lg < 64) (Hcap : Capacity = 2 ^ lg).

(** [W] and [R] count the pushes and pops since construction; the members hold
    them modulo 2^64, and copies that may lag behind. *)
Record counts (q : t) (W R cr cw : Z) : Prop := {
  ct_write : write_idx_ q = u64 W;
  ct_read : read_idx_ q = u64 R;
  ct_cached_read : cached_read_idx_ q = u64 cr;
  ct_cached_write : cached_write_idx_ q = u64 cw;
  ct_order : 0 ≤ cr ≤ R ∧ R ≤ cw ≤ W ∧ W ≤ cr + Capacity
}.

Definition rep (q : t) (l : list T) : Prop :=
  ∃ W R cr cw, counts q W R cr cw ∧ vlen (buffer_ q) = Capacity ∧ W = R + vlen l ∧
    ∀ i x, l⟦i⟧ = Some x → (buffer_ q)⟦(R + i) mod Capacity⟧ = Some x.

Lemma capacity_bounds : 0 < Capacity < 2 ^ 64.
Proof using Hlg Hcap. subst. split; [lia|]. apply Z.pow_lt_mono_r; lia. Qed.

Lemma masked n : Z.land (u64 n) kMask = n mod Capacity.
Proof using Hlg Hcap.
  pose proof capacity_bounds. unfold kMask. rewrite (u64_small (Capacity - 1)) by lia.
  replace (Capacity - 1) with (Z.ones lg) by (by rewrite Z.ones_equiv, <- Hcap, Z.sub_1_r).
  rewrite Z.land_ones by lia. rewrite <- Hcap. unfold u64. apply Z.mod_mod_divide.
  rewrite Hcap. exists (2 ^ (64 - lg)). rewrite <- Z.pow_add_r by lia. f_equal. lia.
Qed.

Lemma full_spec W cr : 0 ≤ cr ≤ W → W ≤ cr + Capacity →
  full (u64 W) (u64 cr) = (W =? cr + Capacity).
Proof using Hlg Hcap.
  intros. pose proof capacity_bounds. unfold full. rewrite u64_sub by lia.
  destruct (Z.leb_spec Capacity (W - cr)), (Z.eqb_spec W (cr + Capacity)); lia || done.
Qed.

(** Distinct live elements never share a slot. *)
Lemma slots_distinct R i j :
  0 ≤ i → i < j → j < i + Capacity → (R + i) mod Capacity ≠ (R + j) mod Capacity.
Proof using Hlg Hcap.
  intros Hi Hij Hj E. pose proof capacity_bounds.
  assert ((R + j - (R + i)) mod Capacity = 0) as H0.
  { rewrite Zminus_mod, E, Z.sub_diag. done. }
  replace (R + j - (R + i)) with (j - i) in H0 by lia. rewrite Z.mod_small in H0; lia.
Qed.

(** ** The operations on a represented queue *)

(** A drained queue after [n] pushes and [n] pops; [make] is the case [n = 0]. *)
Definition drained (n : Z) (zero : T) : t :=
  mkQueue (u64 n) (u64 n) (u64 n) (u64 n) (replicate (Z.to_nat Capacity) zero).

Lemma make_drained zero : make zero = drained 0 zero.
Proof. done. Qed.

Lemma drained_rep n zero : 0 ≤ n → rep (drained n zero) [].
Proof using Hlg Hcap.
  intros Hn. pose proof capacity_bounds. exists n, n, n, n.
  split; [split; simpl; try done; lia|]. split; [simpl; vlen_lia|].
  split; [rewrite Z.add_0_r; done|]. intros i x. by rewrite vget_nil.
Qed.

Lemma ring_rep_length q l : rep q l → vlen l ≤ Capacity.
Proof. intros (W & R & cr & cw & [_ _ _ _ H] & _ & HW & _). lia. Qed.

Lemma size_spec q l : rep q l → size q = vlen l.
Proof using Hlg Hcap.
  intros (W & R & cr & cw & [Hw Hr _ _ Ho] & _ & HW & _). pose proof capacity_bounds.
  unfold size. rewrite Hw, Hr, u64_sub; lia.
Qed.

Lemma empty_spec q l : rep q l → empty q = bool_decide (l = []).
Proof using Hlg Hcap.
  intros (W & R & cr & cw & [Hw Hr _ _ Ho] & _ & HW & _). pose proof capacity_bounds.
  unfold empty. rewrite Hw, Hr, u64_eqb by lia. unfold vlen in HW.
  destruct l; simpl in *; rewrite ?bool_decide_true, ?bool_decide_false by done;
    [apply Z.eqb_eq|apply Z.eqb_neq]; lia.
Qed.

(** Writing the next slot extends the queue. *)
Lemma buffer_push (buf : list T) R l v :
  vlen buf = Capacity → vlen l < Capacity →
  (∀ i x, l⟦i⟧ = Some x → buf⟦(R + i) mod Capacity⟧ = Some x) →
  ∀ i x, (l ++ [v])⟦i⟧ = Some x →
    buf⟦(R + vlen l) mod Capacity := v⟧⟦(R + i) mod Capacity⟧ = Some x.
Proof using Hlg Hcap.
  intros Hlen Hfit Hbuf i x Hi. pose proof capacity_bounds.
  pose proof (vget_Some_range _ _ _ Hi) as Hr. rewrite vlen_snoc in Hr.
  destruct (decide (i = vlen l)) as [->|Hne].
  - rewrite vget_snoc_eq in Hi. injection Hi as ->. apply vget_vset_eq.
    rewrite Hlen. apply Z.mod_pos_bound. lia.
  - rewrite vget_snoc_ne in Hi by lia. rewrite vget_vset_ne by (apply not_eq_sym, slots_distinct; lia).
    by apply Hbuf.
Qed.

Lemma try_push_spec q l v :
  rep q l →
  ∃ q', try_push q v = Ret (q', bool_decide (vlen l < Capacity)) ∧
    rep q' (if decide (vlen l < Capacity) then l ++ [v] else l).
Proof using Hlg Hcap.
  intros (W & R & cr & cw & [Hw Hr Hcr Hcw Ho] & Hlen & HW & Hbuf). pose proof capacity_bounds.
  unfold try_push. rewrite Hw, Hr, Hcr, full_spec by lia.
  assert (∃ cr', (if W =? cr + Capacity then u64 R else u64 cr) = u64 cr' ∧ cr ≤ cr' ≤ R ∧
    (W = cr' + Capacity ↔ W = R + Capacity)) as (cr' & -> & Hc1 & Hc2).
  { destruct (Z.eqb_spec W (cr + Capacity)); [exists R|exists cr]; split; done || lia. }
  rewrite full_spec by lia. destruct (Z.eqb_spec W (cr' + Capacity)) as [Hfull|Hroom].
  - eexists. split; [rewrite bool_decide_false by lia; done|]. rewrite decide_False by lia.
    exists W, R, cr', cw. split; [split; simpl; done || lia|done].
  - rewrite masked, assign_ok by (rewrite Hlen; apply Z.mod_pos_bound; lia). simpl.
    eexists. split; [rewrite bool_decide_true by lia; done|]. rewrite decide_True by lia.
    exists (W + 1), R, cr', cw. split; [split; simpl; rewrite ?u64_succ; done || lia|]. simpl.
    split; [by rewrite vlen_vset|]. split; [vlen_lia|].
    rewrite HW. apply buffer_push; [done|lia|done].
Qed.

Lemma try_pop_spec q l :
  rep q l → ∃ q', try_pop q = Ret (q', hd_error l) ∧ rep q' (tail l).
Proof using Hlg Hcap.
  intros (W & R & cr & cw & [Hw Hr Hcr Hcw Ho] & Hlen & HW & Hbuf). pose proof capacity_bounds.
  unfold try_pop. rewrite Hw, Hr, Hcw, u64_eqb by lia.
  assert (∃ cw', (if R =? cw then u64 W else u64 cw) = u64 cw' ∧ cw ≤ cw' ≤ W ∧
    (R = cw' ↔ R = W)) as (cw' & -> & Hc1 & Hc2).
  { destruct (Z.eqb_spec R cw); [exists W|exists cw]; split; done || lia. }
  rewrite u64_eqb by lia. destruct (Z.eqb_spec R cw') as [Hnone|Hsome].
  - assert (l = []) as -> by (destruct l; unfold vlen in HW; simpl in *; done || lia).
    eexists. split; [done|]. exists W, R, cr, cw'. split; [split; simpl; done || lia|done].
  - destruct l as [|x l]; [unfold vlen in HW; simpl in *; lia|].
    rewrite masked. pose proof (Hbuf 0 x eq_refl) as H0. rewrite Z.add_0_r in H0.
    rewrite (load_Some _ _ _ H0). simpl. eexists. split; [done|].
    exists W, (R + 1), cr, cw'. split; [split; simpl; rewrite ?u64_succ; done || lia|]. simpl.
    split; [done|]. split; [rewrite vlen_cons in HW; lia|]. intros i y Hi.
    pose proof (vget_Some_range _ _ _ Hi). rewrite <- (Hbuf (i + 1) y); [f_equal; f_equal; lia|].
    rewrite vget_cons_succ by lia. done.
Qed.
End queue.
Arguments t : clear implicits.

#[export] Instance spsc_ops {T} (Capacity : Z) : FifoOps (t T) T := {
  q_push := try_push Capacity;
  q_pop := try_pop Capacity
}.

(** The exponent of a capacity that [std::has_single_bit] accepts. *)
Class Exponent (lg : Z) : Prop := exponent : 0 ≤ lg < 64.

#[export] Instance spsc_laws {T} lg `{Hlg : Exponent lg} :
  FifoLaws (t T) T (ops := spsc_ops (2 ^ lg)) (2 ^ lg) (rep (2 ^ lg)).
Proof.
  split; intros; [by eapply try_push_spec|by eapply try_pop_spec].
Qed.
End Spsc.

(** ** Properties *)

Definition spsc_run {T} (lg : Z) (q : Spsc.t T) (cs : list (call T)) :=
  run_calls (H := Spsc.spsc_ops (2 ^ lg)) q cs.

(** For any power-of-two capacity and any sequence of [try_push] and
    [try_pop] calls, starting with the counters anywhere (so through the
    wrap-around of the 64-bit indices), every call returns, a push fails
    exactly when [Capacity] elements are inside, a pop fails exactly when there
    are none, and [size] and [empty] report the rest. *)
Lemma spsc_fifo {T} lg n (zero : T) cs :
  0 ≤ lg < 64 → 0 ≤ n →
  ∃ q, spsc_run lg (Spsc.drained (2 ^ lg) n zero) cs = Ret (q, (spec_calls (2 ^ lg) [] cs).2) ∧
    Spsc.size q = vlen (spec_calls (2 ^ lg) [] cs).1 ∧
    Spsc.empty q = bool_decide ((spec_calls (2 ^ lg) [] cs).1 = []).
Proof.
  intros Hlg Hn.
  assert (Spsc.Exponent lg) by done.
  destruct (run_calls_spec (H := Spsc.spsc_laws lg) cs _ []
    (Spsc.drained_rep (2 ^ lg) lg Hlg eq_refl n zero Hn)) as (q & Hq & HR).
  exists q. split; [done|].
  split; [by eapply Spsc.size_spec|by eapply Spsc.empty_spec].
Qed.

Lemma spsc_fifo_witness :
  ∃ q, spsc_run 1 (Spsc.drained 2 (2 ^ 64 - 1) 0) [CPush 7; CPush 8; CPush 9; CPop; CPush 9; CPop] =
      Ret (q, [APush true; APush true; APush false; APop (Some 7); APush true; APop (Some 8)]) ∧
    Spsc.size q = 1.
Proof.
  destruct (spsc_fifo 1 (2 ^ 64 - 1) 0 [CPush 7; CPush 8; CPush 9; CPop; CPush 9; CPop])
    as (q & H & Hs & _); [lia..|].
  exists q. split; [exact H|exact Hs].
Defined.

(** What the ring delivers is what it accepted, in the same order, with
    nothing lost, repeated or invented, except for the elements still inside,
    never more than [Capacity] of them. *)
Lemma spsc_conserves {T} lg (zero : T) cs q ans :
  0 ≤ lg < 64 → spsc_run lg (Spsc.make (2 ^ lg) zero) cs = Ret (q, ans) →
  ∃ inside, accepted cs ans = delivered ans ++ inside ∧ vlen inside = Spsc.size q ∧ vlen inside ≤ 2 ^ lg.
Proof.
  intros Hlg Hrun.
  assert (Spsc.Exponent lg) by done.
  destruct (run_calls_spec (H := Spsc.spsc_laws lg) cs _ []
    (Spsc.drained_rep (2 ^ lg) lg Hlg eq_refl 0 zero ltac:(lia))) as (q' & Hq & HR).
  unfold spsc_run in Hrun. rewrite Spsc.make_drained, Hq in Hrun. injection Hrun as <- <-.
  exists (spec_calls (2 ^ lg) [] cs).1. split; [apply (spec_calls_conserve _ _ [])|].
  rewrite (Spsc.size_spec _ lg Hlg eq_refl _ _ HR). split; [done|]. by eapply Spsc.ring_rep_length.
Qed.

Lemma spsc_conserves_witness :
  ∃ inside, accepted [CPush 7; CPush 8; CPop] [APush true; APush true; APop (Some 7)] =
    delivered [APush true; APush true; APop (Some 7)] ++ inside.
Proof.
  destruct (spsc_run 1 (Spsc.make 2 0) [CPush 7; CPush 8; CPop]) as [[q ans]|] eqn:E;
    [|vm_compute in E; congruence].
  assert (ans = [APush true; APush true; APop (Some 7)]) as -> by (vm_compute in E; congruence).
  destruct (spsc_conserves 1 0 [CPush 7; CPush 8; CPop] q _ ltac:(lia) E) as (inside & H & _).
  exists inside. exact H.
Defined.
