(* ===== verification/QueueVariants.v ===== *)
(** * The queues the benchmark compares

    [benchmarks/queue_benchmark.cpp] measures the ring of [spsc_queue.hpp] against
    a ring that reads the other side's index on every call (once with both indices
    on one cache line, once on two: the same code) and against a queue with a
    mutex. They are compared fairly only if they are the same queue; each is an
    instance of the interface [FifoLaws]. *)

From S2P Require Import Prelude Message SpscQueue.

#[local] Open Scope Z_scope.
#[local] Open Scope llte_scope.

(** ** Without cached indices *)

Module FalseSharedQueue.
Section queue.
Context {T : Type} (kCapacity : Z).

Record t := mkQueue { write_idx_ : Z; read_idx_ : Z; buffer_ : list T }.

Definition make (zero : T) : t := mkQueue 0 0 (replicate (Z.to_nat kCapacity) zero).

Definition try_push (q : t) (value : T) : outcome (t * bool) :=
  let write := write_idx_ q in
  if kCapacity <=? u64 (write - read_idx_ q) then Ret (q, false)
  else
    buffer ← assign (buffer_ q) (Z.land write (u64 (kCapacity - 1))) value;
    Ret (mkQueue (u64 (write + 1)) (read_idx_ q) buffer, true).

Definition try_pop (q : t) : outcome (t * option T) :=
  let read := read_idx_ q in
  if read =? write_idx_ q then Ret (q, None)
  else
    out ← load (buffer_ q) (Z.land read (u64 (kCapacity - 1)));
    Ret (mkQueue (write_idx_ q) (u64 (read + 1)) (buffer_ q), Some out).

Definition empty (q : t) : bool := read_idx_ q =? write_idx_ q.

(** A drained queue after [n] pushes and [n] pops. *)
Definition drained (n : Z) (zero : T) : t :=
  mkQueue (u64 n) (u64 n) (replicate (Z.to_nat kCapacity) zero).

(** As a ring whose cached indices are up to date. *)
Definition as_ring (q : t) : Spsc.t T :=
  Spsc.mkQueue (write_idx_ q) (read_idx_ q) (read_idx_ q) (write_idx_ q) (buffer_ q).

Definition rep (q : t) (l : list T) : Prop :=
  ∃ W R, Spsc.counts kCapacity (as_ring q) W R R W ∧ vlen (buffer_ q) = kCapacity ∧ W = R + vlen l ∧
    ∀ i x, l⟦i⟧ = Some x → (buffer_ q)⟦(R + i) mod kCapacity⟧ = Some x.

Context (lg : Z) (Hlg : 0 ≤ lg < 64) (Hcap : kCapacity = 2 ^ lg).

Lemma plain_drained_rep n zero : 0 ≤ n → rep (drained n zero) [].
Proof using Hlg Hcap.
  intros Hn. pose proof (Spsc.capacity_bounds _ lg Hlg Hcap). exists n, n.
  split; [split; simpl; try done; lia|]. split; [simpl; vlen_lia|].
  split; [by rewrite Z.add_0_r|]. intros i x. by rewrite vget_nil.
Qed.

Lemma plain_try_push_spec q l v :
  rep q l →
  ∃ q', try_push q v = Ret (q', bool_decide (vlen l < kCapacity)) ∧
    rep q' (if decide (vlen l < kCapacity) then l ++ [v] else l).
Proof using Hlg Hcap.
  intros (W & R & HC & Hlen & HW & Hbuf). pose proof HC as [Hw Hr _ _ Ho]. simpl in Hw, Hr.
  pose proof (Spsc.capacity_bounds _ lg Hlg Hcap).
  unfold try_push. fold (Spsc.kMask kCapacity). rewrite Hw, Hr, u64_sub by lia.
  destruct (Z.leb_spec kCapacity (W - R)) as [Hfull|Hroom].
  - exists q. split; [by rewrite bool_decide_false by lia|]. rewrite decide_False by lia. by exists W, R.
  - rewrite (Spsc.masked _ lg Hlg Hcap), assign_ok by (rewrite Hlen; apply Z.mod_pos_bound; lia). simpl.
    eexists. split; [rewrite bool_decide_true by lia; done|]. rewrite decide_True by lia.
    exists (W + 1), R. split; [split; simpl; rewrite ?u64_succ; done || lia|]. simpl.
    split; [by rewrite vlen_vset|]. split; [vlen_lia|].
    rewrite HW. apply (Spsc.buffer_push _ lg Hlg Hcap); [done|lia|done].
Qed.

Lemma plain_try_pop_spec q l : rep q l → ∃ q', try_pop q = Ret (q', hd_error l) ∧ rep q' (tail l).
Proof using Hlg Hcap.
  intros (W & R & HC & Hlen & HW & Hbuf). pose proof HC as [Hw Hr _ _ Ho]. simpl in Hw, Hr.
  pose proof (Spsc.capacity_bounds _ lg Hlg Hcap).
  unfold try_pop. fold (Spsc.kMask kCapacity). rewrite Hw, Hr, u64_eqb by lia.
  destruct l as [|x l].
  - destruct (Z.eqb_spec R W) as [_|]; [|unfold vlen in HW; simpl in HW; lia]. exists q. split; [done|]. by exists W, R.
  - rewrite vlen_cons in HW. pose proof (vlen_nonneg l). destruct (Z.eqb_spec R W) as [|_]; [lia|].
    rewrite (Spsc.masked _ lg Hlg Hcap). pose proof (Hbuf 0 x eq_refl) as Hx. rewrite Z.add_0_r in Hx.
    rewrite (load_Some _ _ _ Hx). simpl. eexists. split; [done|].
    exists W, (R + 1). split; [split; simpl; rewrite ?u64_succ; done || lia|]. simpl.
    split; [done|]. split; [lia|]. intros i y Hi.
    pose proof (vget_Some_range _ _ _ Hi). rewrite <- (Hbuf (i + 1) y); [f_equal; f_equal; lia|].
    by rewrite vget_cons_succ by lia.
Qed.
End queue.
Arguments t : clear implicits.

#[export] Instance uncached_ops {T} (kCapacity : Z) : FifoOps (t T) T := {
  q_push := try_push kCapacity;
  q_pop := try_pop kCapacity
}.

#[export] Instance uncached_laws {T} lg `{Hlg : Spsc.Exponent lg} :
  FifoLaws (t T) T (ops := uncached_ops (2 ^ lg)) (2 ^ lg) (rep (2 ^ lg)).
Proof. split; intros; [by eapply plain_try_push_spec|by eapply plain_try_pop_spec]. Qed.
End FalseSharedQueue.

(** The same members and bodies, aligned to cache lines. *)
Module AlignedQueue.
Definition t (T : Type) : Type := FalseSharedQueue.t T.
Definition try_push {T} (kCapacity : Z) (q : t T) (value : T) : outcome (t T * bool) :=
  FalseSharedQueue.try_push kCapacity q value.
Definition try_pop {T} (kCapacity : Z) (q : t T) : outcome (t T * option T) :=
  FalseSharedQueue.try_pop kCapacity q.
Definition empty {T} (q : t T) : bool := FalseSharedQueue.empty q.
End AlignedQueue.

(** ** With a mutex *)

Module MutexQueue.
Section queue.
Context {T : Type} (kCapacity : Z).

Record t := mkQueue { items_ : list T; done_ : bool }.

Definition make : t := mkQueue [] false.

(** [None]: the caller waits on the condition variable. *)
Definition push (q : t) (item : T) : option t :=
  if vlen (items_ q) <? kCapacity then Some (mkQueue (items_ q ++ [item]) (done_ q)) else None.

Definition pop (q : t) : option (t * option T) :=
  match items_ q with
  | [] => if done_ q then Some (q, None) else None
  | out :: rest => Some (mkQueue rest (done_ q), Some out)
  end.

Definition finish (q : t) : t := mkQueue (items_ q) true.
End queue.
Arguments t : clear implicits.

(** A call that would wait changes nothing and is reported as refused. *)
#[export] Instance mutex_ops {T} (kCapacity : Z) : FifoOps (t T) T := {
  q_push q v := Ret (match push kCapacity q v with Some q' => (q', true) | None => (q, false) end);
  q_pop q := Ret (match pop q with Some r => r | None => (q, None) end)
}.

#[export] Instance mutex_laws {T} kCapacity :
  FifoLaws (t T) T (ops := mutex_ops kCapacity) kCapacity (λ q l, items_ q = l).
Proof.
  split.
  - intros q l v <-. simpl. unfold push. destruct (Z.ltb_spec (vlen (items_ q)) kCapacity).
    + eexists. rewrite bool_decide_true, decide_True by done. done.
    + eexists. rewrite bool_decide_false, decide_False by lia. done.
  - intros q l <-. simpl. unfold pop. destruct (items_ q) as [|x l] eqn:E.
    + destruct (done_ q); by exists q.
    + by eexists.
Qed.
End MutexQueue.

(** ** Properties *)

(** C26. The ring is a bounded FIFO, and so is every variant of it. From any position
    of the 64-bit counters (so through their wrap-around) and for any sequence of
    pushes and pops, every call returns; the ring with cached indices, the rings
    without them and the mutex queue all give the answers of a list of at most
    [Capacity] elements (a push fails exactly when it is full, a pop exactly when it is
    empty, where the mutex queue waits), and [size] and [empty] report the rest. What
    was delivered is what was accepted, in order, but for the elements inside. *)
Theorem queue_variants_agree {T} lg n (zero : T) cs :
  0 ≤ lg < 64 → 0 ≤ n →
  ∃ ring plain aligned locked inside answers,
    spec_calls (2 ^ lg) [] cs = (inside, answers) ∧
    spsc_run lg (Spsc.drained (2 ^ lg) n zero) cs = Ret (ring, answers) ∧
    run_calls (H := FalseSharedQueue.uncached_ops (2 ^ lg)) (FalseSharedQueue.drained (2 ^ lg) n zero) cs
      = Ret (plain, answers) ∧
    run_calls (H := {| q_push := AlignedQueue.try_push (2 ^ lg); q_pop := AlignedQueue.try_pop (2 ^ lg) |})
      (FalseSharedQueue.drained (2 ^ lg) n zero) cs = Ret (aligned, answers) ∧
    run_calls (H := MutexQueue.mutex_ops (2 ^ lg)) MutexQueue.make cs = Ret (locked, answers) ∧
    accepted cs answers = delivered answers ++ inside ∧
    Spsc.size ring = vlen inside ∧ vlen inside ≤ 2 ^ lg ∧ Spsc.empty ring = bool_decide (inside = []) ∧
    MutexQueue.items_ locked = inside ∧
    Spsc.empty ring = FalseSharedQueue.empty plain ∧ Spsc.empty ring = AlignedQueue.empty aligned.
Proof.
  intros Hlg Hn. assert (Spsc.Exponent lg) by done.
  destruct (run_calls_spec (H := Spsc.spsc_laws lg) cs _ []
    (Spsc.drained_rep (2 ^ lg) lg Hlg eq_refl n zero Hn)) as (q1 & H1 & R1).
  destruct (run_calls_spec (H := FalseSharedQueue.uncached_laws lg) cs _ []
    (FalseSharedQueue.plain_drained_rep (2 ^ lg) lg Hlg eq_refl n zero Hn)) as (q2 & H2 & R2).
  destruct (run_calls_spec (H := MutexQueue.mutex_laws (2 ^ lg)) cs MutexQueue.make [] eq_refl)
    as (q3 & H3 & R3).
  exists q1, q2, q2, q3, (spec_calls (2 ^ lg) [] cs).1, (spec_calls (2 ^ lg) [] cs).2.
  split; [apply surjective_pairing|].
  split; [exact H1|]. split; [exact H2|]. split; [exact H2|]. split; [exact H3|].
  split; [apply (spec_calls_conserve _ _ [])|].
  rewrite (Spsc.size_spec _ lg Hlg eq_refl _ _ R1). split; [done|].
  split; [by eapply Spsc.ring_rep_length|].
  rewrite (Spsc.empty_spec _ lg Hlg eq_refl _ _ R1). split; [done|]. split; [exact R3|].
  assert (bool_decide ((spec_calls (2 ^ lg) [] cs).1 = []) = FalseSharedQueue.empty q2) as He; [|done].
  destruct R2 as (W & R & HC & Hlen & HW & Hbuf).
  change (FalseSharedQueue.empty q2) with (Spsc.empty (FalseSharedQueue.as_ring q2)).
  symmetry. apply (Spsc.empty_spec _ lg Hlg eq_refl). by exists W, R, R, W.
Qed.

Lemma queue_variants_agree_witness :
  ∃ ring locked answers,
    spsc_run 1 (Spsc.drained 2 (2 ^ 64 - 1) 0) [CPush 7; CPush 8; CPush 9; CPop] = Ret (ring, answers) ∧
    run_calls (H := MutexQueue.mutex_ops 2) MutexQueue.make [CPush 7; CPush 8; CPush 9; CPop]
      = Ret (locked, answers) ∧
    answers = [APush true; APush true; APush false; APop (Some 7)] ∧ Spsc.size ring = 1.
Proof.
  destruct (queue_variants_agree 1 (2 ^ 64 - 1) 0 [CPush 7; CPush 8; CPush 9; CPop])
    as (ring & _ & _ & locked & inside & answers & Hspec & H1 & _ & _ & H2 & _ & Hsize & _); [lia..|].
  exists ring, locked, answers. split; [exact H1|]. split; [exact H2|].
  vm_compute in Hspec. injection Hspec as <- <-. split; [reflexivity|exact Hsize].
Defined.
