(* ===== verification/SpscConcurrent.v ===== *)
(** * The ring under concurrent threads

    The accesses of [try_push] and [try_pop] as single steps of a machine with
    the C++ release/acquire semantics: an atomic variable is the list of values
    stored to it so far (its modification order), a load may return any of them
    that the thread has not already seen overwritten, a release store carries
    the storing thread's view and an acquire load joins it. The other members
    are not atomic: an access that is not ordered after the last conflicting
    access is a data race and a fault. Stores go to the end of the modification
    order, which for an atomic with a single writer is no restriction.

    The same machine is run with one producer and one consumer (no fault is
    reachable, and what is popped is what was pushed) and with two producers
    (a data race is reachable, as [tools/spsc_race_demo.cpp] demonstrates). *)

From S2P Require Import Prelude Message SpscQueue.

#[local] Open Scope Z_scope.
#[local] Open Scope llte_scope.

Module Conc.

(** ** Views *)

Inductive aloc := WriteIdx | ReadIdx.

(** [clock t]: the part of thread [t]'s execution that happens before this
    point; [seen a]: the latest store to [a] that does. *)
Record view := mkView { clock : nat → nat; seen : aloc → nat }.

Definition view_zero : view := mkView (λ _, 0%nat) (λ _, 0%nat).
Definition join (v w : view) : view :=
  mkView (λ t, Nat.max (clock v t) (clock w t)) (λ a, Nat.max (seen v a) (seen w a)).

Definition aloc_eqb (a b : aloc) : bool :=
  match a, b with WriteIdx, WriteIdx | ReadIdx, ReadIdx => true | _, _ => false end.

Definition see (a : aloc) (n : nat) (v : view) : view :=
  mkView (clock v) (λ b, if aloc_eqb a b then Nat.max (seen v b) n else seen v b).
Definition tick (t : nat) (v : view) : view :=
  mkView (λ u, if (u =? t)%nat then S (clock v u) else clock v u) (seen v).

(** ** Memory *)

Record store := mkStore { s_value : Z; s_view : view }.

(** A non-atomic variable, with the last write (thread, its clock) and the last
    read by each thread. *)
Record cell (A : Type) := mkCell { content : A; wr : nat * nat; rds : nat → nat }.
Arguments mkCell {A} content wr rds.
Arguments content {A} c.
Arguments wr {A} c.
Arguments rds {A} c.

Definition cell_init {A} (x : A) : cell A := mkCell x (0%nat, 0%nat) (λ _, 0%nat).

Definition write_known {A} (v : view) (c : cell A) : bool :=
  ((wr c).2 <=? clock v (wr c).1)%nat.

Definition read_cell {A} (t : nat) (v : view) (c : cell A) : outcome (cell A * A) :=
  if write_known v c
  then Ret (mkCell (content c) (wr c) (λ u, if (u =? t)%nat then clock v t else rds c u), content c)
  else Fault DataRace.

(** [nt] is the number of threads. *)
Definition write_cell {A} (nt t : nat) (v : view) (c : cell A) (x : A) : outcome (cell A) :=
  if write_known v c && forallb (λ u, (rds c u <=? clock v u)%nat) (seq 0 nt)
  then Ret (mkCell x (t, clock v t) (rds c))
  else Fault DataRace.

Section machine.
Context {T : Type} (Capacity : Z).

Record mem := mkMem {
  write_idx_ : list store;
  read_idx_ : list store;
  cached_read_idx_ : cell Z;
  cached_write_idx_ : cell Z;
  buffer_ : list (cell T)
}.

(** ** Threads: the next access of a call in progress *)

Inductive pc :=
  | Idle
  | Push0 (value : T)                    (* write = write_idx_.load(relaxed) *)
  | Push1 (value : T) (write : Z)        (* write - cached_read_idx_ >= Capacity *)
  | Push2 (value : T) (write : Z)        (* read_idx_.load(acquire) *)
  | Push3 (value : T) (write read : Z)   (* cached_read_idx_ = ... *)
  | Push4 (value : T) (write : Z)        (* write - cached_read_idx_ >= Capacity, again *)
  | Push5 (value : T) (write : Z)        (* buffer_[write & kMask] = value *)
  | Push6 (value : T) (write : Z)        (* write_idx_.store(write + 1, release) *)
  | Pop0                                 (* read = read_idx_.load(relaxed) *)
  | Pop1 (read : Z)                      (* read == cached_write_idx_ *)
  | Pop2 (read : Z)                      (* write_idx_.load(acquire) *)
  | Pop3 (read write : Z)                (* cached_write_idx_ = ... *)
  | Pop4 (read : Z)                      (* read == cached_write_idx_, again *)
  | Pop5 (read : Z)                      (* out = buffer_[read & kMask] *)
  | Pop6 (read : Z) (out : T).           (* read_idx_.store(read + 1, release) *)

Record thread := mkThread { t_pc : pc; t_view : view }.

(** Calls that have returned, in the order of their last access. *)
Inductive event :=
  | Pushed (t : nat) (value : T) (accepted : bool)
  | Popped (t : nat) (out : option T).

Record state := mkState { st_mem : mem; st_threads : list thread; st_log : list event }.

(** ** One access *)

(** An atomic load: [n] is the store it reads. *)
Definition atomic_load (h : list store) (a : aloc) (acquire : bool) (n : nat) (v : view)
    : option (view * Z) :=
  if (seen v a <=? n)%nat then
    match h !! n with
    | Some s => Some (see a n (if acquire then join v (s_view s) else v), s_value s)
    | None => None
    end
  else None.

Definition release_store (h : list store) (a : aloc) (t : nat) (x : Z) (v : view)
    : list store * view :=
  let v := see a (length h) v in (h ++ [mkStore x v], tick t v).

(** [None]: the thread cannot take this step (nothing to do, or no such store). *)
Definition next := option (outcome (mem * thread * list event)).
Definition goto (m : mem) (p : pc) (v : view) : next := Some (Ret (m, mkThread p v, [])).
Definition done_with (m : mem) (v : view) (e : event) : next :=
  Some (Ret (m, mkThread Idle v, [e])).
Definition try {A} (o : outcome A) (k : A → next) : next :=
  match o with Ret a => k a | Fault f => Some (Fault f) end.
Definition load_or {A} (o : option A) (k : A → next) : next :=
  match o with Some a => k a | None => None end.

Definition set_write (h : list store) (m : mem) : mem :=
  mkMem h (read_idx_ m) (cached_read_idx_ m) (cached_write_idx_ m) (buffer_ m).
Definition set_read (h : list store) (m : mem) : mem :=
  mkMem (write_idx_ m) h (cached_read_idx_ m) (cached_write_idx_ m) (buffer_ m).
Definition set_cached_read (c : cell Z) (m : mem) : mem :=
  mkMem (write_idx_ m) (read_idx_ m) c (cached_write_idx_ m) (buffer_ m).
Definition set_cached_write (c : cell Z) (m : mem) : mem :=
  mkMem (write_idx_ m) (read_idx_ m) (cached_read_idx_ m) c (buffer_ m).
Definition set_buffer (b : list (cell T)) (m : mem) : mem :=
  mkMem (write_idx_ m) (read_idx_ m) (cached_read_idx_ m) (cached_write_idx_ m) b.

Definition push_step (nt t n : nat) (m : mem) (p : pc) (v : view) : next :=
  match p with
  | Push0 x =>
      load_or (atomic_load (write_idx_ m) WriteIdx false n v) (λ '(v, w), goto m (Push1 x w) v)
  | Push1 x w =>
      try (read_cell t v (cached_read_idx_ m)) (λ '(c, cr),
        goto (set_cached_read c m)
          (if Spsc.full Capacity w cr then Push2 x w else Push5 x w) v)
  | Push2 x w =>
      load_or (atomic_load (read_idx_ m) ReadIdx true n v) (λ '(v, r), goto m (Push3 x w r) v)
  | Push3 x w r =>
      try (write_cell nt t v (cached_read_idx_ m) r) (λ c, goto (set_cached_read c m) (Push4 x w) v)
  | Push4 x w =>
      try (read_cell t v (cached_read_idx_ m)) (λ '(c, cr),
        let m := set_cached_read c m in
        if Spsc.full Capacity w cr then done_with m v (Pushed t x false) else goto m (Push5 x w) v)
  | Push5 x w =>
      let i := Z.land w (Spsc.kMask Capacity) in
      try (load (buffer_ m) i) (λ c,
        try (write_cell nt t v c x) (λ c,
          try (assign (buffer_ m) i c) (λ b, goto (set_buffer b m) (Push6 x w) v)))
  | Push6 x w =>
      let '(h, v) := release_store (write_idx_ m) WriteIdx t (u64 (w + 1)) v in
      done_with (set_write h m) v (Pushed t x true)
  | _ => None
  end.

Definition pop_step (nt t n : nat) (m : mem) (p : pc) (v : view) : next :=
  match p with
  | Pop0 =>
      load_or (atomic_load (read_idx_ m) ReadIdx false n v) (λ '(v, r), goto m (Pop1 r) v)
  | Pop1 r =>
      try (read_cell t v (cached_write_idx_ m)) (λ '(c, cw),
        goto (set_cached_write c m) (if r =? cw then Pop2 r else Pop5 r) v)
  | Pop2 r =>
      load_or (atomic_load (write_idx_ m) WriteIdx true n v) (λ '(v, w), goto m (Pop3 r w) v)
  | Pop3 r w =>
      try (write_cell nt t v (cached_write_idx_ m) w) (λ c, goto (set_cached_write c m) (Pop4 r) v)
  | Pop4 r =>
      try (read_cell t v (cached_write_idx_ m)) (λ '(c, cw),
        let m := set_cached_write c m in
        if r =? cw then done_with m v (Popped t None) else goto m (Pop5 r) v)
  | Pop5 r =>
      let i := Z.land r (Spsc.kMask Capacity) in
      try (load (buffer_ m) i) (λ c,
        try (read_cell t v c) (λ '(c, x),
          try (assign (buffer_ m) i c) (λ b, goto (set_buffer b m) (Pop6 r x) v)))
  | Pop6 r x =>
      let '(h, v) := release_store (read_idx_ m) ReadIdx t (u64 (r + 1)) v in
      done_with (set_read h m) v (Popped t (Some x))
  | _ => None
  end.

(** ** The machine *)

(** An idle thread starts a call, or a thread makes the next access of its
    call; an atomic load reads the store number [n]. *)
Inductive label :=
  | Call (t : nat) (c : call T)
  | Run (t n : nat).

Definition start (c : call T) : pc := match c with CPush x => Push0 x | CPop => Pop0 end.

Definition step (s : state) (l : label) : option (outcome state) :=
  match l with
  | Call t c =>
      match st_threads s !! t with
      | Some (mkThread Idle v) =>
          Some (Ret (mkState (st_mem s) (<[t := mkThread (start c) v]> (st_threads s)) (st_log s)))
      | _ => None
      end
  | Run t n =>
      match st_threads s !! t with
      | Some (mkThread p v) =>
          let nt := length (st_threads s) in
          let r := match push_step nt t n (st_mem s) p v with
                   | None => pop_step nt t n (st_mem s) p v
                   | r => r
                   end in
          match r with
          | Some (Ret (m, th, es)) =>
              Some (Ret (mkState m (<[t := th]> (st_threads s)) (st_log s ++ es)))
          | Some (Fault f) => Some (Fault f)
          | None => None
          end
      | None => None
      end
  end.

(** The queue as constructed, before any thread has touched it. *)
Definition init (nt : nat) (zero : T) : state :=
  mkState
    (mkMem [mkStore 0 view_zero] [mkStore 0 view_zero] (cell_init 0) (cell_init 0)
       (replicate (Z.to_nat Capacity) (cell_init zero)))
    ((λ t, mkThread Idle (tick t view_zero)) <$> seq 0 nt) [].

Fixpoint run (s : state) (ls : list label) : option (outcome state) :=
  match ls with
  | [] => Some (Ret s)
  | l :: ls =>
      match step s l with
      | Some (Ret s) => run s ls
      | r => r
      end
  end.

(** The values that went in and that came out, in order. *)
Definition pushes (log : list event) : list T :=
  omap (λ e, match e with Pushed _ x true => Some x | _ => None end) log.
Definition pops (log : list event) : list T :=
  omap (λ e, match e with Popped _ o => o | _ => None end) log.

(** One producer (thread 0) and one consumer (thread 1). *)
Definition spsc_label (l : label) : Prop :=
  match l with
  | Call t (CPush _) => t = 0%nat
  | Call t CPop => t = 1%nat
  | Run _ _ => True
  end.

Inductive reachable (zero : T) : state → Prop :=
  | reach_init : reachable zero (init 2 zero)
  | reach_step s l s' :
      reachable zero s → spsc_label l → step s l = Some (Ret s') → reachable zero s'.
End machine.
End Conc.
