(* ===== verification/SpscRaceFree.v ===== *)
(** * One producer and one consumer: no race, and a FIFO

    The invariant of the machine of [SpscConcurrent] when thread 0 only pushes
    and thread 1 only pops. The [W]th accepted push publishes the value [W] of
    [write_idx_] with clock [W] of thread 0, and symmetrically for pops, so that
    having seen a store is knowing every buffer access before it. *)

From S2P Require Import Prelude Message SpscQueue SpscConcurrent.
Import Conc.

#[local] Open Scope Z_scope.
#[local] Open Scope llte_scope.

Section spsc.
Context {T : Type} (zero : T) (lg : Z) (Hlg : 0 ≤ lg < 64).
#[local] Abbreviation cap := (2 ^ lg).
#[local] Abbreviation mem := (@Conc.mem T).
#[local] Abbreviation pc := (@Conc.pc T).
#[local] Abbreviation thread := (@Conc.thread T).
#[local] Abbreviation event := (@Conc.event T).

(** ** Views *)

Definition view_ok (W R : nat) (v : view) : Prop :=
  (seen v WriteIdx ≤ W ∧ seen v ReadIdx ≤ R ∧
   seen v WriteIdx ≤ clock v 0 ≤ S W ∧ seen v ReadIdx ≤ clock v 1 ≤ S R)%nat.

Lemma view_ok_mono W R W' R' v : (W ≤ W')%nat → (R ≤ R')%nat → view_ok W R v → view_ok W' R' v.
Proof. unfold view_ok. lia. Qed.

Lemma view_ok_join W R v w : view_ok W R v → view_ok W R w → view_ok W R (join v w).
Proof. unfold view_ok. simpl. lia. Qed.

(** Every store of an index, in order: the [i]th has the value [i] and the view
    in which the storing thread has just made it. *)
Definition hist_ok (a : aloc) (h : list store) (n W R : nat) : Prop :=
  length h = S n ∧
  ∀ i s, h !! i = Some s → s_value s = u64 (Z.of_nat i) ∧ seen (s_view s) a = i ∧
    view_ok W R (s_view s).

Lemma hist_ok_mono a h n W R W' R' :
  (W ≤ W')%nat → (R ≤ R')%nat → hist_ok a h n W R → hist_ok a h n W' R'.
Proof.
  intros HW HR [Hlen Hh]. split; [done|]. intros i s Hi. destruct (Hh i s Hi) as (? & ? & ?).
  split; [done|]. split; [done|]. by eapply view_ok_mono.
Qed.

Lemma hist_ok_store a h n W R x v :
  hist_ok a h n W R → x = u64 (Z.of_nat (S n)) → seen v a = S n → view_ok W R v →
  hist_ok a (h ++ [mkStore x v]) (S n) W R.
Proof.
  intros [Hlen Hh] Hx Hv Hok. split; [rewrite length_app; simpl; lia|].
  intros i s. rewrite lookup_app. destruct (h !! i) as [s'|] eqn:E; [intros [= <-]; by apply Hh|].
  apply lookup_ge_None in E. intros Hi. assert (i = S n) as ->.
  { apply lookup_lt_Some in Hi. simpl in Hi. lia. }
  rewrite Hlen, Nat.sub_diag in Hi. by injection Hi as <-.
Qed.

(** ** Buffer slots *)

(** [e] is 1 + the index of the last of the accesses [0 .. N-1] to slot [j],
    0 if there is none. *)
Definition last_access (N j e : Z) : Prop :=
  (e = 0 ∧ N ≤ j) ∨ (1 ≤ e ∧ (e - 1) mod cap = j ∧ e ≤ N ≤ e - 1 + cap).

Lemma cap_pos : 0 < cap < 2 ^ 64.
Proof using Hlg. exact (Spsc.capacity_bounds cap lg Hlg eq_refl). Qed.

Lemma window_unique i k : i mod cap = k mod cap → k < i + cap → i < k + cap → i = k.
Proof using Hlg.
  intros E H1 H2. destruct (Z.lt_trichotomy i k) as [Hlt|[|Hlt]]; [exfalso|done|exfalso].
  - pose proof (Spsc.slots_distinct cap lg Hlg eq_refl i 0 (k - i)) as Hd.
    rewrite Z.add_0_r, Zplus_minus in Hd. apply Hd; lia.
  - pose proof (Spsc.slots_distinct cap lg Hlg eq_refl k 0 (i - k)) as Hd.
    rewrite Z.add_0_r, Zplus_minus in Hd. apply Hd; lia.
Qed.

Lemma last_access_init j : 0 ≤ j → last_access 0 j 0.
Proof. left. lia. Qed.

Lemma last_access_here N : 0 ≤ N → last_access (N + 1) (N mod cap) (N + 1).
Proof using Hlg. intros. pose proof cap_pos. right. replace (N + 1 - 1) with N by lia. lia. Qed.

Lemma last_access_other N j e :
  0 ≤ N → 0 ≤ j < cap → j ≠ N mod cap → last_access N j e → last_access (N + 1) j e.
Proof using Hlg.
  intros HN Hj Hne [[-> Hle]|(He & Hm & Hb)]; [left|right].
  - split; [done|]. destruct (Z.eq_dec N j) as [->|]; [|lia]. rewrite Z.mod_small in Hne; lia.
  - split; [done|]. split; [done|]. destruct (Z.eq_dec N (e - 1 + cap)) as [E|]; [|lia].
    exfalso. apply Hne. rewrite <- Hm, E.
    replace (e - 1 + cap) with (e - 1 + 1 * cap) by lia. by rewrite Z_mod_plus_full.
Qed.

(** The slot of a live element was last written by its own push. *)
Lemma last_access_hit N i e :
  0 ≤ i → i < N ≤ i + cap → last_access N (i mod cap) e → e = i + 1.
Proof using Hlg.
  intros Hi HN [[-> Hle]|(He & Hm & Hb)].
  - pose proof cap_pos. pose proof (Z.mod_le i cap Hi ltac:(lia)). lia.
  - pose proof (window_unique (e - 1) i Hm ltac:(lia) ltac:(lia)). lia.
Qed.

(** The slot about to be reused was last read a whole turn ago. *)
Lemma last_access_old N W e :
  N ≤ W → last_access N (W mod cap) e → e ≤ Z.max 0 (W - cap + 1).
Proof using Hlg.
  intros HN [[-> _]|(He & Hm & Hb)]; [lia|]. pose proof cap_pos.
  destruct (Z.lt_ge_cases (W - cap) (e - 1)) as [Hlt|]; [|lia].
  pose proof (window_unique (e - 1) W Hm ltac:(lia) ltac:(lia)). lia.
Qed.

(** ** The invariant *)

(** Every access so far to a variable that one thread owns is known to it. *)
Definition owned {A} (v : view) (c : cell A) : Prop :=
  write_known v c = true ∧ ∀ u, (rds c u ≤ clock v u)%nat.

Record prod_ok (W R cr : nat) (c : cell Z) (v : view) : Prop := {
  po_view : view_ok W R v;
  po_seen : seen v WriteIdx = W;
  po_clock : clock v 0 = S W;
  po_owned : owned v c;
  po_value : content c = u64 (Z.of_nat cr);
  po_lag : (cr ≤ seen v ReadIdx)%nat;
  po_fit : Z.of_nat W ≤ Z.of_nat cr + cap
}.

Record cons_ok (W R cw : nat) (c : cell Z) (v : view) : Prop := {
  co_view : view_ok W R v;
  co_seen : seen v ReadIdx = R;
  co_clock : clock v 1 = S R;
  co_owned : owned v c;
  co_value : content c = u64 (Z.of_nat cw);
  co_lag : (cw ≤ seen v WriteIdx)%nat;
  co_fit : (R ≤ cw)%nat
}.

(** What the producer's locals hold at each of its accesses; [pend] is the
    element written to the buffer and not yet published. *)
Definition prod_pc (W cr : nat) (v : view) (pend : list T) (p : pc) : Prop :=
  match p with
  | Idle | Push0 _ => pend = []
  | Push1 _ w | Push2 _ w | Push4 _ w => w = u64 (Z.of_nat W) ∧ pend = []
  | Push3 _ w r => w = u64 (Z.of_nat W) ∧ pend = [] ∧
      ∃ n, r = u64 (Z.of_nat n) ∧ (cr ≤ n ≤ seen v ReadIdx)%nat
  | Push5 _ w => w = u64 (Z.of_nat W) ∧ pend = [] ∧ Z.of_nat W < Z.of_nat cr + cap
  | Push6 x w => w = u64 (Z.of_nat W) ∧ pend = [x] ∧ Z.of_nat W < Z.of_nat cr + cap
  | _ => False
  end.

(** [taken] counts the element read from the buffer and not yet released. *)
Definition cons_pc (R cw : nat) (v : view) (ins : list T) (taken : nat) (p : pc) : Prop :=
  match p with
  | Idle | Pop0 => taken = 0%nat
  | Pop1 r | Pop2 r | Pop4 r => r = u64 (Z.of_nat R) ∧ taken = 0%nat
  | Pop3 r w => r = u64 (Z.of_nat R) ∧ taken = 0%nat ∧
      ∃ n, w = u64 (Z.of_nat n) ∧ (cw ≤ n ≤ seen v WriteIdx)%nat
  | Pop5 r => r = u64 (Z.of_nat R) ∧ taken = 0%nat ∧ (R < cw)%nat
  | Pop6 r x => r = u64 (Z.of_nat R) ∧ taken = 1%nat ∧ (R < cw)%nat ∧ ins !! R = Some x
  | _ => False
  end.

Definition slot_ok (NW NR : nat) (ins : list T) (j : Z) (c : cell T) : Prop :=
  (wr c).1 = 0%nat ∧ last_access (Z.of_nat NW) j (Z.of_nat (wr c).2) ∧
  last_access (Z.of_nat NR) j (Z.of_nat (rds c 1)) ∧ rds c 0 = 0%nat ∧
  ∀ k, (wr c).2 = S k → ins !! k = Some (content c).

Definition buffer_ok (NW NR : nat) (ins : list T) (b : list (cell T)) : Prop :=
  vlen b = cap ∧ ∀ j c, b⟦j⟧ = Some c → slot_ok NW NR ins j c.

Record core (m : mem) (ins outs : list T) (pP pC : pc) (vP vC : view)
    (cr cw : nat) (pend : list T) (taken : nat) : Prop := {
  cr_write : hist_ok WriteIdx (write_idx_ m) (length ins) (length ins) (length outs);
  cr_read : hist_ok ReadIdx (read_idx_ m) (length outs) (length ins) (length outs);
  cr_prod : prod_ok (length ins) (length outs) cr (cached_read_idx_ m) vP;
  cr_cons : cons_ok (length ins) (length outs) cw (cached_write_idx_ m) vC;
  cr_ppc : prod_pc (length ins) cr vP pend pP;
  cr_cpc : cons_pc (length outs) cw vC ins taken pC;
  cr_buffer : buffer_ok (length ins + length pend) (length outs + taken) (ins ++ pend) (buffer_ m);
  cr_fifo : outs = take (length outs) ins
}.

Definition safe (m : mem) (ins outs : list T) (pP pC : pc) (vP vC : view) : Prop :=
  ∃ cr cw pend taken, core m ins outs pP pC vP vC cr cw pend taken.

(** ** Owned variables *)

Lemma owned_mono {A} v w (c : cell A) : (∀ u, (clock v u ≤ clock w u)%nat) → owned v c → owned w c.
Proof.
  unfold owned, write_known. rewrite !Nat.leb_le. intros H [H1 H2].
  split; [specialize (H (wr c).1); lia|]. intros u. specialize (H u). specialize (H2 u). lia.
Qed.

Lemma owned_read {A} t v (c : cell A) :
  owned v c → ∃ c', read_cell t v c = Ret (c', content c) ∧ owned v c' ∧ content c' = content c.
Proof.
  intros [H1 H2]. unfold read_cell. rewrite H1. eexists. split; [done|]. split; [|done].
  split; [done|]. intros u. simpl. destruct (Nat.eqb_spec u t); [by subst|done].
Qed.

Lemma owned_write {A} nt t v (c : cell A) x :
  owned v c → ∃ c', write_cell nt t v c x = Ret c' ∧ owned v c' ∧ content c' = x.
Proof.
  intros [H1 H2]. unfold write_cell. rewrite H1. simpl.
  assert (forallb (λ u, (rds c u <=? clock v u)%nat) (seq 0 nt) = true) as ->.
  { apply forallb_forall. intros u _. apply Nat.leb_le, H2. }
  eexists. split; [done|]. split; [|done]. split; [|done].
  unfold write_known. simpl. apply Nat.leb_refl.
Qed.

(** ** Atomic accesses *)

(** A relaxed load of the variable the thread itself stores reads its last store. *)
Lemma load_own a h n W R k v v' x :
  hist_ok a h n W R → seen v a = n → atomic_load h a false k v = Some (v', x) →
  x = u64 (Z.of_nat n) ∧ clock v' = clock v ∧ ∀ b, seen v' b = seen v b.
Proof.
  intros [Hlen Hh] Hs. unfold atomic_load. destruct (Nat.leb_spec (seen v a) k); [|done].
  destruct (h !! k) as [s|] eqn:E; [|done]. intros [= <- <-].
  pose proof (lookup_lt_Some _ _ _ E). assert (k = n) as -> by lia.
  split; [by apply (Hh n)|]. split; [done|]. intros b. simpl. destruct a, b; simpl; lia.
Qed.

(** An acquire load reads some store not older than the last one seen, and
    brings the view of that store. *)
Lemma load_acquire a h n W R k v v' x :
  hist_ok a h n W R → view_ok W R v → atomic_load h a true k v = Some (v', x) →
  x = u64 (Z.of_nat k) ∧ (seen v a ≤ k ≤ n)%nat ∧ seen v' a = k ∧ view_ok W R v' ∧
  (∀ u, (clock v u ≤ clock v' u)%nat) ∧ (∀ b, (seen v b ≤ seen v' b)%nat).
Proof.
  intros [Hlen Hh] Hv. unfold atomic_load. destruct (Nat.leb_spec (seen v a) k); [|done].
  destruct (h !! k) as [s|] eqn:E; [|done]. intros [= <- <-].
  pose proof (lookup_lt_Some _ _ _ E). destruct (Hh k s E) as (Hval & Hseen & Hview).
  split; [done|]. split; [lia|]. split; [destruct a; simpl; lia|]. split.
  { pose proof (view_ok_join _ _ _ _ Hv Hview) as Hj. unfold view_ok in *.
    destruct a; simpl in *; lia. }
  split; [intros u; simpl; lia|]. intros b; destruct a, b; simpl; lia.
Qed.

(** The storing thread's view after a release store, and the store itself. *)
Lemma release_spec a t h n W R x v h' v' :
  hist_ok a h n W R → release_store h a t x v = (h', v') →
  h' = h ++ [mkStore x (see a (S n) v)] ∧ v' = tick t (see a (S n) v).
Proof. intros [Hlen _]. unfold release_store. rewrite Hlen. by intros [= <- <-]. Qed.

(** ** Steps of the producer *)

Section producer.
Context {m : mem} {ins outs : list T} {pC : pc} {vP vC : view} {cr cw : nat} {pend : list T}
  {taken : nat}.

Lemma prod_ok_same_view {W R c v v'} :
  prod_ok W R cr c v → clock v' = clock v → (∀ b, seen v' b = seen v b) → prod_ok W R cr c v'.
Proof.
  intros [Hv Hs Hc Ho Hval Hlag Hfit] Hclock Hseen.
  split; rewrite ?Hseen, ?Hclock; try done.
  - unfold view_ok in *. by rewrite !Hseen, !Hclock.
  - eapply owned_mono; [|done]. intros u. by rewrite Hclock.
Qed.

Lemma reads_bound {pP} :
  core m ins outs pP pC vP vC cr cw pend taken → (length outs + taken ≤ length ins)%nat.
Proof.
  intros HC. destruct (cr_cons _ _ _ _ _ _ _ _ _ _ _ HC) as [(H1 & _) _ _ _ _ Hlag Hfit].
  pose proof (cr_cpc _ _ _ _ _ _ _ _ _ _ _ HC) as Hpc.
  destruct pC; simpl in Hpc; naive_solver lia.
Qed.

Lemma buffer_slot {b NW NR all i} :
  buffer_ok NW NR all b →
  ∃ c, b⟦i mod cap⟧ = Some c ∧ slot_ok NW NR all (i mod cap) c.
Proof using Hlg.
  intros [Hlen Hb]. destruct (vget_is_Some b (i mod cap)) as [c Hc].
  { rewrite Hlen. apply Z.mod_pos_bound. apply cap_pos. }
  eauto.
Qed.

(** The write of [Push5]: the slot's last write and its last read are known. *)
Lemma push_slot {b all x w} NR v c :
  all = ins → slot_ok (length ins) NR all (Z.of_nat (length ins) mod cap) c →
  prod_ok (length ins) (length outs) cr w v →
  (NR ≤ length ins)%nat → Z.of_nat (length ins) < Z.of_nat cr + cap →
  buffer_ok (length ins) NR all b → b⟦Z.of_nat (length ins) mod cap⟧ = Some c →
  ∃ c', write_cell 2 0 v c x = Ret c' ∧
    buffer_ok (length ins + 1) NR (ins ++ [x]) (b⟦Z.of_nat (length ins) mod cap := c'⟧).
Proof using Hlg.
  intros -> (Hw1 & Hw2 & Hr1 & Hr0 & Hc) [Hview Hs Hclk _ _ Hlag _] HNR Hroom [Hlen Hb] Hget.
  assert ((wr c).2 ≤ length ins)%nat as Hold by (destruct Hw2 as [?|?]; lia).
  pose proof (last_access_old _ _ _ (inj_le _ _ HNR) Hr1) as Hread.
  unfold view_ok in Hview.
  unfold write_cell, write_known. rewrite Hw1, Hclk.
  destruct (Nat.leb_spec (wr c).2 (S (length ins))); [|lia]. simpl.
  destruct (Nat.leb_spec (rds c 0) (clock v 0)); [|lia].
  destruct (Nat.leb_spec (rds c 1) (clock v 1)); [|lia]. simpl.
  eexists. split; [done|]. split; [by rewrite vlen_vset|]. intros j c'.
  pose proof cap_pos.
  rewrite vget_vset. case_decide as Hj.
  - destruct Hj as [<- _]. intros [= <-]. split; [done|]. simpl. split.
    { replace (Z.of_nat (length ins + 1)) with (Z.of_nat (length ins) + 1) by lia.
      replace (Z.of_nat (S (length ins))) with (Z.of_nat (length ins) + 1) by lia.
      apply last_access_here. lia. }
    split; [done|]. split; [done|]. intros k [= <-]. apply list_lookup_middle. done.
  - intros Hj'. pose proof (vget_Some_range _ _ _ Hj') as Hjr.
    destruct (Hb j c' Hj') as (G1 & G2 & G3 & G4 & G5). split; [done|]. split.
    { replace (Z.of_nat (length ins + 1)) with (Z.of_nat (length ins) + 1) by lia.
      apply last_access_other; [lia|lia| |done]. intros ->. apply Hj. by split. }
    split; [done|]. split; [done|]. intros k Hk. specialize (G5 k Hk).
    rewrite lookup_app_l by (by eapply lookup_lt_Some). done.
Qed.

End producer.

Lemma full_exact m ins outs pP pC vP vC cr cw pend taken :
  core m ins outs pP pC vP vC cr cw pend taken →
  Spsc.full cap (u64 (Z.of_nat (length ins))) (u64 (Z.of_nat cr)) =
  (Z.of_nat (length ins) =? Z.of_nat cr + cap).
Proof using Hlg.
  intros HC. pose proof (reads_bound HC).
  destruct (cr_prod _ _ _ _ _ _ _ _ _ _ _ HC) as [Hview _ _ _ _ Hlag Hfit]. unfold view_ok in Hview.
  apply (Spsc.full_spec cap lg Hlg eq_refl); lia.
Qed.

Lemma prod_ok_cell {W R cr cr' c c' v} :
  prod_ok W R cr c v → owned v c' → content c' = u64 (Z.of_nat cr') →
  (cr ≤ cr' ≤ seen v ReadIdx)%nat → prod_ok W R cr' c' v.
Proof. intros []. split; try done; lia. Qed.

Lemma prod_ok_acquire {W R cr c v v'} :
  prod_ok W R cr c v → view_ok W R v' → (∀ u, (clock v u ≤ clock v' u)%nat) →
  (∀ b, (seen v b ≤ seen v' b)%nat) → prod_ok W R cr c v'.
Proof.
  intros [Hview Hs Hc Ho Hv Hlag Hfit] Hview' Hcl Hse.
  pose proof (Hcl 0%nat). pose proof (Hse WriteIdx). pose proof (Hse ReadIdx).
  pose proof Hview'. unfold view_ok in Hview'. split; try done; try lia.
  by eapply owned_mono.
Qed.

(** What a step of one thread has to re-establish. *)
Definition stepped (r : outcome (mem * thread * list event)) (Q : mem → pc → view → list event → Prop)
    : Prop :=
  ∃ m' p' v' es, r = Ret (m', mkThread p' v', es) ∧ Q m' p' v' es.

Definition push_goal (ins outs : list T) (pC : pc) (vC : view) m' p' v' es : Prop :=
  safe m' (ins ++ pushes es) (outs ++ pops es) p' pC v' vC.

Lemma push_goal_local ins outs pC vC m' p' v' es :
  pushes es = [] → pops es = [] → safe m' ins outs p' pC v' vC →
  push_goal ins outs pC vC m' p' v' es.
Proof. unfold push_goal. intros -> ->. by rewrite !app_nil_r. Qed.

(** Written slots, published or not, stay within one turn of the ring. *)
Lemma prod_window W cr v pend p :
  prod_pc W cr v pend p → Z.of_nat W ≤ Z.of_nat cr + cap →
  Z.of_nat (W + length pend) ≤ Z.of_nat cr + cap.
Proof.
  intros Hpc Hfit.
  assert (pend = [] ∨ (length pend = 1%nat ∧ Z.of_nat W < Z.of_nat cr + cap)) as [->|[-> ?]];
    [|simpl; lia..].
  destruct p; simpl in Hpc; try contradiction; try (by left; apply Hpc).
  right. destruct Hpc as (_ & -> & ?). done.
Qed.

Section push_steps.
Context (m : mem) (ins outs : list T) (pP pC : pc) (vP vC : view) (cr cw : nat)
  (pend : list T) (taken : nat).
Context (HC : core m ins outs pP pC vP vC cr cw pend taken).
#[local] Abbreviation W := (length ins).
#[local] Abbreviation goal r := (stepped r (push_goal ins outs pC vC)).

Lemma prod_local p' c' v' cr' :
  prod_ok W (length outs) cr' c' v' → prod_pc W cr' v' pend p' →
  safe (set_cached_read c' m) ins outs p' pC v' vC.
Proof using HC Hlg. destruct HC. intros Hp Hpc. exists cr', cw, pend, taken. by split. Qed.

Lemma prod_still p' v' :
  prod_ok W (length outs) cr (cached_read_idx_ m) v' → prod_pc W cr v' pend p' →
  safe m ins outs p' pC v' vC.
Proof using HC Hlg. destruct HC. intros Hp Hpc. exists cr, cw, pend, taken. by split. Qed.

Lemma push0_ok x n r : pP = Push0 x → push_step cap 2 0 n m pP vP = Some r → goal r.
Proof using HC Hlg.
  intros Hp. pose proof (cr_ppc _ _ _ _ _ _ _ _ _ _ _ HC) as Hpc. rewrite Hp in Hpc |- *. simpl in *.
  destruct (atomic_load _ _ _ _ _) as [[v' w]|] eqn:E; simpl; [|done]. intros [= <-].
  pose proof (cr_prod _ _ _ _ _ _ _ _ _ _ _ HC) as HP.
  destruct (load_own _ _ _ _ _ _ _ _ _ (cr_write _ _ _ _ _ _ _ _ _ _ _ HC) (po_seen _ _ _ _ _ HP) E)
    as (-> & Hcl & Hse).
  do 4 eexists. split; [done|]. apply push_goal_local; [done..|].
  apply prod_still; [by eapply prod_ok_same_view|done].
Qed.

Lemma push1_ok x w n r : pP = Push1 x w → push_step cap 2 0 n m pP vP = Some r → goal r.
Proof using HC Hlg.
  intros Hp. pose proof (cr_ppc _ _ _ _ _ _ _ _ _ _ _ HC) as Hpc. pose proof (full_exact _ _ _ _ _ _ _ _ _ _ _ HC) as Hf.
  rewrite Hp in Hpc |- *. simpl in *. destruct Hpc as [-> Hpend].
  pose proof (cr_prod _ _ _ _ _ _ _ _ _ _ _ HC) as HP.
  destruct (owned_read 0 _ _ (po_owned _ _ _ _ _ HP)) as (c' & -> & Ho & Hv). simpl.
  intros [= <-]. rewrite (po_value _ _ _ _ _ HP) in Hv |- *. rewrite Hf.
  do 4 eexists. split; [done|]. apply push_goal_local; [done..|].
  apply (prod_local _ _ _ cr); [by eapply prod_ok_cell; [done..|destruct HP; lia]|].
  pose proof (po_fit _ _ _ _ _ HP).
  destruct (Z.eqb_spec (Z.of_nat W) (Z.of_nat cr + cap)); simpl; [done|]. repeat split; [done|lia].
Qed.

Lemma push2_ok x w n r : pP = Push2 x w → push_step cap 2 0 n m pP vP = Some r → goal r.
Proof using HC Hlg.
  intros Hp. pose proof (cr_ppc _ _ _ _ _ _ _ _ _ _ _ HC) as Hpc. rewrite Hp in Hpc |- *. simpl in *.
  destruct (atomic_load _ _ _ _ _) as [[v' rd]|] eqn:E; simpl; [|done]. intros [= <-].
  pose proof (cr_prod _ _ _ _ _ _ _ _ _ _ _ HC) as HP. pose proof (po_lag _ _ _ _ _ HP) as Hlag.
  destruct (load_acquire _ _ _ _ _ _ _ _ _ (cr_read _ _ _ _ _ _ _ _ _ _ _ HC) (po_view _ _ _ _ _ HP) E)
    as (-> & Hk & Hs & Hvw & Hcl & Hse).
  do 4 eexists. split; [done|]. apply push_goal_local; [done..|].
  apply prod_still; [by eapply prod_ok_acquire|]. destruct Hpc as [-> Hpend].
  split; [done|]. split; [done|]. exists n. split; [done|]. lia.
Qed.

Lemma push3_ok x w rd n r : pP = Push3 x w rd → push_step cap 2 0 n m pP vP = Some r → goal r.
Proof using HC Hlg.
  intros Hp. pose proof (cr_ppc _ _ _ _ _ _ _ _ _ _ _ HC) as Hpc. rewrite Hp in Hpc |- *. simpl in *.
  destruct Hpc as (-> & Hpend & k & -> & Hk).
  pose proof (cr_prod _ _ _ _ _ _ _ _ _ _ _ HC) as HP.
  destruct (owned_write 2 0 _ _ (u64 (Z.of_nat k)) (po_owned _ _ _ _ _ HP)) as (c' & -> & Ho & Hv).
  simpl. intros [= <-]. do 4 eexists. split; [done|]. apply push_goal_local; [done..|].
  apply (prod_local _ _ _ k); [by eapply prod_ok_cell|done].
Qed.

Lemma push4_ok x w n r : pP = Push4 x w → push_step cap 2 0 n m pP vP = Some r → goal r.
Proof using HC Hlg.
  intros Hp. pose proof (cr_ppc _ _ _ _ _ _ _ _ _ _ _ HC) as Hpc. pose proof (full_exact _ _ _ _ _ _ _ _ _ _ _ HC) as Hf.
  rewrite Hp in Hpc |- *. simpl in *. destruct Hpc as [-> Hpend].
  pose proof (cr_prod _ _ _ _ _ _ _ _ _ _ _ HC) as HP. pose proof (po_fit _ _ _ _ _ HP) as Hfit.
  destruct (owned_read 0 _ _ (po_owned _ _ _ _ _ HP)) as (c' & -> & Ho & Hv). simpl.
  rewrite (po_value _ _ _ _ _ HP) in Hv |- *. rewrite Hf.
  destruct (Z.eqb_spec (Z.of_nat W) (Z.of_nat cr + cap)); intros [= <-];
    (do 4 eexists; split; [done|]; apply push_goal_local; [done..|];
     apply (prod_local _ _ _ cr); [by eapply prod_ok_cell; [done..|destruct HP; lia]|]); simpl;
    [done|]. repeat split; [done|lia].
Qed.

Lemma push5_ok x w n r : pP = Push5 x w → push_step cap 2 0 n m pP vP = Some r → goal r.
Proof using HC Hlg.
  intros Hp. pose proof (cr_ppc _ _ _ _ _ _ _ _ _ _ _ HC) as Hpc. pose proof (reads_bound HC) as Hrd.
  rewrite Hp in Hpc |- *. simpl in *. destruct Hpc as (-> & Hpend & Hroom).
  rewrite (Spsc.masked cap lg Hlg eq_refl).
  pose proof (cr_buffer _ _ _ _ _ _ _ _ _ _ _ HC) as Hb.
  rewrite Hpend, app_nil_r in Hb. simpl in Hb. rewrite Nat.add_0_r in Hb.
  destruct (buffer_slot (i := Z.of_nat W) Hb) as (c & Hc & Hslot).
  rewrite (load_Some _ _ _ Hc). simpl.
  destruct (push_slot (x := x) _ vP c eq_refl Hslot (cr_prod _ _ _ _ _ _ _ _ _ _ _ HC) Hrd Hroom Hb Hc)
    as (c' & -> & Hb'). simpl.
  rewrite assign_ok by (by eapply vget_Some_range). simpl. intros [= <-].
  do 4 eexists. split; [done|]. apply push_goal_local; [done..|].
  exists cr, cw, [x], taken. destruct HC. by split.
Qed.

Lemma push6_ok x w n r : pP = Push6 x w → push_step cap 2 0 n m pP vP = Some r → goal r.
Proof using HC Hlg.
  intros Hp. pose proof (cr_ppc _ _ _ _ _ _ _ _ _ _ _ HC) as Hpc. pose proof (reads_bound HC) as Hrd.
  rewrite Hp in Hpc |- *. cbn [push_step prod_pc] in *. destruct Hpc as (-> & Hpend & Hroom).
  destruct HC as [Hw Hr HP HCo _ Hcpc Hb Hfifo]. rewrite Hpend in Hb.
  destruct (release_store _ _ _ _ _) as [h v'] eqn:E.
  destruct (release_spec _ _ _ _ _ _ _ _ _ _ Hw E) as [-> ->].
  intros [= <-]. do 4 eexists. split; [done|]. unfold push_goal. simpl. rewrite app_nil_r.
  exists cr, cw, [], taken. destruct HP as [Hview Hs Hclk Ho Hv Hlag Hfit]. unfold view_ok in Hview.
  assert (length (ins ++ [x]) = S W) as Hlen by (rewrite length_app; simpl; lia).
  split; simpl; rewrite ?Hlen.
  - apply hist_ok_store.
    + eapply hist_ok_mono; [..|done]; lia.
    + by rewrite u64_succ, Nat2Z.inj_succ, Z.add_1_r.
    + simpl. lia.
    + unfold view_ok. simpl. lia.
  - eapply hist_ok_mono; [..|done]; lia.
  - split; simpl; try done; try lia.
    + unfold view_ok. simpl. lia.
    + eapply owned_mono; [|done]. intros u. simpl. case_match; lia.
  - destruct HCo as [Hcv ? ? ? ? ? ?]. split; try done. eapply view_ok_mono; [..|done]; lia.
  - done.
  - destruct pC; simpl in *; try done. destruct Hcpc as (? & ? & ? & Hx). repeat split; try done.
    by apply lookup_app_l_Some.
  - rewrite Nat.add_0_r, app_nil_r. simpl in Hb. by rewrite Nat.add_1_r in Hb.
  - rewrite take_app_le by lia. done.
Qed.

Lemma push_ok n r : push_step cap 2 0 n m pP vP = Some r → goal r.
Proof using HC Hlg.
  intros Hrun. assert (∃ q, pP = q) as [q Hq] by eauto.
  destruct q; try (rewrite Hq in Hrun; done);
    eauto using push0_ok, push1_ok, push2_ok, push3_ok, push4_ok, push5_ok, push6_ok.
Qed.
End push_steps.

(** ** Steps of the consumer *)

Lemma cons_ok_same_view {W R cw c v v'} :
  cons_ok W R cw c v → clock v' = clock v → (∀ b, seen v' b = seen v b) → cons_ok W R cw c v'.
Proof.
  intros [Hv Hs Hc Ho Hval Hlag Hfit] Hclock Hseen.
  split; rewrite ?Hseen, ?Hclock; try done.
  - unfold view_ok in *. by rewrite !Hseen, !Hclock.
  - eapply owned_mono; [|done]. intros u. by rewrite Hclock.
Qed.

Lemma cons_ok_cell {W R cw cw' c c' v} :
  cons_ok W R cw c v → owned v c' → content c' = u64 (Z.of_nat cw') →
  (cw ≤ cw' ≤ seen v WriteIdx)%nat → cons_ok W R cw' c' v.
Proof. intros []. split; try done; lia. Qed.

Lemma cons_ok_acquire {W R cw c v v'} :
  cons_ok W R cw c v → view_ok W R v' → (∀ u, (clock v u ≤ clock v' u)%nat) →
  (∀ b, (seen v b ≤ seen v' b)%nat) → cons_ok W R cw c v'.
Proof.
  intros [Hview Hs Hc Ho Hv Hlag Hfit] Hview' Hcl Hse.
  pose proof (Hcl 1%nat). pose proof (Hse WriteIdx). pose proof (Hse ReadIdx).
  pose proof Hview'. unfold view_ok in Hview'. split; try done; try lia.
  by eapply owned_mono.
Qed.

Definition pop_goal (ins outs : list T) (pP : pc) (vP : view) m' p' v' es : Prop :=
  safe m' (ins ++ pushes es) (outs ++ pops es) pP p' vP v'.

Lemma pop_goal_local ins outs pP vP m' p' v' es :
  pushes es = [] → pops es = [] → safe m' ins outs pP p' vP v' →
  pop_goal ins outs pP vP m' p' v' es.
Proof. unfold pop_goal. intros -> ->. by rewrite !app_nil_r. Qed.

Section pop_steps.
Context (m : mem) (ins outs : list T) (pP pC : pc) (vP vC : view) (cr cw : nat)
  (pend : list T) (taken : nat).
Context (HC : core m ins outs pP pC vP vC cr cw pend taken).
#[local] Abbreviation W := (length ins).
#[local] Abbreviation R := (length outs).
#[local] Abbreviation goal r := (stepped r (pop_goal ins outs pP vP)).

Lemma cons_local p' c' v' cw' :
  cons_ok W R cw' c' v' → cons_pc R cw' v' ins taken p' →
  safe (set_cached_write c' m) ins outs pP p' vP v'.
Proof using HC Hlg. destruct HC. intros Hp Hpc. exists cr, cw', pend, taken. by split. Qed.

Lemma cons_still p' v' :
  cons_ok W R cw (cached_write_idx_ m) v' → cons_pc R cw v' ins taken p' →
  safe m ins outs pP p' vP v'.
Proof using HC Hlg. destruct HC. intros Hp Hpc. exists cr, cw, pend, taken. by split. Qed.

Lemma empty_exact : (u64 (Z.of_nat R) =? u64 (Z.of_nat cw)) = (R =? cw)%nat.
Proof using HC Hlg.
  pose proof (cr_cons _ _ _ _ _ _ _ _ _ _ _ HC) as [Hview _ _ _ _ Hlag Hfit].
  pose proof (cr_prod _ _ _ _ _ _ _ _ _ _ _ HC) as [Hpv _ _ _ _ Hpl Hpf].
  unfold view_ok in *. pose proof cap_pos. rewrite u64_eqb by lia.
  destruct (Z.eqb_spec (Z.of_nat R) (Z.of_nat cw)), (Nat.eqb_spec R cw); lia || done.
Qed.

Lemma pop0_ok n r : pC = Pop0 → pop_step cap 2 1 n m pC vC = Some r → goal r.
Proof using HC Hlg.
  intros Hp. pose proof (cr_cpc _ _ _ _ _ _ _ _ _ _ _ HC) as Hpc. rewrite Hp in Hpc |- *. simpl in *.
  destruct (atomic_load _ _ _ _ _) as [[v' w]|] eqn:E; simpl; [|done]. intros [= <-].
  pose proof (cr_cons _ _ _ _ _ _ _ _ _ _ _ HC) as HP.
  destruct (load_own _ _ _ _ _ _ _ _ _ (cr_read _ _ _ _ _ _ _ _ _ _ _ HC) (co_seen _ _ _ _ _ HP) E)
    as (-> & Hcl & Hse).
  do 4 eexists. split; [done|]. apply pop_goal_local; [done..|].
  apply cons_still; [by eapply cons_ok_same_view|done].
Qed.

Lemma pop1_ok rd n r : pC = Pop1 rd → pop_step cap 2 1 n m pC vC = Some r → goal r.
Proof using HC Hlg.
  intros Hp. pose proof (cr_cpc _ _ _ _ _ _ _ _ _ _ _ HC) as Hpc. pose proof empty_exact as Hf.
  rewrite Hp in Hpc |- *. simpl in *. destruct Hpc as [-> Hpend].
  pose proof (cr_cons _ _ _ _ _ _ _ _ _ _ _ HC) as HP.
  destruct (owned_read 1 _ _ (co_owned _ _ _ _ _ HP)) as (c' & -> & Ho & Hv). simpl.
  intros [= <-]. rewrite (co_value _ _ _ _ _ HP) in Hv |- *. rewrite Hf.
  do 4 eexists. split; [done|]. apply pop_goal_local; [done..|].
  apply (cons_local _ _ _ cw); [by eapply cons_ok_cell; [done..|destruct HP; lia]|].
  pose proof (co_fit _ _ _ _ _ HP).
  destruct (Nat.eqb_spec R cw); simpl; [done|]. repeat split; [done|lia].
Qed.

Lemma pop2_ok rd n r : pC = Pop2 rd → pop_step cap 2 1 n m pC vC = Some r → goal r.
Proof using HC Hlg.
  intros Hp. pose proof (cr_cpc _ _ _ _ _ _ _ _ _ _ _ HC) as Hpc. rewrite Hp in Hpc |- *. simpl in *.
  destruct (atomic_load _ _ _ _ _) as [[v' w]|] eqn:E; simpl; [|done]. intros [= <-].
  pose proof (cr_cons _ _ _ _ _ _ _ _ _ _ _ HC) as HP. pose proof (co_lag _ _ _ _ _ HP) as Hlag.
  destruct (load_acquire _ _ _ _ _ _ _ _ _ (cr_write _ _ _ _ _ _ _ _ _ _ _ HC) (co_view _ _ _ _ _ HP) E)
    as (-> & Hk & Hs & Hvw & Hcl & Hse).
  do 4 eexists. split; [done|]. apply pop_goal_local; [done..|].
  apply cons_still; [by eapply cons_ok_acquire|]. destruct Hpc as [-> Hpend].
  split; [done|]. split; [done|]. exists n. split; [done|]. lia.
Qed.

Lemma pop3_ok rd w n r : pC = Pop3 rd w → pop_step cap 2 1 n m pC vC = Some r → goal r.
Proof using HC Hlg.
  intros Hp. pose proof (cr_cpc _ _ _ _ _ _ _ _ _ _ _ HC) as Hpc. rewrite Hp in Hpc |- *. simpl in *.
  destruct Hpc as (-> & Hpend & k & -> & Hk).
  pose proof (cr_cons _ _ _ _ _ _ _ _ _ _ _ HC) as HP.
  destruct (owned_write 2 1 _ _ (u64 (Z.of_nat k)) (co_owned _ _ _ _ _ HP)) as (c' & -> & Ho & Hv).
  simpl. intros [= <-]. do 4 eexists. split; [done|]. apply pop_goal_local; [done..|].
  apply (cons_local _ _ _ k); [by eapply cons_ok_cell|done].
Qed.

Lemma pop4_ok rd n r : pC = Pop4 rd → pop_step cap 2 1 n m pC vC = Some r → goal r.
Proof using HC Hlg.
  intros Hp. pose proof (cr_cpc _ _ _ _ _ _ _ _ _ _ _ HC) as Hpc. pose proof empty_exact as Hf.
  rewrite Hp in Hpc |- *. simpl in *. destruct Hpc as [-> Hpend].
  pose proof (cr_cons _ _ _ _ _ _ _ _ _ _ _ HC) as HP. pose proof (co_fit _ _ _ _ _ HP) as Hfit.
  destruct (owned_read 1 _ _ (co_owned _ _ _ _ _ HP)) as (c' & -> & Ho & Hv). simpl.
  rewrite (co_value _ _ _ _ _ HP) in Hv |- *. rewrite Hf.
  destruct (Nat.eqb_spec R cw); intros [= <-];
    (do 4 eexists; split; [done|]; apply pop_goal_local; [done..|];
     apply (cons_local _ _ _ cw); [by eapply cons_ok_cell; [done..|destruct HP; lia]|]); simpl;
    [done|]. repeat split; [done|lia].
Qed.

(** The read of [Pop5]: the slot still holds the oldest element, and its write
    is known. *)
Lemma pop_slot c NW :
  slot_ok NW R (ins ++ pend) (Z.of_nat R mod cap) c → (R < NW)%nat →
  Z.of_nat NW ≤ Z.of_nat R + cap → (R < cw)%nat →
  buffer_ok NW R (ins ++ pend) (buffer_ m) → (buffer_ m)⟦Z.of_nat R mod cap⟧ = Some c →
  ∃ c', read_cell 1 vC c = Ret (c', content c) ∧ ins !! R = Some (content c) ∧
    buffer_ok NW (R + 1) (ins ++ pend) ((buffer_ m)⟦Z.of_nat R mod cap := c'⟧).
Proof using HC Hlg.
  intros (Hw1 & Hw2 & Hr1 & Hr0 & Hcont) HNW Hfit Hcw [Hlen Hb] Hget.
  destruct (cr_cons _ _ _ _ _ _ _ _ _ _ _ HC) as [Hview _ Hclk _ _ Hlag _]. unfold view_ok in Hview.
  assert ((wr c).2 = S R) as He.
  { pose proof (last_access_hit (Z.of_nat NW) (Z.of_nat R) _ ltac:(lia) ltac:(lia) Hw2). lia. }
  unfold read_cell, write_known. rewrite Hw1, He, Hclk.
  destruct (Nat.leb_spec (S R) (clock vC 0)); [|lia].
  eexists. split; [done|]. split.
  { rewrite <- (Hcont R He). symmetry. apply lookup_app_l. lia. }
  split; [by rewrite vlen_vset|]. intros j c'. rewrite vget_vset. case_decide as Hj.
  - destruct Hj as [<- _]. intros [= <-]. split; [done|]. simpl. split; [done|]. split.
    { replace (Z.of_nat (R + 1)) with (Z.of_nat R + 1) by lia.
      replace (Z.of_nat (S R)) with (Z.of_nat R + 1) by lia. apply last_access_here. lia. }
    done.
  - intros Hj'. pose proof (vget_Some_range _ _ _ Hj') as Hjr.
    destruct (Hb j c' Hj') as (G1 & G2 & G3 & G4 & G5). split; [done|]. split; [done|]. split.
    { replace (Z.of_nat (R + 1)) with (Z.of_nat R + 1) by lia.
      apply last_access_other; [lia|lia| |done]. intros ->. apply Hj. split; [done|lia]. }
    split; done.
Qed.

Lemma pop5_ok rd n r : pC = Pop5 rd → pop_step cap 2 1 n m pC vC = Some r → goal r.
Proof using HC Hlg.
  intros Hp. pose proof (cr_cpc _ _ _ _ _ _ _ _ _ _ _ HC) as Hpc.
  rewrite Hp in Hpc |- *. simpl in *. destruct Hpc as (-> & Htk & Hroom).
  rewrite (Spsc.masked cap lg Hlg eq_refl).
  pose proof (cr_buffer _ _ _ _ _ _ _ _ _ _ _ HC) as Hb. rewrite Htk, Nat.add_0_r in Hb.
  destruct (buffer_slot (i := Z.of_nat R) Hb) as (c & Hc & Hslot).
  assert (R < W)%nat as HRW.
  { destruct (cr_cons _ _ _ _ _ _ _ _ _ _ _ HC) as [Hview _ _ _ _ Hlag _]. unfold view_ok in Hview. lia. }
  assert (Z.of_nat (W + length pend) ≤ Z.of_nat R + cap) as Hwin.
  { destruct (cr_prod _ _ _ _ _ _ _ _ _ _ _ HC) as [Hview _ _ _ _ Hlag Hfit]. unfold view_ok in Hview.
    pose proof (prod_window _ _ _ _ _ (cr_ppc _ _ _ _ _ _ _ _ _ _ _ HC) Hfit). lia. }
  rewrite (load_Some _ _ _ Hc). simpl.
  destruct (pop_slot c _ Hslot ltac:(lia) Hwin Hroom Hb Hc) as (c' & -> & Hx & Hb'). simpl.
  rewrite assign_ok by (by eapply vget_Some_range). simpl. intros [= <-].
  do 4 eexists. split; [done|]. apply pop_goal_local; [done..|].
  exists cr, cw, pend, 1%nat. destruct HC. by split.
Qed.

Lemma pop6_ok rd x n r : pC = Pop6 rd x → pop_step cap 2 1 n m pC vC = Some r → goal r.
Proof using HC Hlg.
  intros Hp. pose proof (cr_cpc _ _ _ _ _ _ _ _ _ _ _ HC) as Hpc.
  rewrite Hp in Hpc |- *. cbn [pop_step cons_pc] in *. destruct Hpc as (-> & Htk & Hroom & Hx).
  destruct HC as [Hw Hr HP HCo Hppc _ Hb Hfifo]. rewrite Htk in Hb.
  destruct (release_store _ _ _ _ _) as [h v'] eqn:E.
  destruct (release_spec _ _ _ _ _ _ _ _ _ _ Hr E) as [-> ->].
  intros [= <-]. do 4 eexists. split; [done|]. unfold pop_goal. simpl. rewrite app_nil_r.
  exists cr, cw, pend, 0%nat. destruct HCo as [Hview Hs Hclk Ho Hv Hlag Hfit]. unfold view_ok in Hview.
  assert (length (outs ++ [x]) = S R) as Hlen by (rewrite length_app; simpl; lia).
  split; simpl; rewrite ?Hlen.
  - eapply hist_ok_mono; [..|done]; lia.
  - apply hist_ok_store.
    + eapply hist_ok_mono; [..|done]; lia.
    + by rewrite u64_succ, Nat2Z.inj_succ, Z.add_1_r.
    + simpl. lia.
    + unfold view_ok. simpl. lia.
  - destruct HP as [Hcv ? ? ? ? ? ?]. split; try done. eapply view_ok_mono; [..|done]; lia.
  - split; simpl; try done; try lia.
    + unfold view_ok. simpl. lia.
    + eapply owned_mono; [|done]. intros u. simpl. case_match; lia.
  - done.
  - done.
  - by rewrite Nat.add_1_r in Hb; rewrite Nat.add_0_r.
  - rewrite (take_S_r _ _ _ Hx). by rewrite <- Hfifo.
Qed.

Lemma pop_ok n r : pop_step cap 2 1 n m pC vC = Some r → goal r.
Proof using HC Hlg.
  intros Hrun. assert (∃ q, pC = q) as [q Hq] by eauto.
  destruct q; try (rewrite Hq in Hrun; done);
    eauto using pop0_ok, pop1_ok, pop2_ok, pop3_ok, pop4_ok, pop5_ok, pop6_ok.
Qed.
End pop_steps.

(** ** The machine *)

Definition inv (s : state) : Prop :=
  ∃ pP pC vP vC, st_threads s = [mkThread pP vP; mkThread pC vC] ∧
    safe (st_mem s) (pushes (st_log s)) (pops (st_log s)) pP pC vP vC.

Lemma cell_init_slot x j : 0 ≤ j → slot_ok 0 0 [] j (cell_init x : cell T).
Proof using Hlg. intros. repeat split; try done; left; simpl; lia. Qed.

Lemma hist_init a : hist_ok a [mkStore 0 view_zero] 0 0 0.
Proof.
  split; [done|]. intros [|i] s; simpl; [intros [= <-]|by destruct i].
  repeat split; simpl; lia.
Qed.

Lemma owned_init {A} v (x : A) : owned v (cell_init x).
Proof. split; [done|]. simpl. lia. Qed.

Lemma inv_init : inv (init cap 2 zero).
Proof using Hlg.
  do 4 eexists. split; [done|]. pose proof cap_pos.
  exists 0%nat, 0%nat, [], 0%nat. split; simpl.
  - apply hist_init.
  - apply hist_init.
  - split; simpl; try done; try lia; [repeat split; simpl; lia|apply owned_init].
  - split; simpl; try done; try lia; [repeat split; simpl; lia|apply owned_init].
  - done.
  - done.
  - split; [vlen_lia|]. intros j c Hj.
    pose proof (vget_Some_range _ _ _ Hj). apply vget_replicate in Hj. subst c.
    apply cell_init_slot. lia.
  - done.
Qed.

Lemma pushes_app l k : pushes (l ++ k) = pushes l ++ pushes k :> list T.
Proof. apply omap_app. Qed.
Lemma pops_app l k : pops (l ++ k) = pops l ++ pops k :> list T.
Proof. apply omap_app. Qed.

(** The two halves never mix: a producer's position is not a consumer's. *)
Lemma prod_no_pop m ins outs pP pC vP vC n : safe m ins outs pP pC vP vC → pop_step cap 2 0 n m pP vP = None.
Proof.
  intros (cr & cw & pend & tk & HC). pose proof (cr_ppc _ _ _ _ _ _ _ _ _ _ _ HC).
  by destruct pP.
Qed.

Lemma cons_no_push m ins outs pP pC vP vC n : safe m ins outs pP pC vP vC → push_step cap 2 1 n m pC vC = None.
Proof.
  intros (cr & cw & pend & tk & HC). pose proof (cr_cpc _ _ _ _ _ _ _ _ _ _ _ HC).
  by destruct pC.
Qed.

Lemma inv_call s t c s' : inv s → spsc_label (Call t c) → step cap s (Call t c) = Some (Ret s') → inv s'.
Proof.
  intros (pP & pC & vP & vC & Hth & cr & cw & pend & tk & HC) Hl. simpl. rewrite Hth.
  destruct c as [x|]; simpl in Hl; subst t; simpl.
  - destruct pP eqn:Hp; try done. intros [= <-]. do 4 eexists. split; [done|]. simpl.
    exists cr, cw, pend, tk. destruct HC. split; try done.
  - destruct pC eqn:Hp; try done. intros [= <-]. do 4 eexists. split; [done|]. simpl.
    exists cr, cw, pend, tk. destruct HC. split; try done.
Qed.

Lemma inv_run s t n r : inv s → step cap s (Run t n) = Some r → ∃ s', r = Ret s' ∧ inv s'.
Proof using Hlg.
  intros (pP & pC & vP & vC & Hth & HS). simpl. rewrite Hth. destruct t as [|[|t]]; simpl; [| |done].
  - rewrite (prod_no_pop _ _ _ _ _ _ _ n HS). destruct HS as (cr & cw & pend & tk & HC).
    destruct (push_step _ _ _ _ _ _ _) as [o|] eqn:E; [|done].
    destruct (push_ok _ _ _ _ _ _ _ _ _ _ _ HC n o E) as (m' & p' & v' & es & -> & HS').
    intros [= <-]. eexists. split; [done|]. do 4 eexists. split; [done|]. simpl.
    rewrite pushes_app, pops_app. exact HS'.
  - rewrite (cons_no_push _ _ _ _ _ _ _ n HS). destruct HS as (cr & cw & pend & tk & HC).
    destruct (pop_step _ _ _ _ _ _ _) as [o|] eqn:E; [|done].
    destruct (pop_ok _ _ _ _ _ _ _ _ _ _ _ HC n o E) as (m' & p' & v' & es & -> & HS').
    intros [= <-]. eexists. split; [done|]. do 4 eexists. split; [done|]. simpl.
    rewrite pushes_app, pops_app. exact HS'.
Qed.

Lemma reachable_inv s : reachable cap zero s → inv s.
Proof using Hlg.
  induction 1 as [|s l s' _ IH Hl Hs]; [apply inv_init|].
  destruct l as [t c|t n]; [by eapply inv_call|].
  destruct (inv_run s t n _ IH Hs) as (s2 & [= ->] & ?). done.
Qed.

(** ** Wait-freedom *)

(** Accesses left in a call, at most. *)
Definition remaining (p : pc) : nat :=
  match p with
  | Idle => 0
  | Push0 _ | Pop0 => 7
  | Push1 _ _ | Pop1 _ => 6
  | Push2 _ _ | Pop2 _ => 5
  | Push3 _ _ _ | Pop3 _ _ => 4
  | Push4 _ _ | Pop4 _ => 3
  | Push5 _ _ | Pop5 _ => 2
  | Push6 _ _ | Pop6 _ _ => 1
  end.

Lemma push_decreases nt t n m p v m' p' v' es :
  push_step cap nt t n m p v = Some (Ret (m', mkThread p' v', es)) → (remaining p' < remaining p)%nat.
Proof.
  destruct p; simpl; try done; unfold load_or, try, goto, done_with;
    intros H; repeat case_match; simplify_eq/=; try done; lia.
Qed.

Lemma pop_decreases nt t n m p v m' p' v' es :
  pop_step cap nt t n m p v = Some (Ret (m', mkThread p' v', es)) → (remaining p' < remaining p)%nat.
Proof.
  destruct p; simpl; try done; unfold load_or, try, goto, done_with;
    intros H; repeat case_match; simplify_eq/=; try done; lia.
Qed.

(** Reading the latest store is always possible. *)
Lemma load_possible a h n W R acq v :
  hist_ok a h n W R → (seen v a ≤ n)%nat → ∃ r, atomic_load h a acq n v = Some r.
Proof.
  intros [Hlen Hh] Hs. unfold atomic_load. destruct (Nat.leb_spec (seen v a) n); [|lia].
  destruct (lookup_lt_is_Some_2 h n) as [s ->]; [lia|]. eauto.
Qed.

Section enabled.
Context (m : mem) (ins outs : list T) (pP pC : pc) (vP vC : view) (cr cw : nat)
  (pend : list T) (taken : nat).
Context (HC : core m ins outs pP pC vP vC cr cw pend taken).

Lemma push_enabled : pP ≠ Idle → ∃ n r, push_step cap 2 0 n m pP vP = Some r.
Proof using HC.
  intros Hidle. pose proof (cr_ppc _ _ _ _ _ _ _ _ _ _ _ HC) as Hpc.
  destruct (cr_prod _ _ _ _ _ _ _ _ _ _ _ HC) as [(Hs1 & Hs2 & _) _ _ _ _ _ _].
  destruct (load_possible _ _ _ _ _ false vP (cr_write _ _ _ _ _ _ _ _ _ _ _ HC) Hs1) as [r0 Hr0].
  destruct (load_possible _ _ _ _ _ true vP (cr_read _ _ _ _ _ _ _ _ _ _ _ HC) Hs2) as [r2 Hr2].
  destruct pP; simpl in Hpc; try done;
    [exists (length ins)|exists 0%nat|exists (length outs)|exists 0%nat..];
    simpl; rewrite ?Hr0, ?Hr2; unfold load_or, try, goto, done_with; repeat case_match; eauto.
Qed.

Lemma pop_enabled : pC ≠ Idle → ∃ n r, pop_step cap 2 1 n m pC vC = Some r.
Proof using HC.
  intros Hidle. pose proof (cr_cpc _ _ _ _ _ _ _ _ _ _ _ HC) as Hpc.
  destruct (cr_cons _ _ _ _ _ _ _ _ _ _ _ HC) as [(Hs1 & Hs2 & _) _ _ _ _ _ _].
  destruct (load_possible _ _ _ _ _ true vC (cr_write _ _ _ _ _ _ _ _ _ _ _ HC) Hs1) as [r0 Hr0].
  destruct (load_possible _ _ _ _ _ false vC (cr_read _ _ _ _ _ _ _ _ _ _ _ HC) Hs2) as [r2 Hr2].
  destruct pC; simpl in Hpc; try done;
    [exists (length outs)|exists 0%nat|exists (length ins)|exists 0%nat..];
    simpl; rewrite ?Hr0, ?Hr2; unfold load_or, try, goto, done_with; repeat case_match; eauto.
Qed.
End enabled.

Definition left_of (s : state) (t : nat) : nat :=
  match st_threads s !! t with Some th => remaining (t_pc (T := T) th) | None => 0 end.

Lemma run_enabled s t :
  inv s → (0 < left_of s t)%nat → ∃ n r, step cap s (Run t n) = Some r.
Proof.
  intros (pP & pC & vP & vC & Hth & cr & cw & pend & tk & HC). unfold left_of. simpl. rewrite Hth.
  destruct t as [|[|t]]; simpl; [| |lia]; intros Hleft.
  - destruct (push_enabled _ _ _ _ _ _ _ _ _ _ _ HC) as (n & r & Hr); [intros ->; simpl in Hleft; lia|].
    exists n. rewrite Hr. destruct r as [[[m' th] es]|f]; eauto.
  - destruct (pop_enabled _ _ _ _ _ _ _ _ _ _ _ HC) as (n & r & Hr); [intros ->; simpl in Hleft; lia|].
    exists n. rewrite (cons_no_push _ _ _ _ _ _ _ n (ex_intro _ cr (ex_intro _ cw
      (ex_intro _ pend (ex_intro _ tk HC))))), Hr. destruct r as [[[m' th] es]|f]; eauto.
Qed.

Lemma run_decreases s t n s' :
  step cap s (Run t n) = Some (Ret s') → (left_of s' t < left_of s t)%nat.
Proof.
  unfold left_of. simpl. destruct (st_threads s !! t) as [[p v]|] eqn:Ht; [|done].
  pose proof (lookup_lt_Some _ _ _ Ht) as Hlt. simpl.
  destruct (push_step _ _ _ _ _ _ _) as [[[[m' [p' v']] es]|f]|] eqn:E; [|done|].
  - intros [= <-]. simpl. rewrite list_lookup_insert_eq by done. by eapply push_decreases.
  - destruct (pop_step _ _ _ _ _ _ _) as [[[[m' [p' v']] es]|f]|] eqn:E'; [|done..].
    intros [= <-]. simpl. rewrite list_lookup_insert_eq by done. by eapply pop_decreases.
Qed.
End spsc.

(** ** Properties *)

(** The capacity, two threads, and a run that fills and drains the ring twice. *)
Definition demo_labels : list (@label Z) :=
  [Call 0 (CPush 7); Run 0 0; Run 0 0; Run 0 0; Call 1 CPop; Run 1 0; Run 1 0; Run 0 0;
   Run 1 1; Run 1 0; Run 1 0].

Lemma run_reachable {T} cap (zero : T) ls : ∀ s s',
  reachable cap zero s → Forall spsc_label ls → run cap s ls = Some (Ret s') → reachable cap zero s'.
Proof.
  induction ls as [|l ls IH]; intros s s' Hs Hl; simpl; [by intros [= <-]|].
  apply Forall_cons in Hl as [Hl Hls]. destruct (step cap s l) as [[s1|]|] eqn:E; [|done..].
  apply IH; [by eapply reach_step|done].
Qed.

(** C3. With one thread pushing and one popping, whatever the interleaving and
    whichever stores the atomic loads return, no step is a data race or an
    out-of-bounds access. *)
Theorem spsc_race_free {T} lg (zero : T) s l r :
  0 ≤ lg < 64 → reachable (2 ^ lg) zero s → spsc_label l → step (2 ^ lg) s l = Some r →
  ∃ s', r = Ret s'.
Proof.
  intros Hlg Hs Hl Hstep. apply (reachable_inv zero lg Hlg) in Hs. destruct l as [t c|t n].
  - simpl in Hstep. repeat case_match; try done. injection Hstep as <-. eauto.
  - destruct (inv_run lg Hlg s t n r Hs Hstep) as (s' & ? & _). eauto.
Qed.

Lemma spsc_race_free_witness :
  ∃ s s', reachable 2 0 s ∧ step 2 s (Run 1 0) = Some (Ret s').
Proof.
  destruct (run 2 (init 2 2 0) demo_labels) as [[s|]|] eqn:E; [|vm_compute in E; congruence..].
  assert (reachable 2 0 s) as Hs.
  { eapply run_reachable; [apply reach_init| |exact E]. repeat constructor. }
  destruct (step 2 s (Run 1 0)) as [r|] eqn:Er.
  2: { vm_compute in E. injection E as <-. vm_compute in Er. congruence. }
  destruct (spsc_race_free 1 0 s (Run 1 0) r ltac:(lia) Hs I Er) as [s' ->].
  exists s, s'. split; [exact Hs|exact Er].
Defined.

(** C5. In every reachable state of the concurrent machine the values popped
    are a prefix of the values pushed, in order, and at most [Capacity] values
    are in between: nothing is lost, repeated, reordered or torn. *)
Theorem spsc_concurrent_fifo {T} lg (zero : T) s :
  0 ≤ lg < 64 → reachable (2 ^ lg) zero s →
  ∃ inside, pushes (st_log s) = pops (st_log s) ++ inside ∧ vlen inside ≤ 2 ^ lg.
Proof.
  intros Hlg Hs. apply (reachable_inv zero lg Hlg) in Hs as (pP & pC & vP & vC & _ & cr & cw & pend & tk & HC).
  exists (drop (length (pops (st_log s))) (pushes (st_log s))). split.
  - pose proof (cr_fifo _ _ _ _ _ _ _ _ _ _ _ _ HC) as Hf.
    rewrite <- (take_drop (length (pops (st_log s))) (pushes (st_log s))) at 1. by rewrite <- Hf.
  - destruct (cr_prod _ _ _ _ _ _ _ _ _ _ _ _ HC) as [(_ & Hs & _) _ _ _ _ Hlag Hfit].
    unfold vlen. rewrite length_drop. lia.
Qed.

Lemma spsc_concurrent_fifo_witness :
  ∃ s inside, reachable 2 0 s ∧ pushes (st_log s) = pops (st_log s) ++ inside.
Proof.
  destruct (run 2 (init 2 2 0) demo_labels) as [[s|]|] eqn:E; [|vm_compute in E; congruence..].
  assert (reachable 2 0 s) as Hs.
  { eapply run_reachable; [apply reach_init| |exact E]. repeat constructor. }
  destruct (spsc_concurrent_fifo 1 0 s ltac:(lia) Hs) as (inside & H & _).
  exists s, inside. split; [exact Hs|exact H].
Defined.

(** C20. Both operations are wait-free: a thread inside a call can always take
    its next access, whatever the other thread is doing, and each access it
    takes leaves strictly fewer, of at most seven. *)
Theorem spsc_wait_free {T} lg (zero : T) s t :
  0 ≤ lg < 64 → reachable (2 ^ lg) zero s → (0 < left_of s t)%nat →
  (left_of s t ≤ 7)%nat ∧ (∃ n s', step (2 ^ lg) s (Run t n) = Some (Ret s')) ∧
  ∀ n s', step (2 ^ lg) s (Run t n) = Some (Ret s') → (left_of s' t < left_of s t)%nat.
Proof.
  intros Hlg Hs Hleft. apply (reachable_inv zero lg Hlg) in Hs. split; [|split].
  - unfold left_of. destruct (st_threads s !! t) as [[p v]|]; [|lia]. destruct p; simpl; lia.
  - destruct (run_enabled lg s t Hs Hleft) as (n & r & Hr).
    destruct (inv_run lg Hlg s t n r Hs Hr) as (s' & -> & _). eauto.
  - intros n s'. apply run_decreases.
Qed.

Lemma spsc_wait_free_witness :
  ∃ s n s', reachable 2 0 s ∧ step 2 s (Run 1 n) = Some (Ret s').
Proof.
  destruct (run 2 (init 2 2 0) demo_labels) as [[s|]|] eqn:E; [|vm_compute in E; congruence..].
  assert (reachable 2 0 s) as Hs.
  { eapply run_reachable; [apply reach_init| |exact E]. repeat constructor. }
  assert (0 < left_of s 1)%nat as Hl.
  { vm_compute in E. injection E as <-. vm_compute. lia. }
  destruct (spsc_wait_free 1 0 s 1 ltac:(lia) Hs Hl) as (_ & (n & s' & H) & _).
  exists s, n, s'. split; [exact Hs|exact H].
Defined.

(** With two producers the same code has a data race: both load the same
    index and write the same slot. *)
Lemma two_producers_race :
  run 2 (init 2 2 0) [Call 0 (CPush 7); Run 0 0; Run 0 0; Run 0 0;
                      Call 1 (CPush 8); Run 1 0; Run 1 0; Run 1 0] = Some (Fault DataRace).
Proof. vm_compute. reflexivity. Qed.
