(* ===== verification/RaceDemo.v ===== *)
(** * The race demonstration

    [tools/spsc_race_demo.cpp]: producers that share one ring ([run_broken]) and
    producers that own one ring each, merged by a sequencer that is the only
    writer of the downstream ring ([run_fixed]). Both are modelled as machines
    whose threads a scheduler interleaves, with the clock reading of each turn
    chosen by the scheduler too. In [run_fixed] a turn is one call on a ring, which
    [SpscRaceFree] justifies, since every ring there has one producer and one
    consumer; in [run_broken] it has not, and a turn is a single access. *)

From S2P Require Import Prelude Message SpscQueue.

#[local] Open Scope Z_scope.
#[local] Open Scope llte_scope.

Module RaceDemo.

Definition kQueueCapacity : Z := 1024.
Definition kDeadlineCheckInterval : Z := 4096.

Record Item := mkItem { producer : Z; sequence : Z; checksum : Z }.

#[export] Instance Item_eq_dec : EqDecision Item.
Proof. solve_decision. Defined.

Definition checksum_for (producer sequence : Z) : Z :=
  Z.lxor (u64 (producer * 0x9e3779b97f4a7c15)) (u64 (sequence * 0xbf58476d1ce4e5b9)).

(** The item a producer thread builds in its loop, and [Item{}]. *)
Definition make_item (id i : Z) : Item := mkItem (u64 id) i (checksum_for (u64 id) i).
Definition zero_item : Item := mkItem 0 0 0.

Record Verdict := mkVerdict {
  sent : Z;
  received : Z;
  corrupted : Z;
  out_of_order : Z;
  stalled_pushes : Z;
  hit_time_budget : bool
}.

(** ** The verifier *)

Record Verifier := mkVerifier {
  next_expected_ : list Z;
  received_ : Z;
  corrupted_ : Z;
  out_of_order_ : Z
}.

Definition make_verifier (producer_count : Z) : Verifier :=
  mkVerifier (replicate (Z.to_nat producer_count) 0) 0 0 0.

Definition check (v : Verifier) (item : Item) : outcome Verifier :=
  let received := u64 (received_ v + 1) in
  if (vlen (next_expected_ v) <=? producer item) ||
     negb (checksum item =? checksum_for (producer item) (sequence item))
  then Ret (mkVerifier (next_expected_ v) received (u64 (corrupted_ v + 1)) (out_of_order_ v))
  else
    expected ← load (next_expected_ v) (producer item);
    next_expected ← assign (next_expected_ v) (producer item) (u64 (sequence item + 1));
    Ret (mkVerifier next_expected received (corrupted_ v)
          (if sequence item =? expected then out_of_order_ v else u64 (out_of_order_ v + 1))).

Definition publish (v : Verifier) (verdict : Verdict) : Verdict :=
  mkVerdict (sent verdict) (received_ v) (corrupted_ v) (out_of_order_ v)
    (stalled_pushes verdict) (hit_time_budget verdict).

(** ** [main]: what a verdict is reported as *)

Definition lost (v : Verdict) : Z := if received v <? sent v then u64 (sent v - received v) else 0.

Definition clean (v : Verdict) : bool :=
  (lost v =? 0) && (corrupted v =? 0) && (out_of_order v =? 0) && (stalled_pushes v =? 0) &&
  negb (hit_time_budget v).

Definition exit_code (v : Verdict) : Z := if clean v then 0 else 1.

(** ** [run_fixed] *)

(** One turn of [push_bounded]: pushed, given up at the deadline, or to be tried
    again with one spin more. *)
Inductive attempt :=
  | Pushed
  | GaveUp
  | Again (spins : Z).

Definition expired (spins now deadline_ns : Z) : bool :=
  (spins mod kDeadlineCheckInterval =? 0) && (deadline_ns <? now).

Definition push_bounded (queue : Spsc.t Item) (item : Item) (deadline_ns spins now : Z)
    : outcome (Spsc.t Item * attempt) :=
  '(queue, ok) ← Spsc.try_push kQueueCapacity queue item;
  Ret (queue,
       if ok : bool then Pushed
       else if expired spins now deadline_ns then GaveUp else Again (u64 (spins + 1))).

(** Where each thread is in its loop. *)
Inductive producer_pc :=
  | Sending (i spins : Z)
  | Finished.

Inductive sequencer_pc :=
  | Scan (k : Z) (moved : bool)                 (* queue->try_pop(item) of inbound[k] *)
  | Forward (k : Z) (item : Item) (spins : Z)   (* push_bounded(downstream, item) *)
  | Drain (k : Z) (drained : bool)              (* drained && queue->empty() *)
  | Stopped.

Inductive consumer_pc :=
  | AtPop          (* downstream.try_pop(item) *)
  | AtDone         (* sequencer_done.load(acquire) *)
  | AtEmpty        (* downstream.empty() *)
  | Returned.

Record fixed := mkFixed {
  producers : list producer_pc;
  inbound : list (Spsc.t Item);
  downstream : Spsc.t Item;
  finished : Z;
  sequencer_done : bool;
  stalled : Z;
  sequencer : sequencer_pc;
  verifier : Verifier;
  consumer : consumer_pc
}.

Inductive thread := Producer (id : Z) | Sequencer | Consumer.

Section fixed_machine.
Context (producer_count per_producer deadline_ns : Z).

Definition fixed_start : fixed :=
  mkFixed (replicate (Z.to_nat producer_count) (Sending 0 0))
    (replicate (Z.to_nat producer_count) (Spsc.make kQueueCapacity zero_item))
    (Spsc.make kQueueCapacity zero_item) 0 false 0 (Scan 0 false) (make_verifier producer_count) AtPop.

Definition set_producer (w : fixed) (id : Z) (p : producer_pc) (queue : Spsc.t Item)
    (finished stalled : Z) : fixed :=
  mkFixed ((producers w)⟦id := p⟧) ((inbound w)⟦id := queue⟧) (downstream w) finished
    (sequencer_done w) stalled (sequencer w) (verifier w) (consumer w).

Definition set_sequencer (w : fixed) (s : sequencer_pc) (inbound : list (Spsc.t Item))
    (downstream : Spsc.t Item) (done : bool) (stalled : Z) : fixed :=
  mkFixed (producers w) inbound downstream (finished w) done stalled s (verifier w) (consumer w).

Definition set_consumer (w : fixed) (c : consumer_pc) (downstream : Spsc.t Item) (v : Verifier)
    : fixed :=
  mkFixed (producers w) (inbound w) downstream (finished w) (sequencer_done w) (stalled w)
    (sequencer w) v c.

(** The thread [id] of [producers]. [finished] counts threads, so it stays
    inside [int]. *)
Definition producer_turn (w : fixed) (id now : Z) : outcome fixed :=
  match (producers w)⟦id⟧ with
  | Some (Sending i spins) =>
      queue ← load (inbound w) id;
      if i <? per_producer then
        '(queue, a) ← push_bounded queue (make_item id i) deadline_ns spins now;
        Ret (match a with
             | Pushed => set_producer w id (Sending (u64 (i + 1)) 0) queue (finished w) (stalled w)
             | GaveUp =>
                 set_producer w id (Sending (u64 (i + 1)) 0) queue (finished w) (u64 (stalled w + 1))
             | Again spins => set_producer w id (Sending i spins) queue (finished w) (stalled w)
             end)
      else Ret (set_producer w id Finished queue (finished w + 1) (stalled w))
  | Some Finished | None => Ret w
  end.

Definition sequencer_turn (w : fixed) (now : Z) : outcome fixed :=
  let go s := set_sequencer w s (inbound w) (downstream w) (sequencer_done w) (stalled w) in
  match sequencer w with
  | Scan k moved =>
      if k <? vlen (inbound w) then
        queue ← load (inbound w) k;
        '(queue, out) ← Spsc.try_pop kQueueCapacity queue;
        Ret (set_sequencer w
               (match out with Some item => Forward k item 0 | None => Scan (k + 1) moved end)
               ((inbound w)⟦k := queue⟧) (downstream w) (sequencer_done w) (stalled w))
      else if moved || negb (finished w =? producer_count) then Ret (go (Scan 0 false))
      else Ret (go (Drain 0 true))
  | Forward k item spins =>
      '(queue, a) ← push_bounded (downstream w) item deadline_ns spins now;
      Ret (match a with
           | Pushed =>
               set_sequencer w (Scan (k + 1) true) (inbound w) queue (sequencer_done w) (stalled w)
           | GaveUp =>
               set_sequencer w (Scan (k + 1) true) (inbound w) queue (sequencer_done w)
                 (u64 (stalled w + 1))
           | Again spins =>
               set_sequencer w (Forward k item spins) (inbound w) queue (sequencer_done w) (stalled w)
           end)
  | Drain k drained =>
      if k <? vlen (inbound w) then
        queue ← load (inbound w) k;
        Ret (go (Drain (k + 1) (drained && Spsc.empty queue)))
      else if drained then Ret (set_sequencer w Stopped (inbound w) (downstream w) true (stalled w))
      else Ret (go (Scan 0 false))
  | Stopped => Ret w
  end.

Definition consumer_turn (w : fixed) : outcome fixed :=
  match consumer w with
  | AtPop =>
      '(queue, out) ← Spsc.try_pop kQueueCapacity (downstream w);
      match out with
      | Some item => v ← check (verifier w) item; Ret (set_consumer w AtPop queue v)
      | None => Ret (set_consumer w AtDone queue (verifier w))
      end
  | AtDone => Ret (set_consumer w (if sequencer_done w then AtEmpty else AtPop) (downstream w) (verifier w))
  | AtEmpty =>
      Ret (set_consumer w (if Spsc.empty (downstream w) then Returned else AtPop) (downstream w)
             (verifier w))
  | Returned => Ret w
  end.

Definition turn (w : fixed) (t : thread) (now : Z) : outcome fixed :=
  match t with
  | Producer id => producer_turn w id now
  | Sequencer => sequencer_turn w now
  | Consumer => consumer_turn w
  end.

Fixpoint run_fixed (w : fixed) (schedule : list (thread * Z)) : outcome fixed :=
  match schedule with
  | [] => Ret w
  | (t, now) :: schedule => w ← turn w t now; run_fixed w schedule
  end.

(** The joins: every thread has returned. *)
Definition joined (w : fixed) : bool :=
  forallb (λ p, match p with Finished => true | _ => false end) (producers w) &&
  match sequencer w with Stopped => true | _ => false end &&
  match consumer w with Returned => true | _ => false end.

Definition fixed_verdict (w : fixed) : Verdict :=
  publish (verifier w) (mkVerdict (u64 (producer_count * per_producer)) 0 0 0 (stalled w) false).
End fixed_machine.

(** ** [run_broken] *)

(** The accesses of [try_push] and [try_pop], one at a time: with several
    producers the calls are no longer atomic. A slot is read or written whole. *)
Inductive push_pc :=
  | LoadWrite                       (* write = write_idx_.load() *)
  | TestCached (write : Z)          (* write - cached_read_idx_ >= Capacity *)
  | LoadRead (write : Z)            (* read_idx_.load() *)
  | StoreCached (write read : Z)    (* cached_read_idx_ = ... *)
  | TestAgain (write : Z)
  | StoreSlot (write : Z)           (* buffer_[write & kMask] = value *)
  | StoreWrite (write : Z).         (* write_idx_.store(write + 1) *)

Inductive pop_pc :=
  | LoadRead'                       (* read = read_idx_.load() *)
  | TestWrite (read : Z)            (* read == cached_write_idx_, refreshed if so *)
  | LoadSlot (read : Z)             (* out = buffer_[read & kMask] *)
  | StoreRead (read : Z) (out : Item).

(** What one access leads to: the next one, or the end of the call. *)
Inductive after (pc res : Type) :=
  | Next (pc' : pc)
  | Done (r : res).
Arguments Next {pc res} pc'.
Arguments Done {pc res} r.

Definition push_access (q : Spsc.t Item) (value : Item) (pc : push_pc)
    : outcome (Spsc.t Item * after push_pc bool) :=
  let full write := Spsc.full kQueueCapacity write (Spsc.cached_read_idx_ q) in
  match pc with
  | LoadWrite => Ret (q, Next (TestCached (Spsc.write_idx_ q)))
  | TestCached write => Ret (q, Next (if full write then LoadRead write else StoreSlot write))
  | LoadRead write => Ret (q, Next (StoreCached write (Spsc.read_idx_ q)))
  | StoreCached write read =>
      Ret (Spsc.mkQueue (Spsc.write_idx_ q) read (Spsc.read_idx_ q) (Spsc.cached_write_idx_ q)
             (Spsc.buffer_ q), Next (TestAgain write))
  | TestAgain write => Ret (q, if full write then Done false else Next (StoreSlot write))
  | StoreSlot write =>
      buffer ← assign (Spsc.buffer_ q) (Z.land write (Spsc.kMask kQueueCapacity)) value;
      Ret (Spsc.mkQueue (Spsc.write_idx_ q) (Spsc.cached_read_idx_ q) (Spsc.read_idx_ q)
             (Spsc.cached_write_idx_ q) buffer, Next (StoreWrite write))
  | StoreWrite write =>
      Ret (Spsc.mkQueue (u64 (write + 1)) (Spsc.cached_read_idx_ q) (Spsc.read_idx_ q)
             (Spsc.cached_write_idx_ q) (Spsc.buffer_ q), Done true)
  end.

(** [cached_write_idx_] is the consumer's own, so its test and its refresh make
    one access to shared memory. *)
Definition pop_access (q : Spsc.t Item) (pc : pop_pc)
    : outcome (Spsc.t Item * after pop_pc (option Item)) :=
  match pc with
  | LoadRead' => Ret (q, Next (TestWrite (Spsc.read_idx_ q)))
  | TestWrite read =>
      let cached_write :=
        if read =? Spsc.cached_write_idx_ q then Spsc.write_idx_ q else Spsc.cached_write_idx_ q in
      Ret (Spsc.mkQueue (Spsc.write_idx_ q) (Spsc.cached_read_idx_ q) (Spsc.read_idx_ q) cached_write
             (Spsc.buffer_ q),
           if read =? cached_write then Done None else Next (LoadSlot read))
  | LoadSlot read =>
      out ← load (Spsc.buffer_ q) (Z.land read (Spsc.kMask kQueueCapacity));
      Ret (q, Next (StoreRead read out))
  | StoreRead read out =>
      Ret (Spsc.mkQueue (Spsc.write_idx_ q) (Spsc.cached_read_idx_ q) (u64 (read + 1))
             (Spsc.cached_write_idx_ q) (Spsc.buffer_ q), Done (Some out))
  end.

Inductive racing_producer :=
  | Racing (i spins : Z) (pc : push_pc)
  | Joined.

Inductive racing_consumer :=
  | Test (spins : Z)                   (* verifier.received() < expected_total *)
  | Popping (spins : Z) (pc : pop_pc)
  | LoadFinished (spins : Z)
  | TestEmpty (spins : Z)
  | Deadline (spins : Z)               (* ++spins % kDeadlineCheckInterval *)
  | Over.

Record broken := mkBroken {
  queue : Spsc.t Item;
  racing : list racing_producer;
  b_finished : Z;
  b_stalled : Z;
  gave_up : bool;
  b_verifier : Verifier;
  b_consumer : racing_consumer
}.

Section broken_machine.
Context (producer_count per_producer deadline_ns : Z).

Definition broken_start : broken :=
  mkBroken (Spsc.make kQueueCapacity zero_item)
    (replicate (Z.to_nat producer_count) (Racing 0 0 LoadWrite)) 0 0 false
    (make_verifier producer_count) (Test 0).

Definition set_racing (w : broken) (id : Z) (p : racing_producer) (queue : Spsc.t Item)
    (finished stalled : Z) : broken :=
  mkBroken queue ((racing w)⟦id := p⟧) finished stalled (gave_up w) (b_verifier w) (b_consumer w).

Definition racing_turn (w : broken) (id now : Z) : outcome broken :=
  match (racing w)⟦id⟧ with
  | Some (Racing i spins pc) =>
      if i <? per_producer then
        '(q, r) ← push_access (queue w) (make_item id i) pc;
        Ret (match r with
             | Next pc' => set_racing w id (Racing i spins pc') q (b_finished w) (b_stalled w)
             | Done true => set_racing w id (Racing (u64 (i + 1)) 0 LoadWrite) q (b_finished w) (b_stalled w)
             | Done false =>   (* at the deadline, break *)
                 if expired spins now deadline_ns
                 then set_racing w id (Racing per_producer 0 LoadWrite) q (b_finished w)
                        (u64 (b_stalled w + (per_producer - i)))
                 else set_racing w id (Racing i (u64 (spins + 1)) LoadWrite) q (b_finished w) (b_stalled w)
             end)
      else Ret (set_racing w id Joined (queue w) (b_finished w + 1) (b_stalled w))
  | Some Joined | None => Ret w
  end.

Definition set_reader (w : broken) (c : racing_consumer) (q : Spsc.t Item) (v : Verifier)
    (gave_up : bool) : broken :=
  mkBroken q (racing w) (b_finished w) (b_stalled w) gave_up v c.

Definition reader_turn (w : broken) (now : Z) : outcome broken :=
  let go c := set_reader w c (queue w) (b_verifier w) (gave_up w) in
  match b_consumer w with
  | Test spins =>
      Ret (go (if received_ (b_verifier w) <? u64 (producer_count * per_producer)
               then Popping spins LoadRead' else Over))
  | Popping spins pc =>
      '(q, r) ← pop_access (queue w) pc;
      match r with
      | Next pc' => Ret (set_reader w (Popping spins pc') q (b_verifier w) (gave_up w))
      | Done (Some item) =>
          v ← check (b_verifier w) item; Ret (set_reader w (Deadline spins) q v (gave_up w))
      | Done None => Ret (set_reader w (LoadFinished spins) q (b_verifier w) (gave_up w))
      end
  | LoadFinished spins =>
      Ret (go (if b_finished w =? producer_count then TestEmpty spins else Deadline spins))
  | TestEmpty spins => Ret (go (if Spsc.empty (queue w) then Over else Deadline spins))
  | Deadline spins =>
      let spins := u64 (spins + 1) in
      if expired spins now deadline_ns
      then Ret (set_reader w Over (queue w) (b_verifier w) true)
      else Ret (go (Test spins))
  | Over => Ret w
  end.

(** [Some id]: a turn of that producer; [None]: a turn of the consumer. *)
Fixpoint run_broken (w : broken) (schedule : list (option Z * Z)) : outcome broken :=
  match schedule with
  | [] => Ret w
  | (Some id, now) :: schedule => w ← racing_turn w id now; run_broken w schedule
  | (None, now) :: schedule => w ← reader_turn w now; run_broken w schedule
  end.

Definition broken_joined (w : broken) : bool :=
  forallb (λ p, match p with Joined => true | _ => false end) (racing w) &&
  match b_consumer w with Over => true | _ => false end.

Definition broken_verdict (w : broken) : Verdict :=
  publish (b_verifier w)
    (mkVerdict (u64 (producer_count * per_producer)) 0 0 0 (b_stalled w) (gave_up w)).
End broken_machine.
End RaceDemo.
