(* ===== verification/RaceDemoCorrect.v ===== *)
(** * The fixed pipeline of the race demonstration is intact

    The invariant of the machine of [RaceDemo] under every schedule: what the
    producers have handed over is in the inbound rings, in flight behind the
    sequencer, verified, or counted as stalled, and without stalls every
    producer's items are in order. *)

From S2P Require Import Prelude Message SpscQueue SpscConcurrent RaceDemo.
Import RaceDemo.

#[local] Open Scope Z_scope.
#[local] Open Scope llte_scope.

Section pipeline.
Context (n per deadline : Z) (Hn : 0 ≤ n) (Hper : 0 ≤ per) (Hfit : n * per < 2 ^ 64) (Hn64 : n < 2 ^ 64)
  (Hper64 : per < 2 ^ 64).
#[local] Abbreviation cap := kQueueCapacity.

(** ** Where the items are *)

Definition from (k : Z) (it : Item) : Prop := ∃ s, 0 ≤ s < per ∧ it = make_item k s.
Definition genuine (it : Item) : Prop := ∃ k, 0 ≤ k < n ∧ from k it.

(** [P]: how far each producer is; [Ls]: the inbound rings; [F]: the items behind
    the sequencer, oldest first; [st]: the stalled pushes. *)
Record data (P : list Z) (Ls : list (list Item)) (F : list Item) (v : Verifier) (st : Z) : Prop := {
  dt_lens : vlen P = n ∧ vlen Ls = n ∧ vlen (next_expected_ v) = n;
  dt_range : Forall (λ i, 0 ≤ i ≤ per) P;
  dt_items : ∀ k L, Ls⟦k⟧ = Some L → Forall (from k) L;
  dt_flight : Forall genuine F;
  dt_corrupted : corrupted_ v = 0;
  dt_count : received_ v + vlen F + total vlen Ls + st = total id P;
  dt_nonneg : 0 ≤ received_ v ∧ 0 ≤ st;
  dt_order : st = 0 → out_of_order_ v = 0 ∧
    ∀ k L i e, Ls⟦k⟧ = Some L → P⟦k⟧ = Some i → (next_expected_ v)⟦k⟧ = Some e →
      e ≤ i ∧ filter (λ it, producer it = k) F ++ L = make_item k <$> seqZ e (i - e)
}.

Lemma from_producer k it : 0 ≤ k < n → from k it → producer it = k.
Proof using All. intros Hk (s & _ & ->). simpl. apply u64_small. lia. Qed.

Lemma seqZ_snoc e i : e ≤ i → seqZ e (i + 1 - e) = seqZ e (i - e) ++ [i].
Proof.
  intros. replace (i + 1 - e) with ((i - e) + 1) by lia. rewrite seqZ_app by lia.
  f_equal. simpl. replace (e + (i - e)) with i by lia. done.
Qed.

Lemma data_bound P Ls F v st : data P Ls F v st →
  0 ≤ received_ v + vlen F + total vlen Ls + st ≤ n * per ∧ 0 ≤ total vlen Ls.
Proof using All.
  intros [(<- & _) Hr _ _ _ -> _ _].
  pose proof (total_bounds id 0 per P Hr). split; [lia|].
  assert (Forall (λ L : list Item, 0 ≤ vlen L) Ls) as Hall by (apply Forall_forall; intros; apply vlen_nonneg).
  induction Hall; simpl; lia.
Qed.

Lemma data_start : data (replicate (Z.to_nat n) 0) (replicate (Z.to_nat n) []) [] (make_verifier n) 0.
Proof using All.
  split; simpl; try done.
  - rewrite !vlen_replicate. lia.
  - apply Forall_replicate. lia.
  - intros k L H. apply vget_replicate in H as ->. constructor.
  - rewrite !total_replicate. unfold id, vlen. simpl. lia.
  - intros _. split; [done|]. intros k L i e HL Hi He.
    apply vget_replicate in HL as ->. apply vget_replicate in Hi as ->. apply vget_replicate in He as ->.
    split; [lia|done].
Qed.

(** A producer hands over its next item. *)
Lemma data_send P Ls F v st k i L :
  data P Ls F v st → P⟦k⟧ = Some i → Ls⟦k⟧ = Some L → i < per →
  data (P⟦k := i + 1⟧) (Ls⟦k := L ++ [make_item k i]⟧) F v st.
Proof using All.
  intros [(HP & HL & HE) Hr Hit Hf Hc Hct Hnn Ho] Hi HLk Hlt.
  pose proof (vget_Some_range _ _ _ Hi). pose proof (Forall_vget _ _ _ _ Hr Hi) as Hri. simpl in Hri.
  split; try done.
  - vlen_lia.
  - apply Forall_vset; [done|lia].
  - intros j L'. rewrite vget_vset. case_decide as Hj; [|apply Hit].
    intros [= <-]. destruct Hj as [<- _]. apply Forall_app. split; [by apply Hit|]. constructor; [|done].
    exists i. split; [lia|done].
  - rewrite (total_vset _ Ls k L), (total_vset _ P k i), vlen_snoc by done. unfold id in *. lia.
  - intros Hst. destruct (Ho Hst) as [Hoo Hfl]. split; [done|]. intros j L' i' e HL' Hi' He.
    rewrite vget_vset in HL'. rewrite vget_vset in Hi'. case_decide as Hj.
    + destruct Hj as [<- _]. rewrite decide_True in HL' by lia. simplify_eq.
      destruct (Hfl k L i e HLk Hi He) as [Hei Heq]. split; [lia|].
      by rewrite app_assoc, Heq, seqZ_snoc, fmap_app by lia.
    + rewrite decide_False in HL' by lia. by eapply Hfl.
Qed.

(** A producer gives up on its next item. *)
Lemma data_skip P Ls F v st k i :
  data P Ls F v st → P⟦k⟧ = Some i → i < per → data (P⟦k := i + 1⟧) Ls F v (st + 1).
Proof using All.
  intros [(HP & HL & HE) Hr Hit Hf Hc Hct Hnn Ho] Hi Hlt.
  pose proof (Forall_vget _ _ _ _ Hr Hi) as Hri. simpl in Hri. split; try done; [..|lia|lia].
  - vlen_lia.
  - apply Forall_vset; [done|lia].
  - rewrite (total_vset _ P k i) by done. unfold id in *. lia.
Qed.

(** The sequencer takes the oldest item of an inbound ring. *)
Lemma data_take P Ls F v st k it L :
  data P Ls F v st → Ls⟦k⟧ = Some (it :: L) → data P (Ls⟦k := L⟧) (F ++ [it]) v st.
Proof using All.
  intros [(HP & HL & HE) Hr Hit Hf Hc Hct Hnn Ho] HLk.
  pose proof (vget_Some_range _ _ _ HLk). pose proof (Hit k _ HLk) as [Hfrom HfL]%Forall_cons.
  pose proof (from_producer k it ltac:(lia) Hfrom) as Hprod.
  split; try done.
  - vlen_lia.
  - intros j L'. rewrite vget_vset. case_decide as Hj; [|apply Hit]. intros [= <-]. by destruct Hj as [<- _].
  - apply Forall_app. split; [done|]. constructor; [|done]. exists k. split; [lia|done].
  - rewrite (total_vset _ Ls k (it :: L)), vlen_snoc, vlen_cons by done. lia.
  - intros Hst. destruct (Ho Hst) as [Hoo Hfl]. split; [done|]. intros j L' i e HL' Hi He.
    rewrite filter_app. rewrite vget_vset in HL'. case_decide as Hj.
    + destruct Hj as [<- _]. injection HL' as <-. destruct (Hfl k _ i e HLk Hi He) as [Hei Heq].
      split; [done|]. rewrite filter_cons_True, filter_nil, <- app_assoc by done. done.
    + destruct (Hfl j _ i e HL' Hi He) as [Hei Heq]. split; [done|].
      rewrite filter_cons_False, filter_nil, app_nil_r; [done|]. intros Hp. apply Hj. lia.
Qed.

(** The sequencer gives up on the item it holds. *)
Lemma data_drop P Ls F it v st : data P Ls (F ++ [it]) v st → data P Ls F v (st + 1).
Proof using All.
  intros [HL Hr Hit Hf Hc Hct Hnn Ho]. split; try done; [..|lia|lia].
  - by apply Forall_app in Hf as [Hf _].
  - rewrite vlen_snoc in Hct. lia.
Qed.

(** The consumer verifies the oldest item in flight. *)
Lemma data_check P Ls F it v st :
  data P Ls (it :: F) v st → ∃ v', check v it = Ret v' ∧ data P Ls F v' st.
Proof using All.
  intros HD. pose proof (data_bound _ _ _ _ _ HD) as [Hb Hb2].
  destruct HD as [(HP & HL & HE) Hr Hit Hf Hc Hct Hnn Ho].
  apply Forall_cons in Hf as [(k & Hk & s & Hs & ->) Hf]. rewrite vlen_cons in Hct, Hb.
  pose proof (vlen_nonneg F). pose proof (from_producer k _ Hk (ex_intro _ s (conj Hs eq_refl))) as Hprod.
  assert (checksum (make_item k s) = checksum_for (producer (make_item k s)) s) as Hsum by done.
  unfold check. rewrite Hprod in *. change (sequence (make_item k s)) with s. rewrite Hsum, Z.eqb_refl.
  destruct (Z.leb_spec (vlen (next_expected_ v)) k); [lia|]. simpl.
  destruct (vget_is_Some (next_expected_ v) k) as [e He]; [lia|].
  rewrite (load_Some _ _ _ He), assign_ok by lia. returns. eexists. split; [done|].
  rewrite !u64_small by lia. split; simpl; try done; [vlen_lia|lia|lia|].
  intros Hst. destruct (Ho Hst) as [Hoo Hfl].
  destruct (vget_is_Some P k) as [i Hi]; [lia|]. destruct (vget_is_Some Ls k) as [L HLk]; [lia|].
  destruct (Hfl k L i e HLk Hi He) as [Hei Heq]. rewrite filter_cons_True in Heq by done.
  assert (e < i) as Hlt.
  { destruct (decide (e < i)); [done|]. replace (i - e) with 0 in Heq by lia. done. }
  rewrite seqZ_cons in Heq by lia. pose proof (f_equal (λ l, sequence <$> head l) Heq) as Hes.
  apply (f_equal tail) in Heq. simpl in Heq, Hes. injection Hes as Hes. subst s.
  rewrite Z.eqb_refl. split; [done|]. intros j L' i' e' HL' Hi' He'. rewrite vget_vset in He'.
  case_decide as Hj.
  - destruct Hj as [<- _]. simplify_eq. split; [lia|]. rewrite Heq. f_equal. f_equal; lia.
  - destruct (Hfl j L' i' e' HL' Hi' He') as [Hei' Heq']. split; [done|].
    rewrite filter_cons_False in Heq'; [done|]. rewrite Hprod. intros <-. apply Hj. lia.
Qed.

(** ** The whole machine *)

Definition progress (p : producer_pc) : Z := match p with Sending i _ => i | Finished => per end.
Definition is_finished (p : producer_pc) : Z := match p with Sending _ _ => 0 | Finished => 1 end.

(** What a producer still has to do: its items, at four moves each, and its end. *)
Definition left (p : producer_pc) : Z := match p with Sending i _ => 4 * (per - i) + 1 | Finished => 0 end.
Definition supply (w : fixed) (Ls : list (list Item)) : Z := total left (producers w) + 3 * total vlen Ls.
Definition able (S : list Z) (Ls : list (list Item)) (id : Z) : Prop :=
  ∃ l L, S⟦id⟧ = Some l ∧ Ls⟦id⟧ = Some L ∧ 0 < l ∧ (1 < l → vlen L < cap).

Definition all_finished (w : fixed) : Prop := Forall (λ p, p = Finished) (producers w).

(** The item the sequencer holds. *)
Definition hand (w : fixed) : list Item := match sequencer w with Forward _ it _ => [it] | _ => [] end.

Definition sequencer_ok (w : fixed) (Ls : list (list Item)) : Prop :=
  match sequencer w with
  | Scan k _ | Forward k _ _ => 0 ≤ k
  | Drain k drained =>
      0 ≤ k ∧ all_finished w ∧ (drained = true → ∀ j L, j < k → Ls⟦j⟧ = Some L → L = [])
  | Stopped => sequencer_done w = true ∧ all_finished w ∧ ∀ j L, Ls⟦j⟧ = Some L → L = []
  end.

Definition consumer_ok (w : fixed) (D : list Item) : Prop :=
  match consumer w with
  | AtPop | AtDone => True
  | AtEmpty => sequencer_done w = true
  | Returned => sequencer_done w = true ∧ D = []
  end.

Record inv (w : fixed) (Ls : list (list Item)) (D : list Item) : Prop := {
  iv_data : data (progress <$> producers w) Ls (D ++ hand w) (verifier w) (stalled w);
  iv_rings : Forall2 (Spsc.rep cap) (inbound w) Ls;
  iv_down : Spsc.rep cap (downstream w) D;
  iv_finished : finished w = total is_finished (producers w);
  iv_sequencer : sequencer_ok w Ls;
  iv_done : sequencer_done w = true → sequencer w = Stopped;
  iv_consumer : consumer_ok w D
}.

Lemma cap_pow : 0 ≤ 10 < 64 ∧ cap = 2 ^ 10.
Proof. done. Qed.

Lemma inv_start : inv (fixed_start n) (replicate (Z.to_nat n) []) [].
Proof using All.
  split; simpl; try done.
  - rewrite fmap_replicate. exact data_start.
  - apply Forall2_replicate. exact (Spsc.drained_rep cap 10 (proj1 cap_pow) eq_refl 0 zero_item ltac:(lia)).
  - exact (Spsc.drained_rep cap 10 (proj1 cap_pow) eq_refl 0 zero_item ltac:(lia)).
  - rewrite total_replicate. simpl. lia.
Qed.

(** [push_bounded] extends the queue when it reports success and only then. *)
Lemma push_bounded_spec q l it spins now :
  Spsc.rep cap q l → ∃ q' a, push_bounded q it deadline spins now = Ret (q', a) ∧
    Spsc.rep cap q' (match a with Pushed => l ++ [it] | _ => l end) ∧ (a ≠ Pushed → cap ≤ vlen l).
Proof using Type.
  intros HR. destruct (Spsc.try_push_spec cap 10 (proj1 cap_pow) eq_refl q l it HR) as (q' & Hq & HR').
  unfold push_bounded. rewrite Hq. returns. eexists q', _. split; [done|]. case_decide.
  - by rewrite bool_decide_true.
  - rewrite bool_decide_false by done. split; [by destruct (expired _ _ _)|lia].
Qed.

(** While a producer is sending, the sequencer is in its main loop. *)
Lemma sending_running w Ls D id i spins :
  inv w Ls D → (producers w)⟦id⟧ = Some (Sending i spins) →
  (match sequencer w with Scan k _ | Forward k _ _ => 0 ≤ k | _ => False end) ∧
  sequencer_done w = false ∧ (consumer w = AtPop ∨ consumer w = AtDone).
Proof using Type.
  intros [_ _ _ _ Hs Hd Hc] Hp. unfold sequencer_ok, consumer_ok, all_finished in *.
  assert (¬ Forall (λ p, p = Finished) (producers w)) as Hnot.
  { intros Hall. by pose proof (Forall_vget _ _ _ _ Hall Hp). }
  assert (match sequencer w with Scan k _ | Forward k _ _ => 0 ≤ k | _ => False end) as Hrun
    by (destruct (sequencer w); tauto).
  split; [done|]. destruct (sequencer_done w); [rewrite Hd in Hrun by done; done|].
  split; [done|]. destruct (consumer w); intuition congruence.
Qed.

(** A producer that is sending moves on: control of the others is untouched. *)
Lemma inv_set_producer w Ls D id i spins p q L fin st :
  inv w Ls D → (producers w)⟦id⟧ = Some (Sending i spins) → Spsc.rep cap q L →
  fin = finished w + is_finished p →
  data ((progress <$> producers w)⟦id := progress p⟧) (Ls⟦id := L⟧) (D ++ hand w) (verifier w) st →
  inv (set_producer w id p q fin st) (Ls⟦id := L⟧) D.
Proof using Type.
  intros HI Hp Hq -> HD. destruct (sending_running _ _ _ _ _ _ HI Hp) as (Hrun & Hdone & Hcons).
  destruct HI as [_ Hrings Hdown Hfin _ _ _]. split; simpl; try done.
  - unfold hand in *. simpl. by rewrite vset_fmap.
  - by apply Forall2_vset.
  - rewrite (total_vset _ _ id (Sending i spins)), Hfin by done. simpl. lia.
  - unfold sequencer_ok. simpl. by destruct (sequencer w).
  - congruence.
  - unfold consumer_ok. simpl. by destruct Hcons as [-> | ->].
Qed.

Lemma producer_turn_inv w Ls D id now :
  inv w Ls D → ∃ w' Ls', producer_turn per deadline w id now = Ret w' ∧ inv w' Ls' D ∧
    sequencer w' = sequencer w ∧ consumer w' = consumer w ∧
    (supply w' Ls' < supply w Ls ∨
     left <$> producers w' = left <$> producers w ∧ Ls' = Ls ∧ ¬ able (left <$> producers w) Ls id).
Proof using All.
  intros HI. pose proof HI as [Hdata Hrings _ _ _ _ _]. unfold producer_turn.
  destruct ((producers w)⟦id⟧) as [[i spins|]|] eqn:Hp.
  2,3: exists w, Ls; do 4 (split; [done|]); right; do 2 (split; [done|]);
    intros (l & L & Hl & _ & Hpos & _); rewrite vget_fmap, Hp in Hl; simplify_eq/=; lia.
  assert ((left <$> producers w)⟦id⟧ = Some (4 * (per - i) + 1)) as Hleft by (by rewrite vget_fmap, Hp).
  assert ((progress <$> producers w)⟦id⟧ = Some i) as Hi by (by rewrite vget_fmap, Hp).
  pose proof (vget_Some_range _ _ _ Hi) as Hid. pose proof (Forall_vget _ _ _ _ (dt_range _ _ _ _ _ Hdata) Hi) as Hir.
  pose proof (data_bound _ _ _ _ _ Hdata) as [Hb Hb2]. pose proof (dt_nonneg _ _ _ _ _ Hdata) as [Hnr Hns].
  destruct (dt_lens _ _ _ _ _ Hdata) as (HP & HL & _). pose proof (vlen_nonneg (D ++ hand w)).
  pose proof (Forall2_length _ _ _ Hrings) as Hlen.
  destruct (vget_is_Some (inbound w) id) as [q Hq]; [unfold vlen in *; lia|].
  destruct (Forall2_vget _ _ _ _ _ Hrings Hq) as (L & HLid & HR). rewrite (load_Some _ _ _ Hq). returns.
  simpl in Hir. destruct (Z.ltb_spec i per).
  - destruct (push_bounded_spec q L (make_item id i) spins now HR) as (q' & a & -> & HR' & Hfull). returns.
    pose proof (data_skip _ _ _ _ _ _ _ Hdata Hi ltac:(done)) as Hskip. pose proof (data_bound _ _ _ _ _ Hskip).
    destruct a as [| |spins']; eexists _, _; (split; [done|]; split;
      [eapply inv_set_producer; [exact HI|exact Hp|exact HR'|simpl; lia|]; simpl|split; [done|]; split; [done|]]).
    + rewrite u64_small by lia. by apply data_send.
    + left. unfold supply. simpl. rewrite (total_vset _ _ id _ _ Hp), (total_vset _ _ id _ _ HLid), vlen_snoc.
      simpl. rewrite u64_small by lia. lia.
    + rewrite !u64_small, (vset_same Ls) by (done || lia). done.
    + left. unfold supply. simpl. rewrite (total_vset _ _ id _ _ Hp), (vset_same Ls) by done. simpl. rewrite u64_small by lia. lia.
    + by rewrite !vset_same.
    + right. simpl. rewrite (vset_same Ls) by done. rewrite vset_fmap. simpl.
      rewrite (vset_same (left <$> producers w)) by done. split; [done|]. split; [done|].
      intros (l & L' & Hl & HL' & _ & Hroom). specialize (Hfull ltac:(done)). simplify_eq. lia.
  - assert (i = per) as -> by lia. eexists _, _. split; [done|]. split; [|split; [done|]; split; [done|]].
    + eapply inv_set_producer; [exact HI|exact Hp|exact HR|done|]. simpl. by rewrite !vset_same.
    + left. unfold supply. simpl. rewrite (total_vset _ _ id _ _ Hp), (vset_same Ls) by done. simpl. lia.
Qed.

(** ** The sequencer *)

(** A move of the sequencer that leaves the flags alone. *)
Lemma inv_set_sequencer w Ls D s ins down st Ls' D' :
  inv w Ls D → sequencer_done w = false → Forall2 (Spsc.rep cap) ins Ls' → Spsc.rep cap down D' →
  sequencer_ok (set_sequencer w s ins down false st) Ls' →
  data (progress <$> producers w) Ls' (D' ++ match s with Forward _ it _ => [it] | _ => [] end)
    (verifier w) st →
  inv (set_sequencer w s ins down (sequencer_done w) st) Ls' D'.
Proof using Type.
  intros [_ _ _ Hfin _ _ Hc] Hd Hins Hdown Hs HD. rewrite Hd. split; simpl; try done.
  unfold consumer_ok in *. simpl. rewrite Hd in Hc. destruct (consumer w); naive_solver.
Qed.

Lemma forward_inv w Ls D k it spins now :
  inv w Ls D → sequencer w = Forward k it spins →
  ∃ w' D', sequencer_turn n deadline w now = Ret w' ∧ inv w' Ls D' ∧
    producers w' = producers w ∧ consumer w' = consumer w ∧
    (vlen D' ≤ vlen D + 1 ∧ sequencer w' = Scan (k + 1) true ∨
     D' = D ∧ cap ≤ vlen D ∧ ∃ spins', sequencer w' = Forward k it spins').
Proof using All.
  intros HI Hs. pose proof HI as [Hdata Hrings Hdown _ Hok Hd _].
  assert (sequencer_done w = false) as Hd0 by (destruct (sequencer_done w); [by rewrite Hd in Hs|done]).
  unfold sequencer_ok, hand in *. rewrite Hs in *. unfold sequencer_turn. rewrite Hs.
  destruct (push_bounded_spec (downstream w) D it spins now Hdown) as (q' & a & -> & HR' & Hfull). returns.
  pose proof (data_drop _ _ _ _ _ _ Hdata) as Hdrop. pose proof (data_bound _ _ _ _ _ Hdrop).
  pose proof (dt_nonneg _ _ _ _ _ Hdata). pose proof (dt_nonneg _ _ _ _ _ Hdrop). pose proof (vlen_nonneg D).
  destruct a as [| |spins']; eexists _, _; (split; [done|]; split;
    [eapply inv_set_sequencer; [exact HI|exact Hd0|exact Hrings|exact HR'|unfold sequencer_ok; simpl; lia|]|
     split; [done|]; split; [done|]]).
  - by rewrite app_nil_r.
  - left. rewrite vlen_snoc. split; [lia|done].
  - rewrite app_nil_r, u64_small by lia. done.
  - left. split; [lia|done].
  - done.
  - right. specialize (Hfull ltac:(done)). eauto.
Qed.

Lemma scan_inv w Ls D k moved now :
  inv w Ls D → sequencer w = Scan k moved →
  ∃ w' Ls', sequencer_turn n deadline w now = Ret w' ∧ inv w' Ls' D ∧
    producers w' = producers w ∧ consumer w' = consumer w ∧
    (k < n ∧ (∃ it L, Ls⟦k⟧ = Some (it :: L) ∧ Ls' = Ls⟦k := L⟧ ∧ sequencer w' = Forward k it 0) ∨
     k < n ∧ Ls⟦k⟧ = Some [] ∧ Ls' = Ls ∧ sequencer w' = Scan (k + 1) moved ∨
     n ≤ k ∧ Ls' = Ls ∧
       sequencer w' = if moved || negb (finished w =? n) then Scan 0 false else Drain 0 true).
Proof using All.
  intros HI Hs. pose proof HI as [Hdata Hrings Hdown Hfin Hok Hd _].
  assert (sequencer_done w = false) as Hd0 by (destruct (sequencer_done w); [by rewrite Hd in Hs|done]).
  unfold sequencer_ok, hand in *. rewrite Hs in *. unfold sequencer_turn. rewrite Hs.
  destruct (dt_lens _ _ _ _ _ Hdata) as (HP & HL & _). pose proof (Forall2_length _ _ _ Hrings) as Hlen.
  destruct (Z.ltb_spec k (vlen (inbound w))).
  - destruct (vget_is_Some (inbound w) k) as [q Hq]; [lia|].
    destruct (Forall2_vget _ _ _ _ _ Hrings Hq) as (L & HLk & HR). rewrite (load_Some _ _ _ Hq). returns.
    destruct (Spsc.try_pop_spec cap 10 (proj1 cap_pow) eq_refl q L HR) as (q' & -> & HR'). returns.
    exists (set_sequencer w (match hd_error L with Some it => Forward k it 0 | None => Scan (k + 1) moved end)
      ((inbound w)⟦k := q'⟧) (downstream w) (sequencer_done w) (stalled w)), (Ls⟦k := tail L⟧).
    split; [done|]. split; [eapply inv_set_sequencer; [exact HI|exact Hd0|by apply Forall2_vset|exact Hdown| |]|].
    + unfold sequencer_ok. destruct L; simpl; lia.
    + destruct L as [|it L]; simpl in *; [by rewrite vset_same|].
      rewrite app_nil_r in Hdata. by apply data_take.
    + split; [done|]. split; [done|]. assert (k < n) by (unfold vlen in *; lia). destruct L as [|it L]; simpl.
      * right. left. by rewrite vset_same.
      * left. eauto 10.
  - assert (∀ s, sequencer_ok (set_sequencer w s (inbound w) (downstream w) false (stalled w)) Ls →
      match s with Forward _ _ _ => False | _ => True end →
      inv (set_sequencer w s (inbound w) (downstream w) (sequencer_done w) (stalled w)) Ls D) as Hgo.
    { intros s Hsok Hns. eapply inv_set_sequencer; [exact HI|done..|]. by destruct s. }
    assert (n ≤ k) by (unfold vlen in *; lia).
    destruct (moved || negb (finished w =? n)) eqn:Hm; (eexists _, _; split; [done|]; split;
      [apply Hgo|split; [done|]; split; [done|]; right; right; done]); try done.
    unfold sequencer_ok. simpl. split; [lia|]. split.
    + apply orb_false_iff in Hm as [_ Hm%negb_false_iff%Z.eqb_eq]. unfold all_finished. simpl.
      rewrite vlen_fmap in HP. rewrite Hfin, <- HP in Hm.
      assert (Forall (λ p, is_finished p ≤ 1) (producers w)) as Hle by (apply Forall_forall; intros []; simpl; lia).
      eapply Forall_impl; [apply (total_max _ 1 _ Hle); lia|]. intros []; simpl; lia || done.
    + intros _ j L Hj HLj. pose proof (vget_Some_range _ _ _ HLj). lia.
Qed.

Lemma drain_inv w Ls D k drained now :
  inv w Ls D → sequencer w = Drain k drained →
  ∃ w', sequencer_turn n deadline w now = Ret w' ∧ inv w' Ls D ∧
    producers w' = producers w ∧ consumer w' = consumer w ∧
    (k < n ∧ (∃ L, Ls⟦k⟧ = Some L ∧ sequencer w' = Drain (k + 1) (drained && bool_decide (L = []))) ∨
     n ≤ k ∧ sequencer w' = (if drained then Stopped else Scan 0 false)).
Proof using All.
  intros HI Hs. pose proof HI as [Hdata Hrings Hdown Hfin Hok Hd Hc].
  assert (sequencer_done w = false) as Hd0 by (destruct (sequencer_done w); [by rewrite Hd in Hs|done]).
  unfold sequencer_ok, hand in *. rewrite Hs in *. unfold sequencer_turn. rewrite Hs.
  destruct Hok as (Hk & Hall & Hdr). destruct (dt_lens _ _ _ _ _ Hdata) as (HP & HL & _).
  pose proof (Forall2_length _ _ _ Hrings) as Hlen. destruct (Z.ltb_spec k (vlen (inbound w))).
  - destruct (vget_is_Some (inbound w) k) as [q Hq]; [lia|].
    destruct (Forall2_vget _ _ _ _ _ Hrings Hq) as (L & HLk & HR). rewrite (load_Some _ _ _ Hq). returns.
    rewrite (Spsc.empty_spec cap 10 (proj1 cap_pow) eq_refl q L HR).
    eexists. split; [done|]. assert (k < n) by (unfold vlen in *; lia).
    split; [|split; [done|]; split; [done|]; left; by eauto].
    eapply inv_set_sequencer; [exact HI|done..| |done].
    unfold sequencer_ok. simpl. split; [lia|]. split; [done|].
    intros [Hd1 Hd2%bool_decide_eq_true]%andb_true_iff j L' Hj HLj.
    destruct (decide (j = k)) as [->|]; [congruence|]. apply (Hdr Hd1 j L'); [lia|done].
  - assert (n ≤ k) by (unfold vlen in *; lia).
    destruct drained; eexists; (split; [done|]; split; [|split; [done|]; split; [done|]; by right]).
    + split; simpl; try done.
      * unfold sequencer_ok. simpl. split; [done|]. split; [done|]. intros j L HLj. apply (Hdr eq_refl j L); [|done].
        pose proof (vget_Some_range _ _ _ HLj). unfold vlen in *. lia.
      * unfold consumer_ok in *. simpl. rewrite Hd0 in Hc. destruct (consumer w); naive_solver.
    + eapply inv_set_sequencer; [exact HI|done..].
Qed.

Lemma sequencer_turn_inv w Ls D now :
  inv w Ls D → ∃ w' Ls' D', sequencer_turn n deadline w now = Ret w' ∧ inv w' Ls' D'.
Proof using All.
  intros HI. destruct (sequencer w) as [k moved|k it spins|k drained|] eqn:Hs.
  - destruct (scan_inv _ _ _ _ _ now HI Hs) as (w' & Ls' & ? & ? & _). eauto.
  - destruct (forward_inv _ _ _ _ _ _ now HI Hs) as (w' & D' & ? & ? & _). eauto.
  - destruct (drain_inv _ _ _ _ _ now HI Hs) as (w' & ? & ? & _). eauto.
  - exists w, Ls, D. unfold sequencer_turn. by rewrite Hs.
Qed.

Lemma inv_set_consumer w Ls D c q v D' :
  inv w Ls D → Spsc.rep cap q D' → consumer_ok (set_consumer w c q v) D' →
  data (progress <$> producers w) Ls (D' ++ hand w) v (stalled w) →
  inv (set_consumer w c q v) Ls D'.
Proof using Type. intros [_ Hrings _ Hfin Hs Hd _] Hq Hc HD. by split. Qed.

Lemma consumer_turn_inv w Ls D :
  inv w Ls D → ∃ w' D', consumer_turn w = Ret w' ∧ inv w' Ls D' ∧
    producers w' = producers w ∧ sequencer w' = sequencer w ∧ D' = match consumer w with AtPop => tail D | _ => D end ∧
    consumer w' = match consumer w with
                  | AtPop => if decide (D = []) then AtDone else AtPop
                  | AtDone => if sequencer_done w then AtEmpty else AtPop
                  | AtEmpty => if decide (D = []) then Returned else AtPop
                  | Returned => Returned
                  end.
Proof using All.
  intros HI. pose proof HI as [Hdata Hrings Hdown Hfin Hok Hd Hc].
  unfold consumer_turn, consumer_ok in *. destruct (consumer w) eqn:Hat.
  - destruct (Spsc.try_pop_spec cap 10 (proj1 cap_pow) eq_refl _ D Hdown) as (q' & -> & HR'). returns.
    destruct D as [|it D]; simpl in *.
    + eexists _, []. split; [done|]. split; [by eapply inv_set_consumer|done].
    + destruct (data_check _ _ _ _ _ _ Hdata) as (v' & -> & HD). returns.
      eexists _, D. split; [done|]. split; [by eapply inv_set_consumer|done].
  - eexists _, D. split; [done|]. split; [|done]. eapply inv_set_consumer; [done..| |done].
    unfold consumer_ok. simpl. by destruct (sequencer_done w).
  - rewrite (Spsc.empty_spec cap 10 (proj1 cap_pow) eq_refl _ D Hdown).
    eexists _, D. split; [done|]. split; [eapply inv_set_consumer; [done..| |done]; unfold consumer_ok; simpl; by case_bool_decide|].
    do 3 (split; [done|]). simpl. by destruct D.
  - by exists w, D.
Qed.

Lemma run_fixed_inv schedule : ∀ w Ls D,
  inv w Ls D → ∃ w' Ls' D', run_fixed n per deadline w schedule = Ret w' ∧ inv w' Ls' D'.
Proof using All.
  induction schedule as [|[t now] schedule IH]; intros w Ls D HI; simpl; [by exists w, Ls, D|].
  assert (∃ w1 Ls1 D1, turn n per deadline w t now = Ret w1 ∧ inv w1 Ls1 D1) as (w1 & Ls1 & D1 & -> & HI1).
  { destruct t as [id| |]; simpl.
    - destruct (producer_turn_inv w Ls D id now HI) as (w1 & Ls1 & ? & ? & _). eauto.
    - by eapply sequencer_turn_inv.
    - destruct (consumer_turn_inv w Ls D HI) as (w1 & D1 & ? & ? & _). eauto. }
  returns. by eapply IH.
Qed.

(** ** After the joins *)

Lemma returned_joined w Ls D : inv w Ls D → consumer w = Returned → joined w = true.
Proof using Type.
  intros [_ _ _ _ Hok Hd Hc] Hr. unfold joined, consumer_ok, sequencer_ok in *. rewrite Hr in *.
  destruct Hc as [Hc _]. rewrite (Hd Hc) in *. destruct Hok as (_ & Hall & _).
  rewrite andb_true_r, andb_true_r. apply forallb_forall. intros p Hp.
  unfold all_finished in Hall. rewrite Forall_forall in Hall. by rewrite (Hall p (proj2 (list_elem_of_In _ _) Hp)).
Qed.

Lemma joined_verdict w Ls D :
  inv w Ls D → joined w = true →
  let v := fixed_verdict n per w in
  sent v = n * per ∧ received v + stalled_pushes v = n * per ∧ corrupted v = 0 ∧
  (stalled_pushes v = 0 → out_of_order v = 0 ∧ exit_code v = 0).
Proof using All.
  intros [Hdata _ _ _ Hok Hd Hc] Hj v. unfold joined in Hj.
  apply andb_true_iff in Hj as [[Hall Hs]%andb_true_iff Hr].
  unfold consumer_ok, sequencer_ok, hand in *. destruct (consumer w); try done. destruct Hc as [Hc ->].
  rewrite (Hd Hc) in *. destruct Hok as (_ & Hfin & Hempty). unfold all_finished in Hfin.
  destruct Hdata as [(HP & HL & _) _ _ _ Hcor Hct Hnn Ho].
  assert (total vlen Ls = 0) as Ht.
  { assert (Forall (λ L : list Item, vlen L = 0) Ls) as HF.
    { apply Forall_forall. intros L [j Hj]%vget_in. by rewrite (Hempty j L Hj). }
    clear -HF. induction HF; simpl; lia. }
  assert (total id (progress <$> producers w) = n * per) as Hp.
  { rewrite vlen_fmap in HP. rewrite <- HP. clear -Hfin. induction Hfin as [|p l -> _ IH]; [done|].
    rewrite vlen_cons, fmap_cons. simpl. rewrite IH. unfold id. lia. }
  assert (sent v = n * per) as Hsent by (apply u64_small; nia).
  assert (received v = received_ (verifier w) ∧ stalled_pushes v = stalled w) as [Hrec Hst] by done.
  simpl in Hct. rewrite vlen_nil in Hct. split; [done|]. split; [lia|]. split; [done|]. intros H0.
  destruct Ho as [Hoo _]; [done|]. split; [done|].
  assert (lost v = 0) as Hlost by (unfold lost; destruct (Z.ltb_spec (received v) (sent v)); lia).
  unfold exit_code, clean. rewrite Hlost. simpl. by rewrite Hcor, Hoo, <- Hst, H0.
Qed.
End pipeline.

(** ** Properties *)

(** C6. The merged pipeline loses, corrupts and reorders nothing. With any number
    of producers and messages, under every interleaving of the producers, the
    sequencer and the consumer, and whatever the clock says: no access is out of
    range; when the consumer has returned every other thread has too; every message
    sent was verified or is counted as a stalled push, none is corrupted, and
    without stalled pushes none is out of order and the program reports success. *)
Theorem fixed_stream_intact producer_count per_producer deadline_ns schedule :
  0 ≤ producer_count < 2 ^ 31 → 0 ≤ per_producer < 2 ^ 64 → producer_count * per_producer < 2 ^ 64 →
  ∃ w, run_fixed producer_count per_producer deadline_ns (fixed_start producer_count) schedule = Ret w ∧
    (consumer w = Returned → joined w = true) ∧
    (joined w = true →
     let v := fixed_verdict producer_count per_producer w in
     sent v = producer_count * per_producer ∧
     received v + stalled_pushes v = producer_count * per_producer ∧ corrupted v = 0 ∧
     (stalled_pushes v = 0 → out_of_order v = 0 ∧ exit_code v = 0)).
Proof.
  intros [Hn Hn31] [Hper Hper64] Hfit. assert (producer_count < 2 ^ 64) as Hn64 by lia.
  destruct (run_fixed_inv producer_count per_producer deadline_ns Hn Hper Hfit Hn64 Hper64 schedule _ _ _
    (inv_start producer_count per_producer deadline_ns Hn Hper Hfit Hn64 Hper64)) as (w & Ls & D & Hrun & HI).
  exists w. split; [done|]. split; [by eapply returned_joined|]. by eapply joined_verdict.
Qed.

(** Two producers of three messages each, taking turns. *)
Definition round_robin (rounds : nat) : list (thread * Z) :=
  concat (replicate rounds
    [(Producer 0, 0); (Producer 1, 0); (Sequencer, 0); (Consumer, 0); (Sequencer, 0)]).

Lemma fixed_stream_intact_witness :
  ∃ w, run_fixed 2 3 10 (fixed_start 2) (round_robin 20) = Ret w ∧
    exit_code (fixed_verdict 2 3 w) = 0 ∧ received (fixed_verdict 2 3 w) = 6.
Proof.
  destruct (fixed_stream_intact 2 3 10 (round_robin 20)) as (w & Hrun & _ & Hjoin); [lia..|].
  assert (joined w = true ∧ stalled w = 0) as [Hj Hst].
  { vm_compute in Hrun. injection Hrun as Hrun. subst w. split; reflexivity. }
  destruct (Hjoin Hj) as (_ & Hrec & _ & Hok). destruct (Hok Hst) as [_ Hcode].
  exists w. split; [exact Hrun|]. split; [exact Hcode|].
  change (stalled_pushes (fixed_verdict 2 3 w)) with (stalled w) in Hrec. lia.
Defined.

(** ** The accesses are those of the calls *)

Fixpoint push_alone (fuel : nat) (q : Spsc.t Item) (value : Item) (pc : push_pc)
    : outcome (Spsc.t Item * bool) :=
  match fuel with
  | O => Fault OutOfFuel
  | S fuel =>
      '(q, r) ← push_access q value pc;
      match r with Next pc' => push_alone fuel q value pc' | Done ok => Ret (q, ok) end
  end.

Fixpoint pop_alone (fuel : nat) (q : Spsc.t Item) (pc : pop_pc) : outcome (Spsc.t Item * option Item) :=
  match fuel with
  | O => Fault OutOfFuel
  | S fuel =>
      '(q, r) ← pop_access q pc;
      match r with Next pc' => pop_alone fuel q pc' | Done out => Ret (q, out) end
  end.

(** Undisturbed, the accesses make the call. *)
Lemma push_alone_spec q value : push_alone 7 q value LoadWrite = Spsc.try_push kQueueCapacity q value.
Proof.
  unfold Spsc.try_push. cbn [push_alone push_access mbind outcome_bind].
  destruct (Spsc.full kQueueCapacity (Spsc.write_idx_ q) (Spsc.cached_read_idx_ q)) eqn:Hf;
    cbn [push_alone push_access mbind outcome_bind Spsc.cached_read_idx_ Spsc.write_idx_ Spsc.buffer_
      Spsc.read_idx_ Spsc.cached_write_idx_]; rewrite ?Hf;
    [destruct (Spsc.full kQueueCapacity (Spsc.write_idx_ q) (Spsc.read_idx_ q)); [done|]|];
    cbn [push_alone push_access mbind outcome_bind Spsc.cached_read_idx_ Spsc.write_idx_ Spsc.buffer_
      Spsc.read_idx_ Spsc.cached_write_idx_];
    by destruct (assign _ _ _).
Qed.

Lemma pop_alone_spec q : pop_alone 4 q LoadRead' = Spsc.try_pop kQueueCapacity q.
Proof.
  unfold Spsc.try_pop. cbn [pop_alone pop_access mbind outcome_bind].
  destruct (Spsc.read_idx_ q =? (if Spsc.read_idx_ q =? Spsc.cached_write_idx_ q then _ else _)); [done|].
  cbn [pop_alone pop_access mbind outcome_bind Spsc.buffer_]. by destruct (load _ _).
Qed.

(** C36. Two producers on one ring break it. With the accesses of the C++ memory
    model there is an execution with a data race on a slot; and even if every access
    were atomic and sequentially consistent, there is an interleaving of [run_broken]
    in which two producers of one message each both see their push succeed, one
    message is never received, and the program ends and reports the damage. *)
Theorem shared_ring_loses :
  Conc.run 2 (Conc.init 2 2 0)
    [Conc.Call 0 (CPush 7); Conc.Run 0 0; Conc.Run 0 0; Conc.Run 0 0;
     Conc.Call 1 (CPush 8); Conc.Run 1 0; Conc.Run 1 0; Conc.Run 1 0] = Some (Fault DataRace) ∧
  ∃ schedule w,
    run_broken 2 1 10 (broken_start 2) schedule = Ret w ∧ broken_joined w = true ∧
    b_stalled w = 0 ∧ lost (broken_verdict 2 1 w) = 1 ∧ exit_code (broken_verdict 2 1 w) = 1.
Proof.
  split; [vm_compute; reflexivity|].
  exists ((λ t, (t, 0)) <$>
    [Some 0; Some 1; Some 0; Some 1; Some 0; Some 1; Some 0; Some 1; Some 0; Some 1] ++ replicate 20 None).
  eexists. split; [vm_compute; reflexivity|]. repeat split; vm_compute; reflexivity.
Qed.
