(* ===== verification/Channel.v ===== *)
(** * The shared channel and its shutdown handshake

    [ShmChannel] of [include/llte/shared_memory_queue.hpp]: the ring, and the
    flag by which the handler tells the engine that no more events will come.
    The handler pushes events and finally stores the flag (release); the engine
    runs the loop of [orderbook/order_book_engine.cpp]: it tests [g_stop], which a signal
    sets, and when a pop fails it looks at the flag (acquire) and then, again, at the
    ring. Steps of the two
    processes interleave; each call on the ring is one step ([SpscRaceFree]
    shows that its accesses do not interfere). *)

From S2P Require Import Prelude Message SpscQueue.

#[local] Open Scope Z_scope.

Module Channel.

(** Where the engine's loop is. *)
Inductive engine_pc :=
  | AtPop          (* the top of the loop: queue.try_pop(event) *)
  | AtDone         (* producer_done.load(acquire) == 1 *)
  | AtEmpty        (* queue.empty() *)
  | Exited.

#[export] Instance engine_pc_eq_dec : EqDecision engine_pc.
Proof. solve_decision. Defined.

Record t (A : Type) := mkChannel {
  queue : Spsc.t A;
  producer_done : bool;
  at_ : engine_pc;
  pushed : list A;
  popped : list A
}.
Arguments mkChannel {A}.
Arguments queue {A}.
Arguments producer_done {A}.
Arguments at_ {A}.
Arguments pushed {A}.
Arguments popped {A}.

(** With what a signal does: [interrupted] when the engine has left its loop because of one. *)
Record loop (A : Type) := mkLoop { chan : t A; interrupted : bool }.
Arguments mkLoop {A}.
Arguments chan {A}.
Arguments interrupted {A}.

Inductive label (A : Type) :=
  | Publish (ev : A)      (* the handler: try_push *)
  | Finish                (* the handler: producer_done.store(1, release) *)
  | Consume (stop : bool). (* the engine: its next step, with what g_stop holds *)
Arguments Publish {A} ev.
Arguments Finish {A}.
Arguments Consume {A} stop.

Section channel.
Context {A : Type} (Capacity : Z).

(** One turn inside the loop, and the event it took off the ring. *)
Definition consume (c : t A) : outcome (t A * option A) :=
  match at_ c with
  | AtPop =>
      '(q, out) ← Spsc.try_pop Capacity (queue c);
      match out with
      | Some ev => Ret (mkChannel q (producer_done c) AtPop (pushed c) (popped c ++ [ev]), Some ev)
      | None => Ret (mkChannel q (producer_done c) AtDone (pushed c) (popped c), None)
      end
  | AtDone =>
      Ret (mkChannel (queue c) (producer_done c) (if producer_done c then AtEmpty else AtPop)
        (pushed c) (popped c), None)
  | AtEmpty =>
      Ret (mkChannel (queue c) (producer_done c)
        (if Spsc.empty (queue c) then Exited else AtPop) (pushed c) (popped c), None)
  | Exited => Ret (c, None)
  end.

(** [while (g_stop == 0)]: one turn of the engine, which looks at [g_stop] at the top of the loop. *)
Definition engine_step (stop : bool) (s : loop A) : outcome (loop A) :=
  if interrupted s then Ret s
  else if stop && bool_decide (at_ (chan s) = AtPop) then Ret (mkLoop (chan s) true)
  else '(c, _) ← consume (chan s); Ret (mkLoop c false).

(** One attempt of the handler. *)
Definition publish (c : t A) (ev : A) : outcome (t A * bool) :=
  '(q, ok) ← Spsc.try_push Capacity (queue c) ev;
  Ret (mkChannel q (producer_done c) (at_ c)
         (if ok : bool then pushed c ++ [ev] else pushed c) (popped c), ok).

Definition finish (c : t A) : t A := mkChannel (queue c) true (at_ c) (pushed c) (popped c).

(** The handler does not touch the ring after it has set the flag. *)
Definition step (s : loop A) (l : label A) : outcome (loop A) :=
  match l with
  | Publish ev =>
      if producer_done (chan s) then Ret s else '(c, _) ← publish (chan s) ev; Ret (mkLoop c (interrupted s))
  | Finish => Ret (mkLoop (finish (chan s)) (interrupted s))
  | Consume stop => engine_step stop s
  end.

Definition init (zero : A) : t A := mkChannel (Spsc.make Capacity zero) false AtPop [] [].

Definition start (zero : A) : loop A := mkLoop (init zero) false.

Fixpoint run (s : loop A) (ls : list (label A)) : outcome (loop A) :=
  match ls with
  | [] => Ret s
  | l :: ls => s ← step s l; run s ls
  end.

(** Steps of the engine alone, with the readings of [g_stop]. *)
Fixpoint engine_steps (stops : list bool) (s : loop A) : outcome (loop A) :=
  match stops with
  | [] => Ret s
  | stop :: stops => s ← engine_step stop s; engine_steps stops s
  end.
End channel.

(** ** The invariant *)

Section correctness.
Context {A : Type} (lg : Z) (Hlg : 0 ≤ lg < 64).
#[local] Abbreviation cap := (2 ^ lg).
Implicit Types c : t A.

Record inv c (inside : list A) : Prop := {
  iv_rep : Spsc.rep cap (queue c) inside;
  iv_order : pushed c = popped c ++ inside;
  iv_empty : at_ c = AtEmpty → producer_done c = true;
  iv_exit : at_ c = Exited → producer_done c = true ∧ inside = []
}.

Lemma channel_inv_init zero : inv (init cap zero) [].
Proof using Hlg. split; try done. apply (Spsc.drained_rep cap lg Hlg eq_refl 0 zero). lia. Qed.

Lemma consume_spec c inside :
  inv c inside → ∃ c' out inside', consume cap c = Ret (c', out) ∧ inv c' inside' ∧
    producer_done c' = producer_done c ∧ pushed c' = pushed c ∧ popped c' = popped c ++ option_list out ∧
    (length inside' ≤ length inside)%nat ∧
    match at_ c with
    | AtPop => inside = [] ∧ inside' = [] ∧ at_ c' = AtDone ∨
               at_ c' = AtPop ∧ (length inside' < length inside)%nat
    | AtDone => at_ c' = (if producer_done c then AtEmpty else AtPop) ∧ inside' = inside
    | AtEmpty => at_ c' = (if bool_decide (inside = []) then Exited else AtPop) ∧ inside' = inside
    | Exited => at_ c' = Exited
    end.
Proof using Hlg.
  intros HI. pose proof HI as [Hrep Hord Hemp Hexit]. unfold consume. destruct (at_ c) eqn:Hat.
  - destruct (Spsc.try_pop_spec cap lg Hlg eq_refl _ _ Hrep) as (q' & -> & Hrep').
    returns. destruct inside as [|x inside]; simpl.
    + eexists _, None, []. split; [done|]. split; [by split|]. simpl. rewrite app_nil_r.
      repeat (split; [done|]). by left.
    + eexists _, (Some x), inside. split; [done|]. split; [split; simpl; try done; by rewrite Hord, <- app_assoc|].
      simpl. repeat (split; [done|]). split; [lia|]. right. split; [done|lia].
  - eexists _, None, inside. split; [done|]. simpl. rewrite app_nil_r. split; [|done].
    split; simpl; try done; by destruct (producer_done c).
  - rewrite (Spsc.empty_spec cap lg Hlg eq_refl _ _ Hrep). eexists _, None, inside. split; [done|].
    simpl. rewrite app_nil_r. split; [|done]. specialize (Hemp eq_refl). case_bool_decide; split; simpl; done || auto.
  - exists c, None, inside. simpl. by rewrite app_nil_r.
Qed.

Lemma channel_publish_spec c inside ev :
  inv c inside → producer_done c = false →
  ∃ c' inside', publish cap c ev = Ret (c', bool_decide (vlen inside < cap)) ∧ inv c' inside' ∧
    producer_done c' = false ∧ popped c' = popped c ∧ at_ c' = at_ c ∧
    pushed c' = (if bool_decide (vlen inside < cap) then pushed c ++ [ev] else pushed c) ∧
    (bool_decide (vlen inside < cap) = false → inside' = inside).
Proof using Hlg.
  intros [Hrep Hord Hemp Hexit] Hd.
  destruct (Spsc.try_push_spec cap lg Hlg eq_refl _ _ ev Hrep) as (q' & Hpush & Hrep').
  unfold publish. rewrite Hpush. returns.
  eexists _, (if decide (vlen inside < cap) then inside ++ [ev] else inside). split; [done|].
  split; [|split_and!; try done].
  - split; simpl; [done|..].
    + case_decide; [rewrite bool_decide_true by done|rewrite bool_decide_false by done]; [|done].
      by rewrite Hord, <- app_assoc.
    + intros Hat. by rewrite (Hemp Hat) in Hd.
    + intros Hat. destruct (Hexit Hat) as [Hd' _]. congruence.
  - intros Hno%bool_decide_eq_false. by rewrite decide_False.
Qed.

Lemma finish_inv c inside : inv c inside → inv (finish c) inside.
Proof using Type.
  intros [Hrep Hord Hemp Hexit]. split; simpl; try done. intros Hat. by destruct (Hexit Hat).
Qed.

(** A step of the engine under the invariant: it was interrupted before, or is now, or goes on. *)
Lemma engine_step_cases stop (s : loop A) inside : inv (chan s) inside →
  ∃ s' inside', engine_step cap stop s = Ret s' ∧ inv (chan s') inside' ∧ pushed (chan s') = pushed (chan s) ∧
    (interrupted s = true ∧ s' = s ∨ interrupted s = false ∧ stop = true ∧ s' = mkLoop (chan s) true ∨
     interrupted s = false ∧ interrupted s' = false ∧ ∃ out, consume cap (chan s) = Ret (chan s', out) ∧
       producer_done (chan s') = producer_done (chan s) ∧ popped (chan s') = popped (chan s) ++ option_list out).
Proof using Hlg.
  intros HI. unfold engine_step. destruct (interrupted s) eqn:Hi; [exists s, inside; do 3 (split; [done|]); by left|].
  destruct (stop && bool_decide (at_ (chan s) = AtPop)) eqn:Hs.
  { apply andb_true_iff in Hs as [-> _]. exists (mkLoop (chan s) true), inside. do 3 (split; [done|]). right; left. done. }
  destruct (consume_spec _ _ HI) as (c' & out & inside' & Hrun & HI' & Hd & Hpu & Hpo & _). rewrite Hrun. returns.
  eexists _, inside'. split; [done|]. split; [done|]. split; [done|]. right; right. split; [done|]. split; [done|]. by exists out.
Qed.

Lemma step_inv (s s' : loop A) inside l : inv (chan s) inside → step cap s l = Ret s' →
  (∃ inside', inv (chan s') inside') ∧ (interrupted s' = true → interrupted s = true ∨ l = Consume true).
Proof using Hlg.
  intros HI Hstep. destruct l as [ev| |stop]; simpl in Hstep.
  - destruct (producer_done (chan s)) eqn:Hd; [injection Hstep as <-; eauto|].
    destruct (channel_publish_spec _ inside ev HI Hd) as (c2 & inside2 & Hrun & HI2 & _).
    rewrite Hrun in Hstep. injection Hstep as <-. eauto.
  - injection Hstep as <-. split; [|by left]. exists inside. by apply finish_inv.
  - destruct (engine_step_cases stop s inside HI) as (s1 & inside1 & Hrun & HI1 & _ & Hcase).
    rewrite Hrun in Hstep. injection Hstep as <-. split; [eauto|].
    intros Hi. destruct Hcase as [[? _]|[(_ & -> & _)|(_ & ? & _)]]; [by left|by right|congruence].
Qed.

Lemma run_inv ls : ∀ (s s' : loop A) inside, inv (chan s) inside → run cap s ls = Ret s' →
  (∃ inside', inv (chan s') inside') ∧ (interrupted s' = true → interrupted s = true ∨ Consume true ∈ ls).
Proof using Hlg.
  induction ls as [|l ls IH]; intros s s' inside HI; simpl; [intros [= <-]; eauto|].
  intros (s1 & H1 & H2)%bind_Ret_inv. destruct (step_inv s s1 inside l HI H1) as [[inside1 HI1] Hl].
  destruct (IH s1 s' inside1 HI1 H2) as [HI' Hls]. split; [done|]. intros Hi.
  destruct (Hls Hi) as [Hi1|?]; [|right; by constructor]. destruct (Hl Hi1) as [?| ->]; [by left|right; constructor].
Qed.

(** How far the engine is from its exit once the flag is set. *)
Definition distance c (inside : list A) : nat :=
  match at_ c, inside with
  | AtPop, _ => 4 * length inside + 3
  | AtDone, [] => 2
  | AtDone, _ => 4 * length inside + 5
  | AtEmpty, [] => 1
  | AtEmpty, _ => 4 * length inside + 4
  | Exited, _ => 0
  end.

(** A turn brings the engine closer to its exit. *)
Lemma distance_consume c inside c' out inside' :
  inv c inside → producer_done c = true →
  consume cap c = Ret (c', out) → inv c' inside' → pushed c' = pushed c →
  popped c' = popped c ++ option_list out → at_ c ≠ Exited → (distance c' inside' < distance c inside)%nat.
Proof using Hlg.
  intros HI Hd Hrun HI' Hp Hq Hat.
  destruct (consume_spec c inside HI) as (c1 & out1 & inside1 & Hrun1 & HI1 & _ & Hp1 & Hq1 & Hle & Hcase).
  rewrite Hrun in Hrun1. injection Hrun1 as <- <-.
  assert (inside' = inside1) as ->.
  { pose proof (iv_order _ _ HI') as H1. rewrite (iv_order _ _ HI1) in H1. by apply app_inv_head in H1. }
  unfold distance. destruct (at_ c) eqn:Hpc.
  - destruct Hcase as [(-> & -> & ->)|[-> Hlt]]; simpl in *; lia.
  - destruct Hcase as [-> ->]. rewrite Hd. destruct inside; simpl in *; lia.
  - destruct Hcase as [-> ->]. case_bool_decide as Hi; [subst inside; simpl; lia|].
    destruct inside; [done|]. simpl in *. lia.
  - done.
Qed.

Lemma distance_exited c inside : inv c inside → distance c inside = 0%nat → at_ c = Exited ∧ inside = [].
Proof using Type.
  intros HI Hn. pose proof (iv_exit _ _ HI) as Hx. unfold distance in Hn.
  destruct (at_ c), inside; simpl in *; try lia; [done|]. by destruct (Hx eq_refl).
Qed.

(** With the flag set, enough steps of the engine bring it out of the loop. *)
Lemma engine_leaves stops : ∀ (s : loop A) inside,
  inv (chan s) inside → producer_done (chan s) = true → (distance (chan s) inside ≤ length stops)%nat →
  ∃ s' inside', engine_steps cap stops s = Ret s' ∧ inv (chan s') inside' ∧ pushed (chan s') = pushed (chan s) ∧
    (at_ (chan s') = Exited ∨ interrupted s' = true) ∧ (interrupted s' = true → interrupted s = true ∨ true ∈ stops).
Proof using Hlg.
  induction stops as [|stop stops IH]; intros s inside HI Hd Hn; cbn [engine_steps].
  { exists s, inside. destruct (distance_exited _ inside HI ltac:(simpl in Hn; lia)). do 3 (split; [done|]). split; [by left|]. by left. }
  destruct (engine_step_cases stop s inside HI) as (s1 & inside1 & -> & HI1 & Hp1 & Hcase). returns.
  assert (interrupted s1 = true ∨ (distance (chan s1) inside1 ≤ length stops)%nat ∧ producer_done (chan s1) = true) as Hnext.
  { destruct Hcase as [[? ->]|[(_ & _ & ->)|(_ & _ & out & Hrun & Hd1 & Hq1)]]; [by left|by left|right]. split; [|congruence].
    destruct (decide (at_ (chan s) = Exited)) as [He|He].
    - unfold consume in Hrun. rewrite He in Hrun. injection Hrun as <- _. unfold distance. rewrite He. lia.
    - pose proof (distance_consume _ inside _ out inside1 HI Hd Hrun HI1 Hp1 Hq1 He). simpl in Hn. lia. }
  assert (interrupted s1 = true → interrupted s = true ∨ true ∈ stop :: stops) as Hwhy.
  { intros Hi1. destruct Hcase as [[? _]|[(_ & -> & _)|(_ & ? & _)]]; [by left|right; constructor|congruence]. }
  destruct Hnext as [Hi1|[Hn1 Hd1]].
  - exists s1, inside1. assert (engine_steps cap stops s1 = Ret s1) as ->; [|do 3 (split; [done|]); split; [by right|done]].
    clear -Hi1. induction stops as [|stop stops IH]; [done|]. cbn [engine_steps]. unfold engine_step. by rewrite Hi1.
  - destruct (IH s1 inside1 HI1 Hd1 Hn1) as (s2 & inside2 & Hrun & HI2 & Hp2 & Hout & Hi2). exists s2, inside2.
    split; [done|]. split; [done|]. split; [congruence|]. split; [done|]. intros Hi.
    destruct (Hi2 Hi) as [?|?]; [by apply Hwhy|right; by constructor].
Qed.
End correctness.
End Channel.

(** ** Properties *)

(** C8. The engine loses nothing but to a signal: in every interleaving of the handler's
    pushes, its final store of the flag, signals and the engine's steps, an engine that has
    left its loop through the flag has consumed every event that was ever pushed, in
    order. One that has left it otherwise was told to by a signal; it has consumed the
    first of the events, in order, and left no more of them than the ring holds. *)
Theorem engine_stops_complete {A} lg (zero : A) ls s :
  0 ≤ lg < 64 → Channel.run (2 ^ lg) (Channel.start (2 ^ lg) zero) ls = Ret s →
  let c := Channel.chan s in
  (Channel.at_ c = Channel.Exited → Channel.popped c = Channel.pushed c) ∧
  (Channel.interrupted s = true → Channel.Consume true ∈ ls) ∧
  ∃ rest, Channel.pushed c = Channel.popped c ++ rest ∧ vlen rest ≤ 2 ^ lg.
Proof.
  intros Hlg Hrun c.
  destruct (Channel.run_inv lg Hlg ls (Channel.start (2 ^ lg) zero) _ _ (Channel.channel_inv_init lg Hlg zero) Hrun) as [[inside HI] Hsig]. split; [|split].
  - intros Hat. destruct (Channel.iv_exit _ _ _ HI Hat) as [_ Hi]. unfold c. rewrite (Channel.iv_order _ _ _ HI), Hi. by rewrite app_nil_r.
  - intros Hi. by destruct (Hsig Hi).
  - exists inside. split; [apply (Channel.iv_order _ _ _ HI)|]. exact (Spsc.ring_rep_length _ lg Hlg _ _ (Channel.iv_rep _ _ _ HI)).
Qed.

(** One run to the end, and one that a signal ends with an event in the ring. *)
Lemma engine_stops_complete_witness :
  (∃ s, Channel.run 2 (Channel.start 2 0)
      [Channel.Publish 7; Channel.Consume false; Channel.Consume false; Channel.Publish 8; Channel.Finish;
       Channel.Consume true; Channel.Consume false; Channel.Consume false; Channel.Consume false; Channel.Consume false;
       Channel.Consume false] = Ret s ∧ Channel.popped (Channel.chan s) = Channel.pushed (Channel.chan s)) ∧
  ∃ s rest, Channel.run 2 (Channel.start 2 0)
      [Channel.Publish 7; Channel.Publish 8; Channel.Consume false; Channel.Consume true] = Ret s ∧ Channel.interrupted s = true ∧
    Channel.pushed (Channel.chan s) = Channel.popped (Channel.chan s) ++ rest ∧ rest = [8].
Proof.
  split.
  - eexists. split; [vm_compute; reflexivity|].
    apply (engine_stops_complete 1 0 [Channel.Publish 7; Channel.Consume false; Channel.Consume false; Channel.Publish 8; Channel.Finish;
       Channel.Consume true; Channel.Consume false; Channel.Consume false; Channel.Consume false; Channel.Consume false;
       Channel.Consume false]); [lia|vm_compute; reflexivity|reflexivity].
  - eexists.
    destruct (engine_stops_complete 1 0 [Channel.Publish 7; Channel.Publish 8; Channel.Consume false; Channel.Consume true]
      (Channel.mkLoop (Channel.mkChannel (Spsc.mkQueue 2 0 1 2 [7; 8]) false Channel.AtPop [7; 8] [7]) true))
      as (_ & _ & rest & H1 & _); [lia|vm_compute; reflexivity|].
    exists rest. split; [vm_compute; reflexivity|]. split; [reflexivity|]. split; [exact H1|]. by injection H1.
Defined.

(** C19. Once the handler has set the flag, the engine's loop ends: after at most [4 n + 5]
    of its own steps, [n] the number of events still in the ring, it has left the loop,
    having consumed them all, unless a signal took it out first. *)
Theorem engine_terminates {A} lg (zero : A) ls stops s :
  0 ≤ lg < 64 → Channel.run (2 ^ lg) (Channel.start (2 ^ lg) zero) ls = Ret s →
  let c := Channel.chan s in
  Channel.producer_done c = true → length stops = (4 * Z.to_nat (Spsc.size (Channel.queue c)) + 5)%nat →
  ∃ s', Channel.engine_steps (2 ^ lg) stops s = Ret s' ∧
    (Channel.at_ (Channel.chan s') = Channel.Exited ∧ Channel.popped (Channel.chan s') = Channel.pushed c ∨
     Channel.interrupted s' = true ∧ (Channel.interrupted s = true ∨ true ∈ stops)).
Proof.
  intros Hlg Hrun c Hd Hlen. unfold c in *.
  destruct (Channel.run_inv lg Hlg ls (Channel.start (2 ^ lg) zero) _ _ (Channel.channel_inv_init lg Hlg zero) Hrun) as [[inside HI] _].
  rewrite (Spsc.size_spec _ lg Hlg eq_refl _ _ (Channel.iv_rep _ _ _ HI)) in Hlen.
  destruct (Channel.engine_leaves lg Hlg stops s inside HI Hd) as (s' & inside' & Hs' & HI' & Hp & Hout & Hwhy).
  - rewrite Hlen. unfold Channel.distance, vlen. rewrite Nat2Z.id. destruct (Channel.at_ _), inside; simpl; lia.
  - exists s'. split; [done|]. destruct Hout as [Hat|Hi]; [left|right; by auto]. split; [done|].
    destruct (Channel.iv_exit _ _ _ HI' Hat) as [_ Hi]. rewrite <- Hp, (Channel.iv_order _ _ _ HI'), Hi. by rewrite app_nil_r.
Qed.

Lemma engine_terminates_witness :
  ∃ s s', Channel.run 2 (Channel.start 2 0) [Channel.Publish 7; Channel.Publish 8; Channel.Finish] = Ret s ∧
    Channel.engine_steps 2 (replicate 13 false) s = Ret s' ∧ Channel.at_ (Channel.chan s') = Channel.Exited ∧
    Channel.popped (Channel.chan s') = [7; 8].
Proof.
  destruct (Channel.run 2 (Channel.start 2 0) [Channel.Publish 7; Channel.Publish 8; Channel.Finish])
    as [s|] eqn:E; [|vm_compute in E; congruence].
  assert (Channel.producer_done (Channel.chan s) = true ∧ Channel.interrupted s = false ∧
    Channel.pushed (Channel.chan s) = [7; 8] ∧ Spsc.size (Channel.queue (Channel.chan s)) = 2) as (Hd & Hi & Hp & Hs).
  { vm_compute in E. injection E as E. subst s. repeat split; reflexivity. }
  destruct (engine_terminates 1 0 _ (replicate 13 false) s ltac:(lia) E Hd) as (s' & H1 & [[H2 H3]|[_ [H2|H2]]]).
  - rewrite Hs. reflexivity.
  - exists s, s'. split; [reflexivity|]. split; [exact H1|]. split; [exact H2|]. rewrite H3. exact Hp.
  - rewrite Hi in H2. discriminate.
  - apply elem_of_replicate in H2 as [H2 _]. discriminate.
Defined.
