(* ===== verification/SharedMemory.v ===== *)
(** * The shared segment

    [SharedMemoryQueue] of [ipc/shared_memory_queue.cpp]: the handler creates and
    initialises the segment that holds the channel, the engine waits for it to
    appear, to have its size and to be marked ready. The system calls are a
    parameter ([ShmOs]); [ShmLaws] counts open descriptors and mappings, as POSIX
    specifies them for these calls, and nothing else of the system is assumed. *)

From stdpp Require Import strings.
From S2P Require Import Prelude.

#[local] Open Scope Z_scope.

Class ShmOs (Os : Type) := {
  os_unlink : Os → string → Os;
  os_create : Os → string → Os * option Z;      (* shm_open, O_CREAT | O_EXCL | O_RDWR *)
  os_open : Os → string → Os * option Z;        (* shm_open, O_RDWR *)
  os_ftruncate : Os → Z → Z → Os * bool;
  os_fstat : Os → Z → Os * option Z;            (* st_size *)
  os_mmap : Os → Z → Os * option Z;
  os_munmap : Os → Z → Os;
  os_close : Os → Z → Os;
  os_construct : Os → Z → Os;                   (* new (region) ShmChannel(), flags 0 *)
  os_store_ready : Os → Z → Z → Os;
  os_load_ready : Os → Z → Os * Z;
  os_sleep : Os → Os
}.

Module Shm.

Definition kChannelReadyMagic : Z := 0x52454459.

(** Descriptors and regions are identified by numbers; no descriptor is -1 and no
    region the null pointer in the source. *)
Record t := mkShm {
  name_ : string;
  owner_ : bool;
  fd_ : option Z;
  region_ : option Z;
  channel_ : option Z
}.

Definition fresh : t := mkShm "" false None None None.

Section operations.
Context {Os : Type} `{ShmOs Os} (channel_size : Z).

Definition close (o : Os) (q : t) : Os * t :=
  let o := match region_ q with Some r => os_munmap o r | None => o end in
  let o := match fd_ q with Some fd => os_close o fd | None => o end in
  let o := if owner_ q && negb (bool_decide (name_ q = "")) then os_unlink o (name_ q) else o in
  (o, mkShm (name_ q) (owner_ q) None None None).

Definition create (o : Os) (q : t) (name : string) : Os * t * bool :=
  let o := os_unlink o name in
  match os_create o name with
  | (o, None) => (o, mkShm (name_ q) (owner_ q) None (region_ q) (channel_ q), false)
  | (o, Some fd) =>
      let q := mkShm (name_ q) (owner_ q) (Some fd) (region_ q) (channel_ q) in
      let '(o, sized) := os_ftruncate o fd channel_size in
      if negb sized then (close o q, false)
      else match os_mmap o fd with
      | (o, None) => (close o (mkShm (name_ q) (owner_ q) (fd_ q) None (channel_ q)), false)
      | (o, Some region) =>
          let o := os_construct o region in
          let o := os_store_ready o region kChannelReadyMagic in
          (o, mkShm name true (fd_ q) (Some region) (Some region), true)
      end
  end.

(** The first loop of [attach]; the flag is [sized]. *)
Fixpoint wait_sized (fuel : nat) (o : Os) (q : t) (name : string) (timeout_ms waited : Z)
    : outcome (Os * t * bool) :=
  match fuel with
  | O => Fault OutOfFuel
  | S fuel =>
      if waited <=? timeout_ms then
        let '(o, fd) := os_open o name in
        let q := mkShm (name_ q) (owner_ q) fd (region_ q) (channel_ q) in
        match fd with
        | Some fd =>
            let '(o, st_size) := os_fstat o fd in
            if bool_decide (st_size = Some channel_size) then Ret (o, q, true)
            else
              let o := os_close o fd in
              let q := mkShm (name_ q) (owner_ q) None (region_ q) (channel_ q) in
              waited ← i32 (waited + 10);
              wait_sized fuel (os_sleep o) q name timeout_ms waited
        | None =>
            waited ← i32 (waited + 10);
            wait_sized fuel (os_sleep o) q name timeout_ms waited
        end
      else Ret (o, q, false)
  end.

(** The second loop; the flag says that [ready] was seen. *)
Fixpoint wait_ready (fuel : nat) (o : Os) (region timeout_ms waited : Z) : outcome (Os * bool) :=
  match fuel with
  | O => Fault OutOfFuel
  | S fuel =>
      if waited <=? timeout_ms then
        let '(o, ready) := os_load_ready o region in
        if ready =? kChannelReadyMagic then Ret (o, true)
        else waited ← i32 (waited + 10); wait_ready fuel (os_sleep o) region timeout_ms waited
      else Ret (o, false)
  end.

Definition attach (fuel : nat) (o : Os) (q : t) (name : string) (timeout_ms : Z)
    : outcome (Os * t * bool) :=
  '(o, q, sized) ← wait_sized fuel o q name timeout_ms 0;
  if negb sized then Ret (close o q, false)
  else match fd_ q with
  | None => Fault OutOfBounds
  | Some fd =>
      match os_mmap o fd with
      | (o, None) => Ret (close o (mkShm (name_ q) (owner_ q) (fd_ q) None (channel_ q)), false)
      | (o, Some region) =>
          let q := mkShm name false (fd_ q) (Some region) (channel_ q) in
          '(o, ready) ← wait_ready fuel o region timeout_ms 0;
          if (ready : bool) then Ret (o, mkShm name false (fd_ q) (Some region) (Some region), true)
          else Ret (close o q, false)
      end
  end.
End operations.
End Shm.
Import Shm.

(** ** Descriptors and mappings *)

(** The descriptors and the mappings that are open. *)
Record usage := mkUsage { descriptors : Z; mappings : Z }.

Definition plus_fd (u : usage) (n : Z) : usage := mkUsage (descriptors u + n) (mappings u).
Definition plus_map (u : usage) (n : Z) : usage := mkUsage (descriptors u) (mappings u + n).

Definition opened {A} (r : option A) : Z := match r with Some _ => 1 | None => 0 end.

Class ShmLaws (Os : Type) `{ShmOs Os} (used : Os → usage) : Prop := {
  law_unlink o n : used (os_unlink o n) = used o;
  law_create o n : used (os_create o n).1 = plus_fd (used o) (opened (os_create o n).2);
  law_open o n : used (os_open o n).1 = plus_fd (used o) (opened (os_open o n).2);
  law_ftruncate o fd n : used (os_ftruncate o fd n).1 = used o;
  law_fstat o fd : used (os_fstat o fd).1 = used o;
  law_mmap o fd : used (os_mmap o fd).1 = plus_map (used o) (opened (os_mmap o fd).2);
  law_munmap o r : used (os_munmap o r) = plus_map (used o) (-1);
  law_close o fd : used (os_close o fd) = plus_fd (used o) (-1);
  law_construct o r : used (os_construct o r) = used o;
  law_store_ready o r v : used (os_store_ready o r v) = used o;
  law_load_ready o r : used (os_load_ready o r).1 = used o;
  law_sleep o : used (os_sleep o) = used o
}.

(** What an object holds. *)
Definition holding (u : usage) (q : t) : usage :=
  mkUsage (descriptors u + opened (fd_ q)) (mappings u + opened (region_ q)).

(** An object that was not opened, or not any more. *)
Definition released (q : t) : Prop := fd_ q = None ∧ region_ q = None ∧ channel_ q = None.

(** What [create] and [attach] promise, started with [u] in use. *)
Definition settled {Os} (used : Os → usage) (u : usage) (o : Os) (q : t) (ok : bool) : Prop :=
  used o = holding u q ∧
  if ok then is_Some (fd_ q) ∧ is_Some (region_ q) ∧ channel_ q = region_ q else released q.

Lemma plus_fd_back u : plus_fd (plus_fd u 1) (-1) = u.
Proof. destruct u. unfold plus_fd. simpl. f_equal. lia. Qed.

Lemma plus_fd_0 u : plus_fd u 0 = u.
Proof. destruct u. unfold plus_fd. simpl. f_equal. lia. Qed.

Lemma plus_map_0 u : plus_map u 0 = u.
Proof. destruct u. unfold plus_map. simpl. f_equal. lia. Qed.

Lemma holding_released u q : released q → holding u q = u.
Proof. intros (Hf & Hr & _). unfold holding. rewrite Hf, Hr. destruct u. simpl. f_equal; lia. Qed.

Section lifecycle.
Context `{Hlaws : ShmLaws Os used} (channel_size : Z).

Lemma close_releases u o q :
  used o = holding u q → let '(o', q') := close o q in settled used u o' q' false.
Proof using Hlaws.
  intros Hu. unfold close, settled.
  split; [|by repeat split]. rewrite (holding_released u) by done.
  assert (∀ o', used (if owner_ q && negb (bool_decide (name_ q = "")) then os_unlink o' (name_ q) else o')
    = used o') as -> by (intros o'; destruct (_ && _); [apply law_unlink|done]).
  destruct u as [d n]. unfold holding in Hu.
  destruct (fd_ q), (region_ q); simpl in Hu; rewrite ?law_close, ?law_munmap, Hu; unfold plus_fd, plus_map;
    simpl; f_equal; lia.
Qed.

Lemma create_settled o name :
  let '(o', q, ok) := create channel_size o fresh name in settled used (used o) o' q ok.
Proof using Hlaws.
  unfold create. pose proof (law_create (os_unlink o name) name) as Hc. rewrite law_unlink in Hc.
  destruct (os_create (os_unlink o name) name) as [o1 [fd|]]; cbn [fst snd opened] in Hc.
  2: { rewrite plus_fd_0 in Hc. split; [|done]. by rewrite holding_released. }
  pose proof (law_ftruncate o1 fd channel_size) as Ht.
  destruct (os_ftruncate o1 fd channel_size) as [o2 sized]. cbn [fst] in Ht. destruct sized; cbn [negb].
  - pose proof (law_mmap o2 fd) as Hm. destruct (os_mmap o2 fd) as [o3 [r|]]; cbn [fst snd opened] in Hm.
    + split; [|by eauto]. rewrite law_store_ready, law_construct, Hm, Ht, Hc.
      unfold holding, plus_fd, plus_map. simpl. done.
    + rewrite plus_map_0 in Hm. apply close_releases. rewrite Hm, Ht, Hc. unfold holding, plus_fd. simpl. f_equal. lia.
  - apply close_releases. rewrite Ht, Hc. unfold holding, plus_fd. simpl. f_equal. lia.
Qed.

(** The two loops end before the counter can leave its type. *)
Lemma wait_step waited timeout fuel :
  0 ≤ waited ≤ timeout → timeout ≤ 2 ^ 31 - 11 → timeout + 10 - waited < 10 * Z.of_nat (S fuel) →
  i32 (waited + 10) = Ret (waited + 10) ∧ 0 ≤ waited + 10 ∧ timeout + 10 - (waited + 10) < 10 * Z.of_nat fuel.
Proof.
  intros H1 H2 H3. split; [|lia]. unfold i32.
  destruct (Z.leb_spec (- 2 ^ 31) (waited + 10)), (Z.leb_spec (waited + 10) (2 ^ 31 - 1)); lia || done.
Qed.

Lemma wait_sized_spec name timeout fuel : ∀ o waited,
  0 ≤ waited → timeout ≤ 2 ^ 31 - 11 → timeout + 10 - waited < 10 * Z.of_nat fuel → (0 < fuel)%nat →
  ∃ o' fd, wait_sized channel_size fuel o fresh name timeout waited =
      Ret (o', mkShm "" false fd None None, bool_decide (is_Some fd)) ∧
    used o' = plus_fd (used o) (opened fd).
Proof using Hlaws.
  induction fuel as [|fuel IH]; intros o waited Hw Ht Hf Hpos; [lia|]. cbn [wait_sized].
  destruct (Z.leb_spec waited timeout) as [Hle|Hgt].
  2: { exists o, None. rewrite plus_fd_0. done. }
  destruct (wait_step waited timeout fuel ltac:(lia) Ht Hf) as (Hi & Hw' & Hf').
  pose proof (law_open o name) as Ho. destruct (os_open o name) as [o1 [fd|]]; cbn [fst snd opened] in Ho.
  - pose proof (law_fstat o1 fd) as Hs. destruct (os_fstat o1 fd) as [o2 size]. cbn [fst] in Hs.
    case_bool_decide.
    + exists o2, (Some fd). rewrite Hs, Ho. done.
    + rewrite Hi. returns.
      destruct (IH (os_sleep (os_close o2 fd)) (waited + 10)) as (o' & fd' & Hrun & Hu); [lia..|].
      exists o', fd'. split; [exact Hrun|]. by rewrite Hu, law_sleep, law_close, Hs, Ho, plus_fd_back.
  - rewrite plus_fd_0 in Ho. rewrite Hi. returns.
    destruct (IH (os_sleep o1) (waited + 10)) as (o' & fd' & Hrun & Hu); [lia..|].
    exists o', fd'. split; [exact Hrun|]. by rewrite Hu, law_sleep, Ho.
Qed.

Lemma wait_ready_spec region timeout fuel : ∀ o waited,
  0 ≤ waited → timeout ≤ 2 ^ 31 - 11 → timeout + 10 - waited < 10 * Z.of_nat fuel → (0 < fuel)%nat →
  ∃ o' ready, wait_ready fuel o region timeout waited = Ret (o', ready) ∧ used o' = used o ∧
    (ready = true → ∃ o1, os_load_ready o1 region = (o', kChannelReadyMagic)).
Proof using Hlaws.
  induction fuel as [|fuel IH]; intros o waited Hw Ht Hf Hpos; [lia|]. cbn [wait_ready].
  destruct (Z.leb_spec waited timeout) as [Hle|Hgt]; [|by exists o, false].
  destruct (wait_step waited timeout fuel ltac:(lia) Ht Hf) as (Hi & Hw' & Hf').
  pose proof (law_load_ready o region) as Ho.
  destruct (os_load_ready o region) as [o1 ready] eqn:El. cbn [fst] in Ho.
  destruct (Z.eqb_spec ready kChannelReadyMagic) as [->|].
  - exists o1, true. split; [done|]. split; [done|]. by exists o.
  - rewrite Hi. returns.
    destruct (IH (os_sleep o1) (waited + 10)) as (o' & r & Hrun & Hu & Hr); [lia..|].
    exists o', r. split; [exact Hrun|]. split; [by rewrite Hu, law_sleep, Ho|done].
Qed.

Lemma attach_settled fuel o name timeout :
  0 ≤ timeout ≤ 2 ^ 31 - 11 → timeout + 10 < 10 * Z.of_nat fuel →
  ∃ o' q ok, attach channel_size fuel o fresh name timeout = Ret (o', q, ok) ∧
    settled used (used o) o' q ok ∧
    (ok = true → ∃ o1 r, channel_ q = Some r ∧ os_load_ready o1 r = (o', kChannelReadyMagic)).
Proof using Hlaws.
  intros Ht Hf. unfold attach.
  destruct (wait_sized_spec name timeout fuel o 0) as (o1 & fd & -> & Hu); [lia..|].
  returns. destruct fd as [fd|]; cbn [opened] in Hu.
  2: { rewrite plus_fd_0 in Hu. rewrite bool_decide_false by (intros [? ?]; done). cbn [negb].
    pose proof (close_releases (used o) o1 fresh) as Hc. destruct (close o1 _) as [o2 q2].
    exists o2, q2, false. split; [done|]. split; [|done]. apply Hc. by rewrite holding_released. }
  rewrite bool_decide_true by done. cbn [negb fd_].
  pose proof (law_mmap o1 fd) as Hm. destruct (os_mmap o1 fd) as [o2 [r|]]; cbn [fst snd opened] in Hm.
  - destruct (wait_ready_spec r timeout fuel o2 0) as (o3 & ready & -> & Hr & Hseen); [lia..|].
    returns. destruct ready.
    + eexists _, _, _. split; [done|]. split; [split; [|by eauto]|].
      * rewrite Hr, Hm, Hu. done.
      * intros _. destruct (Hseen eq_refl) as (o4 & Ho4). by exists o4, r.
    + pose proof (close_releases (used o) o3 (mkShm name false (Some fd) (Some r) None)) as Hc.
      cbn [name_ owner_ fd_ channel_]. destruct (close o3 _) as [o4 q4].
      exists o4, q4, false. split; [done|]. split; [|done]. apply Hc. by rewrite Hr, Hm, Hu.
  - rewrite plus_map_0 in Hm.
    pose proof (close_releases (used o) o2 (mkShm "" false (Some fd) None None)) as Hc.
    cbn [name_ owner_ fd_ channel_]. destruct (close o2 _) as [o4 q4].
    exists o4, q4, false. split; [done|]. split; [|done]. apply Hc. rewrite Hm, Hu.
    unfold holding, plus_fd. simpl. f_equal. lia.
Qed.
End lifecycle.

(** ** A small POSIX *)

(** Names of segments, a segment's size and its [ready] word, the segment behind a
    descriptor. A region is the segment it shows. *)
Record posix := mkPosix {
  names : gmap string Z;
  segments : gmap Z (Z * Z);
  files : gmap Z Z;
  next_id : Z;
  in_use : usage
}.

Definition set_use (p : posix) (u : usage) : posix :=
  mkPosix (names p) (segments p) (files p) (next_id p) u.
Definition set_segment (p : posix) (s : Z) (v : Z * Z) : posix :=
  mkPosix (names p) (<[s := v]> (segments p)) (files p) (next_id p) (in_use p).
Definition behind (p : posix) (fd : Z) : Z * (Z * Z) :=
  let s := default 0 (files p !! fd) in (s, default (0, 0) (segments p !! s)).

Definition px_open_segment (p : posix) (s : Z) : posix * option Z :=
  (mkPosix (names p) (segments p) (<[next_id p := s]> (files p)) (next_id p + 1) (plus_fd (in_use p) 1),
   Some (next_id p)).

Definition px_create (p : posix) (n : string) : posix * option Z :=
  match names p !! n with
  | Some _ => (set_use p (plus_fd (in_use p) 0), None)
  | None =>
      let s := next_id p in
      px_open_segment (mkPosix (<[n := s]> (names p)) (<[s := (0, 0)]> (segments p)) (files p)
        (next_id p + 1) (in_use p)) s
  end.

Definition px_open (p : posix) (n : string) : posix * option Z :=
  match names p !! n with
  | Some s => px_open_segment p s
  | None => (set_use p (plus_fd (in_use p) 0), None)
  end.

#[export] Instance posix_os : ShmOs posix := {
  os_unlink p n := mkPosix (delete n (names p)) (segments p) (files p) (next_id p) (in_use p);
  os_create := px_create;
  os_open := px_open;
  os_ftruncate p fd n := (set_segment p (behind p fd).1 (n, (behind p fd).2.2), true);
  os_fstat p fd := (p, Some (behind p fd).2.1);
  os_mmap p fd := (set_use p (plus_map (in_use p) 1), Some (behind p fd).1);
  os_munmap p r := set_use p (plus_map (in_use p) (-1));
  os_close p fd := set_use p (plus_fd (in_use p) (-1));
  os_construct p r := set_segment p r ((default (0, 0) (segments p !! r)).1, 0);
  os_store_ready p r v := set_segment p r ((default (0, 0) (segments p !! r)).1, v);
  os_load_ready p r := (p, (default (0, 0) (segments p !! r)).2);
  os_sleep p := p
}.

Lemma posix_laws : ShmLaws posix in_use.
Proof.
  split; try done.
  - intros p n. cbn [os_create posix_os]. unfold px_create. by destruct (names p !! n).
  - intros p n. cbn [os_open posix_os]. unfold px_open. by destruct (names p !! n).
Qed.

Definition boot : posix := mkPosix ∅ ∅ ∅ 7 (mkUsage 3 0).

(** ** Properties *)

(** [create] and [attach] always return, whatever the system calls answer
    (the waiting loops of [attach] within the time-out, without overflow of their
    counter), and nothing leaks: on success the object holds exactly one
    descriptor and one mapping and its channel is that mapping, on every failure
    path it holds none, an attached channel was seen ready, and [close] afterwards
    gives back whatever is held. *)
Lemma shm_no_leak {Os} `{ShmLaws Os used} channel_size fuel (o : Os) name timeout_ms :
  0 ≤ timeout_ms ≤ 2 ^ 31 - 11 → timeout_ms + 10 < 10 * Z.of_nat fuel →
  (∃ o' q ok, create channel_size o fresh name = (o', q, ok) ∧ settled used (used o) o' q ok ∧
    used (close o' q).1 = used o) ∧
  (∃ o' q ok, attach channel_size fuel o fresh name timeout_ms = Ret (o', q, ok) ∧
    settled used (used o) o' q ok ∧
    (ok = true → ∃ o1 r, channel_ q = Some r ∧ os_load_ready o1 r = (o', kChannelReadyMagic)) ∧
    used (close o' q).1 = used o).
Proof.
  intros Ht Hf.
  assert (∀ o' q ok, settled used (used o) o' q ok → used (close o' q).1 = used o) as Hclose.
  { intros o' q ok [Hu _]. pose proof (close_releases (used o) o' q Hu) as Hc.
    destruct (close o' q) as [o2 q2]. destruct Hc as [Hc Hr]. cbn [fst]. by rewrite Hc, holding_released. }
  split.
  - pose proof (create_settled channel_size o name) as Hc.
    destruct (create channel_size o fresh name) as [[o' q] ok]. exists o', q, ok. split; [done|]. eauto.
  - destruct (attach_settled channel_size fuel o name timeout_ms Ht Hf) as (o' & q & ok & Hrun & Hs & Hr).
    exists o', q, ok. split; [done|]. split; [done|]. eauto.
Qed.

Lemma shm_no_leak_witness :
  (∃ o' q, create 64 boot fresh "/llte_feed" = (o', q, true) ∧ in_use o' = mkUsage 4 1 ∧
    in_use (close o' q).1 = mkUsage 3 0) ∧
  (∃ o' q, attach 64 3 boot fresh "/llte_feed" 10 = Ret (o', q, false) ∧ in_use o' = mkUsage 3 0).
Proof.
  destruct (shm_no_leak (H0 := posix_laws) 64 3 boot "/llte_feed" 10)
    as [(o1 & q1 & ok1 & H1 & [H2 H3] & H4) (o2 & q2 & ok2 & H5 & [H6 H7] & _)]; [lia|lia|].
  split.
  - exists o1, q1. vm_compute in H1. injection H1 as <- <- <-.
    split; [reflexivity|]. split; [reflexivity|exact H4].
  - exists o2, q2. vm_compute in H5. injection H5 as <- <- <-. split; reflexivity.
Defined.

(** A segment that a crashed handler left behind: its name, its size, and marked
    ready. *)
Definition stale : posix :=
  mkPosix {["/llte_feed" := 5]} {[5 := (64, kChannelReadyMagic)]} ∅ 7 (mkUsage 3 0).

(** An [attach] that runs first takes a stale segment: on the small system, with a segment
    left by a crashed run, a handler's [create] makes a new one, and an engine
    that attaches after it gets the new one; an engine that attaches before it
    succeeds with the stale one, and handler and engine then use different
    channels. *)
Lemma attach_takes_stale :
  (∃ p1 p2 h e r, create 64 stale fresh "/llte_feed" = (p1, h, true) ∧
    attach 64 3 p1 fresh "/llte_feed" 10 = Ret (p2, e, true) ∧
    channel_ h = Some r ∧ channel_ e = Some r ∧ r ≠ 5) ∧
  (∃ p1 p2 h e r, attach 64 3 stale fresh "/llte_feed" 10 = Ret (p1, e, true) ∧
    create 64 p1 fresh "/llte_feed" = (p2, h, true) ∧
    channel_ e = Some 5 ∧ channel_ h = Some r ∧ r ≠ 5).
Proof.
  split.
  - do 5 eexists. split; [vm_compute; reflexivity|]. split; [vm_compute; reflexivity|].
    split; [reflexivity|]. split; [reflexivity|done].
  - do 5 eexists. split; [vm_compute; reflexivity|]. split; [vm_compute; reflexivity|].
    split; [reflexivity|]. split; [reflexivity|done].
Qed.
