(* ===== verification/Wire.v ===== *)
(** * Bytes on the wire

    The structures of [market_message.hpp] and [protocol.hpp] as they are copied
    to and from buffers on a little-endian host (the offsets that the size
    assertions pin down: no padding except the last four bytes of a message),
    and the datagram checks of [market_data/market_data_handler.cpp]. A byte is
    an integer from 0 to 255. *)

From S2P Require Import Prelude Message.

#[local] Open Scope Z_scope.

(** ** Little-endian integers *)

Fixpoint le (n : nat) (z : Z) : list Z :=
  match n with
  | O => []
  | S n => z mod 256 :: le n (z / 256)
  end.

Fixpoint unle (l : list Z) : Z :=
  match l with
  | [] => 0
  | b :: l => b + 256 * unle l
  end.

(** Reads an [n]-byte field off the front of a buffer. *)
Definition field (n : nat) (bytes : list Z) : Z * list Z := (unle (take n bytes), drop n bytes).

(** Two's complement. *)
Definition to_i64 (z : Z) : Z := if z <? 2 ^ 63 then z else z - 2 ^ 64.

(** ** Structures *)

Definition message_bytes : Z := 48.
Definition header_bytes : Z := 8.
Definition request_bytes : Z := 24.
Definition response_bytes : Z := 8.
Definition kMaxPacketBytes : Z := header_bytes + kMaxBatch * message_bytes.

(** [pad] are the four bytes after [reserved], which no one reads. *)
Definition encode_message (pad : list Z) (m : MarketMessage) : list Z :=
  le 8 (sequence_number m) ++ le 8 (timestamp_ns m) ++ le 8 (order_id m) ++ le 8 (price m) ++
  le 4 (quantity m) ++ le 4 (symbol_id m) ++ le 1 (MessageType_to_byte (type m)) ++
  le 1 (Side_to_byte (side m)) ++ le 2 (reserved m) ++ pad.

Definition decode_message (bytes : list Z) : MarketMessage :=
  let '(sequence_number, bytes) := field 8 bytes in
  let '(timestamp_ns, bytes) := field 8 bytes in
  let '(order_id, bytes) := field 8 bytes in
  let '(price, bytes) := field 8 bytes in
  let '(quantity, bytes) := field 4 bytes in
  let '(symbol_id, bytes) := field 4 bytes in
  let '(type, bytes) := field 1 bytes in
  let '(side, bytes) := field 1 bytes in
  let '(reserved, bytes) := field 2 bytes in
  mkMessage sequence_number timestamp_ns order_id (to_i64 price) quantity symbol_id
    (MessageType_of_byte type) (Side_of_byte side) reserved.

Record FeedPacketHeader := mkHeader { h_magic : Z; h_count : Z; h_reserved : Z }.

Definition encode_header (h : FeedPacketHeader) : list Z :=
  le 4 (h_magic h) ++ le 2 (h_count h) ++ le 2 (h_reserved h).
Definition decode_header (bytes : list Z) : FeedPacketHeader :=
  let '(magic, bytes) := field 4 bytes in
  let '(count, bytes) := field 2 bytes in
  let '(reserved, _) := field 2 bytes in
  mkHeader magic count reserved.

Record RecoveryRequest := mkRequest {
  rq_magic : Z; rq_reserved : Z; from_sequence : Z; to_sequence : Z
}.

Definition encode_request (r : RecoveryRequest) : list Z :=
  le 4 (rq_magic r) ++ le 4 (rq_reserved r) ++ le 8 (from_sequence r) ++ le 8 (to_sequence r).
Definition decode_request (bytes : list Z) : RecoveryRequest :=
  let '(magic, bytes) := field 4 bytes in
  let '(reserved, bytes) := field 4 bytes in
  let '(from, bytes) := field 8 bytes in
  let '(to, _) := field 8 bytes in
  mkRequest magic reserved from to.

Record RecoveryResponseHeader := mkResponse { rs_magic : Z; rs_count : Z }.

Definition encode_response (r : RecoveryResponseHeader) : list Z :=
  le 4 (rs_magic r) ++ le 4 (rs_count r).
Definition decode_response (bytes : list Z) : RecoveryResponseHeader :=
  let '(magic, bytes) := field 4 bytes in
  let '(count, _) := field 4 bytes in
  mkResponse magic count.

(** [count] messages stored one after the other. *)
Fixpoint decode_messages (count : nat) (bytes : list Z) : list MarketMessage :=
  match count with
  | O => []
  | S count =>
      decode_message (take 48 bytes) :: decode_messages count (drop 48 bytes)
  end.

Definition encode_messages (pad : list Z) (ms : list MarketMessage) : list Z :=
  concat (encode_message pad <$> ms).

(** ** Datagrams *)

(** The datagram that [flush_packet] sends for the pending messages. *)
Definition encode_packet (pad : list Z) (ms : list MarketMessage) : list Z :=
  encode_header (mkHeader kFeedMagic (u16 (vlen ms)) 0) ++ encode_messages pad ms.

(** The handler's checks on a received datagram: the messages of a well-formed
    one, [None] for one counted as malformed. *)
Definition parse_packet (packet : list Z) : option (list MarketMessage) :=
  let received := vlen packet in
  if received <? header_bytes then None
  else
    let header := decode_header packet in
    let expected_bytes := header_bytes + h_count header * message_bytes in
    if negb (h_magic header =? kFeedMagic) || (h_count header =? 0) ||
       (kMaxBatch <? h_count header) || negb (received =? expected_bytes)
    then None
    else Some (decode_messages (Z.to_nat (h_count header)) (drop 8 packet)).

(** ** Round trips *)

Lemma le_length n z : length (le n z) = n.
Proof. revert z. induction n as [|n IH]; intros z; simpl; [done|]. by rewrite IH. Qed.

Lemma unle_le n z : unle (le n z) = z mod 256 ^ Z.of_nat n.
Proof.
  revert z. induction n as [|n IH]; intros z; [by rewrite Z.mod_1_r|].
  cbn [le unle]. rewrite IH, Nat2Z.inj_succ, Z.pow_succ_r by lia.
  rewrite Z.rem_mul_r by lia. done.
Qed.

Lemma unle_le_small n z : 0 ≤ z < 256 ^ Z.of_nat n → unle (le n z) = z.
Proof. intros. by rewrite unle_le, Z.mod_small. Qed.

Lemma field_app n z rest : field n (le n z ++ rest) = (unle (le n z), rest).
Proof.
  unfold field. rewrite take_app_le, drop_app_le by (by rewrite le_length).
  rewrite take_ge, drop_ge by (by rewrite le_length). done.
Qed.

Lemma to_i64_unle z : int64_min ≤ z ≤ int64_max → to_i64 (unle (le 8 z)) = z.
Proof.
  unfold int64_min, int64_max, to_i64. intros. rewrite unle_le.
  change (256 ^ Z.of_nat 8) with (2 ^ 64).
  destruct (Z.ltb_spec (z mod 2 ^ 64) (2 ^ 63)); destruct (Z.lt_ge_cases z 0).
  - rewrite <- (Z.mod_add z 1) in * by lia. rewrite Z.mod_small in *; lia.
  - by rewrite Z.mod_small by lia.
  - rewrite <- (Z.mod_add z 1) in * by lia. rewrite Z.mod_small in *; lia.
  - rewrite Z.mod_small in *; lia.
Qed.

(** The field ranges of the C++ types; an enumeration holds a byte, and a named
    value is not spelled as a raw byte. *)
Definition byte_ok (b : Z) : Prop := 0 ≤ b < 256.
Record message_ok (m : MarketMessage) : Prop := {
  ok_sequence : 0 ≤ sequence_number m < 2 ^ 64;
  ok_timestamp : 0 ≤ timestamp_ns m < 2 ^ 64;
  ok_order : 0 ≤ order_id m < 2 ^ 64;
  ok_price : int64_min ≤ price m ≤ int64_max;
  ok_quantity : 0 ≤ quantity m < 2 ^ 32;
  ok_symbol : 0 ≤ symbol_id m < 2 ^ 32;
  ok_type : byte_ok (MessageType_to_byte (type m)) ∧
    MessageType_of_byte (MessageType_to_byte (type m)) = type m;
  ok_side : byte_ok (Side_to_byte (side m)) ∧ Side_of_byte (Side_to_byte (side m)) = side m;
  ok_reserved : 0 ≤ reserved m < 2 ^ 16
}.

Lemma encode_message_length pad m : length pad = 4%nat → length (encode_message pad m) = 48%nat.
Proof. intros Hp. unfold encode_message. rewrite !length_app, !le_length, Hp. done. Qed.

Lemma decode_encode_message pad m rest :
  message_ok m → decode_message (encode_message pad m ++ rest) = m.
Proof.
  intros [H1 H2 H3 H4 H5 H6 [H7 H7'] [H8 H8'] H9]. unfold decode_message, encode_message.
  rewrite <- !app_assoc. repeat (rewrite field_app; cbn beta iota zeta).
  rewrite to_i64_unle by done. rewrite !unle_le_small by (unfold byte_ok in *; simpl; lia).
  rewrite H7', H8'. by destruct m.
Qed.

Lemma decode_encode_messages pad ms :
  length pad = 4%nat → Forall message_ok ms →
  decode_messages (length ms) (encode_messages pad ms) = ms.
Proof.
  intros Hp. unfold encode_messages. induction 1 as [|m ms Hm Hms IH]; [done|].
  cbn [length decode_messages fmap list_fmap concat].
  pose proof (encode_message_length pad m Hp) as Hl.
  rewrite take_app_le, drop_app_le by lia. rewrite take_ge, drop_ge by lia.
  rewrite <- (app_nil_r (encode_message pad m)), decode_encode_message by done. f_equal. apply IH.
Qed.

Lemma encode_messages_length pad ms :
  length pad = 4%nat → length (encode_messages pad ms) = (48 * length ms)%nat.
Proof.
  intros Hp. unfold encode_messages. induction ms as [|m ms IH]; [done|].
  cbn [length fmap list_fmap concat].
  rewrite length_app, IH, encode_message_length by done. lia.
Qed.

Lemma decode_encode_header h rest :
  0 ≤ h_magic h < 2 ^ 32 → 0 ≤ h_count h < 2 ^ 16 → 0 ≤ h_reserved h < 2 ^ 16 →
  decode_header (encode_header h ++ rest) = h.
Proof.
  intros. unfold decode_header, encode_header. rewrite <- !app_assoc.
  repeat (rewrite field_app; cbn beta iota zeta). rewrite !unle_le_small by (simpl; lia).
  by destruct h.
Qed.

Lemma decode_encode_request r :
  0 ≤ rq_magic r < 2 ^ 32 → 0 ≤ rq_reserved r < 2 ^ 32 →
  0 ≤ from_sequence r < 2 ^ 64 → 0 ≤ to_sequence r < 2 ^ 64 →
  decode_request (encode_request r) = r.
Proof.
  intros. unfold decode_request, encode_request.
  rewrite <- (app_nil_r (le 8 (to_sequence r))).
  repeat (rewrite field_app; cbn beta iota zeta). rewrite !unle_le_small by (simpl; lia).
  by destruct r.
Qed.

Lemma decode_encode_response r :
  0 ≤ rs_magic r < 2 ^ 32 → 0 ≤ rs_count r < 2 ^ 32 → decode_response (encode_response r) = r.
Proof.
  intros. unfold decode_response, encode_response. rewrite <- (app_nil_r (le 4 (rs_count r))).
  repeat (rewrite field_app; cbn beta iota zeta). rewrite !unle_le_small by (simpl; lia).
  by destruct r.
Qed.

Lemma encode_header_length h : length (encode_header h) = 8%nat.
Proof. unfold encode_header. by rewrite !length_app, !le_length. Qed.

Lemma encode_packet_length pad ms :
  length pad = 4%nat → vlen (encode_packet pad ms) = header_bytes + vlen ms * message_bytes.
Proof.
  intros Hp. unfold encode_packet, vlen, header_bytes, message_bytes.
  rewrite length_app, encode_header_length, encode_messages_length by done. lia.
Qed.

Lemma packet_header pad ms rest :
  vlen ms ≤ kMaxBatch →
  decode_header (take 8 (encode_packet pad ms) ++ rest) = mkHeader kFeedMagic (vlen ms) 0.
Proof.
  intros Hl. pose proof (vlen_nonneg ms). unfold kMaxBatch in Hl. unfold encode_packet.
  rewrite take_app_le by (by rewrite encode_header_length).
  rewrite take_ge by (by rewrite encode_header_length).
  unfold u16. rewrite Z.mod_small by lia. apply decode_encode_header; simpl; unfold kFeedMagic; lia.
Qed.

Lemma unle_bounds l : Forall byte_ok l → 0 ≤ unle l < 256 ^ Z.of_nat (length l).
Proof.
  unfold byte_ok. induction 1 as [|b l Hb Hl IH]; [simpl; lia|].
  cbn [length unle]. rewrite Nat2Z.inj_succ, Z.pow_succ_r by lia. lia.
Qed.

Lemma field_ok n bytes :
  Forall byte_ok bytes →
  0 ≤ (field n bytes).1 < 256 ^ Z.of_nat n ∧ Forall byte_ok (field n bytes).2.
Proof.
  intros Hb. simpl. split; [|by apply Forall_drop].
  destruct (unle_bounds (take n bytes)) as [H1 H2]; [by apply Forall_take|]. split; [done|].
  apply Z.lt_le_trans with (1 := H2). apply Z.pow_le_mono_r; [lia|]. rewrite length_take. lia.
Qed.

Lemma MessageType_of_byte_ok b :
  byte_ok b → byte_ok (MessageType_to_byte (MessageType_of_byte b)) ∧
    MessageType_of_byte (MessageType_to_byte (MessageType_of_byte b)) = MessageType_of_byte b.
Proof.
  intros Hb. unfold MessageType_of_byte.
  destruct (Z.eqb_spec b 1), (Z.eqb_spec b 2), (Z.eqb_spec b 3), (Z.eqb_spec b 4); subst;
    (split; [unfold byte_ok in *; simpl; lia|]); try done. simpl.
  by repeat (rewrite (proj2 (Z.eqb_neq _ _)) by done).
Qed.

Lemma Side_of_byte_ok b :
  byte_ok b → byte_ok (Side_to_byte (Side_of_byte b)) ∧
    Side_of_byte (Side_to_byte (Side_of_byte b)) = Side_of_byte b.
Proof.
  intros Hb. unfold Side_of_byte.
  destruct (Z.eqb_spec b 1), (Z.eqb_spec b 2); subst;
    (split; [unfold byte_ok in *; simpl; lia|]); try done. simpl.
  by repeat (rewrite (proj2 (Z.eqb_neq _ _)) by done).
Qed.

Lemma to_i64_bounds z : 0 ≤ z < 2 ^ 64 → int64_min ≤ to_i64 z ≤ int64_max.
Proof. unfold to_i64, int64_min, int64_max. destruct (Z.ltb_spec z (2 ^ 63)); lia. Qed.

(** Any bytes decode to values of the field types. *)
Lemma decode_message_ok bytes : Forall byte_ok bytes → message_ok (decode_message bytes).
Proof.
  intros Hb. unfold decode_message.
  repeat match goal with
  | Hb : Forall byte_ok ?l |- context [field ?n ?l] =>
      destruct (field_ok n l Hb) as [? ?]; destruct (field n l) as [? ?]; cbn [fst snd] in *
  end.
  cbn [Z.of_nat Pos.of_succ_nat Pos.succ] in *.
  split; cbn [sequence_number timestamp_ns order_id price quantity symbol_id type side reserved];
    try (apply to_i64_bounds; lia); try (apply MessageType_of_byte_ok; unfold byte_ok; lia);
    try (apply Side_of_byte_ok; unfold byte_ok; lia); lia.
Qed.

Lemma decode_messages_ok n bytes : Forall byte_ok bytes → Forall message_ok (decode_messages n bytes).
Proof.
  revert bytes. induction n as [|n IH]; intros bytes Hb; simpl; constructor.
  - by apply decode_message_ok, Forall_take.
  - by apply IH, Forall_drop.
Qed.

Lemma decode_messages_length n bytes : length (decode_messages n bytes) = n.
Proof. revert bytes. induction n as [|n IH]; intros bytes; simpl; [done|]. by rewrite IH. Qed.

Lemma parse_encoded pad ms :
  length pad = 4%nat → 0 < vlen ms ≤ kMaxBatch → Forall message_ok ms →
  parse_packet (encode_packet pad ms) = Some ms.
Proof.
  intros Hp Hl Hms. unfold parse_packet. rewrite encode_packet_length by done.
  assert (decode_header (encode_packet pad ms) = mkHeader kFeedMagic (vlen ms) 0) as ->.
  { rewrite <- (take_drop 8 (encode_packet pad ms)) at 1. apply packet_header. lia. }
  cbn [h_count h_magic].
  destruct (Z.ltb_spec (header_bytes + vlen ms * message_bytes) header_bytes);
    [unfold header_bytes, message_bytes in *; lia|].
  rewrite Z.eqb_refl, (proj2 (Z.eqb_neq _ _)), Z.eqb_refl by lia.
  destruct (Z.ltb_spec kMaxBatch (vlen ms)); [lia|]. cbn [negb orb].
  unfold encode_packet. rewrite drop_app_le by (by rewrite encode_header_length).
  rewrite drop_ge by (by rewrite encode_header_length). cbn [app].
  unfold vlen. by rewrite Nat2Z.id, decode_encode_messages.
Qed.

(** A datagram that lost its tail is rejected. *)
Lemma truncated_packet_rejected pad ms n :
  length pad = 4%nat → 0 < vlen ms ≤ kMaxBatch → 0 ≤ n < vlen (encode_packet pad ms) →
  parse_packet (take (Z.to_nat n) (encode_packet pad ms)) = None.
Proof.
  intros Hp Hl Hn. unfold parse_packet.
  assert (vlen (take (Z.to_nat n) (encode_packet pad ms)) = n) as ->.
  { unfold vlen in *. rewrite length_take. lia. }
  destruct (Z.ltb_spec n header_bytes) as [|Hge]; [done|]. unfold header_bytes in Hge.
  assert (take (Z.to_nat n) (encode_packet pad ms) =
    take 8 (encode_packet pad ms) ++ drop 8 (take (Z.to_nat n) (encode_packet pad ms))) as ->.
  { rewrite <- (take_drop 8 (take (Z.to_nat n) (encode_packet pad ms))) at 1.
    by rewrite take_take, Nat.min_l by lia. }
  rewrite packet_header by lia. cbn [h_count h_magic].
  rewrite encode_packet_length in Hn by done.
  destruct (Z.eqb_spec n (header_bytes + vlen ms * message_bytes)); [lia|].
  cbn [negb]. by rewrite orb_true_r.
Qed.

(** ** Properties *)

Definition odd_message : MarketMessage :=
  mkMessage (2 ^ 64 - 1) 7 9 (- 5) (2 ^ 32 - 1) 1 (MessageType_raw 200) Sell 0.

(** Whatever datagram arrives, an accepted one has exactly the length its
    count says, holds between 1 and [kMaxBatch] messages, so that no byte past
    the datagram is read, and every decoded field is a value of its type. *)
Lemma parse_packet_sound packet ms :
  Forall byte_ok packet → parse_packet packet = Some ms →
  vlen packet = header_bytes + vlen ms * message_bytes ∧ 0 < vlen ms ≤ kMaxBatch ∧
  vlen packet ≤ kMaxPacketBytes ∧ Forall message_ok ms.
Proof.
  intros Hb. unfold parse_packet. destruct (Z.ltb_spec (vlen packet) header_bytes); [done|].
  destruct (field_ok 4 packet Hb) as [_ Hb1]. destruct (field_ok 2 _ Hb1) as [Hc _].
  assert (0 ≤ h_count (decode_header packet)) as Hn by (unfold decode_header; simpl; apply Hc).
  destruct (_ || _) eqn:E; [done|]. apply orb_false_iff in E as [E E4%negb_false_iff%Z.eqb_eq].
  apply orb_false_iff in E as [E E3%Z.ltb_ge]. apply orb_false_iff in E as [E1 E2%Z.eqb_neq].
  intros Heq%(inj Some). rewrite <- Heq.
  assert (vlen (decode_messages (Z.to_nat (h_count (decode_header packet))) (drop 8 packet)) =
    h_count (decode_header packet)) as Hlen.
  { unfold vlen. rewrite decode_messages_length. lia. }
  rewrite Hlen, E4. unfold kMaxPacketBytes, message_bytes in *.
  split; [done|]. split; [lia|]. split; [lia|]. by apply decode_messages_ok, Forall_drop.
Qed.

(** C35. Datagrams carry messages faithfully. Every batch the exchange can send is
    received as it was sent: for 1 to [kMaxBatch] messages with any field values of
    the C++ types, also enumeration bytes that name no enumerator and negative
    prices, and whatever is in the padding, the handler parses the datagram to the
    same messages. And whatever datagram arrives, an accepted one has exactly the
    length its count says, holds 1 to [kMaxBatch] messages, so that no byte past the
    datagram is read, and every decoded field is a value of its type. *)
Theorem packet_codec pad ms packet ms' :
  length pad = 4%nat → 0 < vlen ms ≤ kMaxBatch → Forall message_ok ms →
  Forall byte_ok packet → parse_packet packet = Some ms' →
  parse_packet (encode_packet pad ms) = Some ms ∧
  vlen packet = header_bytes + vlen ms' * message_bytes ∧ 0 < vlen ms' ≤ kMaxBatch ∧
  vlen packet ≤ kMaxPacketBytes ∧ Forall message_ok ms'.
Proof.
  intros Hp Hl Hok Hb Hparse. split; [by apply parse_encoded|by apply parse_packet_sound].
Qed.

Lemma packet_codec_witness :
  parse_packet (encode_packet [1; 2; 3; 4] [odd_message; odd_message]) = Some [odd_message; odd_message] ∧
  vlen (encode_packet [0; 0; 0; 0] [odd_message]) = 56.
Proof.
  destruct (packet_codec [1; 2; 3; 4] [odd_message; odd_message] (encode_packet [0; 0; 0; 0] [odd_message]) [odd_message])
    as (H1 & H2 & _).
  - reflexivity.
  - split; vm_compute; congruence.
  - repeat constructor; vm_compute; congruence.
  - repeat constructor; vm_compute; congruence.
  - vm_compute. reflexivity.
  - split; [exact H1|exact H2].
Defined.
