(* ===== verification/History.v ===== *)
(** * The retransmission history

    [HistoryStore] of [exchange/recovery_server.cpp]: the last [capacity]
    published messages in a ring addressed by sequence number. The mutex makes
    [append] and [fetch] atomic, so they are functions of the store. *)

From S2P Require Import Prelude Message.

#[local] Open Scope Z_scope.
#[local] Open Scope llte_scope.

Module HistoryStore.

Record t := mkStore {
  ring_ : list MarketMessage;
  oldest_sequence_ : Z;
  newest_sequence_ : Z;
  empty_ : bool
}.

Definition make (capacity : Z) : t :=
  mkStore (replicate (Z.to_nat capacity) MarketMessage_zero) 0 0 true.

Definition append (h : t) (message : MarketMessage) : outcome t :=
  let seq := sequence_number message in
  i ← umod seq (vlen (ring_ h));
  ring ← assign (ring_ h) i message;
  let oldest := if empty_ h then seq else oldest_sequence_ h in
  let newest := seq in
  let oldest :=
    if vlen ring <? u64 (u64 (newest - oldest) + 1)
    then u64 (u64 (newest - vlen ring) + 1) else oldest in
  Ret (mkStore ring oldest newest false).

(** [out] holds the messages copied so far; its length is [count]. *)
Fixpoint fetch_loop (fuel : nat) (h : t) (to max_messages sequence : Z)
    (out : list MarketMessage) : outcome (list MarketMessage) :=
  match fuel with
  | O => Fault OutOfFuel
  | S fuel =>
      if (sequence <=? to) && (vlen out <? max_messages) then
        if (sequence <? oldest_sequence_ h) || (newest_sequence_ h <? sequence)
        then fetch_loop fuel h to max_messages (u64 (sequence + 1)) out
        else
          i ← umod sequence (vlen (ring_ h));
          m ← load (ring_ h) i;
          fetch_loop fuel h to max_messages (u64 (sequence + 1)) (out ++ [m])
      else Ret out
  end.

Definition fetch (fuel : nat) (h : t) (from to max_messages : Z) : outcome (list MarketMessage) :=
  if empty_ h then Ret [] else fetch_loop fuel h to max_messages from [].

End HistoryStore.
Import HistoryStore.

(** ** What it retains *)

Fixpoint append_all (h : t) (ms : list MarketMessage) : outcome t :=
  match ms with
  | [] => Ret h
  | m :: ms => h ← append h m; append_all h ms
  end.

(** Consecutive sequence numbers from [first] on. *)
Definition consecutive (first : Z) (ms : list MarketMessage) : Prop :=
  ∀ i m, ms⟦i⟧ = Some m → sequence_number m = first + i.

(** The last [n] elements. *)
Definition lastn {A} (n : Z) (l : list A) : list A := drop (Z.to_nat (vlen l - n)) l.

Definition in_range (from to : Z) (m : MarketMessage) : Prop :=
  from ≤ sequence_number m ≤ to.
#[export] Instance in_range_dec from to m : Decision (in_range from to m).
Proof. unfold in_range. apply _. Defined.

(** The store after publishing [ms], the first with number [first]. *)
Record hist_rep (cap first : Z) (h : t) (ms : list MarketMessage) : Prop := {
  hr_cap : 0 < cap < 2 ^ 64;
  hr_first : 0 ≤ first ∧ first + vlen ms < 2 ^ 64;
  hr_ring : vlen (ring_ h) = cap;
  hr_empty : empty_ h = bool_decide (ms = []);
  hr_cons : consecutive first ms;
  hr_newest : ms ≠ [] → newest_sequence_ h = first + vlen ms - 1;
  hr_oldest : ms ≠ [] → oldest_sequence_ h = first + Z.max 0 (vlen ms - cap);
  hr_slots i m : ms⟦i⟧ = Some m → vlen ms - cap ≤ i →
    (ring_ h)⟦(first + i) mod cap⟧ = Some m
}.

Lemma hist_rep_make cap first : 0 < cap < 2 ^ 64 → 0 ≤ first < 2 ^ 64 → hist_rep cap first (make cap) [].
Proof.
  intros Hc Hf. split; simpl; try done.
  - unfold vlen. simpl. lia.
  - rewrite vlen_replicate. lia.
  - intros i m. by rewrite vget_nil.
  - intros i m. by rewrite vget_nil.
Qed.

Lemma mod_window c a b : 0 < c → a < b < a + c → a mod c ≠ b mod c.
Proof.
  intros Hc Hab E. assert ((b - a) mod c = 0) as H0 by (rewrite Zminus_mod, E, Z.sub_diag; done).
  rewrite Z.mod_small in H0; lia.
Qed.

Lemma hist_rep_append cap first h ms m :
  hist_rep cap first h ms → sequence_number m = first + vlen ms → first + vlen ms + 1 < 2 ^ 64 →
  ∃ h', append h m = Ret h' ∧ hist_rep cap first h' (ms ++ [m]).
Proof.
  intros [Hc Hf Hr He Hcons Hn Ho Hs] Hm Hfit. pose proof (vlen_nonneg ms).
  pose proof (Z.mod_pos_bound (first + vlen ms) cap ltac:(lia)).
  unfold append. rewrite Hm, Hr, umod_ok by lia. simpl. rewrite assign_ok by lia. simpl.
  rewrite vlen_vset, Hr.
  assert ((if empty_ h then first + vlen ms else oldest_sequence_ h) = first + Z.max 0 (vlen ms - cap)) as ->.
  { rewrite He. case_bool_decide as Hms; [subst; unfold vlen; simpl; lia|]. by apply Ho. }
  rewrite (u64_small (first + vlen ms - _)) by lia. rewrite u64_small by lia.
  eexists. split; [done|]. split; simpl; rewrite ?vlen_snoc, ?vlen_vset; try done.
  - lia.
  - by destruct ms.
  - intros i m' Hi. destruct (decide (i = vlen ms)) as [->|].
    + rewrite vget_snoc_eq in Hi. by injection Hi as <-.
    + pose proof (vget_Some_range _ _ _ Hi) as Hrg. rewrite vlen_snoc in Hrg.
      rewrite vget_snoc_ne in Hi by lia. by apply Hcons.
  - lia.
  - intros _. destruct (Z.ltb_spec cap (first + vlen ms - (first + Z.max 0 (vlen ms - cap)) + 1)); [|lia].
    rewrite (u64_small (first + vlen ms - cap)) by lia. rewrite u64_small; lia.
  - intros i m' Hi Hwin. pose proof (vget_Some_range _ _ _ Hi) as Hrg. rewrite vlen_snoc in Hrg.
    destruct (decide (i = vlen ms)) as [->|].
    + rewrite vget_snoc_eq in Hi. injection Hi as <-. apply vget_vset_eq. lia.
    + rewrite vget_snoc_ne in Hi by lia.
      rewrite vget_vset_ne by (apply not_eq_sym, mod_window; lia). apply Hs; [done|lia].
Qed.

Lemma append_all_rep cap first ms : ∀ h ms0,
  hist_rep cap first h ms0 → consecutive first (ms0 ++ ms) → first + vlen (ms0 ++ ms) < 2 ^ 64 →
  ∃ h', append_all h ms = Ret h' ∧ hist_rep cap first h' (ms0 ++ ms).
Proof.
  induction ms as [|m ms IH]; intros h ms0 HR Hcons Hfit; simpl.
  { rewrite app_nil_r in *. by exists h. }
  rewrite vlen_app, vlen_cons in Hfit. pose proof (vlen_nonneg ms).
  destruct (hist_rep_append cap first h ms0 m HR) as (h1 & -> & HR1).
  - apply Hcons. unfold vlen. rewrite vget_nat. by apply list_lookup_middle.
  - lia.
  - simpl. rewrite cons_middle, app_assoc in Hcons |- *. apply IH; [done|done|].
    rewrite vlen_app, vlen_snoc. lia.
Qed.

(** ** What [fetch] copies *)

Lemma consecutive_nil first : consecutive first [].
Proof. intros i m. by rewrite vget_nil. Qed.

Lemma consecutive_cons first m ms :
  consecutive first (m :: ms) ↔ sequence_number m = first ∧ consecutive (first + 1) ms.
Proof.
  split.
  - intros H. split; [by rewrite (H 0 m eq_refl), Z.add_0_r|]. intros i m' Hi.
    pose proof (vget_Some_range _ _ _ Hi). rewrite (H (i + 1) m'); [lia|].
    by rewrite vget_cons_succ by lia.
  - intros [Hm H] i m' Hi. pose proof (vget_Some_range _ _ _ Hi).
    destruct (decide (i = 0)) as [->|]; [injection Hi as <-; lia|].
    replace i with (i - 1 + 1) in Hi by lia. rewrite vget_cons_succ in Hi by lia.
    rewrite (H _ _ Hi). lia.
Qed.

Lemma consecutive_elem first ms m :
  consecutive first ms → m ∈ ms → first ≤ sequence_number m < first + vlen ms.
Proof.
  intros H [i Hi]%list_elem_of_lookup. pose proof (lookup_lt_Some _ _ _ Hi).
  rewrite (H (Z.of_nat i) m) by (by rewrite vget_nat). unfold vlen. lia.
Qed.

Lemma consecutive_drop first ms n :
  consecutive first ms → (n ≤ length ms)%nat → consecutive (first + Z.of_nat n) (drop n ms).
Proof.
  intros H Hn i m Hi. pose proof (vget_Some_range _ _ _ Hi).
  replace i with (Z.of_nat (Z.to_nat i)) in Hi by lia. rewrite vget_nat, lookup_drop in Hi.
  rewrite (H (Z.of_nat (n + Z.to_nat i)) m) by (by rewrite vget_nat). lia.
Qed.

(** Moving the lower end of the range by one loses at most one message. *)
Lemma filter_range_step first ms s to :
  consecutive first ms → s ≤ to →
  filter (in_range s to) ms = option_list (ms⟦s - first⟧) ++ filter (in_range (s + 1) to) ms.
Proof.
  revert first. induction ms as [|m ms IH]; intros first Hc Hs; [by rewrite vget_nil|].
  pose proof Hc as [Hm Hc']%consecutive_cons.
  assert (s < first + 1 → filter (in_range s to) ms = filter (in_range (s + 1) to) ms) as Hsame.
  { intros Hlt. apply filter_ext_elem. intros x Hx. unfold in_range.
    pose proof (consecutive_elem _ _ _ Hc' Hx). lia. }
  destruct (Z.lt_trichotomy s first) as [Hlt|[->|Hgt]].
  - rewrite vget_out by lia. simpl. rewrite !filter_cons, Hsame by lia.
    destruct (decide (in_range s to m)) as [Hi|Hi], (decide (in_range (s + 1) to m)) as [Hj|Hj];
      unfold in_range in *; try done; lia.
  - rewrite Z.sub_diag. simpl. rewrite filter_cons_True by (unfold in_range; lia).
    rewrite filter_cons_False by (unfold in_range; lia). f_equal. apply Hsame. lia.
  - rewrite !filter_cons_False by (unfold in_range; lia). rewrite (IH (first + 1)) by done.
    f_equal. replace (s - first) with (s - (first + 1) + 1) by lia.
    by rewrite vget_cons_succ by lia.
Qed.

Lemma filter_range_empty ms s to : to < s → filter (in_range s to) ms = [].
Proof.
  intros Hlt. induction ms as [|m ms IH]; [done|].
  by rewrite filter_cons_False by (unfold in_range; lia).
Qed.

Section fetch.
Context {cap first : Z} {h : t} {ms : list MarketMessage} (HR : hist_rep cap first h ms) (Hne : ms ≠ []).

Lemma lastn_skipped : vlen (lastn cap ms) = vlen ms - Z.max 0 (vlen ms - cap).
Proof using HR.
  pose proof (hr_cap _ _ _ _ HR). unfold lastn, vlen. rewrite length_drop. lia.
Qed.

Lemma lastn_consecutive : consecutive (first + Z.max 0 (vlen ms - cap)) (lastn cap ms).
Proof using HR.
  pose proof (hr_cap _ _ _ _ HR). unfold lastn.
  replace (Z.max 0 (vlen ms - cap)) with (Z.of_nat (Z.to_nat (vlen ms - cap))) by lia.
  apply consecutive_drop; [apply HR|unfold vlen; lia].
Qed.

(** The loop's body at one sequence number. *)
Lemma retained_at s :
  let lo := first + Z.max 0 (vlen ms - cap) in
  if (s <? oldest_sequence_ h) || (newest_sequence_ h <? s)
  then (lastn cap ms)⟦s - lo⟧ = None
  else ∃ m, (lastn cap ms)⟦s - lo⟧ = Some m ∧ (ring_ h)⟦s mod cap⟧ = Some m.
Proof using HR Hne.
  rewrite (hr_oldest _ _ _ _ HR Hne), (hr_newest _ _ _ _ HR Hne).
  destruct (orb _ _) eqn:E.
  - apply vget_out. rewrite lastn_skipped. apply orb_true_iff in E as [?%Z.ltb_lt|?%Z.ltb_lt]; lia.
  - apply orb_false_iff in E as [Hlo%Z.ltb_ge Hhi%Z.ltb_ge].
    destruct (vget_is_Some ms (s - first)) as [m Hm]; [lia|]. exists m. split.
    + unfold lastn. rewrite <- Hm. unfold vget.
      destruct (Z.leb_spec 0 (s - (first + Z.max 0 (vlen ms - cap)))), (Z.leb_spec 0 (s - first));
        try lia. rewrite lookup_drop. f_equal. lia.
    + replace s with (first + (s - first)) by lia. apply (hr_slots _ _ _ _ HR); [done|lia].
Qed.

Lemma fetch_loop_spec to max fuel : ∀ s out,
  0 ≤ s ≤ to + 1 → to < 2 ^ 64 - 1 → vlen out ≤ max → to + 1 - s < Z.of_nat fuel →
  fetch_loop fuel h to max s out =
    Ret (out ++ take (Z.to_nat (max - vlen out)) (filter (in_range s to) (lastn cap ms))).
Proof using HR Hne.
  induction fuel as [|fuel IH]; intros s out Hs Hto Hmax Hfuel; [lia|]. simpl.
  destruct (Z.leb_spec s to) as [Hle|Hgt]; simpl.
  2: { rewrite filter_range_empty by lia. by rewrite take_nil, app_nil_r. }
  destruct (Z.ltb_spec (vlen out) max) as [Hroom|].
  2: { replace (max - vlen out) with 0 by lia. by rewrite app_nil_r. }
  pose proof (hr_cap _ _ _ _ HR). pose proof (retained_at s) as Hat. simpl in Hat.
  rewrite (filter_range_step _ _ s to lastn_consecutive) by lia.
  destruct (orb _ _).
  - rewrite Hat, u64_small, IH by lia. done.
  - destruct Hat as (m & -> & Hm). rewrite (hr_ring _ _ _ _ HR), umod_ok by lia. simpl.
    rewrite (load_Some _ _ _ Hm). simpl. rewrite u64_small by lia.
    rewrite IH by (vlen_lia). rewrite vlen_snoc, <- app_assoc.
    replace (Z.to_nat (max - vlen out)) with (S (Z.to_nat (max - (vlen out + 1)))) by lia. done.
Qed.
End fetch.

Lemma fetch_spec cap first h ms fuel from to max :
  hist_rep cap first h ms → 0 ≤ from ≤ to → to < 2 ^ 64 - 1 → 0 ≤ max →
  to + 1 - from < Z.of_nat fuel →
  fetch fuel h from to max =
    Ret (take (Z.to_nat max) (filter (in_range from to) (lastn cap ms))).
Proof.
  intros HR Hft Hto Hmax Hfuel. unfold fetch. rewrite (hr_empty _ _ _ _ HR).
  case_bool_decide as Hms; [subst; unfold lastn; by rewrite drop_nil, filter_nil, take_nil|].
  rewrite (fetch_loop_spec HR Hms) by (unfold vlen; simpl; lia). simpl.
  by rewrite Z.sub_0_r.
Qed.

(** ** Properties *)

Definition numbered (n : Z) : MarketMessage := mkMessage n 0 n 100 1 0 Add Buy 0.
Definition demo_history : list MarketMessage := numbered <$> [1; 2; 3].

(** C31. After publishing consecutively numbered messages into a history of any
    positive capacity, [fetch] returns, in order, exactly the messages of
    [[from, to]] among the last [capacity] published, the first [max] of them;
    for every [to] below 2^64 - 1, with fuel for one iteration per number. *)
Theorem history_fetch_exact cap first ms from to max fuel :
  0 < cap < 2 ^ 64 → 0 ≤ first → first + vlen ms < 2 ^ 64 → consecutive first ms →
  0 ≤ from ≤ to → to < 2 ^ 64 - 1 → 0 ≤ max → to + 1 - from < Z.of_nat fuel →
  ∃ h, append_all (make cap) ms = Ret h ∧
    fetch fuel h from to max =
      Ret (take (Z.to_nat max) (filter (in_range from to) (lastn cap ms))).
Proof.
  intros Hc Hf Hfit Hcons Hft Hto Hmax Hfuel. pose proof (vlen_nonneg ms).
  destruct (append_all_rep cap first ms (make cap) []) as (h & Hh & HR);
    [apply hist_rep_make; lia|done|done|].
  exists h. split; [done|]. by eapply fetch_spec.
Qed.

Lemma history_fetch_exact_witness :
  ∃ h, append_all (make 2) demo_history = Ret h ∧ fetch 9 h 1 5 7 = Ret (numbered <$> [2; 3]).
Proof.
  apply (history_fetch_exact 2 1 demo_history 1 5 7 9); try (vm_compute; split; congruence);
    try (vm_compute; congruence).
  intros i m Hi. pose proof (vget_Some_range _ _ _ Hi) as Hr.
  assert (i = 0 ∨ i = 1 ∨ i = 2) as Hc
    by (change (vlen demo_history) with 3 in Hr; lia).
  destruct Hc as [Hc|[Hc|Hc]]; subst i; vm_compute in Hi; injection Hi as Hi; subst m; reflexivity.
Defined.

(** *** At [to = 2^64 - 1]

    The loop variable wraps to 0, and [sequence <= to] holds for every number. *)

Section wraps.
Context {cap first : Z} {h : t} {ms : list MarketMessage} (HR : hist_rep cap first h ms) (Hne : ms ≠ []).
#[local] Abbreviation last_number := (2 ^ 64 - 1).
#[local] Abbreviation retained := (lastn cap ms).

Lemma fetch_loop_unfold fuel to max s out :
  fetch_loop (S fuel) h to max s out =
    if (s <=? to) && (vlen out <? max) then
      if (s <? oldest_sequence_ h) || (newest_sequence_ h <? s)
      then fetch_loop fuel h to max (u64 (s + 1)) out
      else i ← umod s (vlen (ring_ h)); m ← load (ring_ h) i; fetch_loop fuel h to max (u64 (s + 1)) (out ++ [m])
    else Ret out.
Proof using Type. done. Qed.

(** From [s] on to the wrap-around. *)
Lemma fetch_pass max fuel n : ∀ s out,
  0 ≤ s → Z.of_nat n = 2 ^ 64 - s → vlen out ≤ max →
  fetch_loop (n + S fuel) h last_number max (u64 s) out =
    fetch_loop (S fuel) h last_number max 0
      (out ++ take (Z.to_nat (max - vlen out)) (filter (in_range s last_number) retained)).
Proof using HR Hne.
  induction n as [|n IH]; intros s out Hs Hn Hmax.
  { assert (s = 2 ^ 64) as -> by lia. by rewrite filter_range_empty, take_nil, app_nil_r by lia. }
  rewrite u64_small by lia. rewrite Nat.add_succ_l, (fetch_loop_unfold (n + S fuel)).
  destruct (Z.leb_spec s last_number); [|lia]. destruct (Z.ltb_spec (vlen out) max) as [Hroom|].
  2: { replace (max - vlen out) with 0 by lia. cbn [take Z.to_nat]. rewrite app_nil_r, fetch_loop_unfold.
       destruct (Z.ltb_spec (vlen out) max); [lia|]. by rewrite andb_false_r. }
  cbn [andb]. pose proof (hr_cap _ _ _ _ HR). pose proof (retained_at HR Hne s) as Hat. cbv zeta in Hat.
  rewrite (filter_range_step _ _ s last_number (lastn_consecutive HR)) by lia.
  destruct (orb _ _).
  - rewrite Hat. by apply IH; [lia|lia|].
  - destruct Hat as (m & -> & Hm). rewrite (hr_ring _ _ _ _ HR), umod_ok by lia. returns.
    rewrite (load_Some _ _ _ Hm). returns. rewrite IH by (vlen_lia). rewrite vlen_snoc, <- app_assoc.
    by replace (Z.to_nat (max - vlen out)) with (S (Z.to_nat (max - (vlen out + 1)))) by lia.
Qed.

Lemma retained_all : filter (in_range 0 last_number) retained = retained.
Proof using HR.
  pose proof (hr_first _ _ _ _ HR). apply filter_keep. intros m Hm.
  pose proof (consecutive_elem _ _ _ (lastn_consecutive HR) Hm). pose proof (lastn_skipped HR). unfold in_range. lia.
Qed.

Lemma retained_some : 1 ≤ vlen retained.
Proof using HR Hne.
  pose proof (hr_cap _ _ _ _ HR). rewrite (lastn_skipped HR). destruct ms as [|m l]; [done|].
  rewrite vlen_cons. pose proof (vlen_nonneg l). lia.
Qed.

(** [k] turns through all the numbers. *)
Lemma fetch_turns max turn k : ∀ out,
  Z.of_nat turn = 2 ^ 64 → vlen out ≤ max → max - vlen out ≤ Z.of_nat k →
  fetch_loop (k * turn + 1) h last_number max 0 out =
    Ret (out ++ take (Z.to_nat (max - vlen out)) (concat (replicate k retained))).
Proof using HR Hne.
  induction k as [|k IH]; intros out Ht Hmax Hk.
  - cbn [fetch_loop Nat.mul Nat.add]. destruct (Z.ltb_spec (vlen out) max); [lia|]. rewrite andb_false_r.
    cbn [replicate concat]. by rewrite take_nil, app_nil_r.
  - replace (S k * turn + 1)%nat with (turn + S (k * turn))%nat by lia.
    change (fetch_loop (turn + S (k * turn)) h last_number max 0 out) with
      (fetch_loop (turn + S (k * turn)) h last_number max (u64 0) out).
    rewrite fetch_pass by lia. rewrite retained_all, <- Nat.add_1_r. pose proof retained_some.
    set (part := take _ retained). assert (vlen part = Z.min (max - vlen out) (vlen retained)) as Hpart.
    { unfold part, vlen in *. rewrite length_take. lia. }
    rewrite IH by (rewrite ?vlen_app; lia). rewrite <- app_assoc. cbn [replicate concat]. rewrite take_app. do 2 f_equal.
    rewrite vlen_app, Hpart. by assert (Z.to_nat (max - (vlen out + (max - vlen out) `min` vlen retained)) =
      (Z.to_nat (max - vlen out) - length retained)%nat) as -> by (unfold vlen in *; lia).
Qed.

Lemma repeated_length k : Z.of_nat k ≤ vlen (concat (replicate k retained)).
Proof using HR Hne.
  pose proof retained_some. induction k as [|k IH]; cbn [replicate concat]; [unfold vlen; simpl; lia|]. rewrite vlen_app. lia.
Qed.
End wraps.

(** C37. A request that ends at [2^64 - 1], the last number there is, is never finished by
    its range: for every lower end and every non-empty history, [fetch] goes on
    through all the numbers again and again, and returns only when it has copied [max]
    messages, first those of the range, then all the retained ones, in order, as many
    times as it takes. So it always returns [max] messages, however few are in the range; when
    nothing retained is in the range, all of them are outside it. *)
Theorem history_fetch_wraps cap first ms from max :
  0 < cap < 2 ^ 64 → 0 ≤ first → first + vlen ms < 2 ^ 64 → consecutive first ms → ms ≠ [] →
  0 ≤ from < 2 ^ 64 → 0 ≤ max →
  ∃ h fuel out, append_all (make cap) ms = Ret h ∧ fetch fuel h from (2 ^ 64 - 1) max = Ret out ∧ vlen out = max ∧
    out = take (Z.to_nat max) (filter (in_range from (2 ^ 64 - 1)) (lastn cap ms) ++
                               concat (replicate (Z.to_nat max) (lastn cap ms))) ∧
    (first + vlen ms ≤ from → Forall (λ m, ¬ in_range from (2 ^ 64 - 1) m) out).
Proof.
  intros Hc Hf Hfit Hcons Hne Hfrom Hmax. pose proof (vlen_nonneg ms).
  destruct (append_all_rep cap first ms (make cap) []) as (h & Hh & HR); [apply hist_rep_make; lia|done|done|].
  cbn [app] in HR. set (k := Z.to_nat max). destruct (Z_of_nat_complete (2 ^ 64)) as [turn Ht]; [lia|].
  destruct (Z_of_nat_complete (2 ^ 64 - from)) as [n Hn]; [lia|].
  exists h, (n + S (k * turn))%nat. eexists. split; [exact Hh|]. split; [|split; [|split; [reflexivity|]]].
  - unfold fetch. rewrite (hr_empty _ _ _ _ HR), bool_decide_false by done.
    rewrite <- (u64_small from) at 1 by lia. rewrite (fetch_pass HR Hne) by (unfold vlen; simpl; lia).
    rewrite <- Nat.add_1_r, (fetch_turns HR Hne max turn k); [|lia| |].
    + cbn [app]. rewrite take_app. change (vlen (A := MarketMessage) []) with 0. rewrite Z.sub_0_r. fold k.
      set (inside := filter _ _). assert (Z.to_nat (max - vlen (take k inside)) = (k - length inside)%nat) as ->; [|done].
      unfold vlen. rewrite length_take. lia.
    + cbn [app]. change (vlen (A := MarketMessage) []) with 0. unfold vlen. rewrite length_take. lia.
    + unfold k, vlen. lia.
  - pose proof (repeated_length HR Hne k). unfold vlen, k in *. rewrite length_take, length_app. lia.
  - intros Hbeyond. apply Forall_take, Forall_app. split; [|apply Forall_concat, Forall_replicate]; apply Forall_forall.
    + intros m [Hin Hm]%list_elem_of_filter.
      pose proof (consecutive_elem _ _ _ (lastn_consecutive HR) Hm). pose proof (lastn_skipped HR). unfold in_range in *. lia.
    + intros m Hm. pose proof (consecutive_elem _ _ _ (lastn_consecutive HR) Hm). pose proof (lastn_skipped HR). unfold in_range. lia.
Qed.

(** A request for the number [2^64 - 1] alone, with room for four messages. *)
Lemma history_fetch_wraps_witness :
  ∃ h fuel, append_all (make 2) demo_history = Ret h ∧
    fetch fuel h (2 ^ 64 - 1) (2 ^ 64 - 1) 4 = Ret (numbered <$> [2; 3; 2; 3]).
Proof.
  destruct (history_fetch_wraps 2 1 demo_history (2 ^ 64 - 1) 4) as (h & fuel & out & H1 & H2 & _ & H3 & _).
  - lia.
  - lia.
  - vm_compute. reflexivity.
  - repeat (apply consecutive_cons; split; [reflexivity|]). apply consecutive_nil.
  - discriminate.
  - lia.
  - lia.
  - exists h, fuel. split; [exact H1|]. rewrite H2, H3. vm_compute. reflexivity.
Defined.
