(* ===== verification/SocketIo.v ===== *)
(** * Whole frames over a byte stream

    [read_exact] and [write_exact] of [include/llte/socket_io.hpp]. The kernel's
    [recv] and [send] are parameters; what the code relies on is stated by
    [StreamLaws]: a call moves at least one byte and at most what was asked for,
    in order, or reports why it did not, and signals do not interrupt for ever. *)

From S2P Require Import Prelude.

#[local] Open Scope Z_scope.

(** The results of a call, with the cases the code distinguishes. *)
Inductive io_result (A : Type) :=
  | Moved (a : A)      (* > 0 *)
  | Closed             (* == 0 *)
  | Interrupted        (* < 0, errno == EINTR *)
  | Failed.            (* < 0, any other errno *)
Arguments Moved {A} a.
Arguments Closed {A}.
Arguments Interrupted {A}.
Arguments Failed {A}.

(** [recv fd n] brings the bytes it copied, [send fd bytes] how many it took. *)
Class Stream (S : Type) := {
  recv : S → Z → S * io_result (list Z);
  send : S → list Z → S * io_result Z
}.

Section exact.
Context {S : Type} `{Stream S}.

Fixpoint read_exact (fuel : nat) (s : S) (remaining : Z) : outcome (S * option (list Z)) :=
  match fuel with
  | O => Fault OutOfFuel
  | Datatypes.S fuel =>
      if 0 <? remaining then
        let '(s, moved) := recv s remaining in
        match moved with
        | Closed => Ret (s, None)
        | Interrupted => read_exact fuel s remaining
        | Failed => Ret (s, None)
        | Moved bytes =>
            '(s, rest) ← read_exact fuel s (u64 (remaining - vlen bytes));
            Ret (s, option_map (app bytes) rest)
        end
      else Ret (s, Some [])
  end.

Fixpoint write_exact (fuel : nat) (s : S) (cursor : list Z) : outcome (S * bool) :=
  match fuel with
  | O => Fault OutOfFuel
  | Datatypes.S fuel =>
      if 0 <? vlen cursor then
        let '(s, moved) := send s cursor in
        match moved with
        | Interrupted => write_exact fuel s cursor
        | Closed | Failed => Ret (s, false)
        | Moved n => write_exact fuel s (drop (Z.to_nat n) cursor)
        end
      else Ret (s, true)
  end.
End exact.

(** ** What the kernel promises *)

(** [pending]: bytes on their way to the reader; [sent]: bytes taken from the
    writer; [signals]: interruptions still to come. *)
Class StreamLaws (S : Type) `{Stream S} (pending sent : S → list Z) (signals : S → nat) : Prop := {
  recv_law s n : 0 < n →
    match recv s n with
    | (s', Moved bytes) => pending s = bytes ++ pending s' ∧ 0 < vlen bytes ≤ n ∧
        (signals s' ≤ signals s)%nat
    | (s', Interrupted) => pending s' = pending s ∧ (signals s' < signals s)%nat
    | (s', _) => True
    end;
  send_law s bytes : 0 < vlen bytes →
    match send s bytes with
    | (s', Moved n) => sent s' = sent s ++ take (Z.to_nat n) bytes ∧ 0 < n ≤ vlen bytes ∧
        (signals s' ≤ signals s)%nat
    | (s', Interrupted) => sent s' = sent s ∧ (signals s' < signals s)%nat
    | (s', _) => ∃ k, sent s' = sent s ++ take k bytes
    end
}.

Section frames.
Context {S : Type} `{Hlaws : StreamLaws S pending sent signals}.

Lemma read_exact_spec fuel : ∀ s n,
  0 ≤ n < 2 ^ 64 → n + Z.of_nat (signals s) < Z.of_nat fuel →
  ∃ s' r, read_exact fuel s n = Ret (s', r) ∧
    ∀ bytes, r = Some bytes → pending s = bytes ++ pending s' ∧ vlen bytes = n.
Proof using Hlaws.
  induction fuel as [|fuel IH]; intros s n Hn Hf; [lia|]. cbn [read_exact].
  destruct (Z.ltb_spec 0 n) as [Hpos|Hz].
  2: { exists s, (Some []). split; [done|]. intros bytes [= <-]. split; [done|]. unfold vlen. simpl. lia. }
  pose proof (recv_law s n Hpos) as Hr. destruct (recv s n) as [s1 [bytes| | |]]; [|eauto..|].
  - destruct Hr as (Hp & Hl & Hs). rewrite u64_small by lia.
    destruct (IH s1 (n - vlen bytes)) as (s2 & r & -> & Hres); [lia|lia|]. returns.
    exists s2, (option_map (app bytes) r). split; [done|]. intros out Hout.
    destruct r as [rest|]; [|done]. injection Hout as <-. destruct (Hres rest eq_refl) as [Hp2 Hl2].
    split; [by rewrite Hp, Hp2, app_assoc|]. rewrite vlen_app. lia.
  - exists s1, None. split; [done|]. congruence.
  - destruct Hr as [Hp Hs]. destruct (IH s1 n) as (s2 & r & -> & Hres); [lia|lia|].
    exists s2, r. split; [done|]. by rewrite <- Hp.
  - exists s1, None. split; [done|]. congruence.
Qed.

Lemma write_exact_spec fuel : ∀ s bytes,
  vlen bytes + Z.of_nat (signals s) < Z.of_nat fuel →
  ∃ s' ok, write_exact fuel s bytes = Ret (s', ok) ∧
    (∃ k, sent s' = sent s ++ take k bytes) ∧ (ok = true → sent s' = sent s ++ bytes).
Proof using Hlaws.
  induction fuel as [|fuel IH]; intros s bytes Hf; [pose proof (vlen_nonneg bytes); lia|].
  cbn [write_exact]. destruct (Z.ltb_spec 0 (vlen bytes)) as [Hpos|Hz].
  2: { assert (bytes = []) as -> by (destruct bytes; [done|rewrite vlen_cons in Hz; pose proof (vlen_nonneg bytes); lia]).
       exists s, true. split; [done|]. rewrite app_nil_r. split; [by exists 0%nat; rewrite app_nil_r|done]. }
  pose proof (send_law s bytes Hpos) as Hr. destruct (send s bytes) as [s1 [n| | |]].
  - destruct Hr as (Hp & Hl & Hs).
    destruct (IH s1 (drop (Z.to_nat n) bytes)) as (s2 & ok & -> & (k & Hk) & Hok).
    { unfold vlen in *. rewrite length_drop. lia. }
    exists s2, ok. split; [done|]. split.
    + exists (Z.to_nat n + k)%nat. rewrite Hk, Hp, <- app_assoc. f_equal. apply take_take_drop.
    + intros E. rewrite (Hok E), Hp, <- app_assoc. by rewrite take_drop.
  - exists s1, false. split; [done|]. split; [done|congruence].
  - destruct Hr as [Hp Hs]. destruct (IH s1 bytes) as (s2 & ok & -> & Hk & Hok); [lia|].
    exists s2, ok. split; [done|]. by rewrite Hp in *.
  - exists s1, false. split; [done|]. split; [done|congruence].
Qed.
End frames.

(** ** Properties *)

(** A kernel for the examples: a script of chunk sizes ([0] an interruption). *)
Record scripted := mkScripted { sc_in : list Z; sc_out : list Z; sc_plan : list Z }.

#[export] Instance scripted_stream : Stream scripted := {
  recv s n :=
    match sc_plan s with
    | [] => (s, Failed)
    | 0 :: plan => (mkScripted (sc_in s) (sc_out s) plan, Interrupted)
    | c :: plan =>
        let k := Z.to_nat (Z.max 1 (Z.min c n)) in
        match take k (sc_in s) with
        | [] => (s, Closed)
        | bytes => (mkScripted (drop k (sc_in s)) (sc_out s) plan, Moved bytes)
        end
    end;
  send s bytes :=
    match sc_plan s with
    | [] => (s, Failed)
    | 0 :: plan => (mkScripted (sc_in s) (sc_out s) plan, Interrupted)
    | c :: plan =>
        let k := Z.max 1 (Z.min c (vlen bytes)) in
        (mkScripted (sc_in s) (sc_out s ++ take (Z.to_nat k) bytes) plan, Moved k)
    end
}.

#[export] Instance scripted_laws : StreamLaws scripted sc_in sc_out (λ s, length (sc_plan s)).
Proof.
  split.
  - intros [i o plan] n Hn. simpl. destruct plan as [|c plan]; [done|]. simpl.
    assert (∀ k, (0 < k)%nat → Z.of_nat k ≤ n →
      match (match take k i with
             | [] => (mkScripted i o (c :: plan), Closed)
             | bytes => (mkScripted (drop k i) o plan, Moved bytes) end) with
      | (s', Moved bytes) => i = bytes ++ sc_in s' ∧ 0 < vlen bytes ≤ n ∧
          (length (sc_plan s') ≤ S (length plan))%nat
      | (s', Interrupted) => sc_in s' = i ∧ (length (sc_plan s') < S (length plan))%nat
      | (s', _) => True
      end) as Hk.
    { intros k Hk0 Hkn. destruct (take k i) as [|b bytes] eqn:E; [done|]. simpl.
      split; [change (i = (b :: bytes) ++ drop k i); by rewrite <- E, take_drop|]. split; [|lia].
      assert (length (take k i) ≤ k)%nat by (rewrite length_take; lia).
      rewrite E in *. unfold vlen. simpl in *. lia. }
    destruct c; simpl; [split; [done|lia]|apply Hk; lia..].
  - intros [i o plan] bytes Hn. simpl. destruct plan as [|c plan]; simpl.
    { exists 0%nat. by rewrite app_nil_r. }
    destruct c; simpl; [split; [done|lia]|..]; (split; [done|]; split; lia).
Qed.

(** Frames cross a byte stream whole. Through any splits and interruptions,
    [read_exact] returns, and when it succeeds it has taken exactly the requested
    number of bytes off the stream, in order and nothing more; [write_exact] returns,
    puts out a prefix of the frame and, when it reports success, the whole frame, once
    and in order. *)
Lemma exact_frames {S} `{StreamLaws S pending sent signals} s n bytes fuel :
  0 ≤ n < 2 ^ 64 → n + Z.of_nat (signals s) < Z.of_nat fuel →
  vlen bytes + Z.of_nat (signals s) < Z.of_nat fuel →
  (∃ s' r, read_exact fuel s n = Ret (s', r) ∧
     ∀ got, r = Some got → pending s = got ++ pending s' ∧ vlen got = n) ∧
  (∃ s' ok, write_exact fuel s bytes = Ret (s', ok) ∧
     (∃ k, sent s' = sent s ++ take k bytes) ∧ (ok = true → sent s' = sent s ++ bytes)).
Proof. intros Hn Hr Hw. split; [by apply read_exact_spec|by apply write_exact_spec]. Qed.

Lemma exact_frames_witness :
  (∃ s' got, read_exact 20 (mkScripted [1; 2; 3; 4; 5] [] [2; 0; 1; 9]) 4 = Ret (s', Some got) ∧
    [1; 2; 3; 4; 5] = got ++ sc_in s' ∧ vlen got = 4) ∧
  (∃ s', write_exact 20 (mkScripted [1; 2; 3; 4; 5] [] [2; 0; 1; 9]) [6; 7; 8; 9] = Ret (s', true) ∧
    sc_out s' = [6; 7; 8; 9]).
Proof.
  destruct (exact_frames (mkScripted [1; 2; 3; 4; 5] [] [2; 0; 1; 9]) 4 [6; 7; 8; 9] 20)
    as [(s1 & r & Hr & Hb) (s2 & ok & Hw & _ & Hs)]; [lia|simpl; lia|vm_compute; reflexivity|].
  destruct r as [got|]; [|vm_compute in Hr; congruence]. destruct ok; [|vm_compute in Hw; congruence].
  split; [exists s1, got; split; [exact Hr|exact (Hb got eq_refl)]|].
  exists s2. split; [exact Hw|exact (Hs eq_refl)].
Defined.
