(* ===== verification/Recovery.v ===== *)
(** * The retransmission protocol

    [RecoveryServer::serve_connection] ([exchange/recovery_server.cpp]) and
    [RecoveryClient::request] ([market_data/recovery_client.cpp]) over any
    connection that moves whole frames ([SocketIo] is how the sources do that),
    and the two of them joined back to back. Error texts are left out. *)

From S2P Require Import Prelude Message Wire History.

#[local] Open Scope Z_scope.

(** [read_exact] and [write_exact] on a connected descriptor. *)
Class Conn (S : Type) := {
  conn_read : S → Z → S * option (list Z);
  conn_write : S → list Z → S * bool
}.

(** What the two trivially copied structures leave in their padding. *)
Definition padding : list Z := [0; 0; 0; 0].

(** ** The server *)

Module RecoveryServer.

Record t := mkServer {
  history_ : HistoryStore.t;
  served_requests_ : Z;
  served_messages_ : Z
}.

(** The messages for one request; [None] ends the connection. The loop of
    [fetch] runs once per number of the range. *)
Definition answer (h : HistoryStore.t) (request : RecoveryRequest)
    : outcome (option (list MarketMessage)) :=
  let from := from_sequence request in
  let to := to_sequence request in
  if negb (rq_magic request =? kRecoveryMagic) || (to <? from) then Ret None
  else
    let span := u64 (u64 (to - from) + 1) in
    let capped := u32 (if kMaxRecoveryBatch <? span then kMaxRecoveryBatch else span) in
    ms ← HistoryStore.fetch (S (S (Z.to_nat (to - from + 1)))) h from to capped;
    Ret (Some ms).

(** The loop over requests: [running] is what [running_.load] returns. *)
Fixpoint serve_connection {S} `{Conn S} (running : list bool) (client : S) (r : t)
    : outcome (S * t) :=
  match running with
  | true :: running =>
      let '(client, frame) := conn_read client request_bytes in
      match frame with
      | None => Ret (client, r)
      | Some bytes =>
          found ← answer (history_ r) (decode_request bytes);
          match found with
          | None => Ret (client, r)
          | Some ms =>
              let header := mkResponse kRecoveryMagic (u32 (vlen ms)) in
              let '(client, ok) := conn_write client (encode_response header) in
              if negb ok then Ret (client, r)
              else
                let '(client, ok) :=
                  if 0 <? vlen ms then conn_write client (encode_messages padding ms)
                  else (client, true) in
                if negb ok then Ret (client, r)
                else serve_connection running client
                  (mkServer (history_ r) (u64 (served_requests_ r + 1))
                     (u64 (served_messages_ r + vlen ms)))
          end
      end
  | _ => Ret (client, r)
  end.

End RecoveryServer.

(** ** The client *)

Module RecoveryClient.

(** [fd_], when it is not -1. *)
Record t (S : Type) := mkClient { fd_ : option S }.
Arguments mkClient {S} fd_.
Arguments fd_ {S} t.

Definition close {S} (c : t S) : t S := mkClient None.

(** [None]: the call returned false. *)
Definition request {S} `{Conn S} (c : t S) (from to : Z) : t S * option (list MarketMessage) :=
  match fd_ c with
  | None => (c, None)
  | Some s =>
      if to <? from then (c, None)
      else
        let '(s, ok) := conn_write s (encode_request (mkRequest kRecoveryMagic 0 from to)) in
        if negb ok then (close c, None)
        else
          let '(s, frame) := conn_read s response_bytes in
          match frame with
          | None => (close c, None)
          | Some bytes =>
              let header := decode_response bytes in
              if negb (rs_magic header =? kRecoveryMagic) || (kMaxRecoveryBatch <? rs_count header)
              then (close c, None)
              else if rs_count header =? 0 then (mkClient (Some s), Some [])
              else
                let '(s, frame) := conn_read s (rs_count header * message_bytes) in
                match frame with
                | None => (close c, None)
                | Some bytes =>
                    (mkClient (Some s), Some (decode_messages (Z.to_nat (rs_count header)) bytes))
                end
          end
  end.

End RecoveryClient.

(** ** Both ends of one connection *)

(** The server's answers wait in [inbox]; a write that ends a request makes the
    server answer it. *)
Record loop := mkLoop { server : HistoryStore.t; inbox : list Z }.

Definition loop_read (s : loop) (n : Z) : loop * option (list Z) :=
  if n <=? vlen (inbox s)
  then (mkLoop (server s) (drop (Z.to_nat n) (inbox s)), Some (take (Z.to_nat n) (inbox s)))
  else (s, None).

(** The server's side of the exchange of one request. *)
Record serving := mkServing { incoming : list Z; outgoing : list Z }.

#[export] Instance serving_conn : Conn serving := {
  conn_read s n :=
    if n <=? vlen (incoming s)
    then (mkServing (drop (Z.to_nat n) (incoming s)) (outgoing s), Some (take (Z.to_nat n) (incoming s)))
    else (s, None);
  conn_write s bytes := (mkServing (incoming s) (outgoing s ++ bytes), true)
}.

Definition loop_write (s : loop) (bytes : list Z) : loop * bool :=
  match RecoveryServer.serve_connection [true] (mkServing bytes [])
          (RecoveryServer.mkServer (server s) 0 0) with
  | Ret (conn, r) => (mkLoop (server s) (inbox s ++ outgoing conn), true)
  | Fault _ => (s, false)
  end.

#[export] Instance loop_conn : Conn loop := {
  conn_read := loop_read;
  conn_write := loop_write
}.

(** ** What a request obtains *)

Section exchange.
Context {cap first : Z} {h : HistoryStore.t} {ms : list MarketMessage}.
Context (HR : hist_rep cap first h ms) (Hok : Forall message_ok ms).

(** What is retained of a range, and the part of it that one answer carries. *)
Definition reply (from to : Z) : list MarketMessage := filter (in_range from to) (lastn cap ms).
Definition sent (from to : Z) : list MarketMessage := take (Z.to_nat kMaxRecoveryBatch) (reply from to).

Lemma reply_ok from to : Forall message_ok (reply from to).
Proof using Hok.
  apply Forall_forall. intros m Hm. apply list_elem_of_filter in Hm as [_ Hm].
  rewrite Forall_forall in Hok. apply Hok. unfold lastn in Hm. by eapply subseteq_drop.
Qed.

Lemma range_length (k : nat) : ∀ f l a b,
  consecutive f l → b - a + 1 ≤ Z.of_nat k → vlen (filter (in_range a b) l) ≤ Z.of_nat k.
Proof using.
  induction k as [|k IH]; intros f l a b Hc Hk; [rewrite filter_range_empty by lia; done|].
  destruct (Z.le_gt_cases a b) as [Hab|Hab]; [|rewrite filter_range_empty by lia; unfold vlen; simpl; lia].
  rewrite (filter_range_step f) by done. rewrite vlen_app.
  specialize (IH f l (a + 1) b Hc ltac:(lia)).
  assert (vlen (option_list (vget l (a - f))) ≤ 1) by (by destruct (vget l (a - f))). lia.
Qed.

Lemma reply_length from to : from ≤ to → vlen (reply from to) ≤ to - from + 1.
Proof using HR.
  intros. pose proof (range_length (Z.to_nat (to - from + 1)) _ _ from to (lastn_consecutive HR)) as H0.
  rewrite Z2Nat.id in H0 by lia. apply H0. lia.
Qed.

Lemma sent_ok from to : Forall message_ok (sent from to).
Proof using Hok. apply Forall_take, reply_ok. Qed.

(** A range of no more than [kMaxRecoveryBatch] numbers is answered in full. *)
Lemma sent_reply from to : from ≤ to → to - from < kMaxRecoveryBatch → sent from to = reply from to.
Proof using HR.
  intros. apply take_ge. pose proof (reply_length from to ltac:(lia)) as Hl. unfold vlen in Hl. lia.
Qed.

Context (from to : Z) (Hrange : 0 ≤ from ≤ to) (Hto : to < 2 ^ 64 - 1).

Lemma answer_spec :
  RecoveryServer.answer h (mkRequest kRecoveryMagic 0 from to) = Ret (Some (sent from to)).
Proof using HR Hrange Hto.
  unfold RecoveryServer.answer. cbn [rq_magic from_sequence to_sequence]. rewrite Z.eqb_refl.
  destruct (Z.ltb_spec to from); [lia|]. cbn [negb orb]. unfold kMaxRecoveryBatch in *.
  rewrite (u64_small (to - from)), u64_small by lia.
  assert (u32 (if 1024 <? to - from + 1 then 1024 else to - from + 1) = Z.min 1024 (to - from + 1)) as ->.
  { destruct (Z.ltb_spec 1024 (to - from + 1)); rewrite u32_small by lia; lia. }
  rewrite (fetch_spec cap first h ms) by (lia || done). returns. do 2 f_equal. fold (reply from to). unfold sent, kMaxRecoveryBatch.
  pose proof (reply_length from to ltac:(lia)) as Hl. unfold vlen in Hl.
  destruct (Z.le_gt_cases 1024 (to - from + 1)); [by rewrite Z.min_l by lia|]. rewrite !take_ge; [done|lia..].
Qed.

Lemma request_decoded :
  decode_request (encode_request (mkRequest kRecoveryMagic 0 from to)) = mkRequest kRecoveryMagic 0 from to.
Proof using Hrange Hto. apply decode_encode_request; simpl; unfold kRecoveryMagic; lia. Qed.

Lemma sent_small : 0 ≤ vlen (sent from to) ≤ kMaxRecoveryBatch.
Proof using Type. unfold sent, kMaxRecoveryBatch, vlen. rewrite length_take. lia. Qed.

(** The bytes the server puts on the wire. *)
Lemma serve_bytes r :
  RecoveryServer.history_ r = h →
  ∃ r', RecoveryServer.serve_connection [true]
      (mkServing (encode_request (mkRequest kRecoveryMagic 0 from to)) []) r =
    Ret (mkServing [] (encode_response (mkResponse kRecoveryMagic (vlen (sent from to))) ++
           encode_messages padding (sent from to)), r').
Proof using HR Hrange Hto.
  intros Hh. cbn [RecoveryServer.serve_connection conn_read conn_write serving_conn].
  assert (vlen (encode_request (mkRequest kRecoveryMagic 0 from to)) = request_bytes) as Hlen.
  { unfold encode_request, vlen. by rewrite !length_app, !le_length. }
  cbn [incoming]. rewrite Hlen, Z.leb_refl. cbn [outgoing].
  rewrite take_ge, drop_ge by (unfold vlen, request_bytes in *; lia).
  rewrite request_decoded, Hh, answer_spec. cbn [mbind outcome_bind negb incoming outgoing app].
  pose proof sent_small as Hs. unfold kMaxRecoveryBatch in Hs. rewrite u32_small by lia.
  destruct (Z.ltb_spec 0 (vlen (sent from to))) as [Hpos|Hz]; cbn [negb incoming outgoing]; [by eexists|].
  assert (sent from to = []) as E.
  { destruct (sent from to) as [|m l]; [done|]. rewrite vlen_cons in Hz. pose proof (vlen_nonneg l). lia. }
  rewrite E. eexists. by rewrite app_nil_r.
Qed.

Lemma request_capped :
  RecoveryClient.request (RecoveryClient.mkClient (Some (mkLoop h []))) from to =
  (RecoveryClient.mkClient (Some (mkLoop h [])), Some (sent from to)).
Proof using HR Hok Hrange Hto.
  unfold RecoveryClient.request. cbn [RecoveryClient.fd_].
  destruct (Z.ltb_spec to from); [lia|]. cbn [conn_write conn_read loop_conn]. unfold loop_write.
  destruct (serve_bytes (RecoveryServer.mkServer h 0 0) eq_refl) as [r' Hr].
  cbn [server inbox]. rewrite Hr. cbn [negb outgoing app].
  set (hd := encode_response _). set (body := encode_messages padding (sent from to)).
  assert (length hd = 8%nat) as Hhd by (unfold hd, encode_response; by rewrite length_app, !le_length).
  assert (length body = 48 * length (sent from to))%nat as Hbody by (by apply encode_messages_length).
  unfold loop_read at 1. cbn [inbox server].
  destruct (Z.leb_spec response_bytes (vlen (hd ++ body))) as [_|Hl].
  2: { unfold vlen, response_bytes in Hl. rewrite length_app in Hl. lia. }
  change (Z.to_nat response_bytes) with 8%nat. rewrite take_app_le, drop_app_le by lia.
  rewrite take_ge, drop_ge by lia. cbn [app].
  pose proof sent_small as Hs. unfold kMaxRecoveryBatch in Hs.
  unfold hd. rewrite decode_encode_response by (cbn [rs_magic rs_count]; unfold kRecoveryMagic; lia).
  cbn [rs_magic rs_count]. rewrite Z.eqb_refl. unfold kMaxRecoveryBatch.
  destruct (Z.ltb_spec 1024 (vlen (sent from to))); [lia|]. cbn [negb orb].
  destruct (Z.eqb_spec (vlen (sent from to)) 0) as [Hz|Hnz].
  - assert (sent from to = []) as E by (apply length_zero_iff_nil; unfold vlen in Hz; lia).
    unfold body. by rewrite E.
  - unfold loop_read. cbn [inbox server].
    assert (vlen body = vlen (sent from to) * message_bytes) as Hvb.
    { unfold vlen, message_bytes. lia. }
    rewrite Hvb, Z.leb_refl. rewrite <- Hvb.
    assert (Z.to_nat (vlen body) = length body) as -> by (unfold vlen; lia).
    rewrite take_ge, drop_ge by lia. unfold vlen at 1. rewrite Nat2Z.id. unfold body.
    by rewrite decode_encode_messages by (done || apply sent_ok).
Qed.

Lemma request_spec : to - from < kMaxRecoveryBatch →
  RecoveryClient.request (RecoveryClient.mkClient (Some (mkLoop h []))) from to =
  (RecoveryClient.mkClient (Some (mkLoop h [])), Some (reply from to)).
Proof using HR Hok Hrange Hto. intros Hb. by rewrite request_capped, sent_reply by lia. Qed.
End exchange.

(** ** Properties *)

(** C16. End to end over the wire format: for a range that ends below [2^64 - 1]
    the client obtains, of the messages of that range which the exchange published
    and still retains, the first [kMaxRecoveryBatch], in order and with every field
    intact, and the connection stays usable. A range of no more numbers than that, as the
    sequencer asks for, is so answered in full. *)
Theorem recovery_exchange cap first ms from to :
  0 < cap < 2 ^ 64 → 0 ≤ first → first + vlen ms < 2 ^ 64 → consecutive first ms →
  Forall message_ok ms → 0 ≤ from ≤ to → to < 2 ^ 64 - 1 →
  ∃ h, append_all (HistoryStore.make cap) ms = Ret h ∧
    RecoveryClient.request (RecoveryClient.mkClient (Some (mkLoop h []))) from to =
    (RecoveryClient.mkClient (Some (mkLoop h [])), Some (take (Z.to_nat kMaxRecoveryBatch) (filter (in_range from to) (lastn cap ms)))) ∧
    (to - from < kMaxRecoveryBatch → take (Z.to_nat kMaxRecoveryBatch) (filter (in_range from to) (lastn cap ms)) =
      filter (in_range from to) (lastn cap ms)).
Proof.
  intros Hc Hf Hfit Hcons Hok Hft Hto. pose proof (vlen_nonneg ms).
  destruct (append_all_rep cap first ms (HistoryStore.make cap) []) as (h & Hh & HR);
    [apply hist_rep_make; lia|done|done|].
  exists h. split; [done|]. split; [by apply (request_capped HR Hok)|]. intros Hb. by apply (sent_reply HR); lia.
Qed.

Lemma demo_history_ok : Forall message_ok demo_history.
Proof. repeat constructor; vm_compute; congruence. Qed.

Lemma demo_history_consecutive : consecutive 1 demo_history.
Proof. repeat (apply consecutive_cons; split; [reflexivity|]). apply consecutive_nil. Qed.

Lemma recovery_exchange_witness :
  ∃ h, append_all (HistoryStore.make 2) demo_history = Ret h ∧
    RecoveryClient.request (RecoveryClient.mkClient (Some (mkLoop h []))) 1 2 =
    (RecoveryClient.mkClient (Some (mkLoop h [])), Some [numbered 2]).
Proof.
  destruct (recovery_exchange 2 1 demo_history 1 2) as (h & Hh & Hr & Hall);
    [lia|lia|reflexivity|apply demo_history_consecutive|apply demo_history_ok|lia|lia|].
  exists h. split; [exact Hh|]. rewrite Hr, Hall by reflexivity. reflexivity.
Defined.

(** A request with the wrong magic or an inverted range is not answered:
    the server ends the connection without writing a byte, and the counters of
    served requests stay as they are. *)
Lemma bad_request_refused {S} `{Conn S} running s s' bytes r :
  conn_read s request_bytes = (s', Some bytes) →
  rq_magic (decode_request bytes) ≠ kRecoveryMagic ∨
    to_sequence (decode_request bytes) < from_sequence (decode_request bytes) →
  RecoveryServer.serve_connection (true :: running) s r = Ret (s', r).
Proof.
  intros Hread Hbad. cbn [RecoveryServer.serve_connection]. rewrite Hread.
  unfold RecoveryServer.answer. cbn zeta.
  assert (negb (rq_magic (decode_request bytes) =? kRecoveryMagic) ||
    (to_sequence (decode_request bytes) <? from_sequence (decode_request bytes)) = true) as ->; [|done].
  apply orb_true_iff. destruct Hbad as [Hm|Hlt]; [left|right].
  - by rewrite (proj2 (Z.eqb_neq _ _)).
  - by apply Z.ltb_lt.
Qed.

Lemma bad_request_refused_witness :
  RecoveryServer.serve_connection [true; true]
    (mkServing (encode_request (mkRequest kRecoveryMagic 0 9 8)) [])
    (RecoveryServer.mkServer (HistoryStore.make 2) 5 6) =
  Ret (mkServing [] [], RecoveryServer.mkServer (HistoryStore.make 2) 5 6).
Proof.
  apply (bad_request_refused [true] _ _ (encode_request (mkRequest kRecoveryMagic 0 9 8)));
    [reflexivity|]. right. vm_compute. reflexivity.
Defined.
