(* ===== verification/Sockets.v ===== *)
(** * Socket lifecycles

    [MulticastPublisher], [MulticastReceiver], [RecoveryClient::connect] and the
    start, accept loop and stop of [RecoveryServer], with every error path. The
    system calls are a parameter ([SocketOs]); [SocketLaws] says of them only what
    POSIX says about the table of open descriptors. Error texts are left out. *)

From stdpp Require Import strings.
From S2P Require Import Prelude Message Wire History Recovery.

#[local] Open Scope Z_scope.

(** The options that the sources set, with their values. *)
Inductive sockopt :=
  | SO_REUSEADDR (on : Z)
  | SO_RCVBUF (bytes : Z)
  | SO_RCVTIMEO (tv_sec tv_usec : Z)
  | SO_SNDTIMEO (tv_sec tv_usec : Z)
  | TCP_NODELAY (on : Z)
  | IP_MULTICAST_IF (interface : Z)
  | IP_MULTICAST_LOOP (on : Z)
  | IP_ADD_MEMBERSHIP (group interface : Z)
  | IP_DROP_MEMBERSHIP (group interface : Z).

Inductive sock_type := SOCK_DGRAM | SOCK_STREAM.

Record sockaddr := mkAddr { sin_addr : Z; sin_port : Z }.

Definition INADDR_ANY : Z := 0.
Definition EINTR : Z := 4.
Definition EAGAIN : Z := 11.        (* EWOULDBLOCK is the same number *)

(** A call that returns a number returns -1 (here: any negative number) on an
    error; [errno] comes with the calls whose callers look at it. *)
Class SocketOs (Os : Type) := {
  so_socket : Os → sock_type → Os * Z;
  so_setsockopt : Os → Z → sockopt → Os * Z;
  so_bind : Os → Z → sockaddr → Os * Z;
  so_listen : Os → Z → Z → Os * Z;
  so_accept : Os → Z → Os * (Z * Z);              (* descriptor, errno *)
  so_connect : Os → Z → sockaddr → Os * Z;
  so_sendto : Os → Z → list Z → sockaddr → Os * Z;
  so_recv : Os → Z → Z → Os * (Z * list Z * Z);   (* count, buffer, errno *)
  so_close : Os → Z → Os;
  so_read_exact : Os → Z → Z → Os * option (list Z);
  so_write_exact : Os → Z → list Z → Os * bool;
  so_sleep_ms : Os → Z → Os;
  inet_pton : string → option Z
}.

(** [fds]: the open descriptors. *)
Class SocketLaws (Os : Type) `{SocketOs Os} (fds : Os → gset Z) : Prop := {
  socket_law o t : let r := so_socket o t in
    (if r.2 <? 0 then fds r.1 = fds o else (r.2 ∉ fds o) ∧ fds r.1 = {[r.2]} ∪ fds o);
  accept_law o fd : let r := so_accept o fd in
    (if r.2.1 <? 0 then fds r.1 = fds o else (r.2.1 ∉ fds o) ∧ fds r.1 = {[r.2.1]} ∪ fds o);
  close_law o fd : fds (so_close o fd) = fds o ∖ {[fd]};
  setsockopt_law o fd opt : fds (so_setsockopt o fd opt).1 = fds o;
  bind_law o fd a : fds (so_bind o fd a).1 = fds o;
  listen_law o fd n : fds (so_listen o fd n).1 = fds o;
  connect_law o fd a : fds (so_connect o fd a).1 = fds o;
  sendto_law o fd bytes a : fds (so_sendto o fd bytes a).1 = fds o;
  recv_law o fd n : fds (so_recv o fd n).1 = fds o;
  read_law o fd n : fds (so_read_exact o fd n).1 = fds o;
  write_law o fd bytes : fds (so_write_exact o fd bytes).1 = fds o;
  sleep_law o n : fds (so_sleep_ms o n) = fds o
}.

(** ** [MulticastPublisher] *)

Module MulticastPublisher.

Record t := mkPublisher { fd_ : Z; destination_ : sockaddr }.

Definition fresh : t := mkPublisher (-1) (mkAddr 0 0).

Section operations.
Context {Os : Type} `{SocketOs Os}.

Definition close (o : Os) (p : t) : Os * t :=
  if 0 <=? fd_ p then (so_close o (fd_ p), mkPublisher (-1) (destination_ p)) else (o, p).

Definition open (o : Os) (p : t) (group : string) (port : Z) (interface_ip : string) : Os * t * bool :=
  let '(o, fd) := so_socket o SOCK_DGRAM in
  let p := mkPublisher fd (destination_ p) in
  if fd <? 0 then (o, p, false)
  else match inet_pton interface_ip with
  | None => (close o p, false)
  | Some interface_address =>
      let '(o, r) := so_setsockopt o fd (IP_MULTICAST_IF interface_address) in
      if r <? 0 then (close o p, false)
      else
        let '(o, r) := so_setsockopt o fd (IP_MULTICAST_LOOP 1) in
        if r <? 0 then (close o p, false)
        else match inet_pton group with
        | None => (close o (mkPublisher fd (mkAddr 0 port)), false)
        | Some address => (o, mkPublisher fd (mkAddr address port), true)
        end
  end.

Definition send (o : Os) (p : t) (data : list Z) : Os * bool :=
  let '(o, sent) := so_sendto o (fd_ p) data (destination_ p) in
  (o, negb (sent <? 0)).
End operations.
End MulticastPublisher.

(** ** [MulticastReceiver] *)

Module MulticastReceiver.

Record t := mkReceiver { fd_ : Z; joined_ : bool; membership_ : Z * Z }.

Definition fresh : t := mkReceiver (-1) false (0, 0).

Section operations.
Context {Os : Type} `{SocketOs Os}.

Definition close (o : Os) (r : t) : Os * t :=
  if 0 <=? fd_ r then
    let o :=
      if joined_ r
      then (so_setsockopt o (fd_ r) (IP_DROP_MEMBERSHIP (membership_ r).1 (membership_ r).2)).1
      else o in
    (so_close o (fd_ r), mkReceiver (-1) false (membership_ r))
  else (o, r).

(** [joined_] is set by a successful [open] and reset by [close] only. *)
Definition open (o : Os) (r : t) (group : string) (port : Z) (interface_ip : string) : Os * t * bool :=
  let '(o, fd) := so_socket o SOCK_DGRAM in
  let r := mkReceiver fd (joined_ r) (membership_ r) in
  if fd <? 0 then (o, r, false)
  else
    let '(o, e) := so_setsockopt o fd (SO_REUSEADDR 1) in
    if e <? 0 then (close o r, false)
    else
      let '(o, _) := so_setsockopt o fd (SO_RCVBUF (8 * 1024 * 1024)) in
      let '(o, e) := so_bind o fd (mkAddr INADDR_ANY port) in
      if e <? 0 then (close o r, false)
      else match inet_pton group with
      | None => (close o (mkReceiver fd (joined_ r) (0, 0)), false)
      | Some multiaddr =>
          match inet_pton interface_ip with
          | None => (close o (mkReceiver fd (joined_ r) (multiaddr, 0)), false)
          | Some interface =>
              let r := mkReceiver fd (joined_ r) (multiaddr, interface) in
              let '(o, e) := so_setsockopt o fd (IP_ADD_MEMBERSHIP multiaddr interface) in
              if e <? 0 then (close o r, false)
              else (o, mkReceiver fd true (multiaddr, interface), true)
          end
      end.

(** [/] and [%] of [int] truncate. *)
Definition set_receive_timeout (o : Os) (r : t) (milliseconds : Z) : Os * bool :=
  let '(o, e) := so_setsockopt o (fd_ r)
    (SO_RCVTIMEO (Z.quot milliseconds 1000) (Z.rem milliseconds 1000 * 1000)) in
  (o, negb (e <? 0)).

(** The bytes read, 0 on a time-out, -1 on an error; and the buffer. *)
Definition receive (o : Os) (r : t) (length : Z) : Os * (Z * list Z) :=
  let '(o, (received, buffer, errno)) := so_recv o (fd_ r) length in
  if received <? 0 then (o, (if errno =? EAGAIN then 0 else -1, buffer)) else (o, (received, buffer)).
End operations.
End MulticastReceiver.

(** ** [RecoveryClient]: the descriptor *)

Module ClientSocket.
Section operations.
Context {Os : Type} `{SocketOs Os}.

Definition interval_ms : Z := 20.

Definition close (o : Os) (fd : Z) : Os * Z := if 0 <=? fd then (so_close o fd, -1) else (o, fd).

Fixpoint connect_loop (fuel : nat) (o : Os) (fd_ : Z) (address : sockaddr) (timeout_ms waited : Z)
    : outcome (Os * Z * bool) :=
  match fuel with
  | O => Fault OutOfFuel
  | S fuel =>
      if waited <=? timeout_ms then
        let '(o, fd) := so_socket o SOCK_STREAM in
        if fd <? 0 then Ret (o, fd_, false)
        else
          let '(o, e) := so_connect o fd address in
          if e =? 0 then
            let '(o, _) := so_setsockopt o fd (TCP_NODELAY 1) in
            let '(o, _) := so_setsockopt o fd (SO_RCVTIMEO 2 0) in
            let '(o, _) := so_setsockopt o fd (SO_SNDTIMEO 2 0) in
            Ret (o, fd, true)
          else
            let o := so_sleep_ms (so_close o fd) interval_ms in
            waited ← i32 (waited + interval_ms);
            connect_loop fuel o fd_ address timeout_ms waited
      else Ret (o, fd_, false)
  end.

Definition connect (fuel : nat) (o : Os) (fd_ : Z) (host : string) (port timeout_ms : Z)
    : outcome (Os * Z * bool) :=
  match inet_pton host with
  | None => Ret (o, fd_, false)
  | Some address => connect_loop fuel o fd_ (mkAddr address port) timeout_ms 0
  end.

(** [request] on the descriptor: as [RecoveryClient.request], with the calls that
    close it. *)
Definition request (o : Os) (fd_ from to : Z) : Os * Z * option (list MarketMessage) :=
  if fd_ <? 0 then (o, fd_, None)
  else if to <? from then (o, fd_, None)
  else
    let '(o, ok) := so_write_exact o fd_ (encode_request (mkRequest kRecoveryMagic 0 from to)) in
    if negb ok then (close o fd_, None)
    else
      let '(o, frame) := so_read_exact o fd_ response_bytes in
      match frame with
      | None => (close o fd_, None)
      | Some bytes =>
          let header := decode_response bytes in
          if negb (rs_magic header =? kRecoveryMagic) || (kMaxRecoveryBatch <? rs_count header)
          then (close o fd_, None)
          else if rs_count header =? 0 then (o, fd_, Some [])
          else
            let '(o, frame) := so_read_exact o fd_ (rs_count header * message_bytes) in
            match frame with
            | None => (close o fd_, None)
            | Some bytes => (o, fd_, Some (decode_messages (Z.to_nat (rs_count header)) bytes))
            end
      end.
End operations.
End ClientSocket.

(** ** [RecoveryServer]: listening, accepting, stopping *)

Module Listener.

Record t := mkListener { listen_fd_ : Z; running_ : bool; thread_ : bool }.

Definition fresh : t := mkListener (-1) false false.

(** The descriptor of an accepted connection as the connection of
    [serve_connection]. *)
#[local] Instance fd_conn {Os} `{SocketOs Os} : Conn (Os * Z) := {
  conn_read s n := let '(o, r) := so_read_exact s.1 s.2 n in ((o, s.2), r);
  conn_write s bytes := let '(o, r) := so_write_exact s.1 s.2 bytes in ((o, s.2), r)
}.

Section operations.
Context {Os : Type} `{SocketOs Os}.

Definition start (o : Os) (l : t) (port : Z) : Os * t * bool :=
  let '(o, fd) := so_socket o SOCK_STREAM in
  if fd <? 0 then (o, mkListener fd (running_ l) (thread_ l), false)
  else
    let '(o, _) := so_setsockopt o fd (SO_REUSEADDR 1) in
    let '(o, e) := so_bind o fd (mkAddr INADDR_ANY port) in
    if e <? 0 then (so_close o fd, mkListener (-1) (running_ l) (thread_ l), false)
    else
      let '(o, e) := so_listen o fd 8 in
      if e <? 0 then (so_close o fd, mkListener (-1) (running_ l) (thread_ l), false)
      else
        let '(o, _) := so_setsockopt o fd (SO_RCVTIMEO 0 (100 * 1000)) in
        (o, mkListener fd true true, true).

(** [serve_connection] with the options it sets first. *)
Definition serve (o : Os) (client_fd : Z) (flags : list bool) (r : RecoveryServer.t)
    : outcome (Os * RecoveryServer.t) :=
  let '(o, _) := so_setsockopt o client_fd (TCP_NODELAY 1) in
  let '(o, _) := so_setsockopt o client_fd (SO_RCVTIMEO 2 0) in
  let '(o, _) := so_setsockopt o client_fd (SO_SNDTIMEO 2 0) in
  '(s, r) ← RecoveryServer.serve_connection flags (o, client_fd) r;
  Ret (s.1, r).

(** The accept loop. Each element is one load of [running_] that is true, with
    what the loads inside [serve_connection] return; the end of the list is the
    load that is false. *)
Fixpoint run (turns : list (list bool)) (o : Os) (l : t) (r : RecoveryServer.t)
    : outcome (Os * RecoveryServer.t) :=
  match turns with
  | [] => Ret (o, r)
  | flags :: turns =>
      let '(o, (client_fd, errno)) := so_accept o (listen_fd_ l) in
      if client_fd <? 0 then
        if (errno =? EAGAIN) || (errno =? EINTR) then run turns o l r else Ret (o, r)
      else
        '(o, r) ← serve o client_fd flags r;
        run turns (so_close o client_fd) l r
  end.

(** [thread_.join()] has returned when the accept loop has. *)
Definition stop (o : Os) (l : t) : Os * t :=
  if running_ l then
    if 0 <=? listen_fd_ l then (so_close o (listen_fd_ l), mkListener (-1) false false)
    else (o, mkListener (listen_fd_ l) false false)
  else (o, l).
End operations.
End Listener.

(** ** What is open *)

Section lifecycles.
Context `{Hlaws : SocketLaws Os fds}.
Implicit Types (o : Os) (S : gset Z).

(** [fd] is open, beside exactly the descriptors [S] of others. *)
Definition held S o (fd : Z) : Prop := 0 ≤ fd ∧ (fd ∉ S) ∧ fds o = {[fd]} ∪ S.

Lemma held_frame S o o' fd : held S o fd → fds o' = fds o → held S o' fd.
Proof using Type. unfold held. by intros (? & ? & ?) ->. Qed.

Lemma held_close S o fd : held S o fd → fds (so_close o fd) = S.
Proof using Hlaws. intros (_ & Hn & Hf). rewrite close_law, Hf. set_solver. Qed.

Lemma socket_held o ty o1 fd :
  so_socket o ty = (o1, fd) → if fd <? 0 then fds o1 = fds o else held (fds o) o1 fd.
Proof using Hlaws.
  intros E. pose proof (socket_law o ty) as Hl. rewrite E in Hl. simpl in Hl.
  destruct (Z.ltb_spec fd 0); [done|]. by destruct Hl.
Qed.

Lemma accept_held o lfd o1 fd errno :
  so_accept o lfd = (o1, (fd, errno)) → if fd <? 0 then fds o1 = fds o else held (fds o) o1 fd.
Proof using Hlaws.
  intros E. pose proof (accept_law o lfd) as Hl. rewrite E in Hl. simpl in Hl.
  destruct (Z.ltb_spec fd 0); [done|]. by destruct Hl.
Qed.

(** Goes through one system call that leaves the table of descriptors alone,
    carrying over what is held. *)
Ltac os_frame Hh law :=
  let Hn := fresh in
  pose proof (held_frame _ _ _ _ Hh law) as Hn; clear Hh; rename Hn into Hh.

Ltac os_call Hh :=
  match type of Hh with
  | held _ ?o _ =>
      match goal with
      | |- context [so_setsockopt o ?fd ?opt] =>
          os_frame Hh (setsockopt_law o fd opt); destruct (so_setsockopt o fd opt); cbn [fst] in Hh
      | |- context [so_bind o ?fd ?a] =>
          os_frame Hh (bind_law o fd a); destruct (so_bind o fd a); cbn [fst] in Hh
      | |- context [so_listen o ?fd ?n] =>
          os_frame Hh (listen_law o fd n); destruct (so_listen o fd n); cbn [fst] in Hh
      | |- context [so_connect o ?fd ?a] =>
          os_frame Hh (connect_law o fd a); destruct (so_connect o fd a); cbn [fst] in Hh
      end
  end.

(** What an [open] promises: one descriptor more, or none. *)
Definition opened S o (fd : Z) (ok : bool) : Prop := if ok then held S o fd else fd < 0 ∧ fds o = S.

Lemma publisher_close S o p :
  held S o (MulticastPublisher.fd_ p) →
  let r := MulticastPublisher.close o p in opened S r.1 (MulticastPublisher.fd_ r.2) false.
Proof using Hlaws.
  intros Hh. unfold MulticastPublisher.close. pose proof Hh as [H0 _].
  destruct (Z.leb_spec 0 (MulticastPublisher.fd_ p)); [|lia]. simpl. split; [lia|]. by apply held_close.
Qed.

Lemma publisher_open o group port interface_ip :
  let '(o', p, ok) := MulticastPublisher.open o MulticastPublisher.fresh group port interface_ip in
  opened (fds o) o' (MulticastPublisher.fd_ p) ok ∧
  (ok = true → ∃ a, inet_pton group = Some a ∧ MulticastPublisher.destination_ p = mkAddr a port).
Proof using Hlaws.
  assert (∀ o1 p, held (fds o) o1 (MulticastPublisher.fd_ p) →
    let '(o', p', ok) := (MulticastPublisher.close o1 p, false) in
    opened (fds o) o' (MulticastPublisher.fd_ p') ok ∧
    (ok = true → ∃ a, inet_pton group = Some a ∧ MulticastPublisher.destination_ p' = mkAddr a port)) as Hclose.
  { intros o1 p Hh. pose proof (publisher_close _ _ _ Hh) as Hc. destruct (MulticastPublisher.close o1 p). by split. }
  unfold MulticastPublisher.open. destruct (so_socket o SOCK_DGRAM) as [o1 fd] eqn:Es.
  pose proof (socket_held _ _ _ _ Es) as Hh. destruct (Z.ltb_spec fd 0); [by split|].
  destruct (inet_pton interface_ip) as [ia|]; [|by apply Hclose].
  os_call Hh. destruct (_ <? 0); [by apply Hclose|]. os_call Hh. destruct (_ <? 0); [by apply Hclose|].
  destruct (inet_pton group) as [a|]; [|by apply Hclose]. split; [done|]. intros _. by exists a.
Qed.

Lemma receiver_close S o r :
  held S o (MulticastReceiver.fd_ r) →
  let x := MulticastReceiver.close o r in
  opened S x.1 (MulticastReceiver.fd_ x.2) false ∧ MulticastReceiver.joined_ x.2 = false.
Proof using Hlaws.
  intros Hh. unfold MulticastReceiver.close. pose proof Hh as [H0 _].
  destruct (Z.leb_spec 0 (MulticastReceiver.fd_ r)); [|lia]. simpl. split; [|done]. split; [lia|].
  destruct (MulticastReceiver.joined_ r); apply held_close; [|done].
  eapply held_frame; [done|]. apply setsockopt_law.
Qed.

Lemma receiver_open o group port interface_ip :
  let '(o', r, ok) := MulticastReceiver.open o MulticastReceiver.fresh group port interface_ip in
  opened (fds o) o' (MulticastReceiver.fd_ r) ok ∧ MulticastReceiver.joined_ r = ok.
Proof using Hlaws.
  assert (∀ o1 r, held (fds o) o1 (MulticastReceiver.fd_ r) →
    let '(o', r', ok) := (MulticastReceiver.close o1 r, false) in
    opened (fds o) o' (MulticastReceiver.fd_ r') ok ∧ MulticastReceiver.joined_ r' = ok) as Hclose.
  { intros o1 r Hh. pose proof (receiver_close _ _ _ Hh) as Hc. by destruct (MulticastReceiver.close o1 r). }
  unfold MulticastReceiver.open. destruct (so_socket o SOCK_DGRAM) as [o1 fd] eqn:Es.
  pose proof (socket_held _ _ _ _ Es) as Hh. destruct (Z.ltb_spec fd 0); [by split|].
  os_call Hh. destruct (_ <? 0); [by apply Hclose|]. os_call Hh. os_call Hh. destruct (_ <? 0); [by apply Hclose|].
  destruct (inet_pton group) as [a|]; [|by apply Hclose]. destruct (inet_pton interface_ip) as [ia|]; [|by apply Hclose].
  os_call Hh. destruct (_ <? 0); [by apply Hclose|]. by split.
Qed.

Lemma connect_loop_spec address timeout fuel : ∀ o waited,
  0 ≤ waited → timeout ≤ 2 ^ 31 - 21 → timeout + 20 - waited < 20 * Z.of_nat fuel → (0 < fuel)%nat →
  ∃ o' fd ok, ClientSocket.connect_loop fuel o (-1) address timeout waited = Ret (o', fd, ok) ∧
    opened (fds o) o' fd ok.
Proof using Hlaws.
  induction fuel as [|fuel IH]; intros o waited Hw Ht Hf Hpos; [lia|]. cbn [ClientSocket.connect_loop].
  destruct (Z.leb_spec waited timeout) as [Hle|]; [|by exists o, (-1), false].
  destruct (so_socket o SOCK_STREAM) as [o1 fd] eqn:Es. pose proof (socket_held _ _ _ _ Es) as Hh.
  destruct (Z.ltb_spec fd 0); [by exists o1, (-1), false|]. os_call Hh. destruct (_ =? 0).
  - os_call Hh. os_call Hh. os_call Hh. by eexists _, fd, true.
  - unfold ClientSocket.interval_ms.
    assert (i32 (waited + 20) = Ret (waited + 20)) as ->.
    { unfold i32. destruct (Z.leb_spec (- 2 ^ 31) (waited + 20)), (Z.leb_spec (waited + 20) (2 ^ 31 - 1)); lia || done. }
    returns. match type of Hh with held _ ?o2 _ =>
      destruct (IH (so_sleep_ms (so_close o2 fd) 20) (waited + 20)) as (o' & fd' & ok & Hrun & Hop); [lia..|] end.
    exists o', fd', ok. split; [done|]. rewrite sleep_law, (held_close _ _ _ Hh) in Hop. done.
Qed.

(** [request] keeps the connection or closes it, and answers what the client of
    [Recovery] answers on the same connection. *)
Lemma client_close S o fd : held S o fd →
  let r := ClientSocket.close o fd in opened S r.1 r.2 false.
Proof using Hlaws.
  intros Hh. pose proof Hh as [H0 _]. unfold ClientSocket.close.
  destruct (Z.leb_spec 0 fd); [|lia]. split; [simpl; lia|]. by apply held_close.
Qed.

Definition client_of o (fd : Z) : RecoveryClient.t (Os * Z) :=
  RecoveryClient.mkClient (if 0 <=? fd then Some (o, fd) else None).

Lemma request_spec_fd S o fd from to :
  opened S o fd (0 <=? fd) →
  let '(o', fd', answer) := ClientSocket.request o fd from to in
  opened S o' fd' (0 <=? fd') ∧
  RecoveryClient.request (H := Listener.fd_conn) (client_of o fd) from to = (client_of o' fd', answer).
Proof using Hlaws.
  intros Ho. unfold ClientSocket.request, RecoveryClient.request, client_of.
  assert (∀ o1, held S o1 fd → let '(o', fd', answer) := (ClientSocket.close o1 fd, @None (list MarketMessage)) in
    opened S o' fd' (0 <=? fd') ∧ (@RecoveryClient.mkClient (Os * Z) None, @None (list MarketMessage)) =
      (client_of o' fd', answer)) as Hclose.
  { intros o1 Hh. pose proof (client_close _ _ _ Hh) as Hc. destruct (ClientSocket.close o1 fd) as [o2 fd2].
    destruct Hc as [Hn Hf]. unfold client_of. cbn [fst snd] in *. by destruct (Z.leb_spec 0 fd2); [lia|]. }
  destruct (Z.leb_spec 0 fd), (Z.ltb_spec fd 0); try lia; cbn [RecoveryClient.fd_].
  2: { destruct (Z.leb_spec 0 fd); [lia|done]. }
  destruct (to <? from); [by destruct (Z.leb_spec 0 fd); [|lia]|].
  cbn [conn_write conn_read Listener.fd_conn fst snd].
  pose proof (write_law o fd (encode_request (mkRequest kRecoveryMagic 0 from to))) as Hw.
  destruct (so_write_exact o fd _) as [o1 ok]. cbn [fst snd] in *. pose proof (held_frame _ _ _ _ Ho Hw) as Hh.
  destruct ok; cbn [negb]; [|by apply Hclose].
  pose proof (read_law o1 fd response_bytes) as Hr. destruct (so_read_exact o1 fd _) as [o2 frame]. cbn [fst snd] in *.
  apply (held_frame _ _ _ _ Hh) in Hr. destruct frame as [bytes|]; [|by apply Hclose].
  destruct (_ || _); [by apply Hclose|]. destruct (_ =? 0); [by destruct (Z.leb_spec 0 fd); [|lia]|].
  pose proof (read_law o2 fd (rs_count (decode_response bytes) * message_bytes)) as Hr2.
  destruct (so_read_exact o2 fd _) as [o3 frame]. cbn [fst snd] in *. apply (held_frame _ _ _ _ Hr) in Hr2.
  destruct frame; [by destruct (Z.leb_spec 0 fd); [|lia]|by apply Hclose].
Qed.

(** ** The recovery server *)

Lemma start_spec o port :
  let '(o', l, ok) := Listener.start o Listener.fresh port in
  opened (fds o) o' (Listener.listen_fd_ l) ok ∧ Listener.running_ l = ok.
Proof using Hlaws.
  unfold Listener.start. destruct (so_socket o SOCK_STREAM) as [o1 fd] eqn:Es.
  pose proof (socket_held _ _ _ _ Es) as Hh. destruct (Z.ltb_spec fd 0); [by split|].
  os_call Hh. os_call Hh. destruct (_ <? 0); [split; [|done]; split; [simpl; lia|by apply held_close]|].
  os_call Hh. destruct (_ <? 0); [split; [|done]; split; [simpl; lia|by apply held_close]|].
  os_call Hh. by split.
Qed.

(** Requests for numbers that [fetch] can count past. *)
Definition countable (bytes : list Z) : Prop :=
  0 ≤ from_sequence (decode_request bytes) ∧ to_sequence (decode_request bytes) < 2 ^ 64 - 1.

Context (Hreq : ∀ o fd o' bytes, so_read_exact o fd request_bytes = (o', Some bytes) → countable bytes).
Context {cap first : Z} {ms : list MarketMessage}.

Lemma answer_returns h request :
  hist_rep cap first h ms → 0 ≤ from_sequence request → to_sequence request < 2 ^ 64 - 1 →
  ∃ found, RecoveryServer.answer h request = Ret found.
Proof using Type.
  intros HR Hf Ht. unfold RecoveryServer.answer. destruct (_ || _) eqn:E; [by eexists|].
  apply orb_false_iff in E as [_ E%Z.ltb_ge].
  rewrite (fetch_spec cap first h ms) by (done || lia || apply Z.mod_pos_bound; lia). returns. by eexists.
Qed.

Lemma serve_connection_keeps fd flags : ∀ o r,
  hist_rep cap first (RecoveryServer.history_ r) ms →
  ∃ o' r', RecoveryServer.serve_connection (H := Listener.fd_conn) flags (o, fd) r = Ret ((o', fd), r') ∧
    fds o' = fds o ∧ RecoveryServer.history_ r' = RecoveryServer.history_ r.
Proof using Hlaws Hreq.
  induction flags as [|[] flags IH]; intros o r HR; cbn [RecoveryServer.serve_connection]; [by exists o, r| |by exists o, r].
  cbn [conn_read conn_write Listener.fd_conn fst snd]. pose proof (read_law o fd request_bytes) as Hr.
  destruct (so_read_exact o fd request_bytes) as [o1 [bytes|]] eqn:Er; cbn [fst] in Hr; [|by exists o1, r].
  destruct (Hreq _ _ _ _ Er) as [Hf Ht]. destruct (answer_returns _ _ HR Hf Ht) as [[found|] ->]; returns; [|by exists o1, r].
  pose proof (write_law o1 fd (encode_response (mkResponse kRecoveryMagic (u32 (vlen found))))) as Hw.
  destruct (so_write_exact _ _ _) as [o2 []]; cbn [fst negb] in *; [|exists o2, r; split; [done|]; split; [congruence|done]].
  set (r2 := RecoveryServer.mkServer _ _ _).
  destruct (0 <? vlen found); cbn [fst snd negb].
  - pose proof (write_law o2 fd (encode_messages padding found)) as Hw2.
    destruct (so_write_exact o2 _ _) as [o3 []]; cbn [fst negb] in *; [|exists o3, r; split; [done|]; split; [congruence|done]].
    destruct (IH o3 r2 HR) as (o' & r' & -> & Hfds & Hh). exists o', r'. split; [done|]. split; [congruence|done].
  - destruct (IH o2 r2 HR) as (o' & r' & -> & Hfds & Hh). exists o', r'. split; [done|]. split; [congruence|done].
Qed.

Lemma serve_keeps o fd flags r :
  hist_rep cap first (RecoveryServer.history_ r) ms →
  ∃ o' r', Listener.serve o fd flags r = Ret (o', r') ∧ fds o' = fds o ∧
    RecoveryServer.history_ r' = RecoveryServer.history_ r.
Proof using Hlaws Hreq.
  intros HR. unfold Listener.serve.
  pose proof (setsockopt_law o fd (TCP_NODELAY 1)) as H1. destruct (so_setsockopt o _ _) as [o1 e1]; cbn [fst] in H1.
  pose proof (setsockopt_law o1 fd (SO_RCVTIMEO 2 0)) as H2. destruct (so_setsockopt o1 _ _) as [o2 e2]; cbn [fst] in H2.
  pose proof (setsockopt_law o2 fd (SO_SNDTIMEO 2 0)) as H3. destruct (so_setsockopt o2 _ _) as [o3 e3]; cbn [fst] in H3.
  destruct (serve_connection_keeps fd flags o3 r HR) as (o' & r' & -> & Hf & Hh). returns.
  exists o', r'. split; [done|]. split; [simpl; congruence|done].
Qed.

(** Every accepted connection is closed again. *)
Lemma run_keeps l turns : ∀ o r,
  hist_rep cap first (RecoveryServer.history_ r) ms →
  ∃ o' r', Listener.run turns o l r = Ret (o', r') ∧ fds o' = fds o ∧
    RecoveryServer.history_ r' = RecoveryServer.history_ r.
Proof using Hlaws Hreq.
  induction turns as [|flags turns IH]; intros o r HR; cbn [Listener.run]; [by exists o, r|].
  destruct (so_accept o (Listener.listen_fd_ l)) as [o1 [fd errno]] eqn:Ea.
  pose proof (accept_held _ _ _ _ _ Ea) as Hh. destruct (Z.ltb_spec fd 0).
  - destruct (_ || _); [|by exists o1, r]. destruct (IH o1 r HR) as (o' & r' & -> & Hf & Hr).
    exists o', r'. split; [done|]. split; [congruence|done].
  - destruct (serve_keeps o1 fd flags r HR) as (o2 & r2 & -> & Hf2 & Hr2). returns.
    destruct (IH (so_close o2 fd) r2) as (o' & r' & -> & Hf & Hr); [by rewrite Hr2|].
    exists o', r'. split; [done|]. split; [|congruence]. rewrite Hf. by eapply held_close, held_frame.
Qed.
End lifecycles.

(** ** A small host *)

(** The open descriptors, the next one, and how many connection attempts will be
    refused. Peers that connect hang up at once. *)
Record host := mkHost { open_fds : gset Z; next_fd : nat; refusals : nat }.

Definition host_open (h : host) : host * Z :=
  let fd := Z.of_nat (next_fd h) in
  if bool_decide (fd ∈ open_fds h) then (h, -1)
  else (mkHost ({[fd]} ∪ open_fds h) (S (next_fd h)) (refusals h), fd).

#[export] Instance host_os : SocketOs host := {
  so_socket h _ := host_open h;
  so_setsockopt h _ _ := (h, 0);
  so_bind h _ _ := (h, 0);
  so_listen h _ _ := (h, 0);
  so_accept h _ := ((host_open h).1, ((host_open h).2, EAGAIN));
  so_connect h _ _ :=
    match refusals h with
    | O => (h, 0)
    | S n => (mkHost (open_fds h) (next_fd h) n, -1)
    end;
  so_sendto h _ bytes _ := (h, vlen bytes);
  so_recv h _ _ := (h, (-1, [], EAGAIN));
  so_close h fd := mkHost (open_fds h ∖ {[fd]}) (next_fd h) (refusals h);
  so_read_exact h _ _ := (h, None);
  so_write_exact h _ _ := (h, true);
  so_sleep_ms h _ := h;
  inet_pton s := if bool_decide (s = "") then None else Some 1
}.

Lemma host_laws : SocketLaws host open_fds.
Proof.
  assert (∀ h, let r := host_open h in
    if r.2 <? 0 then open_fds r.1 = open_fds h
    else (r.2 ∉ open_fds h) ∧ open_fds r.1 = {[r.2]} ∪ open_fds h) as Hopen.
  { intros h. unfold host_open. case_bool_decide; simpl; [done|]. by destruct (Z.ltb_spec (Z.of_nat (next_fd h)) 0); [lia|]. }
  split; try done; try (intros; apply Hopen).
  intros h fd a. simpl. by destruct (refusals h).
Qed.

(** The same host with clients that do not hang up but ask for messages 1 and 2 again
    and again. *)
Definition asking_os : SocketOs host := {|
  so_socket := so_socket (Os := host);
  so_setsockopt := so_setsockopt;
  so_bind := so_bind;
  so_listen := so_listen;
  so_accept := so_accept;
  so_connect := so_connect;
  so_sendto := so_sendto;
  so_recv := so_recv;
  so_close := so_close;
  so_read_exact h _ n := (h, if n =? request_bytes then Some (encode_request (mkRequest kRecoveryMagic 0 1 2)) else None);
  so_write_exact := so_write_exact;
  so_sleep_ms := so_sleep_ms;
  inet_pton := inet_pton (Os := host)
|}.

Lemma asking_laws : SocketLaws host (H := asking_os) open_fds.
Proof. destruct host_laws. by split. Qed.

(** Standard input, output and error are open; the server will refuse twice. *)
Definition booted : host := mkHost {[0; 1; 2]} 3 2.

(** ** Properties *)

(** The client side leaks no descriptor, whatever the system calls answer.
    [open] of the publisher and of the receiver and [connect] of the recovery client
    (whose retries end within the time-out, without overflow of their counter) each
    return; on success the object holds exactly one descriptor, new and open; on
    every failure path it holds none and every descriptor opened on the way is
    closed; [close] afterwards restores the table; a publisher that opened sends to
    the group it was given, and a receiver has joined exactly if it opened. *)
Lemma sockets_no_leak {Os} `{SocketLaws Os fds} (o : Os) group port interface_ip server server_port
    timeout_ms fuel :
  0 ≤ timeout_ms ≤ 2 ^ 31 - 21 → timeout_ms + 20 < 20 * Z.of_nat fuel →
  (∃ o' p ok, MulticastPublisher.open o MulticastPublisher.fresh group port interface_ip = (o', p, ok) ∧
    opened (fds := fds) (fds o) o' (MulticastPublisher.fd_ p) ok ∧
    (ok = true → ∃ a, inet_pton group = Some a ∧ MulticastPublisher.destination_ p = mkAddr a port) ∧
    fds (MulticastPublisher.close o' p).1 = fds o) ∧
  (∃ o' r ok, MulticastReceiver.open o MulticastReceiver.fresh group port interface_ip = (o', r, ok) ∧
    opened (fds := fds) (fds o) o' (MulticastReceiver.fd_ r) ok ∧ MulticastReceiver.joined_ r = ok ∧
    fds (MulticastReceiver.close o' r).1 = fds o) ∧
  (∃ o' fd ok, ClientSocket.connect fuel o (-1) server server_port timeout_ms = Ret (o', fd, ok) ∧
    opened (fds := fds) (fds o) o' fd ok ∧ fds (ClientSocket.close o' fd).1 = fds o).
Proof.
  intros Ht Hf. split; [|split].
  - pose proof (publisher_open o group port interface_ip) as Ho.
    destruct (MulticastPublisher.open _ _ _ _ _) as [[o' p] ok]. destruct Ho as [Ho Hd].
    exists o', p, ok. split; [done|]. split; [done|]. split; [done|]. destruct ok; [by apply publisher_close|].
    destruct Ho as [Hneg Ho]. unfold MulticastPublisher.close. by destruct (Z.leb_spec 0 (MulticastPublisher.fd_ p)); [lia|].
  - pose proof (receiver_open o group port interface_ip) as Ho.
    destruct (MulticastReceiver.open _ _ _ _ _) as [[o' r] ok]. destruct Ho as [Ho Hj].
    exists o', r, ok. split; [done|]. split; [done|]. split; [done|]. destruct ok; [by apply receiver_close|].
    destruct Ho as [Hneg Ho]. unfold MulticastReceiver.close. by destruct (Z.leb_spec 0 (MulticastReceiver.fd_ r)); [lia|].
  - assert (∃ o' fd ok, ClientSocket.connect fuel o (-1) server server_port timeout_ms = Ret (o', fd, ok) ∧
      opened (fds := fds) (fds o) o' fd ok) as (o' & fd & ok & Hrun & Ho).
    { unfold ClientSocket.connect. destruct (inet_pton server); [apply connect_loop_spec; lia|by exists o, (-1), false]. }
    exists o', fd, ok. split; [done|]. split; [done|]. unfold ClientSocket.close. destruct ok.
    + destruct (Z.leb_spec 0 fd); [by apply held_close|]. destruct Ho. lia.
    + destruct Ho as [Hneg Ho]. by destruct (Z.leb_spec 0 fd); [lia|].
Qed.

(** The server refuses twice; then the client is connected, on a new descriptor. *)
Lemma sockets_no_leak_witness :
  ∃ o' fd, ClientSocket.connect 4 booted (-1) "127.0.0.1" 30002 50 = Ret (o', fd, true) ∧
    open_fds o' = {[0; 1; 2; 5]} ∧ open_fds (ClientSocket.close o' fd).1 = {[0; 1; 2]}.
Proof.
  destruct (sockets_no_leak (H0 := host_laws) booted "239.1.1.1" 30001 "127.0.0.1" "127.0.0.1" 30002 50 4)
    as (_ & _ & o' & fd & ok & Hrun & _ & Hclose); [lia|lia|].
  assert (ok = true) as -> by (vm_compute in Hrun; congruence).
  exists o', fd. split; [exact Hrun|]. split; [|exact Hclose].
  vm_compute in Hrun. injection Hrun as <- _. vm_compute. reflexivity.
Defined.

(** C30. The recovery server gives back what it opened, as long as no request ends at the
    last 64-bit number (for which [fetch] runs on: [history_fetch_wraps]). [start] either
    returns with a new listening descriptor and the server running, or fails with none
    open; the accept loop, over any sequence of accepts, interruptions and connections
    up to a load of [running_] that is false, serves every request without fault and
    leaves the history unchanged and every accepted descriptor closed; [stop] closes the listening one, and a second
    [stop] changes nothing. *)
Theorem server_releases {Os} `{SocketLaws Os fds} (o : Os) port turns cap first ms r :
  (∀ o fd o' bytes, so_read_exact o fd request_bytes = (o', Some bytes) → countable bytes) →
  hist_rep cap first (RecoveryServer.history_ r) ms →
  ∃ o1 l ok, Listener.start o Listener.fresh port = (o1, l, ok) ∧
    opened (fds := fds) (fds o) o1 (Listener.listen_fd_ l) ok ∧ Listener.running_ l = ok ∧
    ∃ o2 r', Listener.run turns o1 l r = Ret (o2, r') ∧ fds o2 = fds o1 ∧
      RecoveryServer.history_ r' = RecoveryServer.history_ r ∧
      let '(o3, l') := Listener.stop o2 l in fds o3 = fds o ∧ Listener.stop o3 l' = (o3, l').
Proof.
  intros Hreq HR. pose proof (start_spec o port) as Hs.
  destruct (Listener.start o Listener.fresh port) as [[o1 l] ok]. destruct Hs as [Ho Hrun].
  exists o1, l, ok. split; [done|]. split; [done|]. split; [done|].
  destruct (run_keeps (cap := cap) (first := first) (ms := ms) Hreq l turns o1 r HR) as (o2 & r' & Hr & Hf & Hh).
  exists o2, r'. split; [done|]. split; [done|]. split; [done|]. unfold Listener.stop. rewrite Hrun. destruct ok.
  - destruct (Z.leb_spec 0 (Listener.listen_fd_ l)); [|by destruct Ho; lia].
    split; [|done]. by eapply held_close, held_frame.
  - destruct Ho as [_ Ho]. split; [congruence|]. by rewrite Hrun.
Qed.

(** Two clients connect, one after the other, and are answered twice and once. *)
Lemma server_releases_witness :
  ∃ h o1 l o2 r', append_all (HistoryStore.make 4) demo_history = Ret h ∧
    Listener.start (H := asking_os) booted Listener.fresh 30002 = (o1, l, true) ∧
    Listener.run (H := asking_os) [[true; true]; [true]] o1 l (RecoveryServer.mkServer h 0 0) = Ret (o2, r') ∧
    RecoveryServer.served_requests_ r' = 3 ∧ RecoveryServer.served_messages_ r' = 6 ∧
    open_fds o2 = {[0; 1; 2; 3]} ∧ open_fds (Listener.stop (H := asking_os) o2 l).1 = {[0; 1; 2]}.
Proof.
  destruct (append_all_rep 4 1 demo_history (HistoryStore.make 4) []) as (h & Hh & HR);
    [apply hist_rep_make; lia|apply demo_history_consecutive|reflexivity|].
  destruct (server_releases (H0 := asking_laws) booted 30002 [[true; true]; [true]] 4 1 demo_history
    (RecoveryServer.mkServer h 0 0)) as (o1 & l & ok & Hs & _ & _ & o2 & r' & Hrun & Hf & _ & Hstop).
  - intros o fd o' bytes Hr. cbn in Hr. injection Hr as _ <-. vm_compute. repeat split; congruence.
  - exact HR.
  - destruct (Listener.stop (H := asking_os) o2 l) as [o3 l'] eqn:E. destruct Hstop as [Hstop _].
    vm_compute in Hs. injection Hs as <- <- <-.
    eexists h, _, _, o2, r'. split; [exact Hh|]. split; [vm_compute; reflexivity|]. split; [exact Hrun|].
    vm_compute in Hh. injection Hh as <-. vm_compute in Hrun. injection Hrun as <- <-.
    split; [reflexivity|]. split; [reflexivity|]. split; [vm_compute; reflexivity|]. rewrite E. exact Hstop.
Defined.
