(* ===== verification/SequenceManager.v ===== *)
(** * The sequencer

    [market_data/sequence_manager.cpp]: a reorder window addressed by sequence
    number, which turns the live feed and the retransmissions into one in-order
    stream. The recovery client and the clock are the environment, a type [E]
    with the two calls the code makes on it; [recovery_ == nullptr] is the flag
    [connected]. *)

From S2P Require Import Prelude Message.

#[local] Open Scope Z_scope.
#[local] Open Scope llte_scope.

(** What the sequencer calls: [RecoveryClient::request] ([None] when it returns
    false) and [now_ns]. *)
Class SeqEnv (E : Type) := {
  env_request : E → Z → Z → E * option (list MarketMessage);
  env_now : E → E * Z
}.

Module Seq.

Inductive SlotState := Empty | Filled | Skipped.

#[export] Instance SlotState_eq_dec : EqDecision SlotState.
Proof. solve_decision. Defined.

Record Slot := mkSlot { payload : FeedMessage; state : SlotState }.

Record Stats := mkStats {
  accepted : Z;
  delivered : Z;
  duplicates : Z;
  gaps_detected : Z;
  missing_messages : Z;
  recovery_requests : Z;
  messages_recovered : Z;
  unrecoverable : Z;
  reorder_overflows : Z
}.

Record t := mkSeq {
  buffer_ : list Slot;
  connected : bool;
  expected_ : Z;
  started_ : bool;
  stats_ : Stats
}.

Definition stats_zero : Stats := mkStats 0 0 0 0 0 0 0 0 0.

Definition make (reorder_capacity : Z) (recovery : bool) : t :=
  mkSeq (replicate (Z.to_nat reorder_capacity) (mkSlot FeedMessage_zero Empty)) recovery 0 false
    stats_zero.

(** ** Assignments to single members *)

Definition set_buffer (b : list Slot) (q : t) : t :=
  mkSeq b (connected q) (expected_ q) (started_ q) (stats_ q).
Definition set_expected (e : Z) (q : t) : t :=
  mkSeq (buffer_ q) (connected q) e (started_ q) (stats_ q).
Definition set_started (q : t) : t :=
  mkSeq (buffer_ q) (connected q) (expected_ q) true (stats_ q).
Definition set_stats (f : Stats → Stats) (q : t) : t :=
  mkSeq (buffer_ q) (connected q) (expected_ q) (started_ q) (f (stats_ q)).

Definition add_accepted (n : Z) (s : Stats) : Stats :=
  mkStats (u64 (accepted s + n)) (delivered s) (duplicates s) (gaps_detected s)
    (missing_messages s) (recovery_requests s) (messages_recovered s) (unrecoverable s)
    (reorder_overflows s).
Definition add_delivered (n : Z) (s : Stats) : Stats :=
  mkStats (accepted s) (u64 (delivered s + n)) (duplicates s) (gaps_detected s)
    (missing_messages s) (recovery_requests s) (messages_recovered s) (unrecoverable s)
    (reorder_overflows s).
Definition add_duplicates (n : Z) (s : Stats) : Stats :=
  mkStats (accepted s) (delivered s) (u64 (duplicates s + n)) (gaps_detected s)
    (missing_messages s) (recovery_requests s) (messages_recovered s) (unrecoverable s)
    (reorder_overflows s).
Definition add_gaps (n : Z) (s : Stats) : Stats :=
  mkStats (accepted s) (delivered s) (duplicates s) (u64 (gaps_detected s + n))
    (missing_messages s) (recovery_requests s) (messages_recovered s) (unrecoverable s)
    (reorder_overflows s).
Definition add_missing (n : Z) (s : Stats) : Stats :=
  mkStats (accepted s) (delivered s) (duplicates s) (gaps_detected s)
    (u64 (missing_messages s + n)) (recovery_requests s) (messages_recovered s) (unrecoverable s)
    (reorder_overflows s).
Definition add_requests (n : Z) (s : Stats) : Stats :=
  mkStats (accepted s) (delivered s) (duplicates s) (gaps_detected s)
    (missing_messages s) (u64 (recovery_requests s + n)) (messages_recovered s) (unrecoverable s)
    (reorder_overflows s).
Definition add_recovered (n : Z) (s : Stats) : Stats :=
  mkStats (accepted s) (delivered s) (duplicates s) (gaps_detected s)
    (missing_messages s) (recovery_requests s) (u64 (messages_recovered s + n)) (unrecoverable s)
    (reorder_overflows s).
Definition add_unrecoverable (n : Z) (s : Stats) : Stats :=
  mkStats (accepted s) (delivered s) (duplicates s) (gaps_detected s)
    (missing_messages s) (recovery_requests s) (messages_recovered s) (u64 (unrecoverable s + n))
    (reorder_overflows s).
Definition add_overflows (n : Z) (s : Stats) : Stats :=
  mkStats (accepted s) (delivered s) (duplicates s) (gaps_detected s)
    (missing_messages s) (recovery_requests s) (messages_recovered s) (unrecoverable s)
    (u64 (reorder_overflows s + n)).

(** ** Slots *)

(** [buffer_[sequence % buffer_.size()]], as a value and as a target. *)
Definition slot_at (q : t) (sequence : Z) : outcome Slot :=
  i ← umod sequence (vlen (buffer_ q)); load (buffer_ q) i.
Definition set_slot (q : t) (sequence : Z) (s : Slot) : outcome t :=
  i ← umod sequence (vlen (buffer_ q));
  b ← assign (buffer_ q) i s;
  Ret (set_buffer b q).

Definition store (q : t) (incoming : FeedMessage) : outcome t :=
  let sequence := sequence_number (message incoming) in
  slot ← slot_at q sequence;
  if decide (state slot = Filled) then Ret (set_stats (add_duplicates 1) q)
  else set_slot q sequence (mkSlot incoming Filled).

(** ** Recovery *)

Section with_env.
Context {E : Type} `{SeqEnv E}.

(** The loop over one response. *)
Fixpoint recover_messages (e : E) (q : t) (arrived : Z) (ms : list MarketMessage)
    : outcome (E * t) :=
  match ms with
  | [] => Ret (e, q)
  | m :: ms =>
      if (sequence_number m <? expected_ q) ||
         (vlen (buffer_ q) <=? u64 (sequence_number m - expected_ q))
      then recover_messages e q arrived ms
      else
        slot ← slot_at q (sequence_number m);
        if decide (state slot = Filled) then recover_messages e q arrived ms
        else
          let '(e, now) := env_now e in
          q ← set_slot q (sequence_number m) (mkSlot (mkFeed m arrived now true) Filled);
          recover_messages e (set_stats (add_recovered 1) q) arrived ms
  end.

(** The loop over requests of at most [kMaxRecoveryBatch] numbers. *)
Fixpoint request_loop (fuel : nat) (e : E) (q : t) (to start : Z) : outcome (E * t) :=
  match fuel with
  | O => Fault OutOfFuel
  | S fuel =>
      if start <=? to then
        let end_ := Z.min to (u64 (u64 (start + kMaxRecoveryBatch) - 1)) in
        let q := set_stats (add_requests 1) q in
        let '(e, answer) := env_request e start end_ in
        match answer with
        | None => Ret (e, q)
        | Some ms =>
            let '(e, arrived) := env_now e in
            '(e, q) ← recover_messages e q arrived ms;
            request_loop fuel e q to (u64 (start + kMaxRecoveryBatch))
        end
      else Ret (e, q)
  end.

(** What is still empty is given up. *)
Fixpoint skip_loop (fuel : nat) (q : t) (to sequence : Z) : outcome t :=
  match fuel with
  | O => Fault OutOfFuel
  | S fuel =>
      if sequence <=? to then
        slot ← slot_at q sequence;
        q ← (if decide (state slot = Empty)
             then q ← set_slot q sequence (mkSlot (payload slot) Skipped);
                  Ret (set_stats (add_unrecoverable 1) q)
             else Ret q);
        skip_loop fuel q to (u64 (sequence + 1))
      else Ret q
  end.

(** The range is narrower than the window, so one turn of the window is fuel
    enough for both loops. *)
Definition recover_range (e : E) (q : t) (from to : Z) : outcome (E * t) :=
  let q := set_stats (add_gaps 1) q in
  let q := set_stats (add_missing (u64 (to - from + 1))) q in
  '(e, q) ← (if connected q then request_loop (S (length (buffer_ q))) e q to from
             else Ret (e, q));
  q ← skip_loop (S (length (buffer_ q))) q to from;
  Ret (e, q).

(** ** Public operations *)

Definition clear_slot (s : Slot) : Slot := mkSlot (payload s) Empty.

(** [accept] from the window test on. *)
Definition accept_new (e : E) (q : t) (incoming : FeedMessage) : outcome (E * t) :=
  let sequence := sequence_number (message incoming) in
  if vlen (buffer_ q) <=? u64 (sequence - expected_ q) then
    let q := set_stats (add_overflows 1) q in
    let q := set_stats (add_unrecoverable (u64 (sequence - expected_ q))) q in
    let q := set_buffer (clear_slot <$> buffer_ q) q in
    q ← store (set_expected sequence q) incoming;
    Ret (e, q)
  else
    gap ← (if expected_ q <? sequence
           then slot ← slot_at q (expected_ q); Ret (bool_decide (state slot = Empty))
           else Ret false);
    q ← store q incoming;
    if gap : bool then recover_range e q (expected_ q) (u64 (sequence - 1)) else Ret (e, q).

Definition accept (e : E) (q : t) (incoming : FeedMessage) : outcome (E * t) :=
  let q := set_stats (add_accepted 1) q in
  let sequence := sequence_number (message incoming) in
  let q := if started_ q then q else set_started (set_expected sequence q) in
  if sequence <? expected_ q then Ret (e, set_stats (add_duplicates 1) q)
  else accept_new e q incoming.

Fixpoint next_loop (fuel : nat) (q : t) : outcome (t * option FeedMessage) :=
  match fuel with
  | O => Fault OutOfFuel
  | S fuel =>
      slot ← slot_at q (expected_ q);
      match state slot with
      | Empty => Ret (q, None)
      | Skipped =>
          q ← set_slot q (expected_ q) (mkSlot (payload slot) Empty);
          next_loop fuel (set_expected (u64 (expected_ q + 1)) q)
      | Filled =>
          q ← set_slot q (expected_ q) (mkSlot (payload slot) Empty);
          let q := set_expected (u64 (expected_ q + 1)) q in
          Ret (set_stats (add_delivered 1) q, Some (payload slot))
      end
  end.

(** Each turn empties a slot, so the window is empty before the fuel is. *)
Definition next_deliverable (q : t) : outcome (t * option FeedMessage) :=
  if started_ q then next_loop (S (length (buffer_ q))) q else Ret (q, None).

(** [while (sequencer.next_deliverable(deliverable))] *)
Fixpoint drain (fuel : nat) (q : t) : outcome (t * list FeedMessage) :=
  match fuel with
  | O => Fault OutOfFuel
  | S fuel =>
      '(q, out) ← next_deliverable q;
      match out with
      | None => Ret (q, [])
      | Some m => '(q, ms) ← drain fuel q; Ret (q, m :: ms)
      end
  end.
End with_env.
End Seq.
