(* ===== verification/SequenceInv.v ===== *)
(** * Invariants of the sequencer

    The slot of sequence number [s] is [buffer_[s % size]]; the numbers from
    [expected_] to [expected_ + size - 1] use every slot once. [wf] says that a
    filled slot of this window holds a message with that very number, and that
    every number given out or passed over is accounted for. *)

From S2P Require Import Prelude Message History SequenceManager.
Import Seq.

#[local] Open Scope Z_scope.
#[local] Open Scope llte_scope.

(** Numbers above are too close to 2^64 for the range arithmetic of
    [recover_range]: [start + kMaxRecoveryBatch] would wrap. *)
Definition top : Z := 2 ^ 64 - kMaxRecoveryBatch.

Definition size (q : t) : Z := vlen (buffer_ q).
Definition win (q : t) (s : Z) : option Slot := (buffer_ q)⟦s mod size q⟧.
Definition in_window (q : t) (s : Z) : Prop := expected_ q ≤ s < expected_ q + size q.
Definition put (q : t) (s : Z) (sl : Slot) : t := set_buffer ((buffer_ q)⟦s mod size q := sl⟧) q.

(** ** Slots *)

Section slots.
Context (q : t) (Hsize : 0 < size q).

Lemma slot_index s : 0 ≤ s mod size q < vlen (buffer_ q).
Proof using Hsize. by apply Z.mod_pos_bound. Qed.

Lemma slot_at_run s sl : win q s = Some sl → slot_at q s = Ret sl.
Proof using Hsize.
  unfold win, slot_at. intros Hw. fold (size q). rewrite umod_ok by lia. simpl. by apply load_Some.
Qed.

Lemma set_slot_run s sl : set_slot q s sl = Ret (put q s sl).
Proof using Hsize.
  unfold set_slot. fold (size q). rewrite umod_ok by lia. simpl.
  by rewrite assign_ok by apply slot_index.
Qed.

Lemma win_Some s : ∃ sl, win q s = Some sl.
Proof using Hsize. apply vget_is_Some, slot_index. Qed.

Lemma size_put s sl : size (put q s sl) = size q.
Proof. apply vlen_vset. Qed.

Lemma win_put_eq s sl : win (put q s sl) s = Some sl.
Proof using Hsize. unfold win. rewrite size_put. apply vget_vset_eq, slot_index. Qed.

Lemma win_put_ne s s' sl : s mod size q ≠ s' mod size q → win (put q s sl) s' = win q s'.
Proof. intros Hne. unfold win. rewrite size_put. by apply vget_vset_ne. Qed.

Lemma window_distinct s s' : in_window q s → in_window q s' → s ≠ s' → s mod size q ≠ s' mod size q.
Proof using Hsize.
  unfold in_window. intros Hs Hs' Hne. destruct (Z.lt_total s s') as [|[|]]; [|done|].
  - apply mod_window; lia.
  - apply not_eq_sym, mod_window; lia.
Qed.
End slots.

(** ** Counting skipped slots *)

Definition is_skipped (sl : Slot) : Prop := state sl = Skipped.
#[export] Instance is_skipped_dec sl : Decision (is_skipped sl).
Proof. unfold is_skipped. apply _. Defined.

Definition skipped (b : list Slot) : Z := vlen (filter is_skipped b).
Definition weight (sl : Slot) : Z := if decide (is_skipped sl) then 1 else 0.

Lemma weight_bounds sl : 0 ≤ weight sl ≤ 1.
Proof. unfold weight. case_decide; lia. Qed.

Lemma weight_not_skipped sl : state sl ≠ Skipped → weight sl = 0.
Proof. intros. unfold weight. by rewrite decide_False. Qed.

Lemma weight_skipped sl : state sl = Skipped → weight sl = 1.
Proof. intros. unfold weight. by rewrite decide_True. Qed.

Lemma skipped_app b b' : skipped (b ++ b') = skipped b + skipped b'.
Proof. unfold skipped. by rewrite filter_app, vlen_app. Qed.

Lemma skipped_cons sl b : skipped (sl :: b) = weight sl + skipped b.
Proof. unfold skipped, weight. rewrite filter_cons. case_decide; [rewrite vlen_cons|]; lia. Qed.

Lemma skipped_put b i old new :
  b⟦i⟧ = Some old → skipped (b⟦i := new⟧) = skipped b - weight old + weight new.
Proof.
  unfold vget, vset. case_match; [|done]. intros Hi.
  rewrite (insert_take_drop _ _ _ (lookup_lt_Some _ _ _ Hi)).
  pose proof (take_drop_middle _ _ _ Hi) as Hm.
  rewrite <- Hm at 3. rewrite !skipped_app, !skipped_cons. lia.
Qed.

Lemma skipped_nonneg b : 0 ≤ skipped b.
Proof. apply vlen_nonneg. Qed.

Lemma skipped_cleared b : skipped (clear_slot <$> b) = 0.
Proof.
  induction b as [|sl b IH]; [done|]. by rewrite fmap_cons, skipped_cons, IH.
Qed.

(** *** Slots in use *)

Definition held (sl : Slot) : Z := if decide (state sl = Empty) then 0 else 1.
Definition occupied (b : list Slot) : Z := total held b.

Lemma held_bounds sl : 0 ≤ held sl ≤ 1.
Proof. unfold held. case_decide; lia. Qed.

Lemma held_empty sl : state sl = Empty → held sl = 0.
Proof. intros. unfold held. by rewrite decide_True. Qed.

Lemma held_nonempty sl : state sl ≠ Empty → held sl = 1.
Proof. intros. unfold held. by rewrite decide_False. Qed.

Lemma occupied_bounds b : 0 ≤ occupied b ≤ vlen b.
Proof.
  assert (vlen b * 0 ≤ occupied b ≤ vlen b * 1); [|lia]. apply total_bounds, Forall_forall. intros sl _. apply held_bounds.
Qed.

Lemma occupied_cleared b : occupied (clear_slot <$> b) = 0.
Proof. unfold occupied. rewrite total_fmap. induction b as [|sl b IH]; [done|]. cbn [total foldr]. by rewrite held_empty. Qed.

(** ** The invariant *)

Section invariant.
Context (Pub : MarketMessage → Prop).

(** A slot of the window that stands for number [s]. *)
Record good (s : Z) (sl : Slot) : Prop := {
  gd_number : state sl = Filled → sequence_number (message (payload sl)) = s;
  gd_pub : state sl = Filled → Pub (message (payload sl));
  gd_top : state sl ≠ Empty → s < top
}.

(** [D] messages have been delivered; [first] is the number of the first
    message accepted, if there was one. No number is counted unrecoverable more than
    twice: when its slot is skipped, and when a jump goes over it. *)
Record wf (first : option Z) (D : Z) (q : t) : Prop := {
  wf_size : 0 < size q < 2 ^ 64;
  wf_expected : 0 ≤ expected_ q ≤ top;
  wf_started : started_ q = bool_decide (is_Some first);
  wf_slots s sl : in_window q s → win q s = Some sl → good s sl;
  wf_fresh sl : started_ q = false → sl ∈ buffer_ q → state sl = Empty;
  wf_delivered : delivered (stats_ q) = u64 D;
  wf_account : ∃ U, unrecoverable (stats_ q) = u64 U ∧ 0 ≤ U ∧ (first = None → U = 0) ∧
    ∀ f, first = Some f → expected_ q - f + skipped (buffer_ q) ≤ D + U ∧
      U ≤ 2 * (expected_ q - f) + occupied (buffer_ q);
  wf_nonneg : 0 ≤ D
}.

Lemma good_empty s sl : state sl = Empty → good s sl.
Proof. intros H. split; congruence. Qed.

(** Statistics that the invariant does not speak of. *)
Definition stats_frame (f : Stats → Stats) : Prop :=
  ∀ s, delivered (f s) = delivered s ∧ unrecoverable (f s) = unrecoverable s.

Lemma wf_stats first D f q : stats_frame f → wf first D q → wf first D (set_stats f q).
Proof.
  intros Hf [H1 H2 H3 H4 H5 H6 H7 H8]. destruct (Hf (stats_ q)) as [Hd Hu].
  split; simpl; try done; [congruence|]. by rewrite Hu.
Qed.

(** The slot of a window number changes, and is not skipped more than before. *)
Lemma wf_put first D q s old sl :
  wf first D q → in_window q s → win q s = Some old → good s sl → weight sl ≤ weight old → state sl ≠ Empty →
  started_ q = true → wf first D (put q s sl).
Proof.
  intros [Hsize Hexp Hst Hgood Hfresh Hdel (U & HU & HU0 & Hnone & Hacc) HD] Hs Hold Hsl Hw Hfull Hstarted.
  split; simpl; try done.
  - by rewrite size_put.
  - intros s' sl' Hs'. change (in_window q s') with (expected_ q ≤ s' < expected_ q + size q) in *.
    unfold in_window in Hs'. rewrite size_put in Hs'. simpl in Hs'.
    destruct (decide (s = s')) as [<-|Hne].
    + rewrite win_put_eq by lia. by intros [= <-].
    + rewrite win_put_ne by (apply window_distinct; unfold in_window; lia || done). by apply Hgood.
  - congruence.
  - exists U. do 3 (split; [done|]). intros f Hf. specialize (Hacc f Hf).
    rewrite (skipped_put _ _ old) by done. unfold occupied in *. rewrite (total_vset _ _ _ old) by done.
    rewrite (held_nonempty sl) by done. pose proof (held_bounds old). lia.
Qed.

(** A number is given up: one more skipped slot, one more unrecoverable. *)
Lemma wf_skip first D q s old :
  wf first D q → in_window q s → win q s = Some old → state old = Empty → s < top →
  started_ q = true →
  wf first D (set_stats (add_unrecoverable 1) (put q s (mkSlot (payload old) Skipped))).
Proof.
  intros [Hsize Hexp Hst Hgood Hfresh Hdel (U & HU & HU0 & Hnone & Hacc) HD] Hs Hold Hemp Htop Hstarted.
  split; simpl; try done.
  - change (0 < size (put q s (mkSlot (payload old) Skipped)) < 2 ^ 64). by rewrite size_put.
  - intros s' sl' Hs'. unfold in_window in Hs'.
    change (size (set_stats _ ?q')) with (size q') in Hs'. rewrite size_put in Hs'. simpl in Hs'.
    change (win (set_stats _ ?q') s') with (win q' s').
    destruct (decide (s = s')) as [<-|Hne].
    + rewrite win_put_eq by lia. intros [= <-]. split; simpl; done.
    + rewrite win_put_ne by (apply window_distinct; unfold in_window; lia || done). by apply Hgood.
  - congruence.
  - exists (U + 1). split; [by rewrite HU; unfold u64; rewrite Zplus_mod_idemp_l|]. split; [lia|].
    split; [intros ->; by rewrite bool_decide_false in Hst; [congruence|intros []]|].
    intros f Hf. specialize (Hacc f Hf). rewrite (skipped_put _ _ old) by done.
    unfold occupied in *. rewrite (total_vset _ _ _ old), (held_empty old), (held_nonempty (mkSlot (payload old) Skipped)) by done.
    pose proof (weight_bounds old). pose proof (weight_bounds (mkSlot (payload old) Skipped)). lia.
Qed.

(** The first message fixes where the stream starts. *)
Lemma wf_start D q s :
  wf None D q → 0 ≤ s < top → wf (Some s) D (set_started (set_expected s q)).
Proof.
  intros [Hsize Hexp Hst Hgood Hfresh Hdel (U & HU & HU0 & Hnone & Hacc) HD] Hs.
  rewrite bool_decide_false in Hst by (by intros []).
  assert (skipped (buffer_ q) = 0) as Hsk.
  { unfold skipped. assert (filter is_skipped (buffer_ q) = []) as ->; [|done].
    apply filter_drop. intros sl Hsl Hk.
    specialize (Hfresh sl Hst Hsl). unfold is_skipped in Hk. congruence. }
  split; simpl; try done.
  - lia.
  - intros s' sl _ Hw. apply good_empty. apply (Hfresh sl Hst). by apply vget_elem_of in Hw.
  - exists U. do 2 (split; [done|]). split; [done|]. intros f [= <-]. rewrite Hsk, (Hnone eq_refl).
    pose proof (occupied_bounds (buffer_ q)). lia.
Qed.

(** A number beyond the window: everything before it is given up. *)
Lemma wf_resync first D q s :
  wf first D q → started_ q = true → expected_ q + size q ≤ s < top →
  wf first D (set_expected s (set_buffer (clear_slot <$> buffer_ q)
    (set_stats (add_unrecoverable (s - expected_ q)) q))).
Proof.
  intros [Hsize Hexp Hst Hgood Hfresh Hdel (U & HU & HU0 & Hnone & Hacc) HD] Hstarted Hs.
  split; simpl; try done.
  - unfold size, vlen in *. simpl. by rewrite length_fmap.
  - lia.
  - intros s' sl _ Hw. apply good_empty. apply vget_elem_of in Hw. simpl in Hw.
    apply list_elem_of_fmap in Hw as (sl' & -> & _). done.
  - congruence.
  - exists (U + (s - expected_ q)). split; [by rewrite HU; unfold u64; rewrite Zplus_mod_idemp_l|].
    split; [lia|]. split; [intros ->; by rewrite bool_decide_false in Hst; [congruence|intros []]|].
    intros f Hf. specialize (Hacc f Hf). rewrite skipped_cleared, occupied_cleared.
    pose proof (skipped_nonneg (buffer_ q)). pose proof (occupied_bounds (buffer_ q)). unfold size in *. lia.
Qed.

(** [expected_] moves past its slot, which is emptied: [d] is 1 for a message
    handed out and 0 for a number skipped. *)
Lemma wf_advance first D q sl d f :
  wf first D q → started_ q = true → win q (expected_ q) = Some sl → state sl ≠ Empty →
  (state sl = Skipped ∧ d = 0 ∨ state sl = Filled ∧ d = 1) →
  delivered (f (stats_ q)) = u64 (D + d) →
  unrecoverable (f (stats_ q)) = unrecoverable (stats_ q) →
  wf first (D + d) (set_stats f (set_expected (u64 (expected_ q + 1))
    (put q (expected_ q) (mkSlot (payload sl) Empty)))).
Proof.
  intros Hwf Hstarted Hsl Hne Hd Hfd Hfu.
  pose proof (wf_slots _ _ _ Hwf (expected_ q) sl) as Hg.
  destruct Hwf as [Hsize Hexp Hst Hgood Hfresh Hdel (U & HU & HU0 & Hnone & Hacc) HD].
  assert (expected_ q < top) as Htop.
  { apply (gd_top _ _ (Hg ltac:(unfold in_window; lia) Hsl)). done. }
  rewrite (u64_small (expected_ q + 1)) by (unfold top, kMaxRecoveryBatch in *; lia).
  split; simpl; try done.
  - change (0 < size (put q (expected_ q) (mkSlot (payload sl) Empty)) < 2 ^ 64). by rewrite size_put.
  - lia.
  - intros s' sl' Hs'. unfold in_window in Hs'. simpl in Hs'.
    change (size (set_stats _ (set_expected _ ?q'))) with (size q') in Hs'. rewrite size_put in Hs'.
    change (win (set_stats _ (set_expected _ ?q')) s') with (win q' s').
    destruct (decide (s' mod size q = expected_ q mod size q)) as [E|Hne'].
    + unfold win. rewrite size_put, E. simpl. rewrite vget_vset_eq by (apply slot_index; lia).
      intros [= <-]. by apply good_empty.
    + rewrite win_put_ne by done. apply Hgood. unfold in_window.
      destruct (decide (s' = expected_ q + size q)) as [->|]; [|lia]. exfalso. apply Hne'.
      rewrite <- (Z.mul_1_l (size q)) at 1. by rewrite Z_mod_plus_full.
  - congruence.
  - exists U. split; [congruence|]. do 2 (split; [done|]). intros f0 Hf0. specialize (Hacc f0 Hf0).
    rewrite (skipped_put _ _ sl) by done. unfold occupied in *.
    rewrite (total_vset _ _ _ sl), (held_nonempty sl), (held_empty (mkSlot (payload sl) Empty)) by done. rewrite (weight_not_skipped (mkSlot _ Empty)) by done.
    destruct Hd as [[Hk ->]|[Hk ->]];
      [rewrite (weight_skipped sl) by done|rewrite (weight_not_skipped sl) by congruence]; lia.
  - destruct Hd as [[_ ->]|[_ ->]]; lia.
Qed.
End invariant.
