(* ===== verification/SequenceCorrect.v ===== *)
(** * The operations of the sequencer preserve its invariant

    Stated against what the environment promises ([EnvLaws]: an answered request
    brings published messages only), for any environment that keeps it. *)

From S2P Require Import Prelude Message History SequenceManager SequenceInv.
Import Seq.

#[local] Open Scope Z_scope.
#[local] Open Scope llte_scope.

(** ** What the environment promises *)

(** The requests the sequencer makes. *)
Definition request_ok (a b : Z) : Prop := 0 ≤ a ≤ b ∧ b < top ∧ b - a < kMaxRecoveryBatch.

(** [EI] holds of the environment between calls; an answer to a request holds
    published messages only. *)
Class EnvLaws (E : Type) {env : SeqEnv E} (EI : E → Prop) (Pub : MarketMessage → Prop) : Prop := {
  env_request_inv e a b : EI e → request_ok a b → EI (env_request e a b).1;
  env_request_pub e a b ms :
    EI e → request_ok a b → (env_request e a b).2 = Some ms → Forall Pub ms;
  env_now_inv e : EI e → EI (env_now e).1;
  env_pub_number m : Pub m → 0 ≤ sequence_number m < top
}.

(** Recovery that always has every number from [lo] to [hi]. *)
Class EnvComplete (E : Type) {env : SeqEnv E} (EI : E → Prop) (lo hi : Z) : Prop :=
  env_complete e a b : EI e → request_ok a b → lo ≤ a → b ≤ hi →
    ∃ ms, (env_request e a b).2 = Some ms ∧
      ∀ s, a ≤ s ≤ b → ∃ m, m ∈ ms ∧ sequence_number m = s.

(** ** Frames *)

Definition nonempty (q : t) (s : Z) : Prop := ∃ sl, win q s = Some sl ∧ state sl ≠ Empty.
Definition skipped_at (q : t) (s : Z) : Prop := ∃ sl, win q s = Some sl ∧ state sl = Skipped.

(** [q'] has the window of [q], with no slot emptied; slots newly skipped only
    where [P] allows it. *)
Record ext (P : Z → Prop) (q q' : t) : Prop := {
  ex_size : size q' = size q;
  ex_expected : expected_ q' = expected_ q;
  ex_started : started_ q' = started_ q;
  ex_connected : connected q' = connected q;
  ex_kept s : in_window q s → nonempty q s → nonempty q' s;
  ex_skips s : in_window q s → skipped_at q' s → skipped_at q s ∨ P s
}.

Lemma ext_refl P q : ext P q q.
Proof. split; auto. Qed.

Lemma ext_window P q q' : ext P q q' → ∀ s, in_window q' s ↔ in_window q s.
Proof. intros [] s. unfold in_window. by rewrite ex_size0, ex_expected0. Qed.

Lemma ext_trans P q1 q2 q3 : ext P q1 q2 → ext P q2 q3 → ext P q1 q3.
Proof.
  intros H1 H2. pose proof (ext_window _ _ _ H1) as Hw. destruct H1, H2. split; try congruence.
  - intros s Hs Hn. apply ex_kept1; [by apply Hw|auto].
  - intros s Hs Hn. destruct (ex_skips1 s) as [?|?]; [by apply Hw|done|auto|auto].
Qed.

Lemma ext_weaken (P P' : Z → Prop) q q' : (∀ s, P s → P' s) → ext P q q' → ext P' q q'.
Proof. intros HP []. split; try done. intros s Hs Hk. destruct (ex_skips0 s Hs Hk); auto. Qed.

Definition never (s : Z) : Prop := False.

Lemma ext_stats P f q : ext P q (set_stats f q).
Proof. split; auto. Qed.

Lemma empty_or q s : 0 < size q → (∃ sl, win q s = Some sl ∧ state sl = Empty) ∨ nonempty q s.
Proof.
  intros Hq. destruct (win_Some q Hq s) as [sl Hsl].
  destruct (decide (state sl = Empty)); [left|right]; by exists sl.
Qed.

Lemma ext_put (P : Z → Prop) q s old sl :
  0 < size q → in_window q s → win q s = Some old → state sl ≠ Empty →
  (state sl = Skipped → P s) → ext P q (put q s sl).
Proof.
  intros Hq Hs Hold Hne HP. split; try done; [apply size_put|..].
  - intros s' Hs' (sl' & Hsl' & Hne'). destruct (decide (s = s')) as [<-|Hd].
    + exists sl. by rewrite win_put_eq.
    + exists sl'. by rewrite win_put_ne by (by apply window_distinct).
  - intros s' Hs' (sl' & Hsl' & Hsk). destruct (decide (s = s')) as [<-|Hd].
    + rewrite win_put_eq in Hsl' by done. injection Hsl' as <-. auto.
    + rewrite win_put_ne in Hsl' by (by apply window_distinct). left. by exists sl'.
Qed.

Section ops.
Context {E : Type} `{Henv : EnvLaws E EI Pub}.
Implicit Types (e : E) (q : t) (first : option Z) (D s : Z).

(** ** [store] and the recovery loops *)

Lemma fill_spec first D q s old sl :
  wf Pub first D q → started_ q = true → in_window q s → win q s = Some old →
  good Pub s sl → state sl = Filled →
  wf Pub first D (put q s sl) ∧ ext never q (put q s sl) ∧ nonempty (put q s sl) s.
Proof using.
  intros Hwf Hst Hs Hold Hgood Hfill. pose proof (wf_size _ _ _ _ Hwf) as Hq. split; [|split].
  - eapply wf_put; try done; [|congruence]. rewrite (weight_not_skipped sl) by congruence. apply weight_bounds.
  - eapply ext_put; try done; [lia|congruence..].
  - exists sl. rewrite win_put_eq by lia. split; [done|congruence].
Qed.

Lemma good_message s m t0 t1 r :
  Pub m → sequence_number m = s → good Pub s (mkSlot (mkFeed m t0 t1 r) Filled).
Proof using Henv.
  intros Hp <-. pose proof (env_pub_number m Hp). split; simpl; try done. lia.
Qed.

Lemma store_spec first D q inc :
  let s := sequence_number (message inc) in
  wf Pub first D q → started_ q = true → Pub (message inc) → in_window q s →
  ∃ q', store q inc = Ret q' ∧ wf Pub first D q' ∧ ext never q q' ∧ nonempty q' s.
Proof using Henv.
  intros s Hwf Hst Hp Hs. pose proof (wf_size _ _ _ _ Hwf) as Hq. unfold store. fold s.
  destruct (win_Some q ltac:(lia) s) as [old Hold].
  rewrite (slot_at_run q ltac:(lia) _ _ Hold). simpl. case_decide as Hf.
  - eexists. split; [done|]. split; [apply wf_stats; done|]. split; [apply ext_stats|].
    exists old. split; [done|congruence].
  - rewrite set_slot_run by lia. eexists. split; [done|].
    destruct inc as [m t0 t1 r]. eapply fill_spec; try done. by apply good_message.
Qed.

Lemma recover_messages_spec first D ms arrived : ∀ e q,
  wf Pub first D q → started_ q = true → EI e → Forall Pub ms →
  ∃ e' q', recover_messages e q arrived ms = Ret (e', q') ∧ EI e' ∧ wf Pub first D q' ∧
    ext never q q' ∧ ∀ m, m ∈ ms → in_window q (sequence_number m) → nonempty q' (sequence_number m).
Proof using Henv.
  induction ms as [|m ms IH]; intros e q Hwf Hst He Hpub.
  { exists e, q. split; [done|]. split; [done|]. split; [done|]. split; [apply ext_refl|].
    intros m Hm. by apply elem_of_nil in Hm. }
  apply Forall_cons in Hpub as [Hm Hpub]. pose proof (wf_size _ _ _ _ Hwf) as Hq.
  pose proof (wf_expected _ _ _ _ Hwf) as Hexp. pose proof (env_pub_number m Hm) as Hnum.
  unfold top, kMaxRecoveryBatch in *. cbn [recover_messages]. fold (size q).
  assert (∀ q1, ext never q q1 → (in_window q (sequence_number m) → nonempty q1 (sequence_number m)) →
    wf Pub first D q1 → ∀ e1, EI e1 →
    ∃ e' q', recover_messages e1 q1 arrived ms = Ret (e', q') ∧ EI e' ∧ wf Pub first D q' ∧
      ext never q q' ∧ ∀ m0, m0 ∈ m :: ms → in_window q (sequence_number m0) → nonempty q' (sequence_number m0))
    as Hrest.
  { intros q1 Hx Hhere Hwf1 e1 He1.
    destruct (IH e1 q1 Hwf1 ltac:(by rewrite (ex_started _ _ _ Hx)) He1 Hpub)
      as (e' & q' & Hrun & He' & Hwf' & Hx' & Hall).
    exists e', q'. split; [done|]. split; [done|]. split; [done|]. split; [by eapply ext_trans|].
    intros m0 [->|Hm0]%elem_of_cons Hin.
    - apply (ex_kept _ _ _ Hx'); [by apply (ext_window _ _ _ Hx)|auto].
    - apply Hall; [done|]. by apply (ext_window _ _ _ Hx). }
  destruct (Z.ltb_spec (sequence_number m) (expected_ q)) as [Hlt|Hge]; cbn [orb].
  { apply Hrest; [apply ext_refl| |done..]. unfold in_window. lia. }
  rewrite u64_small by lia. destruct (Z.leb_spec (size q) (sequence_number m - expected_ q)).
  { apply Hrest; [apply ext_refl| |done..]. unfold in_window. lia. }
  assert (in_window q (sequence_number m)) as Hin by (unfold in_window; lia).
  destruct (win_Some q ltac:(lia) (sequence_number m)) as [old Hold].
  rewrite (slot_at_run q ltac:(lia) _ _ Hold). returns. case_decide as Hf.
  { apply Hrest; [apply ext_refl| |done..]. intros _. exists old. split; [done|congruence]. }
  pose proof (env_now_inv e He) as He1. destruct (env_now e) as [e1 now].
  rewrite set_slot_run by lia. returns.
  destruct (fill_spec first D q (sequence_number m) old (mkSlot (mkFeed m arrived now true) Filled))
    as (Hwf1 & Hx1 & Hn1); [done..|by apply good_message|done|].
  apply Hrest; [eapply ext_trans; [done|apply ext_stats]|done|by apply wf_stats|done].
Qed.

Lemma request_loop_spec first D to fuel : ∀ e q start,
  wf Pub first D q → started_ q = true → EI e →
  expected_ q ≤ start → to < expected_ q + size q → to < top →
  Z.max 0 (to + 1 - start) < Z.of_nat fuel →
  ∃ e' q', request_loop fuel e q to start = Ret (e', q') ∧ EI e' ∧ wf Pub first D q' ∧
    ext never q q' ∧
    (∀ lo hi, EnvComplete E EI lo hi → lo ≤ start → to ≤ hi →
       ∀ s, start ≤ s ≤ to → nonempty q' s).
Proof using Henv.
  induction fuel as [|fuel IH]; intros e q start Hwf Hst He Hlow Hhigh Htop Hfuel; [lia|].
  pose proof (wf_expected _ _ _ _ Hwf) as Hexp. pose proof (wf_size _ _ _ _ Hwf) as Hq.
  unfold top, kMaxRecoveryBatch in *. cbn [request_loop].
  destruct (Z.leb_spec start to) as [Hle|Hgt].
  2: { exists e, q. split; [done|]. split; [done|]. split; [done|]. split; [apply ext_refl|].
       intros. lia. }
  unfold kMaxRecoveryBatch. rewrite (u64_small (start + 1024)), (u64_small (start + 1024 - 1)) by lia.
  set (q0 := set_stats (add_requests 1) q). set (end_ := Z.min to (start + 1024 - 1)).
  assert (request_ok start end_) as Hreq.
  { unfold request_ok, top, kMaxRecoveryBatch. lia. }
  pose proof (env_request_inv e start end_ He Hreq) as He1.
  pose proof (env_request_pub e start end_) as Hpub.
  assert (∀ lo hi, EnvComplete E EI lo hi → lo ≤ start → to ≤ hi →
    ∃ ms, (env_request e start end_).2 = Some ms ∧
      ∀ s, start ≤ s ≤ end_ → ∃ m, m ∈ ms ∧ sequence_number m = s) as Hcomp.
  { intros lo hi Hc Hlo Hhi. apply (Hc e start end_ He Hreq); lia. }
  destruct (env_request e start end_) as [e1 [ms|]]; cbn [fst snd] in *.
  2: { exists e1, q0. split; [done|]. split; [done|]. split; [by apply wf_stats|].
       split; [apply ext_stats|]. intros lo hi Hc Hlo Hhi.
       destruct (Hcomp lo hi Hc Hlo Hhi) as (? & [=] & _). }
  pose proof (env_now_inv e1 He1) as He2. destruct (env_now e1) as [e2 arrived].
  destruct (recover_messages_spec first D ms arrived e2 q0) as (e3 & q3 & -> & He3 & Hwf3 & Hx3 & Hms);
    [by apply wf_stats|done|done|by apply (Hpub _ He Hreq)|]. returns.
  assert (ext never q q3) as Hx by (eapply ext_trans; [apply ext_stats|done]).
  destruct (IH e3 q3 (start + 1024)) as (e4 & q4 & Hrun & He4 & Hwf4 & Hx4 & Hall);
    rewrite ?(ex_size _ _ _ Hx), ?(ex_expected _ _ _ Hx), ?(ex_started _ _ _ Hx); try done; try lia.
  exists e4, q4. split; [done|]. split; [done|]. split; [done|]. split; [by eapply ext_trans|].
  intros lo hi Hc Hlo Hhi s Hs. destruct (Z.le_gt_cases s end_) as [Hse|Hse].
  - apply (ex_kept _ _ _ Hx4).
    { apply (ext_window _ _ _ Hx). unfold in_window. lia. }
    destruct (Hcomp lo hi Hc Hlo Hhi) as (? & [= <-] & Hcov).
    destruct (Hcov s ltac:(lia)) as (m & Hm & <-). apply (Hms m Hm).
    change (in_window q (sequence_number m)). unfold in_window. lia.
  - apply (Hall lo hi Hc ltac:(lia) Hhi). lia.
Qed.

Lemma skip_loop_spec first D to fuel : ∀ q s,
  wf Pub first D q → started_ q = true → expected_ q ≤ s → to < expected_ q + size q → to < top →
  Z.max 0 (to + 1 - s) < Z.of_nat fuel →
  ∃ q', skip_loop fuel q to s = Ret q' ∧ wf Pub first D q' ∧
    ext (λ s', s ≤ s' ≤ to ∧ ¬ nonempty q s') q q' ∧ ∀ s', s ≤ s' ≤ to → nonempty q' s'.
Proof using.
  induction fuel as [|fuel IH]; intros q s Hwf Hst Hlow Hhigh Htop Hfuel; [lia|].
  pose proof (wf_expected _ _ _ _ Hwf) as Hexp. pose proof (wf_size _ _ _ _ Hwf) as Hq.
  cbn [skip_loop]. destruct (Z.leb_spec s to) as [Hle|Hgt].
  2: { exists q. split; [done|]. split; [done|]. split; [apply ext_refl|]. intros. lia. }
  assert (in_window q s) as Hs by (unfold in_window; lia).
  destruct (win_Some q ltac:(lia) s) as [old Hold].
  rewrite (slot_at_run q ltac:(lia) _ _ Hold). returns.
  unfold top, kMaxRecoveryBatch in Htop. rewrite u64_small by lia.
  assert (∃ q1, (if decide (state old = Empty)
      then q ← set_slot q s (mkSlot (payload old) Skipped); Ret (set_stats (add_unrecoverable 1) q)
      else Ret q) = Ret q1 ∧ wf Pub first D q1 ∧
      ext (λ s', s' = s ∧ ¬ nonempty q s') q q1 ∧ nonempty q1 s) as (q1 & Hq1 & Hwf1 & Hx1 & Hn1).
  { case_decide as Hemp.
    - rewrite set_slot_run by lia. returns. eexists. split; [done|].
      split; [apply wf_skip; try done; unfold top, kMaxRecoveryBatch; lia|]. split.
      + eapply ext_trans; [|apply ext_stats]. eapply ext_put; try done; [lia|]. intros _.
        split; [done|]. intros (sl & Hsl & Hne). congruence.
      + exists (mkSlot (payload old) Skipped).
        split; [|done]. change (win (put q s (mkSlot (payload old) Skipped)) s = Some (mkSlot (payload old) Skipped)).
        apply win_put_eq. lia.
    - exists q. split; [done|]. split; [done|]. split; [apply ext_refl|]. by exists old. }
  rewrite Hq1. returns.
  destruct (IH q1 (s + 1)) as (q2 & Hrun & Hwf2 & Hx2 & Hall);
    rewrite ?(ex_size _ _ _ Hx1), ?(ex_expected _ _ _ Hx1), ?(ex_started _ _ _ Hx1);
    try done; unfold top, kMaxRecoveryBatch; try lia.
  exists q2. split; [done|]. split; [done|]. split.
  - eapply ext_trans; [eapply ext_weaken; [|done]; simpl; intros s' [-> ?]; split; [lia|done]|].
    eapply ext_weaken; [|done]. simpl. intros s' [Hr Hno]. split; [lia|]. intros Hne. apply Hno.
    apply (ex_kept _ _ _ Hx1); [unfold in_window; lia|done].
  - intros s' Hr. destruct (decide (s' = s)) as [->|]; [|apply Hall; lia].
    apply (ex_kept _ _ _ Hx2); [by apply (ext_window _ _ _ Hx1)|done].
Qed.

(** Recovery leaves no hole in the range, and skips nothing that a complete
    environment could supply. *)
Lemma recover_range_spec first D e q from to :
  wf Pub first D q → started_ q = true → EI e → expected_ q ≤ from ≤ to →
  to < expected_ q + size q - 1 → to < top →
  ∃ e' q', recover_range e q from to = Ret (e', q') ∧ EI e' ∧ wf Pub first D q' ∧
    ext (λ s, from ≤ s ≤ to) q q' ∧ (∀ s, from ≤ s ≤ to → nonempty q' s) ∧
    (∀ lo hi, connected q = true → EnvComplete E EI lo hi → lo ≤ from → to ≤ hi → ext never q q').
Proof using Henv.
  intros Hwf Hst He Hlow Hhigh Htop. unfold recover_range. pose proof (wf_size _ _ _ _ Hwf) as Hq.
  set (q0 := set_stats (add_missing _) _).
  assert (wf Pub first D q0) as Hwf0 by (by apply wf_stats, wf_stats).
  assert (ext never q q0) as Hx0 by (split; auto).
  assert (∃ e1 q1, (if connected q0 then request_loop (S (length (buffer_ q0))) e q0 to from
      else Ret (e, q0)) = Ret (e1, q1) ∧ EI e1 ∧ wf Pub first D q1 ∧ ext never q q1 ∧
      (∀ lo hi, connected q = true → EnvComplete E EI lo hi → lo ≤ from → to ≤ hi →
         ∀ s, from ≤ s ≤ to → nonempty q1 s)) as (e1 & q1 & Hrun & He1 & Hwf1 & Hx1 & Hall1).
  { destruct (connected q0) eqn:Hc.
    - destruct (request_loop_spec first D to (S (length (buffer_ q0))) e q0 from)
        as (e1 & q1 & Hrun & He1 & Hwf1 & Hx1 & Hall);
        rewrite ?(ex_size _ _ _ Hx0), ?(ex_expected _ _ _ Hx0); try done; try lia.
      { pose proof (ex_size _ _ _ Hx0). unfold size, vlen in *. lia. }
      exists e1, q1. split; [done|]. split; [done|]. split; [done|]. split; [by eapply ext_trans|].
      intros lo hi _. apply Hall.
    - exists e, q0. split; [done|]. split; [done|]. split; [done|]. split; [done|].
      intros lo hi Hc'. change (connected q0 = true) in Hc'. congruence. }
  rewrite Hrun. returns.
  destruct (skip_loop_spec first D to (S (length (buffer_ q1))) q1 from) as (q2 & Hrun2 & Hwf2 & Hx2 & Hall2);
    rewrite ?(ex_size _ _ _ Hx1), ?(ex_expected _ _ _ Hx1), ?(ex_started _ _ _ Hx1); try done; try lia.
  { pose proof (ex_size _ _ _ Hx1). unfold size, vlen in *. lia. }
  rewrite Hrun2. returns. exists e1, q2. split; [done|]. split; [done|].
  split; [done|]. split; [|split; [done|]].
  - eapply ext_trans; [by eapply ext_weaken; [|done]|]. eapply ext_weaken; [|done]. simpl. tauto.
  - intros lo hi Hc Hcomp Hlo Hhi. eapply ext_trans; [done|]. eapply ext_weaken; [|done].
    simpl. intros s [Hr Hno]. apply Hno. by apply (Hall1 lo hi).
Qed.

(** ** [accept] *)

(** Every number from [expected_] up to [n], exclusive, can be passed. *)
Definition covered q (n : Z) : Prop :=
  n ≤ expected_ q + size q ∧ ∀ s, expected_ q ≤ s < n → nonempty q s.

(** The consumer has taken all there was: nothing waits at [expected_]. *)
Definition drained q : Prop := started_ q = true → ¬ nonempty q (expected_ q).

Definition lossless q : Prop := ∀ s, in_window q s → ¬ skipped_at q s.

Lemma ext_never_lossless q q' : ext never q q' → lossless q → lossless q'.
Proof using.
  intros Hx Hl s Hs Hk. apply (ext_window _ _ _ Hx) in Hs.
  destruct (ex_skips _ _ _ Hx s Hs Hk) as [?|[]]. by apply (Hl s).
Qed.

Lemma fresh_lossless D q : wf Pub None D q → lossless q.
Proof using.
  intros Hwf s _ (sl & Hsl & Hk). pose proof (wf_started _ _ _ _ Hwf) as Hst.
  rewrite bool_decide_false in Hst by (by intros []). apply vget_elem_of in Hsl.
  pose proof (wf_fresh _ _ _ _ Hwf sl Hst Hsl). congruence.
Qed.

(** What [accept] guarantees about the state it leaves. *)
Record accepted_ok first D q (s : Z) e' q' : Prop := {
  ao_env : EI e';
  ao_wf : wf Pub first D q';
  ao_connected : connected q' = connected q;
  ao_size : size q' = size q;
  ao_mono : expected_ q ≤ expected_ q';
  ao_near : s - expected_ q < size q → expected_ q' = expected_ q;
  ao_covered : drained q ∨ covered q s → covered q' (s + 1);
  ao_lossless :
    s ≤ expected_ q ∨ (∃ lo hi, connected q = true ∧ EnvComplete E EI lo hi ∧
                         lo ≤ expected_ q ∧ s ≤ hi) →
    s - expected_ q < size q → lossless q → lossless q'
}.

Lemma accept_far first D e q inc :
  let s := sequence_number (message inc) in
  wf Pub first D q → started_ q = true → EI e → Pub (message inc) →
  expected_ q + size q ≤ s →
  ∃ q', accept_new e q inc = Ret (e, q') ∧ accepted_ok first D q s e q'.
Proof using Henv.
  intros s Hwf Hst He Hp Hfar. pose proof (env_pub_number _ Hp) as Hnum. fold s in Hnum.
  pose proof (wf_expected _ _ _ _ Hwf) as Hexp. pose proof (wf_size _ _ _ _ Hwf) as Hq.
  unfold top, kMaxRecoveryBatch in *. unfold accept_new. fold s. fold (size q).
  rewrite u64_small by lia. destruct (Z.leb_spec (size q) (s - expected_ q)); [|lia].
  cbn [expected_ set_stats]. rewrite u64_small by lia.
  set (q1 := set_expected s _).
  assert (wf Pub first D q1) as Hwf1.
  { apply (wf_resync Pub first D (set_stats (add_overflows 1) q)); simpl;
      [by apply wf_stats|done|unfold top, kMaxRecoveryBatch]. change (size (set_stats _ q)) with (size q). lia. }
  assert (size q1 = size q) as Hsz by (unfold size, vlen; simpl; by rewrite length_fmap).
  destruct (store_spec first D q1 inc) as (q' & -> & Hwf' & Hx & Hn); [done|done|done|..].
  { unfold in_window. simpl. fold s. lia. }
  returns. exists q'. split; [done|].
  pose proof (ex_expected _ _ _ Hx) as Hxe. pose proof (ex_size _ _ _ Hx) as Hxs. simpl in Hxe.
  split; try done; try lia.
  - by rewrite (ex_connected _ _ _ Hx).
  - intros _. split; [lia|]. intros s' Hs'. assert (s' = s) as -> by lia. done.
Qed.

Lemma accept_near first D e q inc :
  let s := sequence_number (message inc) in
  wf Pub first D q → started_ q = true → EI e → Pub (message inc) → in_window q s →
  ∃ e' q', accept_new e q inc = Ret (e', q') ∧ accepted_ok first D q s e' q'.
Proof using Henv.
  intros s Hwf Hst He Hp Hnear. pose proof (env_pub_number _ Hp) as Hnum. fold s in Hnum.
  pose proof (wf_expected _ _ _ _ Hwf) as Hexp. pose proof (wf_size _ _ _ _ Hwf) as Hq.
  unfold in_window in Hnear. unfold accept_new. fold s. fold (size q).
  rewrite u64_small by (unfold top, kMaxRecoveryBatch in *; lia).
  destruct (Z.leb_spec (size q) (s - expected_ q)); [lia|].
  destruct (store_spec first D q inc Hwf Hst Hp Hnear) as (q1 & Hstore & Hwf1 & Hx1 & Hn1).
  fold s in Hn1. pose proof (ex_expected _ _ _ Hx1) as Hxe. pose proof (ex_size _ _ _ Hx1) as Hxs.
  assert ((drained q ∨ covered q s → covered q s) → accepted_ok first D q s e q1) as Hplain.
  { intros Hcov. split; try done; try lia.
    - by rewrite (ex_connected _ _ _ Hx1).
    - intros Hcase. split; [lia|]. intros s' Hs'. rewrite Hxe in Hs'.
      destruct (decide (s' = s)) as [->|]; [done|].
      apply (ex_kept _ _ _ Hx1); [unfold in_window; lia|]. apply (proj2 (Hcov Hcase)). lia.
    - intros _ _. by apply ext_never_lossless. }
  destruct (Z.ltb_spec (expected_ q) s) as [Hlt|Hge].
  2: { rewrite Hstore. exists e, q1. split; [done|]. apply Hplain. intros _. split; [lia|].
       intros s' Hs'. lia. }
  destruct (win_Some q ltac:(lia) (expected_ q)) as [sl Hsl].
  rewrite (slot_at_run q ltac:(lia) _ _ Hsl). returns.
  case_bool_decide as Hemp.
  - rewrite Hstore. returns.
    rewrite u64_small by (unfold top, kMaxRecoveryBatch in *; lia).
    destruct (recover_range_spec first D e q1 (expected_ q1) (s - 1))
      as (e2 & q2 & Hrun & He2 & Hwf2 & Hx2 & Hall2 & Hloss2);
      rewrite ?Hxe, ?Hxs, ?(ex_started _ _ _ Hx1); try done; try lia.
    rewrite Hxe in Hrun. rewrite Hrun. exists e2, q2. split; [done|].
    pose proof (ex_expected _ _ _ Hx2). pose proof (ex_size _ _ _ Hx2).
    split; try done; try congruence; try lia.
    + by rewrite (ex_connected _ _ _ Hx2), (ex_connected _ _ _ Hx1).
    + intros _. split; [lia|]. intros s' Hs'. destruct (decide (s' = s)) as [->|].
      * apply (ex_kept _ _ _ Hx2); [unfold in_window; lia|done].
      * apply Hall2. lia.
    + intros [?|(lo & hi & Hc & Hcomp & Hlo & Hhi)] _ Hl; [lia|]. eapply ext_never_lossless; [|by eapply ext_never_lossless].
      apply (Hloss2 lo hi); [by rewrite (ex_connected _ _ _ Hx1)|done|lia|lia].
  - rewrite Hstore. exists e, q1. split; [done|]. apply Hplain. intros [Hdr|Hcov]; [|done].
    exfalso. apply (Hdr Hst). by exists sl.
Qed.

Lemma accept_spec f D e q inc :
  let s := sequence_number (message inc) in
  wf Pub (Some f) D q → EI e → Pub (message inc) →
  ∃ e' q', accept e q inc = Ret (e', q') ∧ accepted_ok (Some f) D q s e' q'.
Proof using Henv.
  intros s Hwf He Hp. unfold accept. pose proof (wf_started _ _ _ _ Hwf) as Hst.
  rewrite bool_decide_true in Hst by done. cbn [started_ set_stats]. rewrite Hst.
  set (q1 := set_stats (add_accepted 1) q). fold s.
  assert (wf Pub (Some f) D q1) as Hwf1 by (by apply wf_stats).
  pose proof (wf_size _ _ _ _ Hwf) as Hq. pose proof (env_pub_number _ Hp) as Hnum. fold s in Hnum.
  change (expected_ q1) with (expected_ q).
  destruct (Z.ltb_spec s (expected_ q)) as [Hlt|Hge].
  { exists e, (set_stats (add_duplicates 1) q1). split; [done|]. split; try done.
    - by apply wf_stats.
    - intros _. change (covered q (s + 1)). split; [lia|]. intros. lia. }
  assert (∀ e' q', accepted_ok (Some f) D q1 s e' q' → accepted_ok (Some f) D q s e' q') as Hq1.
  { intros e' q' []. by split. }
  destruct (Z.lt_ge_cases s (expected_ q + size q)) as [Hnear|Hfar].
  - destruct (accept_near (Some f) D e q1 inc) as (e' & q' & -> & Hok); try done; eauto.
  - destruct (accept_far (Some f) D e q1 inc) as (q' & -> & Hok); try done; eauto.
Qed.

(** The first message of all. *)
Lemma accept_first D e q inc :
  let s := sequence_number (message inc) in
  wf Pub None D q → EI e → Pub (message inc) →
  ∃ e' q', accept e q inc = Ret (e', q') ∧ EI e' ∧ wf Pub (Some s) D q' ∧
    connected q' = connected q ∧ size q' = size q ∧ expected_ q' = s ∧ covered q' (s + 1) ∧ lossless q'.
Proof using Henv.
  intros s Hwf He Hp. unfold accept. pose proof (wf_started _ _ _ _ Hwf) as Hst.
  rewrite bool_decide_false in Hst by (by intros []). cbn [started_ set_stats]. rewrite Hst.
  fold s. set (q1 := set_started _). pose proof (env_pub_number _ Hp) as Hnum. fold s in Hnum.
  assert (wf Pub (Some s) D q1) as Hwf1 by (by apply wf_start; [apply wf_stats|]).
  pose proof (wf_size _ _ _ _ Hwf) as Hq. change (expected_ q1) with s. rewrite Z.ltb_irrefl.
  assert (lossless q1) as Hl1.
  { intros s' _ (sl & Hsl & Hk). apply vget_elem_of in Hsl.
    pose proof (wf_fresh _ _ _ _ Hwf sl Hst Hsl). congruence. }
  pose proof (accept_near (Some s) D e q1 inc Hwf1 eq_refl He Hp) as Hn. fold s in Hn.
  destruct Hn as (e' & q' & -> & Hok).
  { unfold in_window. change (expected_ q1) with s. change (size q1) with (size q). lia. }
  exists e', q'. split; [done|]. destruct Hok as [H1 H2 H3 H4 H5 H6 H7 H8].
  change (expected_ q1) with s in *. change (size q1) with (size q) in *.
  split; [done|]. split; [done|]. split; [done|]. split; [done|].
  assert (expected_ q' = s) as Hexp by (apply H6; lia). split; [done|]. split.
  - apply H7. right. split; [change (expected_ q1) with s; change (size q1) with (size q); lia|].
    intros s'. change (expected_ q1) with s. lia.
  - apply H8; [by left|lia|done].
Qed.

(** ** [next_deliverable] *)

(** Nothing is held at [n] or beyond. *)
Definition quiet q (n : Z) : Prop := ∀ s, n ≤ s < expected_ q + size q → ¬ nonempty q s.

Section advance.
Context (q : t) (sl : Slot) (Hq : 0 < size q < 2 ^ 64) (Hexp : 0 ≤ expected_ q < top).
Context (f : Stats → Stats).
#[local] Abbreviation q2 := (set_stats f (set_expected (u64 (expected_ q + 1))
  (put q (expected_ q) (mkSlot (payload sl) Empty)))).

Lemma advance_expected : expected_ q2 = expected_ q + 1.
Proof using Hexp. simpl. apply u64_small. unfold top, kMaxRecoveryBatch in Hexp. lia. Qed.

Lemma advance_size : size q2 = size q.
Proof using. apply size_put. Qed.

Lemma advance_win s : expected_ q < s < expected_ q + size q → win q2 s = win q s.
Proof using Hq.
  intros Hs. change (win (put q (expected_ q) (mkSlot (payload sl) Empty)) s = win q s).
  apply win_put_ne, window_distinct; unfold in_window; lia.
Qed.

Lemma advance_covered n : covered q n → covered q2 n.
Proof using Hq Hexp.
  intros [Hn Hc]. unfold covered. rewrite advance_expected, advance_size. split; [lia|].
  intros s Hs. unfold nonempty. rewrite advance_win by lia. apply Hc. lia.
Qed.

Lemma advance_turn : ∃ sl', win q2 (expected_ q + size q) = Some sl' ∧ state sl' = Empty.
Proof using Hq.
  exists (mkSlot (payload sl) Empty). split; [|done].
  change (win (put q (expected_ q) (mkSlot (payload sl) Empty)) (expected_ q + size q) =
    Some (mkSlot (payload sl) Empty)).
  unfold win. rewrite size_put. simpl. rewrite <- (Z.mul_1_l (size q)) at 2.
  rewrite Z_mod_plus_full. apply vget_vset_eq, slot_index. lia.
Qed.

Lemma advance_quiet n : expected_ q < n → quiet q n → quiet q2 n.
Proof using Hq Hexp.
  intros Hn Hqt s. rewrite advance_expected, advance_size. intros Hs (sl' & Hsl' & Hne).
  destruct (decide (s = expected_ q + size q)) as [->|].
  - destruct advance_turn as (sl2 & Hsl2 & ?). congruence.
  - rewrite advance_win in Hsl' by lia. apply (Hqt s ltac:(lia)). by exists sl'.
Qed.

Lemma advance_lossless : lossless q → lossless q2.
Proof using Hq Hexp.
  intros Hl s Hs. unfold in_window in Hs. rewrite advance_expected, advance_size in Hs.
  unfold skipped_at. destruct (decide (s = expected_ q + size q)) as [->|Hne].
  - intros (sl' & Hsl' & Hk). destruct advance_turn as (sl2 & Hsl2 & ?). congruence.
  - rewrite advance_win by lia. apply Hl. unfold in_window. lia.
Qed.
End advance.

(** What a call of [next_deliverable] guarantees. *)
Record next_ok f D q q' (out : option FeedMessage) : Prop := {
  no_connected : connected q' = connected q;
  no_size : size q' = size q;
  no_mono : expected_ q ≤ expected_ q';
  no_covered n : covered q n → covered q' n;
  no_quiet n : quiet q n → quiet q' n ∧ ∀ m, out = Some m → sequence_number (message m) < n;
  no_lossless : lossless q → lossless q' ∧
    expected_ q' = match out with Some _ => expected_ q + 1 | None => expected_ q end;
  no_out : match out with
    | None => wf Pub (Some f) D q' ∧ drained q'
    | Some m => wf Pub (Some f) (D + 1) q' ∧ Pub (message m) ∧
        sequence_number (message m) = expected_ q' - 1 ∧ expected_ q ≤ sequence_number (message m)
    end
}.

Lemma quiet_beyond q sl n :
  0 < size q → win q (expected_ q) = Some sl → state sl ≠ Empty → quiet q n → expected_ q < n.
Proof using.
  intros Hq Hsl Hne Hqt. apply Z.nle_gt. intros Hle. apply (Hqt (expected_ q) ltac:(lia)). by exists sl.
Qed.

Section turn.
Context {f D : Z} {q : t} {sl : Slot} (Hwf : wf Pub (Some f) D q).
Context (Hsl : win q (expected_ q) = Some sl) (Hstate : state sl ≠ Empty).

Lemma turn_good : good Pub (expected_ q) sl.
Proof using Hwf Hsl.
  pose proof (wf_size _ _ _ _ Hwf). apply (wf_slots _ _ _ _ Hwf); [unfold in_window; lia|done].
Qed.

Lemma turn_top : 0 ≤ expected_ q < top.
Proof using Hwf Hsl Hstate.
  pose proof (wf_expected _ _ _ _ Hwf). split; [lia|]. by apply (gd_top _ _ _ turn_good).
Qed.

(** A filled slot is handed out. *)
Lemma next_filled :
  state sl = Filled →
  next_ok f D q (set_stats (add_delivered 1) (set_expected (u64 (expected_ q + 1))
    (put q (expected_ q) (mkSlot (payload sl) Empty)))) (Some (payload sl)).
Proof using Hwf Hsl Hstate.
  intros Hfilled. pose proof (wf_size _ _ _ _ Hwf) as Hq. pose proof turn_good as Hg.
  pose proof turn_top as Htop. pose proof (wf_started _ _ _ _ Hwf) as Hst.
  rewrite bool_decide_true in Hst by done. split.
  - done.
  - apply advance_size.
  - rewrite advance_expected; lia.
  - intros n. apply advance_covered; lia.
  - intros n Hqt. pose proof (quiet_beyond q sl n ltac:(lia) Hsl Hstate Hqt) as Hlt.
    split; [apply advance_quiet; lia || done|]. intros m [= <-]. by rewrite (gd_number _ _ _ Hg).
  - intros Hl. split; [apply advance_lossless; lia || done|]. apply advance_expected. lia.
  - split; [apply wf_advance; try done; [by right|]|].
    { simpl. rewrite (wf_delivered _ _ _ _ Hwf). apply Zplus_mod_idemp_l. }
    split; [by apply (gd_pub _ _ _ Hg)|]. rewrite (gd_number _ _ _ Hg) by done.
    rewrite advance_expected; lia.
Qed.

(** A skipped slot is passed over. *)
#[local] Abbreviation q2 := (set_stats Datatypes.id (set_expected (u64 (expected_ q + 1))
  (put q (expected_ q) (mkSlot (payload sl) Empty)))).

Lemma skip_wf : state sl = Skipped → wf Pub (Some f) D q2 ∧ skipped (buffer_ q2) = skipped (buffer_ q) - 1.
Proof using Hwf Hsl Hstate.
  intros Hsk. pose proof (wf_size _ _ _ _ Hwf). pose proof turn_top.
  pose proof (wf_started _ _ _ _ Hwf) as Hst. rewrite bool_decide_true in Hst by done. split.
  - rewrite <- (Z.add_0_r D). apply wf_advance; try done; [by left|].
    rewrite Z.add_0_r. apply (wf_delivered _ _ _ _ Hwf).
  - simpl. rewrite (skipped_put _ _ sl) by done. rewrite (weight_skipped sl) by done.
    rewrite weight_not_skipped by done. lia.
Qed.

Lemma next_skipped q' out : state sl = Skipped → next_ok f D q2 q' out → next_ok f D q q' out.
Proof using Hwf Hsl Hstate.
  intros Hsk [H1 H2 H3 H4 H5 H6 H7]. pose proof (wf_size _ _ _ _ Hwf). pose proof turn_top.
  assert (expected_ q2 = expected_ q + 1) as Hexp2 by (apply advance_expected; lia). split.
  - done.
  - rewrite H2. apply advance_size.
  - lia.
  - intros n Hn. apply H4. apply advance_covered; lia || done.
  - intros n Hqt. apply H5. apply advance_quiet; try lia; [|done].
    by eapply quiet_beyond; [lia|exact Hsl|done|].
  - intros Hl. exfalso. apply (Hl (expected_ q)); [unfold in_window; lia|by exists sl].
  - destruct out; [|done]. destruct H7 as (? & ? & ? & ?). repeat (split; [done|]). lia.
Qed.
End turn.

Lemma next_loop_spec f D fuel : ∀ q,
  wf Pub (Some f) D q → skipped (buffer_ q) < Z.of_nat fuel →
  ∃ q' out, next_loop fuel q = Ret (q', out) ∧ next_ok f D q q' out.
Proof using.
  induction fuel as [|fuel IH]; intros q Hwf Hfuel; [pose proof (skipped_nonneg (buffer_ q)); lia|].
  pose proof (wf_size _ _ _ _ Hwf) as Hq. cbn [next_loop].
  destruct (win_Some q ltac:(lia) (expected_ q)) as [sl Hsl].
  rewrite (slot_at_run q ltac:(lia) _ _ Hsl). returns.
  destruct (state sl) eqn:Hstate.
  - exists q, None. split; [done|]. split; try done. split; [done|].
    intros _ (sl' & Hsl' & Hne). congruence.
  - rewrite set_slot_run by lia. returns. eexists _, _. split; [done|].
    exact (next_filled Hwf Hsl ltac:(congruence) Hstate).
  - rewrite set_slot_run by lia. returns.
    destruct (skip_wf Hwf Hsl ltac:(congruence) Hstate) as [Hwf2 Hsk].
    destruct (IH _ Hwf2 ltac:(lia)) as (q' & out & Hrun & Hok).
    exists q', out. split; [exact Hrun|]. exact (next_skipped Hwf Hsl ltac:(congruence) q' out Hstate Hok).
Qed.

Lemma skipped_length (b : list Slot) : skipped b ≤ vlen b.
Proof using. unfold skipped, vlen. apply inj_le, length_filter. Qed.

Lemma next_spec f D q :
  wf Pub (Some f) D q → ∃ q' out, next_deliverable q = Ret (q', out) ∧ next_ok f D q q' out.
Proof using.
  intros Hwf. unfold next_deliverable. pose proof (wf_started _ _ _ _ Hwf) as Hst.
  rewrite bool_decide_true in Hst by done. rewrite Hst. apply next_loop_spec; [done|].
  pose proof (skipped_length (buffer_ q)). unfold vlen in *. lia.
Qed.

(** ** Draining *)

Definition seqs (ms : list FeedMessage) : list Z := (λ m, sequence_number (message m)) <$> ms.

(** Strictly increasing numbers from [lo] on, below [hi]. *)
Fixpoint increasing (lo : Z) (l : list Z) (hi : Z) : Prop :=
  match l with
  | [] => lo ≤ hi
  | x :: l => lo ≤ x ∧ increasing (x + 1) l hi
  end.

Lemma increasing_weaken lo lo' l hi : lo' ≤ lo → increasing lo l hi → increasing lo' l hi.
Proof using. destruct l; simpl; [lia|]. intros ? [? ?]. split; [lia|done]. Qed.

Lemma increasing_app lo l mid l' hi :
  increasing lo l mid → increasing mid l' hi → increasing lo (l ++ l') hi.
Proof using.
  revert lo. induction l as [|x l IH]; intros lo; simpl; [by apply increasing_weaken|].
  intros [? ?] ?. split; [done|]. by apply IH.
Qed.

Record drain_ok f D q q' (ms : list FeedMessage) : Prop := {
  dr_wf : wf Pub (Some f) (D + vlen ms) q';
  dr_drained : drained q';
  dr_connected : connected q' = connected q;
  dr_size : size q' = size q;
  dr_pub : Forall (λ m, Pub (message m)) ms;
  dr_order : increasing (expected_ q) (seqs ms) (expected_ q');
  dr_covered n : covered q n → n ≤ expected_ q';
  dr_lossless : lossless q → lossless q' ∧
    seqs ms = seqZ (expected_ q) (expected_ q' - expected_ q) ∧ expected_ q ≤ expected_ q'
}.

Lemma covered_drained q n : started_ q = true → covered q n → drained q → n ≤ expected_ q.
Proof using. intros Hst [_ Hc] Hd. apply Z.nlt_ge. intros Hlt. apply (Hd Hst), Hc. lia. Qed.

Lemma drain_spec f fuel : ∀ D q n,
  wf Pub (Some f) D q → quiet q n → Z.max 0 (n - expected_ q) < Z.of_nat fuel →
  ∃ q' ms, drain fuel q = Ret (q', ms) ∧ drain_ok f D q q' ms.
Proof using.
  induction fuel as [|fuel IH]; intros D q n Hwf Hqt Hfuel; [lia|]. cbn [drain].
  destruct (next_spec f D q Hwf) as (q1 & out & -> & [H1 H2 H3 H4 H5 H6 H7]).
  returns. destruct (H5 n Hqt) as [Hqt1 Hlt].
  destruct out as [m|].
  - destruct H7 as (Hwf1 & Hp & Hs & Hge). specialize (Hlt m eq_refl).
    destruct (IH (D + 1) q1 n Hwf1 Hqt1 ltac:(lia)) as (q2 & ms & -> & [G1 G2 G3 G4 G5 G6 G7 G8]).
    exists q2, (m :: ms). split; [done|]. split.
    + rewrite vlen_cons. by replace (D + (vlen ms + 1)) with (D + 1 + vlen ms) by lia.
    + done.
    + congruence.
    + congruence.
    + by constructor.
    + simpl. split; [lia|]. by replace (sequence_number (message m) + 1) with (expected_ q1) by lia.
    + intros n' Hn'. by apply G7, H4.
    + intros Hl. destruct (H6 Hl) as [Hl1 He1]. destruct (G8 Hl1) as (Hl2 & Hseq & Hle).
      split; [done|]. split; [|lia]. simpl. rewrite seqZ_cons by lia. f_equal; [lia|].
      rewrite Hseq. f_equal; lia.
  - destruct H7 as [Hwf1 Hd]. exists q1, []. split; [done|]. split; try done.
    + by rewrite Z.add_0_r.
    + intros n' Hn'. apply covered_drained; [|by apply H4|done].
      rewrite (wf_started _ _ _ _ Hwf1). done.
    + intros Hl. destruct (H6 Hl) as [Hl1 He1]. split; [done|]. rewrite He1, Z.sub_diag.
      split; [done|lia].
Qed.

Lemma quiet_all q : quiet q (expected_ q + size q).
Proof using. intros s Hs. lia. Qed.

Lemma drain_window f D q :
  wf Pub (Some f) D q → ∃ q' ms, drain (S (length (buffer_ q))) q = Ret (q', ms) ∧ drain_ok f D q q' ms.
Proof using.
  intros Hwf. eapply drain_spec; [done|apply quiet_all|]. unfold size, vlen. lia.
Qed.
End ops.
