(* ===== verification/SequenceProperties.v ===== *)
(** * What the sequencer guarantees

    The handler feeds the sequencer one datagram at a time: it accepts every
    message of the datagram, then takes out everything deliverable. The
    guarantees are about any number of such rounds. *)

From Stdlib Require Import Sorted.
From S2P Require Import Prelude Message History SequenceManager SequenceInv SequenceCorrect.
Import Seq.

#[local] Open Scope Z_scope.
#[local] Open Scope llte_scope.

(** ** Rounds *)

Section rounds.
Context {E : Type} `{SeqEnv E}.

(** [for (i = 0; i < header->count; ++i) sequencer.accept(...)] *)
Fixpoint accept_all (e : E) (q : t) (ms : list FeedMessage) : outcome (E * t) :=
  match ms with
  | [] => Ret (e, q)
  | m :: ms => '(e, q) ← accept e q m; accept_all e q ms
  end.

(** One datagram. The window bounds what there is to take out. *)
Definition round (e : E) (q : t) (ms : list FeedMessage) : outcome (E * t * list FeedMessage) :=
  '(e, q) ← accept_all e q ms;
  '(q, out) ← drain (S (length (buffer_ q))) q;
  Ret (e, q, out).

Fixpoint rounds (e : E) (q : t) (bs : list (list FeedMessage))
    : outcome (E * t * list FeedMessage) :=
  match bs with
  | [] => Ret (e, q, [])
  | b :: bs =>
      '(e, q, out) ← round e q b;
      '(e, q, outs) ← rounds e q bs;
      Ret (e, q, out ++ outs)
  end.
End rounds.

(** Datagrams carry consecutive numbers, and none starts further ahead than the
    window reaches from the highest number seen so far. *)
Definition batch_from (b : list FeedMessage) (s : Z) : Prop := consecutive s (message <$> b) ∧ b ≠ [].

Fixpoint near (window high : Z) (bs : list (list FeedMessage)) : Prop :=
  match bs with
  | [] => True
  | b :: bs => ∃ s, batch_from b s ∧ s + vlen b - 1 - high < window ∧
      near window (Z.max high (s + vlen b)) bs
  end.

(** One past the highest number of the datagrams. *)
Fixpoint high_mark (high : Z) (bs : list (list FeedMessage)) : Z :=
  match bs with
  | [] => high
  | b :: bs => high_mark (Z.max high (hd_or 0 (seqs b) + vlen b)) bs
  end.

(** ** Any feed *)

Section properties.
Context {E : Type} `{Henv : EnvLaws E EI Pub}.
Implicit Types (e : E) (q : t) (D : Z).

#[local] Abbreviation Pubs := (Forall (λ m, Pub (message m))).

Lemma make_wf cap conn : 0 < cap < 2 ^ 64 → wf Pub None 0 (make cap conn).
Proof using.
  intros Hc. split; simpl; try done.
  - unfold size. simpl. rewrite vlen_replicate. lia.
  - intros s sl _ Hw. apply good_empty. apply vget_replicate in Hw. by subst.
  - intros sl _ Hin. apply elem_of_replicate in Hin as [-> _]. done.
  - exists 0. done.
Qed.

Lemma accept_all_wf ms : ∀ f D e q,
  wf Pub (Some f) D q → EI e → Pubs ms →
  ∃ e' q', accept_all e q ms = Ret (e', q') ∧ EI e' ∧ wf Pub (Some f) D q' ∧
    size q' = size q ∧ connected q' = connected q ∧ expected_ q ≤ expected_ q'.
Proof using Henv.
  induction ms as [|m ms IH]; intros f D e q Hwf He Hp; simpl; [exists e, q; split; done|].
  apply Forall_cons in Hp as [Hm Hp].
  destruct (accept_spec f D e q m Hwf He Hm) as (e1 & q1 & -> & [H1 H2 H3 H4 H5 _ _ _]).
  returns.
  destruct (IH f D e1 q1 H2 H1 Hp) as (e2 & q2 & Hrun & He2 & Hwf2 & Hs & Hc & Hx).
  exists e2, q2. split; [done|]. split; [done|]. split; [done|]. split; [congruence|].
  split; [congruence|lia].
Qed.

(** A round of an already started stream. *)
Lemma round_wf f D e q b :
  wf Pub (Some f) D q → EI e → Pubs b →
  ∃ e' q' out, round e q b = Ret (e', q', out) ∧ EI e' ∧ wf Pub (Some f) (D + vlen out) q' ∧
    Pubs out ∧ increasing (expected_ q) (seqs out) (expected_ q') ∧ size q' = size q.
Proof using Henv.
  intros Hwf He Hp. unfold round.
  destruct (accept_all_wf b f D e q Hwf He Hp) as (e1 & q1 & -> & He1 & Hwf1 & Hs & Hc & Hx).
  returns.
  destruct (drain_window f D q1 Hwf1) as (q2 & out & -> & [G1 G2 G3 G4 G5 G6 G7 G8]).
  returns. exists e1, q2, out. split; [done|]. split; [done|]. split; [done|].
  split; [done|]. split; [by eapply increasing_weaken|congruence].
Qed.

Lemma rounds_wf bs : ∀ f D e q,
  wf Pub (Some f) D q → EI e → Forall Pubs bs →
  ∃ e' q' out, rounds e q bs = Ret (e', q', out) ∧ EI e' ∧ wf Pub (Some f) (D + vlen out) q' ∧
    Pubs out ∧ increasing (expected_ q) (seqs out) (expected_ q') ∧ size q' = size q.
Proof using Henv.
  induction bs as [|b bs IH]; intros f D e q Hwf He Hp; cbn [rounds].
  { exists e, q, []. split; [done|]. split; [done|]. rewrite Z.add_0_r. split; [done|].
    split; [done|]. split; [simpl; lia|done]. }
  apply Forall_cons in Hp as [Hb Hp].
  destruct (round_wf f D e q b Hwf He Hb) as (e1 & q1 & o1 & -> & He1 & Hwf1 & Hp1 & Hi1 & Hz1).
  returns.
  destruct (IH f _ e1 q1 Hwf1 He1 Hp) as (e2 & q2 & o2 & -> & He2 & Hwf2 & Hp2 & Hi2 & Hz2).
  returns. exists e2, q2, (o1 ++ o2). split; [done|]. split; [done|].
  rewrite vlen_app, Z.add_assoc. split; [done|]. split; [by apply Forall_app|].
  split; [|congruence]. unfold seqs. rewrite fmap_app. by eapply increasing_app.
Qed.

(** The round that brings the first message. *)
Lemma first_accept D e q m ms :
  wf Pub None D q → EI e → Pubs (m :: ms) →
  ∃ e1 q1, accept e q m = Ret (e1, q1) ∧ EI e1 ∧
    wf Pub (Some (sequence_number (message m))) D q1 ∧ connected q1 = connected q ∧
    size q1 = size q ∧ expected_ q1 = sequence_number (message m) ∧
    covered q1 (sequence_number (message m) + 1) ∧ lossless q1.
Proof using Henv.
  intros Hwf He [Hm _]%Forall_cons. by apply accept_first.
Qed.

(** ** Consecutive datagrams *)

Lemma increasing_above x lo l hi : x < lo → increasing lo l hi → Forall (Z.lt x) l.
Proof using.
  revert lo. induction l as [|z l IH]; intros lo Hlt; simpl; [constructor|]. intros [? Hi].
  constructor; [lia|]. apply (IH (z + 1)); [lia|done].
Qed.

Lemma increasing_sorted lo l hi : increasing lo l hi → StronglySorted Z.lt l.
Proof using.
  revert lo. induction l as [|x l IH]; intros lo; simpl; [constructor|]. intros [_ Hi].
  constructor; [by eapply IH|]. apply (increasing_above x (x + 1) l hi); [lia|done].
Qed.

Lemma increasing_bound lo l hi : increasing lo l hi → lo ≤ hi.
Proof using. revert lo. induction l as [|x l IH]; simpl; [done|]. intros lo [? ?%IH]. lia. Qed.

(** A complete recovery behind the window of [q], up to number [last]. *)
Definition backed q (last : Z) : Prop :=
  ∃ lo hi, connected q = true ∧ EnvComplete E EI lo hi ∧ lo ≤ expected_ q ∧ last ≤ hi.

Lemma accept_all_batch ms : ∀ f D e q s,
  wf Pub (Some f) D q → EI e → Pubs ms → consecutive s (message <$> ms) →
  (drained q ∧ ms ≠ [] ∨ covered q s) →
  ∃ e' q', accept_all e q ms = Ret (e', q') ∧ EI e' ∧ wf Pub (Some f) D q' ∧
    size q' = size q ∧ connected q' = connected q ∧ expected_ q ≤ expected_ q' ∧
    covered q' (s + vlen ms) ∧
    (s + vlen ms - 1 - expected_ q < size q → lossless q →
     backed q (s + vlen ms - 1) → lossless q' ∧ expected_ q' = expected_ q).
Proof using Henv.
  induction ms as [|m ms IH]; intros f D e q s Hwf He Hp Hcons Hcase; cbn [accept_all].
  { destruct Hcase as [[_ []]|Hcov]; [done|]. exists e, q. rewrite Z.add_0_r.
    repeat (split; [done|]). done. }
  apply Forall_cons in Hp as [Hm Hp]. rewrite fmap_cons in Hcons.
  apply consecutive_cons in Hcons as [Hs Hcons].
  destruct (accept_spec f D e q m Hwf He Hm) as (e1 & q1 & -> & [H1 H2 H3 H4 H5 H6 H7 H8]).
  rewrite Hs in *. returns.
  destruct (IH f D e1 q1 (s + 1) H2 H1 Hp Hcons) as (e2 & q2 & Hrun & He2 & Hwf2 & Hsz & Hc & Hx & Hcov & Hl).
  { right. apply H7. tauto. }
  exists e2, q2. split; [done|]. split; [done|]. split; [done|]. split; [congruence|].
  split; [congruence|]. split; [lia|]. rewrite vlen_cons. pose proof (vlen_nonneg ms). split.
  { by replace (s + (vlen ms + 1)) with (s + 1 + vlen ms) by lia. }
  intros Hnear Hless (lo & hi & Hcn & Hcomp & Hlo & Hhi).
  assert (expected_ q1 = expected_ q) as He1 by (apply H6; lia).
  destruct Hl as [Hl1 Hl2]; [lia|apply H8; [right; exists lo, hi; repeat split; done || lia|lia|done]| |].
  - exists lo, hi. repeat split; [congruence|done|lia|lia].
  - split; [done|congruence].
Qed.

(** After a round nothing up to the end of the datagram is still awaited. *)
Lemma round_batch f D e q b s :
  wf Pub (Some f) D q → EI e → Pubs b → batch_from b s → drained q →
  ∃ e' q' out, round e q b = Ret (e', q', out) ∧ EI e' ∧ wf Pub (Some f) (D + vlen out) q' ∧
    size q' = size q ∧ connected q' = connected q ∧ drained q' ∧ s + vlen b ≤ expected_ q' ∧
    expected_ q ≤ expected_ q' ∧
    (s + vlen b - 1 - expected_ q < size q → lossless q → backed q (s + vlen b - 1) →
     lossless q' ∧ seqs out = seqZ (expected_ q) (expected_ q' - expected_ q)).
Proof using Henv.
  intros Hwf He Hp [Hcons Hne] Hdr. unfold round.
  destruct (accept_all_batch b f D e q s Hwf He Hp Hcons) as
    (e1 & q1 & -> & He1 & Hwf1 & Hsz & Hc & Hx & Hcov & Hl); [by left|]. returns.
  destruct (drain_window f D q1 Hwf1) as (q2 & out & -> & [G1 G2 G3 G4 G5 G6 G7 G8]).
  returns. exists e1, q2, out. split; [done|]. split; [done|]. split; [done|].
  split; [congruence|]. split; [congruence|]. split; [done|].
  split; [by apply G7|]. assert (expected_ q1 ≤ expected_ q2) as Hmono.
  { apply increasing_bound in G6. done. }
  split; [lia|]. intros Hnear Hless Hback. destruct (Hl Hnear Hless Hback) as [Hl1 Heq].
  destruct (G8 Hl1) as (Hl2 & Hseq & _). split; [done|]. by rewrite Hseq, Heq.
Qed.

Lemma round_first D e q b s :
  wf Pub None D q → EI e → Pubs b → batch_from b s → s + vlen b - 1 - s < size q →
  ∃ e' q' out, round e q b = Ret (e', q', out) ∧ EI e' ∧ wf Pub (Some s) (D + vlen out) q' ∧
    size q' = size q ∧ connected q' = connected q ∧ drained q' ∧ s + vlen b ≤ expected_ q' ∧
    (backed (set_expected s q) (s + vlen b - 1) →
     lossless q' ∧ seqs out = seqZ s (expected_ q' - s)).
Proof using Henv.
  intros Hwf He Hp [Hcons Hne] Hnear. destruct b as [|m ms]; [done|]. unfold round.
  cbn [accept_all]. rewrite fmap_cons in Hcons. apply consecutive_cons in Hcons as [Hs Hcons].
  apply Forall_cons in Hp as [Hm Hp].
  destruct (accept_first D e q m Hwf He Hm) as (e1 & q1 & -> & He1 & Hwf1 & Hc1 & Hs1 & Hx1 & Hcov1 & Hl1).
  rewrite Hs in *. returns.
  destruct (accept_all_batch ms s D e1 q1 (s + 1) Hwf1 He1 Hp Hcons (or_intror Hcov1)) as
    (e2 & q2 & -> & He2 & Hwf2 & Hs2 & Hc2 & Hx2 & Hcov2 & Hl2). returns.
  destruct (drain_window s D q2 Hwf2) as (q3 & out & -> & [G1 G2 G3 G4 G5 G6 G7 G8]).
  returns. exists e2, q3, out. rewrite vlen_cons in *.
  replace (s + (vlen ms + 1)) with (s + 1 + vlen ms) in * by lia.
  split; [done|]. split; [done|]. split; [done|]. split; [congruence|]. split; [congruence|].
  split; [done|]. split; [by apply G7|]. intros (lo & hi & Hcn & Hcomp & Hlo & Hhi).
  destruct Hl2 as [Hl2 Heq]; [lia|done| |].
  { exists lo, hi. simpl in *. repeat split; [congruence|done|lia|lia]. }
  destruct (G8 Hl2) as (Hl3 & Hseq & _). split; [done|]. rewrite Hseq. f_equal; lia.
Qed.

Lemma batch_head b s : batch_from b s → hd_or 0 (seqs b) = s.
Proof using.
  intros [Hc Hne]. destruct b as [|m b]; [done|]. rewrite fmap_cons in Hc.
  by apply consecutive_cons in Hc as [? _].
Qed.

Lemma high_mark_le high bs : high ≤ high_mark high bs.
Proof using.
  revert high. induction bs as [|b bs IH]; intros high; simpl; [lia|].
  specialize (IH (Z.max high (hd_or 0 (seqs b) + vlen b))). lia.
Qed.

Lemma seqZ_split a m k : a ≤ m ≤ k → seqZ a (m - a) ++ seqZ m (k - m) = seqZ a (k - a).
Proof using.
  intros. replace (k - a) with ((m - a) + (k - m)) by lia. rewrite seqZ_app by lia.
  by replace (a + (m - a)) with m by lia.
Qed.

Lemma rounds_batches bs : ∀ f D e q high,
  wf Pub (Some f) D q → EI e → Forall Pubs bs → Forall (λ b, ∃ s, batch_from b s) bs →
  drained q → high ≤ expected_ q →
  ∃ e' q' out, rounds e q bs = Ret (e', q', out) ∧ high_mark high bs ≤ expected_ q' ∧
    expected_ q ≤ expected_ q' ∧
    (near (size q) high bs → lossless q → backed q (high_mark high bs - 1) →
     seqs out = seqZ (expected_ q) (expected_ q' - expected_ q)).
Proof using Henv.
  induction bs as [|b bs IH]; intros f D e q high Hwf He Hp Hb Hdr Hhigh; cbn [rounds high_mark near].
  { exists e, q, []. repeat (split; [done|]). intros _ _ _. by rewrite Z.sub_diag. }
  apply Forall_cons in Hp as [Hpb Hp]. apply Forall_cons in Hb as [[s Hbs] Hb].
  destruct (round_batch f D e q b s Hwf He Hpb Hbs Hdr) as
    (e1 & q1 & o1 & -> & He1 & Hwf1 & Hsz & Hc & Hdr1 & Hcov & Hmono & Hl).
  returns. rewrite (batch_head b s Hbs).
  destruct (IH f _ e1 q1 (Z.max high (s + vlen b)) Hwf1 He1 Hp Hb Hdr1 ltac:(lia)) as
    (e2 & q2 & o2 & -> & Hcov2 & Hmono2 & Hl2).
  returns. exists e2, q2, (o1 ++ o2). split; [done|]. split; [done|].
  split; [lia|]. intros (s' & Hbs' & Hnear & Hrest) Hless (lo & hi & Hcn & Hcomp & Hlo & Hhi).
  pose proof (batch_head b s' Hbs') as Es. rewrite (batch_head b s Hbs) in Es. subst s'.
  pose proof (high_mark_le (Z.max high (s + vlen b)) bs).
  destruct Hl as [Hl1 Hseq1]; [lia|done|exists lo, hi; repeat split; done || lia|].
  unfold seqs in *. rewrite fmap_app, Hseq1, Hl2; [apply seqZ_split; lia|by rewrite Hsz|done|].
  exists lo, hi. repeat split; [congruence|done|lia|lia].
Qed.
End properties.

(** ** Properties *)

(** An exchange's history as environment: requests are answered from a fixed
    list of messages, the clock stands still. *)
#[export] Instance list_env : SeqEnv (list MarketMessage) := {
  env_request h a b := (h, Some (filter (in_range a b) h));
  env_now h := (h, 0)
}.

Definition stock : list MarketMessage := numbered <$> [1; 2; 3; 4; 5; 6].
Definition in_stock (m : MarketMessage) : Prop := m ∈ stock.

Lemma in_stock_number m : in_stock m → 1 ≤ sequence_number m ≤ 6.
Proof.
  unfold in_stock, stock. intros Hm. apply list_elem_of_fmap in Hm as (n & -> & Hn).
  repeat (apply elem_of_cons in Hn as [->|Hn]; [simpl; lia|]). by apply elem_of_nil in Hn.
Qed.

#[export] Instance list_env_laws : EnvLaws (list MarketMessage) (λ h, h = stock) in_stock.
Proof.
  split.
  - done.
  - intros h a b ms -> _ [= <-]. apply Forall_forall. intros m Hm. by apply list_elem_of_filter in Hm as [_ ?].
  - done.
  - intros m Hm%in_stock_number. unfold top, kMaxRecoveryBatch. lia.
Qed.

#[export] Instance list_env_complete : EnvComplete (list MarketMessage) (λ h, h = stock) 1 6.
Proof.
  intros h a b -> _ Ha Hb. exists (filter (in_range a b) stock). split; [done|]. intros s Hs.
  exists (numbered s). split; [|done]. apply list_elem_of_filter. split; [unfold in_range; simpl; lia|].
  apply list_elem_of_fmap. exists s. split; [done|]. apply list_elem_of_In. simpl. lia.
Qed.

Definition live (n : Z) : FeedMessage := mkFeed (numbered n) 7 8 false.

(** Messages 1 and 2, then 5 (3 and 4 were lost), 5 again, and 6. *)
Definition lossy_feed : list (list FeedMessage) := [[live 1; live 2]; [live 5]; [live 5]; [live 6]].

Lemma lossy_feed_pub : Forall (Forall (λ m, in_stock (message m))) lossy_feed.
Proof. repeat constructor; apply (bool_decide_unpack _); vm_compute; done. Qed.

Ltac solve_batch :=
  split; [rewrite ?fmap_cons; repeat (apply consecutive_cons; split; [reflexivity|]);
          apply consecutive_nil|discriminate].

Lemma lossy_feed_batches : Forall (λ b, ∃ s, batch_from b s) lossy_feed.
Proof.
  unfold lossy_feed. repeat (apply Forall_cons; split); [exists 1|exists 5|exists 5|exists 6|done];
    solve_batch.
Qed.

(** Rounds before the first message do nothing; then the stream starts. *)
Lemma rounds_from_start {E} `{Henv : EnvLaws E EI Pub} bs : ∀ (e : E) (q : t),
  wf Pub None 0 q → EI e → Forall (Forall (λ m, Pub (message m))) bs →
  ∃ e' q' out, rounds e q bs = Ret (e', q', out) ∧
    Forall (λ m, Pub (message m)) out ∧ size q' = size q ∧
    match concat bs with
    | [] => wf Pub None 0 q' ∧ out = []
    | m :: _ => let f := sequence_number (message m) in
        wf Pub (Some f) (vlen out) q' ∧ increasing f (seqs out) (expected_ q')
    end.
Proof.
  induction bs as [|b bs IH]; intros e q Hwf He Hp; cbn [rounds].
  { exists e, q, []. repeat (split; [done|]). done. }
  apply Forall_cons in Hp as [Hpb Hp]. destruct b as [|m ms].
  - destruct (IH e q Hwf He Hp) as (e2 & q2 & o2 & Hrun & Hp2 & Hsz & Hc). exists e2, q2, o2.
    unfold round. cbn [accept_all mbind outcome_bind drain].
    unfold next_deliverable. rewrite (wf_started _ _ _ _ Hwf). cbn [bool_decide].
    rewrite bool_decide_false by (by intros []). returns. rewrite Hrun. done.
  - apply Forall_cons in Hpb as [Hm Hms]. unfold round. cbn [accept_all].
    destruct (accept_first 0 e q m Hwf He Hm) as (e1 & q1 & -> & He1 & Hwf1 & _ & Hz1 & Hx1 & _).
    returns.
    pose proof (round_wf _ _ _ _ ms Hwf1 He1 Hms) as (e2 & q2 & o2 & Hrun2 & He2 & Hwf2 & Hp2 & Hi2 & Hz2).
    unfold round in Hrun2.
    apply bind_Ret_inv in Hrun2 as ([e3 q3] & -> & Hrun2). returns.
    apply bind_Ret_inv in Hrun2 as ([q4 o4] & -> & [= <- <- <-]). returns.
    destruct (rounds_wf bs _ _ _ _ Hwf2 He2 Hp) as (e5 & q5 & o5 & -> & He5 & Hwf5 & Hp5 & Hi5 & Hz5).
    returns. exists e5, q5, (o4 ++ o5). split; [done|].
    split; [by apply Forall_app|]. split; [congruence|]. cbn [concat app]. rewrite vlen_app.
    split; [done|]. unfold seqs. rewrite fmap_app. eapply increasing_app; [|done].
    by rewrite <- Hx1.
Qed.

(** C7. Whatever the feed brings of messages numbered below 2^64 - 1024, in whatever
    order, with losses, repetitions and recovery that fails or succeeds, every call returns and what the
    sequencer delivers has strictly increasing sequence numbers (nothing twice,
    nothing out of order) and consists of messages that the exchange published,
    from the feed or from a retransmission. *)
Theorem sequencer_in_order {E} `{EnvLaws E EI Pub} (e : E) cap conn bs :
  0 < cap < 2 ^ 64 → EI e → Forall (Forall (λ m, Pub (message m))) bs →
  ∃ e' q' out, rounds e (make cap conn) bs = Ret (e', q', out) ∧
    Forall (λ m, Pub (message m)) out ∧ StronglySorted Z.lt (seqs out).
Proof.
  intros Hc He Hp.
  destruct (rounds_from_start bs e (make cap conn) (make_wf cap conn Hc) He Hp) as
    (e' & q' & out & Hrun & Hpub & _ & Hcase).
  exists e', q', out. split; [done|]. split; [done|].
  destruct (concat bs) as [|m ms]; [destruct Hcase as [_ ->]; constructor|].
  destruct Hcase as [_ Hi]. by eapply increasing_sorted.
Qed.

Lemma sequencer_in_order_witness :
  ∃ e' q' out, rounds stock (make 4 true) lossy_feed = Ret (e', q', out) ∧
    StronglySorted Z.lt (seqs out).
Proof.
  destruct (sequencer_in_order stock 4 true lossy_feed) as (e' & q' & out & H1 & _ & H2);
    [lia|reflexivity|apply lossy_feed_pub|].
  exists e', q', out. split; [exact H1|exact H2].
Defined.

(** C18. Every sequence number is accounted for: the numbers from the first message
    accepted up to [expected_] are no more than the messages handed out plus those the
    statistics count as unrecoverable, and no number is counted unrecoverable more than
    twice (once when it is skipped, once when a jump goes over the window). This holds of
    the counters as they stand while their range cannot be exhausted, that is, for a
    stream of fewer than [2 ^ 63] numbers, a window's worth less. *)
Theorem sequencer_accounts {E} `{EnvLaws E EI Pub} (e : E) cap conn bs m ms :
  0 < cap < 2 ^ 64 → EI e → Forall (Forall (λ m, Pub (message m))) bs → concat bs = m :: ms →
  ∃ e' q' out, rounds e (make cap conn) bs = Ret (e', q', out) ∧ delivered (stats_ q') = u64 (vlen out) ∧
    (2 * (expected_ q' - sequence_number (message m)) + cap < 2 ^ 64 →
     expected_ q' - sequence_number (message m) ≤ vlen out + unrecoverable (stats_ q') ∧
     unrecoverable (stats_ q') ≤ 2 * (expected_ q' - sequence_number (message m)) + cap).
Proof.
  intros Hc He Hp Hm.
  destruct (rounds_from_start bs e (make cap conn) (make_wf cap conn Hc) He Hp) as
    (e' & q' & out & Hrun & Hpub & Hsz & Hcase).
  assert (size q' = cap) as Hcap by (rewrite Hsz; unfold size; simpl; vlen_lia).
  rewrite Hm in Hcase. destruct Hcase as [Hwf _].
  destruct (wf_account _ _ _ _ Hwf) as (U & HU & HU0 & _ & Hacc).
  exists e', q', out. split; [done|]. split; [apply (wf_delivered _ _ _ _ Hwf)|]. intros Hsmall.
  specialize (Hacc _ eq_refl). pose proof (skipped_nonneg (buffer_ q')). pose proof (occupied_bounds (buffer_ q')).
  fold (size q') in *. rewrite HU, u64_small by lia. lia.
Qed.

Lemma sequencer_accounts_witness :
  ∃ e' q' out, rounds stock (make 4 false) lossy_feed = Ret (e', q', out) ∧
    expected_ q' = 7 ∧ vlen out = 4 ∧ 2 ≤ unrecoverable (stats_ q').
Proof.
  destruct (sequencer_accounts stock 4 false lossy_feed (live 1) [live 2; live 5; live 5; live 6])
    as (e' & q' & out & H1 & _ & H2);
    [lia|reflexivity|apply lossy_feed_pub|reflexivity|].
  exists e', q', out. split; [exact H1|]. vm_compute in H1. injection H1 as <- <- <-.
  split; [reflexivity|]. split; [reflexivity|]. apply H2. reflexivity.
Defined.

(** C17. The stream never stalls: when datagrams carry consecutive numbers (and
    fit in the window), then after each round every number up to the end of the
    datagram has been delivered or given up, recovery or no recovery. *)
Theorem sequencer_no_stall {E} `{EnvLaws E EI Pub} (e : E) cap conn bs :
  0 < cap < 2 ^ 64 → EI e → Forall (Forall (λ m, Pub (message m))) bs →
  Forall (λ b, ∃ s, batch_from b s) bs → bs ≠ [] → vlen (hd_or [] bs) ≤ cap →
  ∃ e' q' out, rounds e (make cap conn) bs = Ret (e', q', out) ∧ high_mark 0 bs ≤ expected_ q'.
Proof.
  intros Hc He Hp Hb Hne Hfit. destruct bs as [|b bs]; [done|]. cbn [rounds high_mark hd_or] in *.
  apply Forall_cons in Hp as [Hpb Hp]. apply Forall_cons in Hb as [[s Hbs] Hb].
  assert (size (make cap conn) = cap) as Hsz by (unfold size; simpl; vlen_lia).
  destruct (round_first 0 e (make cap conn) b s (make_wf cap conn Hc) He Hpb Hbs ltac:(lia)) as
    (e1 & q1 & o1 & -> & He1 & Hwf1 & Hs1 & Hc1 & Hdr1 & Hcov1 & _).
  returns.
  destruct (rounds_batches bs s _ e1 q1 (Z.max 0 (hd_or 0 (seqs b) + vlen b)) Hwf1 He1 Hp Hb Hdr1)
    as (e2 & q2 & o2 & -> & Hcov2 & _).
  { rewrite (batch_head b s Hbs). pose proof (wf_expected _ _ _ _ Hwf1). lia. }
  returns. by exists e2, q2, (o1 ++ o2).
Qed.

Lemma sequencer_no_stall_witness :
  ∃ e' q' out, rounds stock (make 4 false) lossy_feed = Ret (e', q', out) ∧ 7 ≤ expected_ q'.
Proof.
  apply (sequencer_no_stall stock 4 false lossy_feed);
    [lia|reflexivity|apply lossy_feed_pub|apply lossy_feed_batches|discriminate|vm_compute; congruence].
Defined.

(** C4. Gap-free delivery: with a recovery server that still has every number,
    and datagrams never further ahead than the reorder window, the sequencer
    delivers every number from the first one accepted on, none missing, through
    the end of the last datagram. *)
Theorem sequencer_gap_free {E} `{EnvLaws E EI Pub} (e : E) cap b bs s lo hi :
  0 < cap < 2 ^ 64 → EI e → Forall (Forall (λ m, Pub (message m))) (b :: bs) →
  batch_from b s → Forall (λ b, ∃ s, batch_from b s) bs → near cap s (b :: bs) →
  EnvComplete E EI lo hi → lo ≤ s → high_mark s (b :: bs) - 1 ≤ hi →
  ∃ e' q' out, rounds e (make cap true) (b :: bs) = Ret (e', q', out) ∧
    seqs out = seqZ s (expected_ q' - s) ∧ high_mark s (b :: bs) ≤ expected_ q'.
Proof.
  intros Hc He Hp Hbs Hb Hnear Hcomp Hlo Hhi. cbn [rounds high_mark near] in *.
  destruct Hnear as (s' & Hbs' & Hfit & Hrest).
  pose proof (batch_head b s' Hbs') as Es. rewrite (batch_head b s Hbs) in Es. subst s'.
  rewrite (batch_head b s Hbs) in *. apply Forall_cons in Hp as [Hpb Hp].
  pose proof (high_mark_le (Z.max s (s + vlen b)) bs) as Hle. pose proof (vlen_nonneg b).
  assert (size (make cap true) = cap) as Hsz by (unfold size; simpl; vlen_lia).
  destruct (round_first 0 e (make cap true) b s (make_wf cap true Hc) He Hpb Hbs ltac:(lia)) as
    (e1 & q1 & o1 & -> & He1 & Hwf1 & Hs1 & Hc1 & Hdr1 & Hcov1 & Hl1).
  destruct Hl1 as [Hl1 Hseq1]; [exists lo, hi; simpl; repeat split; done || lia|].
  returns.
  destruct (rounds_batches bs s _ e1 q1 (Z.max s (s + vlen b)) Hwf1 He1 Hp Hb Hdr1 ltac:(lia))
    as (e2 & q2 & o2 & -> & Hcov2 & Hmono2 & Hl2).
  returns. exists e2, q2, (o1 ++ o2). split; [done|]. split; [|done].
  unfold seqs in *. rewrite fmap_app, Hseq1, Hl2; [apply seqZ_split; lia|by rewrite Hs1, Hsz|done|].
  exists lo, hi. repeat split; [done|done|lia|lia].
Qed.

Lemma lossy_feed_near : near 4 1 lossy_feed.
Proof.
  unfold lossy_feed. cbn [near].
  exists 1. split; [solve_batch|]. split; [done|]. exists 5. split; [solve_batch|]. split; [done|].
  exists 5. split; [solve_batch|]. split; [done|]. exists 6. split; [solve_batch|]. done.
Qed.

Lemma sequencer_gap_free_witness :
  ∃ e' q' out, rounds stock (make 4 true) lossy_feed = Ret (e', q', out) ∧
    seqs out = seqZ 1 (expected_ q' - 1) ∧ 7 ≤ expected_ q'.
Proof.
  pose proof lossy_feed_batches as Hb. apply Forall_cons in Hb as [_ Hb].
  apply (sequencer_gap_free stock 4 [live 1; live 2] [[live 5]; [live 5]; [live 6]] 1 1 6);
    [lia|reflexivity|apply lossy_feed_pub| |exact Hb|apply lossy_feed_near|apply _|lia|vm_compute; congruence].
  solve_batch.
Defined.
