(* ===== verification/InOrder.v ===== *)
(** * A feed without gaps

    What the sequencer does with messages that arrive in order: it holds them as
    they came and hands them out as they came, whatever the environment. *)

From S2P Require Import Prelude Message SequenceManager SequenceInv SequenceProperties.
Import Seq.

#[local] Open Scope Z_scope.
#[local] Open Scope llte_scope.

(** The window starts at [s], holds [ms] there, and is empty beyond. *)
Record holding (q : t) (s : Z) (ms : list FeedMessage) : Prop := {
  ho_size : 0 < size q < 2 ^ 64;
  ho_started : started_ q = true;
  ho_expected : expected_ q = s;
  ho_fits : vlen ms ≤ size q;
  ho_slots i : 0 ≤ i < size q → ∃ sl, win q (s + i) = Some sl ∧
    match ms !! Z.to_nat i with Some m => sl = mkSlot m Filled | None => state sl = Empty end
}.

(** The first message starts the window at its number. *)
Definition starting (s : Z) (q : t) : t := set_started (set_expected s q).

Lemma accept_starting {E} `{SeqEnv E} e q m :
  started_ q = false → accept e q m = accept e (starting (sequence_number (message m)) q) m.
Proof. intros Hs. unfold accept. simpl. by rewrite Hs. Qed.

Lemma accept_all_starting {E} `{SeqEnv E} e q m ms :
  started_ q = false → accept_all e q (m :: ms) = accept_all e (starting (sequence_number (message m)) q) (m :: ms).
Proof. intros Hs. cbn [accept_all]. by rewrite accept_starting. Qed.

Lemma size_starting window connected s : 0 ≤ window → size (starting s (make window connected)) = window.
Proof. intros Hw. unfold size. simpl. rewrite vlen_replicate. lia. Qed.

Lemma holding_start window connected s : 0 < window < 2 ^ 64 → holding (starting s (make window connected)) s [].
Proof.
  intros Hw. pose proof (size_starting window connected s ltac:(lia)) as Hsz.
  split; rewrite ?Hsz; try done; [unfold vlen; simpl; lia|]. intros i Hi.
  destruct (win_Some (starting s (make window connected)) ltac:(lia) (s + i)) as [sl Hsl].
  exists sl. split; [done|]. apply vget_replicate in Hsl. by subst sl.
Qed.

Section in_order.
Context {E : Type} `{SeqEnv E}.
Implicit Types (e : E) (q : t) (s : Z).

Lemma holding_stats f q s ms : holding q s ms → holding (set_stats f q) s ms.
Proof using. by intros [? ? ? ? ?]. Qed.

(** The slot at [s + i] of a window that starts at [s]. *)
Lemma window_slot q s i j : expected_ q = s → 0 < size q → 0 ≤ i < size q → 0 ≤ j < size q → i ≠ j →
  (s + i) mod size q ≠ (s + j) mod size q.
Proof using. intros <- ? ? ? ?. apply window_distinct; unfold in_window; lia. Qed.

Lemma store_next q s ms m :
  holding q s ms → sequence_number (message m) = s + vlen ms → vlen ms < size q →
  ∃ q', store q m = Ret q' ∧ holding q' s (ms ++ [m]) ∧ size q' = size q.
Proof using.
  intros [Hsz Hst Hex Hfit Hsl] Hnum Hroom. pose proof (vlen_nonneg ms). unfold store. rewrite Hnum.
  destruct (Hsl (vlen ms) ltac:(lia)) as (sl & Hwin & Hempty).
  rewrite lookup_ge_None_2 in Hempty by (unfold vlen; lia).
  rewrite (slot_at_run q ltac:(lia) _ _ Hwin). returns. rewrite decide_False by congruence.
  rewrite set_slot_run by lia. eexists. split; [done|]. split; [|apply size_put].
  split; rewrite ?size_put; try done; [rewrite vlen_snoc; lia|]. intros i Hi.
  destruct (decide (i = vlen ms)) as [->|Hne].
  - eexists. rewrite win_put_eq by lia. split; [done|]. by rewrite list_lookup_middle by (unfold vlen; lia).
  - rewrite win_put_ne by (apply not_eq_sym, window_slot; lia || done). destruct (Hsl i Hi) as (sl' & Hwin' & Hm).
    exists sl'. split; [done|]. destruct (Z.lt_ge_cases i (vlen ms)).
    + by rewrite lookup_app_l by (unfold vlen in *; lia).
    + rewrite lookup_ge_None_2 in Hm by (unfold vlen in *; lia).
      by rewrite lookup_ge_None_2 by (rewrite length_app; simpl; unfold vlen in *; lia).
Qed.

Lemma accept_next e q s ms m :
  holding q s ms → sequence_number (message m) = s + vlen ms → vlen ms < size q → 0 ≤ s → s + vlen ms < 2 ^ 64 →
  ∃ q', accept e q m = Ret (e, q') ∧ holding q' s (ms ++ [m]) ∧ size q' = size q.
Proof using.
  intros Hq Hnum Hroom Hs Htop. pose proof (vlen_nonneg ms). unfold accept. cbn [started_ set_stats].
  pose proof Hq as [Hsz Hst Hex _ Hsl]. rewrite Hst.
  assert (holding (set_stats (add_accepted 1) q) s ms) as Hq1 by (by apply holding_stats).
  set (q1 := set_stats (add_accepted 1) q) in *. assert (size q1 = size q) as Hsz1 by done.
  assert (expected_ q1 = s) as Hex1 by done. rewrite Hnum, Hex1.
  destruct (Z.ltb_spec (s + vlen ms) s); [lia|]. unfold accept_new. rewrite Hnum, Hex1. fold (size q1).
  rewrite Hsz1, Z.add_simpl_l, u64_small by lia. destruct (Z.leb_spec (size q) (vlen ms)); [lia|].
  assert ((if s <? s + vlen ms then slot ← slot_at q1 s; Ret (bool_decide (state slot = Empty)) else Ret false) = Ret false)
    as ->.
  { destruct (Z.ltb_spec s (s + vlen ms)); [|done]. destruct (Hsl 0 ltac:(lia)) as (sl & Hwin & Hm).
    rewrite Z.add_0_r in Hwin. rewrite (slot_at_run q1 ltac:(lia) _ _ Hwin). returns.
    destruct ms as [|m0 ms]; [unfold vlen in *; simpl in *; lia|]. simpl in Hm. by subst sl. }
  returns. destruct (store_next q1 s ms m Hq1 Hnum ltac:(lia)) as (q2 & -> & Hq2 & Hs2). returns. by exists q2.
Qed.

Lemma accept_all_next ms' : ∀ e q s ms,
  holding q s ms → (∀ i m, ms' !! i = Some m → sequence_number (message m) = s + vlen ms + Z.of_nat i) →
  vlen ms + vlen ms' ≤ size q → 0 ≤ s → s + vlen ms + vlen ms' ≤ 2 ^ 64 →
  ∃ q', accept_all e q ms' = Ret (e, q') ∧ holding q' s (ms ++ ms') ∧ size q' = size q.
Proof using.
  induction ms' as [|m ms' IH]; intros e q s ms Hq Hnum Hroom Hs Htop; cbn [accept_all].
  { exists q. by rewrite app_nil_r. }
  rewrite vlen_cons in *. pose proof (vlen_nonneg ms').
  destruct (accept_next e q s ms m Hq ltac:(rewrite (Hnum 0%nat m eq_refl); lia) ltac:(lia) Hs ltac:(lia))
    as (q1 & -> & Hq1 & Hs1). returns.
  destruct (IH e q1 s (ms ++ [m]) Hq1) as (q2 & -> & Hq2 & Hs2); try (rewrite ?vlen_snoc; lia).
  { intros i m' Hm'. rewrite (Hnum (S i) m' Hm'), vlen_snoc. lia. }
  exists q2. rewrite <- app_assoc in Hq2. split; [done|]. split; [done|congruence].
Qed.

Lemma next_held q s m ms :
  holding q s (m :: ms) → 0 ≤ s → s + 1 < 2 ^ 64 →
  ∃ q', next_deliverable q = Ret (q', Some m) ∧ holding q' (s + 1) ms ∧ size q' = size q.
Proof using.
  intros [Hsz Hst Hex Hfit Hsl] Hs Htop. rewrite vlen_cons in Hfit. unfold next_deliverable. rewrite Hst. cbn [next_loop].
  destruct (Hsl 0 ltac:(lia)) as (sl & Hwin & Hm). simpl in Hm. subst sl. rewrite Z.add_0_r in Hwin.
  rewrite Hex, (slot_at_run q ltac:(lia) _ _ Hwin). returns. rewrite set_slot_run by lia. returns.
  cbn [expected_ put set_buffer]. rewrite Hex, u64_small by lia. eexists. split; [done|]. split; [|apply (size_put q s (mkSlot m Empty))].
  apply holding_stats. set (q' := put q s (mkSlot m Empty)). change (holding (set_expected (s + 1) q') (s + 1) ms). assert (size (set_expected (s + 1) q') = size q) as Hsz'.
  { apply (size_put q s (mkSlot m Empty)). }
  split; rewrite ?Hsz'; [done|exact Hst|done|lia|]. intros i Hi.
  change (win (set_expected (s + 1) q') (s + 1 + i)) with (win q' (s + 1 + i)).
  destruct (decide (i = size q - 1)) as [->|Hne].
  - assert (win q' (s + 1 + (size q - 1)) = win q' s) as ->.
    { unfold win. replace (s + 1 + (size q - 1)) with (s + 1 * size q) by lia. unfold q'. rewrite size_put.
      by rewrite Z_mod_plus_full. }
    unfold q'. rewrite win_put_eq by lia. eexists. split; [done|].
    by rewrite lookup_ge_None_2 by (unfold vlen in Hfit; lia).
  - destruct (Hsl (i + 1) ltac:(lia)) as (sl & Hwin' & Hm'). exists sl. split.
    + unfold q'. rewrite win_put_ne; [by replace (s + 1 + i) with (s + (i + 1)) by lia|].
      rewrite <- (Z.add_0_r s) at 1. replace (s + 1 + i) with (s + (i + 1)) by lia. apply window_slot; lia || done.
    + rewrite Z2Nat.inj_add in Hm' by lia. by rewrite Nat.add_comm in Hm'.
Qed.

Lemma next_nothing q s : holding q s [] → next_deliverable q = Ret (q, None).
Proof using.
  intros [Hsz Hst Hex Hfit Hsl]. unfold next_deliverable. rewrite Hst. cbn [next_loop].
  destruct (Hsl 0 ltac:(lia)) as (sl & Hwin & Hm). rewrite lookup_nil in Hm. rewrite Z.add_0_r in Hwin.
  rewrite Hex, (slot_at_run q ltac:(lia) _ _ Hwin). returns. by rewrite Hm.
Qed.
End in_order.
