(* ===== verification/Engine.v ===== *)
(** * The order-book engine

    The consumer process of [orderbook/order_book_engine.cpp]: it takes events
    off the shared ring, applies them to its book and counts the outcomes. The
    book is any implementation of [BookInterface]. *)

From S2P Require Import Prelude Message BookSpec BookInterface.

#[local] Open Scope Z_scope.

(** ** Latency samples ([latency_stats.hpp]) *)

(** [capacity_] is what [reserve] obtained for the vector. *)
Record LatencySamples := mkSamples { samples_ : list Z; capacity_ : Z; dropped_ : Z }.

Definition samples_make (capacity : Z) : LatencySamples := mkSamples [] capacity 0.

Definition samples_add (s : LatencySamples) (nanoseconds : Z) : LatencySamples :=
  if vlen (samples_ s) <? capacity_ s
  then mkSamples (samples_ s ++ [nanoseconds]) (capacity_ s) (dropped_ s)
  else mkSamples (samples_ s) (capacity_ s) (u64 (dropped_ s + 1)).

(** ** Counters *)

Record ApplyCounters := mkCounters {
  applied : Z;
  unknown_order : Z;
  duplicate_order : Z;
  out_of_band : Z;
  pool_exhausted : Z;
  invalid : Z
}.

Definition counters_zero : ApplyCounters := mkCounters 0 0 0 0 0 0.

Definition record (c : ApplyCounters) (result : Result) : ApplyCounters :=
  let '(mkCounters a u d o p i) := c in
  match result with
  | Ok => mkCounters (u64 (a + 1)) u d o p i
  | UnknownOrder => mkCounters a (u64 (u + 1)) d o p i
  | DuplicateOrder => mkCounters a u (u64 (d + 1)) o p i
  | PriceOutOfBand => mkCounters a u d (u64 (o + 1)) p i
  | PoolExhausted => mkCounters a u d o (u64 (p + 1)) i
  | InvalidQuantity => mkCounters a u d o p (u64 (i + 1))
  end.

(** The counter that [record] increments for a result. *)
Definition counter_of (c : ApplyCounters) (r : Result) : Z :=
  match r with
  | Ok => applied c
  | UnknownOrder => unknown_order c
  | DuplicateOrder => duplicate_order c
  | PriceOutOfBand => out_of_band c
  | PoolExhausted => pool_exhausted c
  | InvalidQuantity => invalid c
  end.

(** ** One event *)

Record Stages := mkStages {
  wire_to_book : LatencySamples;
  parse_stage : LatencySamples;
  enqueue_stage : LatencySamples;
  queue_stage : LatencySamples;
  book_stage : LatencySamples;
  handler_to_book : LatencySamples
}.

(** [t3] and [t4] are the two readings of the clock around the book update. *)
Definition sample_stages (s : Stages) (event : PipelineEvent) (t3_dequeue t4_book : Z) : Stages :=
  let message := msg event in
  mkStages
    (if negb (timestamp_ns message =? 0) && (timestamp_ns message <? t4_book)
     then samples_add (wire_to_book s) (u64 (t4_book - timestamp_ns message)) else wire_to_book s)
    (samples_add (parse_stage s) (u64 (ev_t1_parsed event - ev_t0_recv event)))
    (samples_add (enqueue_stage s) (u64 (t2_enqueue event - ev_t1_parsed event)))
    (samples_add (queue_stage s) (u64 (t3_dequeue - t2_enqueue event)))
    (samples_add (book_stage s) (u64 (t4_book - t3_dequeue)))
    (samples_add (handler_to_book s) (u64 (t4_book - ev_t0_recv event))).

Section engine.
Context {T : Type} `{BookOps T}.

Record engine := mkEngine {
  book : T;
  counters : ApplyCounters;
  stages : Stages;
  consumed : Z;
  recovered_seen : Z;
  first_ns : Z;
  last_ns : Z
}.

(** The call the [switch] on the message type makes; no case, no call. *)
Definition book_call (b : T) (m : MarketMessage) : option (outcome (T * Result)) :=
  match type m with
  | Add => Some (bk_add b (order_id m) (side m) (price m) (quantity m))
  | Cancel => Some (bk_cancel b (order_id m))
  | Modify => Some (bk_modify b (order_id m) (price m) (quantity m))
  | Trade => Some (bk_execute b (order_id m) (quantity m))
  | MessageType_raw _ => None
  end.

Definition apply_message (b : T) (c : ApplyCounters) (m : MarketMessage)
    : outcome (T * ApplyCounters) :=
  match book_call b m with
  | Some call => '(b, result) ← call; Ret (b, record c result)
  | None => Ret (b, c)
  end.

(** The loop body for an event that [try_pop] returned; its CSV row is written by
    [event_loop] of [Process]. *)
Definition on_event (s : engine) (event : PipelineEvent) (t3_dequeue t4_book : Z)
    : outcome engine :=
  '(b, c) ← apply_message (book s) (counters s) (msg event);
  Ret (mkEngine b c (sample_stages (stages s) event t3_dequeue t4_book)
    (u64 (consumed s + 1)) (u64 (recovered_seen s + ev_recovered event))
    (if first_ns s =? 0 then t3_dequeue else first_ns s) t4_book).

(** Events with the clock readings taken around them. *)
Fixpoint on_events (s : engine) (evs : list (PipelineEvent * (Z * Z))) : outcome engine :=
  match evs with
  | [] => Ret s
  | (ev, (t3, t4)) :: evs => s ← on_event s ev t3 t4; on_events s evs
  end.
End engine.
Arguments engine : clear implicits.
Arguments mkEngine {T}.

Lemma on_events_app {T} `{BookOps T} (s : engine T) l k :
  on_events s (l ++ k) = (s ← on_events s l; on_events s k).
Proof.
  revert s. induction l as [|[ev [t3 t4]] l IH]; intros s; [done|]. cbn [app on_events].
  destruct (on_event s ev t3 t4) as [s1|]; [apply IH|done].
Qed.

(** ** What the events mean *)

(** The effect of a message on the list of resting orders. *)
Definition spec_message (L : limits) (m : MarketMessage) (B : list aorder)
    : list aorder * option Result :=
  match type m with
  | Add => some_result (spec_add L (order_id m) (side m) (price m) (quantity m) B)
  | Cancel => some_result (spec_cancel (order_id m) B)
  | Modify => some_result (spec_modify L (order_id m) (price m) (quantity m) B)
  | Trade => some_result (spec_execute (order_id m) (quantity m) B)
  | MessageType_raw _ => (B, None)
  end.

Fixpoint replay (L : limits) (ms : list MarketMessage) (B : list aorder)
    : list aorder * list Result :=
  match ms with
  | [] => (B, [])
  | m :: ms =>
      let '(B, r) := spec_message L m B in
      let '(B, rs) := replay L ms B in
      (B, option_list r ++ rs)
  end.

(** How often a result occurred. *)
Definition tally (r : Result) (rs : list Result) : Z := vlen (filter (r =.) rs).

Definition quantity_ok (m : MarketMessage) : Prop := 0 ≤ quantity m < 2 ^ 32.

Lemma counter_record c r r' :
  counter_of (record c r) r' = if decide (r' = r) then u64 (counter_of c r' + 1) else counter_of c r'.
Proof. by destruct c, r, r'. Qed.

Lemma tally_cons r x rs : tally r (x :: rs) = (if decide (r = x) then 1 else 0) + tally r rs.
Proof. unfold tally. rewrite filter_cons. case_decide; [rewrite vlen_cons|]; lia. Qed.

Section laws.
Context {T : Type} `{Hlaws : BookLaws T L R}.
Implicit Types (s : engine T) (B : list aorder).

Lemma apply_message_spec b c m B :
  R b B → quantity_ok m →
  ∃ b', apply_message b c m =
      Ret (b', match (spec_message L m B).2 with Some r => record c r | None => c end) ∧
    R b' (spec_message L m B).1.
Proof using Hlaws.
  intros HR Hq. unfold apply_message, book_call, spec_message. destruct (type m).
  - destruct (law_add b B (order_id m) (side m) (price m) (quantity m) HR Hq) as (b' & -> & ?). eauto.
  - destruct (law_cancel b B (order_id m) HR) as (b' & -> & ?). eauto.
  - destruct (law_modify b B (order_id m) (price m) (quantity m) HR Hq) as (b' & -> & ?). eauto.
  - destruct (law_execute b B (order_id m) (quantity m) HR Hq) as (b' & -> & ?). eauto.
  - eauto.
Qed.

Lemma on_events_spec evs : ∀ s B,
  R (book s) B → Forall (λ e, quantity_ok (msg e.1)) evs →
  let ms := (λ e, msg e.1) <$> evs in
  ∃ s', on_events s evs = Ret s' ∧ R (book s') (replay L ms B).1 ∧
    (∀ r c0, counter_of (counters s) r = u64 c0 →
       counter_of (counters s') r = u64 (c0 + tally r (replay L ms B).2)) ∧
    (∀ n, consumed s = u64 n → consumed s' = u64 (n + vlen evs)).
Proof using Hlaws.
  induction evs as [|[ev [t3 t4]] evs IH]; intros s B HR Hq; cbn [on_events].
  { exists s. split; [done|]. split; [done|]. split.
    - intros r c0 Hc. by rewrite Z.add_0_r.
    - intros n Hn. by rewrite Z.add_0_r. }
  apply Forall_cons in Hq as [Hq Hqs]. unfold on_event. rewrite fmap_cons. cbn [fst replay].
  destruct (apply_message_spec (book s) (counters s) (msg ev) B HR Hq) as (b' & -> & HR').
  returns.
  destruct (spec_message L (msg ev) B) as [B1 r1] eqn:Hspec. cbn [fst snd] in *.
  set (s1 := mkEngine _ _ _ _ _ _ _).
  destruct (IH s1 B1 HR' Hqs) as (s' & Hrun & HR'' & Hcnt & Hcons).
  exists s'. split; [done|].
  destruct (replay L ((λ e, msg e.1) <$> evs) B1) as [B2 rs]. cbn [fst snd] in *.
  split; [done|]. split.
  - intros r c0 Hc. destruct r1 as [r1|].
    + change (option_list (Some r1) ++ rs) with (r1 :: rs). rewrite tally_cons, Z.add_assoc. apply Hcnt. simpl. rewrite counter_record.
      case_decide; [rewrite Hc; apply u64_succ|by rewrite Z.add_0_r].
    + by apply Hcnt.
  - intros n Hn. rewrite vlen_cons. replace (n + (vlen evs + 1)) with (n + 1 + vlen evs) by lia.
    apply Hcons. simpl. rewrite Hn. apply u64_succ.
Qed.
End laws.
