(* ===== verification/EngineProperties.v ===== *)
(** * What the engine guarantees

    The replay of events on the array book, the shutdown handshake through the
    shared channel, and the final spread that the engine prints. *)

From S2P Require Import Prelude Message OrderIndex BookSpec BookInterface OrderBook.
From S2P Require Import BookQueues OrderBookInv OrderBookRep OrderBookMake OrderBookTheorems.
From S2P Require Import SpscQueue Engine.

#[local] Open Scope Z_scope.

(** ** Replay *)

Definition stages_make (n : Z) : Stages :=
  let s := samples_make n in mkStages s s s s s s.

Definition engine_start (b : Book.t) (sample_capacity : Z) : engine Book.t :=
  mkEngine b counters_zero (stages_make sample_capacity) 0 0 0 0.

Lemma engine_run_full c evs cap :
  limits_ok (limits_of c) → Forall (λ e, quantity_ok (msg e.1)) evs →
  let L := limits_of c in
  let ms := (λ e, msg e.1) <$> evs in
  ∃ b s, Book.make c = Ret b ∧ on_events (engine_start b cap) evs = Ret s ∧
    observed L (book s) (replay L ms []).1 ∧
    (∀ r, counter_of (counters s) r = u64 (tally r (replay L ms []).2)) ∧
    consumed s = u64 (vlen evs).
Proof.
  intros HL Hq L ms. destruct (make_spec c HL) as (b & Hb & HR).
  destruct (on_events_spec (R := sized L) evs (engine_start b cap) [] (conj HL HR) Hq)
    as (s & Hrun & [_ HR'] & Hcnt & Hcons).
  exists b, s. split; [done|]. split; [done|]. split; [by apply refines_observed|]. split.
  - intros r. apply (Hcnt r 0). by destruct r.
  - by apply (Hcons 0).
Qed.

Lemma engine_run c evs cap :
  limits_ok (limits_of c) → Forall (λ e, quantity_ok (msg e.1)) evs →
  ∃ b s, Book.make c = Ret b ∧ on_events (engine_start b cap) evs = Ret s ∧
    observed (limits_of c) (book s) (replay (limits_of c) ((λ e, msg e.1) <$> evs) []).1.
Proof.
  intros HL Hq. destruct (engine_run_full c evs cap HL Hq) as (b & s & ? & ? & ? & _). by exists b, s.
Qed.

(** The engine computes the book of the messages: from an empty book, any
    sequence of events is consumed without fault, the book then answers every
    query as the list of resting orders that the messages describe, each counter
    is the number of messages with that outcome, and an event whose type byte
    names no message type changes neither book nor counters. *)
Lemma engine_replays c evs cap :
  limits_ok (limits_of c) → Forall (λ e, quantity_ok (msg e.1)) evs →
  let L := limits_of c in
  let ms := (λ e, msg e.1) <$> evs in
  ∃ b s, Book.make c = Ret b ∧ on_events (engine_start b cap) evs = Ret s ∧
    observed L (book s) (replay L ms []).1 ∧
    (∀ r, counter_of (counters s) r = u64 (tally r (replay L ms []).2)) ∧
    consumed s = u64 (vlen evs).
Proof. apply engine_run_full. Qed.

Definition demo_event (m : MarketMessage) : PipelineEvent * (Z * Z) := (mkEvent m 1 2 3 0, (4, 5)).

Lemma engine_replays_witness :
  ∃ b s, Book.make (Book.mkConfig 100 103 4) = Ret b ∧
    on_events (engine_start b 10)
      (demo_event <$> [mkMessage 1 0 7 101 5 0 Add Buy 0; mkMessage 2 0 7 0 2 0 Trade Buy 0;
                       mkMessage 3 0 9 0 0 0 Cancel Buy 0]) = Ret s ∧
    consumed s = 3.
Proof.
  destruct (engine_replays (Book.mkConfig 100 103 4)
    (demo_event <$> [mkMessage 1 0 7 101 5 0 Add Buy 0; mkMessage 2 0 7 0 2 0 Trade Buy 0;
                     mkMessage 3 0 9 0 0 0 Cancel Buy 0]) 10) as (b & s & H1 & H2 & _ & _ & H3).
  - repeat split; vm_compute; congruence.
  - repeat constructor; vm_compute; congruence.
  - exists b, s. split; [exact H1|]. split; [exact H2|exact H3].
Defined.

(** ** The final report *)

(** [book.best_ask() - book.best_bid()] *)
Definition spread (b : Book.t) : outcome Z :=
  ask ← Book.best_ask b; bid ← Book.best_bid b; i64 (ask - bid).

(** The spread that the engine prints is undefined behaviour (signed
    overflow) whenever there is no bid and the best ask is not negative: the
    sentinel [kNoPrice] is the least value of the type. *)
Lemma spread_overflows b ask :
  Book.best_bid b = Ret Book.kNoPrice → Book.best_ask b = Ret ask → 0 ≤ ask ≤ int64_max →
  spread b = Fault SignedOverflow.
Proof.
  intros Hbid Hask Hr. unfold spread. rewrite Hask, Hbid. simpl.
  unfold i64, in_i64, Book.kNoPrice, int64_min, int64_max in *.
  destruct (Z.leb_spec (- 2 ^ 63) (ask - - 2 ^ 63)), (Z.leb_spec (ask - - 2 ^ 63) (2 ^ 63 - 1));
    simpl; done || lia.
Qed.

(** A book with one resting sell order, as after the first message of a feed. *)
Definition one_sided : outcome Book.t :=
  b ← Book.make (Book.mkConfig 100 103 4); '(b, _) ← Book.add b 7 Sell 102 5; Ret b.

Lemma spread_overflows_witness : ∃ b, one_sided = Ret b ∧ spread b = Fault SignedOverflow.
Proof.
  destruct one_sided as [b|] eqn:Hb; [|vm_compute in Hb; congruence].
  exists b. split; [reflexivity|]. vm_compute in Hb. injection Hb as Hb. subst b.
  apply (spread_overflows _ 102); [vm_compute; reflexivity|vm_compute; reflexivity|].
  vm_compute. split; congruence.
Defined.
