(* ===== verification/NodeBook.v ===== *)
(** * The node-based book of the benchmark

    [NodeBook] of [benchmarks/book_benchmark.cpp], the reference the shipped book is
    measured against: a [std::map] of [std::list]s per side and an index of
    iterators. A list node is a handle into a heap of entries; handles are not
    used again, so an iterator to an erased node stays recognisable, and its use is a fault. *)

From S2P Require Import Prelude Message BookSpec BookQueues OrderBookRep.

#[local] Open Scope Z_scope.

Module NodeBook.

Record Entry := mkEntry { e_id : Z; e_quantity : Z }.

Record Location := mkLocation { l_side : Side; l_price : Z; position : nat }.

(** The lists hold the handles of their nodes in order; [nodes] is what the nodes
    contain and [next_node] the next handle to be given out. *)
Record t := mkBook {
  bids_ : gmap Z (list nat);
  asks_ : gmap Z (list nat);
  index_ : gmap Z Location;
  nodes : gmap nat Entry;
  next_node : nat
}.

Definition make : t := mkBook ∅ ∅ ∅ ∅ 0.

(** [side == Side::Buy ? bids_ : asks_], as a value and as a target. *)
Definition levels (b : t) (buy : bool) : gmap Z (list nat) := if buy then bids_ b else asks_ b.
Definition set_levels (buy : bool) (m : gmap Z (list nat)) (b : t) : t :=
  if buy then mkBook m (asks_ b) (index_ b) (nodes b) (next_node b)
  else mkBook (bids_ b) m (index_ b) (nodes b) (next_node b).
Definition set_index (m : gmap Z Location) (b : t) : t :=
  mkBook (bids_ b) (asks_ b) m (nodes b) (next_node b).
Definition set_nodes (m : gmap nat Entry) (n : nat) (b : t) : t :=
  mkBook (bids_ b) (asks_ b) (index_ b) m n.

(** [levels[price]] makes an empty list where there is none. *)
Definition add (b : t) (id : Z) (side : Side) (price quantity : Z) : t :=
  let orders := default [] (levels b (is_buy side) !! price) in
  let node := next_node b in
  let b := set_nodes (<[node := mkEntry id quantity]> (nodes b)) (S node) b in
  let b := set_levels (is_buy side) (<[price := orders ++ [node]]> (levels b (is_buy side))) b in
  set_index (<[id := mkLocation side price node]> (index_ b)) b.

(** [level->second.erase(position)] *)
Definition erase (b : t) (buy : bool) (price : Z) (orders : list nat) (node : nat) : outcome t :=
  if decide (node ∈ orders) then
    let orders := filter (λ n, n ≠ node) orders in
    let b := set_nodes (delete node (nodes b)) (next_node b) b in
    Ret (set_levels buy
      (match orders with [] => delete price (levels b buy) | _ => <[price := orders]> (levels b buy) end) b)
  else Fault DanglingIterator.

Definition cancel (b : t) (id : Z) : outcome t :=
  match index_ b !! id with
  | None => Ret b
  | Some found =>
      let buy := is_buy (l_side found) in
      b ← match levels b buy !! l_price found with
          | Some orders => erase b buy (l_price found) orders (position found)
          | None => Ret b
          end;
      Ret (set_index (delete id (index_ b)) b)
  end.

Definition modify (b : t) (id price quantity : Z) : outcome t :=
  match index_ b !! id with
  | None => Ret b
  | Some found => b ← cancel b id; Ret (add b id (l_side found) price quantity)
  end.

(** [found->second.position->quantity] *)
Definition deref (b : t) (node : nat) : outcome Entry := of_option DanglingIterator (nodes b !! node).

Definition execute (b : t) (id quantity : Z) : outcome t :=
  match index_ b !! id with
  | None => Ret b
  | Some found =>
      entry ← deref b (position found);
      if e_quantity entry <=? quantity then cancel b id
      else Ret (set_nodes
        (<[position found := mkEntry (e_id entry) (u32 (e_quantity entry - quantity))]> (nodes b)) (next_node b) b)
  end.

(** [bids_.rbegin()->first] and [asks_.begin()->first] *)
Definition best_bid (b : t) : Z :=
  match (map_to_list (bids_ b)).*1 with [] => 0 | p :: ps => foldr Z.max p ps end.
Definition best_ask (b : t) : Z :=
  match (map_to_list (asks_ b)).*1 with [] => 0 | p :: ps => foldr Z.min p ps end.

End NodeBook.
Import NodeBook.

(** ** What it represents *)

(** A node and the order in it, oldest first. *)
Definition cell : Type := nat * aorder.
#[local] Abbreviation here buy p := (λ g : cell, at_level buy p g.2).
Definition handles (buy : bool) (p : Z) (G : list cell) : list nat := (filter (here buy p) G).*1.
Definition level_of (hs : list nat) : option (list nat) := match hs with [] => None | _ => Some hs end.
Definition located (g : cell) : Location := mkLocation (a_side g.2) (a_price g.2) g.1.

Record node_rep (b : t) (G : list cell) : Prop := {
  nr_nodes : NoDup G.*1;
  nr_ids : NoDup (a_id <$> G.*2);
  nr_fresh : ∀ g, g ∈ G → (g.1 < next_node b)%nat;
  nr_heap : ∀ g, g ∈ G → nodes b !! g.1 = Some (mkEntry (a_id g.2) (a_qty g.2));
  nr_index : ∀ id l, index_ b !! id = Some l ↔ ∃ g, g ∈ G ∧ a_id g.2 = id ∧ l = located g;
  nr_levels : ∀ buy p, levels b buy !! p = level_of (handles buy p G)
}.

Lemma node_rep_make : node_rep make [].
Proof.
  split; [constructor|constructor|set_solver|set_solver| |].
  - intros id l. unfold make. cbn [index_]. rewrite lookup_empty. split; [done|]. intros (g & Hg & _). set_solver.
  - intros [] p; unfold make; cbn [levels bids_ asks_]; by rewrite lookup_empty.
Qed.

Lemma levels_set buy m b buy' :
  levels (set_levels buy m b) buy' = if decide (buy' = buy) then m else levels b buy'.
Proof. by destruct buy, buy'. Qed.

Lemma level_of_default hs : default [] (level_of hs) = hs.
Proof. by destruct hs. Qed.

Lemma handles_app buy p G G' : handles buy p (G ++ G') = handles buy p G ++ handles buy p G'.
Proof. unfold handles. by rewrite filter_app, fmap_app. Qed.

Lemma handles_cons buy p g G :
  handles buy p (g :: G) = (if decide (at_level buy p g.2) then [g.1] else []) ++ handles buy p G.
Proof. unfold handles. rewrite filter_cons. by case_decide. Qed.

Lemma add_rep b G id s p q :
  node_rep b G → (∀ g, g ∈ G → a_id g.2 ≠ id) →
  node_rep (add b id s p q) (G ++ [(next_node b, mkAOrder id s p q)]).
Proof.
  intros [Hn Hi Hf Hh Hx Hl] Hid. split.
  - rewrite fmap_app. apply NoDup_app. split; [done|]. split; [|apply NoDup_singleton].
    intros h (g & -> & Hg)%list_elem_of_fmap [=E]%list_elem_of_singleton. specialize (Hf g Hg). lia.
  - rewrite !fmap_app. apply NoDup_app. split; [done|]. split; [|apply NoDup_singleton].
    intros i (a & -> & (g & -> & Hg)%list_elem_of_fmap)%list_elem_of_fmap E%list_elem_of_singleton. by apply (Hid g).
  - unfold add. destruct (is_buy s); simpl; intros g [Hg| ->%list_elem_of_singleton]%elem_of_app; simpl;
      try (specialize (Hf g Hg)); lia.
  - intros g Hg. assert (nodes (add b id s p q) = <[next_node b := mkEntry id q]> (nodes b)) as ->
      by (unfold add; by destruct (is_buy s)).
    apply elem_of_app in Hg as [Hg| ->%list_elem_of_singleton]; [|by rewrite lookup_insert_eq].
    specialize (Hf g Hg). rewrite lookup_insert_ne by lia. auto.
  - intros id' l. assert (index_ (add b id s p q) = <[id := mkLocation s p (next_node b)]> (index_ b)) as ->
      by (unfold add; by destruct (is_buy s)).
    destruct (decide (id' = id)) as [->|Hne].
    + rewrite lookup_insert_eq. split; [intros [= <-]; eexists; split; [apply elem_of_app; right; by apply list_elem_of_singleton|done]|].
      intros (g & [Hg| ->%list_elem_of_singleton]%elem_of_app & E & ->); [by destruct (Hid g)|done].
    + rewrite lookup_insert_ne by done. rewrite Hx. split.
      * intros (g & Hg & ?). exists g. split; [apply elem_of_app; by left|done].
      * intros (g & [Hg| ->%list_elem_of_singleton]%elem_of_app & E & ->); [by exists g|by simpl in E].
  - intros buy p'. assert (levels (add b id s p q) buy = levels (set_levels (is_buy s)
      (<[p := default [] (levels b (is_buy s) !! p) ++ [next_node b]]> (levels b (is_buy s))) b) buy) as ->
      by (unfold add; by destruct (is_buy s), buy).
    rewrite levels_set, handles_app, handles_cons. cbn [fst snd]. unfold at_level at 1. cbn [a_side a_price].
    change (handles buy p' []) with (@nil nat). rewrite app_nil_r.
    assert (∀ hs : list nat, hs = [] → handles buy p' G ++ hs = handles buy p' G) as Hno by (intros ? ->; apply app_nil_r).
    destruct (decide (buy = is_buy s)) as [->|Hb]; [|rewrite Hno, Hl; [done|]; apply decide_False; intros [E _]; by apply Hb].
    destruct (decide (p' = p)) as [->|Hne].
    + rewrite lookup_insert_eq, decide_True, Hl, level_of_default by done. by destruct (handles _ _ _).
    + rewrite lookup_insert_ne by done. rewrite Hno; [apply Hl|]. apply decide_False. intros [_ E]. by apply Hne.
Qed.

(** ** Taking an order out *)

Section found.
Context {b : t} {G1 G2 : list cell} {h : nat} {a : aorder}.
#[local] Abbreviation G := (G1 ++ (h, a) :: G2).
Context (HG : node_rep b G).

Lemma cell_in : (h, a) ∈ G.
Proof using Type. apply elem_of_app. right. constructor. Qed.

Lemma found_index : index_ b !! a_id a = Some (located (h, a)).
Proof using HG. apply (nr_index _ _ HG). exists (h, a). split; [apply cell_in|done]. Qed.

Lemma other_node g : g ∈ G1 ++ G2 → g.1 ≠ h.
Proof using HG.
  pose proof (nr_nodes _ _ HG) as Hn. rewrite fmap_app, fmap_cons, <- Permutation_middle in Hn.
  apply NoDup_cons in Hn as [Hn _]. rewrite <- fmap_app in Hn. intros Hg E. apply Hn. cbn [fst]. rewrite <- E.
  by apply list_elem_of_fmap_2.
Qed.

Lemma other_id g : g ∈ G1 ++ G2 → a_id g.2 ≠ a_id a.
Proof using HG.
  pose proof (nr_ids _ _ HG) as Hn. rewrite !fmap_app, !fmap_cons, <- Permutation_middle in Hn.
  apply NoDup_cons in Hn as [Hn _]. rewrite <- !fmap_app in Hn. intros Hg E. apply Hn. cbn [snd]. rewrite <- E.
  by apply list_elem_of_fmap_2, list_elem_of_fmap_2.
Qed.

Lemma handles_found buy p :
  handles buy p G = handles buy p G1 ++ (if decide (at_level buy p a) then [h] else []) ++ handles buy p G2.
Proof using Type. by rewrite handles_app, handles_cons. Qed.

Lemma handles_out buy p : filter (λ n, n ≠ h) (handles buy p G) = handles buy p (G1 ++ G2).
Proof using HG.
  rewrite handles_found, handles_app, !filter_app.
  assert (∀ G', (∀ g, g ∈ G' → g ∈ G1 ++ G2) → filter (λ n, n ≠ h) (handles buy p G') = handles buy p G') as Hkeep.
  { intros G' HG'. apply filter_keep. intros n (g & -> & [_ Hg]%list_elem_of_filter)%list_elem_of_fmap.
    by apply other_node, HG'. }
  rewrite !Hkeep by set_solver. f_equal.
  assert (filter (λ n, n ≠ h) (if decide (at_level buy p a) then [h] else []) = []) as ->; [|done].
  destruct (decide (at_level buy p a)); [|done]. rewrite filter_cons_False by (intros E; by apply E). done.
Qed.

Lemma other_cell id g : g ∈ G → a_id g.2 = id → id ≠ a_id a → g ∈ G1 ++ G2.
Proof using Type. rewrite !elem_of_app, elem_of_cons. intros [?|[->|?]] <- Hne; [by left|by destruct Hne|by right]. Qed.

Lemma cancel_rep : ∃ b', cancel b (a_id a) = Ret b' ∧ node_rep b' (G1 ++ G2).
Proof using HG.
  unfold cancel. rewrite found_index. cbn [l_side l_price position located fst snd].
  set (buy := is_buy (a_side a)). set (p := a_price a).
  assert (at_level buy p a) as Hat by done.
  assert (h ∈ handles buy p G) as Hin.
  { rewrite handles_found, decide_True by done. set_solver. }
  rewrite (nr_levels _ _ HG). destruct (handles buy p G) as [|h0 hs] eqn:Hhs; [set_solver|].
  cbn [level_of]. rewrite <- Hhs in Hin |- *. unfold erase. rewrite decide_True by done. returns.
  eexists. split; [done|]. rewrite handles_out.
  set (m := match handles buy p (G1 ++ G2) with [] => _ | _ => _ end).
  assert (∀ buy' p', levels (set_levels buy m b) buy' !! p' = level_of (handles buy' p' (G1 ++ G2))) as Hlev.
  { intros buy' p'. rewrite levels_set. destruct (decide (buy' = buy ∧ p' = p)) as [[-> ->]|Hne].
    - rewrite decide_True by done. unfold m. destruct (handles buy p (G1 ++ G2)); simpl.
      + apply lookup_delete_eq.
      + by rewrite lookup_insert_eq.
    - assert (levels b buy' !! p' = level_of (handles buy' p' (G1 ++ G2))) as Hsame.
      { rewrite (nr_levels _ _ HG), handles_found, handles_app, decide_False; [done|]. intros [E1 E2]. by apply Hne. }
      case_decide as Hb; [subst buy'|done]. assert (p ≠ p') by (intros ->; by apply Hne). unfold m.
      rewrite <- Hsame. by destruct (handles buy p (G1 ++ G2)); simpl; destruct buy; simplify_map_eq. }
  pose proof (nr_nodes _ _ HG) as Hn. pose proof (nr_ids _ _ HG) as Hi.
  rewrite ?fmap_app, ?fmap_cons, <- ?Permutation_middle in Hn.
  rewrite ?fmap_app, ?fmap_cons, <- ?Permutation_middle in Hi.
  apply NoDup_cons in Hn as [_ Hn]. apply NoDup_cons in Hi as [_ Hi].
  assert (∀ g, g ∈ G1 ++ G2 → g ∈ G) as Hsub by set_solver.
  split.
  - by rewrite fmap_app.
  - by rewrite !fmap_app.
  - intros g Hg. destruct buy; apply (nr_fresh _ _ HG), Hsub, Hg.
  - intros g Hg. pose proof (nr_heap _ _ HG g (Hsub g Hg)) as Hh. pose proof (other_node g Hg).
    destruct buy; simpl; by rewrite lookup_delete_ne.
  - intros id l. assert (index_ (set_levels buy m (set_nodes (delete h (nodes b)) (next_node b) b)) = index_ b) as Hix
      by (by destruct buy).
    assert ((delete (a_id a) (index_ b) !! id = Some l) ↔ ∃ g, g ∈ G1 ++ G2 ∧ a_id g.2 = id ∧ l = located g) as Hgoal.
    { rewrite lookup_delete_Some, (nr_index _ _ HG). split.
      - intros (Hne & g & Hg & Hid & ->). exists g. split; [by eapply other_cell|done].
      - intros (g & Hg & <- & ->). split; [by apply not_eq_sym, other_id|]. exists g. auto. }
    destruct buy; exact Hgoal.
  - intros buy' p'. rewrite <- Hlev. by destruct buy, buy'.
Qed.

Lemma modify_rep p q :
  ∃ b', modify b (a_id a) p q = Ret b' ∧
    ∃ h', node_rep b' ((G1 ++ G2) ++ [(h', mkAOrder (a_id a) (a_side a) p q)]).
Proof using HG.
  unfold modify. rewrite found_index. destruct cancel_rep as (b1 & -> & HG1). returns. eexists. split; [done|].
  eexists. apply add_rep; [done|]. apply other_id.
Qed.

Lemma resize_rep v :
  node_rep (set_nodes (<[h := mkEntry (a_id a) v]> (nodes b)) (next_node b) b) (G1 ++ (h, resized a v) :: G2).
Proof using HG.
  assert (∀ g, g ∈ G1 ++ (h, resized a v) :: G2 → g = (h, resized a v) ∨ g ∈ G1 ++ G2) as Hcase by set_solver.
  assert (∀ g, g ∈ G1 ++ G2 → g ∈ G) as Hsub by set_solver.
  assert (∀ buy p, handles buy p (G1 ++ (h, resized a v) :: G2) = handles buy p G) as Hsame.
  { intros buy p. by rewrite !handles_app, !handles_cons. }
  pose proof (nr_nodes _ _ HG) as Hn. pose proof (nr_ids _ _ HG) as Hi. split.
  - rewrite fmap_app, fmap_cons in Hn |- *. done.
  - rewrite !fmap_app, !fmap_cons in Hi |- *. done.
  - intros g [->|Hg]%Hcase; [apply (nr_fresh _ _ HG _ cell_in)|apply (nr_fresh _ _ HG), Hsub, Hg].
  - cbn [nodes set_nodes]. intros g [->|Hg]%Hcase; [by rewrite lookup_insert_eq|].
    rewrite lookup_insert_ne by (by apply not_eq_sym, other_node). apply (nr_heap _ _ HG), Hsub, Hg.
  - intros id l. cbn [index_ set_nodes]. rewrite (nr_index _ _ HG). split.
    + intros (g & Hg & Hid & ->). apply elem_of_app in Hg as [Hg|[->|Hg]%elem_of_cons];
        [exists g|exists (h, resized a v)|exists g]; (split; [set_solver|done]).
    + intros (g & [->|Hg]%Hcase & Hid & ->); [exists (h, a); split; [apply cell_in|done]|exists g; auto].
  - intros buy p. rewrite Hsame, <- (nr_levels _ _ HG). by destruct buy.
Qed.

Lemma execute_rep q :
  0 < a_qty a < 2 ^ 32 → 0 ≤ q →
  ∃ b', execute b (a_id a) q = Ret b' ∧
    node_rep b' (if a_qty a <=? q then G1 ++ G2 else G1 ++ (h, resized a (a_qty a - q)) :: G2).
Proof using HG.
  intros Ha Hq. unfold execute. rewrite found_index. unfold deref. cbn [located position fst snd].
  rewrite (nr_heap _ _ HG _ cell_in : nodes b !! h = _). cbn [of_option fst snd]. returns. cbn [e_quantity e_id].
  destruct (Z.leb_spec (a_qty a) q); [apply cancel_rep|]. rewrite u32_small by lia. eexists. split; [done|]. apply resize_rep.
Qed.
End found.

(** An unknown order changes nothing. *)
Lemma unknown_index b G id : node_rep b G → (∀ g, g ∈ G → a_id g.2 ≠ id) → index_ b !! id = None.
Proof.
  intros HG Hno. destruct (index_ b !! id) as [l|] eqn:E; [|done].
  apply (nr_index _ _ HG) in E as (g & Hg & Hid & _). by destruct (Hno g Hg).
Qed.

(** ** Quotes *)

Lemma foldr_max_spec ps p : foldr Z.max p ps ∈ p :: ps ∧ ∀ x, x ∈ p :: ps → x ≤ foldr Z.max p ps.
Proof.
  induction ps as [|y ps [Hin Hle]]; simpl; [set_unfold; naive_solver lia|]. split.
  - destruct (Z.max_spec y (foldr Z.max p ps)) as [[_ ->]|[_ ->]]; set_solver.
  - intros x [->|[->|Hx]%elem_of_cons]%elem_of_cons; [specialize (Hle p ltac:(constructor))|
      |specialize (Hle x ltac:(by constructor))]; lia.
Qed.

Lemma foldr_min_spec ps p : foldr Z.min p ps ∈ p :: ps ∧ ∀ x, x ∈ p :: ps → foldr Z.min p ps ≤ x.
Proof.
  induction ps as [|y ps [Hin Hle]]; simpl; [set_unfold; naive_solver lia|]. split.
  - destruct (Z.min_spec y (foldr Z.min p ps)) as [[_ ->]|[_ ->]]; set_solver.
  - intros x [->|[->|Hx]%elem_of_cons]%elem_of_cons; [specialize (Hle p ltac:(constructor))|
      |specialize (Hle x ltac:(by constructor))]; lia.
Qed.

Lemma level_keys b G buy p :
  node_rep b G → p ∈ (map_to_list (levels b buy)).*1 ↔ ∃ g, g ∈ G ∧ at_level buy p g.2.
Proof.
  intros HG. rewrite list_elem_of_fmap. split.
  - intros ([p' hs] & -> & Hin%elem_of_map_to_list). rewrite (nr_levels _ _ HG) in Hin. cbn [fst].
    unfold handles in Hin. destruct (filter (here buy p') G) as [|g gs] eqn:E; [done|]. exists g.
    assert (g ∈ filter (here buy p') G) as [? ?]%list_elem_of_filter by (rewrite E; constructor). done.
  - intros (g & Hg & Hat). destruct (handles buy p G) as [|h hs] eqn:E.
    + assert (g.1 ∈ handles buy p G) as Hin by (by apply list_elem_of_fmap_2, list_elem_of_filter).
      rewrite E in Hin. set_solver.
    + exists (p, h :: hs). split; [done|]. apply elem_of_map_to_list. by rewrite (nr_levels _ _ HG), E.
Qed.

Lemma quotes_rep b G : node_rep b G →
  ((no_side true G.*2 ∧ best_bid b = 0) ∨ is_best true (best_bid b) G.*2) ∧
  ((no_side false G.*2 ∧ best_ask b = 0) ∨ is_best false (best_ask b) G.*2).
Proof.
  intros HG. pose proof (λ p, level_keys b G true p HG) as Hb. pose proof (λ p, level_keys b G false p HG) as Ha.
  cbn [levels] in Hb, Ha. unfold best_bid, best_ask, no_side, is_best.
  split; [destruct ((map_to_list (bids_ b)).*1) as [|p ps]|destruct ((map_to_list (asks_ b)).*1) as [|p ps]].
  1,3: left; split; [|done]; intros o (g & -> & Hg)%list_elem_of_fmap Hs.
  - assert (a_price g.2 ∈ @nil Z) by (apply Hb; by exists g). set_solver.
  - assert (a_price g.2 ∈ @nil Z) by (apply Ha; by exists g). set_solver.
  - right. destruct (foldr_max_spec ps p) as [Hin Hle]. apply Hb in Hin as (g & Hg & Hat). split.
    + exists g.2. split; [by apply list_elem_of_fmap_2|done].
    + intros o (g' & -> & Hg')%list_elem_of_fmap Hs. apply Hle, Hb. by exists g'.
  - right. destruct (foldr_min_spec ps p) as [Hin Hle]. apply Ha in Hin as (g & Hg & Hat). split.
    + exists g.2. split; [by apply list_elem_of_fmap_2|done].
    + intros o (g' & -> & Hg')%list_elem_of_fmap Hs. apply Hle, Ha. by exists g'.
Qed.
