(* ===== verification/BookBenchmark.v ===== *)
(** * The order flow of the book benchmark, on both books

    [build_workload], [run_preallocated] and [run_node_based] of
    [benchmarks/book_benchmark.cpp]. The benchmark compares two books on the same
    flow; here the two are shown to hold the same orders after it. The generator and
    its distributions are a parameter with the ranges the C++ standard gives them;
    the clock readings of the measuring loops are given. *)

From S2P Require Import Prelude Message BookSpec BookInterface OrderBook BookQueues OrderBookRep.
From S2P Require Import OrderBookMake OrderBookTheorems Engine NodeBook.

#[local] Open Scope Z_scope.
#[local] Open Scope llte_scope.

(** ** The workload *)

Inductive Action := DoAdd | DoCancel | DoModify | DoExecute.

Record Operation := mkOperation {
  action : Action;
  op_side : Side;
  op_order_id : Z;
  op_price : Z;
  op_quantity : Z
}.

(** [std::mt19937_64] and the two distributions drawn with it. *)
Class RngEnv (E : Type) := {
  rng : E → E * Z;
  offset : E → E * Z;
  lot : E → E * Z
}.

Class RngLaws (E : Type) `{RngEnv E} (EI : E → Prop) : Prop := {
  rng_law e : EI e → EI (rng e).1 ∧ 0 ≤ (rng e).2 < 2 ^ 64;
  offset_law e : EI e → EI (offset e).1 ∧ -40 ≤ (offset e).2 ≤ 40;
  lot_law e : EI e → EI (lot e).1 ∧ 1 ≤ (lot e).2 ≤ 20
}.

(** [live[index] = live.back(); live.pop_back()] *)
Definition take_out (live : list Z) (index : Z) : outcome (list Z) :=
  back ← load live (vlen live - 1);
  live ← assign live index back;
  Ret (take (length live - 1) live).

Section build.
Context {E : Type} `{RngEnv E}.

(** The body of the loop: the operation, the ids still listed, the next new id.
    The initializers of an operation are evaluated from left to right. *)
Definition new_operation (e : E) (live : list Z) (next_id : Z) : outcome (E * Operation * list Z * Z) :=
  let '(e, bit) := rng e in
  let side := if negb (Z.land bit 1 =? 0) then Buy else Sell in
  let '(e, off) := offset e in
  price ← i32 (18750 + off);
  price ← i32 (price + (if decide (side = Buy) then -2 else 2));
  let '(e, lots) := lot e in
  Ret (e, mkOperation DoAdd side next_id price (u32 (lots * 10)), live ++ [next_id], u64 (next_id + 1)).

Definition next_operation (e : E) (live : list Z) (next_id : Z) : outcome (E * Operation * list Z * Z) :=
  let '(e, draw) := rng e in
  let roll := draw mod 100 in
  if (vlen live =? 0) || (roll <? 60) then new_operation e live next_id
  else
    let '(e, draw) := rng e in
    index ← umod draw (vlen live);
    id ← load live index;
    if roll <? 80 then
      live ← take_out live index;
      Ret (e, mkOperation DoCancel Buy id 0 0, live, next_id)
    else if roll <? 92 then
      let '(e, off) := offset e in
      price ← i32 (18750 + off);
      let '(e, lots) := lot e in
      Ret (e, mkOperation DoModify Buy id price (u32 (lots * 10)), live, next_id)
    else
      let '(e, lots) := lot e in
      Ret (e, mkOperation DoExecute Buy id 0 (u32 (lots * 5)), live, next_id).

Fixpoint build_loop (n : nat) (e : E) (live : list Z) (next_id : Z) : outcome (list Operation) :=
  match n with
  | O => Ret []
  | S n =>
      '(e, operation, live, next_id) ← next_operation e live next_id;
      operations ← build_loop n e live next_id;
      Ret (operation :: operations)
  end.

(** [e] is the generator seeded. *)
Definition build_workload (count : Z) (e : E) : outcome (list Operation) := build_loop (Z.to_nat count) e [] 1.
End build.

(** ** The measuring loops *)

Definition book_config (max_orders : Z) : Book.Config := Book.mkConfig 18250 19250 max_orders.

Definition apply_preallocated (b : Book.t) (o : Operation) : outcome Book.t :=
  '(b, _) ← match action o with
            | DoAdd => Book.add b (op_order_id o) (op_side o) (op_price o) (op_quantity o)
            | DoCancel => Book.cancel b (op_order_id o)
            | DoModify => Book.modify b (op_order_id o) (op_price o) (op_quantity o)
            | DoExecute => Book.execute b (op_order_id o) (op_quantity o)
            end;
  Ret b.

Definition apply_node (b : NodeBook.t) (o : Operation) : outcome NodeBook.t :=
  match action o with
  | DoAdd => Ret (NodeBook.add b (op_order_id o) (op_side o) (op_price o) (op_quantity o))
  | DoCancel => NodeBook.cancel b (op_order_id o)
  | DoModify => NodeBook.modify b (op_order_id o) (op_price o) (op_quantity o)
  | DoExecute => NodeBook.execute b (op_order_id o) (op_quantity o)
  end.

(** The loop both functions have; [clock i] are the readings around operation [i]. *)
Fixpoint timed {T} (apply : T → Operation → outcome T) (clock : nat → Z * Z) (b : T)
    (latency : LatencySamples) (operations : list Operation) : outcome (T * LatencySamples) :=
  match operations with
  | [] => Ret (b, latency)
  | o :: operations =>
      b ← apply b o;
      timed apply (λ i, clock (S i)) b (samples_add latency (u64 ((clock O).2 - (clock O).1))) operations
  end.

Definition run_preallocated (max_orders : Z) (clock : nat → Z * Z) (sample_capacity : Z)
    (operations : list Operation) : outcome (Book.t * LatencySamples) :=
  b ← Book.make (book_config max_orders);
  timed apply_preallocated clock b (samples_make sample_capacity) operations.

Definition run_node_based (clock : nat → Z * Z) (sample_capacity : Z) (operations : list Operation)
    : outcome (NodeBook.t * LatencySamples) :=
  timed apply_node clock NodeBook.make (samples_make sample_capacity) operations.

(** ** The shape of a workload *)

Definition sound_price (p : Z) : Prop := 18250 ≤ p ≤ 19250.
Definition sound_quantity (q : Z) : Prop := 0 < q < 2 ^ 32.

Definition operation_ok (o : Operation) : Prop :=
  match action o with
  | DoAdd => 0 < op_order_id o ∧ sound_price (op_price o) ∧ sound_quantity (op_quantity o)
  | DoCancel => True
  | DoModify => sound_price (op_price o) ∧ sound_quantity (op_quantity o)
  | DoExecute => sound_quantity (op_quantity o)
  end.

Definition new_id (o : Operation) : option Z :=
  match action o with DoAdd => Some (op_order_id o) | _ => None end.
Definition new_ids (os : list Operation) : list Z := omap new_id os.

Section built.
Context {E : Type} `{RngEnv E} {EI : E → Prop} `{Hlaws : !RngLaws E EI}.

(** One operation: sound, and its id, if new, is the next one. *)
Definition drawn (live : list Z) (next_id : Z) (out : outcome (E * Operation * list Z * Z)) : Prop :=
  ∃ e o live' next', out = Ret (e, o, live', next') ∧ EI e ∧ operation_ok o ∧
    (new_id o = None ∧ next' = next_id ∨ new_id o = Some next_id ∧ next' = next_id + 1).

Lemma small_i32 z : - 2 ^ 31 ≤ z ≤ 2 ^ 31 - 1 → i32 z = Ret z.
Proof. intros Hz. unfold i32. destruct (Z.leb_spec (- 2 ^ 31) z), (Z.leb_spec z (2 ^ 31 - 1)); done || lia. Qed.

Lemma new_operation_drawn e live next_id :
  EI e → 0 < next_id → next_id + 1 < 2 ^ 64 → drawn live next_id (new_operation e live next_id).
Proof using Hlaws.
  intros He Hpos Hfit. unfold new_operation. destruct (rng_law e He) as [He1 _]. destruct (rng e) as [e1 bit]. cbn [fst] in He1.
  destruct (offset_law e1 He1) as [He2 Hoff]. destruct (offset e1) as [e2 off]. cbn [fst snd] in *.
  rewrite small_i32 by lia. returns. set (adj := if decide _ then -2 else 2).
  assert (-2 ≤ adj ≤ 2) as Hadj by (unfold adj; case_decide; lia). rewrite small_i32 by lia. returns.
  destruct (lot_law e2 He2) as [He3 Hlot]. destruct (lot e2) as [e3 lots]. cbn [fst snd] in *.
  rewrite u32_small, u64_small by lia. eexists _, _, _, _. split; [done|]. split; [done|]. split.
  - unfold operation_ok, sound_price, sound_quantity. cbn [action op_order_id op_price op_quantity]. lia.
  - by right.
Qed.

Lemma next_operation_drawn e live next_id :
  EI e → 0 < next_id → next_id + 1 < 2 ^ 64 → drawn live next_id (next_operation e live next_id).
Proof using Hlaws.
  intros He Hpos Hfit. unfold next_operation. destruct (rng_law e He) as [He1 Hr1]. destruct (rng e) as [e1 r1]. cbn [fst snd] in *.
  destruct (_ || _) eqn:Hor; [by apply new_operation_drawn|]. apply orb_false_iff in Hor as [Hne%Z.eqb_neq _].
  destruct (rng_law e1 He1) as [He2 Hr2]. destruct (rng e1) as [e2 r2]. cbn [fst snd] in *. pose proof (vlen_nonneg live).
  rewrite umod_ok by lia. returns. pose proof (Z.mod_pos_bound r2 (vlen live) ltac:(lia)) as Hix.
  destruct (vget_is_Some live _ Hix) as [id Hid]. rewrite (load_Some _ _ _ Hid). returns. destruct (_ <? 80).
  - unfold take_out. destruct (vget_is_Some live (vlen live - 1) ltac:(lia)) as [back Hback].
    rewrite (load_Some _ _ _ Hback). returns. rewrite assign_ok by done. returns.
    eexists _, _, _, _. split; [done|]. split; [done|]. split; [done|by left].
  - destruct (_ <? 92).
    + destruct (offset_law e2 He2) as [He3 Hoff]. destruct (offset e2) as [e3 off]. cbn [fst snd] in *.
      rewrite small_i32 by lia. returns. destruct (lot_law e3 He3) as [He4 Hlot]. destruct (lot e3) as [e4 lots]. cbn [fst snd] in *.
      rewrite u32_small by lia. eexists _, _, _, _. split; [done|]. split; [done|]. split; [|by left].
      unfold operation_ok, sound_price, sound_quantity. cbn [action op_price op_quantity]. lia.
    + destruct (lot_law e2 He2) as [He3 Hlot]. destruct (lot e2) as [e3 lots]. cbn [fst snd] in *.
      rewrite u32_small by lia. eexists _, _, _, _. split; [done|]. split; [done|]. split; [|by left].
      unfold operation_ok, sound_quantity. cbn [action op_quantity]. lia.
Qed.

Lemma build_loop_ok n : ∀ e live next_id,
  EI e → 0 < next_id → next_id + Z.of_nat n < 2 ^ 64 →
  ∃ os, build_loop n e live next_id = Ret os ∧ length os = n ∧ Forall operation_ok os ∧
    NoDup (new_ids os) ∧ Forall (λ i, next_id ≤ i) (new_ids os).
Proof using Hlaws.
  induction n as [|n IH]; intros e live next_id He Hpos Hfit; cbn [build_loop].
  { exists []. repeat split; constructor. }
  destruct (next_operation_drawn e live next_id He Hpos ltac:(lia)) as (e1 & o & live1 & next1 & -> & He1 & Ho & Hid). returns.
  destruct (IH e1 live1 next1 He1 ltac:(lia) ltac:(lia)) as (os & -> & Hlen & Hos & Hnd & Hge). returns.
  exists (o :: os). split; [done|]. split; [simpl; lia|]. split; [by constructor|].
  unfold new_ids in *. cbn [omap list_omap]. destruct Hid as [[-> ->]|[-> ->]]; [done|]. split.
  - apply NoDup_cons. split; [|done]. rewrite Forall_forall in Hge. intros Hin%Hge. simpl in Hin. lia.
  - constructor; [lia|]. eapply Forall_impl; [exact Hge|]. intros i Hi. simpl in Hi |- *. lia.
Qed.
End built.

(** ** The two books side by side *)

Definition to_op (o : Operation) : op :=
  match action o with
  | DoAdd => OpAdd (op_order_id o) (op_side o) (op_price o) (op_quantity o)
  | DoCancel => OpCancel (op_order_id o)
  | DoModify => OpModify (op_order_id o) (op_price o) (op_quantity o)
  | DoExecute => OpExecute (op_order_id o) (op_quantity o)
  end.

Lemma apply_preallocated_op b o b' r : apply_op b (to_op o) = Ret (b', r) → apply_preallocated b o = Ret b'.
Proof.
  unfold apply_preallocated, to_op. destruct (action o); cbn [apply_op with_result];
    intros ([b1 r1] & Hrun & [= <- <-])%bind_Ret_inv; cbn in Hrun; by rewrite Hrun.
Qed.

Lemma timed_preallocated os : ∀ clock b latency b' rs,
  run_ops b (to_op <$> os) = Ret (b', rs) →
  ∃ latency', timed apply_preallocated clock b latency os = Ret (b', latency').
Proof.
  induction os as [|o os IH]; intros clock b latency b' rs; cbn [fmap list_fmap run_ops timed]; [intros [= <- _]; eauto|].
  intros ([b1 r1] & Hrun & ([b2 rs2] & Hrest & [= <- _])%bind_Ret_inv)%bind_Ret_inv.
  rewrite (apply_preallocated_op _ _ _ _ Hrun). returns. by eapply IH.
Qed.

Lemma operation_op_ok o : operation_ok o → op_ok (to_op o).
Proof. unfold operation_ok, to_op, sound_quantity. destruct (action o); simpl; lia || done. Qed.

Section agree.
Context (n : Z).
#[local] Abbreviation L := (limits_of (book_config n)).

Definition sound_order (a : aorder) : Prop := sound_quantity (a_qty a) ∧ sound_price (a_price a).

(** The same orders in both; the node book may have them in another order, since it sends
    a modified order to the back in every case. *)
Record same_orders (nb : NodeBook.t) (G : list cell) (B : list aorder) : Prop := {
  sm_rep : node_rep nb G;
  sm_perm : G.*2 ≡ₚ B;
  sm_qty : Forall sound_order B
}.

Lemma find_cases (B : list aorder) id :
  (∃ B1 a B2, B = B1 ++ a :: B2 ∧ a_id a = id) ∨ (∀ a, a ∈ B → a_id a ≠ id).
Proof using Type.
  destruct (decide (Exists (λ a, a_id a = id) B)) as [Hex|Hno].
  - left. apply Exists_exists in Hex as (a & Ha & Hid). apply list_elem_of_split in Ha as (B1 & B2 & ->). by exists B1, a, B2.
  - right. intros a Ha Hid. apply Hno, Exists_exists. by exists a.
Qed.

(** A resting order, in both books. *)
Lemma found_both nb G B1 a B2 :
  same_orders nb G (B1 ++ a :: B2) →
  NoDup (a_id <$> B1 ++ a :: B2) ∧
  ∃ G1 h G2, G = G1 ++ (h, a) :: G2 ∧ (G1 ++ G2).*2 ≡ₚ B1 ++ B2.
Proof using Type.
  intros [HG Hp _]. split; [rewrite <- Hp; apply (nr_ids _ _ HG)|].
  assert (a ∈ G.*2) as ((h & a') & Ea & Hin)%list_elem_of_fmap by (rewrite Hp; set_solver). cbn [snd] in Ea. subst a'.
  apply list_elem_of_split in Hin as (G1 & G2 & ->). exists G1, h, G2. split; [done|].
  apply (Permutation_cons_inv (a := a)). rewrite Permutation_middle, <- Hp. rewrite !fmap_app, fmap_cons. cbn [snd].
  apply Permutation_middle.
Qed.

Lemma absent_both nb G B id :
  same_orders nb G B → (∀ a, a ∈ B → a_id a ≠ id) →
  a_find id B = None ∧ NodeBook.index_ nb !! id = None ∧ (∀ g, g ∈ G → a_id g.2 ≠ id).
Proof using Type.
  intros [HG Hp _] Hno. assert (∀ g, g ∈ G → a_id g.2 ≠ id) as Hno'.
  { intros g Hg. apply Hno. rewrite <- Hp. by apply list_elem_of_fmap_2. }
  split; [by apply a_find_None|]. split; [by eapply unknown_index|done].
Qed.

Lemma sound_band p : sound_price p → a_in_band L p = true.
Proof using Type. unfold sound_price, a_in_band. cbn. intros. apply andb_true_iff. split; apply Z.leb_le; lia. Qed.

Lemma sound_rest B1 a B2 : Forall sound_order (B1 ++ a :: B2) → Forall sound_order (B1 ++ B2) ∧ sound_order a.
Proof using Type. rewrite !Forall_app, Forall_cons. tauto. Qed.

Lemma sound_snoc B a : Forall sound_order B → sound_order a → Forall sound_order (B ++ [a]).
Proof using Type. intros. apply Forall_app. split; [done|]. by constructor. Qed.

Lemma add_agrees nb G B id s p q :
  same_orders nb G B → 0 < id → sound_price p → sound_quantity q → (∀ a, a ∈ B → a_id a ≠ id) →
  (spec_add L id s p q B).2 ≠ PoolExhausted →
  ∃ G', same_orders (NodeBook.add nb id s p q) G' (spec_add L id s p q B).1.
Proof using Type.
  intros Hs Hid Hp Hq Hno Hroom. destruct (absent_both nb G B id Hs Hno) as (Hf & _ & Hg).
  revert Hroom. unfold spec_add. rewrite sound_band, Hf by done. cbn [negb].
  destruct (Z.eqb_spec id 0); [lia|]. destruct (Z.eqb_spec q 0); [unfold sound_quantity in Hq; lia|].
  destruct (_ <? _); [|done]. intros _. destruct Hs as [HG Hperm Hqty]. cbn [fst]. eexists. split.
  - by apply add_rep.
  - rewrite fmap_app. cbn. by rewrite Hperm.
  - by apply sound_snoc.
Qed.

Lemma cancel_agrees nb G B id :
  same_orders nb G B → ∃ nb' G', NodeBook.cancel nb id = Ret nb' ∧ same_orders nb' G' (spec_cancel id B).1.
Proof using Type.
  intros Hs. unfold spec_cancel. destruct (find_cases B id) as [(B1 & a & B2 & -> & <-)|Hno].
  - destruct (found_both _ _ _ _ _ Hs) as (Hnd & G1 & h & G2 & -> & Hrest). destruct Hs as [HG Hperm Hqty].
    destruct (cancel_rep HG) as (nb' & -> & HG'). exists nb', (G1 ++ G2). split; [done|].
    rewrite a_find_split, a_remove_split by done. split; [done|done|]. by apply sound_rest in Hqty as [? _].
  - destruct (absent_both nb G B id Hs Hno) as (-> & Hx & _). unfold NodeBook.cancel. rewrite Hx. by exists nb, G.
Qed.

Lemma modify_agrees nb G B id p q :
  same_orders nb G B → sound_price p → sound_quantity q →
  ∃ nb' G', NodeBook.modify nb id p q = Ret nb' ∧ same_orders nb' G' (spec_modify L id p q B).1.
Proof using Type.
  intros Hs Hp Hq. unfold spec_modify. rewrite sound_band by done. cbn [negb].
  destruct (Z.eqb_spec q 0); [unfold sound_quantity in Hq; lia|].
  destruct (find_cases B id) as [(B1 & a & B2 & -> & <-)|Hno].
  - destruct (found_both _ _ _ _ _ Hs) as (Hnd & G1 & h & G2 & -> & Hrest). destruct Hs as [HG Hperm Hqty].
    destruct (modify_rep HG p q) as (nb' & -> & h' & HG'). eexists nb', _. split; [done|].
    apply sound_rest in Hqty as [Hqty Ha]. rewrite a_find_split by done.
    destruct (Z.eqb_spec p (a_price a)) as [Ep|]; [destruct (q <? a_qty a)|]; cbn [andb fst];
      rewrite ?a_remove_split, ?a_resize_split by done.
    + split; [exact HG'| |].
      * rewrite fmap_app. cbn. rewrite Hrest, <- Permutation_cons_append. unfold resized. rewrite <- Ep. apply Permutation_middle.
      * apply Forall_app in Hqty as [? ?]. apply Forall_app. split; [done|]. constructor; [|done].
        split; [done|apply Ha].
    + split; [exact HG'| |by apply sound_snoc]. rewrite fmap_app. cbn. by rewrite Hrest.
    + split; [exact HG'| |by apply sound_snoc]. rewrite fmap_app. cbn. by rewrite Hrest.
  - destruct (absent_both nb G B id Hs Hno) as (-> & Hx & _). unfold NodeBook.modify. rewrite Hx. by exists nb, G.
Qed.

Lemma execute_agrees nb G B id q :
  same_orders nb G B → sound_quantity q →
  ∃ nb' G', NodeBook.execute nb id q = Ret nb' ∧ same_orders nb' G' (spec_execute id q B).1.
Proof using Type.
  intros Hs Hq. unfold spec_execute. destruct (Z.eqb_spec q 0); [unfold sound_quantity in Hq; lia|].
  destruct (find_cases B id) as [(B1 & a & B2 & -> & <-)|Hno].
  - destruct (found_both _ _ _ _ _ Hs) as (Hnd & G1 & h & G2 & -> & Hrest). destruct Hs as [HG Hperm Hqty].
    apply sound_rest in Hqty as [Hqty [Ha Hpr]]. unfold sound_quantity in Ha, Hq.
    destruct (execute_rep HG q Ha ltac:(lia)) as (nb' & -> & HG').
    rewrite a_find_split by done. destruct (Z.leb_spec (a_qty a) q); cbn [fst]; (eexists nb', _; split; [done|]).
    + rewrite a_remove_split by done. by split.
    + rewrite a_resize_split by done. split; [exact HG'| |].
      * rewrite fmap_app, fmap_cons, fmap_app in *. cbn [snd]. rewrite <- !Permutation_middle. by constructor.
      * apply Forall_app in Hqty as [? ?]. apply Forall_app. split; [done|]. constructor; [|done].
        split; [|done]. unfold sound_quantity. cbn [resized a_qty]. lia.
  - destruct (absent_both nb G B id Hs Hno) as (-> & Hx & _). unfold NodeBook.execute. rewrite Hx. by exists nb, G.
Qed.

Lemma apply_agrees nb G B o :
  same_orders nb G B → operation_ok o → (∀ i a, new_id o = Some i → a ∈ B → a_id a ≠ i) →
  (spec_op L (to_op o) B).2 ≠ Some PoolExhausted →
  ∃ nb' G', apply_node nb o = Ret nb' ∧ same_orders nb' G' (spec_op L (to_op o) B).1.
Proof using Type.
  unfold operation_ok, apply_node, to_op, new_id. intros Hs Ho Hnew Hroom. destruct (action o); cbn [spec_op some_result fst snd] in *.
  - destruct Ho as (Hid & Hp & Hq). destruct (add_agrees nb G B _ (op_side o) _ _ Hs Hid Hp Hq ltac:(eauto) ltac:(congruence))
      as [G' HG']. eexists _, G'. done.
  - by apply (cancel_agrees nb G).
  - destruct Ho. by apply (modify_agrees nb G).
  - by apply (execute_agrees nb G).
Qed.

(** Ids of the book after an operation. *)
Lemma spec_op_ids o B a : a ∈ (spec_op L (to_op o) B).1 → (∃ a', a' ∈ B ∧ a_id a' = a_id a) ∨ new_id o = Some (a_id a).
Proof using Type.
  assert (∀ id B, a ∈ a_remove id B → ∃ a', a' ∈ B ∧ a_id a' = a_id a) as Hrem.
  { intros id B' [_ Ha]%list_elem_of_filter. eauto. }
  assert (∀ id q B, a ∈ a_resize id q B → ∃ a', a' ∈ B ∧ a_id a' = a_id a) as Hres.
  { intros id q B' (a' & -> & Ha')%list_elem_of_fmap. exists a'. split; [done|]. by case_decide. }
  assert (∀ id o', a_find id B = Some o' → o' ∈ B ∧ a_id o' = id) as Hfind.
  { unfold a_find. intros id o'. destruct (list_find _ B) as [[i x]|] eqn:E; [|done]. intros [= <-].
    apply list_find_Some in E as (Hi & Hid & _). split; [by eapply list_elem_of_lookup_2|done]. }
  unfold to_op, new_id. destruct (action o); cbn [spec_op some_result fst].
  - unfold spec_add. repeat case_match; cbn [fst]; eauto. intros [Ha| ->%list_elem_of_singleton]%elem_of_app; [eauto|by right].
  - unfold spec_cancel. repeat case_match; cbn [fst]; eauto.
  - unfold spec_modify. destruct (_ =? 0); cbn [fst]; [eauto|]. destruct (negb _); cbn [fst]; [eauto|].
    destruct (a_find _ B) as [x|] eqn:Hx; cbn [fst]; [|eauto]. destruct (_ && _); cbn [fst]; [eauto|].
    intros [Ha| ->%list_elem_of_singleton]%elem_of_app; [eauto|]. left. exists x. by apply Hfind.
  - unfold spec_execute. repeat case_match; cbn [fst]; eauto.
Qed.

Lemma timed_agrees os : ∀ clock latency nb G B,
  same_orders nb G B → Forall operation_ok os → NoDup (new_ids os) →
  (∀ i a, i ∈ new_ids os → a ∈ B → a_id a ≠ i) → Some PoolExhausted ∉ (spec_ops L (to_op <$> os) B).2 →
  ∃ nb' G' latency', timed apply_node clock nb latency os = Ret (nb', latency') ∧
    same_orders nb' G' (spec_ops L (to_op <$> os) B).1.
Proof using Type.
  induction os as [|o os IH]; intros clock latency nb G B Hs Hok Hnd Hnew; [intros _; by exists nb, G, latency|].
  rewrite fmap_cons. cbn [spec_ops timed]. destruct (spec_op L (to_op o) B) as [B1 r] eqn:Hop.
  destruct (spec_ops L (to_op <$> os) B1) as [B2 rs] eqn:Hops. cbn [fst snd]. intros Hroom.
  apply Forall_cons in Hok as [Ho Hok].
  assert (∀ i a, new_id o = Some i → a ∈ B → a_id a ≠ i) as Hfirst.
  { intros i a Hi. apply Hnew. unfold new_ids. cbn [omap list_omap]. rewrite Hi. constructor. }
  destruct (apply_agrees nb G B o Hs Ho Hfirst) as (nb1 & G1 & -> & Hs1); [rewrite Hop; set_solver|]. returns.
  rewrite Hop in Hs1. cbn [fst] in Hs1.
  destruct (IH (λ i, clock (S i)) (samples_add latency (u64 ((clock 0%nat).2 - (clock 0%nat).1))) nb1 G1 B1 Hs1 Hok)
    as (nb2 & G2 & latency2 & Hrun2 & Hs2).
  - unfold new_ids in *. cbn [omap list_omap] in Hnd. destruct (new_id o); [by apply NoDup_cons in Hnd as [_ ?]|done].
  - intros i a Hi Ha. assert (B1 = (spec_op L (to_op o) B).1) as E1 by (by rewrite Hop). rewrite E1 in Ha. unfold new_ids in *. cbn [omap list_omap] in Hnd, Hnew.
    apply spec_op_ids in Ha as [(a' & Ha' & <-)|Hid].
    + apply Hnew; [|done]. destruct (new_id o); [by constructor|done].
    + rewrite Hid in Hnd. apply NoDup_cons in Hnd as [Hnotin _]. intros E. by rewrite <- E in Hi.
  - rewrite Hops. set_solver.
  - rewrite Hops in Hs2. exists nb2, G2, latency2. done.
Qed.
End agree.

(** ** Reading the node book *)

Definition node_lookup (b : NodeBook.t) (id : Z) : outcome (option aorder) :=
  match NodeBook.index_ b !! id with
  | None => Ret None
  | Some l =>
      e ← NodeBook.deref b (NodeBook.position l);
      Ret (Some (mkAOrder (NodeBook.e_id e) (NodeBook.l_side l) (NodeBook.l_price l) (NodeBook.e_quantity e)))
  end.

Definition node_level (b : NodeBook.t) (buy : bool) (p : Z) : outcome (list NodeBook.Entry) :=
  mapM (NodeBook.deref b) (default [] (NodeBook.levels b buy !! p)).

Definition entry_of (a : aorder) : NodeBook.Entry := NodeBook.mkEntry (a_id a) (a_qty a).

Lemma node_lookup_rep nb G B id : same_orders nb G B → node_lookup nb id = Ret (a_find id B).
Proof.
  intros Hs. unfold node_lookup. destruct (find_cases B id) as [(B1 & a & B2 & -> & <-)|Hno].
  - destruct (found_both _ _ _ _ _ Hs) as (Hnd & G1 & h & G2 & -> & _). destruct Hs as [HG _ _].
    rewrite (found_index HG), a_find_split by done. cbn [located NodeBook.position NodeBook.l_side NodeBook.l_price fst snd].
    unfold NodeBook.deref. rewrite (nr_heap _ _ HG (h, a) cell_in : NodeBook.nodes nb !! h = _). by destruct a.
  - by destruct (absent_both nb G B id Hs Hno) as (-> & -> & _).
Qed.

Lemma deref_cells nb (cs : list cell) :
  (∀ g, g ∈ cs → NodeBook.nodes nb !! g.1 = Some (entry_of g.2)) →
  mapM (NodeBook.deref nb) cs.*1 = Ret (entry_of <$> cs.*2).
Proof.
  induction cs as [|g cs IH]; intros Hcs; [done|]. rewrite !fmap_cons. cbn [mapM].
  assert (NodeBook.deref nb g.1 = Ret (entry_of g.2)) as -> by (unfold NodeBook.deref; by rewrite Hcs by constructor). returns.
  rewrite IH by (intros g' Hg'; apply Hcs; by constructor). done.
Qed.

Lemma filter_snd (P : aorder → Prop) `{∀ a, Decision (P a)} (G : list cell) :
  (filter (λ g : cell, P g.2) G).*2 = filter P G.*2.
Proof. induction G as [|g G IH]; [done|]. rewrite fmap_cons, !filter_cons. case_decide; [|done]. by rewrite fmap_cons, IH. Qed.

Lemma node_level_rep nb G B buy p : same_orders nb G B →
  ∃ q, node_level nb buy p = Ret q ∧ q ≡ₚ entry_of <$> a_queue buy p B.
Proof.
  intros [HG Hp _]. unfold node_level. rewrite (nr_levels _ _ HG), level_of_default. unfold handles.
  rewrite deref_cells by (intros g [_ Hg]%list_elem_of_filter; by apply (nr_heap _ _ HG)).
  eexists. split; [done|]. rewrite filter_snd. unfold a_queue. by rewrite Hp.
Qed.

(** ** Room in the pool *)

Lemma spec_ops_room n os : ∀ B, Z.of_nat (length B) + vlen os ≤ n →
  Some PoolExhausted ∉ (spec_ops (limits_of (book_config n)) (to_op <$> os) B).2.
Proof.
  induction os as [|o os IH]; intros B Hlen; [set_solver|]. rewrite fmap_cons. cbn [spec_ops]. rewrite vlen_cons in Hlen.
  pose proof (vlen_nonneg os). destruct (spec_op_room (limits_of (book_config n)) (to_op o) B) as [Hgrow Hfull]. cbn [l_orders limits_of book_config Book.max_orders] in Hfull. destruct (spec_op _ (to_op o) B) as [B1 r].
  cbn [fst snd] in *. specialize (IH B1 ltac:(lia)). destruct (spec_ops _ (to_op <$> os) B1) as [B2 rs]. cbn [snd] in *.
  intros [E|?]%elem_of_cons; [specialize (Hfull (eq_sym E)); lia|done].
Qed.

(** The quote of the node book is that of the array book, with 0 for no price. *)
Lemma same_quote sd B B' p p' :
  B' ≡ₚ B → (no_side sd B ∧ p = Book.kNoPrice) ∨ is_best sd p B → (no_side sd B' ∧ p' = 0) ∨ is_best sd p' B' →
  Forall (λ a, a_price a ≠ Book.kNoPrice) B → p' = if p =? Book.kNoPrice then 0 else p.
Proof.
  intros Hp Hb Hb' Hne. rewrite Forall_forall in Hne.
  assert (∀ a, a ∈ B' ↔ a ∈ B) as Hin by (intros a; by rewrite Hp).
  destruct Hb as [[Hno ->]|[(a & Ha & Hs & Hat) Hbest]], Hb' as [[Hno' ->]|[(a' & Ha' & Hs' & Hat') Hbest']].
  - done.
  - by destruct (Hno a'); [apply Hin|].
  - by destruct (Hno' a); [apply Hin|].
  - destruct (Z.eqb_spec p Book.kNoPrice) as [E|_]; [by destruct (Hne a Ha); rewrite Hat|].
    pose proof (Hbest a' (proj1 (Hin a') Ha') Hs') as H1. pose proof (Hbest' a (proj2 (Hin a) Ha) Hs) as H2.
    destruct sd; lia.
Qed.

(** C21. The shipped book and the node-based book of the benchmark agree. Whatever
    the generator draws, the workload is built and both measuring loops end without a
    fault, whether or not the pool of the shipped book runs out: the node book never
    follows an iterator to an erased node. Unless that pool ran out, which it cannot on a flow of no more operations than it has slots,
    the two end with the same orders: they find the same order for every id, hold the
    same orders at every price, and quote the same best prices, the node book with 0
    for an empty side. Only the place of an order in its queue may differ. *)
Theorem books_agree {E} {env : RngEnv E} {EI : E → Prop} {Hlaws : RngLaws E EI} e count max_orders
    clock clock' sample_capacity :
  EI e → 0 ≤ count < 2 ^ 64 - 1 → 0 < max_orders ≤ Book.kNullOrder →
  ∃ os b0 b rs latency nb latency',
    build_workload count e = Ret os ∧ vlen os = count ∧
    Book.make (book_config max_orders) = Ret b0 ∧ run_ops b0 (to_op <$> os) = Ret (b, rs) ∧
    run_preallocated max_orders clock sample_capacity os = Ret (b, latency) ∧
    run_node_based clock' sample_capacity os = Ret (nb, latency') ∧
    (count ≤ max_orders → Some PoolExhausted ∉ rs) ∧
    (Some PoolExhausted ∉ rs →
     ∃ bid ask,
       (∀ id, ∃ found, lookup_order b id = Ret found ∧ node_lookup nb id = Ret found) ∧
       (∀ sd p, Book.in_band b p = true →
          ∃ q q', level_orders b sd p = Ret q ∧ node_level nb sd p = Ret q' ∧ q' ≡ₚ entry_of <$> q) ∧
       Book.best_bid b = Ret bid ∧ NodeBook.best_bid nb = (if bid =? Book.kNoPrice then 0 else bid) ∧
       Book.best_ask b = Ret ask ∧ NodeBook.best_ask nb = (if ask =? Book.kNoPrice then 0 else ask)).
Proof.
  intros He Hc Hn. assert (limits_ok (limits_of (book_config max_orders))) as HL by (split; [by vm_compute|done]).
  destruct (build_loop_ok (Z.to_nat count) e [] 1 He ltac:(lia) ltac:(lia)) as (os & Hos & Hlen & Hok & Hnd & _).
  destruct (make_spec _ HL) as (b0 & Hb0 & HR0).
  assert (Forall op_ok (to_op <$> os)) as Hops.
  { apply Forall_fmap. eapply Forall_impl; [exact Hok|]. intros o Ho. by apply operation_op_ok. }
  destruct (run_ops_spec _ b0 [] (conj HL HR0 : sized _ b0 []) Hops) as (b & Hrun & _ & HR).
  destruct (timed_preallocated os clock b0 (samples_make sample_capacity) b _ Hrun) as [latency Htimed].
  assert (same_orders NodeBook.make [] []) as Hs0 by (split; [apply node_rep_make|done|constructor]).
  destruct (timed_agrees (vlen os) os clock' (samples_make sample_capacity) NodeBook.make [] [] Hs0 Hok Hnd
    ltac:(set_solver) ltac:(apply spec_ops_room; unfold vlen; simpl; lia)) as (nb & _ & latency' & Hnode & _).
  eexists os, b0, b, _, latency, nb, latency'. split; [exact Hos|]. split; [unfold vlen; lia|]. split; [done|]. split; [exact Hrun|].
  split; [unfold run_preallocated; by rewrite Hb0|].
  split; [exact Hnode|]. split; [intros Hroom; apply spec_ops_room; unfold vlen; simpl; lia|]. intros Hroom.
  destruct (timed_agrees max_orders os clock' (samples_make sample_capacity) NodeBook.make [] [] Hs0 Hok Hnd
    ltac:(set_solver) Hroom) as (nb' & G & latency2 & Hrun' & Hs).
  rewrite Hnode in Hrun'. injection Hrun' as <- <-.
  pose proof (refines_observed _ _ _ HR) as HO. destruct (ob_bid _ _ _ HO) as (bid & Hbid & Hb), (ob_ask _ _ _ HO) as (ask & Hask & Ha).
  destruct (quotes_rep nb G (sm_rep _ _ _ Hs)) as [Hb' Ha'].
  assert (Forall (λ a, a_price a ≠ Book.kNoPrice) (spec_ops (limits_of (book_config max_orders)) (to_op <$> os) []).1) as Hpr.
  { eapply Forall_impl; [exact (sm_qty _ _ _ Hs)|]. intros a [_ Hp]. unfold sound_price, Book.kNoPrice, int64_min in *. lia. }
  exists bid, ask. split; [intros id; eexists; split; [apply (ob_lookup _ _ _ HO)|by eapply node_lookup_rep]|].
  split. { intros sd p Hband. destruct (node_level_rep nb G _ sd p Hs) as (q & Hq & Hperm).
    eexists _, q. split; [by apply (ob_level _ _ _ HO)|]. done. }
  pose proof (sm_perm _ _ _ Hs) as Hperm. split; [done|]. split; [by eapply same_quote|]. split; [done|]. by eapply same_quote.
Qed.

(** A generator that counts. *)
#[local] Instance counting : RngEnv Z := {
  rng e := (u64 (e * 7919 + 31), e);
  offset e := (u64 (e * 7919 + 31), e mod 81 - 40);
  lot e := (u64 (e * 7919 + 31), e mod 20 + 1)
}.

Lemma counting_laws : RngLaws Z (λ e, 0 ≤ e < 2 ^ 64).
Proof.
  split; intros e He; cbn; (split; [apply u64_range|]); [done| |].
  - pose proof (Z.mod_pos_bound e 81). lia.
  - pose proof (Z.mod_pos_bound e 20). lia.
Qed.

Lemma books_agree_witness :
  ∃ os b latency nb latency', build_workload 40 11 = Ret os ∧ vlen os = 40 ∧
    run_preallocated 64 (λ _, (5, 8)) 40 os = Ret (b, latency) ∧
    run_node_based (λ _, (5, 9)) 40 os = Ret (nb, latency') ∧
    ∀ id, ∃ found, lookup_order b id = Ret found ∧ node_lookup nb id = Ret found.
Proof.
  destruct (books_agree (Hlaws := counting_laws) 11 40 64 (λ _, (5, 8)) (λ _, (5, 9)) 40)
    as (os & b0 & b & rs & latency & nb & latency' & H1 & H2 & _ & _ & H3 & H6 & H4 & H5).
  - lia.
  - lia.
  - vm_compute. split; congruence.
  - destruct (H5 (H4 ltac:(lia))) as (bid & ask & H7 & _). exists os, b, latency, nb, latency'.
    split; [exact H1|]. split; [exact H2|]. split; [exact H3|]. split; [exact H6|exact H7].
Defined.
