(* ===== verification/Latency.v ===== *)
(** * The latency summary

    [LatencySamples::summarize] and [percentile] of [include/llte/latency_stats.hpp].
    The index of a percentile is computed in [double]; here a non-negative double
    is an integer multiple of [2^-53] and every operation rounds its exact result
    to 53 significant bits, ties to even. A compiler may fuse the multiplication
    and the addition into one rounding; [fused] says whether it did. The mean, which
    is computed in [long double] and not printed, is a parameter. *)

From S2P Require Import Prelude Message BookSpec BookInterface Engine.
From stdpp Require Import sorting.

#[local] Open Scope Z_scope.
#[local] Open Scope llte_scope.

Module Latency.

(** ** Doubles as multiples of [2^-53] *)

Definition scale : Z := 2 ^ 53.

(** The multiple of [2^e] nearest to [n], ties to the even one. *)
Definition round_at (e n : Z) : Z :=
  let q := n / 2 ^ e in
  let r := n mod 2 ^ e in
  if (2 ^ e <? 2 * r) || ((2 * r =? 2 ^ e) && Z.odd q) then (q + 1) * 2 ^ e else q * 2 ^ e.

(** Rounding to 53 significant bits. *)
Definition rounded (n : Z) : Z := round_at (Z.max 0 (Z.log2 n - 52)) n.

(** The literals [0.50], [0.90], [0.95], [0.99] and [0.999], and [+ 0.5]. *)
Definition f50 : Z := 4503599627370496.
Definition f90 : Z := 8106479329266893.
Definition f95 : Z := 8556839292003942.
Definition f99 : Z := 8917127262193582.
Definition f999 : Z := 8998192055486251.
Definition one_half : Z := f50.

(** [fraction * last + 0.5], in units of [2^-53]; [last] is first converted. *)
Definition rank (fused : bool) (fraction last : Z) : Z :=
  let product := fraction * rounded last in
  if fused then rounded (product + one_half) else rounded (rounded product + one_half).

(** [static_cast<std::size_t>]: undefined when the value does not fit. *)
Definition to_size (x : Z) : outcome Z :=
  if x / scale <? 2 ^ 64 then Ret (x / scale) else Fault SignedOverflow.

(** ** The summary *)

Record Summary (double : Type) := mkSummary {
  count : Z;
  min : Z;
  p50 : Z;
  p90 : Z;
  p95 : Z;
  p99 : Z;
  p999 : Z;
  max : Z;
  mean : double
}.
Arguments mkSummary {double}.
Arguments count {double}.
Arguments min {double}.
Arguments p50 {double}.
Arguments p90 {double}.
Arguments p95 {double}.
Arguments p99 {double}.
Arguments p999 {double}.
Arguments max {double}.
Arguments mean {double}.

Section summary.
Context {double : Type} (zero : double) (mean_of : list Z → double) (fused : bool).

Definition percentile (samples : list Z) (fraction : Z) : outcome Z :=
  let last := u64 (vlen samples - 1) in
  index ← to_size (rank fused fraction last);
  load samples (Z.min index last).

(** [std::sort] of integers: the sorted permutation. *)
Definition summarize (s : LatencySamples) : outcome (LatencySamples * Summary double) :=
  if vlen (samples_ s) =? 0 then Ret (s, mkSummary 0 0 0 0 0 0 0 0 zero)
  else
    let samples := merge_sort Z.le (samples_ s) in
    front ← load samples 0;
    back ← load samples (vlen samples - 1);
    v50 ← percentile samples f50;
    v90 ← percentile samples f90;
    v95 ← percentile samples f95;
    v99 ← percentile samples f99;
    v999 ← percentile samples f999;
    Ret (mkSamples samples (capacity_ s) (dropped_ s),
         mkSummary (vlen samples) front v50 v90 v95 v99 v999 back (mean_of samples)).
End summary.

(** ** Rounding *)

Section rounding.
Implicit Types a b n e k : Z.

Lemma round_at_cases e n : 0 ≤ e →
  let q := n / 2 ^ e in
  let r := n mod 2 ^ e in
  n = q * 2 ^ e + r ∧ 0 ≤ r < 2 ^ e ∧
  (round_at e n = q * 2 ^ e ∧ 2 * r ≤ 2 ^ e ∧ (2 * r = 2 ^ e → Z.odd q = false) ∨
   round_at e n = (q + 1) * 2 ^ e ∧ 2 ^ e ≤ 2 * r ∧ (2 * r = 2 ^ e → Z.odd q = true)).
Proof.
  intros He q r. assert (0 < 2 ^ e) as Hp by lia.
  split; [unfold q, r; rewrite Z.mul_comm; by apply Z.div_mod; lia|].
  split; [by apply Z.mod_pos_bound|]. unfold round_at. fold q r.
  destruct (Z.ltb_spec (2 ^ e) (2 * r)); simpl; [right; lia|].
  destruct (Z.eqb_spec (2 * r) (2 ^ e)); simpl; [|left; lia].
  destruct (Z.odd q) eqn:Ho; [right|left]; lia.
Qed.

Lemma round_at_mono e a b : 0 ≤ e → a ≤ b → round_at e a ≤ round_at e b.
Proof.
  intros He Hab. assert (0 < 2 ^ e) as Hp by lia.
  destruct (round_at_cases e a He) as (Ha & Hra & Ca), (round_at_cases e b He) as (Hb & Hrb & Cb).
  assert (a / 2 ^ e ≤ b / 2 ^ e) as Hq by (apply Z.div_le_mono; lia).
  set (qa := a / 2 ^ e) in *. set (qb := b / 2 ^ e) in *.
  set (ra := a mod 2 ^ e) in *. set (rb := b mod 2 ^ e) in *.
  destruct (decide (qa = qb)) as [E|Hne]; [|nia].
  assert (ra ≤ rb) by (rewrite E in Ha; lia). rewrite E in *.
  destruct Ca as [[-> Ca]|[-> [Ca Ca']]], Cb as [[-> [Cb Cb']]|[-> Cb]]; try nia.
  assert (2 * rb = 2 ^ e) as Hh by lia. assert (2 * ra = 2 ^ e) as Hh' by lia.
  rewrite (Ca' Hh') in Cb'. by specialize (Cb' Hh).
Qed.

Lemma round_at_error e n : 0 ≤ e → 2 * Z.abs (round_at e n - n) ≤ 2 ^ e.
Proof. intros He. destruct (round_at_cases e n He) as (Hn & Hr & [[-> H]|[-> H]]); nia. Qed.

(** Multiples of [2^e] are not moved. *)
Lemma round_at_exact e n : 0 ≤ e → (2 ^ e | n) → round_at e n = n.
Proof.
  intros He Hd. assert (0 < 2 ^ e) by lia. destruct (round_at_cases e n He) as (Hn & Hr & C).
  assert (n mod 2 ^ e = 0) as E by (by apply Z.mod_divide; [lia|]). rewrite E in *. lia.
Qed.

Lemma rounded_bounds n : 0 < n → 2 ^ Z.log2 n ≤ rounded n ≤ 2 ^ (Z.log2 n + 1).
Proof.
  intros Hn. pose proof (Z.log2_spec n Hn) as [Hl Hh]. pose proof (Z.log2_nonneg n). unfold rounded.
  set (e := Z.max 0 (Z.log2 n - 52)). assert (0 ≤ e ≤ Z.log2 n) as He by lia.
  assert (∀ k, e ≤ k → round_at e (2 ^ k) = 2 ^ k) as Hp.
  { intros k Hk. apply round_at_exact; [lia|]. exists (2 ^ (k - e)). rewrite <- Z.pow_add_r by lia. f_equal. lia. }
  rewrite <- (Hp (Z.log2 n)) at 1 by lia. rewrite <- (Hp (Z.log2 n + 1)) by lia.
  rewrite Z.add_1_r. split; apply round_at_mono; lia.
Qed.

Lemma rounded_0 : rounded 0 = 0.
Proof. done. Qed.

Lemma rounded_nonneg n : 0 ≤ n → 0 ≤ rounded n.
Proof.
  intros. destruct (decide (n = 0)) as [->|]; [done|]. pose proof (rounded_bounds n ltac:(lia)).
  pose proof (Z.pow_nonneg 2 (Z.log2 n) ltac:(lia)). lia.
Qed.

Lemma rounded_mono a b : 0 ≤ a ≤ b → rounded a ≤ rounded b.
Proof.
  intros [Ha Hab]. destruct (decide (a = 0)) as [->|]; [rewrite rounded_0; by apply rounded_nonneg|].
  pose proof (Z.log2_le_mono a b Hab) as Hlog. destruct (decide (Z.log2 a = Z.log2 b)) as [E|Hne].
  - unfold rounded. rewrite E. apply round_at_mono; lia.
  - pose proof (rounded_bounds a ltac:(lia)). pose proof (rounded_bounds b ltac:(lia)).
    pose proof (Z.log2_nonneg a). assert (2 ^ (Z.log2 a + 1) ≤ 2 ^ Z.log2 b) by (apply Z.pow_le_mono_r; lia). lia.
Qed.

(** Integers of at most 53 bits are represented exactly. *)
Lemma rounded_small n : 0 ≤ n < 2 ^ 53 → rounded n = n.
Proof.
  intros [H0 Hn]. destruct (decide (n = 0)) as [->|]; [done|]. unfold rounded.
  assert (Z.log2 n < 53) by (apply Z.log2_lt_pow2; lia).
  replace (Z.max 0 (Z.log2 n - 52)) with 0 by lia. apply round_at_exact; [lia|]. apply Z.divide_1_l.
Qed.

Lemma rounded_error n k : 0 ≤ n < 2 ^ k → 53 ≤ k → 2 * Z.abs (rounded n - n) ≤ 2 ^ (k - 53).
Proof.
  intros [H0 Hn] Hk. destruct (decide (n = 0)) as [->|].
  { rewrite rounded_0, Z.sub_0_r. simpl. apply Z.pow_nonneg. lia. }
  assert (Z.log2 n < k) by (apply Z.log2_lt_pow2; lia).
  etrans; [apply round_at_error; lia|]. apply Z.pow_le_mono_r; lia.
Qed.
End rounding.

(** Numbers with at most 53 significant bits are represented exactly. *)
Lemma rounded_scaled m k : 0 ≤ m < 2 ^ 53 → 0 ≤ k → rounded (m * 2 ^ k) = m * 2 ^ k.
Proof.
  intros [H0 Hm] Hk. destruct (decide (m = 0)) as [->|]; [done|]. unfold rounded.
  assert (Z.log2 m < 53) by (apply Z.log2_lt_pow2; lia). rewrite Z.log2_mul_pow2 by lia.
  apply round_at_exact; [lia|]. apply Z.divide_mul_r.
  exists (2 ^ (k - Z.max 0 (k + Z.log2 m - 52))). rewrite <- Z.pow_add_r by lia. f_equal. lia.
Qed.

(** ** Ranks *)

Definition fraction_ok (fraction : Z) : Prop := 0 ≤ fraction < 2 ^ 53 - 1.

Lemma rank_mono fused f g last : 0 ≤ f ≤ g → 0 ≤ last → rank fused f last ≤ rank fused g last.
Proof.
  intros Hfg Hl. pose proof (rounded_nonneg last Hl). unfold rank, one_half, f50.
  assert (0 ≤ f * rounded last ≤ g * rounded last) as Hp by nia.
  pose proof (rounded_mono _ _ Hp). pose proof (rounded_nonneg _ (proj1 Hp)).
  destruct fused; apply rounded_mono; lia.
Qed.

Lemma rank_bound fused f last : fraction_ok f → 0 ≤ last < 2 ^ 64 →
  0 ≤ rank fused f last ≤ (f + 1) * 2 ^ 64.
Proof.
  intros Hf Hl. unfold fraction_ok in Hf.
  assert (0 ≤ rounded last ≤ 2 ^ 64) as Hr.
  { split; [apply rounded_nonneg; lia|]. change (2 ^ 64) with (rounded (2 ^ 64)). apply rounded_mono. lia. }
  assert (0 ≤ f * rounded last ≤ f * 2 ^ 64) as Hp by nia.
  assert (0 ≤ rounded (f * rounded last) ≤ f * 2 ^ 64) as Hx.
  { split; [apply rounded_nonneg; lia|]. rewrite <- (rounded_scaled f 64) by lia. apply rounded_mono; lia. }
  rewrite <- (rounded_scaled (f + 1) 64) by lia. unfold rank, one_half, f50.
  destruct fused; (split; [apply rounded_nonneg|apply rounded_mono]; lia).
Qed.

Lemma rank_index fused f last : fraction_ok f → 0 ≤ last < 2 ^ 64 →
  to_size (rank fused f last) = Ret (rank fused f last / scale).
Proof.
  intros Hf Hl. pose proof (rank_bound fused f last Hf Hl) as [H0 Hb]. unfold to_size, scale, fraction_ok in *.
  assert (rank fused f last / 2 ^ 53 < 2 ^ 64) as Hlt by (apply Z.div_lt_upper_bound; lia).
  by destruct (Z.ltb_spec (rank fused f last / 2 ^ 53) (2 ^ 64)); [|lia].
Qed.

(** The middle rank is exact. *)
Lemma rank_half fused last : 0 ≤ last < 2 ^ 52 → rank fused f50 last / scale = (last + 1) / 2.
Proof.
  intros Hl. unfold rank, one_half, scale, f50. rewrite (rounded_small last) by lia.
  change 4503599627370496 with (2 ^ 52). rewrite (Z.mul_comm (2 ^ 52) last), (rounded_scaled last 52) by lia.
  replace (last * 2 ^ 52 + 2 ^ 52) with ((last + 1) * 2 ^ 52) by lia. rewrite (rounded_scaled (last + 1) 52) by lia.
  replace (2 ^ 53) with (2 * 2 ^ 52) by done. destruct fused; by rewrite Z.div_mul_cancel_r by lia.
Qed.

(** The others are nearest ranks, up to rounding. *)
Lemma rank_near fused f last : fraction_ok f → 0 ≤ last < 2 ^ 40 →
  Z.abs (scale * (rank fused f last / scale) - f * last) ≤ 2 ^ 52 + 2 ^ 41.
Proof.
  intros Hf Hl. unfold fraction_ok, rank, one_half, f50, scale in *. rewrite (rounded_small last) by lia.
  assert (0 ≤ f * last < 2 ^ 93) as Hp by nia.
  pose proof (rounded_error _ 93 Hp ltac:(lia)) as Hx. pose proof (rounded_nonneg _ (proj1 Hp)) as H0.
  set (y := if fused then _ else _).
  assert (0 ≤ y ∧ Z.abs (y - (f * last + 4503599627370496)) ≤ 2 ^ 41) as [Hy0 Hy].
  { unfold y. destruct fused.
    - split; [apply rounded_nonneg; lia|].
      pose proof (rounded_error (f * last + 4503599627370496) 94 ltac:(lia) ltac:(lia)). lia.
    - split; [apply rounded_nonneg; lia|].
      pose proof (rounded_error (rounded (f * last) + 4503599627370496) 94 ltac:(lia) ltac:(lia)). lia. }
  pose proof (Z.div_mod y (2 ^ 53) ltac:(lia)). pose proof (Z.mod_pos_bound y (2 ^ 53) ltac:(lia)). lia.
Qed.

(** ** Sorted samples *)

Lemma sorted_vget l i j x y :
  StronglySorted Z.le l → i ≤ j → l⟦i⟧ = Some x → l⟦j⟧ = Some y → x ≤ y.
Proof.
  intros Hs. revert i j. induction Hs as [|z l Hl IH Hz]; intros i j Hij Hi Hj.
  { by rewrite vget_nil in Hi. }
  pose proof (vget_Some_range _ _ _ Hi). rewrite Forall_forall in Hz.
  destruct (decide (i = 0)) as [->|Hi0], (decide (j = 0)) as [->|Hj0]; [|..|].
  - simpl in *. simplify_eq. lia.
  - injection Hi as <-. replace j with (j - 1 + 1) in Hj by lia. rewrite vget_cons_succ in Hj by lia.
    apply vget_elem_of in Hj. by apply Hz.
  - lia.
  - replace i with (i - 1 + 1) in Hi by lia. replace j with (j - 1 + 1) in Hj by lia.
    rewrite vget_cons_succ in Hi by lia. rewrite vget_cons_succ in Hj by lia. apply (IH (i - 1) (j - 1)); done || lia.
Qed.

Section summaries.
Context {double : Type} (zero : double) (mean_of : list Z → double) (fused : bool).
Context (samples : list Z) (Hsorted : StronglySorted Z.le samples) (Hlen : 0 < vlen samples < 2 ^ 64).

(** The position that [percentile] reads. *)
Definition position (fraction : Z) : Z :=
  Z.min (rank fused fraction (vlen samples - 1) / scale) (vlen samples - 1).

Lemma position_range f : fraction_ok f → 0 ≤ position f < vlen samples.
Proof using Hlen.
  intros Hf. pose proof (rank_bound fused f (vlen samples - 1) Hf ltac:(lia)) as [H0 _]. unfold position, scale.
  assert (0 ≤ rank fused f (vlen samples - 1) / 2 ^ 53) by (apply Z.div_pos; lia). lia.
Qed.

Lemma percentile_spec f : fraction_ok f →
  ∃ v, percentile fused samples f = Ret v ∧ samples⟦position f⟧ = Some v.
Proof using Hlen.
  intros Hf. unfold percentile. rewrite u64_small by lia. rewrite rank_index by (done || lia). returns.
  destruct (vget_is_Some samples (position f) (position_range f Hf)) as [v Hv]. exists v.
  split; [by apply load_Some|done].
Qed.

Lemma position_mono f g : 0 ≤ f ≤ g → position f ≤ position g.
Proof using Hlen.
  intros Hfg. pose proof (rank_mono fused f g (vlen samples - 1) Hfg ltac:(lia)). unfold position, scale.
  assert (rank fused f (vlen samples - 1) / 2 ^ 53 ≤ rank fused g (vlen samples - 1) / 2 ^ 53)
    by (apply Z.div_le_mono; lia). lia.
Qed.

(** The clamp is never needed for a list of realistic length. *)
Lemma position_rank f : fraction_ok f → vlen samples ≤ 2 ^ 40 →
  position f = rank fused f (vlen samples - 1) / scale.
Proof using Hlen.
  intros Hf Hs. pose proof (rank_near fused f (vlen samples - 1) Hf ltac:(lia)).
  unfold position. apply Z.min_l. unfold scale, fraction_ok in *. nia.
Qed.

Lemma position_half : vlen samples ≤ 2 ^ 40 → position f50 = vlen samples / 2.
Proof using Hlen.
  intros Hs. rewrite position_rank by (done || unfold fraction_ok, f50; lia).
  rewrite rank_half by lia. f_equal. lia.
Qed.

Lemma percentile_mono f g v w :
  0 ≤ f ≤ g → samples⟦position f⟧ = Some v → samples⟦position g⟧ = Some w → v ≤ w.
Proof using Hlen Hsorted. intros Hfg. apply sorted_vget; [done|]. by apply position_mono. Qed.
End summaries.

Lemma fractions_ok :
  (fraction_ok f50 ∧ fraction_ok f90 ∧ fraction_ok f95 ∧ fraction_ok f99 ∧ fraction_ok f999) ∧
  0 ≤ f50 ≤ f90 ∧ 0 ≤ f90 ≤ f95 ∧ 0 ≤ f95 ≤ f99 ∧ 0 ≤ f99 ≤ f999.
Proof. unfold fraction_ok, f50, f90, f95, f99, f999. lia. Qed.

(** What [summarize] reads, and from where. *)
Lemma summarize_reads {double} (zero : double) mean_of fused s :
  samples_ s ≠ [] → vlen (samples_ s) < 2 ^ 64 →
  let l := merge_sort Z.le (samples_ s) in
  let at_ f := l⟦position fused l f⟧ in
  ∃ lo a b c d e hi,
    summarize zero mean_of fused s =
      Ret (mkSamples l (capacity_ s) (dropped_ s), mkSummary (vlen l) lo a b c d e hi (mean_of l)) ∧
    l⟦0⟧ = Some lo ∧ l⟦vlen l - 1⟧ = Some hi ∧
    at_ f50 = Some a ∧ at_ f90 = Some b ∧ at_ f95 = Some c ∧ at_ f99 = Some d ∧ at_ f999 = Some e ∧
    0 < vlen l < 2 ^ 64 ∧ l ≡ₚ samples_ s ∧ StronglySorted Z.le l.
Proof.
  intros Hne Hfit l at_. assert (l ≡ₚ samples_ s) as HP by apply merge_sort_Permutation.
  assert (StronglySorted Z.le l) as HS by (apply StronglySorted_merge_sort; apply _).
  assert (vlen l = vlen (samples_ s)) as Hlen by (unfold vlen; by rewrite HP).
  assert (0 < vlen (samples_ s)) as Hpos.
  { destruct (samples_ s); [done|]. rewrite vlen_cons. pose proof (vlen_nonneg l0). lia. }
  assert (0 < vlen l < 2 ^ 64) as Hl by lia.
  destruct (vget_is_Some l 0) as [lo Hlo]; [lia|]. destruct (vget_is_Some l (vlen l - 1)) as [hi Hhi]; [lia|].
  destruct fractions_ok as ((H50 & H90 & H95 & H99 & H999) & _).
  destruct (percentile_spec fused l Hl f50 H50) as (a & E50 & P50), (percentile_spec fused l Hl f90 H90) as (b & E90 & P90),
    (percentile_spec fused l Hl f95 H95) as (c & E95 & P95), (percentile_spec fused l Hl f99 H99) as (d & E99 & P99),
    (percentile_spec fused l Hl f999 H999) as (e & E999 & P999).
  exists lo, a, b, c, d, e, hi. split; [|split_and!; done || lia].
  unfold summarize. destruct (Z.eqb_spec (vlen (samples_ s)) 0); [lia|]. fold l.
  by rewrite (load_Some _ _ _ Hlo), (load_Some _ _ _ Hhi), E50, E90, E95, E99, E999.
Qed.
End Latency.

(** ** Properties *)

Import Latency.

(** C34. The summary of any samples is ordered. [summarize] returns, reads no sample
    out of range and converts no rank that does not fit, with or without fused
    arithmetic; the samples are left as a sorted permutation; [min] and [max] are
    their bounds; and [min <= p50 <= p90 <= p95 <= p99 <= p999 <= max], each of
    them one of the samples; of up to [2^40] samples [p50] is exactly the one at
    position [count / 2]. *)
Theorem summary_ordered {double} (zero : double) mean_of fused s :
  samples_ s ≠ [] → vlen (samples_ s) < 2 ^ 64 →
  ∃ s' r, summarize zero mean_of fused s = Ret (s', r) ∧
    samples_ s' ≡ₚ samples_ s ∧ StronglySorted Z.le (samples_ s') ∧ dropped_ s' = dropped_ s ∧
    count r = vlen (samples_ s) ∧ (∀ x, x ∈ samples_ s → min r ≤ x ≤ max r) ∧
    Forall (.∈ samples_ s) [min r; p50 r; p90 r; p95 r; p99 r; p999 r; max r] ∧
    min r ≤ p50 r ≤ p90 r ∧ p90 r ≤ p95 r ≤ p99 r ∧ p99 r ≤ p999 r ≤ max r ∧
    (vlen (samples_ s) ≤ 2 ^ 40 → (samples_ s')⟦count r / 2⟧ = Some (p50 r)).
Proof.
  intros Hne Hfit. destruct (summarize_reads zero mean_of fused s Hne Hfit)
    as (lo & a & b & c & d & e & hi & -> & Hlo & Hhi & Pa & Pb & Pc & Pd & Pe & Hl & HP & HS).
  set (l := merge_sort Z.le (samples_ s)) in *. eexists _, _. split; [done|]. simpl.
  destruct fractions_ok as ((H50 & _ & _ & _ & H999) & O1 & O2 & O3 & O4).
  assert (∀ i x, l⟦i⟧ = Some x → x ∈ samples_ s) as Hin by (intros i x Hx; rewrite <- HP; by eapply vget_elem_of).
  assert (∀ i x, l⟦i⟧ = Some x → lo ≤ x ≤ hi) as Hb.
  { intros i x Hx. pose proof (vget_Some_range _ _ _ Hx).
    split; [apply (sorted_vget l 0 i)|apply (sorted_vget l i (vlen l - 1))]; done || lia. }
  split; [done|]. split; [done|]. split; [done|]. split; [unfold vlen; by rewrite HP|].
  split; [intros x Hx; rewrite <- HP in Hx; apply vget_in in Hx as [i Hi]; by eapply Hb|].
  split; [repeat constructor; by eapply Hin|].
  pose proof (percentile_mono fused l HS Hl _ _ _ _ O1 Pa Pb). pose proof (percentile_mono fused l HS Hl _ _ _ _ O2 Pb Pc).
  pose proof (percentile_mono fused l HS Hl _ _ _ _ O3 Pc Pd). pose proof (percentile_mono fused l HS Hl _ _ _ _ O4 Pd Pe).
  pose proof (Hb _ _ Pa). pose proof (Hb _ _ Pe). split_and!; try lia.
  intros Hsmall. assert (vlen l = vlen (samples_ s)) as Hlen by (unfold vlen; by rewrite HP).
  rewrite (position_half fused l) in Pa by lia. exact Pa.
Qed.

Lemma summary_ordered_witness :
  ∃ s' r, summarize 0 (λ _, 7) false (mkSamples [30; 10; 20] 8 0) = Ret (s', r) ∧
    samples_ s' = [10; 20; 30] ∧ p50 r = 20 ∧ max r = 30 ∧ p99 r ≤ p999 r ≤ max r.
Proof.
  destruct (summary_ordered 0 (λ _, 7) false (mkSamples [30; 10; 20] 8 0))
    as (s' & r & Hrun & _ & _ & _ & _ & _ & _ & _ & _ & Hlast & _).
  - simpl. congruence.
  - vm_compute. congruence.
  - exists s', r. split; [exact Hrun|]. vm_compute in Hrun. injection Hrun as Hs Hr. subst s' r.
    split; [reflexivity|]. split; [reflexivity|]. split; [reflexivity|exact Hlast].
Defined.

(** The percentiles are nearest ranks: of up to [2^40] sorted samples the median
    is exactly the one at position [n / 2], and the sample that [percentile] returns
    for any of the fractions is at a position whose distance from [fraction * (n - 1)]
    is at most one half, up to [2^-12] of rounding. *)
Lemma percentile_nearest fused samples fraction :
  StronglySorted Z.le samples → 0 < vlen samples ≤ 2 ^ 40 → fraction ∈ [f50; f90; f95; f99; f999] →
  ∃ i v, percentile fused samples fraction = Ret v ∧ samples⟦i⟧ = Some v ∧
    Z.abs (scale * i - fraction * (vlen samples - 1)) ≤ 2 ^ 52 + 2 ^ 41 ∧
    (fraction = f50 → i = vlen samples / 2).
Proof.
  intros HS Hlen Hf. destruct fractions_ok as ((H50 & H90 & H95 & H99 & H999) & _).
  assert (fraction_ok fraction) as Hok by (clear -Hf H50 H90 H95 H99 H999; set_solver).
  destruct (percentile_spec fused samples ltac:(lia) fraction Hok) as (v & Hv & Hpos).
  exists (position fused samples fraction), v. split; [done|]. split; [done|].
  pose proof (rank_near fused fraction (vlen samples - 1) Hok ltac:(lia)) as Hnear.
  rewrite (position_rank fused samples) by (done || lia). split; [done|].
  intros ->. rewrite rank_half by lia. f_equal. lia.
Qed.

Lemma percentile_nearest_witness :
  ∃ i v, percentile false [10; 20; 30; 40] f50 = Ret v ∧ [10; 20; 30; 40]⟦i⟧ = Some v ∧ i = 2.
Proof.
  destruct (percentile_nearest false [10; 20; 30; 40] f50) as (i & v & H1 & H2 & _ & H3).
  - repeat constructor; lia.
  - vm_compute. split; congruence.
  - repeat constructor.
  - exists i, v. split; [exact H1|]. split; [exact H2|exact (H3 eq_refl)].
Defined.
