(* ===== verification/Handler.v ===== *)
(** * The market-data handler

    The producer process of [market_data/market_data_handler.cpp]: receive a
    datagram, check it, feed the sequencer, and hand everything deliverable to
    the shared ring. The socket, the clock, the stop flag and the ring (which
    the engine drains at the same time) are the environment. *)

From S2P Require Import Prelude Message Wire SequenceManager.
Import Seq.

#[local] Open Scope Z_scope.

(** [MulticastReceiver::receive]: a datagram, a timeout (0), an error (-1). The
    code does not tell an empty datagram from a timeout. *)
Inductive received :=
  | Datagram (packet : list Z)
  | Timeout
  | RecvError.

Class HandlerEnv (E : Type) `{SeqEnv E} := {
  h_receive : E → E * received;
  h_push : E → PipelineEvent → E * bool;     (* channel->queue.try_push(event) *)
  h_stop : E → E * bool                      (* g_stop != 0 *)
}.

Module Handler.

Record t := mkHandler {
  sequencer : Seq.t;
  published : Z;
  queue_full_spins : Z;
  malformed_packets : Z;
  packets_received : Z;
  first_message_ns : Z;
  last_message_ns : Z;
  idle_elapsed_ms : Z
}.

Definition set_sequencer (q : Seq.t) (h : t) : t :=
  mkHandler q (published h) (queue_full_spins h) (malformed_packets h) (packets_received h)
    (first_message_ns h) (last_message_ns h) (idle_elapsed_ms h).
Definition set_spins (n : Z) (h : t) : t :=
  mkHandler (sequencer h) (published h) n (malformed_packets h) (packets_received h)
    (first_message_ns h) (last_message_ns h) (idle_elapsed_ms h).
Definition set_idle (n : Z) (h : t) : t :=
  mkHandler (sequencer h) (published h) (queue_full_spins h) (malformed_packets h)
    (packets_received h) (first_message_ns h) (last_message_ns h) n.
Definition add_packet (h : t) : t :=
  mkHandler (sequencer h) (published h) (queue_full_spins h) (malformed_packets h)
    (u64 (packets_received h + 1)) (first_message_ns h) (last_message_ns h) (idle_elapsed_ms h).
Definition add_malformed (h : t) : t :=
  mkHandler (sequencer h) (published h) (queue_full_spins h) (u64 (malformed_packets h + 1))
    (packets_received h) (first_message_ns h) (last_message_ns h) (idle_elapsed_ms h).

(** [published += 1] and the two time stamps. *)
Definition note_published (t2 : Z) (h : t) : t :=
  mkHandler (sequencer h) (u64 (published h + 1)) (queue_full_spins h) (malformed_packets h)
    (packets_received h) (if first_message_ns h =? 0 then t2 else first_message_ns h) t2
    (idle_elapsed_ms h).

Section handler.
Context {E : Type} `{HandlerEnv E}.

(** The [PipelineEvent] of a delivered message. *)
Definition make_event (m : FeedMessage) (t2 : Z) : PipelineEvent :=
  mkEvent (message m) (t0_recv m) (t1_parsed m) t2 (if recovered m then 1 else 0).

Definition stamp (t2 : Z) (ev : PipelineEvent) : PipelineEvent :=
  mkEvent (msg ev) (ev_t0_recv ev) (ev_t1_parsed ev) t2 (ev_recovered ev).

(** [while (!try_push(event) && g_stop == 0)]: the event as last stamped, and
    the number of spins. *)
Fixpoint push_spin (fuel : nat) (e : E) (ev : PipelineEvent) (spins : Z)
    : outcome (E * PipelineEvent * Z) :=
  match fuel with
  | O => Fault OutOfFuel
  | S fuel =>
      let '(e, ok) := h_push e ev in
      if ok : bool then Ret (e, ev, spins)
      else
        let '(e, stop) := h_stop e in
        if stop : bool then Ret (e, ev, spins)
        else
          let '(e, now) := env_now e in
          push_spin fuel e (stamp now ev) (u64 (spins + 1))
  end.

(** [while (sequencer.next_deliverable(deliverable))] with its body. *)
Fixpoint deliver (fuel spin_fuel : nat) (e : E) (h : t) : outcome (E * t) :=
  match fuel with
  | O => Fault OutOfFuel
  | S fuel =>
      '(q, out) ← next_deliverable (sequencer h);
      let h := set_sequencer q h in
      match out with
      | None => Ret (e, h)
      | Some m =>
          let '(e, t2) := env_now e in
          '(e, ev, spins) ← push_spin spin_fuel e (make_event m t2) (queue_full_spins h);
          deliver fuel spin_fuel e (note_published (t2_enqueue ev) (set_spins spins h))
      end
  end.

(** [for (i = 0; i < header->count; ++i) sequencer.accept(...)] *)
Fixpoint accept_payload (e : E) (q : Seq.t) (t0 t1 : Z) (payload : list MarketMessage)
    : outcome (E * Seq.t) :=
  match payload with
  | [] => Ret (e, q)
  | m :: payload =>
      '(e, q) ← accept e q (mkFeed m t0 t1 false);
      accept_payload e q t0 t1 payload
  end.

(** A datagram that [receive] returned. The window bounds what there is to
    deliver; [spin_fuel] is how long the ring may stay full. *)
Definition on_datagram (spin_fuel : nat) (e : E) (h : t) (packet : list Z) : outcome (E * t) :=
  let '(e, t0_recv) := env_now e in
  let h := add_packet (set_idle 0 h) in
  match parse_packet packet with
  | None => Ret (e, add_malformed h)
  | Some payload =>
      let '(e, t1_parsed) := env_now e in
      '(e, q) ← accept_payload e (sequencer h) t0_recv t1_parsed payload;
      deliver (S (length (buffer_ q))) spin_fuel e (set_sequencer q h)
  end.

(** One turn of the main loop; [true] asks for another. *)
Definition iteration (spin_fuel : nat) (expect idle_ms : Z) (e : E) (h : t)
    : outcome (E * t * bool) :=
  let '(e, stop) := h_stop e in
  if stop : bool then Ret (e, h, false)
  else
    let '(e, got) := h_receive e in
    match got with
    | RecvError => Ret (e, h, false)
    | Timeout | Datagram [] =>
        if negb (first_message_ns h =? 0) then
          idle ← i32 (idle_elapsed_ms h + 50);
          Ret (e, set_idle idle h, negb (idle_ms <=? idle))
        else Ret (e, h, true)
    | Datagram packet =>
        '(e, h') ← on_datagram spin_fuel e h packet;
        match parse_packet packet with
        | None => Ret (e, h', true)
        | Some _ => Ret (e, h', negb ((0 <? expect) && (expect <=? published h')))
        end
    end.

Fixpoint main_loop (fuel spin_fuel : nat) (expect idle_ms : Z) (e : E) (h : t) : outcome (E * t) :=
  match fuel with
  | O => Fault OutOfFuel
  | S fuel =>
      '(e, h, more) ← iteration spin_fuel expect idle_ms e h;
      if more : bool then main_loop fuel spin_fuel expect idle_ms e h else Ret (e, h)
  end.

Definition start (reorder : Z) (use_recovery : bool) : t :=
  mkHandler (Seq.make reorder use_recovery) 0 0 0 0 0 0 0.
End handler.
End Handler.
