(* ===== verification/HandlerProperties.v ===== *)
(** * What the handler guarantees

    Delivery to the ring, against what the environment promises: the ring keeps
    what was pushed, in order, and the engine makes room for a full ring after
    finitely many attempts. *)

From S2P Require Import Prelude Message Wire History SequenceManager SequenceInv SequenceCorrect.
From S2P Require Import SequenceProperties Handler.
Import Seq Handler.

#[local] Open Scope Z_scope.

(** [ring]: every event ever pushed; [inbox]: the datagrams that [receive] will
    return next; [patience]: failed attempts still to come before one succeeds,
    never more than [bound]; [Pub]: what may be pushed. *)
Class HandlerLaws (E : Type) {senv : SeqEnv E} {henv : HandlerEnv E} (EI : E → Prop)
    (Pub : MarketMessage → Prop) (ring : E → list PipelineEvent) (inbox : E → list (list Z))
    (patience : E → nat) (bound : nat) : Prop := {
  push_law e ev : EI e → Pub (msg ev) →
    EI (h_push e ev).1 ∧ inbox (h_push e ev).1 = inbox e ∧
    ring (h_push e ev).1 = (if (h_push e ev).2 then ring e ++ [ev] else ring e) ∧
    ((h_push e ev).2 = false → (patience (h_push e ev).1 < patience e)%nat);
  stop_law e : EI e →
    EI (h_stop e).1 ∧ (ring (h_stop e).1, inbox (h_stop e).1) = (ring e, inbox e) ∧
    (patience (h_stop e).1 ≤ patience e)%nat;
  now_inv e : EI e → EI (env_now e).1;
  now_ring e : (ring (env_now e).1, inbox (env_now e).1) = (ring e, inbox e) ∧
    (patience (env_now e).1 ≤ patience e)%nat;
  request_ring e a b :
    (ring (env_request e a b).1, inbox (env_request e a b).1) = (ring e, inbox e);
  receive_law e p rest : EI e → inbox e = p :: rest →
    (h_receive e).2 = Datagram p ∧ EI (h_receive e).1 ∧
    (ring (h_receive e).1, inbox (h_receive e).1) = (ring e, rest);
  patience_law e : EI e → (patience e ≤ bound)%nat
}.

(** No signal has asked the process to stop. *)
Class NeverStops (E : Type) {senv : SeqEnv E} {henv : HandlerEnv E} (EI : E → Prop) : Prop :=
  never_stops e : EI e → (h_stop e).2 = false.

Section handler.
Context {E : Type} `{Hlaws : HandlerLaws E EI Pub ring inbox patience bound} `{Hrun : !NeverStops E EI}.
Implicit Types (e : E) (h : Handler.t).

Lemma push_spin_spec fuel : ∀ e ev spins,
  EI e → Pub (msg ev) → (patience e < fuel)%nat →
  ∃ e' ev' spins', push_spin fuel e ev spins = Ret (e', ev', spins') ∧ EI e' ∧
    inbox e' = inbox e ∧ ring e' = ring e ++ [ev'] ∧ msg ev' = msg ev.
Proof using Hlaws Hrun.
  induction fuel as [|fuel IH]; intros e ev spins He Hev Hf; [lia|]. cbn [push_spin].
  destruct (push_law e ev He Hev) as (He1 & Hi1 & Hr1 & Hp1).
  destruct (h_push e ev) as [e1 ok]. cbn [fst snd] in *. destruct ok.
  { by exists e1, ev, spins. }
  specialize (Hp1 eq_refl).
  destruct (stop_law e1 He1) as (He2 & Hr2 & Hp2). pose proof (never_stops e1 He1) as Hs.
  destruct (h_stop e1) as [e2 stop]. cbn [fst snd] in *. subst stop.
  pose proof (now_inv e2 He2) as He3. destruct (now_ring e2) as [Hr3 Hp3]. destruct (env_now e2) as [e3 now]. cbn [fst] in *.
  destruct (IH e3 (stamp now ev) (u64 (spins + 1)) He3 Hev ltac:(lia))
    as (e' & ev' & spins' & -> & He' & Hi' & Hr' & Hm).
  exists e', ev', spins'. split; [done|]. split; [done|]. split; [congruence|]. split; [congruence|done].
Qed.

(** [deliver] moves to the ring what [drain] takes out of the sequencer. *)
Lemma deliver_spec spin_fuel fuel : ∀ e h q' out,
  EI e → (bound < spin_fuel)%nat → drain fuel (sequencer h) = Ret (q', out) →
  Forall (λ m, Pub (message m)) out →
  ∃ e' h' evs, deliver fuel spin_fuel e h = Ret (e', h') ∧ EI e' ∧ sequencer h' = q' ∧
    inbox e' = inbox e ∧ ring e' = ring e ++ evs ∧ msg <$> evs = message <$> out ∧
    (∀ n, published h = u64 n → published h' = u64 (n + vlen evs)).
Proof using Hlaws Hrun.
  induction fuel as [|fuel IH]; intros e h q' out He Hf Hd Hout; [done|]. cbn [drain deliver] in *.
  apply bind_Ret_inv in Hd as ([q1 o1] & -> & Hd). returns.
  destruct o1 as [m|].
  - apply bind_Ret_inv in Hd as ([q2 o2] & Hd & [= <- <-]). apply Forall_cons in Hout as [Hm Hout].
    pose proof (now_inv e He) as He1. destruct (now_ring e) as [Hr1 Hp1]. destruct (env_now e) as [e1 t2]. cbn [fst] in *.
    destruct (push_spin_spec spin_fuel e1 (make_event m t2) (queue_full_spins (set_sequencer q1 h)) He1
      Hm ltac:(pose proof (patience_law e1 He1); lia)) as (e2 & ev & spins & -> & He2 & Hi2 & Hr2 & Hmsg). returns.
    destruct (IH e2 (note_published (t2_enqueue ev) (set_spins spins (set_sequencer q1 h))) q2 o2 He2
      Hf Hd Hout) as (e' & h' & evs & -> & He' & Hq & Hi & Hr & Hms & Hpub).
    exists e', h', (ev :: evs). split; [done|]. split; [done|]. split; [done|].
    injection Hr1 as Hr1 Hi1. split; [congruence|].
    split; [by rewrite Hr, Hr2, Hr1, <- app_assoc|]. split; [by rewrite !fmap_cons, Hms, Hmsg|].
    intros n Hn. rewrite vlen_cons, <- (Z.add_comm 1), Z.add_assoc. apply Hpub.
    simpl. rewrite Hn. apply u64_succ.
  - injection Hd as <- <-. exists e, (set_sequencer q1 h), []. split; [done|]. split; [done|].
    split; [done|]. rewrite app_nil_r. repeat (split; [done|]).
    intros n Hn. by rewrite Z.add_0_r.
Qed.

(** ** The sequencer does not touch the ring *)

Definition seen e : list PipelineEvent * list (list Z) := (ring e, inbox e).

Lemma recover_messages_ring ms arrived : ∀ e q e' q',
  recover_messages e q arrived ms = Ret (e', q') → seen e' = seen e.
Proof using Hlaws.
  induction ms as [|m ms IH]; intros e q e' q' H; cbn [recover_messages] in H.
  { by injection H as <- <-. }
  destruct (orb _ _); [by eapply IH|]. apply bind_Ret_inv in H as (slot & _ & H).
  destruct (decide _); [by eapply IH|].
  destruct (now_ring e) as [Hn _]. destruct (env_now e) as [e1 now].
  apply bind_Ret_inv in H as (q1 & _ & H). apply IH in H. unfold seen in *. simpl in *. congruence.
Qed.

Lemma request_loop_ring fuel : ∀ e q to start e' q',
  request_loop fuel e q to start = Ret (e', q') → seen e' = seen e.
Proof using Hlaws.
  induction fuel as [|fuel IH]; intros e q to start e' q' H; cbn [request_loop] in H; [done|].
  destruct (start <=? to); [|by injection H as <- <-].
  set (last := Z.min to _) in H. pose proof (request_ring e start last) as Hr.
  destruct (env_request e start last) as [e1 [ms|]]; [|by injection H as <- <-].
  destruct (now_ring e1) as [Hn _]. destruct (env_now e1) as [e2 arrived].
  apply bind_Ret_inv in H as ([e3 q3] & H3 & H). apply recover_messages_ring in H3. apply IH in H.
  unfold seen in *. simpl in *. congruence.
Qed.

Lemma accept_ring e q m e' q' : accept e q m = Ret (e', q') → seen e' = seen e.
Proof using Hlaws.
  unfold accept, accept_new, recover_range. intros H0. run_inv; subst; try done.
  by eapply request_loop_ring.
Qed.

(** ** A datagram *)

Definition feed (t0 t1 : Z) (m : MarketMessage) : FeedMessage := mkFeed m t0 t1 false.

Lemma accept_payload_all t0 t1 ms : ∀ e q,
  accept_payload e q t0 t1 ms = accept_all e q (feed t0 t1 <$> ms).
Proof using.
  induction ms as [|m ms IH]; intros e q; [done|]. cbn [accept_payload fmap list_fmap accept_all].
  change (feed t0 t1 m) with (mkFeed m t0 t1 false). destruct (accept e q (mkFeed m t0 t1 false)) as [[e1 q1]|]; [|done]. apply IH.
Qed.

Lemma accept_all_ring ms : ∀ e q e' q', accept_all e q ms = Ret (e', q') → seen e' = seen e.
Proof using Hlaws.
  induction ms as [|m ms IH]; intros e q e' q' H; cbn [accept_all] in H.
  { by injection H as <- <-. }
  apply bind_Ret_inv in H as ([e1 q1] & H1 & H). apply accept_ring in H1. apply IH in H. congruence.
Qed.
End handler.

(** ** Datagrams against the sequencer's guarantees *)

Definition numbers (evs : list PipelineEvent) : list Z := (λ ev, sequence_number (msg ev)) <$> evs.

Section datagrams.
Context {E : Type} {senv : SeqEnv E} {henv : HandlerEnv E}.
Context {EI : E → Prop} {Pub : MarketMessage → Prop} {ring : E → list PipelineEvent}.
Context {inbox : E → list (list Z)} {patience : E → nat} {bound : nat}.
Context `{Hlaws : !HandlerLaws E EI Pub ring inbox patience bound}.
Context `{Hrun : !NeverStops E EI} `{Henv : !EnvLaws E EI Pub}.
Implicit Types (e : E) (h : Handler.t).

Lemma numbers_seqs evs out : msg <$> evs = message <$> out → numbers evs = seqs out.
Proof using.
  intros Hm. unfold numbers, seqs.
  rewrite (list_fmap_compose msg sequence_number), (list_fmap_compose message sequence_number).
  by rewrite Hm.
Qed.

(** A well-formed datagram is one round of the sequencer, and what the round
    delivers is what reaches the ring. *)
Lemma datagram_round spin_fuel e h packet ms :
  EI e → (bound < spin_fuel)%nat → parse_packet packet = Some ms →
  (∀ e1 t0 t1, EI e1 → ∃ e2 q' out,
     round e1 (sequencer h) (feed t0 t1 <$> ms) = Ret (e2, q', out) ∧ EI e2 ∧
     Forall (λ m, Pub (message m)) out) →
  ∃ e1 t0 t1 e2 q' out e' h' evs, EI e1 ∧
    round e1 (sequencer h) (feed t0 t1 <$> ms) = Ret (e2, q', out) ∧
    on_datagram spin_fuel e h packet = Ret (e', h') ∧ EI e' ∧ sequencer h' = q' ∧
    inbox e' = inbox e ∧ ring e' = ring e ++ evs ∧ msg <$> evs = message <$> out ∧
    (∀ n, published h = u64 n → published h' = u64 (n + vlen evs)).
Proof using Hlaws Hrun Henv.
  intros He Hf Hparse Hround. unfold on_datagram. rewrite Hparse.
  pose proof (now_inv e He) as He1. destruct (now_ring e) as [Hr1 Hp1].
  destruct (env_now e) as [e1 t0]. cbn [fst] in *.
  pose proof (now_inv e1 He1) as He2. destruct (now_ring e1) as [Hr2 Hp2].
  destruct (env_now e1) as [e2 t1]. cbn [fst] in *.
  destruct (Hround e2 t0 t1 He2) as (e3 & q' & out & Hrd & He3 & Hout).
  exists e2, t0, t1, e3, q', out. pose proof Hrd as Hrd'. unfold round in Hrd'.
  apply bind_Ret_inv in Hrd' as ([e4 q4] & Hacc & Hrd').
  apply bind_Ret_inv in Hrd' as ([q5 o5] & Hdr & [= -> -> ->]).
  rewrite accept_payload_all. cbn [sequencer add_packet set_idle]. rewrite Hacc. returns.
  pose proof (accept_all_ring _ _ _ _ _ Hacc) as Hr4. unfold seen in Hr4.
  assert (ring e3 = ring e ∧ inbox e3 = inbox e) as [Hr3 Hi3] by (split; congruence).
  destruct (deliver_spec spin_fuel (S (length (buffer_ q4))) e3 (set_sequencer q4 (add_packet (set_idle 0 h)))
    q' out He3 Hf Hdr Hout) as (e' & h' & evs & Hrun' & He' & Hq & Hi & Hr & Hm & Hpub).
  exists e', h', evs. split; [done|]. split; [done|]. split; [done|]. split; [done|]. split; [done|].
  split; [congruence|]. split; [congruence|]. split; [done|]. exact Hpub.
Qed.

(** What is true after a datagram that carries consecutive published numbers. *)
Record after_datagram (f : Z) (h h' : Handler.t) e e' (s : Z) (ms : list MarketMessage)
    (evs : list PipelineEvent) : Prop := {
  ad_env : EI e';
  ad_wf : ∃ D, wf Pub (Some f) D (sequencer h');
  ad_size : size (sequencer h') = size (sequencer h);
  ad_connected : connected (sequencer h') = connected (sequencer h);
  ad_drained : drained (sequencer h');
  ad_reached : s + vlen ms ≤ expected_ (sequencer h');
  ad_ring : ring e' = ring e ++ evs;
  ad_inbox : inbox e' = inbox e;
  ad_published : ∀ n, published h = u64 n → published h' = u64 (n + vlen evs);
  ad_pub : Forall Pub (msg <$> evs)
}.

Lemma feed_batch t0 t1 s ms : consecutive s ms → ms ≠ [] → batch_from (feed t0 t1 <$> ms) s.
Proof using.
  intros Hc Hne. split; [|by destruct ms].
  rewrite <- list_fmap_compose. by rewrite (list_fmap_id ms : (message ∘ feed t0 t1) <$> ms = ms).
Qed.

Lemma feed_pubs t0 t1 ms : Forall Pub ms → Forall (λ m, Pub (message m)) (feed t0 t1 <$> ms).
Proof using. intros Hp. by apply Forall_fmap. Qed.

Lemma feed_length t0 t1 ms : vlen (feed t0 t1 <$> ms) = vlen ms.
Proof using. unfold vlen. by rewrite length_fmap. Qed.

Lemma datagram_next spin_fuel f D e h packet ms s :
  EI e → (bound < spin_fuel)%nat → wf Pub (Some f) D (sequencer h) → drained (sequencer h) →
  parse_packet packet = Some ms → Forall Pub ms → consecutive s ms → ms ≠ [] →
  ∃ e' h' evs, on_datagram spin_fuel e h packet = Ret (e', h') ∧
    after_datagram f h h' e e' s ms evs ∧ expected_ (sequencer h) ≤ expected_ (sequencer h') ∧
    (s + vlen ms - 1 - expected_ (sequencer h) < size (sequencer h) → lossless (sequencer h) →
     backed (E := E) (EI := EI) (sequencer h) (s + vlen ms - 1) →
     lossless (sequencer h') ∧
     numbers evs = seqZ (expected_ (sequencer h)) (expected_ (sequencer h') - expected_ (sequencer h))).
Proof using Hlaws Hrun Henv.
  intros He Hf Hwf Hdr Hparse Hpub Hcons Hne.
  destruct (datagram_round spin_fuel e h packet ms He Hf Hparse) as
    (e1 & t0 & t1 & e2 & q' & out & e' & h' & evs & He1 & Hround & Hrun' & He' & <- & Hinbox & Hring & Hmsg & Hcount).
  { intros e1 t0 t1 He1.
    destruct (round_wf f D e1 _ _ Hwf He1 (feed_pubs t0 t1 ms Hpub)) as (e2 & q2 & out & -> & He2 & _ & Hpo & _).
    by exists e2, q2, out. }
  destruct (round_wf f D e1 _ _ Hwf He1 (feed_pubs t0 t1 ms Hpub)) as (? & ? & ? & Heq & _ & _ & Hpo & _).
  rewrite Hround in Heq. injection Heq as <- <- <-.
  destruct (round_batch f D e1 _ _ s Hwf He1 (feed_pubs t0 t1 ms Hpub) (feed_batch t0 t1 s ms Hcons Hne) Hdr)
    as (? & ? & ? & Heq & _ & Hwf' & Hsz & Hc & Hdr' & Hcov & Hmono & Hl).
  rewrite Hround in Heq. injection Heq as <- <- <-. rewrite feed_length in *.
  exists e', h', evs. split; [done|]. split; [|split; [done|]].
  - split; try done; [by eexists|]. rewrite Hmsg. by apply Forall_fmap.
  - rewrite (numbers_seqs evs out Hmsg). done.
Qed.

Lemma datagram_first spin_fuel D e h packet ms s :
  EI e → (bound < spin_fuel)%nat → wf Pub None D (sequencer h) →
  parse_packet packet = Some ms → Forall Pub ms → consecutive s ms → ms ≠ [] →
  vlen ms ≤ size (sequencer h) →
  ∃ e' h' evs, on_datagram spin_fuel e h packet = Ret (e', h') ∧
    after_datagram s h h' e e' s ms evs ∧
    (backed (E := E) (EI := EI) (set_expected s (sequencer h)) (s + vlen ms - 1) →
     lossless (sequencer h') ∧ numbers evs = seqZ s (expected_ (sequencer h') - s)).
Proof using Hlaws Hrun Henv.
  intros He Hf Hwf Hparse Hpub Hcons Hne Hfit.
  assert (∀ e1 t0 t1, EI e1 → ∃ e2 q' out,
    round e1 (sequencer h) (feed t0 t1 <$> ms) = Ret (e2, q', out) ∧ EI e2 ∧
    Forall (λ m, Pub (message m)) out) as Htotal.
  { intros e1 t0 t1 He1. destruct ms as [|m ms]; [done|]. apply Forall_cons in Hpub as [Hm Hms].
    unfold round. cbn [fmap list_fmap accept_all].
    destruct (accept_first D e1 (sequencer h) (feed t0 t1 m) Hwf He1 Hm) as (e2 & q2 & -> & He2 & Hwf2 & _).
    returns.
    destruct (accept_all_wf (feed t0 t1 <$> ms) _ D e2 q2 Hwf2 He2 (feed_pubs t0 t1 ms Hms))
      as (e3 & q3 & Hrun3 & He3 & Hwf3 & _).
    change (list_fmap _ _ (feed t0 t1) ms) with (feed t0 t1 <$> ms). rewrite Hrun3. returns.
    destruct (drain_window _ D q3 Hwf3) as (q4 & out & -> & Hok). returns.
    exists e3, q4, out. split; [done|]. split; [done|]. apply Hok. }
  destruct (datagram_round spin_fuel e h packet ms He Hf Hparse) as
    (e1 & t0 & t1 & e2 & q' & out & e' & h' & evs & He1 & Hround & Hrun' & He' & <- & Hinbox & Hring & Hmsg & Hcount).
  { intros e1 t0 t1 He1. destruct (Htotal e1 t0 t1 He1) as (e2 & q2 & out & -> & He2 & Hpo).
    by exists e2, q2, out. }
  destruct (Htotal e1 t0 t1 He1) as (? & ? & ? & Heq & _ & Hpo). rewrite Hround in Heq. injection Heq as <- <- <-.
  destruct (round_first D e1 _ _ s Hwf He1 (feed_pubs t0 t1 ms Hpub) (feed_batch t0 t1 s ms Hcons Hne))
    as (? & ? & ? & Heq & _ & Hwf' & Hsz & Hc & Hdr' & Hcov & Hl); [rewrite feed_length; lia|].
  rewrite Hround in Heq. injection Heq as <- <- <-. rewrite feed_length in *.
  exists e', h', evs. split; [done|]. split.
  - split; try done; [by eexists|]. rewrite Hmsg. by apply Forall_fmap.
  - by rewrite (numbers_seqs evs out Hmsg).
Qed.
End datagrams.
