(* ===== verification/HandlerStops.v ===== *)
(** * The handler's loop ends when it is asked to

    Against an environment in which the stop flag is set at some point ([grace]
    more readings of it at most), and of which nothing is assumed but that numbers
    stay clear of the end of their type, the main loop returns, whatever the
    network, the recovery server and the other end of the ring do. *)

From S2P Require Import Prelude Message Wire SequenceManager SequenceInv SequenceCorrect SequenceProperties Handler.
Import Seq Handler.

#[local] Open Scope Z_scope.

(** The environment, with at most [g] readings of the flag to go. *)
Definition within {E} (EI : E → Prop) (grace : E → nat) (g : nat) (e : E) : Prop := EI e ∧ (grace e ≤ g)%nat.

Class StopLaws (E : Type) {senv : SeqEnv E} {henv : HandlerEnv E} (EI : E → Prop)
    (Pub : MarketMessage → Prop) (grace : E → nat) : Prop := {
  stops_env g : EnvLaws E (within EI grace g) Pub;
  stops_push g e ev : within EI grace g e → within EI grace g (h_push e ev).1;
  stops_stop g e : within EI grace g e → within EI grace g (h_stop e).1 ∧
    ((h_stop e).2 = false → (grace (h_stop e).1 < grace e)%nat);
  stops_receive g e : within EI grace g e → within EI grace g (h_receive e).1 ∧
    ∀ packet ms, (h_receive e).2 = Datagram packet → parse_packet packet = Some ms → Forall Pub ms
}.

Section loop.
Context {E : Type} {senv : SeqEnv E} {henv : HandlerEnv E}.
Context {EI : E → Prop} {Pub : MarketMessage → Prop} {grace : E → nat}.
Context `{Hlaws : !StopLaws E EI Pub grace}.
Implicit Types (e : E) (h : Handler.t) (q : Seq.t).
#[local] Abbreviation within := (within EI grace).

(** The sequencer, started or not. *)
Definition sound q : Prop := ∃ first D, wf Pub first D q.

Lemma stop_now g e : within g e → within g (env_now e).1.
Proof using Hlaws. apply (env_now_inv (EnvLaws := stops_env g)). Qed.

Lemma accept_sound g e q inc :
  sound q → within g e → Pub (message inc) →
  yields (accept e q inc) (λ '(e', q'), within g e' ∧ sound q').
Proof using Hlaws.
  intros (first & D & Hwf) He Hp. pose proof (stops_env g) as Henv. destruct first as [f|].
  - destruct (accept_spec (Henv := Henv) f D e q inc Hwf He Hp) as (e' & q' & -> & [H1 H2 _ _ _ _ _ _]).
    apply yields_ret. split; [done|]. by eexists _, _.
  - destruct (accept_first (Henv := Henv) D e q inc Hwf He Hp) as (e' & q' & -> & He' & Hwf' & _).
    apply yields_ret. split; [done|]. by eexists _, _.
Qed.

Lemma payload_sound g t0 t1 ms : ∀ e q,
  sound q → within g e → Forall Pub ms →
  yields (accept_payload e q t0 t1 ms) (λ '(e', q'), within g e' ∧ sound q').
Proof using Hlaws.
  induction ms as [|m ms IH]; intros e q Hq He Hp; cbn [accept_payload]; [by apply yields_ret|].
  apply Forall_cons in Hp as [Hm Hp]. eapply yields_bind; [by apply accept_sound|].
  intros [e1 q1] [He1 Hq1]. by apply IH.
Qed.

Lemma push_spin_ends g fuel : ∀ e ev spins,
  within g e → (grace e < fuel)%nat →
  yields (push_spin fuel e ev spins) (λ '(e', _, _), within g e').
Proof using Hlaws.
  induction fuel as [|fuel IH]; intros e ev spins He Hf; [lia|]. cbn [push_spin].
  pose proof (stops_push (grace e) e ev (conj (proj1 He) (le_n _))) as [_ Hle].
  pose proof (stops_push g e ev He) as He1. destruct (h_push e ev) as [e1 ok]. cbn [fst] in *.
  destruct ok; [by apply yields_ret|].
  destruct (stops_stop g e1 He1) as [He2 Hlt]. destruct (h_stop e1) as [e2 stop]. cbn [fst snd] in *.
  destruct stop; [by apply yields_ret|]. specialize (Hlt eq_refl).
  pose proof (stop_now g e2 He2) as He3.
  pose proof (stop_now (grace e2) e2 (conj (proj1 He2) (le_n _))) as [_ Hle3].
  destruct (env_now e2) as [e3 now]. cbn [fst] in *. apply IH; [done|lia].
Qed.

(** [deliver] empties the sequencer as [drain] does. *)
Lemma deliver_ends g spin_fuel fuel : ∀ e h q' out,
  within g e → (g < spin_fuel)%nat → drain fuel (sequencer h) = Ret (q', out) →
  yields (deliver fuel spin_fuel e h)
    (λ '(e', h'), within g e' ∧ sequencer h' = q' ∧ idle_elapsed_ms h' = idle_elapsed_ms h).
Proof using Hlaws.
  induction fuel as [|fuel IH]; intros e h q' out He Hf Hd; [done|]. cbn [drain deliver] in *.
  apply bind_Ret_inv in Hd as ([q1 o1] & -> & Hd). returns. destruct o1 as [m|].
  - apply bind_Ret_inv in Hd as ([q2 o2] & Hd & [= <- <-]).
    pose proof (stop_now g e He) as He1. destruct (env_now e) as [e1 t2]. cbn [fst] in He1.
    eapply yields_bind; [apply (push_spin_ends g); [done|destruct He1; lia]|].
    intros [[e2 ev] spins] He2.
    exact (IH e2 (note_published (t2_enqueue ev) (set_spins spins (set_sequencer q1 h))) q2 o2 He2 Hf Hd).
  - injection Hd as <- <-. by apply yields_ret.
Qed.

Lemma drain_sound q : sound q → yields (drain (S (length (buffer_ q))) q) (λ '(q', _), sound q').
Proof using.
  intros (first & D & Hwf). destruct first as [f|].
  - destruct (drain_window f D q Hwf) as (q' & ms & -> & Hok). apply yields_ret. by eexists _, _; apply Hok.
  - cbn [drain]. unfold next_deliverable. pose proof (wf_started _ _ _ _ Hwf) as ->.
    rewrite bool_decide_false by (by intros []). returns. apply yields_ret. by eexists _, _.
Qed.

Lemma datagram_ends g spin_fuel e h packet :
  within g e → (g < spin_fuel)%nat → sound (sequencer h) →
  (∀ ms, parse_packet packet = Some ms → Forall Pub ms) →
  yields (on_datagram spin_fuel e h packet)
    (λ '(e', h'), within g e' ∧ sound (sequencer h') ∧ idle_elapsed_ms h' = 0).
Proof using Hlaws.
  intros He Hf Hq Hp. unfold on_datagram.
  pose proof (stop_now g e He) as He1. destruct (env_now e) as [e1 t0]. cbn [fst] in He1.
  destruct (parse_packet packet) as [ms|]; [|by apply yields_ret].
  pose proof (stop_now g e1 He1) as He2. destruct (env_now e1) as [e2 t1]. cbn [fst] in He2.
  eapply yields_bind; [apply payload_sound; [exact Hq|exact He2|by apply Hp]|]. intros [e3 q3] [He3 Hq3].
  destruct (drain_sound q3 Hq3) as ([q4 out] & Hd & Hq4).
  eapply yields_impl; [by eapply (deliver_ends g spin_fuel); [..|exact Hd]|].
  intros [e4 h4] (He4 & Hq5 & Hi). split; [done|]. split; [by rewrite Hq5|done].
Qed.

(** What the loop keeps of its variables: the idle time stays below the limit. *)
Record loop_ok (idle_ms : Z) h : Prop := {
  lo_sound : sound (sequencer h);
  lo_idle : 0 ≤ idle_elapsed_ms h ≤ Z.max 0 idle_ms
}.

Lemma iteration_ends g spin_fuel expect idle_ms e h :
  within g e → (g < spin_fuel)%nat → loop_ok idle_ms h → idle_ms < 2 ^ 31 - 50 →
  yields (iteration spin_fuel expect idle_ms e h)
    (λ '(e', h', more), within g e' ∧ (more = true → loop_ok idle_ms h' ∧ (grace e' < grace e)%nat)).
Proof using Hlaws.
  intros He Hf [Hq Hi] Hms. unfold iteration.
  destruct (stops_stop g e He) as [He1 Hlt]. destruct (h_stop e) as [e1 stop]. cbn [fst snd] in *.
  destruct stop; [by apply yields_ret|]. specialize (Hlt eq_refl).
  destruct (stops_receive g e1 He1) as [He2 Hpub].
  destruct (stops_receive (grace e1) e1 (conj (proj1 He1) (le_n _))) as [[_ Hle2] _].
  destruct (h_receive e1) as [e2 got]. cbn [fst snd] in *.
  assert (yields (if negb (first_message_ns h =? 0)
      then idle ← i32 (idle_elapsed_ms h + 50); Ret (e2, set_idle idle h, negb (idle_ms <=? idle))
      else Ret (e2, h, true))
    (λ '(e', h', more), within g e' ∧ (more = true → loop_ok idle_ms h' ∧ (grace e' < grace e)%nat))) as Hidle.
  { destruct (negb _); [|apply yields_ret; split; [done|]; intros _; split; [by split|lia]].
    unfold i32. destruct (Z.leb_spec (- 2 ^ 31) (idle_elapsed_ms h + 50)), (Z.leb_spec (idle_elapsed_ms h + 50) (2 ^ 31 - 1));
      try lia; simpl.
    apply yields_ret. split; [done|]. destruct (Z.leb_spec idle_ms (idle_elapsed_ms h + 50)); [done|].
    intros _. split; [split; simpl; [done|lia]|lia]. }
  destruct got as [packet| |]; [|exact Hidle|by apply yields_ret].
  destruct packet as [|x packet]; [exact Hidle|].
  eapply yields_bind.
  { apply (datagram_ends (grace e2)); [split; [apply He2|lia]|destruct He2; lia|done|eauto]. }
  intros [e3 h3] ([He3 Hg3] & Hq3 & Hi3).
  assert (within g e3 ∧ loop_ok idle_ms h3 ∧ (grace e3 < grace e)%nat) as (Hw & Hl & Hg).
  { split; [split; [done|destruct He2; lia]|]. split; [split; [done|lia]|lia]. }
  destruct (parse_packet (x :: packet)); by apply yields_ret.
Qed.

Lemma main_loop_ends g expect idle_ms spin_fuel fuel : ∀ e h,
  within g e → (g < spin_fuel)%nat → (grace e < fuel)%nat → loop_ok idle_ms h → idle_ms < 2 ^ 31 - 50 →
  yields (main_loop fuel spin_fuel expect idle_ms e h) (λ '(e', _), within g e').
Proof using Hlaws.
  induction fuel as [|fuel IH]; intros e h He Hsf Hf Hl Hms; [lia|]. cbn [main_loop].
  eapply yields_bind; [by apply (iteration_ends g)|]. intros [[e1 h1] more] [He1 Hmore].
  destruct more; [|by apply yields_ret]. destruct (Hmore eq_refl) as [Hl1 Hg1]. apply IH; try done. lia.
Qed.

Lemma start_ok reorder use_recovery idle_ms :
  0 < reorder < 2 ^ 64 → loop_ok idle_ms (start reorder use_recovery).
Proof using.
  intros Hr. split; [|simpl; lia]. exists None, 0. by apply make_wf.
Qed.
End loop.
