(* ===== verification/Coupling.v ===== *)
(** * Two environments of the handler that answer alike

    If two environments give the same answers to the calls that the handler makes,
    the handler does the same in both. A request for retransmission is made for
    numbers below one that has been received, so the answers to other requests do
    not matter: [R n] relates two environments that agree on requests below [n]. *)

From S2P Require Import Prelude Message Wire SequenceManager SequenceInv SequenceCorrect Handler.
Import Seq Handler.

#[local] Open Scope Z_scope.

(** [m1] returns whenever [m2] does, with results related by [Q]. *)
Definition follows {A B} (Q : A → B → Prop) (m1 : outcome A) (m2 : outcome B) : Prop :=
  ∀ b, m2 = Ret b → ∃ a, m1 = Ret a ∧ Q a b.

Lemma follows_ret {A B} (Q : A → B → Prop) a b : Q a b → follows Q (Ret a) (Ret b).
Proof. intros HQ b' [= <-]. by exists a. Qed.

Lemma follows_bind {A B A' B'} (P : A → B → Prop) (Q : A' → B' → Prop) m1 m2 f1 f2 :
  follows P m1 m2 → (∀ a b, m2 = Ret b → P a b → follows Q (f1 a) (f2 b)) → follows Q (m1 ≫= f1) (m2 ≫= f2).
Proof.
  intros Hm Hf b' (b & Hb & Hb')%bind_Ret_inv. destruct (Hm b Hb) as (a & -> & HP). by eapply Hf.
Qed.

(** The same call on both sides. *)
Lemma follows_same {A A' B'} (Q : A' → B' → Prop) (m : outcome A) f1 f2 :
  (∀ a, m = Ret a → follows Q (f1 a) (f2 a)) → follows Q (m ≫= f1) (m ≫= f2).
Proof. intros Hf. apply (follows_bind eq); [intros b ->; by exists b|]. intros a b Hm ->. by apply Hf. Qed.

(** ** The expected number *)

Section expected.
Context {E : Type} `{SeqEnv E}.
Implicit Types (q : Seq.t).

Lemma set_slot_expected q s sl q' : set_slot q s sl = Ret q' → expected_ q' = expected_ q.
Proof. unfold set_slot. intros (i & _ & (b & _ & [= <-])%bind_Ret_inv)%bind_Ret_inv. done. Qed.

Lemma store_expected q inc q' : store q inc = Ret q' → expected_ q' = expected_ q.
Proof.
  unfold store. intros (sl & _ & Hs)%bind_Ret_inv. case_decide; [by injection Hs as <-|]. by eapply set_slot_expected.
Qed.

Lemma recover_messages_expected arrived ms : ∀ (e : E) q e' q',
  recover_messages e q arrived ms = Ret (e', q') → expected_ q' = expected_ q.
Proof.
  induction ms as [|m ms IH]; intros e q e' q'; cbn [recover_messages]; [by intros [= <- <-]|].
  destruct (_ || _); [apply IH|]. intros (sl & _ & Hs)%bind_Ret_inv. case_decide; [by eapply IH|].
  destruct (env_now e) as [e1 now]. apply bind_Ret_inv in Hs as (q1 & Hq1 & Hs).
  rewrite (IH _ _ _ _ Hs). simpl. by eapply set_slot_expected.
Qed.

Lemma request_loop_expected fuel : ∀ (e : E) q to start e' q',
  request_loop fuel e q to start = Ret (e', q') → expected_ q' = expected_ q.
Proof.
  induction fuel as [|fuel IH]; intros e q to start e' q'; cbn [request_loop]; [done|].
  destruct (start <=? to); [|by intros [= <- <-]]. destruct (env_request e start _) as [e1 [ms|]]; [|by intros [= <- <-]].
  destruct (env_now e1) as [e2 arrived]. intros ([e3 q3] & Hr & Hs)%bind_Ret_inv.
  rewrite (IH _ _ _ _ _ _ Hs). by rewrite (recover_messages_expected _ _ _ _ _ _ Hr).
Qed.

Lemma skip_loop_expected fuel : ∀ q to s q', skip_loop fuel q to s = Ret q' → expected_ q' = expected_ q.
Proof.
  induction fuel as [|fuel IH]; intros q to s q'; cbn [skip_loop]; [done|].
  destruct (s <=? to); [|by intros [= <-]]. intros (sl & _ & (q1 & Hq1 & Hs)%bind_Ret_inv)%bind_Ret_inv.
  rewrite (IH _ _ _ _ Hs). case_decide; [|by injection Hq1 as <-].
  apply bind_Ret_inv in Hq1 as (q2 & Hq2 & [= <-]). by eapply (set_slot_expected _ _ _ _ Hq2).
Qed.

Lemma accept_expected (e : E) q inc e' q' :
  accept e q inc = Ret (e', q') → 0 ≤ expected_ q → 0 ≤ sequence_number (message inc) → 0 ≤ expected_ q'.
Proof.
  unfold accept. intros Hrun Hq Hinc. set (q1 := if started_ _ then _ else _) in Hrun.
  assert (0 ≤ expected_ q1) as Hq1 by (unfold q1; by destruct (started_ _)). clearbody q1.
  destruct (_ <? _); [by injection Hrun as <- <-|]. unfold accept_new in Hrun. destruct (_ <=? _).
  - apply bind_Ret_inv in Hrun as (q2 & Hs & [= <- <-]). rewrite (store_expected _ _ _ Hs). done.
  - apply bind_Ret_inv in Hrun as (gap & _ & (q2 & Hs & Hrun)%bind_Ret_inv).
    rewrite <- (store_expected _ _ _ Hs) in Hq1. destruct gap; [|by injection Hrun as <- <-].
    unfold recover_range in Hrun. apply bind_Ret_inv in Hrun as ([e3 q3] & Hr & (q4 & Hk & [= <- <-])%bind_Ret_inv).
    rewrite (skip_loop_expected _ _ _ _ _ Hk). destruct (connected _).
    + by rewrite (request_loop_expected _ _ _ _ _ _ _ Hr).
    + by injection Hr as <- <-.
Qed.

Lemma next_expected q q' out : next_deliverable q = Ret (q', out) → 0 ≤ expected_ q → 0 ≤ expected_ q'.
Proof.
  unfold next_deliverable. destruct (started_ q); [|by intros [= <- <-]]. generalize (S (length (buffer_ q))).
  intros fuel. revert q. induction fuel as [|fuel IH]; intros q; cbn [next_loop]; [done|].
  intros (sl & _ & Hs)%bind_Ret_inv Hq. destruct (state sl).
  - by injection Hs as <- <-.
  - apply bind_Ret_inv in Hs as (q1 & Hq1 & [= <- <-]). apply u64_range.
  - apply bind_Ret_inv in Hs as (q1 & Hq1 & Hs). eapply IH; [done|]. apply u64_range.
Qed.
End expected.

(** Related states and the same answer. *)
Definition answers {E1 E2 A} (R : E1 → E2 → Prop) (r1 : E1 * A) (r2 : E2 * A) : Prop := R r1.1 r2.1 ∧ r1.2 = r2.2.

Class Coupled (E1 E2 : Type) {s1 : SeqEnv E1} {s2 : SeqEnv E2} {h1 : HandlerEnv E1} {h2 : HandlerEnv E2}
    (R : Z → E1 → E2 → Prop) : Prop := {
  coupled_below n n' e1 e2 : n' ≤ n → R n e1 e2 → R n' e1 e2;
  coupled_now n e1 e2 : R n e1 e2 → answers (R n) (env_now e1) (env_now e2);
  coupled_request n e1 e2 a b : R n e1 e2 → request_ok a b → b < n → answers (R n) (env_request e1 a b) (env_request e2 a b);
  coupled_push n e1 e2 ev : R n e1 e2 → answers (R n) (h_push e1 ev) (h_push e2 ev);
  coupled_stop n e1 e2 : R n e1 e2 → answers (R n) (h_stop e1) (h_stop e2);
  coupled_receive n e1 e2 : R n e1 e2 → answers (R n) (h_receive e1) (h_receive e2);
  coupled_numbers n e1 e2 packet ms : R n e1 e2 → (h_receive e1).2 = Datagram packet → parse_packet packet = Some ms →
    ∃ n', R n' (h_receive e1).1 (h_receive e2).1 ∧ Forall (λ m, 1 ≤ sequence_number m ≤ n') ms ∧ n' ≤ top
}.

Section follow.
Context {E1 E2 : Type} {s1 : SeqEnv E1} {s2 : SeqEnv E2} {h1 : HandlerEnv E1} {h2 : HandlerEnv E2}.
Context {R : Z → E1 → E2 → Prop} `{Hc : !Coupled E1 E2 R}.
Implicit Types (q : Seq.t) (h : Handler.t).

(** Related environments next to equal results. *)
Definition paired {A} (n : Z) (r1 : E1 * A) (r2 : E2 * A) : Prop := answers (R n) r1 r2.

#[local] Tactic Notation "couple" constr(H) "as" ident(a) ident(b) ident(x) ident(HR) :=
  let Ha := fresh in
  let y := fresh in
  pose proof H as Ha;
  match type of Ha with
  | answers _ ?r1 ?r2 =>
      destruct r1 as [a x], r2 as [b y]; destruct Ha as [HR Ha]; cbn [fst snd] in HR, Ha; subst y
  end.

Lemma recover_messages_follows n ms arrived : ∀ e1 e2 q, R n e1 e2 →
  follows (paired n) (recover_messages e1 q arrived ms) (recover_messages e2 q arrived ms).
Proof using Hc.
  induction ms as [|m ms IH]; intros e1 e2 q HR; cbn [recover_messages]; [by apply follows_ret|].
  destruct (_ || _); [by apply IH|]. apply follows_same. intros slot _. destruct (decide _); [by apply IH|].
  couple (coupled_now n e1 e2 HR) as e3 e4 now HR3. apply follows_same. intros q1 _. by apply IH.
Qed.

Lemma request_loop_follows n to fuel : ∀ e1 e2 q start, 0 ≤ start → to < n → n ≤ top → R n e1 e2 →
  follows (paired n) (request_loop fuel e1 q to start) (request_loop fuel e2 q to start).
Proof using Hc.
  induction fuel as [|fuel IH]; intros e1 e2 q start Hs Hto Hn HR; cbn [request_loop]; [done|].
  destruct (Z.leb_spec start to) as [Hle|]; [|by apply follows_ret]. set (last := Z.min to _).
  assert (last < n ∧ request_ok start last) as [Hlast Hreq].
  { unfold last, request_ok, top, kMaxRecoveryBatch in *. rewrite (u64_small (start + 1024)), u64_small by lia. lia. }
  couple (coupled_request n e1 e2 start last HR Hreq Hlast) as e3 e4 answer HR3.
  destruct answer as [ms|]; [|by apply follows_ret]. couple (coupled_now n e3 e4 HR3) as e5 e6 arrived HR5.
  eapply follows_bind; [by apply recover_messages_follows|]. intros [e7 q7] [e8 q8] _ [HR7 Hq]. cbn [fst snd] in HR7, Hq.
  subst q8. apply IH; try done. apply u64_range.
Qed.

Lemma accept_follows n e1 e2 q inc :
  0 ≤ expected_ q → 1 ≤ sequence_number (message inc) ≤ n → n ≤ top → R n e1 e2 →
  follows (paired n) (accept e1 q inc) (accept e2 q inc).
Proof using Hc.
  intros Hq Hs Hn HR. assert (top < 2 ^ 64) as Htop by (by vm_compute). unfold accept. set (q1 := if started_ _ then _ else _).
  assert (0 ≤ expected_ q1) as Hq1 by (unfold q1; destruct (started_ _); simpl; lia). clearbody q1.
  destruct (_ <? _); [by apply follows_ret|]. unfold accept_new. destruct (_ <=? _).
  - apply follows_same. intros q2 _. by apply follows_ret.
  - apply follows_same. intros gap _. apply follows_same. intros q2 Hst. destruct gap; [|by apply follows_ret].
    rewrite <- (store_expected _ _ _ Hst) in Hq1. unfold recover_range. rewrite (u64_small (_ - 1)) by lia.
    eapply (follows_bind (paired n)).
    + destruct (connected _); [apply request_loop_follows; done || lia|by apply follows_ret].
    + intros [e3 q3] [e4 q4] _ [HR3 Hq34]. cbn [fst snd] in HR3, Hq34. subst q4. apply follows_same. intros q4 _.
      by apply follows_ret.
Qed.

Lemma payload_follows n t0 t1 ms : ∀ e1 e2 q,
  0 ≤ expected_ q → Forall (λ m, 1 ≤ sequence_number m ≤ n) ms → n ≤ top → R n e1 e2 →
  follows (λ r1 r2, paired n r1 r2 ∧ 0 ≤ expected_ r2.2) (accept_payload e1 q t0 t1 ms) (accept_payload e2 q t0 t1 ms).
Proof using Hc.
  induction ms as [|m ms IH]; intros e1 e2 q Hq Hms Hn HR; cbn [accept_payload]; [by apply follows_ret|].
  apply Forall_cons in Hms as [Hm Hms]. eapply follows_bind; [by apply accept_follows|].
  intros [e3 q3] [e4 q4] Hacc [HR3 Hq34]. cbn [fst snd] in HR3, Hq34. subst q4. apply IH; try done.
  eapply accept_expected; [exact Hacc|done|]. simpl. lia.
Qed.

Lemma push_spin_follows n fuel : ∀ e1 e2 ev spins, R n e1 e2 →
  follows (λ '(e1, ev1, n1) '(e2, ev2, n2), R n e1 e2 ∧ ev1 = ev2 ∧ n1 = n2)
    (push_spin fuel e1 ev spins) (push_spin fuel e2 ev spins).
Proof using Hc.
  induction fuel as [|fuel IH]; intros e1 e2 ev spins HR; cbn [push_spin]; [done|].
  couple (coupled_push n e1 e2 ev HR) as e3 e4 ok HR3. destruct ok; [by apply follows_ret|].
  couple (coupled_stop n e3 e4 HR3) as e5 e6 stop HR5. destruct stop; [by apply follows_ret|].
  couple (coupled_now n e5 e6 HR5) as e7 e8 now HR7.
  by apply IH.
Qed.

(** Related environments next to equal handlers. *)
Definition in_step (n : Z) (r1 : E1 * Handler.t) (r2 : E2 * Handler.t) : Prop :=
  paired n r1 r2 ∧ 0 ≤ expected_ (sequencer r2.2).

Lemma deliver_follows n spin_fuel fuel : ∀ e1 e2 h, 0 ≤ expected_ (sequencer h) → R n e1 e2 →
  follows (in_step n) (deliver fuel spin_fuel e1 h) (deliver fuel spin_fuel e2 h).
Proof using Hc.
  induction fuel as [|fuel IH]; intros e1 e2 h Hh HR; cbn [deliver]; [done|].
  apply follows_same. intros [q out] Hnext. pose proof (next_expected _ _ _ Hnext Hh) as Hq.
  destruct out as [m|]; [|by apply follows_ret].
  couple (coupled_now n e1 e2 HR) as e3 e4 t2 HR3. eapply follows_bind; [by apply push_spin_follows|].
  intros [[e5 ev] k] [[e6 ev'] k'] _ (HR5 & <- & <-). by apply IH.
Qed.

Lemma datagram_follows n spin_fuel e1 e2 h packet :
  (∀ ms, parse_packet packet = Some ms → Forall (λ m, 1 ≤ sequence_number m ≤ n) ms ∧ n ≤ top) →
  0 ≤ expected_ (sequencer h) → R n e1 e2 →
  follows (in_step n) (on_datagram spin_fuel e1 h packet) (on_datagram spin_fuel e2 h packet).
Proof using Hc.
  intros Hp Hh HR. unfold on_datagram. couple (coupled_now n e1 e2 HR) as e3 e4 t0 HR3.
  destruct (parse_packet packet) as [ms|]; [|by apply follows_ret]. destruct (Hp ms eq_refl) as [Hms Hn].
  couple (coupled_now n e3 e4 HR3) as e5 e6 t1 HR5.
  eapply follows_bind; [by apply payload_follows|]. intros [e7 q7] [e8 q8] _ [[HR7 Hq] Hq8]. cbn [fst snd] in HR7, Hq, Hq8.
  subst q8. by apply deliver_follows.
Qed.

(** The same with some [R n], and equal answers [b1 = b2]. *)
Definition related (r1 : E1) (r2 : E2) : Prop := ∃ n, R n r1 r2.
Definition stepped (r1 : E1 * Handler.t * bool) (r2 : E2 * Handler.t * bool) : Prop :=
  (∃ n, in_step n r1.1 r2.1) ∧ r1.2 = r2.2.

Lemma iteration_follows spin_fuel expect idle_ms e1 e2 h : 0 ≤ expected_ (sequencer h) → related e1 e2 →
  follows stepped (iteration spin_fuel expect idle_ms e1 h) (iteration spin_fuel expect idle_ms e2 h).
Proof using Hc.
  intros Hh [n HR]. unfold iteration. couple (coupled_stop n e1 e2 HR) as e3 e4 stop HR3.
  destruct stop; [apply follows_ret; by split; [exists n|]|].
  pose proof (λ p ms, coupled_numbers n e3 e4 p ms HR3) as Hnum.
  couple (coupled_receive n e3 e4 HR3) as e5 e6 got HR5. cbn [fst snd] in Hnum.
  assert (follows stepped
    (if negb (first_message_ns h =? 0)
     then idle ← i32 (idle_elapsed_ms h + 50); Ret (e5, set_idle idle h, negb (idle_ms <=? idle)) else Ret (e5, h, true))
    (if negb (first_message_ns h =? 0)
     then idle ← i32 (idle_elapsed_ms h + 50); Ret (e6, set_idle idle h, negb (idle_ms <=? idle)) else Ret (e6, h, true)))
    as Hidle.
  { destruct (negb _); [apply follows_same; intros idle _|]; apply follows_ret; by split; [exists n|]. }
  destruct got as [packet| |]; [|exact Hidle|apply follows_ret; by split; [exists n|]].
  destruct packet as [|x packet]; [exact Hidle|].
  assert (∃ n', R n' e5 e6 ∧ ∀ ms, parse_packet (x :: packet) = Some ms →
    Forall (λ m, 1 ≤ sequence_number m ≤ n') ms ∧ n' ≤ top) as (n' & HR' & Hms).
  { destruct (parse_packet (x :: packet)) as [ms|] eqn:Ep; [|by exists n].
    destruct (Hnum _ ms eq_refl Ep) as (n' & HR' & Hms). exists n'. split; [done|]. by intros ? [= <-]. }
  eapply follows_bind; [by apply datagram_follows|]. intros [e7 h7] [e8 h8] _ Hst. pose proof Hst as [[_ Hh78] _].
  cbn [fst snd] in Hh78. subst h8.
  destruct (parse_packet (x :: packet)); apply follows_ret; by split; [exists n'|].
Qed.

Lemma main_loop_follows spin_fuel expect idle_ms fuel : ∀ e1 e2 h,
  0 ≤ expected_ (sequencer h) → related e1 e2 →
  follows (λ r1 r2, ∃ n, in_step n r1 r2)
    (main_loop fuel spin_fuel expect idle_ms e1 h) (main_loop fuel spin_fuel expect idle_ms e2 h).
Proof using Hc.
  induction fuel as [|fuel IH]; intros e1 e2 h Hh HR; cbn [main_loop]; [done|].
  eapply follows_bind; [by apply iteration_follows|]. intros [[e3 h3] b3] [[e4 h4] b4] _ [[n [[HR3 Hh34] Hh4]] Hb].
  cbn [fst snd] in *. subst h4 b4. destruct b3; [apply IH; [done|by exists n]|]. apply follows_ret. by exists n.
Qed.
End follow.
