(* ===== verification/Exchange.v ===== *)
(** * The exchange simulator

    The publishing process of [exchange/exchange_simulator.cpp]: it draws order
    flow, keeps the authoritative book, numbers every event, retains it in the
    history and sends it in datagrams, some of which it drops on purpose.

    The random generator, the clock, the socket and the stop flag are the
    environment ([ExchangeEnv]); [ExchangeLaws] says of them what the C++ standard
    says of the distributions: the range of a draw. A [double] is the rational it
    denotes. *)

From Stdlib Require Import QArith.
From S2P Require Import Prelude Message Wire History BookSpec BookInterface.

#[local] Open Scope Z_scope.
#[local] Open Scope llte_scope.

Class ExchangeEnv (E : Type) := {
  draw_unit : E → E * Q;
  draw_depth : E → E * Z;
  draw_lot : E → E * Z;
  draw_pick : E → Z → E * Z;
  x_now : E → E * Z;
  x_send : E → list Z → E * bool;
  x_stop : E → E * bool
}.

Module Exchange.

Definition kMinPrice : Z := 18250.
Definition kMaxPrice : Z := 19250.
Definition kMidPrice : Z := 18750.

(** [a < b] on doubles, and the doubles nearest to 0.60 and 0.90. *)
Definition less (a b : Q) : bool := negb (Qle_bool b a).
Definition d0_60 : Q := 5404319552844595 # 9007199254740992.
Definition d0_75 : Q := 3 # 4.
Definition d0_90 : Q := 8106479329266893 # 9007199254740992.
Definition d0_50 : Q := 1 # 2.

Record LiveOrder := mkLive { id : Z; lo_side : Side; lo_price : Z; lo_quantity : Z }.

(** The command line: [pad] are the padding bytes of a message in the packet. *)
Record Options := mkOptions {
  total_messages : Z;
  batch : Z;
  drop_rate : Q;
  interval_ns : Z;
  start_ns : Z;
  pad : list Z
}.

(** [static_cast<std::uint16_t>] of the option, then the two clamps. *)
Definition clamp_batch (option : Z) : Z :=
  let batch := u16 option in
  let batch := if batch <? 1 then 1 else batch in
  if kMaxBatch <? batch then kMaxBatch else batch.

Section simulator.
Context {E T : Type} `{ExchangeEnv E} `{BookOps T}.

(** What the order generator owns. *)
Record desk := mkDesk { book : T; live : list LiveOrder; next_order_id : Z }.

Record t := mkExchange {
  orders : desk;
  history : HistoryStore.t;
  sequence : Z;
  payload : list MarketMessage;
  pending : Z;
  packets_sent : Z;
  packets_dropped : Z;
  messages_dropped : Z
}.

Definition make (b : T) (history_capacity : Z) : t :=
  mkExchange (mkDesk b [] 1) (HistoryStore.make history_capacity) 1001
    (replicate (Z.to_nat kMaxBatch) MarketMessage_zero) 0 0 0 0.

(** ** Order flow *)

Definition price_for (e : E) (s : Side) : outcome (E * Z) :=
  let '(e, distance) := draw_depth e in
  p ← i64 (if is_buy s then kMidPrice - distance else kMidPrice + distance);
  Ret (e, p).

(** The fields the generator fills in; number, symbol and the rest are [m]'s. *)
Definition filled (m : MarketMessage) (ty : MessageType) (oid : Z) (s : Side) (p q : Z)
    : MarketMessage :=
  mkMessage (sequence_number m) (timestamp_ns m) oid p q (symbol_id m) ty s (reserved m).

Definition new_order (e : E) (d : desk) (m : MarketMessage) : outcome (E * desk * MarketMessage) :=
  let '(e, coin) := draw_unit e in
  let s := if less coin d0_50 then Buy else Sell in
  '(e, p) ← price_for e s;
  let '(e, lots) := draw_lot e in
  let q := u32 (lots * 10) in
  let oid := next_order_id d in
  '(b, result) ← bk_add (book d) oid s p q;
  let l := if decide (result = Ok) then live d ++ [mkLive oid s p q] else live d in
  Ret (e, mkDesk b l (u64 (oid + 1)), filled m Add oid s p q).

(** [live[index] = live.back(); live.pop_back()] *)
Definition swap_remove (l : list LiveOrder) (index : Z) : outcome (list LiveOrder) :=
  back ← load l (vlen l - 1);
  l ← assign l index back;
  Ret (take (length l - 1) l).

Definition cancel_order (e : E) (d : desk) (m : MarketMessage) (index : Z) (target : LiveOrder)
    : outcome (E * desk * MarketMessage) :=
  let m := filled m Cancel (id target) (lo_side target) (lo_price target) (lo_quantity target) in
  '(b, _) ← bk_cancel (book d) (id target);
  l ← swap_remove (live d) index;
  Ret (e, mkDesk b l (next_order_id d), m).

Definition modify_order (e : E) (d : desk) (m : MarketMessage) (index : Z) (target : LiveOrder)
    : outcome (E * desk * MarketMessage) :=
  '(e, p) ← price_for e (lo_side target);
  let '(e, lots) := draw_lot e in
  let q := u32 (lots * 10) in
  '(b, result) ← bk_modify (book d) (id target) p q;
  l ← (if decide (result = Ok)
       then assign (live d) index (mkLive (id target) (lo_side target) p q) else Ret (live d));
  Ret (e, mkDesk b l (next_order_id d), filled m Modify (id target) (lo_side target) p q).

Definition trade_order (e : E) (d : desk) (m : MarketMessage) (index : Z) (target : LiveOrder)
    : outcome (E * desk * MarketMessage) :=
  let q := lo_quantity target in
  let fill := if 10 <? q then q / 2 else q in
  '(b, _) ← bk_execute (book d) (id target) fill;
  l ← (if q <=? fill then swap_remove (live d) index
       else assign (live d) index
              (mkLive (id target) (lo_side target) (lo_price target) (u32 (q - fill))));
  Ret (e, mkDesk b l (next_order_id d),
       filled m Trade (id target) (lo_side target) (lo_price target) fill).

(** From the first draw to the last branch of the loop body. *)
Definition generate (e : E) (d : desk) (m : MarketMessage) : outcome (E * desk * MarketMessage) :=
  let '(e, roll) := draw_unit e in
  if (vlen (live d) =? 0) || less roll d0_60 then new_order e d m
  else
    let '(e, index) := draw_pick e (vlen (live d)) in
    target ← load (live d) index;
    if less roll d0_75 then cancel_order e d m index target
    else if less roll d0_90 then modify_order e d m index target
    else trade_order e d m index target.

(** ** Publishing *)

(** The flag is what [flush_packet] returns. *)
Definition flush_packet (o : Options) (e : E) (x : t) : outcome (E * t * bool) :=
  if pending x =? 0 then Ret (e, x, true)
  else if vlen (payload x) <? pending x then Fault OutOfBounds
  else
    let packet := encode_packet (pad o) (take (Z.to_nat (pending x)) (payload x)) in
    let '(e, drop) :=
      if less 0 (drop_rate o)
      then let '(e, u) := draw_unit e in (e, less u (drop_rate o)) else (e, false) in
    if drop then
      Ret (e, mkExchange (orders x) (history x) (sequence x) (payload x) 0 (packets_sent x)
        (u64 (packets_dropped x + 1)) (u64 (messages_dropped x + pending x)), true)
    else
      let '(e, sent) := x_send e packet in
      if sent then
        Ret (e, mkExchange (orders x) (history x) (sequence x) (payload x) 0
          (u64 (packets_sent x + 1)) (packets_dropped x) (messages_dropped x), true)
      else Ret (e, x, false).

Fixpoint busy_wait_until (fuel : nat) (e : E) (deadline_ns : Z) : outcome E :=
  match fuel with
  | O => Fault OutOfFuel
  | S fuel =>
      let '(e, now) := x_now e in
      if now <? deadline_ns then busy_wait_until fuel e deadline_ns else Ret e
  end.

(** One message: generated, stamped, retained, put into the packet. *)
Definition retain (e : E) (x : t) : outcome (E * t) :=
  let m := mkMessage (sequence x) 0 0 0 0 1 (MessageType_raw 0) (Side_raw 0) 0 in
  '(e, d, m) ← generate e (orders x) m;
  let '(e, now) := x_now e in
  let m := mkMessage (sequence_number m) now (order_id m) (price m) (quantity m) (symbol_id m)
             (type m) (side m) (reserved m) in
  h ← HistoryStore.append (history x) m;
  buffer ← assign (payload x) (pending x) m;
  Ret (e, mkExchange d h (u64 (sequence x + 1)) buffer (u16 (pending x + 1)) (packets_sent x)
    (packets_dropped x) (messages_dropped x)).

(** The loop body; [false] is [return 1]. *)
Definition publish (spins : nat) (o : Options) (e : E) (x : t) (published : Z)
    : outcome (E * t * bool) :=
  '(e, x) ← retain e x;
  if pending x =? batch o then
    '(e, x, flushed) ← flush_packet o e x;
    if negb flushed then Ret (e, x, false)
    else if 0 <? interval_ns o then
      e ← busy_wait_until spins e (u64 (start_ns o + u64 (u64 (published + 1) * interval_ns o)));
      Ret (e, x, true)
    else Ret (e, x, true)
  else Ret (e, x, true).

Fixpoint publish_loop (fuel spins : nat) (o : Options) (e : E) (x : t) (published : Z)
    : outcome (E * t * bool) :=
  match fuel with
  | O => Fault OutOfFuel
  | S fuel =>
      if published <? total_messages o then
        let '(e, stop) := x_stop e in
        if stop then Ret (e, x, true)
        else
          '(e, x, going) ← publish spins o e x published;
          if (going : bool) then publish_loop fuel spins o e x (u64 (published + 1))
          else Ret (e, x, false)
      else Ret (e, x, true)
  end.

(** The loop and the last [flush_packet], whose result nobody looks at. *)
Definition run (fuel spins : nat) (o : Options) (e : E) (x : t) : outcome (E * t * bool) :=
  '(e, x, going) ← publish_loop fuel spins o e x 0;
  if (going : bool) then '(e, x, _) ← flush_packet o e x; Ret (e, x, true) else Ret (e, x, false).

End simulator.
Arguments desk : clear implicits.
Arguments t : clear implicits.
End Exchange.
