(* ===== verification/ExchangeCorrect.v ===== *)
(** * What the exchange publishes

    The list of live orders is the exchange's book, every message describes an
    order that rests in that book, and the datagrams cut the numbered messages
    into runs. Proved for any book that satisfies [BookLaws] and any environment
    that satisfies [ExchangeLaws]. *)

From Stdlib Require Import QArith.
From S2P Require Import Prelude Message Wire History BookSpec BookInterface BookQueues OrderBookRep Engine Exchange.
Import Exchange.

#[local] Open Scope Z_scope.
#[local] Open Scope llte_scope.

(** The draws are in the range of their distribution, the clock is a
    [std::uint64_t] that reaches any deadline within [spins] readings, and a
    datagram is on the wire when the socket took it. [quiet_step] is a step of
    the environment that sends nothing. *)
Definition quiet_step {E A} (EI : E → Prop) (sent : E → list (list Z)) (e : E) (r : E * A)
    (P : A → Prop) : Prop := EI r.1 ∧ sent r.1 = sent e ∧ P r.2.

Class ExchangeLaws (E : Type) `{ExchangeEnv E} (EI : E → Prop) (sent : E → list (list Z))
    (spins : nat) : Prop := {
  law_unit e : EI e → quiet_step EI sent e (draw_unit e) (λ _, True);
  law_depth e : EI e → quiet_step EI sent e (draw_depth e) (λ d, 1 ≤ d ≤ 40);
  law_lot e : EI e → quiet_step EI sent e (draw_lot e) (λ n, 1 ≤ n ≤ 20);
  law_pick e n : EI e → 0 < n → quiet_step EI sent e (draw_pick e n) (λ i, 0 ≤ i < n);
  law_now e : EI e → quiet_step EI sent e (x_now e) (λ n, 0 ≤ n < 2 ^ 64);
  law_stop e : EI e → quiet_step EI sent e (x_stop e) (λ _, True);
  law_wait e d : EI e → 0 ≤ d < 2 ^ 64 →
    ∃ e', busy_wait_until spins e d = Ret e' ∧ EI e' ∧ sent e' = sent e;
  law_send e p : EI e → EI (x_send e p).1 ∧
    sent (x_send e p).1 = sent e ++ (if (x_send e p).2 then [p] else [])
}.

(** ** Live orders *)

Definition live_of (a : aorder) : LiveOrder := mkLive (a_id a) (a_side a) (a_price a) (a_qty a).

(** Where the generator quotes: bids below the mid price, offers above it. *)
Definition quoted (a : aorder) : Prop :=
  0 < a_qty a ≤ 200 ∧
  ((a_side a = Buy ∧ kMidPrice - 40 ≤ a_price a < kMidPrice) ∨
   (a_side a = Sell ∧ kMidPrice < a_price a ≤ kMidPrice + 40)).

Lemma swap_remove_perm l i x :
  l⟦i⟧ = Some x → ∃ l', swap_remove l i = Ret l' ∧ x :: l' ≡ₚ l.
Proof.
  intros Hi. pose proof (vget_Some_range _ _ _ Hi) as Hr. unfold swap_remove.
  destruct (list_snoc_case l) as [->|(k & y & ->)]; [by rewrite vget_nil in Hi|].
  rewrite vlen_snoc in *. replace (vlen k + 1 - 1) with (vlen k) by lia.
  rewrite (load_Some _ _ y (vget_snoc_eq k y)). returns.
  rewrite assign_ok by (vlen_lia). returns.
  eexists. split; [done|].
  assert (length ((k ++ [y])⟦i := y⟧) = S (length k)) as Hl.
  { pose proof (vlen_vset (k ++ [y]) i y) as Hv. rewrite vlen_snoc in Hv. unfold vlen in Hv. lia. }
  rewrite Hl. simpl. rewrite Nat.sub_0_r. unfold vset. destruct (Z.leb_spec 0 i); [|lia].
  destruct (decide (i = vlen k)) as [->|Hne].
  - rewrite vget_snoc_eq in Hi. injection Hi as <-. unfold vlen. rewrite Nat2Z.id.
    rewrite insert_app_r_alt, Nat.sub_diag by lia. rewrite take_app_length. apply Permutation_cons_append.
  - rewrite vget_snoc_ne in Hi by lia. unfold vget in Hi. destruct (Z.leb_spec 0 i); [|lia].
    assert (Z.to_nat i < length k)%nat as Hlt by (unfold vlen in *; lia).
    rewrite insert_app_l by done. rewrite take_app_length' by (by rewrite length_insert).
    rewrite insert_take_drop by done. rewrite <- (take_drop_middle k _ x Hi) at 3.
    rewrite <- Permutation_cons_append. rewrite <- !Permutation_middle. constructor.
Qed.

(** The live list holds [a] at [i]: [a] rests in the book. *)
Lemma live_target l B i target :
  l ≡ₚ live_of <$> B → l⟦i⟧ = Some target →
  ∃ B1 a B2, B = B1 ++ a :: B2 ∧ target = live_of a.
Proof.
  intros Hp Hi%vget_elem_of. rewrite Hp in Hi. apply list_elem_of_fmap in Hi as (a & -> & Ha).
  apply list_elem_of_split in Ha as (B1 & B2 & ->). eauto.
Qed.

Lemma live_replace l B1 a B2 i a' :
  l ≡ₚ live_of <$> B1 ++ a :: B2 → l⟦i⟧ = Some (live_of a) →
  assign l i (live_of a') = Ret (l⟦i := live_of a'⟧) ∧
  l⟦i := live_of a'⟧ ≡ₚ live_of <$> B1 ++ a' :: B2.
Proof.
  intros Hp Hi. pose proof (vget_Some_range _ _ _ Hi) as Hr. split; [by apply assign_ok|].
  rewrite fmap_app, fmap_cons, <- Permutation_middle in Hp |- *.
  unfold vset, vget in *. destruct (Z.leb_spec 0 i); [|lia].
  assert (Z.to_nat i < length l)%nat as Hlt by (unfold vlen in *; lia).
  rewrite insert_take_drop by done. rewrite <- Permutation_middle. constructor.
  apply (Permutation_cons_inv (a := live_of a)). rewrite <- Hp.
  rewrite <- (take_drop_middle l _ _ Hi) at 3. apply Permutation_middle.
Qed.

Lemma live_drop l B1 a B2 i :
  l ≡ₚ live_of <$> B1 ++ a :: B2 → l⟦i⟧ = Some (live_of a) →
  ∃ l', swap_remove l i = Ret l' ∧ l' ≡ₚ live_of <$> B1 ++ B2.
Proof.
  intros Hp Hi. destruct (swap_remove_perm l i _ Hi) as (l' & -> & Hl). exists l'. split; [done|].
  apply (Permutation_cons_inv (a := live_of a)). rewrite Hl, Hp.
  by rewrite !fmap_app, fmap_cons, <- Permutation_middle.
Qed.

Lemma nodup_replace B1 a B2 a' :
  a_id a' = a_id a → NoDup (a_id <$> B1 ++ a :: B2) → NoDup (a_id <$> B1 ++ a' :: B2).
Proof. intros Ha. rewrite !fmap_app, !fmap_cons, Ha. done. Qed.

Lemma nodup_drop B1 a B2 : NoDup (a_id <$> B1 ++ a :: B2) → NoDup (a_id <$> B1 ++ B2).
Proof. rewrite !fmap_app, fmap_cons, <- Permutation_middle. by intros [_ ?]%NoDup_cons. Qed.

Lemma elem_mid (B1 : list aorder) a B2 : a ∈ B1 ++ a :: B2.
Proof. set_solver. Qed.

Lemma elem_rest (B1 : list aorder) a B2 o : o ∈ B1 ++ B2 → o ∈ B1 ++ a :: B2.
Proof. set_solver. Qed.

Lemma elem_changed (B1 : list aorder) a' B2 o : o ∈ B1 ++ a' :: B2 → o = a' ∨ o ∈ B1 ++ B2.
Proof. set_solver. Qed.

Section desk.
Context {E T : Type} {env : ExchangeEnv E} {ops : BookOps T}.
Context {EI : E → Prop} {sent : E → list (list Z)} {spins : nat}.
Context {R : T → list aorder → Prop} {order_capacity : Z}.
Abbreviation L := (mkLimits kMinPrice kMaxPrice order_capacity).
Context `{Henv : !ExchangeLaws E EI sent spins} `{Hbook : !BookLaws T L R}.

(** After [n] messages, with the resting orders [B]. *)
Record desk_inv (d : desk T) (n : Z) (B : list aorder) : Prop := {
  dk_book : R (book d) B;
  dk_live : live d ≡ₚ live_of <$> B;
  dk_nodup : NoDup (a_id <$> B);
  dk_ids : Forall (λ a, 1 ≤ a_id a < next_order_id d) B;
  dk_next : 1 ≤ next_order_id d ≤ 1 + n;
  dk_quoted : Forall quoted B
}.

(** The invariant depends on the resting orders as a multiset, the book apart. *)
Lemma desk_inv_next d n B d' B' :
  desk_inv d n B → R (book d') B' → live d' ≡ₚ live_of <$> B' → NoDup (a_id <$> B') →
  next_order_id d' = next_order_id d → (∀ a', a' ∈ B' → quoted a' ∧ ∃ a, a ∈ B ∧ a_id a' = a_id a) →
  desk_inv d' (n + 1) B'.
Proof.
  intros [_ _ _ Hids Hnext _] Hb Hl Hn Hid Hel. rewrite Forall_forall in Hids. split; try done.
  - apply Forall_forall. intros a' Ha'. destruct (Hel a' Ha') as (_ & a & Ha & ->). rewrite Hid. auto.
  - lia.
  - apply Forall_forall. intros a' Ha'. by apply Hel.
Qed.

(** A generated message: a step of the book that the book accepts. *)
Definition generated (e : E) (B : list aorder) (base : MarketMessage) (n : Z)
    (out : outcome (E * desk T * MarketMessage)) : Prop :=
  ∃ e' d' m r, out = Ret (e', d', m) ∧ EI e' ∧ sent e' = sent e ∧
    (spec_message L m B).2 = Some r ∧ (r = Ok ∨ r = PoolExhausted) ∧
    desk_inv d' (n + 1) (spec_message L m B).1 ∧
    sequence_number m = sequence_number base ∧ message_ok m.

Lemma quoted_in_band a : quoted a → a_in_band L (a_price a) = true.
Proof.
  unfold quoted, a_in_band, kMidPrice, kMinPrice, kMaxPrice. intros [_ Ha]. cbn [l_min l_max].
  apply andb_true_iff. split; apply Z.leb_le; lia.
Qed.

Lemma price_for_quoted e s oid q :
  EI e → s = Buy ∨ s = Sell → 0 < q ≤ 200 →
  ∃ e' p, price_for e s = Ret (e', p) ∧ EI e' ∧ sent e' = sent e ∧ quoted (mkAOrder oid s p q).
Proof using Henv.
  intros He Hs Hq. unfold price_for. destruct (law_depth e He) as (He' & Hsent & Hd).
  destruct (draw_depth e) as [e' dist]. cbn [fst snd] in *.
  exists e', (if is_buy s then kMidPrice - dist else kMidPrice + dist).
  rewrite i64_ok by (unfold kMidPrice; destruct (is_buy s); lia). split; [done|]. split; [done|].
  split; [done|]. split; [done|]. cbn [a_side a_price].
  destruct Hs as [->| ->]; cbn [is_buy]; [left|right]; (split; [done|lia]).
Qed.

Lemma message_ok_filled m ty oid s p q :
  message_ok m → ty = Add ∨ ty = Cancel ∨ ty = Modify ∨ ty = Trade → s = Buy ∨ s = Sell →
  0 ≤ oid < 2 ^ 64 → int64_min ≤ p ≤ int64_max → 0 ≤ q < 2 ^ 32 → message_ok (filled m ty oid s p q).
Proof.
  intros [] Hty Hs Ho Hp Hq. split; simpl; try done.
  - destruct Hty as [->|[->|[->| ->]]]; simpl; unfold byte_ok; (split; [lia|done]).
  - destruct Hs as [->| ->]; simpl; unfold byte_ok; (split; [lia|done]).
Qed.

Lemma quoted_side a : quoted a → a_side a = Buy ∨ a_side a = Sell.
Proof. unfold quoted. tauto. Qed.

Lemma quoted_price a : quoted a → int64_min ≤ a_price a ≤ int64_max.
Proof. unfold quoted, int64_min, int64_max, kMidPrice. lia. Qed.

Lemma quoted_qty a : quoted a → 0 ≤ a_qty a < 2 ^ 32.
Proof. unfold quoted. lia. Qed.

Lemma new_order_generated e d n B m :
  EI e → desk_inv d n B → n + 2 < 2 ^ 64 → message_ok m → generated e B m n (new_order e d m).
Proof using Henv Hbook.
  intros He [Hb Hl Hnd Hids Hnx Hq] Hn Hm. unfold new_order.
  destruct (law_unit e He) as (He1 & Hs1 & _). destruct (draw_unit e) as [e1 coin]. cbn [fst snd] in *.
  set (s := if less coin d0_50 then Buy else Sell).
  assert (s = Buy ∨ s = Sell) as Hside by (unfold s; destruct (less coin d0_50); auto).
  destruct (price_for_quoted e1 s (next_order_id d) 1 He1 Hside ltac:(lia)) as (e2 & p & -> & He2 & Hs2 & Hp).
  returns. destruct (law_lot e2 He2) as (He3 & Hs3 & Hlot).
  destruct (draw_lot e2) as [e3 lots]. cbn [fst snd] in *. rewrite (u32_small (lots * 10)) by lia.
  assert (quoted (mkAOrder (next_order_id d) s p (lots * 10))) as Hqn.
  { destruct Hp as [_ Hp]. split; [cbn [a_qty]; lia|exact Hp]. }
  destruct (law_add (book d) B (next_order_id d) s p (lots * 10) Hb ltac:(lia)) as (b' & -> & Hb').
  returns. eexists _, _, _, _. split; [done|]. split; [done|]. split; [congruence|].
  unfold spec_message. cbn [type filled order_id side price quantity]. unfold some_result. cbn [fst snd].
  split; [done|].
  assert (a_find (next_order_id d) B = None) as Hnone.
  { apply a_find_None. intros a Ha. rewrite Forall_forall in Hids. specialize (Hids a Ha). lia. }
  revert Hb'. unfold spec_add. rewrite (quoted_in_band _ Hqn : a_in_band L p = true), Hnone. cbn [negb].
  destruct (Z.eqb_spec (next_order_id d) 0) as [|_]; [lia|].
  destruct (Z.eqb_spec (lots * 10) 0) as [|_]; [lia|].
  rewrite u64_small by lia.
  assert (message_ok (filled m Add (next_order_id d) s p (lots * 10))) as Hmo.
  { apply message_ok_filled; auto; [lia|apply (quoted_price _ Hqn)|lia]. }
  destruct (_ <? _); cbn [fst snd]; intros Hb'.
  - split; [auto|]. split; [|done]. split; cbn [book live next_order_id]; [done| | | |lia|].
    + rewrite decide_True, Hl, fmap_app by done. done.
    + rewrite fmap_app, Permutation_app_comm. apply NoDup_cons. split; [|done].
      rewrite list_elem_of_fmap. cbn [a_id]. intros (a & Ea & Ha).
      rewrite Forall_forall in Hids. specialize (Hids a Ha). lia.
    + apply Forall_app. split; [eapply Forall_impl; [exact Hids|]; intros a Ha; simpl in Ha |- *; lia|].
      constructor; [cbn [a_id]; lia|done].
    + apply Forall_app. split; [done|]. by constructor.
  - split; [auto|]. split; [|done]. split; cbn [book live next_order_id]; try done; [|lia].
    eapply Forall_impl; [exact Hids|]. intros a Ha. simpl in Ha |- *. lia.
Qed.

(** The common part of the three amendments: [target] is a resting order. *)
Section amend.
Context {d : desk T} {n : Z} {B1 B2 : list aorder} {a : aorder}.
Abbreviation B := (B1 ++ a :: B2).
Context (Hinv : desk_inv d n B).

Lemma target_quoted : quoted a.
Proof using Hinv. pose proof (dk_quoted _ _ _ Hinv) as Hq. rewrite Forall_forall in Hq. apply Hq, elem_mid. Qed.

Lemma target_id : 0 ≤ a_id a < 2 ^ 64 ∨ 2 ^ 64 ≤ 1 + n.
Proof using Hinv.
  pose proof (dk_ids _ _ _ Hinv) as Hq. rewrite Forall_forall in Hq. pose proof (dk_next _ _ _ Hinv).
  specialize (Hq a (elem_mid B1 a B2)). simpl in Hq. lia.
Qed.

Lemma target_found : a_find (a_id a) B = Some a.
Proof using Hinv. apply a_find_split; [apply Hinv|done]. Qed.

(** The target leaves the book. *)
Lemma desk_drop b' l' :
  R b' (B1 ++ B2) → l' ≡ₚ live_of <$> B1 ++ B2 →
  desk_inv (mkDesk b' l' (next_order_id d)) (n + 1) (B1 ++ B2).
Proof using Hinv.
  intros Hb Hl. pose proof (dk_quoted _ _ _ Hinv) as Hq. rewrite Forall_forall in Hq.
  eapply desk_inv_next; [exact Hinv|done|done|eapply nodup_drop, Hinv|done|].
  intros a' Ha'%(elem_rest _ a). split; [by apply Hq|]. by exists a'.
Qed.

(** The target changes, in its place or at the back. *)
Lemma desk_change b' l' a' B' :
  R b' B' → B' ≡ₚ B1 ++ a' :: B2 → l' ≡ₚ live_of <$> B1 ++ a' :: B2 → quoted a' → a_id a' = a_id a →
  desk_inv (mkDesk b' l' (next_order_id d)) (n + 1) B'.
Proof using Hinv.
  intros Hb HB Hl Ha Hid. pose proof (dk_quoted _ _ _ Hinv) as Hq. rewrite Forall_forall in Hq.
  eapply desk_inv_next; [exact Hinv|done| | |done|].
  - cbn [live]. by rewrite Hl, HB.
  - rewrite HB. eapply nodup_replace; [exact Hid|apply Hinv].
  - intros o. rewrite HB. intros [->|Ho%(elem_rest _ a)]%elem_changed.
    + split; [done|]. exists a. split; [apply elem_mid|done].
    + split; [by apply Hq|]. by exists o.
Qed.

Lemma cancel_generated e m i :
  EI e → n + 2 < 2 ^ 64 → message_ok m → (live d)⟦i⟧ = Some (live_of a) →
  generated e B m n (cancel_order e d m i (live_of a)).
Proof using Hinv Hbook.
  intros He Hn Hm Hi. pose proof target_quoted as Hqa. unfold cancel_order. cbn [id live_of lo_side lo_price lo_quantity].
  destruct (law_cancel (book d) B (a_id a) (dk_book _ _ _ Hinv)) as (b' & -> & Hb').
  destruct (live_drop (live d) B1 a B2 i (dk_live _ _ _ Hinv) Hi) as (l' & -> & Hl').
  returns. eexists _, _, _, Ok. split; [done|]. split; [done|]. split; [done|].
  unfold spec_message. cbn [type filled order_id]. revert Hb'. unfold spec_cancel.
  rewrite target_found. cbn [some_result fst snd]. rewrite a_remove_split by apply Hinv. intros Hb'.
  split; [done|]. split; [auto|]. split; [by apply desk_drop|]. split; [done|].
  apply message_ok_filled; auto using quoted_side, quoted_price, quoted_qty. destruct target_id; lia.
Qed.

Lemma modify_generated e m i :
  EI e → n + 2 < 2 ^ 64 → message_ok m → (live d)⟦i⟧ = Some (live_of a) →
  generated e B m n (modify_order e d m i (live_of a)).
Proof using Hinv Hbook Henv.
  intros He Hn Hm Hi. pose proof target_quoted as Hqa. unfold modify_order. cbn [id live_of lo_side lo_price lo_quantity].
  destruct (price_for_quoted e (a_side a) (a_id a) 1 He (quoted_side _ Hqa) ltac:(lia))
    as (e2 & p & -> & He2 & Hs2 & Hp).
  returns. destruct (law_lot e2 He2) as (He3 & Hs3 & Hlot).
  destruct (draw_lot e2) as [e3 lots]. cbn [fst snd] in *. rewrite (u32_small (lots * 10)) by lia.
  set (a' := mkAOrder (a_id a) (a_side a) p (lots * 10)).
  assert (quoted a') as Hqn by (destruct Hp as [_ Hp]; split; [cbn [a' a_qty]; lia|exact Hp]).
  destruct (law_modify (book d) B (a_id a) p (lots * 10) (dk_book _ _ _ Hinv) ltac:(lia)) as (b' & -> & Hb').
  destruct (live_replace (live d) B1 a B2 i a' (dk_live _ _ _ Hinv) Hi) as [Hset Hperm].
  returns.
  assert (∃ B', spec_modify L (a_id a) p (lots * 10) B = (B', Ok) ∧ B' ≡ₚ B1 ++ a' :: B2) as (B' & Hsp & HB').
  { unfold spec_modify. rewrite (quoted_in_band _ Hqn : a_in_band L p = true), target_found. cbn [negb].
    destruct (Z.eqb_spec (lots * 10) 0) as [|_]; [lia|].
    destruct (Z.eqb_spec p (a_price a)) as [Ep|_]; [destruct (lots * 10 <? a_qty a)|]; cbn [andb].
    - eexists. split; [done|]. rewrite a_resize_split by apply Hinv. unfold a', resized. by rewrite Ep.
    - eexists. split; [done|]. rewrite a_remove_split by apply Hinv. rewrite <- app_assoc.
      by rewrite <- Permutation_cons_append.
    - eexists. split; [done|]. rewrite a_remove_split by apply Hinv. rewrite <- app_assoc.
      by rewrite <- Permutation_cons_append. }
  rewrite Hsp in *. cbn [fst snd] in *. rewrite decide_True by done.
  change (mkLive _ _ _ _) with (live_of a'). rewrite Hset. returns.
  eexists _, _, _, Ok. split; [done|]. split; [done|]. split; [congruence|].
  unfold spec_message. cbn [type filled order_id price quantity]. rewrite Hsp. cbn [some_result fst snd].
  split; [done|]. split; [auto|]. split; [by eapply desk_change|]. split; [done|].
  apply message_ok_filled; auto using quoted_side; [destruct target_id; lia|apply (quoted_price _ Hqn)|lia].
Qed.

Lemma trade_generated e m i :
  EI e → n + 2 < 2 ^ 64 → message_ok m → (live d)⟦i⟧ = Some (live_of a) →
  generated e B m n (trade_order e d m i (live_of a)).
Proof using Hinv Hbook.
  intros He Hn Hm Hi. pose proof target_quoted as Hqa. unfold trade_order. cbn [id live_of lo_side lo_price lo_quantity].
  pose proof Hqa as [Hqty Hside]. set (fill := if 10 <? a_qty a then a_qty a / 2 else a_qty a).
  assert (0 < fill ≤ a_qty a ∧ (10 < a_qty a → fill < a_qty a)) as [Hfill Hpart].
  { unfold fill. destruct (Z.ltb_spec 10 (a_qty a)); [|lia].
    pose proof (Z.div_lt (a_qty a) 2 ltac:(lia) ltac:(lia)). pose proof (Z.div_le_lower_bound (a_qty a) 2 1). lia. }
  destruct (law_execute (book d) B (a_id a) fill (dk_book _ _ _ Hinv) ltac:(lia)) as (b' & -> & Hb').
  returns.
  assert (message_ok (filled m Trade (a_id a) (a_side a) (a_price a) fill)) as Hmo.
  { apply message_ok_filled; auto using quoted_side, quoted_price; [destruct target_id; lia|lia]. }
  revert Hb'. unfold spec_execute. rewrite target_found. destruct (Z.eqb_spec fill 0) as [|Hf0]; [lia|].
  destruct (Z.leb_spec (a_qty a) fill) as [Hle|Hlt]; cbn [fst snd].
  - rewrite a_remove_split by apply Hinv. intros Hb'.
    destruct (live_drop (live d) B1 a B2 i (dk_live _ _ _ Hinv) Hi) as (l' & -> & Hl').
    returns. eexists _, _, _, Ok. split; [done|]. split; [done|]. split; [done|].
    unfold spec_message. cbn [type filled order_id quantity]. unfold spec_execute. rewrite target_found.
    destruct (Z.eqb_spec fill 0) as [|_]; [lia|]. destruct (Z.leb_spec (a_qty a) fill) as [_|]; [|lia].
    cbn [some_result fst snd]. rewrite a_remove_split by apply Hinv.
    split; [done|]. split; [auto|]. split; [by apply desk_drop|]. done.
  - rewrite a_resize_split by apply Hinv. rewrite (u32_small (a_qty a - fill)) by lia. intros Hb'.
    change (mkLive _ _ _ _) with (live_of (resized a (a_qty a - fill))).
    destruct (live_replace (live d) B1 a B2 i (resized a (a_qty a - fill)) (dk_live _ _ _ Hinv) Hi) as [-> Hperm].
    returns. eexists _, _, _, Ok. split; [done|]. split; [done|]. split; [done|].
    unfold spec_message. cbn [type filled order_id quantity]. unfold spec_execute. rewrite target_found.
    destruct (Z.eqb_spec fill 0) as [|_]; [lia|]. destruct (Z.leb_spec (a_qty a) fill) as [|_]; [lia|].
    cbn [some_result fst snd]. rewrite a_resize_split by apply Hinv.
    split; [done|]. split; [auto|]. split; [|done].
    eapply desk_change; [done|done|done| |done]. split; [cbn [resized a_qty]; lia|exact Hside].
Qed.
End amend.

Lemma generate_generated e d n B m :
  EI e → desk_inv d n B → n + 2 < 2 ^ 64 → message_ok m → generated e B m n (generate e d m).
Proof using Henv Hbook.
  intros He Hinv Hn Hm. unfold generate.
  destruct (law_unit e He) as (He1 & Hs1 & _). destruct (draw_unit e) as [e1 roll]. cbn [fst snd] in *.
  assert (∀ out, generated e1 B m n out → generated e B m n out) as Hquiet.
  { intros out. unfold generated. by rewrite Hs1. }
  apply Hquiet. destruct (orb _ _) eqn:Hor; [by apply new_order_generated|].
  apply orb_false_iff in Hor as [Hne%Z.eqb_neq _]. pose proof (vlen_nonneg (live d)).
  destruct (law_pick e1 (vlen (live d)) He1 ltac:(lia)) as (He2 & Hs2 & Hi).
  destruct (draw_pick e1 _) as [e2 i]. cbn [fst snd] in *.
  assert (∀ out, generated e2 B m n out → generated e1 B m n out) as Hquiet2.
  { intros out. unfold generated. by rewrite Hs2. }
  apply Hquiet2. destruct (vget_is_Some (live d) i Hi) as [target Ht].
  rewrite (load_Some _ _ _ Ht). returns.
  destruct (live_target _ _ _ _ (dk_live _ _ _ Hinv) Ht) as (B1 & a & B2 & -> & ->).
  destruct (less roll d0_75); [by apply cancel_generated|].
  destruct (less roll d0_90); [by apply modify_generated|by apply trade_generated].
Qed.
End desk.
