(* ===== verification/ExchangeProperties.v ===== *)
(** * A run of the exchange

    What a run of the publishing loop leaves behind: numbered messages in the
    history, datagrams on the wire, and a book that replaying the messages
    reproduces. *)

From Stdlib Require Import QArith.
From S2P Require Import Prelude Message Wire History BookSpec BookInterface OrderBook OrderBookRep.
From S2P Require Import OrderBookMake OrderBookTheorems Engine Exchange ExchangeCorrect.
Import Exchange.

#[local] Open Scope Z_scope.
#[local] Open Scope llte_scope.

Lemma replay_snoc L ms m : ∀ B,
  replay L (ms ++ [m]) B =
  ((spec_message L m (replay L ms B).1).1,
   (replay L ms B).2 ++ option_list (spec_message L m (replay L ms B).1).2).
Proof.
  induction ms as [|m' ms IH]; intros B; cbn [app replay fst snd].
  - destruct (spec_message L m B) as [B' r]. cbn [fst snd]. by rewrite app_nil_r.
  - destruct (spec_message L m' B) as [B' r]. rewrite IH. destruct (replay L ms B') as [B2 rs].
    cbn [fst snd]. by rewrite app_assoc.
Qed.

Lemma append_all_snoc ms m : ∀ h,
  append_all h (ms ++ [m]) = h ← append_all h ms; HistoryStore.append h m.
Proof.
  induction ms as [|m' ms IH]; intros h; cbn [app append_all].
  - returns. by destruct (HistoryStore.append h m).
  - destruct (HistoryStore.append h m'); returns; [apply IH|done].
Qed.

Lemma take_vset_snoc {A} (l : list A) i x :
  0 ≤ i < vlen l → take (Z.to_nat (i + 1)) (l⟦i := x⟧) = take (Z.to_nat i) l ++ [x].
Proof.
  intros Hi. unfold vset. destruct (Z.leb_spec 0 i); [|lia].
  replace (Z.to_nat (i + 1)) with (S (Z.to_nat i)) by lia.
  assert (Z.to_nat i < length l)%nat as Hlt by (unfold vlen in *; lia).
  rewrite insert_take_drop by done.
  rewrite take_app_ge by (rewrite length_take; lia). rewrite length_take, Nat.min_l by lia.
  replace (S (Z.to_nat i) - Z.to_nat i)%nat with 1%nat by lia. done.
Qed.

(** The runs of messages the packets carried, and whether each was sent. *)
Definition chunk : Type := list MarketMessage * bool.
Definition kept (b : bool) (chunks : list chunk) : list (list MarketMessage) :=
  (filter (λ c, c.2 = b) chunks).*1.

Lemma kept_snoc b chunks ms b' :
  kept b (chunks ++ [(ms, b')]) = kept b chunks ++ (if decide (b' = b) then [ms] else []).
Proof.
  unfold kept. rewrite filter_app, fmap_app. f_equal. rewrite filter_cons, filter_nil. simpl.
  by destruct (decide (b' = b)).
Qed.

Definition options_ok (o : Options) : Prop := 1 ≤ batch o ≤ kMaxBatch.

Lemma clamp_batch_ok option : 1 ≤ clamp_batch option ≤ kMaxBatch.
Proof.
  unfold clamp_batch, kMaxBatch. destruct (Z.ltb_spec (u16 option) 1); [|destruct (Z.ltb_spec 32 (u16 option))];
    simpl; lia.
Qed.

Section run.
Context {E T : Type} {env : ExchangeEnv E} {ops : BookOps T}.
Context {EI : E → Prop} {sent : E → list (list Z)} {spins : nat}.
Context {R : T → list aorder → Prop} {order_capacity : Z}.
Abbreviation L := (mkLimits kMinPrice kMaxPrice order_capacity).
Context `{Henv : !ExchangeLaws E EI sent spins} `{Hbook : !BookLaws T L R}.
Context (o : Options) (cap : Z) (sent0 : list (list Z)).

(** After publishing [ms], of which all but the pending ones are in [chunks]. *)
Record ex_inv (e : E) (x : t T) (ms : list MarketMessage) (chunks : list chunk) : Prop := {
  xi_env : EI e;
  xi_desk : desk_inv (R := R) (orders x) (vlen ms) (replay L ms []).1;
  xi_results : Forall (λ r, r = Ok ∨ r = PoolExhausted) (replay L ms []).2;
  xi_history : hist_rep cap 1001 (history x) ms;
  xi_appended : append_all (HistoryStore.make cap) ms = Ret (history x);
  xi_sequence : sequence x = 1001 + vlen ms;
  xi_messages : Forall message_ok ms;
  xi_payload : vlen (payload x) = kMaxBatch;
  xi_pending : 0 ≤ pending x ≤ batch o;
  xi_chunks : ms = concat chunks.*1 ++ take (Z.to_nat (pending x)) (payload x);
  xi_batches : Forall (λ c, 0 < vlen c.1 ≤ batch o) chunks;
  xi_wire : sent e = sent0 ++ (encode_packet (pad o) <$> kept true chunks);
  xi_sent : packets_sent x = u64 (vlen (kept true chunks));
  xi_dropped : packets_dropped x = u64 (vlen (kept false chunks));
  xi_lost : messages_dropped x = u64 (vlen (concat (kept false chunks)))
}.

Lemma ex_inv_start e b :
  options_ok o → 0 < cap < 2 ^ 64 → EI e → sent e = sent0 → R b [] → ex_inv e (make b cap) [] [].
Proof using.
  intros Ho Hc He Hs Hb. split; try done.
  - split; simpl; try done; constructor.
  - apply hist_rep_make; lia.
  - simpl. unfold options_ok in Ho. lia.
  - by rewrite app_nil_r.
Qed.

(** A step of the environment that sends nothing. *)
Lemma ex_inv_quiet e e' x ms chunks :
  ex_inv e x ms chunks → EI e' → sent e' = sent e → ex_inv e' x ms chunks.
Proof using. intros [] He Hs. split; try done. by rewrite Hs. Qed.

Lemma base_ok n : 0 ≤ n < 2 ^ 64 →
  message_ok (mkMessage n 0 0 0 0 1 (MessageType_raw 0) (Side_raw 0) 0).
Proof. intros Hn. split; simpl; unfold byte_ok, int64_min, int64_max; try lia; split; lia || done. Qed.

Lemma stamped_ok m now : message_ok m → 0 ≤ now < 2 ^ 64 →
  message_ok (mkMessage (sequence_number m) now (order_id m) (price m) (quantity m) (symbol_id m)
    (type m) (side m) (reserved m)).
Proof. intros [] Hn. by split. Qed.

Lemma retain_spec e x ms chunks :
  options_ok o → ex_inv e x ms chunks → pending x < batch o → 1001 + vlen ms + 1 < 2 ^ 64 →
  ∃ e' x' m, retain e x = Ret (e', x') ∧ ex_inv e' x' (ms ++ [m]) chunks.
Proof using Henv Hbook.
  intros Ho [He Hd Hr Hh Ha Hs Hm Hp Hpd Hc Hb Hw H1 H2 H3] Hroom Hfit. pose proof (vlen_nonneg ms).
  unfold options_ok, kMaxBatch in *. unfold retain. rewrite Hs.
  destruct (generate_generated e (orders x) (vlen ms) (replay L ms []).1 _ He Hd ltac:(lia)
    (base_ok (1001 + vlen ms) ltac:(lia))) as (e1 & d1 & m & r & -> & He1 & Hs1 & Hsp & Hres & Hd1 & Hseq & Hmo).
  cbn [mbind outcome_bind sequence_number] in *. destruct (law_now e1 He1) as (He2 & Hs2 & Hnow).
  destruct (x_now e1) as [e2 now]. cbn [fst snd] in *.
  pose proof (stamped_ok m now Hmo Hnow) as Hmo'. set (m' := mkMessage _ _ _ _ _ _ _ _ _) in *.
  assert (∀ B, spec_message L m' B = spec_message L m B) as Hsame by done.
  destruct (hist_rep_append cap 1001 (history x) ms m' Hh Hseq ltac:(lia)) as (h' & Happ & Hh'). rewrite Happ.
  returns. rewrite assign_ok by lia. returns.
  eexists e2, _, m'. split; [done|].
  assert (u16 (pending x + 1) = pending x + 1) as Hu by (apply Z.mod_small; lia).
  split; cbn [orders history sequence payload pending packets_sent packets_dropped messages_dropped]; try done.
  - rewrite replay_snoc. cbn [fst]. by rewrite vlen_snoc, Hsame.
  - rewrite replay_snoc. cbn [snd]. rewrite Hsame, Hsp. apply Forall_app. split; [done|]. cbn. by apply Forall_singleton.
  - rewrite append_all_snoc, Ha. exact Happ.
  - rewrite vlen_snoc, u64_small; lia.
  - apply Forall_app. split; [done|]. by constructor.
  - by rewrite vlen_vset.
  - lia.
  - rewrite Hu, take_vset_snoc by lia. rewrite Hc at 1. by rewrite app_assoc.
  - congruence.
Qed.

(** The two ways out of [flush_packet] with the packet gone. *)
Lemma chunk_added e e' (x x' : t T) ms chunks (b : bool) :
  options_ok o → ex_inv e x ms chunks → pending x ≠ 0 → EI e' →
  let run := take (Z.to_nat (pending x)) (payload x) in
  sent e' = sent e ++ (if b then [encode_packet (pad o) run] else []) →
  orders x' = orders x → history x' = history x → sequence x' = sequence x → payload x' = payload x →
  pending x' = 0 →
  packets_sent x' = u64 (packets_sent x + (if b then 1 else 0)) →
  packets_dropped x' = u64 (packets_dropped x + (if b then 0 else 1)) →
  messages_dropped x' = u64 (messages_dropped x + (if b then 0 else pending x)) →
  ex_inv e' x' ms (chunks ++ [(run, b)]).
Proof using.
  intros Ho [He Hd Hr Hh Ha Hs Hm Hp Hpd Hc Hb Hw H1 H2 H3] Hne He' run Hs' E1 E2 E3 E4 E5 E6 E7 E8.
  unfold options_ok, kMaxBatch in *.
  assert (vlen run = pending x) as Hrun by (unfold run, vlen in *; rewrite length_take; lia).
  split; rewrite ?E1, ?E2, ?E3, ?E4, ?E5, ?E6, ?E7, ?E8; try done.
  - lia.
  - rewrite fmap_app, concat_app. change (concat [(run, b)].*1) with (run ++ []).
    by rewrite take_0, !app_nil_r.
  - apply Forall_app. split; [done|]. apply Forall_singleton. cbn [fst]. lia.
  - rewrite Hs', Hw, kept_snoc, fmap_app, app_assoc. by destruct b.
  - rewrite H1, kept_snoc. unfold u64. rewrite Zplus_mod_idemp_l. by destruct b; rewrite vlen_app.
  - rewrite H2, kept_snoc. unfold u64. rewrite Zplus_mod_idemp_l. by destruct b; rewrite vlen_app.
  - rewrite H3, kept_snoc, concat_app. unfold u64. rewrite Zplus_mod_idemp_l.
    destruct b; rewrite vlen_app; [done|]. rewrite decide_True by done.
    cbn [concat]. by rewrite app_nil_r, Hrun.
Qed.

(** The socket takes every datagram, and nobody asks the process to stop. *)
Definition reliable : Prop :=
  ∀ e, EI e → (∀ p, (x_send e p).2 = true) ∧ (x_stop e).2 = false.

Lemma flush_spec e x ms chunks :
  options_ok o → ex_inv e x ms chunks →
  ∃ e' x' ok chunks', flush_packet o e x = Ret (e', x', ok) ∧ ex_inv e' x' ms chunks' ∧
    (ok = true → pending x' = 0) ∧ (reliable → ok = true).
Proof using Henv.
  intros Ho Hinv. pose proof Hinv as [He Hd Hr Hh Ha Hs Hm Hp Hpd Hc Hb Hw H1 H2 H3].
  unfold flush_packet. destruct (Z.eqb_spec (pending x) 0) as [|Hne]; [by exists e, x, true, chunks|].
  unfold options_ok, kMaxBatch in *. destruct (Z.ltb_spec (vlen (payload x)) (pending x)) as [|_]; [lia|].
  assert (∃ e1 drop, (if less 0 (drop_rate o) then let '(e, u) := draw_unit e in (e, less u (drop_rate o))
    else (e, false)) = (e1, drop) ∧ EI e1 ∧ sent e1 = sent e) as (e1 & drop & -> & He1 & Hs1).
  { destruct (less 0 (drop_rate o)); [|by exists e, false]. destruct (law_unit e He) as (He1 & Hs1 & _).
    destruct (draw_unit e) as [e1 u]. by exists e1, (less u (drop_rate o)). }
  destruct drop.
  - eexists e1, _, true, _. split; [done|]. split; [|done].
    eapply (chunk_added e e1 x _ ms chunks false); try done; [by rewrite app_nil_r|]. simpl.
    rewrite Z.add_0_r, H1. unfold u64. by rewrite Zmod_mod.
  - destruct (law_send e1 (encode_packet (pad o) (take (Z.to_nat (pending x)) (payload x))) He1) as [He2 Hs2].
    destruct (x_send e1 _) as [e2 ok] eqn:Hsend. cbn [fst snd] in *. destruct ok.
    + eexists e2, _, true, _. split; [done|]. split; [|done].
      eapply (chunk_added e e2 x _ ms chunks true); try done; simpl.
      * by rewrite Hs2, Hs1.
      * rewrite Z.add_0_r, H2. unfold u64. by rewrite Zmod_mod.
      * rewrite Z.add_0_r, H3. unfold u64. by rewrite Zmod_mod.
    + exists e2, x, false, chunks. split; [done|]. split.
      * eapply ex_inv_quiet; [done|done|]. by rewrite Hs2, app_nil_r.
      * split; [done|]. intros Hrel. destruct (Hrel e1 He1) as [Hok _].
        specialize (Hok (encode_packet (pad o) (take (Z.to_nat (pending x)) (payload x)))).
        by rewrite Hsend in Hok.
Qed.

Lemma publish_spec e x ms chunks published :
  options_ok o → ex_inv e x ms chunks → pending x < batch o → 1001 + vlen ms + 1 < 2 ^ 64 →
  ∃ e' x' going m chunks', publish spins o e x published = Ret (e', x', going) ∧
    ex_inv e' x' (ms ++ [m]) chunks' ∧ (going = true → pending x' < batch o) ∧ (reliable → going = true).
Proof using Henv Hbook.
  intros Ho Hinv Hroom Hfit. unfold publish.
  destruct (retain_spec e x ms chunks Ho Hinv Hroom Hfit) as (e1 & x1 & m & -> & Hinv1).
  returns. destruct (Z.eqb_spec (pending x1) (batch o)) as [Hfull|Hnot].
  - destruct (flush_spec e1 x1 (ms ++ [m]) chunks Ho Hinv1) as (e2 & x2 & ok & chunks2 & -> & Hinv2 & Hz & Hrel).
    returns. destruct ok; cbn [negb].
    + specialize (Hz eq_refl). unfold options_ok in Ho. destruct (0 <? interval_ns o).
      * destruct (law_wait e2 (u64 (start_ns o + u64 (u64 (published + 1) * interval_ns o)))
          (xi_env _ _ _ _ Hinv2) (u64_range _)) as (e3 & -> & He3 & Hs3). returns.
        exists e3, x2, true, m, chunks2. split; [done|]. split; [by eapply ex_inv_quiet|]. split; [lia|done].
      * exists e2, x2, true, m, chunks2. split; [done|]. split; [done|]. split; [lia|done].
    + exists e2, x2, false, m, chunks2. split; [done|]. split; [done|]. split; [done|exact Hrel].
  - pose proof (xi_pending _ _ _ _ Hinv1). exists e1, x1, true, m, chunks.
    split; [done|]. split; [done|]. split; [lia|done].
Qed.

Lemma publish_loop_spec fuel : ∀ e x ms chunks,
  options_ok o → ex_inv e x ms chunks → pending x < batch o → vlen ms ≤ total_messages o →
  1001 + total_messages o < 2 ^ 64 → total_messages o - vlen ms < Z.of_nat fuel →
  ∃ e' x' going ms' chunks', publish_loop fuel spins o e x (vlen ms) = Ret (e', x', going) ∧
    ex_inv e' x' ms' chunks' ∧ vlen ms' ≤ total_messages o ∧
    (reliable → going = true ∧ vlen ms' = total_messages o).
Proof using Henv Hbook.
  induction fuel as [|fuel IH]; intros e x ms chunks Ho Hinv Hroom Hle Hfit Hfuel; [lia|].
  pose proof (vlen_nonneg ms). cbn [publish_loop]. destruct (Z.ltb_spec (vlen ms) (total_messages o)) as [Hlt|Hge].
  - destruct (law_stop e (xi_env _ _ _ _ Hinv)) as (He1 & Hs1 & _).
    destruct (x_stop e) as [e1 stop] eqn:Hstop. cbn [fst snd] in *.
    pose proof (ex_inv_quiet _ _ _ _ _ Hinv He1 Hs1) as Hinv1. destruct stop.
    { exists e1, x, true, ms, chunks. split; [done|]. split; [done|]. split; [done|]. intros Hrel.
      destruct (Hrel e (xi_env _ _ _ _ Hinv)) as [_ Hns]. by rewrite Hstop in Hns. }
    destruct (publish_spec e1 x ms chunks (vlen ms) Ho Hinv1 Hroom ltac:(lia))
      as (e2 & x2 & going & m & chunks2 & -> & Hinv2 & Hroom2 & Hrel2). returns.
    destruct going.
    + rewrite u64_small by lia. rewrite <- (vlen_snoc ms m).
      apply (IH e2 x2 (ms ++ [m]) chunks2); rewrite ?vlen_snoc; auto; lia.
    + exists e2, x2, false, (ms ++ [m]), chunks2. split; [done|]. split; [done|]. rewrite vlen_snoc.
      split; [lia|]. intros Hrel. specialize (Hrel2 Hrel). discriminate.
  - exists e, x, true, ms, chunks. split; [done|]. split; [done|]. split; [done|]. intros _. split; [done|lia].
Qed.

Lemma run_spec fuel e b :
  options_ok o → 0 < cap < 2 ^ 64 → EI e → sent e = sent0 → R b [] → 0 ≤ total_messages o →
  1001 + total_messages o < 2 ^ 64 → total_messages o < Z.of_nat fuel →
  ∃ e' x' going ms chunks, run fuel spins o e (make b cap) = Ret (e', x', going) ∧
    ex_inv e' x' ms chunks ∧ vlen ms ≤ total_messages o ∧
    (reliable → going = true ∧ vlen ms = total_messages o ∧ pending x' = 0).
Proof using Henv Hbook.
  intros Ho Hc He Hs Hb Ht Hfit Hfuel.
  pose proof (ex_inv_start e b Ho Hc He Hs Hb) as Hinv. unfold run.
  destruct (publish_loop_spec fuel e (make b cap) [] [] Ho Hinv ltac:(unfold options_ok in Ho; simpl; lia)
    Ht Hfit ltac:(unfold vlen; simpl; lia)) as (e1 & x1 & going & ms & chunks & Hl & Hinv1 & Hle & Hrel).
  change (vlen (@nil MarketMessage)) with 0 in Hl. rewrite Hl. returns. destruct going.
  - destruct (flush_spec e1 x1 ms chunks Ho Hinv1) as (e2 & x2 & ok & chunks2 & -> & Hinv2 & Hz & Hok).
    returns. exists e2, x2, true, ms, chunks2. split; [done|]. split; [done|]. split; [done|].
    intros Hr. split; [done|]. split; [by apply Hrel|auto].
  - exists e1, x1, false, ms, chunks. split; [done|]. split; [done|]. split; [done|].
    intros Hr. destruct (Hrel Hr). discriminate.
Qed.
End run.

(** ** The exchange with its array book *)

(** The constructor argument in [main], where [max_orders] is [1 << 20]. *)
Definition exchange_config (max_orders : Z) : Book.Config :=
  Book.mkConfig kMinPrice kMaxPrice max_orders.

Lemma exchange_limits_ok n : 0 < n ≤ Book.kNullOrder → limits_ok (limits_of (exchange_config n)).
Proof. intros Hn. split; [|done]. by vm_compute. Qed.

(** Every bid below the mid price and every offer above it. *)
Definition uncrossed (B : list aorder) : Prop :=
  ∀ a, a ∈ B → if is_buy (a_side a) then a_price a < kMidPrice else kMidPrice < a_price a.

Lemma quoted_uncrossed B : Forall quoted B → uncrossed B.
Proof.
  rewrite Forall_forall. intros Hq a Ha. destruct (Hq a Ha) as [_ [[-> ?]|[-> ?]]]; simpl; lia.
Qed.

Section array_book.
Context {E : Type} {env : ExchangeEnv E} {EI : E → Prop} {sent : E → list (list Z)} {spins : nat}.
Context `{Henv : !ExchangeLaws E EI sent spins}.
Context (o : Options) (cap n : Z) (fuel : nat) (e : E).
Context (Ho : options_ok o) (Hcap : 0 < cap < 2 ^ 64) (Hn : 0 < n ≤ Book.kNullOrder) (He : EI e).
Context (Ht : 0 ≤ total_messages o) (Hfit : 1001 + total_messages o < 2 ^ 64).
Context (Hfuel : total_messages o < Z.of_nat fuel).

Lemma array_run :
  ∃ b e' x' going ms chunks,
    Book.make (exchange_config n) = Ret b ∧ run fuel spins o e (make b cap) = Ret (e', x', going) ∧
    ex_inv (EI := EI) (sent := sent) (R := sized (limits_of (exchange_config n)))
      (order_capacity := n) o cap (sent e) e' x' ms chunks ∧
    vlen ms ≤ total_messages o ∧
    (reliable (EI := EI) → going = true ∧ vlen ms = total_messages o ∧ pending x' = 0).
Proof using Henv Ho Hcap Hn He Ht Hfit Hfuel.
  pose proof (exchange_limits_ok n Hn) as HL.
  destruct (make_spec _ HL) as (b & Hb & HR). exists b.
  destruct (run_spec (R := sized (limits_of (exchange_config n))) (order_capacity := n)
    o cap (sent e) fuel e b Ho Hcap He eq_refl (conj HL HR) Ht Hfit Hfuel)
    as (e' & x' & going & ms & chunks & Hrun & Hinv & Hle & Hrel).
  exists e', x', going, ms, chunks. done.
Qed.
End array_book.

(** ** A scripted environment *)

(** Draws come from a script, reduced to the range of the distribution; the
    clock is past every deadline. *)
Record script := mkScript { rolls : list Q; draws : list Z; on_wire : list (list Z) }.

Definition next_number (e : script) : script * Z :=
  (mkScript (rolls e) (tail (draws e)) (on_wire e), hd_or 0 (draws e)).

#[export] Instance script_env : ExchangeEnv script := {
  draw_unit e := (mkScript (tail (rolls e)) (draws e) (on_wire e), hd_or 0%Q (rolls e));
  draw_depth e := ((next_number e).1, 1 + (next_number e).2 mod 40);
  draw_lot e := ((next_number e).1, 1 + (next_number e).2 mod 20);
  draw_pick e n := ((next_number e).1, (next_number e).2 mod n);
  x_now e := (e, 2 ^ 64 - 1);
  x_send e p := (mkScript (rolls e) (draws e) (on_wire e ++ [p]), true);
  x_stop e := (e, false)
}.

Lemma script_laws : ExchangeLaws script (λ _, True) on_wire 1.
Proof.
  split; intros; unfold quiet_step; cbn [fst snd draw_unit draw_depth draw_lot draw_pick x_now x_send x_stop
    script_env next_number on_wire]; try done.
  - pose proof (Z.mod_pos_bound (hd_or 0 (draws e)) 40 ltac:(lia)). split; [done|]. split; [done|lia].
  - pose proof (Z.mod_pos_bound (hd_or 0 (draws e)) 20 ltac:(lia)). split; [done|]. split; [done|lia].
  - pose proof (Z.mod_pos_bound (hd_or 0 (draws e)) n ltac:(lia)). done.
  - exists e. cbn [busy_wait_until x_now script_env]. destruct (Z.ltb_spec (2 ^ 64 - 1) d); [lia|done].
Qed.

(** A buy, a sell, a modification whose datagram is dropped, a fill, a cancel. *)
Definition five : script :=
  mkScript [0; 0; 1 # 2;  0; 3 # 4; 1 # 2;  4 # 5; 0;  19 # 20; 1 # 2;  7 # 10; 1 # 2]%Q
    [9; 4;  11; 2;  0; 20; 7;  1;  0] [].

Definition five_options : Options := mkOptions 5 1 (1 # 10)%Q 10 0 [0; 0; 0; 0].

(** ** Properties *)

(** C10. The exchange publishes a gap-free numbered stream. Whatever the draws,
    the clock and the socket do, the publishing loop returns, having published
    well-formed messages numbered from 1001 on without a gap; the history is
    exactly these messages appended in order; the packets cut them into runs of
    one to [batch] messages, in order and without overlap, each either sent as
    one datagram or counted as dropped, and the counters agree with that. If the
    socket takes every datagram and nobody stops the process, all
    [total_messages] are published and nothing stays pending. *)
Theorem exchange_publishes {E} {env : ExchangeEnv E} {EI : E → Prop} {sent spins}
    {Henv : ExchangeLaws E EI sent spins} o cap n fuel e :
  options_ok o → 0 < cap < 2 ^ 64 → 0 < n ≤ Book.kNullOrder → EI e → 0 ≤ total_messages o →
  1001 + total_messages o < 2 ^ 64 → total_messages o < Z.of_nat fuel →
  ∃ b e' x' going ms chunks,
    Book.make (exchange_config n) = Ret b ∧ run fuel spins o e (make b cap) = Ret (e', x', going) ∧
    consecutive 1001 ms ∧ Forall message_ok ms ∧ vlen ms ≤ total_messages o ∧
    sequence x' = 1001 + vlen ms ∧
    append_all (HistoryStore.make cap) ms = Ret (history x') ∧
    ms = concat chunks.*1 ++ take (Z.to_nat (pending x')) (payload x') ∧
    Forall (λ c, 0 < vlen c.1 ≤ batch o) chunks ∧
    sent e' = sent e ++ (encode_packet (pad o) <$> kept true chunks) ∧
    packets_sent x' = u64 (vlen (kept true chunks)) ∧
    packets_dropped x' = u64 (vlen (kept false chunks)) ∧
    messages_dropped x' = u64 (vlen (concat (kept false chunks))) ∧
    (reliable (EI := EI) → going = true ∧ vlen ms = total_messages o ∧ pending x' = 0).
Proof.
  intros Ho Hc Hn He Ht Hfit Hfuel.
  destruct (array_run o cap n fuel e Ho Hc Hn He Ht Hfit Hfuel)
    as (b & e' & x' & going & ms & chunks & Hb & Hrun & [] & Hle & Hrel).
  exists b, e', x', going, ms, chunks. repeat (split; [assumption|]).
  split; [eapply hr_cons; eassumption|]. repeat (split; [assumption|]). assumption.
Qed.

Lemma exchange_publishes_witness :
  ∃ b e' x' chunks, Book.make (exchange_config 4) = Ret b ∧
    run 6 1 five_options five (make b 8) = Ret (e', x', true) ∧ sequence x' = 1006 ∧ pending x' = 0 ∧
    on_wire e' = encode_packet [0; 0; 0; 0] <$> kept true chunks.
Proof.
  destruct (exchange_publishes (Henv := script_laws) five_options 8 4 6 five)
    as (b & e' & x' & going & ms & chunks & H1 & H2 & _ & _ & _ & H3 & _ & _ & _ & H4 & _ & _ & _ & H5).
  - vm_compute. split; congruence.
  - lia.
  - vm_compute. split; congruence.
  - exact I.
  - vm_compute. congruence.
  - vm_compute. congruence.
  - vm_compute. congruence.
  - destruct H5 as (-> & Hms & Hp); [by intros e|]. rewrite Hms in H3.
    exists b, e', x', chunks. split; [exact H1|]. split; [exact H2|]. split; [exact H3|].
    split; [exact Hp|exact H4].
Defined.

Lemma spec_message_room L m B :
  (length (spec_message L m B).1 ≤ S (length B))%nat ∧
  ((spec_message L m B).2 = Some PoolExhausted → l_orders L ≤ Z.of_nat (length B)).
Proof.
  unfold spec_message. destruct (type m).
  - apply (spec_op_room L (OpAdd (order_id m) (side m) (price m) (quantity m)) B).
  - apply (spec_op_room L (OpCancel (order_id m)) B).
  - apply (spec_op_room L (OpModify (order_id m) (price m) (quantity m)) B).
  - apply (spec_op_room L (OpExecute (order_id m) (quantity m)) B).
  - split; [cbn; lia|done].
Qed.

(** With a slot for each message the pool is never full. *)
Lemma replay_room L ms : ∀ B, Z.of_nat (length B) + vlen ms ≤ l_orders L → PoolExhausted ∉ (replay L ms B).2.
Proof.
  induction ms as [|m ms IH]; intros B Hlen; cbn [replay]; [set_solver|]. rewrite vlen_cons in Hlen. pose proof (vlen_nonneg ms).
  destruct (spec_message_room L m B) as [Hgrow Hfull]. destruct (spec_message L m B) as [B1 r]. cbn [fst snd] in *.
  specialize (IH B1 ltac:(lia)). destruct (replay L ms B1) as [B2 rs]. cbn [snd] in *.
  intros [E|?]%elem_of_app; [|done]. destruct r as [r|]; [|set_solver].
  cbn in E. apply list_elem_of_singleton in E as <-. specialize (Hfull eq_refl). lia.
Qed.

(** C11. The messages describe the exchange's book, and that book is never
    crossed. After any run, replaying the published messages on an empty book
    gives exactly the orders that rest in the exchange's own book; no message is refused
    but for an add that finds the pool full, and none at all in a run of no more messages
    than the pool has slots (the exchange's has [2 ^ 20], and sends 200000 unless told
    otherwise); the list of live orders is the resting orders in some order, and every
    bid is below and every offer above the mid price. *)
Theorem exchange_book_uncrossed {E} {env : ExchangeEnv E} {EI : E → Prop} {sent spins}
    {Henv : ExchangeLaws E EI sent spins} o cap n fuel e b e' x' going :
  options_ok o → 0 < cap < 2 ^ 64 → 0 < n ≤ Book.kNullOrder → EI e → 0 ≤ total_messages o →
  1001 + total_messages o < 2 ^ 64 → total_messages o < Z.of_nat fuel →
  Book.make (exchange_config n) = Ret b → run fuel spins o e (make b cap) = Ret (e', x', going) →
  let L := limits_of (exchange_config n) in
  ∃ ms, append_all (HistoryStore.make cap) ms = Ret (history x') ∧ consecutive 1001 ms ∧
    observed L (book (orders x')) (replay L ms []).1 ∧
    Forall (λ r, r = Ok ∨ r = PoolExhausted) (replay L ms []).2 ∧
    (total_messages o ≤ n → Forall (λ r, r = Ok) (replay L ms []).2) ∧
    live (orders x') ≡ₚ live_of <$> (replay L ms []).1 ∧
    uncrossed (replay L ms []).1.
Proof.
  intros Ho Hc Hn He Ht Hfit Hfuel Hb Hrun L.
  destruct (array_run o cap n fuel e Ho Hc Hn He Ht Hfit Hfuel)
    as (b2 & e2 & x2 & going2 & ms & chunks & Hb2 & Hrun2 & Hinv & Hle & _).
  rewrite Hb in Hb2. injection Hb2 as <-. rewrite Hrun in Hrun2. injection Hrun2 as <- <- <-.
  exists ms. destruct Hinv as [_ [[HL HR] Hl _ _ _ Hq] Hres Hh Ha _ _ _ _ _ _ _ _ _ _].
  split; [done|]. split; [eapply hr_cons; eassumption|]. split; [by apply refines_observed|].
  split; [done|]. split; [|split; [done|by apply quoted_uncrossed]].
  intros Hroom. assert (PoolExhausted ∉ (replay L ms []).2) as Hno by (apply replay_room; simpl; lia).
  apply Forall_forall. intros r Hr. rewrite Forall_forall in Hres. by destruct (Hres r Hr) as [->| ->].
Qed.

Lemma exchange_book_uncrossed_witness :
  ∃ b e' x' ms, Book.make (exchange_config 8) = Ret b ∧
    run 6 1 five_options five (make b 8) = Ret (e', x', true) ∧
    append_all (HistoryStore.make 8) ms = Ret (history x') ∧
    uncrossed (replay (limits_of (exchange_config 8)) ms []).1 ∧
    Forall (λ r, r = Ok) (replay (limits_of (exchange_config 8)) ms []).2.
Proof.
  destruct (array_run (Henv := script_laws) five_options 8 8 6 five)
    as (b & e' & x' & going & ms0 & chunks & H1 & H2 & _ & _ & H3);
    [vm_compute; split; congruence|lia|vm_compute; split; congruence|exact I|vm_compute; congruence..|].
  destruct H3 as (-> & _); [by intros e|].
  destruct (exchange_book_uncrossed (Henv := script_laws) five_options 8 8 6 five b e' x' true)
    as (ms & Ha & _ & _ & _ & Hall & _ & Hu);
    [vm_compute; split; congruence|lia|vm_compute; split; congruence|exact I
    |vm_compute; congruence|vm_compute; congruence|vm_compute; congruence|exact H1|exact H2|].
  exists b, e', x', ms. split; [exact H1|]. split; [exact H2|]. split; [exact Ha|].
  split; [exact Hu|]. apply Hall. vm_compute. congruence.
Defined.
