(* ===== verification/EndToEnd.v ===== *)
(** * From the exchange to the book

    The parts put together: the exchange's messages in datagrams that may be
    lost, repeated or reordered, the handler with its sequencer, the recovery
    client talking to the recovery server in the wire format, and the engine's
    book at the end. *)

From S2P Require Import Prelude Message Wire History Recovery SequenceManager SequenceInv.
From S2P Require Import SequenceCorrect SequenceProperties Handler HandlerProperties.
From S2P Require Import BookSpec BookInterface OrderBook OrderBookRep OrderBookMake OrderBookTheorems.
From S2P Require Import Engine EngineProperties Exchange ExchangeCorrect ExchangeProperties.
Import Seq Handler.

#[local] Open Scope Z_scope.
#[local] Open Scope llte_scope.

(** ** A run of datagrams *)

Fixpoint on_datagrams {E} `{HandlerEnv E} (spin_fuel : nat) (e : E) (h : Handler.t)
    (packets : list (list Z)) : outcome (E * Handler.t) :=
  match packets with
  | [] => Ret (e, h)
  | packet :: packets => '(e, h) ← on_datagram spin_fuel e h packet; on_datagrams spin_fuel e h packets
  end.

(** Each datagram is a run of consecutive messages that [flush_packet] could
    have sent, and ends less than [window] beyond the highest number before. *)
Fixpoint ahead (window high : Z) (bs : list (list MarketMessage)) : Prop :=
  match bs with
  | [] => True
  | b :: bs => ∃ s, consecutive s b ∧ 0 < vlen b ≤ kMaxBatch ∧ s + vlen b - 1 - high < window ∧
      ahead window (Z.max high (s + vlen b)) bs
  end.

Fixpoint reached (high : Z) (bs : list (list MarketMessage)) : Z :=
  match bs with
  | [] => high
  | b :: bs => reached (Z.max high (hd_or 0 (sequence_number <$> b) + vlen b)) bs
  end.

Lemma reached_le high bs : high ≤ reached high bs.
Proof.
  revert high. induction bs as [|b bs IH]; intros high; simpl; [lia|].
  specialize (IH (Z.max high (hd_or 0 (sequence_number <$> b) + vlen b))). lia.
Qed.

Lemma consecutive_head s b : consecutive s b → 0 < vlen b → hd_or 0 (sequence_number <$> b) = s.
Proof.
  destruct b as [|m b]; [unfold vlen; simpl; lia|]. intros [Hm _]%consecutive_cons _. done.
Qed.

Section run.
Context {E : Type} {senv : SeqEnv E} {henv : HandlerEnv E}.
Context {EI : E → Prop} {Pub : MarketMessage → Prop} {ring : E → list PipelineEvent}.
Context {inbox : E → list (list Z)} {patience : E → nat} {bound : nat}.
Context `{Hlaws : !HandlerLaws E EI Pub ring inbox patience bound}.
Context `{Hrun : !NeverStops E EI} `{Henv : !EnvLaws E EI Pub}.
Context (lo hi : Z) `{Hcomp : !EnvComplete E EI lo hi}.
Context (pad : list Z) (Hpad : length pad = 4%nat) (Hpub_ok : ∀ m, Pub m → message_ok m).

Lemma pub_parse b : Forall Pub b → 0 < vlen b ≤ kMaxBatch → parse_packet (encode_packet pad b) = Some b.
Proof using Hpad Hpub_ok.
  intros Hp Hl. apply parse_encoded; [done|done|]. eapply Forall_impl; [done|]. auto.
Qed.

Lemma datagrams_run spin_fuel bs : ∀ e h f D high,
  EI e → (bound < spin_fuel)%nat → wf Pub (Some f) D (sequencer h) → drained (sequencer h) →
  lossless (sequencer h) → connected (sequencer h) = true → Forall (Forall Pub) bs →
  high ≤ expected_ (sequencer h) → lo ≤ expected_ (sequencer h) → reached high bs - 1 ≤ hi →
  ahead (size (sequencer h)) high bs →
  ∃ e' h' evs, on_datagrams spin_fuel e h (encode_packet pad <$> bs) = Ret (e', h') ∧
    ring e' = ring e ++ evs ∧ Forall Pub (msg <$> evs) ∧
    numbers evs = seqZ (expected_ (sequencer h)) (expected_ (sequencer h') - expected_ (sequencer h)) ∧
    expected_ (sequencer h) ≤ expected_ (sequencer h') ∧ reached high bs ≤ expected_ (sequencer h').
Proof using Hlaws Hrun Henv Hcomp Hpad Hpub_ok.
  induction bs as [|b bs IH]; intros e h f D high He Hf Hwf Hdr Hl Hcn Hp Hhigh Hlo Hhi Hah.
  { exists e, h, []. rewrite app_nil_r, Z.sub_diag. split; [done|]. repeat (split; [done|]). done. }
  cbn [fmap list_fmap on_datagrams ahead reached] in *. destruct Hah as (s & Hc & Hlen & Hnear & Hah).
  apply Forall_cons in Hp as [Hb Hp]. rewrite (consecutive_head s b Hc) in * by lia.
  assert (b ≠ []) as Hne by (intros ->; unfold vlen in Hlen; simpl in Hlen; lia).
  pose proof (reached_le (Z.max high (s + vlen b)) bs) as Hre.
  destruct (datagram_next spin_fuel f D e h (encode_packet pad b) b s He Hf Hwf Hdr
    (pub_parse b Hb Hlen) Hb Hc Hne) as (e1 & h1 & ev1 & -> & Had & Hmono & Hlossless).
  destruct Had as [He1 [D1 Hwf1] Hs1 Hc1 Hdr1 Hre1 Hri1 Hib1 Hct1 Hpb1].
  destruct Hlossless as [Hl1 Hn1]; [lia|done|exists lo, hi; repeat split; done || lia|].
  returns.
  destruct (IH e1 h1 f D1 (Z.max high (s + vlen b))) as (e2 & h2 & ev2 & Hrun2 & Hri2 & Hpb2 & Hn2 & Hm2 & Hre2);
    rewrite ?Hs1, ?Hc1; try done; try lia.
  change (list_fmap _ _ (encode_packet pad) bs) with (encode_packet pad <$> bs). rewrite Hrun2.
  exists e2, h2, (ev1 ++ ev2). split; [done|]. split; [by rewrite Hri2, Hri1, app_assoc|].
  rewrite fmap_app. split; [by apply Forall_app|]. split; [|split; [lia|done]].
  unfold numbers in *. rewrite fmap_app, Hn1, Hn2. apply seqZ_split. lia.
Qed.

Lemma datagrams_start spin_fuel e window b bs s :
  0 < window < 2 ^ 64 → EI e → (bound < spin_fuel)%nat → Forall (Forall Pub) (b :: bs) →
  consecutive s b → lo ≤ s → reached s (b :: bs) - 1 ≤ hi → ahead window s (b :: bs) →
  ∃ e' h' evs, on_datagrams spin_fuel e (start window true) (encode_packet pad <$> b :: bs) = Ret (e', h') ∧
    ring e' = ring e ++ evs ∧ Forall Pub (msg <$> evs) ∧
    numbers evs = seqZ s (expected_ (sequencer h') - s) ∧
    s ≤ expected_ (sequencer h') ∧ reached s (b :: bs) ≤ expected_ (sequencer h').
Proof using Hlaws Hrun Henv Hcomp Hpad Hpub_ok.
  intros Hw He Hf Hp Hc Hlo Hhi Hah. cbn [fmap list_fmap on_datagrams ahead reached] in *.
  destruct Hah as (s' & Hc' & Hlen & Hnear & Hah).
  apply Forall_cons in Hp as [Hb Hp]. pose proof (consecutive_head s' b Hc' ltac:(lia)) as Es.
  rewrite (consecutive_head s b Hc) in * by lia. subst s'.
  assert (b ≠ []) as Hne by (intros ->; unfold vlen in Hlen; simpl in Hlen; lia).
  assert (size (sequencer (start window true)) = window) as Hsz.
  { unfold size. simpl. rewrite vlen_replicate. lia. }
  pose proof (reached_le (Z.max s (s + vlen b)) bs) as Hre.
  destruct (datagram_first spin_fuel 0 e (start window true) (encode_packet pad b) b s He Hf
    (make_wf window true Hw) (pub_parse b Hb Hlen) Hb Hc Hne ltac:(lia)) as (e1 & h1 & ev1 & -> & Had & Hlossless).
  destruct Had as [He1 [D1 Hwf1] Hs1 Hc1 Hdr1 Hre1 Hri1 Hib1 Hct1 Hpb1].
  destruct Hlossless as [Hl1 Hn1]; [exists lo, hi; simpl; repeat split; done || lia|].
  returns.
  destruct (datagrams_run spin_fuel bs e1 h1 s D1 (Z.max s (s + vlen b)))
    as (e2 & h2 & ev2 & Hrun2 & Hri2 & Hpb2 & Hn2 & Hm2 & Hre2); try done; try lia.
  { by rewrite Hs1, Hsz. }
  change (list_fmap _ _ (encode_packet pad) bs) with (encode_packet pad <$> bs). rewrite Hrun2.
  exists e2, h2, (ev1 ++ ev2). split; [done|]. split; [by rewrite Hri2, Hri1, app_assoc|].
  rewrite fmap_app. split; [by apply Forall_app|]. split; [|split; [lia|done]].
  unfold numbers in *. rewrite fmap_app, Hn1, Hn2. apply seqZ_split. lia.
Qed.
End run.

(** Published messages are known by their numbers. *)
Lemma numbered_slice first ms l s n :
  consecutive first ms → first ≤ s → Forall (.∈ ms) l → sequence_number <$> l = seqZ s n →
  l = take (Z.to_nat n) (drop (Z.to_nat (s - first)) ms).
Proof.
  intros Hc Hs Hl Hn. assert (length l = Z.to_nat n) as Hlen.
  { rewrite <- (length_fmap sequence_number l), Hn. apply length_seqZ. }
  assert (∀ i m, l !! i = Some m → drop (Z.to_nat (s - first)) ms !! i = Some m) as Hget.
  { intros i m Hi. rewrite Forall_forall in Hl. pose proof (lookup_lt_Some _ _ _ Hi) as Hlt.
    assert (sequence_number m = s + Z.of_nat i) as Hm.
    { assert ((sequence_number <$> l) !! i = Some (sequence_number m)) as H1 by (by rewrite list_lookup_fmap, Hi).
      rewrite Hn in H1. apply lookup_seqZ in H1. lia. }
    pose proof (Hl m (list_elem_of_lookup_2 _ _ _ Hi)) as [j Hj]%list_elem_of_lookup.
    pose proof (Hc (Z.of_nat j) m ltac:(by rewrite vget_nat)).
    rewrite lookup_drop. replace (Z.to_nat (s - first) + i)%nat with j by lia. done. }
  apply list_eq. intros i. destruct (l !! i) as [m|] eqn:E.
  - pose proof (lookup_lt_Some _ _ _ E). rewrite lookup_take_lt by lia. symmetry. by apply Hget.
  - apply lookup_ge_None in E. rewrite lookup_take_ge by lia. done.
Qed.

(** The numbers of datagrams made of published messages are published numbers. *)
Lemma reached_bound first ms bs : ∀ high window,
  consecutive first ms → Forall (Forall (.∈ ms)) bs → ahead window high bs →
  high ≤ first + vlen ms → reached high bs ≤ first + vlen ms.
Proof.
  induction bs as [|b bs IH]; intros high window Hc Hbs Hah Hh; [done|]. cbn [ahead reached] in *.
  destruct Hah as (s & Hcb & Hlen & _ & Hah). apply Forall_cons in Hbs as [Hb Hbs].
  rewrite (consecutive_head s b Hcb) by lia. eapply IH; [done|done|done|].
  destruct (vget_is_Some b (vlen b - 1)) as [m Hm]; [lia|]. pose proof (Hcb _ _ Hm) as Hn.
  rewrite Forall_forall in Hb. apply vget_elem_of in Hm. pose proof (consecutive_elem _ _ _ Hc (Hb m Hm)). lia.
Qed.

Lemma slice_bounds first ms b bs s window :
  consecutive first ms → Forall (Forall (.∈ ms)) (b :: bs) → consecutive s b →
  ahead window s (b :: bs) → first ≤ s ∧ reached s (b :: bs) - 1 ≤ first + vlen ms - 1.
Proof.
  intros Hc Hbs Hb Hah. pose proof Hah as (s' & Hcb & Hlen & _).
  assert (first ≤ s < first + vlen ms) as Hs.
  { destruct (vget_is_Some b 0) as [m Hm]; [lia|]. pose proof (Hb _ _ Hm) as Hn. apply vget_elem_of in Hm.
    apply Forall_cons in Hbs as [Hbm _]. rewrite Forall_forall in Hbm.
    pose proof (consecutive_elem _ _ _ Hc (Hbm m Hm)). lia. }
  split; [lia|]. pose proof (reached_bound first ms (b :: bs) s window Hc Hbs Hah ltac:(lia)). lia.
Qed.

(** ** The network *)

(** The recovery connection, a clock, the events in the ring so far and how many
    more attempts will find the ring full. *)
Record net := mkNet {
  client : RecoveryClient.t loop;
  ticks : Z;
  ring_log : list PipelineEvent;
  full_for : nat
}.

#[export] Instance net_env : SeqEnv net := {
  env_request n a b :=
    ((mkNet (RecoveryClient.request (client n) a b).1 (ticks n) (ring_log n) (full_for n)),
     (RecoveryClient.request (client n) a b).2);
  env_now n := (mkNet (client n) (u64 (ticks n + 1)) (ring_log n) (full_for n), ticks n)
}.

#[export] Instance net_handler : HandlerEnv net := {
  h_receive n := (n, Timeout);
  h_push n ev :=
    match full_for n with
    | O => (mkNet (client n) (ticks n) (ring_log n ++ [ev]) O, true)
    | S k => (mkNet (client n) (ticks n) (ring_log n) k, false)
    end;
  h_stop n := (n, false)
}.

Section network.
Context {cap first : Z} {store : HistoryStore.t} {ms : list MarketMessage} {stalls : nat}.
Context (HR : hist_rep cap first store ms) (Hok : Forall message_ok ms) (Htop : first + vlen ms ≤ top).

(** The connection is up, and the server's history is [store]. *)
Definition net_ok (n : net) : Prop :=
  client n = RecoveryClient.mkClient (Some (mkLoop store [])) ∧ (full_for n ≤ stalls)%nat.

(** A request over the open connection. *)
Lemma open_request a b :
  request_ok a b →
  RecoveryClient.request (RecoveryClient.mkClient (Some (mkLoop store []))) a b =
  (RecoveryClient.mkClient (Some (mkLoop store [])), Some (reply (cap := cap) (ms := ms) a b)).
Proof using HR Hok.
  intros (Hab & Hb & Hn). unfold top, kMaxRecoveryBatch in *.
  apply (request_spec HR Hok); unfold kMaxRecoveryBatch; lia.
Qed.

Lemma reply_published a b : Forall (.∈ ms) (reply (cap := cap) (ms := ms) a b).
Proof using.
  apply Forall_forall. intros m [_ Hm]%list_elem_of_filter. unfold lastn in Hm. by eapply subseteq_drop.
Qed.

(** When everything published is still in the history. *)
Lemma reply_complete a b s :
  vlen ms ≤ cap → first ≤ a → b ≤ first + vlen ms - 1 → a ≤ s ≤ b →
  ∃ m, m ∈ reply (cap := cap) (ms := ms) a b ∧ sequence_number m = s.
Proof using HR.
  intros Hcap Ha Hb Hs. destruct (vget_is_Some ms (s - first)) as [m Hm]; [lia|].
  assert (sequence_number m = s) as Hnum by (rewrite (hr_cons _ _ _ _ HR _ _ Hm); lia).
  exists m. split; [|done]. apply list_elem_of_filter. split; [unfold in_range; lia|].
  unfold lastn. replace (Z.to_nat (vlen ms - cap)) with 0%nat by lia. by apply vget_elem_of in Hm.
Qed.

Lemma net_request n a b :
  net_ok n → request_ok a b →
  RecoveryClient.request (client n) a b =
  (RecoveryClient.mkClient (Some (mkLoop store [])), Some (reply (cap := cap) (ms := ms) a b)).
Proof using HR Hok. intros [-> _]. apply open_request. Qed.

Lemma published_number m : m ∈ ms → first ≤ sequence_number m < first + vlen ms.
Proof using HR. apply consecutive_elem, HR. Qed.

Lemma net_laws : EnvLaws net net_ok (.∈ ms).
Proof using HR Hok Htop.
  split.
  - intros n a b Hn Hr. unfold net_ok. simpl. rewrite net_request by done. split; [done|apply Hn].
  - intros n a b l Hn Hr. simpl. rewrite net_request by done. intros [= <-]. apply reply_published.
  - done.
  - intros m Hm%published_number. pose proof (hr_first _ _ _ _ HR). lia.
Qed.

Lemma net_handler_laws : HandlerLaws net net_ok (.∈ ms) ring_log (λ _, []) full_for stalls.
Proof using.
  split; simpl; try done; [|by intros n [_ H]].
  intros n ev [Hc Hf] _. unfold net_ok.
  destruct (full_for n) as [|k]; simpl; (split; [split; [done|lia]|]; split; [done|]; split; [done|]); [done|lia].
Qed.

Lemma net_never_stops : NeverStops net net_ok.
Proof using. done. Qed.

(** Everything published is still in the history. *)
Context (Hcap : vlen ms ≤ cap).

Lemma net_complete : EnvComplete net net_ok first (first + vlen ms - 1).
Proof using HR Hok Htop Hcap.
  intros n a b Hn Hr Ha Hb. exists (reply (cap := cap) (ms := ms) a b). simpl.
  rewrite net_request by done. split; [done|]. intros s Hs. by apply reply_complete.
Qed.
End network.

(** ** The pipeline *)

Lemma pipeline_run c cap first ms pad window spin_fuel ticks stalls b bs s sample_capacity :
  limits_ok (limits_of c) →
  0 < cap < 2 ^ 64 → 0 ≤ first → first + vlen ms ≤ top → vlen ms ≤ cap →
  consecutive first ms → Forall message_ok ms → length pad = 4%nat → 0 < window < 2 ^ 64 →
  (stalls < spin_fuel)%nat → Forall (Forall (.∈ ms)) (b :: bs) → consecutive s b →
  ahead window s (b :: bs) →
  ∃ store e' h' bk eng k,
    append_all (HistoryStore.make cap) ms = Ret store ∧
    on_datagrams spin_fuel
      (mkNet (RecoveryClient.mkClient (Some (mkLoop store []))) ticks [] stalls)
      (start window true) (encode_packet pad <$> b :: bs) = Ret (e', h') ∧
    reached s (b :: bs) ≤ s + Z.of_nat k ∧
    msg <$> ring_log e' = take k (drop (Z.to_nat (s - first)) ms) ∧
    Book.make c = Ret bk ∧
    on_events (engine_start bk sample_capacity) ((λ ev, (ev, (0, 0))) <$> ring_log e') = Ret eng ∧
    observed (limits_of c) (book eng)
      (replay (limits_of c) (take k (drop (Z.to_nat (s - first)) ms)) []).1.
Proof.
  intros HL Hc Hf Hfit Hret Hcons Hok Hpad Hw Hsp Hbs Hb Hah.
  assert (top < 2 ^ 64) as Htop by (by vm_compute). pose proof (vlen_nonneg ms) as Hnn.
  destruct (append_all_rep cap first ms (HistoryStore.make cap) []) as (store & Hst & HR);
    [apply hist_rep_make; lia|done|simpl; lia|].
  pose proof (net_laws (stalls := stalls) HR Hok Hfit) as Hl1.
  pose proof (net_handler_laws (store := store) (ms := ms) (stalls := stalls)) as Hl2.
  pose proof (net_never_stops (store := store) (stalls := stalls)) as Hl3.
  pose proof (net_complete (stalls := stalls) HR Hok Hfit Hret) as Hl4.
  destruct (slice_bounds first ms b bs s window Hcons Hbs Hb Hah) as [Hlo Hhi].
  assert (∀ m, m ∈ ms → message_ok m) as Hpub by (by apply Forall_forall).
  destruct (datagrams_start (ring := ring_log) (patience := full_for) first (first + vlen ms - 1) pad Hpad Hpub spin_fuel
    (mkNet (RecoveryClient.mkClient (Some (mkLoop store []))) ticks [] stalls) window b bs s)
    as (e' & h' & evs & Hrun & Hring & Hpe & Hnum & Hge & Hre); try done.
  simpl in Hring. subst evs.
  assert (Forall (λ e, quantity_ok (msg e.1)) ((λ ev, (ev, (0, 0))) <$> ring_log e')) as Hq.
  { apply Forall_fmap. apply Forall_fmap in Hpe. eapply Forall_impl; [done|]. intros ev Hev. apply Hpub, Hev. }
  destruct (engine_run c _ sample_capacity HL Hq) as (bk & eng & Hbk & Heng & Hobs).
  unfold numbers in Hnum. rewrite (list_fmap_compose msg sequence_number) in Hnum.
  pose proof (numbered_slice first ms _ s _ Hcons Hlo Hpe Hnum) as Hslice.
  exists store, e', h', bk, eng, (Z.to_nat (expected_ (sequencer h') - s)).
  split; [done|]. split; [done|]. split; [lia|]. split; [done|]. split; [done|]. split; [done|].
  rewrite <- Hslice. rewrite <- list_fmap_compose in Hobs. exact Hobs.
Qed.

(** ** Properties *)

(** The pipeline is exact. Let the exchange publish [ms], consecutively
    numbered, into a history that retains them all, and let the multicast feed
    deliver some of the datagrams, in any order, repeated or not, starting with
    [b], never further ahead than the reorder window. Then the handler, with
    recovery over the wire protocol, puts into the ring exactly the messages of
    [ms] from the first number of [b] on, each once and in order, at least up to
    the highest number that arrived; and the engine's book answers every query
    as the list of orders obtained by replaying those messages. *)
Lemma pipeline_exact c cap first ms pad window spin_fuel ticks stalls b bs s sample_capacity :
  limits_ok (limits_of c) →
  0 < cap < 2 ^ 64 → 0 ≤ first → first + vlen ms ≤ top → vlen ms ≤ cap →
  consecutive first ms → Forall message_ok ms → length pad = 4%nat → 0 < window < 2 ^ 64 →
  (stalls < spin_fuel)%nat → Forall (Forall (.∈ ms)) (b :: bs) → consecutive s b →
  ahead window s (b :: bs) →
  ∃ store e' h' bk eng k,
    append_all (HistoryStore.make cap) ms = Ret store ∧
    on_datagrams spin_fuel
      (mkNet (RecoveryClient.mkClient (Some (mkLoop store []))) ticks [] stalls)
      (start window true) (encode_packet pad <$> b :: bs) = Ret (e', h') ∧
    reached s (b :: bs) ≤ s + Z.of_nat k ∧
    msg <$> ring_log e' = take k (drop (Z.to_nat (s - first)) ms) ∧
    Book.make c = Ret bk ∧
    on_events (engine_start bk sample_capacity) ((λ ev, (ev, (0, 0))) <$> ring_log e') = Ret eng ∧
    observed (limits_of c) (book eng)
      (replay (limits_of c) (take k (drop (Z.to_nat (s - first)) ms)) []).1.
Proof. apply pipeline_run. Qed.


(** Six published messages; 3 and 4 are lost on the feed and 5 arrives twice. *)
Definition six : list MarketMessage := numbered <$> [1; 2; 3; 4; 5; 6].

Ltac solve_consecutive :=
  repeat (apply consecutive_cons; split; [reflexivity|]); apply consecutive_nil.

Lemma pipeline_exact_witness :
  ∃ store e' h' k,
    append_all (HistoryStore.make 8) six = Ret store ∧
    on_datagrams 5 (mkNet (RecoveryClient.mkClient (Some (mkLoop store []))) 0 [] 2) (start 4 true)
      (encode_packet [0; 0; 0; 0] <$> [[numbered 1; numbered 2]; [numbered 5]; [numbered 5]; [numbered 6]])
      = Ret (e', h') ∧
    7 ≤ 1 + Z.of_nat k ∧ msg <$> ring_log e' = take k six.
Proof.
  destruct (pipeline_exact (Book.mkConfig 90 110 8) 8 1 six [0; 0; 0; 0] 4 5 0 2
    [numbered 1; numbered 2] [[numbered 5]; [numbered 5]; [numbered 6]] 1 10)
    as (store & e' & h' & bk & eng & k & H1 & H2 & H3 & H4 & _).
  - repeat split; vm_compute; congruence.
  - lia.
  - lia.
  - vm_compute; congruence.
  - vm_compute; congruence.
  - solve_consecutive.
  - repeat constructor; vm_compute; congruence.
  - reflexivity.
  - lia.
  - lia.
  - repeat constructor; vm_compute; set_solver.
  - solve_consecutive.
  - cbn [ahead]. exists 1. split; [solve_consecutive|]. split; [vm_compute; split; congruence|]. split; [reflexivity|].
    exists 5. split; [solve_consecutive|]. split; [vm_compute; split; congruence|]. split; [reflexivity|].
    exists 5. split; [solve_consecutive|]. split; [vm_compute; split; congruence|]. split; [reflexivity|].
    exists 6. split; [solve_consecutive|]. split; [vm_compute; split; congruence|]. split; [reflexivity|]. done.
  - exists store, e', h', k. split; [exact H1|]. split; [exact H2|]. split; [exact H3|exact H4].
Defined.

(** ** From the exchange's book to the engine's *)

Lemma ahead_lengths window bs : ∀ high,
  ahead window high bs → Forall (λ b, 0 < vlen b ≤ kMaxBatch) bs.
Proof.
  induction bs as [|b bs IH]; intros high; [by constructor|]. intros (s & _ & Hlen & _ & Hah).
  constructor; [done|]. by eapply IH.
Qed.

(** A datagram on the wire carries one of the runs that were sent. *)
Lemma packet_run pad chunks b :
  length pad = 4%nat → Forall (λ c, 0 < vlen c.1 ≤ kMaxBatch) chunks →
  Forall message_ok (concat chunks.*1) → Forall message_ok b → 0 < vlen b ≤ kMaxBatch →
  encode_packet pad b ∈ encode_packet pad <$> kept true chunks → Forall (.∈ concat chunks.*1) b.
Proof.
  intros Hpad Hlen Hok Hb Hlb. rewrite list_elem_of_fmap. intros (b' & Heq & Hb').
  unfold kept in Hb'. apply list_elem_of_fmap in Hb' as (c & -> & [_ Hc]%list_elem_of_filter).
  rewrite Forall_forall in Hlen. assert (c.1 ∈ chunks.*1) as Hc1 by (by apply list_elem_of_fmap_2).
  assert (∀ m, m ∈ c.1 → m ∈ concat chunks.*1) as Hsub.
  { intros m Hm. apply list_elem_of_In, List.in_concat. exists c.1. by rewrite <- !list_elem_of_In. }
  assert (Forall message_ok c.1) as Hokc.
  { rewrite Forall_forall in Hok |- *. auto. }
  pose proof (parse_encoded pad b Hpad Hlb Hb) as H1. pose proof (parse_encoded pad c.1 Hpad (Hlen c Hc) Hokc) as H2.
  rewrite Heq, H2 in H1. injection H1 as <-. by apply Forall_forall.
Qed.

(** What a run of the exchange leaves behind, seen from the wire. *)
Lemma exchange_messages {E} {env : ExchangeEnv E} {EI : E → Prop} {sent spins}
    {Henv : ExchangeLaws E EI sent spins} o cap n fuel e b e' x' going window ds :
  options_ok o → length (Exchange.pad o) = 4%nat → 0 < cap < 2 ^ 64 →
  0 < n ≤ Book.kNullOrder → EI e → sent e = [] → 0 ≤ Exchange.total_messages o →
  1001 + Exchange.total_messages o ≤ top → Exchange.total_messages o < Z.of_nat fuel →
  Book.make (exchange_config n) = Ret b →
  Exchange.run fuel spins o e (Exchange.make b cap) = Ret (e', x', going) →
  Forall (λ p, encode_packet (Exchange.pad o) p ∈ sent e') ds → Forall (Forall message_ok) ds →
  ahead window 1001 ds →
  let L := limits_of (exchange_config n) in
  ∃ ms, limits_ok L ∧ append_all (HistoryStore.make cap) ms = Ret (Exchange.history x') ∧
    consecutive 1001 ms ∧ Forall message_ok ms ∧ vlen ms ≤ Exchange.total_messages o ∧
    Exchange.sequence x' = 1001 + vlen ms ∧ Forall (Forall (.∈ ms)) ds ∧
    observed L (Exchange.book (Exchange.orders x')) (replay L ms []).1.
Proof.
  intros Ho Hpad Hc Hn He Hs0 Ht Hfit Hfuel Hb Hrun Hds Hok Hah L.
  assert (top < 2 ^ 64) as Htop by (by vm_compute).
  destruct (array_run o cap n fuel e Ho Hc Hn He ltac:(lia) ltac:(lia) Hfuel)
    as (b2 & e2 & x2 & going2 & ms & chunks & Hb2 & Hrun2 & Hinv & Hle & _).
  rewrite Hb in Hb2. injection Hb2 as <-. rewrite Hrun in Hrun2. injection Hrun2 as <- <- <-.
  destruct Hinv as [_ [[HL HR] _ _ _ _ _] _ Hh Ha Hseq Hmok _ _ Hch Hbat Hwire _ _ _].
  exists ms. split; [done|]. split; [done|]. split; [exact (hr_cons _ _ _ _ Hh)|]. split; [done|].
  split; [lia|]. split; [done|]. split; [|exact (refines_observed _ _ _ HR)].
  assert (Forall (λ c, 0 < vlen c.1 ≤ kMaxBatch) chunks) as Hsize.
  { unfold options_ok in Ho. eapply Forall_impl; [exact Hbat|]. intros c Hcs. simpl in Hcs |- *. lia. }
  pose proof (ahead_lengths _ _ _ Hah) as Hlens. rewrite Forall_forall in Hds, Hok, Hlens |- *.
  intros p Hp. rewrite Hch in Hmok. apply Forall_app in Hmok as [Hmok _].
  eapply Forall_impl; [eapply (packet_run (Exchange.pad o) chunks p Hpad Hsize Hmok (Hok p Hp) (Hlens p Hp))|].
  - specialize (Hds p Hp). simpl in Hds. by rewrite Hwire, Hs0 in Hds.
  - intros m Hm. simpl in Hm |- *. rewrite Hch. apply elem_of_app. by left.
Qed.

(** The engine's book is the exchange's book. Let the exchange run as
    published, with a history that retains what it publishes, and let the network
    deliver datagrams that were sent, repeated, reordered or missing in any way
    that keeps the first and the last message and stays inside the reorder
    window. Then handler, recovery and engine run without fault, and the engine's
    book and the exchange's own book answer every query alike. *)
Lemma engine_mirrors_exchange {E} {env : ExchangeEnv E} {EI : E → Prop} {sent spins}
    {Henv : ExchangeLaws E EI sent spins} o cap n fuel e b e' x' going
    window spin_fuel ticks stalls d ds sample_capacity :
  options_ok o → length (Exchange.pad o) = 4%nat → 0 < cap < 2 ^ 64 →
  0 < n ≤ Book.kNullOrder → EI e → sent e = [] → 0 ≤ Exchange.total_messages o ≤ cap →
  1001 + Exchange.total_messages o ≤ top → Exchange.total_messages o < Z.of_nat fuel →
  Book.make (exchange_config n) = Ret b →
  Exchange.run fuel spins o e (Exchange.make b cap) = Ret (e', x', going) →
  0 < window < 2 ^ 64 → (stalls < spin_fuel)%nat →
  Forall (λ p, encode_packet (Exchange.pad o) p ∈ sent e') (d :: ds) →
  Forall (Forall message_ok) (d :: ds) → consecutive 1001 d → ahead window 1001 (d :: ds) →
  reached 1001 (d :: ds) = Exchange.sequence x' →
  let L := limits_of (exchange_config n) in
  ∃ net' h' eng B,
    on_datagrams spin_fuel
      (mkNet (RecoveryClient.mkClient (Some (mkLoop (Exchange.history x') []))) ticks [] stalls)
      (start window true) (encode_packet (Exchange.pad o) <$> d :: ds) = Ret (net', h') ∧
    on_events (engine_start b sample_capacity) ((λ ev, (ev, (0, 0))) <$> ring_log net') = Ret eng ∧
    observed L (book eng) B ∧ observed L (Exchange.book (Exchange.orders x')) B.
Proof.
  intros Ho Hpad Hc Hn He Hs0 Ht Hfit Hfuel Hb Hrun Hw Hsp Hds Hok Hd Hah Hre L.
  destruct (exchange_messages o cap n fuel e b e' x' going window (d :: ds) Ho Hpad Hc Hn He Hs0 ltac:(lia) Hfit
    Hfuel Hb Hrun Hds Hok Hah) as (ms & HL & Ha & Hcons & Hmok & Hle & Hseq & Hin & Hobs).
  destruct (pipeline_run (exchange_config n) cap 1001 ms (Exchange.pad o) window spin_fuel ticks stalls d ds 1001
    sample_capacity HL Hc ltac:(lia) ltac:(lia) ltac:(lia) Hcons Hmok Hpad Hw Hsp Hin Hd Hah)
    as (store & net' & h' & bk & eng & k & Hst & Hnet & Hreach & Hring & Hbk & Heng & Hob).
  rewrite Ha in Hst. injection Hst as <-. rewrite Hb in Hbk. injection Hbk as <-.
  rewrite Hre, Hseq in Hreach. rewrite Z.sub_diag, drop_0, take_ge in Hob by (unfold vlen in Hreach; lia).
  exists net', h', eng, (replay L ms []).1. done.
Qed.

(** The datagrams of the scripted run; 1003 was dropped. *)
Definition far : Z := 2 ^ 64 - 1.
Definition m1 : MarketMessage := mkMessage 1001 far 1 18740 50 1 Add Buy 0.
Definition m2 : MarketMessage := mkMessage 1002 far 2 18762 30 1 Add Sell 0.
Definition m4 : MarketMessage := mkMessage 1004 far 2 18762 15 1 Trade Sell 0.
Definition m5 : MarketMessage := mkMessage 1005 far 1 18729 80 1 Cancel Buy 0.

Definition five_check : bool :=
  match Book.make (exchange_config 4) with
  | Ret b =>
      match Exchange.run 6 1 five_options five (Exchange.make b 8) with
      | Ret (e', x', true) =>
          bool_decide (on_wire e' = encode_packet [0; 0; 0; 0] <$> [[m1]; [m2]; [m4]; [m5]]) &&
          (Exchange.sequence x' =? 1006)
      | _ => false
      end
  | Fault _ => false
  end.

Lemma five_run :
  ∃ b e' x', Book.make (exchange_config 4) = Ret b ∧
    Exchange.run 6 1 five_options five (Exchange.make b 8) = Ret (e', x', true) ∧
    on_wire e' = encode_packet [0; 0; 0; 0] <$> [[m1]; [m2]; [m4]; [m5]] ∧ Exchange.sequence x' = 1006.
Proof.
  assert (five_check = true) as H by (vm_compute; reflexivity). unfold five_check in H.
  destruct (Book.make (exchange_config 4)) as [b|]; [|discriminate].
  destruct (Exchange.run 6 1 five_options five (Exchange.make b 8)) as [[[e' x'] []]|] eqn:Hr; try discriminate.
  apply andb_true_iff in H as [Hw%bool_decide_eq_true Hs%Z.eqb_eq]. by exists b, e', x'.
Qed.

(** 1004 arrives before 1002, 1002 twice, 1003 never. *)
Lemma engine_mirrors_exchange_witness :
  ∃ b e' x' net' h' eng B,
    Exchange.run 6 1 five_options five (Exchange.make b 8) = Ret (e', x', true) ∧
    on_datagrams 5 (mkNet (RecoveryClient.mkClient (Some (mkLoop (Exchange.history x') []))) 0 [] 2)
      (start 4 true) (encode_packet [0; 0; 0; 0] <$> [[m1]; [m4]; [m2]; [m2]; [m5]]) = Ret (net', h') ∧
    on_events (engine_start b 10) ((λ ev, (ev, (0, 0))) <$> ring_log net') = Ret eng ∧
    observed (limits_of (exchange_config 4)) (book eng) B ∧
    observed (limits_of (exchange_config 4)) (Exchange.book (Exchange.orders x')) B.
Proof.
  destruct five_run as (b & e' & x' & Hb & Hrun & Hwire & Hseq).
  destruct (engine_mirrors_exchange (Henv := script_laws) five_options 8 4 6 five b e' x' true
    4 5 0 2 [m1] [[m4]; [m2]; [m2]; [m5]] 10) as (net' & h' & eng & B & H1 & H2 & H3 & H4).
  - vm_compute. split; congruence.
  - reflexivity.
  - lia.
  - vm_compute. split; congruence.
  - exact I.
  - reflexivity.
  - vm_compute. split; congruence.
  - vm_compute. congruence.
  - vm_compute. congruence.
  - exact Hb.
  - exact Hrun.
  - lia.
  - lia.
  - rewrite Hwire. repeat constructor; cbn beta; apply list_elem_of_fmap_2; repeat constructor.
  - repeat constructor; vm_compute; congruence.
  - solve_consecutive.
  - cbn [ahead]. exists 1001. split; [solve_consecutive|]. split; [vm_compute; split; congruence|]. split; [reflexivity|].
    exists 1004. split; [solve_consecutive|]. split; [vm_compute; split; congruence|]. split; [reflexivity|].
    exists 1002. split; [solve_consecutive|]. split; [vm_compute; split; congruence|]. split; [reflexivity|].
    exists 1002. split; [solve_consecutive|]. split; [vm_compute; split; congruence|]. split; [reflexivity|].
    exists 1005. split; [solve_consecutive|]. split; [vm_compute; split; congruence|]. split; [reflexivity|]. done.
  - rewrite Hseq. reflexivity.
  - exists b, e', x', net', h', eng, B. split; [exact Hrun|]. split; [exact H1|]. split; [exact H2|].
    split; [exact H3|exact H4].
Defined.
