(* ===== verification/System.v ===== *)
(** * Handler and engine running together

    The handler's main loop and the engine's loop as they run side by side: the
    handler pushes into the shared ring by [try_push], and between its attempts
    the engine takes turns of its own, as a schedule says. At the end the handler
    sets the flag and the engine drains the ring and leaves. The environment of
    the handler is here made of the other components: the ring, the engine, the
    recovery client and its server. *)

From S2P Require Import Prelude Message Wire History Recovery SequenceManager SequenceInv.
From S2P Require Import SequenceCorrect SequenceProperties Handler HandlerProperties.
From S2P Require Import BookSpec BookInterface OrderBook OrderBookRep OrderBookMake OrderBookTheorems.
From S2P Require Import SpscQueue Channel Engine EngineProperties.
From S2P Require Import Exchange ExchangeCorrect ExchangeProperties EndToEnd.
Import Seq Handler.

#[local] Open Scope Z_scope.
#[local] Open Scope llte_scope.

(** ** The handler's main loop on a run of datagrams *)

Lemma numbers_count evs a n : numbers evs = seqZ a n → 0 ≤ n → vlen evs = n.
Proof.
  intros Hn ?. unfold vlen. rewrite <- (length_fmap (λ ev, sequence_number (msg ev)) evs).
  unfold numbers in Hn. rewrite Hn, length_seqZ. lia.
Qed.

Section loop.
Context {E : Type} {senv : SeqEnv E} {henv : HandlerEnv E}.
Context {EI : E → Prop} {Pub : MarketMessage → Prop} {ring : E → list PipelineEvent}.
Context {inbox : E → list (list Z)} {patience : E → nat} {bound : nat}.
Context `{Hlaws : !HandlerLaws E EI Pub ring inbox patience bound}.
Context `{Hrun : !NeverStops E EI} `{Henv : !EnvLaws E EI Pub}.
Context (lo hi : Z) `{Hcomp : !EnvComplete E EI lo hi}.
Context (pad : list Z) (Hpad : length pad = 4%nat) (Hpub_ok : ∀ m, Pub m → message_ok m).

(** A turn of the loop that finds a well-formed datagram. *)
Lemma iteration_datagram spin_fuel expect idle_ms e h b rest :
  EI e → inbox e = encode_packet pad b :: rest → Forall Pub b → 0 < vlen b ≤ kMaxBatch →
  ∃ e1, EI e1 ∧ inbox e1 = rest ∧ ring e1 = ring e ∧
    iteration spin_fuel expect idle_ms e h =
      ('(e, h') ← on_datagram spin_fuel e1 h (encode_packet pad b);
       Ret (e, h', negb ((0 <? expect) && (expect <=? published h')))).
Proof using Hlaws Hrun Hpad Hpub_ok.
  intros He Hin Hb Hlen. unfold iteration.
  destruct (stop_law e He) as (He1 & Hr1 & _). pose proof (never_stops e He) as Hs.
  destruct (h_stop e) as [e1 stop]. cbn [fst snd] in *. subst stop. injection Hr1 as Hr1 Hi1.
  rewrite Hin in Hi1. destruct (receive_law e1 _ rest He1 Hi1) as (Hgot & He2 & Hr2).
  destruct (h_receive e1) as [e2 got]. cbn [fst snd] in *. subst got. injection Hr2 as Hr2 Hi2.
  exists e2. split; [done|]. split; [done|]. split; [congruence|].
  rewrite (pub_parse pad Hpad Hpub_ok b Hb Hlen).
  assert (∃ x p, encode_packet pad b = x :: p) as (x & p & Hp) by (unfold encode_packet; eexists _, _; done).
  by rewrite Hp.
Qed.

(** The loop goes on until [expect] events are published; [s0] is the number of
    the first one. *)
Lemma main_loop_run spin_fuel expect idle_ms s0 bs : ∀ fuel e h f D high,
  EI e → (bound < spin_fuel)%nat → wf Pub (Some f) D (sequencer h) → drained (sequencer h) →
  lossless (sequencer h) → connected (sequencer h) = true → Forall (Forall Pub) bs →
  high ≤ expected_ (sequencer h) → lo ≤ expected_ (sequencer h) → reached high bs - 1 ≤ hi →
  ahead (size (sequencer h)) high bs → inbox e = encode_packet pad <$> bs → (length bs ≤ fuel)%nat →
  0 ≤ s0 → published h = u64 (expected_ (sequencer h) - s0) → 0 < expect →
  s0 ≤ expected_ (sequencer h) < s0 + expect → reached high bs = s0 + expect →
  ∃ e' h' evs, main_loop fuel spin_fuel expect idle_ms e h = Ret (e', h') ∧ EI e' ∧
    ring e' = ring e ++ evs ∧ Forall Pub (msg <$> evs) ∧
    numbers evs = seqZ (expected_ (sequencer h)) (expected_ (sequencer h') - expected_ (sequencer h)) ∧
    expected_ (sequencer h) ≤ expected_ (sequencer h') ∧ s0 + expect ≤ expected_ (sequencer h').
Proof using Hlaws Hrun Henv Hcomp Hpad Hpub_ok.
  induction bs as [|b bs IH];
    intros fuel e h f D high He Hf Hwf Hdr Hl Hcn Hp Hhigh Hlo Hhi Hah Hin Hfuel Hs0 Hpu Hex Hrange Hgoal;
    cbn [ahead reached] in *; [lia|].
  destruct Hah as (s & Hc & Hlen & Hnear & Hah). apply Forall_cons in Hp as [Hb Hp].
  rewrite (consecutive_head s b Hc) in * by lia. rewrite fmap_cons in Hin.
  assert (b ≠ []) as Hne by (intros ->; unfold vlen in Hlen; simpl in Hlen; lia).
  destruct fuel as [|fuel]; [simpl in Hfuel; lia|]. cbn [main_loop].
  destruct (iteration_datagram spin_fuel expect idle_ms e h b _ He Hin Hb Hlen) as (e0 & He0 & Hi0 & Hr0 & ->).
  pose proof (reached_le (Z.max high (s + vlen b)) bs) as Hre.
  destruct (datagram_next spin_fuel f D e0 h (encode_packet pad b) b s He0 Hf Hwf Hdr
    (pub_parse pad Hpad Hpub_ok b Hb Hlen) Hb Hc Hne) as (e1 & h1 & ev1 & -> & Had & Hmono & Hlossless).
  destruct Had as [He1 [D1 Hwf1] Hs1 Hc1 Hdr1 Hre1 Hri1 Hib1 Hct1 Hpb1].
  destruct Hlossless as [Hl1 Hn1]; [lia|done|exists lo, hi; repeat split; done || lia|]. returns.
  assert (published h1 = u64 (expected_ (sequencer h1) - s0)) as Hpu1.
  { rewrite (Hct1 _ Hpu), (numbers_count ev1 _ _ Hn1) by lia. f_equal. lia. }
  pose proof (wf_expected _ _ _ _ Hwf1) as Htop. assert (top < 2 ^ 64) as Htop64 by (by vm_compute).
  rewrite Hpu1, u64_small by lia. destruct (Z.ltb_spec 0 expect); [|lia]. simpl.
  destruct (Z.leb_spec expect (expected_ (sequencer h1) - s0)); simpl.
  - exists e1, h1, ev1. rewrite Hri1, Hr0. repeat (split; [done|]). lia.
  - destruct (IH fuel e1 h1 f D1 (Z.max high (s + vlen b)))
      as (e2 & h2 & ev2 & Hrun2 & He2 & Hri2 & Hpb2 & Hn2 & Hm2 & Hre2);
      rewrite ?Hs1, ?Hc1, ?Hib1; try done; try (simpl in Hfuel; lia).
    exists e2, h2, (ev1 ++ ev2). split; [done|]. split; [done|]. split; [by rewrite Hri2, Hri1, Hr0, app_assoc|].
    rewrite fmap_app. split; [by apply Forall_app|]. split; [|split; [lia|done]].
    unfold numbers in *. rewrite fmap_app, Hn1, Hn2. apply seqZ_split. lia.
Qed.

Lemma main_loop_start fuel spin_fuel expect idle_ms e window b bs s :
  0 < window < 2 ^ 64 → EI e → (bound < spin_fuel)%nat → Forall (Forall Pub) (b :: bs) →
  consecutive s b → lo ≤ s → 0 ≤ s → reached s (b :: bs) - 1 ≤ hi → ahead window s (b :: bs) →
  inbox e = encode_packet pad <$> b :: bs → (length (b :: bs) ≤ fuel)%nat →
  0 < expect → reached s (b :: bs) = s + expect →
  ∃ e' h' evs, main_loop fuel spin_fuel expect idle_ms e (start window true) = Ret (e', h') ∧ EI e' ∧
    ring e' = ring e ++ evs ∧ Forall Pub (msg <$> evs) ∧
    numbers evs = seqZ s (expected_ (sequencer h') - s) ∧
    s ≤ expected_ (sequencer h') ∧ s + expect ≤ expected_ (sequencer h').
Proof using Hlaws Hrun Henv Hcomp Hpad Hpub_ok.
  intros Hw He Hf Hp Hc Hlo Hs Hhi Hah Hin Hfuel Hex Hgoal. cbn [ahead reached] in *.
  destruct Hah as (s' & Hc' & Hlen & Hnear & Hah). apply Forall_cons in Hp as [Hb Hp].
  pose proof (consecutive_head s' b Hc' ltac:(lia)) as Es. rewrite (consecutive_head s b Hc) in * by lia. subst s'.
  assert (b ≠ []) as Hne by (intros ->; unfold vlen in Hlen; simpl in Hlen; lia).
  assert (size (sequencer (start window true)) = window) as Hsz.
  { unfold size. simpl. rewrite vlen_replicate. lia. }
  destruct fuel as [|fuel]; [simpl in Hfuel; lia|]. cbn [main_loop]. rewrite fmap_cons in Hin.
  destruct (iteration_datagram spin_fuel expect idle_ms e (start window true) b _ He Hin Hb Hlen)
    as (e0 & He0 & Hi0 & Hr0 & ->).
  pose proof (reached_le (Z.max s (s + vlen b)) bs) as Hre.
  destruct (datagram_first spin_fuel 0 e0 (start window true) (encode_packet pad b) b s He0 Hf
    (make_wf window true Hw) (pub_parse pad Hpad Hpub_ok b Hb Hlen) Hb Hc Hne ltac:(lia))
    as (e1 & h1 & ev1 & -> & Had & Hlossless).
  destruct Had as [He1 [D1 Hwf1] Hs1 Hc1 Hdr1 Hre1 Hri1 Hib1 Hct1 Hpb1].
  destruct Hlossless as [Hl1 Hn1]; [exists lo, hi; simpl; repeat split; done || lia|]. returns.
  assert (published h1 = u64 (expected_ (sequencer h1) - s)) as Hpu1.
  { rewrite (Hct1 0 eq_refl), (numbers_count ev1 _ _ Hn1) by lia. f_equal. }
  pose proof (wf_expected _ _ _ _ Hwf1) as Htop. assert (top < 2 ^ 64) as Htop64 by (by vm_compute).
  rewrite Hpu1, u64_small by lia. destruct (Z.ltb_spec 0 expect); [|lia]. simpl.
  destruct (Z.leb_spec expect (expected_ (sequencer h1) - s)); simpl.
  - exists e1, h1, ev1. rewrite Hri1, Hr0. repeat (split; [done|]). lia.
  - destruct (main_loop_run spin_fuel expect idle_ms s bs fuel e1 h1 s D1 (Z.max s (s + vlen b)))
      as (e2 & h2 & ev2 & Hrun2 & He2 & Hri2 & Hpb2 & Hn2 & Hm2 & Hre2);
      rewrite ?Hc1, ?Hib1; try done; try (simpl in Hfuel; lia); [by rewrite Hs1, Hsz|].
    exists e2, h2, (ev1 ++ ev2). split; [done|]. split; [done|]. split; [by rewrite Hri2, Hri1, Hr0, app_assoc|].
    rewrite fmap_app. split; [by apply Forall_app|]. split; [|split; [lia|done]].
    unfold numbers in *. rewrite fmap_app, Hn1, Hn2. apply seqZ_split. lia.
Qed.
End loop.

(** ** The engine beside the handler *)

(** [EventQueue] has [kIpcQueueCapacity] slots. *)
Definition kIpcQueueCapacity : Z := Z.shiftl 1 16.

Definition PipelineEvent_zero : PipelineEvent := mkEvent MarketMessage_zero 0 0 0 0.

(** What the two processes share, and the engine's own state. *)
Record shared := mkShared {
  channel : Channel.t PipelineEvent;
  consumer : engine Book.t
}.

(** One turn inside the engine's loop, with the clock readings of an event; no signal takes
    it out ([Channel.engine_step] has the test of [g_stop]). *)
Definition engine_turn (cap : Z) (s : shared) (stamps : Z * Z) : outcome shared :=
  '(c, out) ← Channel.consume cap (channel s);
  match out with
  | Some ev => eng ← on_event (consumer s) ev stamps.1 stamps.2; Ret (mkShared c eng)
  | None => Ret (mkShared c (consumer s))
  end.

Fixpoint engine_turns (cap : Z) (s : shared) (stamps : list (Z * Z)) : outcome shared :=
  match stamps with
  | [] => Ret s
  | st :: stamps => s ← engine_turn cap s st; engine_turns cap s stamps
  end.

(** [producer_done.store(1)] *)
Definition shut_down (s : shared) : shared := mkShared (Channel.finish (channel s)) (consumer s).

(** The handler's last loop: it sleeps until the ring is empty or five seconds
    have passed, while the engine takes its turns. *)
Fixpoint drain_wait (cap : Z) (sleeps : list (list (Z * Z))) (waited : Z) (s : shared)
    : outcome (shared * Z) :=
  if (waited <? 5000) && negb (Spsc.empty (Channel.queue (channel s))) then
    match sleeps with
    | [] => Fault OutOfFuel
    | stamps :: sleeps => s ← engine_turns cap s stamps; drain_wait cap sleeps (waited + 10) s
    end
  else Ret (s, waited).

(** What the engine has taken is what its book has seen. *)
Definition events_before (b : Book.t) (sample_capacity : Z) (s : shared) : Prop :=
  ∃ evs, Channel.popped (channel s) = evs.*1 ∧
    on_events (engine_start b sample_capacity) evs = Ret (consumer s).

Section engine_side.
Context (lg : Z) (Hlg : 0 ≤ lg < 64) (c0 : Book.Config) (HL : limits_ok (limits_of c0)).
Context (b : Book.t) (Hb : Book.make c0 = Ret b) (sc : Z).
#[local] Abbreviation cap := (2 ^ lg).

Record shared_ok (s : shared) (inside : list PipelineEvent) : Prop := {
  so_channel : Channel.inv lg (channel s) inside;
  so_events : events_before b sc s;
  so_pushed : Forall (λ ev, quantity_ok (msg ev)) (Channel.pushed (channel s))
}.

Lemma engine_accepts evs :
  Forall (λ ev, quantity_ok (msg ev)) evs.*1 →
  ∃ eng, on_events (engine_start b sc) evs = Ret eng ∧
    observed (limits_of c0) (book eng) (replay (limits_of c0) (msg <$> evs.*1) []).1.
Proof using HL Hb.
  intros Hq. apply (proj1 (Forall_fmap fst _ evs)) in Hq. destruct (engine_run c0 evs sc HL Hq) as (b' & eng & Hb' & Hrun & Hobs).
  rewrite Hb in Hb'. injection Hb' as <-. exists eng. split; [done|]. by rewrite <- list_fmap_compose.
Qed.

(** A turn keeps the invariant, takes nothing back, and if the engine has not been
    told to stop it brings room: [need] counts the turns until a push succeeds. *)
Definition need (s : shared) (inside : list PipelineEvent) : nat :=
  if decide (vlen inside < cap) then 0
  else match Channel.at_ (channel s) with Channel.AtPop => 1 | _ => 2 end.

Lemma engine_turn_ok s inside st :
  shared_ok s inside →
  ∃ s' out inside', engine_turn cap s st = Ret s' ∧ shared_ok s' inside' ∧
    Channel.consume cap (channel s) = Ret (channel s', out) ∧
    Channel.producer_done (channel s') = Channel.producer_done (channel s) ∧
    Channel.pushed (channel s') = Channel.pushed (channel s) ∧
    Channel.popped (channel s') = Channel.popped (channel s) ++ option_list out ∧
    (Channel.producer_done (channel s) = false → (need s' inside' ≤ need s inside - 1)%nat).
Proof using Hlg HL Hb.
  intros [Hch (evs & Hpop & Hevs) Hq]. unfold engine_turn.
  destruct (Channel.consume_spec lg Hlg _ _ Hch) as (c' & out & inside' & Hrun & Hch' & Hd & Hpu & Hpo & Hle & Hcase).
  rewrite Hrun. returns.
  assert (Channel.producer_done (channel s) = false → ∀ eng,
    (need (mkShared c' eng) inside' ≤ need s inside - 1)%nat) as Hneed.
  { intros Hdone eng. unfold need. simpl. pose proof (Channel.iv_empty _ _ _ Hch) as Hemp.
    pose proof (Channel.iv_exit _ _ _ Hch) as Hexit. assert (0 < cap) by lia. unfold vlen in *.
    destruct (Channel.at_ (channel s)).
    - destruct Hcase as [(-> & -> & ->)|[-> Hlt]]; simpl; [rewrite decide_True by lia; lia|].
      pose proof (Spsc.ring_rep_length _ lg Hlg _ _ (Channel.iv_rep _ _ _ Hch)). unfold vlen in *.
      rewrite decide_True by lia. lia.
    - destruct Hcase as [-> ->]. rewrite Hdone. repeat case_decide; lia.
    - specialize (Hemp eq_refl). congruence.
    - destruct (Hexit eq_refl). congruence. }
  assert (Forall (λ ev, quantity_ok (msg ev)) (Channel.popped c')) as Hq'.
  { rewrite <- Hpu, (Channel.iv_order _ _ _ Hch') in Hq. by apply Forall_app in Hq as [? _]. }
  destruct out as [ev|].
  - assert (Channel.popped c' = (evs ++ [(ev, st)]).*1) as Hpop' by (rewrite fmap_app, <- Hpop; exact Hpo).
    rewrite Hpop' in Hq'. destruct (engine_accepts (evs ++ [(ev, st)]) Hq') as (eng & Hrun' & _).
    pose proof Hrun' as Hlast. rewrite on_events_app, Hevs in Hlast. destruct st as [t3 t4].
    cbn [fst snd]. simpl in Hlast.
    destruct (on_event (consumer s) ev t3 t4) as [eng1|]; [|done]. injection Hlast as ->.
    returns. eexists _, (Some ev), inside'. split; [done|]. simpl.
    split; [split; simpl; [done|by exists (evs ++ [(ev, (t3, t4))])|by rewrite Hpu]|]. split_and!; auto.
  - eexists _, None, inside'. split; [done|]. simpl in *. rewrite app_nil_r in Hpo.
    split; [split; simpl; [done|exists evs; simpl; by rewrite Hpo|by rewrite Hpu]|].
    rewrite app_nil_r. split_and!; auto.
Qed.

Lemma engine_turns_ok stamps : ∀ s inside,
  shared_ok s inside → Channel.producer_done (channel s) = false →
  ∃ s' inside', engine_turns cap s stamps = Ret s' ∧ shared_ok s' inside' ∧
    Channel.producer_done (channel s') = false ∧ Channel.pushed (channel s') = Channel.pushed (channel s) ∧
    (need s' inside' ≤ need s inside - length stamps)%nat.
Proof using Hlg HL Hb.
  induction stamps as [|st stamps IH]; intros s inside Hs Hd; simpl.
  { exists s, inside. repeat (split; [done|]). lia. }
  destruct (engine_turn_ok s inside st Hs) as (s1 & out & inside1 & -> & Hs1 & _ & Hd1 & Hp1 & _ & Hn1). returns.
  destruct (IH s1 inside1 Hs1 ltac:(congruence)) as (s2 & inside2 & -> & Hs2 & Hd2 & Hp2 & Hn2).
  exists s2, inside2. split; [done|]. split; [done|]. split; [done|]. split; [congruence|].
  specialize (Hn1 Hd). lia.
Qed.

Lemma engine_turns_keep stamps : ∀ s inside,
  shared_ok s inside →
  ∃ s' inside', engine_turns cap s stamps = Ret s' ∧ shared_ok s' inside' ∧
    Channel.producer_done (channel s') = Channel.producer_done (channel s) ∧
    Channel.pushed (channel s') = Channel.pushed (channel s).
Proof using Hlg HL Hb.
  induction stamps as [|st stamps IH]; intros s inside Hs; simpl; [by exists s, inside|].
  destruct (engine_turn_ok s inside st Hs) as (s1 & out & inside1 & -> & Hs1 & _ & Hd1 & Hp1 & _). returns.
  destruct (IH s1 inside1 Hs1) as (s2 & inside2 & -> & Hs2 & Hd2 & Hp2).
  exists s2, inside2. split; [done|]. split; [done|]. split; congruence.
Qed.

(** The handler's final wait ends, after at most 500 sleeps. *)
Lemma drain_wait_ok sleeps : ∀ waited s inside,
  shared_ok s inside → 5000 ≤ waited + 10 * vlen sleeps →
  ∃ s' inside' w, drain_wait cap sleeps waited s = Ret (s', w) ∧ shared_ok s' inside' ∧
    Channel.producer_done (channel s') = Channel.producer_done (channel s) ∧
    Channel.pushed (channel s') = Channel.pushed (channel s) ∧ (w < 5000 → inside' = []).
Proof using Hlg HL Hb.
  induction sleeps as [|stamps sleeps IH]; intros waited s inside Hs Hw; cbn [drain_wait].
  - change (vlen []) with 0 in Hw. destruct (Z.ltb_spec waited 5000); [lia|]. exists s, inside, waited.
    repeat (split; [done|]). lia.
  - rewrite vlen_cons in Hw. rewrite (Spsc.empty_spec cap lg Hlg eq_refl _ _ (Channel.iv_rep _ _ _ (so_channel _ _ Hs))).
    destruct (Z.ltb_spec waited 5000); [|exists s, inside, waited; repeat (split; [done|]); lia].
    case_bool_decide as Hempty; [by exists s, inside, waited|]. simpl.
    destruct (engine_turns_keep stamps s inside Hs) as (s1 & inside1 & -> & Hs1 & Hd1 & Hp1). returns.
    destruct (IH (waited + 10) s1 inside1 Hs1 ltac:(lia)) as (s2 & inside2 & w & -> & Hs2 & Hd2 & Hp2 & Hw2).
    exists s2, inside2, w. repeat (split; [done || congruence|]). done.
Qed.

(** After the flag, enough turns take the engine out of its loop. *)
Lemma engine_drains stamps : ∀ s inside,
  shared_ok s inside → Channel.producer_done (channel s) = true →
  (Channel.distance (channel s) inside ≤ length stamps)%nat →
  ∃ s', engine_turns cap s stamps = Ret s' ∧ shared_ok s' [] ∧
    Channel.at_ (channel s') = Channel.Exited ∧ Channel.pushed (channel s') = Channel.pushed (channel s).
Proof using Hlg HL Hb.
  induction stamps as [|st stamps IH]; intros s inside Hs Hd Hn; simpl in *.
  { exists s. by destruct (Channel.distance_exited _ _ _ (so_channel _ _ Hs) ltac:(lia)) as [Hat ->]. }
  destruct (engine_turn_ok s inside st Hs) as (s1 & out & inside1 & -> & Hs1 & Hrun & Hd1 & Hp1 & Hq1 & _). returns.
  destruct (IH s1 inside1 Hs1 ltac:(congruence)) as (s2 & -> & Hs2 & Hat & Hp2).
  - destruct (Channel.engine_pc_eq_dec (Channel.at_ (channel s)) Channel.Exited) as [He|He].
    + unfold Channel.consume in Hrun. rewrite He in Hrun. injection Hrun as Hc _.
      unfold Channel.distance. rewrite <- Hc, He. lia.
    + pose proof (Channel.distance_consume lg Hlg _ _ _ _ _ (so_channel _ _ Hs) Hd Hrun (so_channel _ _ Hs1) Hp1 Hq1 He).
      lia.
  - exists s2. split; [done|]. split; [done|]. split; [done|congruence].
Qed.

Lemma distance_bound (c : Channel.t PipelineEvent) inside : Channel.inv lg c inside →
  (Channel.distance c inside ≤ 4 * Z.to_nat cap + 5)%nat.
Proof using Hlg.
  intros HI. pose proof (Spsc.ring_rep_length _ lg Hlg _ _ (Channel.iv_rep _ _ _ HI)). unfold vlen in *.
  unfold Channel.distance. destruct (Channel.at_ c), inside; simpl in *; lia.
Qed.
End engine_side.

(** ** The handler's environment *)

(** The recovery connection, the clock, the datagrams still to be received, what
    is shared with the engine (a fault of the engine would be kept), and the
    number of attempts made on the ring. *)
Record system := mkSystem {
  sy_client : RecoveryClient.t loop;
  sy_ticks : Z;
  sy_inbox : list (list Z);
  sy_shared : outcome shared;
  sy_attempts : nat
}.

#[export] Instance system_env : SeqEnv system := {
  env_request s a b :=
    (mkSystem (RecoveryClient.request (sy_client s) a b).1 (sy_ticks s) (sy_inbox s) (sy_shared s)
       (sy_attempts s), (RecoveryClient.request (sy_client s) a b).2);
  env_now s :=
    (mkSystem (sy_client s) (u64 (sy_ticks s + 1)) (sy_inbox s) (sy_shared s) (sy_attempts s), sy_ticks s)
}.

(** The [i]-th attempt of the handler comes after the engine turns [turns i]. *)
Definition attempt (cap : Z) (turns : nat → list (Z * Z)) (s : system) (ev : PipelineEvent)
    : outcome (shared * bool) :=
  sh ← sy_shared s;
  sh ← engine_turns cap sh (turns (sy_attempts s));
  '(c, ok) ← Channel.publish cap (channel sh) ev;
  Ret (mkShared c (consumer sh), ok).

Definition system_handler (cap : Z) (turns : nat → list (Z * Z)) : HandlerEnv system := {|
  h_receive s :=
    match sy_inbox s with
    | [] => (s, Timeout)
    | p :: rest =>
        (mkSystem (sy_client s) (sy_ticks s) rest (sy_shared s) (sy_attempts s), Datagram p)
    end;
  h_push s ev :=
    match attempt cap turns s ev with
    | Ret (sh, ok) =>
        (mkSystem (sy_client s) (sy_ticks s) (sy_inbox s) (Ret sh) (S (sy_attempts s)), ok)
    | Fault f =>
        (mkSystem (sy_client s) (sy_ticks s) (sy_inbox s) (Fault f) (S (sy_attempts s)), true)
    end;
  h_stop s := (s, false)
|}.

(** In every [gap] consecutive attempts the engine gets a turn. *)
Definition keeps_running (gap : nat) (turns : nat → list (Z * Z)) : Prop :=
  ∀ i, ∃ j, (i ≤ j < i + gap)%nat ∧ turns j ≠ [].

(** Attempts until the engine's next turn. *)
Fixpoint wait_for (turns : nat → list (Z * Z)) (gap i : nat) : nat :=
  match gap with
  | O => 0
  | S gap => match turns i with [] => S (wait_for turns gap (S i)) | _ => 0 end
  end.

Lemma wait_for_lt turns gap : ∀ i j, (i ≤ j < i + gap)%nat → turns j ≠ [] →
  (wait_for turns gap i < gap)%nat ∧ wait_for turns (S gap) i = wait_for turns gap i.
Proof.
  induction gap as [|gap IH]; intros i j Hj Hne; [lia|]. cbn [wait_for].
  destruct (turns i) eqn:Hi; [|split; [lia|done]].
  assert (j ≠ i) by congruence. destruct (IH (S i) j ltac:(lia) Hne) as [Hlt Heq].
  split; [lia|]. f_equal. exact Heq.
Qed.

Lemma wait_for_idle turns gap i :
  keeps_running gap turns → turns i = [] → wait_for turns gap i = S (wait_for turns gap (S i)).
Proof.
  intros Hfair Hi. destruct (Hfair i) as (j & Hj & Hne). destruct gap as [|gap]; [lia|].
  destruct (Hfair (S i)) as (j' & Hj' & Hne').
  cbn [wait_for]. rewrite Hi. f_equal. symmetry.
  assert (j ≠ i) by congruence. apply (wait_for_lt turns gap (S i) j); [lia|done].
Qed.

Definition sy_ring (s : system) : list PipelineEvent :=
  match sy_shared s with Ret sh => Channel.pushed (channel sh) | Fault _ => [] end.

(** What is in the ring, from the logs. *)
Definition inside_of (sh : shared) : list PipelineEvent :=
  drop (length (Channel.popped (channel sh))) (Channel.pushed (channel sh)).

Definition sy_patience (lg : Z) (turns : nat → list (Z * Z)) (gap : nat) (s : system) : nat :=
  match sy_shared s with
  | Ret sh => need lg sh (inside_of sh) * gap + wait_for turns gap (sy_attempts s)
  | Fault _ => 0
  end.

Section system_laws.
Context (lg : Z) (Hlg : 0 ≤ lg < 64) (c0 : Book.Config) (HL : limits_ok (limits_of c0)).
Context (b : Book.t) (Hb : Book.make c0 = Ret b) (sc : Z).
Context (turns : nat → list (Z * Z)) (gap : nat) (Hfair : keeps_running gap turns).
Context {hcap first : Z} {store : HistoryStore.t} {ms : list MarketMessage}.
Context (HR : hist_rep hcap first store ms) (Hok : Forall message_ok ms) (Htop : first + vlen ms ≤ top).
#[local] Existing Instance system_handler.
#[local] Abbreviation cap := (2 ^ lg).

(** The connection is up, the history is [store], and the engine is at work. *)
Definition system_ok (s : system) : Prop :=
  sy_client s = RecoveryClient.mkClient (Some (mkLoop store [])) ∧
  ∃ sh inside, sy_shared s = Ret sh ∧ shared_ok lg b sc sh inside ∧
    Channel.producer_done (channel sh) = false.

Lemma inside_is sh inside : shared_ok lg b sc sh inside → inside_of sh = inside.
Proof using Type.
  intros [Hch _ _]. unfold inside_of. rewrite (Channel.iv_order _ _ _ Hch). by rewrite drop_app_length.
Qed.

Lemma need_le sh inside : (need lg sh inside ≤ 2)%nat.
Proof using Type. unfold need. case_decide; [lia|]. destruct (Channel.at_ _); lia. Qed.

Lemma attempt_ok s ev :
  system_ok s → quantity_ok (msg ev) →
  ∃ sh sh' inside inside' ok, sy_shared s = Ret sh ∧ shared_ok lg b sc sh inside ∧
    attempt cap turns s ev = Ret (sh', ok) ∧ shared_ok lg b sc sh' inside' ∧
    Channel.producer_done (channel sh') = false ∧
    Channel.pushed (channel sh') =
      (if ok : bool then Channel.pushed (channel sh) ++ [ev] else Channel.pushed (channel sh)) ∧
    (ok = false → (0 < need lg sh' inside' ≤ need lg sh inside - length (turns (sy_attempts s)))%nat).
Proof using Hlg HL Hb.
  intros (_ & sh & inside & Hsh & Hs & Hd) Hq. unfold attempt. rewrite Hsh. returns.
  destruct (engine_turns_ok lg Hlg c0 HL b Hb sc (turns (sy_attempts s)) sh inside Hs Hd)
    as (sh1 & inside1 & -> & Hs1 & Hd1 & Hp1 & Hn1). returns.
  destruct (Channel.channel_publish_spec lg Hlg _ _ ev (so_channel _ _ _ _ _ Hs1) Hd1)
    as (c' & inside' & -> & Hch & Hdone & Hpop & Hat & Hpush & Hsame). returns.
  exists sh, (mkShared c' (consumer sh1)), inside, inside', (bool_decide (vlen inside1 < cap)).
  split; [done|]. split; [done|]. split; [done|]. split.
  { destruct Hs1 as [_ (evs & Hevs & Hrun) Hok1]. split; simpl; [done|exists evs; simpl; by rewrite Hpop|].
    rewrite Hpush. case_bool_decide; [|done]. apply Forall_app. split; [done|]. by apply Forall_singleton. }
  split; [done|]. split; [simpl; by rewrite Hpush, Hp1|]. intros Hno. rewrite (Hsame Hno).
  apply bool_decide_eq_false in Hno.
  assert (need lg (mkShared c' (consumer sh1)) inside1 = need lg sh1 inside1) as -> by (unfold need; simpl; by rewrite Hat).
  split; [|done]. unfold need. rewrite decide_False by done. destruct (Channel.at_ (channel sh1)); lia.
Qed.

(** Attempts that can still be refused, the next one being number [k]. *)
Definition patience_of (sh : shared) (inside : list PipelineEvent) (k : nat) : nat :=
  need lg sh inside * gap + wait_for turns gap k.

Lemma refused_patience sh sh' inside inside' k :
  (0 < need lg sh' inside' ≤ need lg sh inside - length (turns k))%nat →
  (patience_of sh' inside' (S k) < patience_of sh inside k)%nat.
Proof using Hfair Hlg.
  intros Hn. unfold patience_of.
  destruct (Hfair (S k)) as (j & Hj & Hne). destruct (wait_for_lt turns gap _ j Hj Hne) as [Hw _].
  destruct (turns k) as [|t ts] eqn:Ht; simpl in Hn; [|nia]. rewrite (wait_for_idle _ _ _ Hfair Ht). nia.
Qed.

Lemma patience_bound sh inside k : (patience_of sh inside k ≤ 3 * gap)%nat.
Proof using Hfair Hlg.
  unfold patience_of. destruct (Hfair k) as (j & Hj & Hne). destruct (wait_for_lt turns gap k j Hj Hne) as [Hw _].
  pose proof (need_le sh inside). nia.
Qed.

Lemma message_quantity m : m ∈ ms → quantity_ok m.
Proof using Hok. rewrite Forall_forall in Hok. intros Hm. apply Hok, Hm. Qed.

Lemma system_handler_laws :
  HandlerLaws (henv := system_handler cap turns) system system_ok (.∈ ms) sy_ring sy_inbox
    (sy_patience lg turns gap) (3 * gap).
Proof using Hlg HL Hb Hfair Hok.
  split; simpl; try done.
  - intros s ev Hs Hev. destruct (attempt_ok s ev Hs (message_quantity _ Hev))
      as (sh & sh' & inside & inside' & ok & Hsh & Hin & -> & Hs' & Hd' & Hp' & Hn'). simpl.
    split; [split; [apply Hs|by exists sh', inside']|]. split; [done|]. unfold sy_ring. simpl. rewrite Hsh.
    split; [done|]. intros Hno. unfold sy_patience. simpl.
    rewrite Hsh, (inside_is _ _ Hin), (inside_is _ _ Hs'). by apply refused_patience, Hn'.
  - intros s p rest Hs Hin. rewrite Hin. done.
  - intros s (_ & sh & inside & Hsh & Hs & _). unfold sy_patience. rewrite Hsh.
    apply patience_bound.
Qed.

Lemma system_never_stops : NeverStops (henv := system_handler cap turns) system system_ok.
Proof using Type. done. Qed.

Lemma system_request s a b' :
  system_ok s → request_ok a b' →
  RecoveryClient.request (sy_client s) a b' =
  (RecoveryClient.mkClient (Some (mkLoop store [])), Some (reply (cap := hcap) (ms := ms) a b')).
Proof using HR Hok. intros [-> _]. by apply (open_request HR Hok). Qed.

Lemma system_env_laws : EnvLaws system system_ok (.∈ ms).
Proof using HR Hok Htop.
  split.
  - intros s x y Hs Hr. unfold system_ok. simpl. rewrite system_request by done. split; [done|apply Hs].
  - intros s x y l Hs Hr. simpl. rewrite system_request by done. intros [= <-]. apply reply_published.
  - done.
  - intros m Hm. pose proof (hr_first _ _ _ _ HR). pose proof (published_number HR m Hm). lia.
Qed.

Lemma system_complete : vlen ms ≤ hcap → EnvComplete system system_ok first (first + vlen ms - 1).
Proof using HR Hok.
  intros Hret s x y Hs Hr Hx Hy. exists (reply (cap := hcap) (ms := ms) x y). simpl.
  rewrite system_request by done. split; [done|]. intros n Hn. by apply (reply_complete HR).
Qed.
End system_laws.

(** ** The whole system *)

Lemma system_run c0 lg turns gap hcap first ms pad window fuel spin_fuel idle_ms ticks b bs s sc bk
    sleeps stamps expect :
  limits_ok (limits_of c0) → Book.make c0 = Ret bk → 0 ≤ lg < 64 → keeps_running gap turns →
  0 < hcap < 2 ^ 64 → 0 ≤ first → first + vlen ms ≤ top → vlen ms ≤ hcap →
  consecutive first ms → Forall message_ok ms → length pad = 4%nat → 0 < window < 2 ^ 64 →
  (3 * gap < spin_fuel)%nat → (length (b :: bs) ≤ fuel)%nat → 500 ≤ vlen sleeps →
  4 * 2 ^ lg + 5 ≤ vlen stamps →
  Forall (Forall (.∈ ms)) (b :: bs) → consecutive s b → ahead window s (b :: bs) →
  0 < expect → reached s (b :: bs) = s + expect →
  ∃ store e' h' sh sh' w sh'' k,
    append_all (HistoryStore.make hcap) ms = Ret store ∧
    main_loop (H0 := system_handler (2 ^ lg) turns) fuel spin_fuel expect idle_ms
      (mkSystem (RecoveryClient.mkClient (Some (mkLoop store []))) ticks (encode_packet pad <$> b :: bs)
         (Ret (mkShared (Channel.init (2 ^ lg) PipelineEvent_zero) (engine_start bk sc))) 0)
      (start window true) = Ret (e', h') ∧
    sy_shared e' = Ret sh ∧ expect ≤ Z.of_nat k ∧
    drain_wait (2 ^ lg) sleeps 0 (shut_down sh) = Ret (sh', w) ∧
    engine_turns (2 ^ lg) sh' stamps = Ret sh'' ∧
    Channel.at_ (channel sh'') = Channel.Exited ∧
    msg <$> Channel.popped (channel sh'') = take k (drop (Z.to_nat (s - first)) ms) ∧
    observed (limits_of c0) (book (consumer sh''))
      (replay (limits_of c0) (take k (drop (Z.to_nat (s - first)) ms)) []).1.
Proof.
  intros HL Hbk Hlg Hfair Hc Hf Hfit Hret Hcons Hok Hpad Hw Hsp Hfuel Hsl Hst Hbs Hb Hah Hex Hgoal.
  assert (top < 2 ^ 64) as Htop by (by vm_compute). pose proof (vlen_nonneg ms) as Hnn.
  destruct (append_all_rep hcap first ms (HistoryStore.make hcap) []) as (store & Hsto & HR);
    [apply hist_rep_make; lia|done|simpl; lia|]. cbn [app] in HR.
  pose proof (system_env_laws lg bk sc HR Hok Hfit) as Hl1.
  pose proof (system_handler_laws lg Hlg c0 HL bk Hbk sc turns gap Hfair (store := store) Hok) as Hl2.
  pose proof (system_never_stops lg bk sc turns (store := store)) as Hl3.
  pose proof (system_complete lg bk sc HR Hok Hret) as Hl4.
  destruct (slice_bounds first ms b bs s window Hcons Hbs Hb Hah) as [Hlo Hhi].
  assert (∀ m, m ∈ ms → message_ok m) as Hpub by (by apply Forall_forall).
  set (e0 := mkSystem (RecoveryClient.mkClient (Some (mkLoop store []))) ticks (encode_packet pad <$> b :: bs)
    (Ret (mkShared (Channel.init (2 ^ lg) PipelineEvent_zero) (engine_start bk sc))) 0).
  assert (system_ok lg bk sc (store := store) e0) as He0.
  { split; [done|]. eexists _, []. split; [done|]. split; [|done].
    split; simpl; [by apply Channel.channel_inv_init|by exists []|by constructor]. }
  destruct (main_loop_start (senv := system_env) (henv := system_handler (2 ^ lg) turns) (Hlaws := Hl2) (Hrun := Hl3)
    (Henv := Hl1) (Hcomp := Hl4) first (first + vlen ms - 1) pad Hpad Hpub fuel spin_fuel
    expect idle_ms e0 window b bs s) as (e' & h' & evs & Hrun & He' & Hring & Hpe & Hnum & Hge & Hre); try done; [lia|].
  destruct He' as (_ & sh & inside & Hsh & Hs & Hd). unfold sy_ring in Hring. rewrite Hsh in Hring. simpl in Hring. subst evs.
  assert (shared_ok lg bk sc (shut_down sh) inside) as Hs0.
  { destruct Hs as [Hch Hev Hq]. split; [by apply Channel.finish_inv|done|done]. }
  destruct (drain_wait_ok lg Hlg c0 HL bk Hbk sc sleeps 0 (shut_down sh) inside Hs0 ltac:(lia))
    as (sh1 & inside1 & w & Hwait & Hs1 & Hd1 & Hp1 & _).
  destruct (engine_drains lg Hlg c0 HL bk Hbk sc stamps sh1 inside1 Hs1 Hd1) as (sh2 & Hdr & [Hch2 Hev2 Hq2] & Hat & Hp2).
  { pose proof (distance_bound lg Hlg _ _ (so_channel _ _ _ _ _ Hs1)). unfold vlen in Hst. lia. }
  pose proof (Channel.iv_order _ _ _ Hch2) as Hall. rewrite app_nil_r, Hp2, Hp1 in Hall. simpl in Hall.
  assert (msg <$> Channel.pushed (channel sh) =
    take (Z.to_nat (expected_ (sequencer h') - s)) (drop (Z.to_nat (s - first)) ms)) as Hmsgs.
  { apply numbered_slice; [done|done|done|]. by rewrite <- list_fmap_compose. }
  exists store, e', h', sh, sh1, w, sh2, (Z.to_nat (expected_ (sequencer h') - s)). rewrite <- Hall, Hmsgs.
  split; [done|]. split; [done|]. split; [done|]. split; [lia|]. split; [done|]. split; [done|]. split; [done|]. split; [done|].
  destruct Hev2 as (evs & Hevs & Hron). rewrite <- Hall in Hevs.
  rewrite Hp2, Hp1 in Hq2. simpl in Hq2. rewrite Hevs in Hq2.
  destruct (engine_accepts c0 HL bk Hbk sc evs Hq2) as (eng & Hron' & Hobs). rewrite Hron in Hron'. injection Hron' as <-.
  rewrite <- Hevs, Hmsgs in Hobs. done.
Qed.

(** The engine's book is the exchange's book. Let the exchange run as published, with a history that retains what it publishes, and let the network
    deliver datagrams that were sent, repeated, reordered or missing in any way
    that keeps the first and the last message and stays inside the reorder window.
    Let the engine run beside the handler in any interleaving that does not leave
    it out forever. Then the handler's main loop ends with everything pushed
    through the shared ring, its final wait ends, the engine leaves its loop with
    every message consumed, nothing faults, and the engine's book and the
    exchange's own book answer every query alike. *)
Lemma system_mirrors_exchange {E} {env : ExchangeEnv E} {EI : E → Prop} {sent spins}
    {Henv : ExchangeLaws E EI sent spins} o cap n fuel e b e' x' going
    window loop_fuel spin_fuel idle_ms ticks lg turns gap sleeps stamps d ds sample_capacity :
  options_ok o → length (Exchange.pad o) = 4%nat → 0 < cap < 2 ^ 64 →
  0 < n ≤ Book.kNullOrder → EI e → sent e = [] → 0 ≤ Exchange.total_messages o ≤ cap →
  1001 + Exchange.total_messages o ≤ top → Exchange.total_messages o < Z.of_nat fuel →
  Book.make (exchange_config n) = Ret b →
  Exchange.run fuel spins o e (Exchange.make b cap) = Ret (e', x', going) →
  0 < window < 2 ^ 64 → 0 ≤ lg < 64 → keeps_running gap turns → (3 * gap < spin_fuel)%nat →
  500 ≤ vlen sleeps → 4 * 2 ^ lg + 5 ≤ vlen stamps → (length (d :: ds) ≤ loop_fuel)%nat →
  Forall (λ p, encode_packet (Exchange.pad o) p ∈ sent e') (d :: ds) →
  Forall (Forall message_ok) (d :: ds) → consecutive 1001 d → ahead window 1001 (d :: ds) →
  reached 1001 (d :: ds) = Exchange.sequence x' →
  let L := limits_of (exchange_config n) in
  ∃ s' h' sh sh' waited sh'' B,
    main_loop (H0 := system_handler (2 ^ lg) turns) loop_fuel spin_fuel (Exchange.sequence x' - 1001) idle_ms
      (mkSystem (RecoveryClient.mkClient (Some (mkLoop (Exchange.history x') []))) ticks
         (encode_packet (Exchange.pad o) <$> d :: ds)
         (Ret (mkShared (Channel.init (2 ^ lg) PipelineEvent_zero) (engine_start b sample_capacity))) 0)
      (start window true) = Ret (s', h') ∧
    sy_shared s' = Ret sh ∧
    drain_wait (2 ^ lg) sleeps 0 (shut_down sh) = Ret (sh', waited) ∧
    engine_turns (2 ^ lg) sh' stamps = Ret sh'' ∧
    Channel.at_ (channel sh'') = Channel.Exited ∧
    vlen (Channel.popped (channel sh'')) = Exchange.sequence x' - 1001 ∧
    observed L (book (consumer sh'')) B ∧ observed L (Exchange.book (Exchange.orders x')) B.
Proof.
  intros Ho Hpad Hc Hn He Hs0 Ht Hfit Hfuel Hb Hrun Hw Hlg Hfair Hsp Hsl Hst Hlf Hds Hok Hd Hah Hre L.
  destruct (exchange_messages o cap n fuel e b e' x' going window (d :: ds) Ho Hpad Hc Hn He Hs0 ltac:(lia) Hfit
    Hfuel Hb Hrun Hds Hok Hah) as (ms & HL & Ha & Hcons & Hmok & Hle & Hseq & Hin & Hobs).
  assert (1001 < reached 1001 (d :: ds)) as Hpos.
  { pose proof Hah as (s & Hcd & Hlen & _). cbn [reached]. rewrite (consecutive_head 1001 d Hd) by lia.
    pose proof (reached_le (Z.max 1001 (1001 + vlen d)) ds). lia. }
  destruct (system_run (exchange_config n) lg turns gap cap 1001 ms (Exchange.pad o) window loop_fuel spin_fuel idle_ms
    ticks d ds 1001 sample_capacity b sleeps stamps (Exchange.sequence x' - 1001) HL Hb Hlg Hfair Hc ltac:(lia)
    ltac:(lia) ltac:(lia) Hcons Hmok Hpad Hw Hsp Hlf Hsl Hst Hin Hd Hah ltac:(lia) ltac:(lia))
    as (store & s' & h' & sh & sh' & w & sh'' & k & Hsto & Hloop & Hsh & Hk & Hwait & Hdr & Hat & Hpop & Hob).
  rewrite Ha in Hsto. injection Hsto as <-.
  rewrite Z.sub_diag, drop_0, take_ge in Hob, Hpop by (unfold vlen in Hseq; lia).
  exists s', h', sh, sh', w, sh'', (replay L ms []).1. split_and!; try done.
  rewrite Hseq, <- Hpop, vlen_fmap. lia.
Qed.

(** An engine that runs at every other attempt of the handler. *)
Definition every_other (i : nat) : list (Z * Z) := if Nat.even i then [] else [(7, 8)].

Lemma every_other_fair : keeps_running 2 every_other.
Proof.
  intros i. destruct (Nat.even i) eqn:Hi.
  - exists (S i). split; [lia|]. unfold every_other. by rewrite Nat.even_succ, <- Nat.negb_even, Hi.
  - exists i. split; [lia|]. unfold every_other. by rewrite Hi.
Qed.
