(* ===== verification/Live.v ===== *)
(** * The exchange at work while the others run

    The publishing loop of the exchange cut into turns, so that the thread of the
    recovery server, the network and the other two processes can act in between: a
    turn generates and retains one message, or sends one packet. The history that
    a retransmission request sees is the one of the moment, and the network
    delivers what has been sent by then. *)

From Stdlib Require Import QArith.
From S2P Require Import Prelude Message Wire History Recovery SequenceManager SequenceInv.
From S2P Require Import SequenceCorrect SequenceProperties Handler HandlerProperties Coupling.
From S2P Require Import BookSpec BookInterface OrderBook OrderBookRep OrderBookMake OrderBookTheorems.
From S2P Require Import SpscQueue Channel Engine EngineProperties.
From S2P Require Import Exchange ExchangeCorrect ExchangeProperties EndToEnd System.
Import Seq Handler.

#[local] Open Scope Z_scope.
#[local] Open Scope llte_scope.

(** ** The publishing loop in turns *)

(** Before the loop condition; with a full packet; after the loop; returned. *)
Inductive phase := AtTest | AtFlush | AtEnd | Finished (going : bool).

Record venue (E : Type) := mkVenue {
  v_env : E;
  v_state : Exchange.t Book.t;
  v_published : Z;
  v_phase : phase
}.
Arguments mkVenue {E}.
Arguments v_env {E}.
Arguments v_state {E}.
Arguments v_published {E}.
Arguments v_phase {E}.

Section turns.
Context {E : Type} `{ExchangeEnv E} (spins : nat) (o : Exchange.Options).

Definition venue_turn (v : venue E) : outcome (venue E) :=
  let '(mkVenue e x published ph) := v in
  match ph with
  | AtTest =>
      if published <? Exchange.total_messages o then
        let '(e, stop) := x_stop e in
        if stop : bool then Ret (mkVenue e x published AtEnd)
        else
          '(e, x) ← Exchange.retain e x;
          if Exchange.pending x =? Exchange.batch o then Ret (mkVenue e x published AtFlush)
          else Ret (mkVenue e x (u64 (published + 1)) AtTest)
      else Ret (mkVenue e x published AtEnd)
  | AtFlush =>
      '(e, x, flushed) ← Exchange.flush_packet o e x;
      if negb flushed then Ret (mkVenue e x published (Finished false))
      else if 0 <? Exchange.interval_ns o then
        e ← Exchange.busy_wait_until spins e
              (u64 (Exchange.start_ns o + u64 (u64 (published + 1) * Exchange.interval_ns o)));
        Ret (mkVenue e x (u64 (published + 1)) AtTest)
      else Ret (mkVenue e x (u64 (published + 1)) AtTest)
  | AtEnd => '(e, x, _) ← Exchange.flush_packet o e x; Ret (mkVenue e x published (Finished true))
  | Finished _ => Ret v
  end.

Fixpoint venue_turns (k : nat) (v : venue E) : outcome (venue E) :=
  match k with
  | O => Ret v
  | S k => v ← venue_turn v; venue_turns k v
  end.

Definition venue_start (e : E) (x : Exchange.t Book.t) : venue E := mkVenue e x 0 AtTest.

Lemma venue_turns_app i j v : venue_turns (i + j) v = (v ← venue_turns i v; venue_turns j v).
Proof.
  revert v. induction i as [|i IH]; intros v; [done|]. cbn [venue_turns Nat.add].
  destruct (venue_turn v) as [v1|]; [apply IH|done].
Qed.

(** Turn after turn it is the loop of the source. *)
Lemma publish_loop_turns fuel : ∀ e x published e' x' going,
  Exchange.publish_loop fuel spins o e x published = Ret (e', x', going) →
  ∃ k p, venue_turns k (mkVenue e x published AtTest) =
    Ret (mkVenue e' x' p (if going then AtEnd else Finished false)).
Proof.
  induction fuel as [|fuel IH]; intros e x published e' x' going Hrun; [done|]. cbn [Exchange.publish_loop] in Hrun.
  assert (∀ v2, venue_turn (mkVenue e x published AtTest) = Ret v2 →
    (∃ k p, venue_turns k v2 = Ret (mkVenue e' x' p (if going then AtEnd else Finished false))) →
    ∃ k p, venue_turns k (mkVenue e x published AtTest) = Ret (mkVenue e' x' p (if going then AtEnd else Finished false))) as Hstep.
  { intros v2 Hv (k & p & Hk). exists (S k), p. cbn [venue_turns]. by rewrite Hv. }
  cbn [venue_turn] in Hstep. destruct (published <? Exchange.total_messages o).
  2: { injection Hrun as <- <- <-. eapply Hstep; [done|]. by exists 0%nat, published. }
  destruct (x_stop e) as [e1 stop]. destruct stop.
  { injection Hrun as <- <- <-. eapply Hstep; [done|]. by exists 0%nat, published. }
  apply bind_Ret_inv in Hrun as ([[e2 x2] going2] & Hpub & Hrun). unfold Exchange.publish in Hpub.
  apply bind_Ret_inv in Hpub as ([e3 x3] & Hret & Hpub). rewrite Hret in Hstep. returns.
  cbn [mbind outcome_bind] in Hstep. destruct (_ =? Exchange.batch o).
  2: { injection Hpub as -> -> <-. eapply Hstep; [done|]. by apply IH. }
  apply bind_Ret_inv in Hpub as ([[e4 x4] flushed] & Hfl & Hpub). eapply Hstep; [done|].
  destruct flushed; cbn [negb] in Hpub.
  2: { injection Hpub as <- <- <-. injection Hrun as <- <- <-. exists 1%nat, published. cbn [venue_turns venue_turn]. by rewrite Hfl. }
  assert (∃ e5, venue_turn (mkVenue e3 x3 published AtFlush) = Ret (mkVenue e5 x4 (u64 (published + 1)) AtTest) ∧
    e5 = e2 ∧ x4 = x2 ∧ going2 = true) as (e5 & Hturn & -> & -> & ->).
  { cbn [venue_turn]. rewrite Hfl. cbn [mbind outcome_bind negb]. destruct (0 <? Exchange.interval_ns o).
    - apply bind_Ret_inv in Hpub as (e5 & -> & [= <- <- <-]). by exists e5.
    - injection Hpub as <- <- <-. by exists e4. }
  destruct (IH _ _ _ _ _ _ Hrun) as (k & p & Hk). exists (S k), p. cbn [venue_turns]. by rewrite Hturn.
Qed.

Lemma run_turns fuel e x e' x' going :
  Exchange.run fuel spins o e x = Ret (e', x', going) →
  ∃ k p, venue_turns k (venue_start e x) = Ret (mkVenue e' x' p (Finished going)).
Proof.
  unfold Exchange.run. intros ([[e1 x1] going1] & Hl & Hrun)%bind_Ret_inv.
  destruct (publish_loop_turns _ _ _ _ _ _ _ Hl) as (k & p & Hk). destruct going1.
  - apply bind_Ret_inv in Hrun as ([[e2 x2] ok] & Hfl & [= <- <- <-]).
    exists (k + 1)%nat, p. rewrite venue_turns_app. unfold venue_start. rewrite Hk. cbn [mbind outcome_bind venue_turns venue_turn].
    by rewrite Hfl.
  - injection Hrun as <- <- <-. by exists k, p.
Qed.
End turns.

(** ** What the turns keep *)

Section venue.
Context {E : Type} {env : ExchangeEnv E} {EI : E → Prop} {sent : E → list (list Z)} {spins : nat}.
Context `{Henv : !ExchangeLaws E EI sent spins}.
Context (o : Exchange.Options) (cap n : Z) (Ho : options_ok o) (Hcap : 0 < cap < 2 ^ 64).
Context (HL : limits_ok (limits_of (exchange_config n))).
Context (Hfit : 1001 + Exchange.total_messages o < 2 ^ 64).
#[local] Abbreviation L := (limits_of (exchange_config n)).

Definition phase_ok (v : venue E) (ms : list MarketMessage) : Prop :=
  match v_phase v with
  | AtTest => Exchange.pending (v_state v) < Exchange.batch o ∧ v_published v = vlen ms
  | AtFlush => v_published v + 1 = vlen ms
  | AtEnd | Finished _ => True
  end.

(** The exchange has published [ms], all but the pending ones in datagrams. *)
Definition venue_ok (v : venue E) (ms : list MarketMessage) : Prop :=
  (∃ chunks, ex_inv (EI := EI) (sent := sent) (R := sized L) (order_capacity := n) o cap []
     (v_env v) (v_state v) ms chunks) ∧
  phase_ok v ms ∧ vlen ms ≤ Exchange.total_messages o.

Lemma flush_sent e (x : Exchange.t Book.t) e' x' ok :
  EI e → Exchange.flush_packet o e x = Ret (e', x', ok) → ∃ w, sent e' = sent e ++ w.
Proof using Henv.
  intros He. unfold Exchange.flush_packet. destruct (_ =? 0); [intros [= <- <- <-]; exists []; by rewrite app_nil_r|].
  destruct (_ <? _); [done|].
  assert (∃ e1 drop, (if Exchange.less 0%Q (Exchange.drop_rate o)
    then let '(e, u) := draw_unit e in (e, Exchange.less u (Exchange.drop_rate o)) else (e, false)) = (e1, drop) ∧
    EI e1 ∧ sent e1 = sent e) as (e1 & drop & -> & He1 & Hs1).
  { destruct (Exchange.less _ _); [|by exists e, false]. destruct (law_unit e He) as (He1 & Hs1 & _).
    destruct (draw_unit e) as [e1 u]. by eexists _, _. }
  destruct drop; [intros [= <- <- <-]; exists []; by rewrite app_nil_r|].
  pose proof (law_send e1 (encode_packet (Exchange.pad o) (take (Z.to_nat (Exchange.pending x)) (Exchange.payload x))) He1)
    as [_ Hs2].
  destruct (x_send e1 _) as [e2 sent2]. cbn [fst snd] in Hs2. rewrite Hs1 in Hs2.
  destruct sent2; intros [= <- <- <-]; eexists; exact Hs2.
Qed.

Lemma turn_ok v ms : venue_ok v ms →
  ∃ v' more w, venue_turn spins o v = Ret v' ∧ venue_ok v' (ms ++ more) ∧ sent (v_env v') = sent (v_env v) ++ w.
Proof using Henv Ho HL Hfit.
  destruct v as [e x published ph]. intros ((chunks & Hinv) & Hph & Hle). cbn [v_env v_state] in Hinv.
  pose proof (xi_env _ _ _ _ _ _ _ Hinv) as He. pose proof (vlen_nonneg ms) as Hnn.
  assert (∀ v', v_env v' = e → v_state v' = x → v_phase v' = AtEnd → venue_ok v' (ms ++ [])) as Hend.
  { intros v' E1 E2 E3. rewrite app_nil_r. split; [exists chunks; by rewrite E1, E2|]. split; [|done].
    unfold phase_ok. by rewrite E3. }
  destruct ph as [| | |going]; unfold phase_ok in Hph; cbn [v_phase v_state v_published] in Hph; cbn [venue_turn].
  - destruct Hph as [Hroom ->]. destruct (Z.ltb_spec (vlen ms) (Exchange.total_messages o)) as [Hlt|].
    2: { eexists _, [], []. split; [done|]. split; [by apply Hend|]. by rewrite app_nil_r. }
    destruct (law_stop e He) as (He1 & Hs1 & _). destruct (x_stop e) as [e1 stop]. cbn [fst snd] in He1, Hs1.
    pose proof (ex_inv_quiet _ _ _ _ _ _ _ _ Hinv He1 Hs1) as Hinv1. destruct stop.
    { eexists _, [], []. split; [done|]. rewrite !app_nil_r. split; [|done]. by split; [exists chunks|]. }
    destruct (retain_spec o cap [] e1 x ms chunks Ho Hinv1 Hroom ltac:(lia)) as (e2 & x2 & m & -> & Hinv2). returns.
    pose proof (xi_pending _ _ _ _ _ _ _ Hinv2) as Hpend.
    assert (sent e2 = sent e ++ []) as Hs2.
    { rewrite app_nil_r, (xi_wire _ _ _ _ _ _ _ Hinv2), <- Hs1. symmetry. apply (xi_wire _ _ _ _ _ _ _ Hinv1). }
    destruct (Z.eqb_spec (Exchange.pending x2) (Exchange.batch o)) as [Hfull|Hnot];
      (eexists _, [m], []; split; [done|]; split; [|exact Hs2]; split; [by exists chunks|]; unfold phase_ok;
       cbn [v_phase v_state v_published]; rewrite vlen_snoc); [lia|]. rewrite u64_small by lia. lia.
  - destruct (flush_spec o cap [] e x ms chunks Ho Hinv) as (e2 & x2 & ok & chunks2 & Hfl & Hinv2 & Hz & _).
    destruct (flush_sent _ _ _ _ _ He Hfl) as [w Hw]. rewrite Hfl. returns. destruct ok; cbn [negb].
    2: { eexists _, [], w. rewrite app_nil_r. split; [done|]. split; [|exact Hw]. by split; [exists chunks2|]. }
    specialize (Hz eq_refl). unfold options_ok in Ho. rewrite Hph, u64_small by lia.
    assert (∀ e3, EI e3 → sent e3 = sent e2 → venue_ok (mkVenue e3 x2 (vlen ms) AtTest) (ms ++ [])) as Hok.
    { intros e3 He3 Hs3. rewrite app_nil_r. split; [exists chunks2; by eapply ex_inv_quiet|]. split; [|done].
      unfold phase_ok. cbn [v_phase v_state v_published]. lia. }
    destruct (0 <? Exchange.interval_ns o).
    + destruct (law_wait e2 (u64 (Exchange.start_ns o + u64 (vlen ms * Exchange.interval_ns o)))
        (xi_env _ _ _ _ _ _ _ Hinv2) (u64_range _)) as (e3 & -> & He3 & Hs3). returns.
      eexists _, [], w. split; [done|]. split; [by apply Hok|]. cbn [v_env]. congruence.
    + eexists _, [], w. split; [done|]. split; [|exact Hw]. apply Hok; [by eapply xi_env|done].
  - destruct (flush_spec o cap [] e x ms chunks Ho Hinv) as (e2 & x2 & ok & chunks2 & Hfl & Hinv2 & Hz & _).
    destruct (flush_sent _ _ _ _ _ He Hfl) as [w Hw]. rewrite Hfl. returns.
    eexists _, [], w. rewrite app_nil_r. split; [done|]. split; [|exact Hw]. by split; [exists chunks2|].
  - eexists _, [], []. rewrite !app_nil_r. split; [done|]. split; [|done]. by split; [exists chunks|].
Qed.

Lemma turns_ok k : ∀ v ms, venue_ok v ms →
  ∃ v' more w, venue_turns spins o k v = Ret v' ∧ venue_ok v' (ms ++ more) ∧ sent (v_env v') = sent (v_env v) ++ w.
Proof using Henv Ho HL Hfit.
  induction k as [|k IH]; intros v ms Hv; [exists v, [], []; by rewrite !app_nil_r|]. cbn [venue_turns].
  destruct (turn_ok v ms Hv) as (v1 & more1 & w1 & -> & Hv1 & Hs1). returns.
  destruct (IH v1 _ Hv1) as (v2 & more2 & w2 & -> & Hv2 & Hs2).
  exists v2, (more1 ++ more2), (w1 ++ w2). split; [done|]. rewrite !app_assoc. split; [done|]. by rewrite Hs2, Hs1.
Qed.
End venue.

(** ** The environment of the handler *)

(** The handler's own side (its connection, clock and ring; its inbox stays
    empty), the exchange, what the network will deliver, and the number of
    requests made so far. An entry [(k, i)] of the plan: after [k] more turns of the exchange
    the [i]-th datagram on the wire arrives. *)
Record live (E : Type) := mkWorld {
  lv_side : system;
  lv_venue : outcome (venue E);
  lv_plan : list (nat * nat);
  lv_requests : nat
}.
Arguments mkWorld {E}.
Arguments lv_side {E}.
Arguments lv_venue {E}.
Arguments lv_plan {E}.
Arguments lv_requests {E}.

(** The server reads the history that the publishing loop writes. *)
Definition reading (h : HistoryStore.t) (c : RecoveryClient.t loop) : RecoveryClient.t loop :=
  RecoveryClient.mkClient ((λ l, mkLoop h (inbox l)) <$> RecoveryClient.fd_ c).

Section live_env.
Context {E : Type} {env : ExchangeEnv E} (sent : E → list (list Z)) (spins : nat) (o : Exchange.Options).
Context (extra : nat → nat) (cap : Z) (turns : nat → list (Z * Z)).

Definition set_client (c : RecoveryClient.t loop) (s : system) : system :=
  mkSystem c (sy_ticks s) (sy_inbox s) (sy_shared s) (sy_attempts s).

(** The exchange takes [extra i] turns before the server answers the [i]-th
    request. Its turns touch nothing else of the handler's, so that a turn at
    any other moment between two calls has the effect of one at the next
    request or the next datagram. *)
Definition live_seq : SeqEnv (live E) := {|
  env_request s a b :=
    match (v ← lv_venue s; venue_turns spins o (extra (lv_requests s)) v) with
    | Ret v =>
        let '(c, answer) := RecoveryClient.request (reading (Exchange.history (v_state v)) (sy_client (lv_side s))) a b in
        (mkWorld (set_client c (lv_side s)) (Ret v) (lv_plan s) (S (lv_requests s)), answer)
    | Fault f => (mkWorld (lv_side s) (Fault f) (lv_plan s) (S (lv_requests s)), None)
    end;
  env_now s :=
    let '(sy, now) := env_now (lv_side s) in (mkWorld sy (lv_venue s) (lv_plan s) (lv_requests s), now)
|}.

Definition live_handler : HandlerEnv (live E) (H := live_seq) := {|
  h_receive s :=
    match lv_plan s with
    | [] => (s, Timeout)
    | (k, i) :: plan =>
        match (v ← lv_venue s; venue_turns spins o k v) with
        | Ret v =>
            (mkWorld (lv_side s) (Ret v) plan (lv_requests s),
             match sent (v_env v) !! i with Some p => Datagram p | None => Timeout end)
        | Fault f => (mkWorld (lv_side s) (Fault f) plan (lv_requests s), Timeout)
        end
    end;
  h_push s ev :=
    let '(sy, ok) := h_push (HandlerEnv := system_handler cap turns) (lv_side s) ev in
    (mkWorld sy (lv_venue s) (lv_plan s) (lv_requests s), ok);
  h_stop s := (s, false)
|}.

(** The datagrams a plan delivers, when each is on the wire at its time. *)
Fixpoint deliveries (plan : list (nat * nat)) (v : venue E) : outcome (option (list (list Z))) :=
  match plan with
  | [] => Ret (Some [])
  | (k, i) :: plan =>
      v ← venue_turns spins o k v;
      rest ← deliveries plan v;
      Ret (match sent (v_env v) !! i, rest with Some p, Some ps => Some (p :: ps) | _, _ => None end)
  end.
End live_env.

(** ** As if everything had been published before *)

Section coupling.
Context {E : Type} {env : ExchangeEnv E} {EI : E → Prop} {sent : E → list (list Z)} {spins : nat}.
Context `{Henv : !ExchangeLaws E EI sent spins}.
Context (o : Exchange.Options) (hcap n : Z) (Ho : options_ok o) (Hcap : 0 < hcap < 2 ^ 64).
Context (HL : limits_ok (limits_of (exchange_config n))).
Context (Hfit : 1001 + Exchange.total_messages o ≤ top).
Context (extra : nat → nat) (cap : Z) (turns : nat → list (Z * Z)).
Context (final : venue E) (going : bool) (Hfinal : v_phase final = Finished going).
#[local] Abbreviation ok := (venue_ok (EI := EI) (sent := sent) o hcap n).
#[local] Abbreviation venue_runs := (venue_turns spins o).

Lemma fits_width : 1001 + Exchange.total_messages o < 2 ^ 64.
Proof using Hfit. clear -Hfit. assert (top < 2 ^ 64) by (by vm_compute). lia. Qed.

Lemma finished_stays k v g : v_phase v = Finished g → venue_runs k v = Ret v.
Proof using Type. intros Hv. induction k as [|k IH]; [done|]. cbn [venue_turns]. destruct v. simpl in Hv. subst. apply IH. Qed.

(** The exchange of the moment, on its way to its end. *)
Record underway (v : venue E) (ms : list MarketMessage) : Prop := {
  uw_ok : ok v ms;
  uw_end : ∃ k, venue_runs k v = Ret final
}.

Lemma underway_turns k v ms : underway v ms →
  ∃ v' more w, venue_runs k v = Ret v' ∧ underway v' (ms ++ more) ∧ sent (v_env v') = sent (v_env v) ++ w.
Proof using Henv Ho HL Hfit Hfinal.
  intros [Hok [j Hj]]. destruct (turns_ok o hcap n Ho HL fits_width k v ms Hok) as (v' & more & w & Hk & Hok' & Hs).
  exists v', more, w. split; [done|]. split; [|done]. split; [done|].
  destruct (Nat.le_gt_cases k j) as [Hle|Hgt].
  - exists (j - k)%nat. replace j with (k + (j - k))%nat in Hj by lia. rewrite venue_turns_app, Hk in Hj. done.
  - exists 0%nat. replace k with (j + (k - j))%nat in Hk by lia. rewrite venue_turns_app, Hj in Hk.
    cbn [mbind outcome_bind] in Hk. rewrite (finished_stays _ _ going Hfinal) in Hk. injection Hk as <-. done.
Qed.

Lemma deliveries_later plan : ∀ k v ms v' ps,
  underway v ms → venue_runs k v = Ret v' → deliveries sent spins o plan v = Ret (Some ps) →
  deliveries sent spins o plan v' = Ret (Some ps).
Proof using Henv Ho HL Hfit Hfinal.
  induction plan as [|[j i] plan IH]; intros k v ms v' ps Hv Hk Hps; [done|]. cbn [deliveries] in *.
  destruct (underway_turns j v ms Hv) as (v1 & more & w & Hj & Hv1 & _).
  destruct (underway_turns k v1 _ Hv1) as (v2 & more2 & w2 & Hk2 & _ & Hs2).
  rewrite Hj in Hps. cbn [mbind outcome_bind] in Hps. apply bind_Ret_inv in Hps as (rest & Hrest & Hps).
  assert (venue_runs j v' = Ret v2) as ->.
  { pose proof (venue_turns_app spins o j k v) as H1. pose proof (venue_turns_app spins o k j v) as H2.
    rewrite Hj in H1. rewrite Hk in H2. cbn [mbind outcome_bind] in H1, H2. rewrite <- H2, <- Hk2, <- H1. f_equal. lia. }
  returns. destruct (sent (v_env v1) !! i) as [p|] eqn:Hp; [|by destruct rest].
  destruct rest as [ps'|]; [|done]. injection Hps as <-. rewrite (IH k v1 _ v2 ps' Hv1 Hk2 Hrest). returns.
  rewrite Hs2, (lookup_app_l_Some _ _ _ _ Hp). done.
Qed.

(** The answer to a request for what has been published is already the final one. *)
Lemma reply_now ms more a b :
  consecutive 1001 (ms ++ more) → vlen (ms ++ more) ≤ hcap → b < 1001 + vlen ms →
  reply (cap := hcap) (ms := ms) a b = reply (cap := hcap) (ms := ms ++ more) a b.
Proof using Type.
  intros Hc Hlen Hb. unfold reply, lastn. rewrite vlen_app in Hlen |- *. pose proof (vlen_nonneg more). pose proof (vlen_nonneg ms).
  replace (Z.to_nat (vlen ms - hcap)) with 0%nat by lia. replace (Z.to_nat (vlen ms + vlen more - hcap)) with 0%nat by lia.
  rewrite !drop_0, filter_app. assert (filter (in_range a b) more = []) as ->; [|by rewrite app_nil_r].
  apply elem_of_nil_inv. intros m [Hm Hin]%list_elem_of_filter.
  pose proof (consecutive_drop 1001 (ms ++ more) (length ms) Hc ltac:(rewrite length_app; lia)) as Hd.
  rewrite drop_app_length in Hd. pose proof (consecutive_elem _ _ _ Hd Hin). unfold in_range, vlen in *. lia.
Qed.

Context (Hpad : length (Exchange.pad o) = 4%nat) (Htotal : Exchange.total_messages o ≤ hcap).

(** Seen from the handler, the exchange at work is one that had published
    everything before, as far as the numbers below [num] go. *)
Definition alike (num : Z) (s1 : live E) (s2 : system) : Prop :=
  (∃ h, sy_client (lv_side s1) = RecoveryClient.mkClient (Some (mkLoop h []))) ∧
  sy_client s2 = RecoveryClient.mkClient (Some (mkLoop (Exchange.history (v_state final)) [])) ∧
  sy_ticks (lv_side s1) = sy_ticks s2 ∧ sy_shared (lv_side s1) = sy_shared s2 ∧
  sy_attempts (lv_side s1) = sy_attempts s2 ∧
  ∃ v ms, lv_venue s1 = Ret v ∧ underway v ms ∧ num ≤ 1001 + vlen ms ∧
    deliveries sent spins o (lv_plan s1) v = Ret (Some (sy_inbox s2)).

Lemma packet_numbers v ms p payload :
  ok v ms → p ∈ sent (v_env v) → parse_packet p = Some payload →
  Forall (λ m, 1 ≤ sequence_number m ≤ 1001 + vlen ms) payload ∧ 1001 + vlen ms ≤ top.
Proof using Ho Hpad Hfit.
  intros ((chunks & Hinv) & _ & Hle) Hp Hparse. split; [|lia]. rewrite (xi_wire _ _ _ _ _ _ _ Hinv) in Hp.
  apply list_elem_of_fmap in Hp as (c & -> & Hc). unfold kept in Hc.
  apply list_elem_of_fmap in Hc as (ch & -> & [_ Hch]%list_elem_of_filter).
  pose proof (xi_batches _ _ _ _ _ _ _ Hinv) as Hb. rewrite Forall_forall in Hb. specialize (Hb ch Hch). simpl in Hb.
  assert (∀ m, m ∈ ch.1 → m ∈ ms) as Hsub.
  { intros m Hm. rewrite (xi_chunks _ _ _ _ _ _ _ Hinv). apply elem_of_app. left. apply list_elem_of_In, List.in_concat.
    exists ch.1. rewrite <- !list_elem_of_In. split; [by apply list_elem_of_fmap_2|done]. }
  pose proof (xi_messages _ _ _ _ _ _ _ Hinv) as Hmok. rewrite Forall_forall in Hmok.
  unfold options_ok in Ho. rewrite (parse_encoded _ ch.1 Hpad) in Hparse; [|lia|by apply Forall_forall; auto].
  injection Hparse as <-. apply Forall_forall. intros m Hm.
  pose proof (consecutive_elem _ _ _ (hr_cons _ _ _ _ (xi_history _ _ _ _ _ _ _ Hinv)) (Hsub m Hm)). lia.
Qed.

Lemma live_request num s1 s2 a b :
  alike num s1 s2 → request_ok a b → b < num →
  answers (alike num) (env_request (SeqEnv := live_seq spins o extra) s1 a b) (env_request s2 a b).
Proof using Henv Ho HL Hfit Hfinal Hpad Htotal.
  intros ((h & Hc1) & Hc2 & Ht & Hsh & Hat & v & ms & Hv & Huw & Hnum & Hdel) Hreq Hb. cbn [env_request live_seq system_env].
  rewrite Hv. cbn [mbind outcome_bind].
  destruct (underway_turns (extra (lv_requests s1)) v ms Huw) as (v1 & more & w & Hk & Huw1 & Hs).
  pose proof (deliveries_later _ _ _ _ _ _ Huw Hk Hdel) as Hdel1. rewrite Hk. unfold reading. rewrite Hc1, Hc2.
  cbn [RecoveryClient.fd_ fmap option_fmap option_map inbox].
  destruct Huw1 as [Hok1 [j Hj]].
  destruct (turns_ok o hcap n Ho HL fits_width j v1 _ Hok1) as (vf & more2 & w2 & Hj' & Hokf & _).
  rewrite Hj in Hj'. injection Hj' as <-.
  pose proof Hok1 as ((ch1 & Hinv1) & _ & Hle1). pose proof Hokf as ((chf & Hinvf) & _ & Hlef).
  rewrite (open_request (xi_history _ _ _ _ _ _ _ Hinv1) (xi_messages _ _ _ _ _ _ _ Hinv1) a b Hreq).
  rewrite (open_request (xi_history _ _ _ _ _ _ _ Hinvf) (xi_messages _ _ _ _ _ _ _ Hinvf) a b Hreq).
  pose proof (hr_cons _ _ _ _ (xi_history _ _ _ _ _ _ _ Hinvf)) as Hcons. rewrite vlen_app in Hle1.
  pose proof (vlen_nonneg more). split; cbn [fst snd].
  - split; [by eexists|]. cbn [lv_side set_client sy_ticks sy_shared sy_attempts sy_inbox sy_client lv_venue lv_plan].
    split; [done|]. split; [done|]. split; [done|]. split; [done|]. exists v1, (ms ++ more).
    split; [done|]. split; [split; [done|by exists j]|]. split; [rewrite vlen_app; lia|done].
  - f_equal. apply reply_now; [done|lia|]. rewrite vlen_app. lia.
Qed.

Lemma live_receive num s1 s2 :
  alike num s1 s2 →
  answers (alike num) (h_receive (HandlerEnv := live_handler sent spins o extra cap turns) s1)
    (h_receive (HandlerEnv := system_handler cap turns) s2) ∧
  ∀ packet ms, (h_receive (HandlerEnv := live_handler sent spins o extra cap turns) s1).2 = Datagram packet →
    parse_packet packet = Some ms →
    ∃ num', alike num' (h_receive (HandlerEnv := live_handler sent spins o extra cap turns) s1).1
      (h_receive (HandlerEnv := system_handler cap turns) s2).1 ∧
      Forall (λ m, 1 ≤ sequence_number m ≤ num') ms ∧ num' ≤ top.
Proof using Henv Ho HL Hfit Hfinal Hpad.
  intros Hal. pose proof Hal as (Hc1 & Hc2 & Ht & Hsh & Hat & v & ms & Hv & Huw & Hnum & Hdel). cbn [h_receive live_handler system_handler].
  destruct (lv_plan s1) as [|[k i] plan] eqn:Hplan; cbn [deliveries] in Hdel.
  { injection Hdel as Hin. rewrite <- Hin. cbn [fst snd]. done. }
  rewrite Hv. cbn [mbind outcome_bind].
  destruct (underway_turns k v ms Huw) as (v1 & more & w & Hk & Huw1 & Hs). rewrite Hk in Hdel |- *.
  cbn [mbind outcome_bind] in Hdel. apply bind_Ret_inv in Hdel as (rest & Hrest & Hdel).
  destruct (sent (v_env v1) !! i) as [p|] eqn:Hp; [|by destruct rest]. destruct rest as [ps|]; [|done].
  injection Hdel as Hin. rewrite <- Hin. cbn [fst snd]. pose proof (vlen_nonneg more).
  assert (∀ num', num' ≤ 1001 + vlen (ms ++ more) → alike num' (mkWorld (lv_side s1) (Ret v1) plan (lv_requests s1))
    (mkSystem (sy_client s2) (sy_ticks s2) ps (sy_shared s2) (sy_attempts s2))) as Hnext.
  { intros num' Hle. do 5 (split; [done|]). by exists v1, (ms ++ more). }
  split.
  - split; [|done]. apply Hnext. rewrite vlen_app. lia.
  - intros packet payload [= <-] Hparse. exists (1001 + vlen (ms ++ more)). split; [by apply Hnext|].
    eapply packet_numbers; [apply Huw1| |done]. by eapply list_elem_of_lookup_2.
Qed.

Lemma live_coupled :
  Coupled (live E) system (s1 := live_seq spins o extra) (h1 := live_handler sent spins o extra cap turns)
    (h2 := system_handler cap turns) alike.
Proof using Henv Ho HL Hfit Hfinal Hpad Htotal.
  split.
  - intros num num' s1 s2 Hle (H1 & H2 & H3 & H4 & H5 & v & ms & Hv & Huw & Hnum & Hdel).
    do 5 (split; [done|]). exists v, ms. do 2 (split; [done|]). split; [lia|done].
  - intros num s1 s2 (H1 & H2 & H3 & H4 & H5 & Hrest). split; [|exact H3].
    split; [exact H1|]. split; [exact H2|]. split; [cbn; by rewrite H3|]. done.
  - intros num s1 s2 a b. apply live_request.
  - intros num s1 s2 ev (H1 & H2 & H3 & H4 & H5 & Hrest). cbn [h_push live_handler system_handler].
    assert (attempt cap turns (lv_side s1) ev = attempt cap turns s2 ev) as -> by (unfold attempt; by rewrite H4, H5).
    destruct (attempt cap turns s2 ev) as [[sh okk]|f]; (split; [|done]); cbn [fst snd lv_side];
      (split; [exact H1|]; split; [exact H2|]; split; [exact H3|]; split; [done|]; split; [simpl; by rewrite H5|exact Hrest]).
  - intros num s1 s2 Hal. by split.
  - intros num s1 s2 Hal. exact (proj1 (live_receive num s1 s2 Hal)).
  - intros num s1 s2 packet ms Hal. exact (proj2 (live_receive num s1 s2 Hal) packet ms).
Qed.
End coupling.

(** ** The whole system *)

Section delivered.
Context {E : Type} {env : ExchangeEnv E} {EI : E → Prop} {sent : E → list (list Z)} {spins : nat}.
Context `{Henv : !ExchangeLaws E EI sent spins}.
Context (o : Exchange.Options) (hcap n : Z) (Ho : options_ok o).
Context (HL : limits_ok (limits_of (exchange_config n))) (Hfit : 1001 + Exchange.total_messages o ≤ top).
Context (final : venue E) (going : bool) (Hfinal : v_phase final = Finished going).

(** What arrives has been sent. *)
Lemma deliveries_sent plan : ∀ v ms ps,
  underway (EI := EI) (sent := sent) (spins := spins) o hcap n final v ms →
  deliveries sent spins o plan v = Ret (Some ps) → Forall (.∈ sent (v_env final)) ps.
Proof using Henv Ho HL Hfit Hfinal.
  induction plan as [|[k i] plan IH]; intros v ms ps Hv; cbn [deliveries]; [by intros [= <-]|].
  destruct (underway_turns o hcap n Ho HL Hfit final going Hfinal k v ms Hv) as (v1 & more & w & -> & Hv1 & _).
  returns. intros (rest & Hrest & Hps)%bind_Ret_inv.
  destruct (sent (v_env v1) !! i) as [p|] eqn:Hp; [|by destruct rest]. destruct rest as [ps'|]; [|done].
  injection Hps as <-. constructor; [|by eapply IH].
  destruct (uw_end _ _ _ _ _ _ Hv1) as [j Hj].
  destruct (underway_turns o hcap n Ho HL Hfit final going Hfinal j v1 _ Hv1) as (v2 & more2 & w2 & Hj2 & _ & Hs2).
  rewrite Hj in Hj2. injection Hj2 as <-. rewrite Hs2. apply elem_of_app. left. by eapply list_elem_of_lookup_2.
Qed.
End delivered.

(** C1. The engine's book is the exchange's book, with the three processes at
    work together. The exchange publishes turn by turn; between its turns the
    network delivers datagrams that are on the wire by then, repeated, reordered or
    missing in any way that keeps the first and the last message and stays inside
    the reorder window; its recovery server answers from the history of the
    moment; the engine runs beside the handler in any interleaving that does not
    leave it out forever. Then the handler's main loop ends with everything pushed through
    the shared ring, its final wait ends, the engine leaves its loop with every message
    consumed, nothing faults, the exchange goes on to end as it would alone, and the
    engine's book and the exchange's own book answer every query alike. The history holds
    all messages, the handler expects as many as are published, both books have the same
    configuration, and no process is stopped by a signal. *)
Theorem live_mirrors_exchange {E} {env : ExchangeEnv E} {EI : E → Prop} {sent spins}
    {Henv : ExchangeLaws E EI sent spins} o hcap n fuel e b e' x' going
    window loop_fuel spin_fuel idle_ms ticks lg turns gap sleeps stamps extra plan d ds sample_capacity :
  options_ok o → length (Exchange.pad o) = 4%nat → 0 < hcap < 2 ^ 64 →
  0 < n ≤ Book.kNullOrder → EI e → sent e = [] → 0 ≤ Exchange.total_messages o ≤ hcap →
  1001 + Exchange.total_messages o ≤ top → Exchange.total_messages o < Z.of_nat fuel →
  Book.make (exchange_config n) = Ret b →
  Exchange.run fuel spins o e (Exchange.make b hcap) = Ret (e', x', going) →
  0 < window < 2 ^ 64 → 0 ≤ lg < 64 → keeps_running gap turns → (3 * gap < spin_fuel)%nat →
  500 ≤ vlen sleeps → 4 * 2 ^ lg + 5 ≤ vlen stamps → (length (d :: ds) ≤ loop_fuel)%nat →
  deliveries sent spins o plan (venue_start e (Exchange.make b hcap)) =
    Ret (Some (encode_packet (Exchange.pad o) <$> d :: ds)) →
  Forall (Forall message_ok) (d :: ds) → consecutive 1001 d → ahead window 1001 (d :: ds) →
  reached 1001 (d :: ds) = Exchange.sequence x' →
  let L := limits_of (exchange_config n) in
  ∃ s' h' v p sh sh' waited sh'' B,
    main_loop (H := live_seq spins o extra) (H0 := live_handler sent spins o extra (2 ^ lg) turns)
      loop_fuel spin_fuel (Exchange.sequence x' - 1001) idle_ms
      (mkWorld
         (mkSystem (RecoveryClient.mkClient (Some (mkLoop (HistoryStore.make hcap) []))) ticks []
            (Ret (mkShared (Channel.init (2 ^ lg) PipelineEvent_zero) (engine_start b sample_capacity))) 0)
         (Ret (venue_start e (Exchange.make b hcap))) plan 0)
      (start window true) = Ret (s', h') ∧
    lv_venue s' = Ret v ∧ (∃ k, venue_turns spins o k v = Ret (mkVenue e' x' p (Finished going))) ∧
    sy_shared (lv_side s') = Ret sh ∧
    drain_wait (2 ^ lg) sleeps 0 (shut_down sh) = Ret (sh', waited) ∧
    engine_turns (2 ^ lg) sh' stamps = Ret sh'' ∧
    Channel.at_ (channel sh'') = Channel.Exited ∧
    vlen (Channel.popped (channel sh'')) = Exchange.sequence x' - 1001 ∧
    observed L (book (consumer sh'')) B ∧ observed L (Exchange.book (Exchange.orders x')) B.
Proof.
  intros Ho Hpad Hc Hn He Hs0 Ht Hfit Hfuel Hb Hrun Hw Hlg Hfair Hsp Hsl Hst Hlf Hdel Hok Hd Hah Hre L.
  pose proof (exchange_limits_ok n Hn) as HL. destruct (run_turns spins o fuel e _ e' x' going Hrun) as (k & p & Hk).
  set (final := mkVenue e' x' p (Finished going)) in *. set (v0 := venue_start e (Exchange.make b hcap)) in *.
  destruct (make_spec _ HL) as (b2 & Hb2 & HR). rewrite Hb in Hb2. injection Hb2 as <-.
  assert (underway (EI := EI) (sent := sent) (spins := spins) o hcap n final v0 []) as Huw.
  { split; [|by exists k]. split; [|split; [split; [unfold options_ok in Ho; simpl; lia|done]|unfold vlen; simpl; lia]].
    exists []. by apply (ex_inv_start (R := sized L) (order_capacity := n) o hcap [] e b Ho Hc He Hs0 (conj HL HR)). }
  assert (Forall (λ q, encode_packet (Exchange.pad o) q ∈ sent e') (d :: ds)) as Hsent.
  { eapply (Forall_fmap (encode_packet (Exchange.pad o)) (.∈ sent e')).
    exact (deliveries_sent o hcap n Ho HL Hfit final going eq_refl plan v0 [] _ Huw Hdel). }
  destruct (system_mirrors_exchange o hcap n fuel e b e' x' going window loop_fuel spin_fuel idle_ms ticks lg turns gap
    sleeps stamps d ds sample_capacity Ho Hpad Hc Hn He Hs0 Ht Hfit Hfuel Hb Hrun Hw Hlg Hfair Hsp Hsl Hst Hlf Hsent Hok
    Hd Hah Hre) as (s2 & h' & sh & sh' & wd & sh'' & B & Hloop & Hsh & Hwait & Hturns & Hat & Hpop & Hob1 & Hob2).
  pose proof (live_coupled o hcap n Ho HL Hfit extra (2 ^ lg) turns final going eq_refl Hpad ltac:(lia)) as Hcp.
  set (world := mkWorld _ _ _ _).
  match type of Hloop with
  | main_loop _ _ _ _ ?w _ = _ =>
      assert (related (R := alike (EI := EI) (sent := sent) (spins := spins) o hcap n final) world w) as Hrel
  end.
  { exists 1001. split; [by eexists|]. do 4 (split; [done|]). exists v0, []. split; [done|]. split; [done|]. done. }
  destruct (main_loop_follows (Hc := Hcp) spin_fuel (Exchange.sequence x' - 1001) idle_ms loop_fuel world _
    (start window true) ltac:(done) Hrel _ Hloop) as ([s1 h1] & Hrun1 & num & [[Hal Hh] _]).
  cbn [fst snd] in Hal, Hh. subst h1. destruct Hal as (_ & _ & _ & Hsh1 & _ & v & ms & Hv & [_ Hend] & _).
  exists s1, h', v, p, sh, sh', wd, sh'', B. split; [exact Hrun1|]. rewrite Hsh1. done.
Qed.

(** The scripted exchange, one message in a datagram: the third datagram is
    dropped, the fourth overtakes the second, which arrives twice; a ring of two
    slots, and a turn of the exchange before every answer of its server. *)
Definition five_plan : list (nat * nat) := [(2, 0); (6, 2); (0, 1); (0, 1); (2, 3)]%nat.

Definition five_arrivals (b : Book.t) : outcome (option (list (list Z))) :=
  deliveries on_wire 1 five_options five_plan (venue_start five (Exchange.make b 8)).

Lemma five_delivered b : Book.make (exchange_config 4) = Ret b →
  five_arrivals b = Ret (Some (encode_packet [0; 0; 0; 0] <$> [[m1]; [m4]; [m2]; [m2]; [m5]])).
Proof.
  intros Hb. assert ((b ← Book.make (exchange_config 4); five_arrivals b) =
    Ret (Some (encode_packet [0; 0; 0; 0] <$> [[m1]; [m4]; [m2]; [m2]; [m5]]))) as Hrun by (vm_compute; reflexivity).
  by rewrite Hb in Hrun.
Qed.

Lemma live_mirrors_exchange_witness :
  ∃ b e' x' s' h' sh sh' waited sh'' B,
    Exchange.run 6 1 five_options five (Exchange.make b 8) = Ret (e', x', true) ∧
    main_loop (H := live_seq 1 five_options (λ _, 1%nat))
      (H0 := live_handler on_wire 1 five_options (λ _, 1%nat) 2 every_other) 5 7 5 1500
      (mkWorld
         (mkSystem (RecoveryClient.mkClient (Some (mkLoop (HistoryStore.make 8) []))) 0 []
            (Ret (mkShared (Channel.init 2 PipelineEvent_zero) (engine_start b 10))) 0)
         (Ret (venue_start five (Exchange.make b 8))) five_plan 0)
      (start 4 true) = Ret (s', h') ∧
    sy_shared (lv_side s') = Ret sh ∧
    drain_wait 2 (replicate 500 [(3, 4)]) 0 (shut_down sh) = Ret (sh', waited) ∧
    engine_turns 2 sh' (replicate 13 (5, 6)) = Ret sh'' ∧
    observed (limits_of (exchange_config 4)) (book (consumer sh'')) B ∧
    observed (limits_of (exchange_config 4)) (Exchange.book (Exchange.orders x')) B.
Proof.
  destruct five_run as (b & e' & x' & Hb & Hrun & Hwire & Hseq).
  destruct (live_mirrors_exchange (Henv := script_laws) five_options 8 4 6 five b e' x' true
    4 5 7 1500 0 1 every_other 2 (replicate 500 [(3, 4)]) (replicate 13 (5, 6)) (λ _, 1%nat) five_plan
    [m1] [[m4]; [m2]; [m2]; [m5]] 10)
    as (s' & h' & v & p & sh & sh' & w & sh'' & B & H1 & _ & _ & H2 & H3 & H4 & _ & _ & H5 & H6).
  - vm_compute. split; congruence.
  - reflexivity.
  - lia.
  - vm_compute. split; congruence.
  - exact I.
  - reflexivity.
  - vm_compute. split; congruence.
  - vm_compute. congruence.
  - vm_compute. congruence.
  - exact Hb.
  - exact Hrun.
  - lia.
  - lia.
  - exact every_other_fair.
  - simpl. lia.
  - vm_compute. congruence.
  - vm_compute. congruence.
  - simpl. lia.
  - by apply five_delivered.
  - repeat constructor; vm_compute; congruence.
  - solve_consecutive.
  - cbn [ahead]. exists 1001. split; [solve_consecutive|]. split; [vm_compute; split; congruence|]. split; [reflexivity|].
    exists 1004. split; [solve_consecutive|]. split; [vm_compute; split; congruence|]. split; [reflexivity|].
    exists 1002. split; [solve_consecutive|]. split; [vm_compute; split; congruence|]. split; [reflexivity|].
    exists 1002. split; [solve_consecutive|]. split; [vm_compute; split; congruence|]. split; [reflexivity|].
    exists 1005. split; [solve_consecutive|]. split; [vm_compute; split; congruence|]. split; [reflexivity|]. done.
  - rewrite Hseq. reflexivity.
  - rewrite Hseq in H1. exists b, e', x', s', h', sh, sh', w, sh'', B. split; [exact Hrun|]. split; [exact H1|].
    split; [exact H2|]. split; [exact H3|]. split; [exact H4|]. split; [exact H5|exact H6].
Defined.
