(* ===== verification/Report.v ===== *)
(** * What the processes print at the end

    The lines that the three mains write to standard output before they return, as
    functions of the state they end with. An integer is printed in decimal; a
    [double] is printed by the C library, which is a parameter: [rate n ns] is the
    text of [n] per second over [ns] nanoseconds with [%.0f] (0 over none), [seconds ns] that of
    [ns / 1e9] with [%.3f], and [us ns] that of [ns / 1000.0] with [%8.3f]. *)

From stdpp Require Import strings pretty sorting.
From S2P Require Import Prelude Message Wire History BookSpec BookInterface OrderBook OrderBookRep OrderBookMake.
From S2P Require Import OrderBookTheorems SequenceManager Engine EngineProperties Latency Handler Exchange.
From S2P Require Import ExchangeCorrect ExchangeProperties Recovery RaceDemo.

#[local] Open Scope string_scope.
#[local] Open Scope Z_scope.

(** [%llu], [%lld] and [%zu] *)
Definition num (z : Z) : string := pretty z.

Fixpoint spaces (n : nat) : string := match n with O => "" | S n => " " +:+ spaces n end.
(** [%-Ns] and [%Ns] *)
Definition pad_right (width : nat) (s : string) : string := s +:+ spaces (width - String.length s).
Definition pad_left (width : nat) (s : string) : string := spaces (width - String.length s) +:+ s.

Section lines.
Context (rate : Z → Z → string) (seconds : Z → string) (us : Z → string).

(** ** The handler *)

(** [seconds > 0.0] holds just when the last event came after the first. *)
Definition handler_report (h : Handler.t) : list string :=
  let stats := Seq.stats_ (Handler.sequencer h) in
  ([ "handler: packets=" +:+ num (Handler.packets_received h) +:+ " published=" +:+ num (Handler.published h) +:+
    " malformed=" +:+ num (Handler.malformed_packets h) +:+ " queue_full_spins=" +:+ num (Handler.queue_full_spins h);
    "handler: gaps=" +:+ num (Seq.gaps_detected stats) +:+ " missing=" +:+ num (Seq.missing_messages stats) +:+
    " recovery_requests=" +:+ num (Seq.recovery_requests stats) +:+ " recovered=" +:+ num (Seq.messages_recovered stats) +:+
    " unrecoverable=" +:+ num (Seq.unrecoverable stats) +:+ " duplicates=" +:+ num (Seq.duplicates stats) ] ++
  (if Handler.first_message_ns h <? Handler.last_message_ns h
   then ["handler: throughput " +:+
         rate (Handler.published h) (u64 (Handler.last_message_ns h - Handler.first_message_ns h)) +:+ " msg/s"]
   else []))%list.

(** ** The engine *)

Definition print_summary_header : list string :=
  [ pad_right 26 "stage" +:+ " " +:+ pad_left 10 "count" +:+ " " +:+ pad_left 9 "p50" +:+ " " +:+ pad_left 9 "p90" +:+
    " " +:+ pad_left 9 "p95" +:+ " " +:+ pad_left 9 "p99" +:+ " " +:+ pad_left 9 "p99.9" +:+ " " +:+ pad_left 9 "max";
    "-------------------------- ---------- --------- --------- --------- --------- --------- ---------" ].

Definition print_summary_row {double} (label : string) (s : Latency.Summary double) : string :=
  pad_right 26 label +:+ " " +:+ pad_left 10 (num (Latency.count s)) +:+ " " +:+ us (Latency.p50 s) +:+ "u " +:+
  us (Latency.p90 s) +:+ "u " +:+ us (Latency.p95 s) +:+ "u " +:+ us (Latency.p99 s) +:+ "u " +:+
  us (Latency.p999 s) +:+ "u " +:+ us (Latency.max s) +:+ "u".

Context {double : Type} (zero : double) (mean_of : list Z → double) (fused : bool).

Definition summary_row (label : string) (samples : LatencySamples) : outcome string :=
  '(_, s) ← Latency.summarize zero mean_of fused samples; Ret (print_summary_row label s).

(** The text does not mention two of the counters. *)
Definition engine_counts (s : engine Book.t) : list string :=
  [ ""; "engine: consumed " +:+ num (consumed s) +:+ " events (" +:+ num (recovered_seen s) +:+ " arrived via TCP recovery)";
    "engine: applied=" +:+ num (applied (counters s)) +:+ " unknown_order=" +:+ num (unknown_order (counters s)) +:+
    " duplicate=" +:+ num (duplicate_order (counters s)) +:+ " out_of_band=" +:+ num (out_of_band (counters s)) ].

Definition engine_quotes (b : Book.t) : outcome string :=
  bid ← Book.best_bid b;
  ask ← Book.best_ask b;
  gap ← spread b;
  Ret ("engine: best_bid=" +:+ num bid +:+ " best_ask=" +:+ num ask +:+ " spread=" +:+ num gap +:+
       " live_orders=" +:+ num (Book.live_order_count b)).

Definition engine_throughput (s : engine Book.t) : list string :=
  if first_ns s <? last_ns s
  then ["engine: consumer throughput " +:+ rate (consumed s) (u64 (last_ns s - first_ns s)) +:+ " msg/s"] else [].

Definition engine_report (s : engine Book.t) : outcome (list string) :=
  quotes ← engine_quotes (book s);
  parsed ← summary_row "udp recv -> parsed" (parse_stage (stages s));
  enqueue ← summary_row "parsed -> enqueue" (enqueue_stage (stages s));
  ring ← summary_row "ring transit" (queue_stage (stages s));
  update ← summary_row "book update" (book_stage (stages s));
  handler ← summary_row "recv -> book (handler)" (handler_to_book (stages s));
  wire ← summary_row "exchange -> book (wire)" (wire_to_book (stages s));
  Ret (engine_counts s ++ [quotes] ++ engine_throughput s ++ [""; "Per-stage latency (microseconds)"] ++
       print_summary_header ++ [parsed; enqueue; ring; update; handler; wire])%list.

(** ** The exchange *)

Definition exchange_report (x : Exchange.t Book.t) (elapsed_ns : Z) : outcome (list string) :=
  let produced := u64 (Exchange.sequence x - 1001) in
  let b := Exchange.book (Exchange.orders x) in
  bid ← Book.best_bid b;
  ask ← Book.best_ask b;
  Ret [ "exchange: published " +:+ num produced +:+ " messages in " +:+ seconds elapsed_ns +:+ " s (" +:+
        rate produced elapsed_ns +:+ " msg/s)";
        "exchange: packets sent=" +:+ num (Exchange.packets_sent x) +:+ " dropped=" +:+ num (Exchange.packets_dropped x) +:+
        " (messages dropped=" +:+ num (Exchange.messages_dropped x) +:+ ")";
        "exchange: book best_bid=" +:+ num bid +:+ " best_ask=" +:+ num ask +:+ " live_orders=" +:+
        num (Book.live_order_count b) ].

Definition recovery_report (r : RecoveryServer.t) : list string :=
  [ "exchange: recovery served " +:+ num (RecoveryServer.served_requests_ r) +:+ " requests / " +:+
    num (RecoveryServer.served_messages_ r) +:+ " messages" ].

(** ** The race demonstration *)

Definition race_report (v : RaceDemo.Verdict) : list string :=
  [ "sent=" +:+ num (RaceDemo.sent v) +:+ " received=" +:+ num (RaceDemo.received v) +:+ " lost=" +:+ num (RaceDemo.lost v) +:+
    " corrupted=" +:+ num (RaceDemo.corrupted v) +:+ " out_of_order=" +:+ num (RaceDemo.out_of_order v);
    "stalled_pushes=" +:+ num (RaceDemo.stalled_pushes v) +:+ " hit_time_budget=" +:+
    (if RaceDemo.hit_time_budget v then "yes" else "no");
    "result: " +:+ (if RaceDemo.clean v then "stream intact" else "STREAM DAMAGED") ].
End lines.

(** The last line and the exit code say the same. *)
Lemma race_report_verdict v :
  last (race_report v) = Some "result: stream intact" ↔ RaceDemo.exit_code v = 0.
Proof. unfold race_report, RaceDemo.exit_code. by destruct (RaceDemo.clean v). Qed.

(** ** The numbers in the exchange's report *)

(** After any run the exchange prints the number of messages it has numbered, the
    datagrams it has sent and dropped and the messages in the dropped ones, and the best
    prices and the number of orders of the book that the messages describe. *)
Lemma exchange_report_exact rate seconds {E} {env : ExchangeEnv E} {EI : E → Prop} {sent spins}
    {Henv : ExchangeLaws E EI sent spins} o cap n fuel e elapsed_ns :
  options_ok o → 0 < cap < 2 ^ 64 → 0 < n ≤ Book.kNullOrder → EI e → 0 ≤ Exchange.total_messages o →
  1001 + Exchange.total_messages o < 2 ^ 64 → Exchange.total_messages o < Z.of_nat fuel →
  let L := limits_of (exchange_config n) in
  ∃ b e' x' going ms chunks bid ask,
    let B := (replay L ms []).1 in
    Book.make (exchange_config n) = Ret b ∧
    Exchange.run fuel spins o e (Exchange.make b cap) = Ret (e', x', going) ∧
    append_all (HistoryStore.make cap) ms = Ret (Exchange.history x') ∧
    sent e' = (sent e ++ (encode_packet (Exchange.pad o) <$> kept true chunks))%list ∧
    ((no_side true B ∧ bid = Book.kNoPrice) ∨ is_best true bid B) ∧
    ((no_side false B ∧ ask = Book.kNoPrice) ∨ is_best false ask B) ∧
    exchange_report rate seconds x' elapsed_ns = Ret
      [ "exchange: published " +:+ num (vlen ms) +:+ " messages in " +:+ seconds elapsed_ns +:+ " s (" +:+
        rate (vlen ms) elapsed_ns +:+ " msg/s)";
        "exchange: packets sent=" +:+ num (u64 (vlen (kept true chunks))) +:+ " dropped=" +:+
        num (u64 (vlen (kept false chunks))) +:+ " (messages dropped=" +:+ num (u64 (vlen (concat (kept false chunks)))) +:+ ")";
        "exchange: book best_bid=" +:+ num bid +:+ " best_ask=" +:+ num ask +:+ " live_orders=" +:+
        num (Z.of_nat (length B)) ].
Proof.
  intros Ho Hc Hn He Ht Hfit Hfuel L.
  destruct (array_run o cap n fuel e Ho Hc Hn He Ht Hfit Hfuel)
    as (b & e' & x' & going & ms & chunks & Hb & Hrun & Hinv & Hle & _). pose proof (vlen_nonneg ms).
  destruct Hinv as [_ [[HL HR] _ _ _ _ _] _ _ Ha Hseq _ _ _ _ _ Hsent Hps Hpd Hmd].
  pose proof (refines_observed _ _ _ HR) as HO.
  destruct (ob_bid _ _ _ HO) as (bid & Hbid & Hb'), (ob_ask _ _ _ HO) as (ask & Hask & Ha').
  exists b, e', x', going, ms, chunks, bid, ask. repeat (split; [assumption|]).
  unfold exchange_report. rewrite Hbid, Hask. returns.
  by rewrite Hseq, Hps, Hpd, Hmd, (ob_live _ _ _ HO), Z.add_simpl_l, u64_small by lia.
Qed.

(** ** The numbers in the engine's report *)

(** After [k] calls of [add] on a buffer for [cap] samples. *)
Record sampled (cap k : Z) (s : LatencySamples) : Prop := {
  sa_len : vlen (samples_ s) = Z.min k cap;
  sa_cap : capacity_ s = cap;
  sa_dropped : dropped_ s = u64 (k - Z.min k cap)
}.

Lemma sampled_add cap k s x : sampled cap k s → sampled cap (k + 1) (samples_add s x).
Proof.
  intros [Hl Hc Hd]. unfold samples_add. rewrite Hl, Hc. destruct (Z.ltb_spec (Z.min k cap) cap).
  - split; cbn [samples_ capacity_ dropped_]; [rewrite vlen_snoc, Hl; lia|done|].
    by rewrite Hd, !Z.min_l, !Z.sub_diag by lia.
  - split; cbn [samples_ capacity_ dropped_]; [rewrite Hl; lia|done|]. rewrite Hd, u64_succ, !Z.min_r by lia.
    by replace (k + 1 - cap) with (k - cap + 1) by lia.
Qed.

Definition recovered_total (evs : list (PipelineEvent * (Z * Z))) : Z := total (λ e, ev_recovered e.1) evs.

Record staged (cap k : Z) (s : Stages) : Prop := {
  sg_parse : sampled cap k (parse_stage s);
  sg_enqueue : sampled cap k (enqueue_stage s);
  sg_queue : sampled cap k (queue_stage s);
  sg_book : sampled cap k (book_stage s);
  sg_handler : sampled cap k (handler_to_book s);
  sg_wire : vlen (samples_ (wire_to_book s)) ≤ k
}.

Lemma staged_start cap : 0 ≤ cap → staged cap 0 (stages_make cap).
Proof.
  intros Hcap. assert (sampled cap 0 (samples_make cap)) as Hs.
  { split; cbn; [unfold vlen; simpl; lia|done|]. by rewrite Z.min_l by lia. }
  by split; try exact Hs.
Qed.

Lemma on_events_staged cap evs : ∀ (s s' : engine Book.t) k r,
  on_events s evs = Ret s' → staged cap k (stages s) → recovered_seen s = u64 r →
  staged cap (k + vlen evs) (stages s') ∧ recovered_seen s' = u64 (r + recovered_total evs).
Proof.
  induction evs as [|[ev [t3 t4]] evs IH]; intros s s' k r; cbn [on_events].
  { intros [= <-] Hs Hr. by rewrite !Z.add_0_r. }
  intros (s1 & Hev & Hrun)%bind_Ret_inv Hs Hr. unfold on_event in Hev. apply bind_Ret_inv in Hev as ([b c] & _ & [= <-]).
  rewrite vlen_cons. replace (k + (vlen evs + 1)) with (k + 1 + vlen evs) by lia.
  unfold recovered_total. cbn [total foldr fst]. rewrite Z.add_assoc.
  eapply IH; [exact Hrun| |].
  - destruct Hs as [H1 H2 H3 H4 H5 H6]. split; cbn [stages sample_stages parse_stage enqueue_stage queue_stage book_stage
      handler_to_book wire_to_book]; auto using sampled_add.
    destruct (_ && _); [|lia]. unfold samples_add. destruct (_ <? _); cbn [samples_]; [rewrite vlen_snoc|]; lia.
  - cbn [recovered_seen]. rewrite Hr. unfold u64. by rewrite Zplus_mod_idemp_l.
Qed.

Lemma summarize_returns {double} (zero : double) mean_of fused s :
  vlen (samples_ s) < 2 ^ 64 →
  ∃ s' r, Latency.summarize zero mean_of fused s = Ret (s', r) ∧ Latency.count r = vlen (samples_ s).
Proof.
  intros Hlen. destruct (samples_ s) as [|x l] eqn:E.
  - unfold Latency.summarize. rewrite E. by eexists _, _.
  - destruct (Latency.summarize_reads zero mean_of fused s) as (lo & a & b & c & d & e & hi & Hrun & _);
      [by rewrite E|by rewrite E|]. eexists _, _. split; [exact Hrun|]. cbn [Latency.count].
    rewrite <- E. unfold vlen. f_equal. apply Permutation_length, merge_sort_Permutation.
Qed.

(** As many samples as the buffer has room for: none is dropped, and all are summarized. *)
Lemma sampled_full k s : sampled k k s → k < 2 ^ 64 → ∀ {double} (zero : double) mean_of fused,
  ∃ s' r, Latency.summarize zero mean_of fused s = Ret (s', r) ∧ Latency.count r = k ∧ dropped_ s = 0.
Proof.
  intros [Hl _ Hd] Hk double zero mean_of fused. rewrite Z.min_id in *.
  destruct (summarize_returns zero mean_of fused s ltac:(lia)) as (s' & r & Hrun & Hc).
  exists s', r. split; [done|]. split; [lia|]. by rewrite Hd, Z.sub_diag.
Qed.

(** *** The samples of each stage *)

(** A buffer for [cap] samples after the values [xs]. *)
Definition recorded (cap : Z) (xs : list Z) : LatencySamples :=
  mkSamples (take (Z.to_nat cap) xs) cap (u64 (vlen xs - Z.min (vlen xs) cap)).

Lemma recorded_add cap xs x : 0 ≤ cap → samples_add (recorded cap xs) x = recorded cap (xs ++ [x]).
Proof.
  intros Hcap. unfold samples_add, recorded. cbn [samples_ capacity_ dropped_]. rewrite vlen_snoc.
  assert (vlen (take (Z.to_nat cap) xs) = Z.min (vlen xs) cap) as -> by (unfold vlen; rewrite length_take; lia).
  pose proof (vlen_nonneg xs) as Hx. destruct (Z.ltb_spec (Z.min (vlen xs) cap) cap).
  - rewrite !take_ge by (rewrite ?length_app; unfold vlen in *; simpl; lia). f_equal. f_equal. lia.
  - rewrite take_app_le by (unfold vlen in *; lia). f_equal. rewrite u64_succ. f_equal. lia.
Qed.

(** An event with the readings of the clock around the update of the book. *)
#[local] Abbreviation timed_event := (PipelineEvent * (Z * Z))%type.

Definition parse_ns (e : timed_event) : Z := u64 (ev_t1_parsed e.1 - ev_t0_recv e.1).
Definition enqueue_ns (e : timed_event) : Z := u64 (t2_enqueue e.1 - ev_t1_parsed e.1).
Definition ring_ns (e : timed_event) : Z := u64 (e.2.1 - t2_enqueue e.1).
Definition update_ns (e : timed_event) : Z := u64 (e.2.2 - e.2.1).
Definition handler_ns (e : timed_event) : Z := u64 (e.2.2 - ev_t0_recv e.1).
Definition wire_ns (e : timed_event) : Z := u64 (e.2.2 - timestamp_ns (msg e.1)).
(** The exchange has stamped it, and not later than it was applied. *)
Definition wire_timed (e : timed_event) : Prop := timestamp_ns (msg e.1) ≠ 0 ∧ timestamp_ns (msg e.1) < e.2.2.
#[local] Instance wire_timed_dec e : Decision (wire_timed e).
Proof. unfold wire_timed. apply _. Defined.

(** The values that each row of the table is over, in the order of the rows. *)
Definition row_values (evs : list timed_event) : list (list Z) :=
  [ parse_ns <$> evs; enqueue_ns <$> evs; ring_ns <$> evs; update_ns <$> evs; handler_ns <$> evs;
    wire_ns <$> filter wire_timed evs ].

Definition stages_of (cap : Z) (evs : list timed_event) : Stages :=
  mkStages (recorded cap (wire_ns <$> filter wire_timed evs)) (recorded cap (parse_ns <$> evs))
    (recorded cap (enqueue_ns <$> evs)) (recorded cap (ring_ns <$> evs)) (recorded cap (update_ns <$> evs))
    (recorded cap (handler_ns <$> evs)).

Lemma stages_of_add cap evs ev t3 t4 : 0 ≤ cap →
  sample_stages (stages_of cap evs) ev t3 t4 = stages_of cap (evs ++ [(ev, (t3, t4))]).
Proof.
  intros Hcap. unfold sample_stages, stages_of. cbn [wire_to_book parse_stage enqueue_stage queue_stage book_stage handler_to_book].
  rewrite !recorded_add by done. rewrite filter_app, !fmap_app. f_equal.
  destruct (Z.eqb_spec (timestamp_ns (msg ev)) 0) as [E|E], (Z.ltb_spec (timestamp_ns (msg ev)) t4) as [E'|E']; cbn [negb andb];
    [rewrite filter_cons_False by (intros [H1 H2]; cbn in *; lia); by rewrite app_nil_r..
    |rewrite filter_cons_True by (by split)|rewrite filter_cons_False by (intros [H1 H2]; cbn in *; lia); by rewrite app_nil_r].
  done.
Qed.

Lemma on_events_stages cap (evs' : list timed_event) : 0 ≤ cap → ∀ (s s' : engine Book.t) evs,
  on_events s evs' = Ret s' → stages s = stages_of cap evs → stages s' = stages_of cap (evs ++ evs').
Proof.
  intros Hcap. induction evs' as [|[ev [t3 t4]] evs' IH]; intros s s' evs; cbn [on_events].
  { intros [= <-] ->. by rewrite app_nil_r. }
  intros (s1 & Hev & Hrun)%bind_Ret_inv Hs. unfold on_event in Hev. apply bind_Ret_inv in Hev as ([b c] & _ & [= <-]).
  rewrite cons_middle, app_assoc. eapply IH; [exact Hrun|]. cbn [stages]. rewrite Hs. by apply stages_of_add.
Qed.

Lemma recorded_summary {double} (zero : double) mean_of fused cap xs : vlen xs < 2 ^ 64 → 0 ≤ cap →
  ∃ s' r, Latency.summarize zero mean_of fused (recorded cap xs) = Ret (s', r) ∧ Latency.count r = Z.min (vlen xs) cap.
Proof.
  intros Hlen Hcap. assert (vlen (samples_ (recorded cap xs)) = Z.min (vlen xs) cap) as Hl.
  { unfold recorded, vlen. cbn [samples_]. rewrite length_take. lia. }
  rewrite <- Hl. apply summarize_returns. lia.
Qed.

(** A quote is determined by the orders. *)
Definition quoted (sd : bool) (B : list aorder) (p : Z) : Prop := (no_side sd B ∧ p = Book.kNoPrice) ∨ is_best sd p B.

Lemma quoted_unique sd B p p' : quoted sd B p → quoted sd B p' → p' = p.
Proof.
  intros [[Hno ->]|[(o & Ho & Hs & Hp) Hle]] [[Hno' ->]|[(o' & Ho' & Hs' & Hp') Hle']].
  - done.
  - by destruct (Hno o' Ho').
  - by destruct (Hno' o Ho).
  - specialize (Hle o' Ho' Hs'). specialize (Hle' o Ho Hs). destruct sd; lia.
Qed.

(** C15. The engine's report is what it consumed. After any events on an empty book for
    which the difference of the quotes (with [kNoPrice] for an empty side) is an
    [int64_t] (it is for an empty book and for quotes of 63 bits, it is not when one side
    is empty and the other has a positive price) the report is printed without
    fault: it counts the events, those that came by recovery and the outcomes of the
    messages, quotes the best prices, the spread and the number of orders of the book that the
    messages describe, and the row of each stage is the summary of the times that stage took,
    event by event, up to the capacity of its buffer (for the last row, of the events with
    a time stamp of the exchange before the update). *)
Theorem engine_report_exact {double} rate us (zero : double) mean_of fused c evs cap bid ask :
  let L := limits_of c in
  let ms := (λ e, msg e.1) <$> evs in
  let B := (replay L ms []).1 in
  let rs := (replay L ms []).2 in
  limits_ok L → Forall (λ e, quantity_ok (msg e.1)) evs → vlen evs < 2 ^ 64 → 0 ≤ cap →
  quoted true B bid → quoted false B ask → int64_min ≤ ask - bid ≤ int64_max →
  ∃ b s (parsed enqueue ring update handler wire : Latency.Summary double),
    Book.make c = Ret b ∧ on_events (engine_start b cap) evs = Ret s ∧
    engine_report rate us zero mean_of fused s = Ret (
      [ ""; "engine: consumed " +:+ num (vlen evs) +:+ " events (" +:+ num (u64 (recovered_total evs)) +:+
        " arrived via TCP recovery)";
        "engine: applied=" +:+ num (u64 (tally Ok rs)) +:+ " unknown_order=" +:+ num (u64 (tally UnknownOrder rs)) +:+
        " duplicate=" +:+ num (u64 (tally DuplicateOrder rs)) +:+ " out_of_band=" +:+ num (u64 (tally PriceOutOfBand rs));
        "engine: best_bid=" +:+ num bid +:+ " best_ask=" +:+ num ask +:+ " spread=" +:+ num (ask - bid) +:+
        " live_orders=" +:+ num (Z.of_nat (length B)) ] ++ engine_throughput rate s ++
      [""; "Per-stage latency (microseconds)"] ++ print_summary_header ++
      [ print_summary_row us "udp recv -> parsed" parsed; print_summary_row us "parsed -> enqueue" enqueue;
        print_summary_row us "ring transit" ring; print_summary_row us "book update" update;
        print_summary_row us "recv -> book (handler)" handler; print_summary_row us "exchange -> book (wire)" wire ])%list ∧
    Forall2 (λ xs r, (∃ s', Latency.summarize zero mean_of fused (recorded cap xs) = Ret (s', r)) ∧
                     Latency.count r = Z.min (vlen xs) cap)
      (row_values evs) [parsed; enqueue; ring; update; handler; wire].
Proof.
  intros L ms B rs HL Hq Hlen Hcap Hbid Hask Hgap. pose proof (vlen_nonneg evs).
  destruct (engine_run_full c evs cap HL Hq) as (b & s & Hb & Hrun & HO & Hcnt & Hcons). fold L ms B rs in HO, Hcnt.
  destruct (on_events_staged cap evs _ s 0 0 Hrun (staged_start cap Hcap) eq_refl) as [_ Hrec]. rewrite Z.add_0_l in Hrec.
  assert (stages s = stages_of cap evs) as Hst.
  { apply (on_events_stages cap evs Hcap (engine_start b cap) s []); [exact Hrun|].
    cbn. unfold stages_of, stages_make, recorded, samples_make. cbn. unfold vlen. simpl. by rewrite take_nil, Z.min_l by lia. }
  assert (∀ xs, vlen xs ≤ vlen evs → ∃ s' r, Latency.summarize zero mean_of fused (recorded cap xs) = Ret (s', r) ∧
    Latency.count r = Z.min (vlen xs) cap) as Hsum by (intros; apply recorded_summary; lia).
  destruct (Hsum (parse_ns <$> evs)) as (s1 & r1 & E1 & C1); [by rewrite vlen_fmap|].
  destruct (Hsum (enqueue_ns <$> evs)) as (s2 & r2 & E2 & C2); [by rewrite vlen_fmap|].
  destruct (Hsum (ring_ns <$> evs)) as (s3 & r3 & E3 & C3); [by rewrite vlen_fmap|].
  destruct (Hsum (update_ns <$> evs)) as (s4 & r4 & E4 & C4); [by rewrite vlen_fmap|].
  destruct (Hsum (handler_ns <$> evs)) as (s5 & r5 & E5 & C5); [by rewrite vlen_fmap|].
  destruct (Hsum (wire_ns <$> filter wire_timed evs)) as (s6 & r6 & E6 & C6).
  { rewrite vlen_fmap. unfold vlen. apply inj_le, length_filter. }
  destruct (ob_bid _ _ _ HO) as (bid' & Hbid' & Hb'), (ob_ask _ _ _ HO) as (ask' & Hask' & Ha').
  rewrite (quoted_unique _ _ _ _ Hbid Hb') in Hbid'. rewrite (quoted_unique _ _ _ _ Hask Ha') in Hask'.
  exists b, s, r1, r2, r3, r4, r5, r6. split; [done|]. split; [done|]. split; [|repeat constructor; eauto].
  unfold engine_report, engine_quotes, spread, summary_row. rewrite Hst. unfold stages_of.
  cbn [wire_to_book parse_stage enqueue_stage queue_stage book_stage handler_to_book].
  rewrite Hbid', Hask', E1, E2, E3, E4, E5, E6. returns.
  rewrite i64_ok by (unfold int64_min, int64_max in Hgap; lia). returns. unfold engine_counts.
  rewrite Hcons, (u64_small (vlen evs)), Hrec, (ob_live _ _ _ HO) by lia.
  pose proof (Hcnt Ok) as G1. pose proof (Hcnt UnknownOrder) as G2. pose proof (Hcnt DuplicateOrder) as G3.
  pose proof (Hcnt PriceOutOfBand) as G4. cbn [counter_of] in G1, G2, G3, G4. by rewrite G1, G2, G3, G4.
Qed.

(** An order on each side, one of them recovered, and a repeated cancel. *)
Definition report_events : list (PipelineEvent * (Z * Z)) :=
  [ (mkEvent (mkMessage 1 0 7 101 5 0 Add Buy 0) 1 2 3 0, (4, 5)); (mkEvent (mkMessage 2 0 8 103 6 0 Add Sell 0) 1 2 3 1, (6, 9));
    (mkEvent (mkMessage 3 0 9 0 0 0 Cancel Buy 0) 2 2 4 0, (9, 11)) ].

Lemma engine_report_exact_witness :
  ∃ b s rows,
    Book.make (Book.mkConfig 100 103 4) = Ret b ∧ on_events (engine_start b 10) report_events = Ret s ∧
    engine_report (λ _ _, "5") (λ _, "    0.001") 0 (λ _, 0) false s = Ret (
      [ ""; "engine: consumed 3 events (1 arrived via TCP recovery)";
        "engine: applied=2 unknown_order=1 duplicate=0 out_of_band=0";
        "engine: best_bid=101 best_ask=103 spread=2 live_orders=2"; "engine: consumer throughput 5 msg/s";
        ""; "Per-stage latency (microseconds)" ] ++ rows)%list.
Proof.
  destruct (engine_report_exact (λ _ _, "5") (λ _, "    0.001") 0 (λ _, 0) false (Book.mkConfig 100 103 4) report_events 10 101 103)
    as (b & s & r1 & r2 & r3 & r4 & r5 & r6 & Hb & Hrun & Htext & _).
  - repeat split; vm_compute; congruence.
  - repeat constructor; vm_compute; congruence.
  - reflexivity.
  - lia.
  - right. split; [exists (mkAOrder 7 Buy 101 5); split; [vm_compute; constructor|done]|].
    vm_compute. intros o Ho. apply elem_of_cons in Ho as [->|Ho]; [discriminate|].
    apply elem_of_cons in Ho as [->|Ho]; [discriminate|]. by apply elem_of_nil in Ho.
  - right. split; [exists (mkAOrder 8 Sell 103 6); split; [vm_compute; repeat constructor|done]|].
    vm_compute. intros o Ho. apply elem_of_cons in Ho as [->|Ho]; [discriminate|].
    apply elem_of_cons in Ho as [->|Ho]; [discriminate|]. by apply elem_of_nil in Ho.
  - vm_compute. split; congruence.
  - exists b, s. eexists. split; [exact Hb|]. split; [exact Hrun|]. rewrite Htext.
    assert (engine_throughput (λ _ _, "5") s = ["engine: consumer throughput 5 msg/s"]) as ->.
    { assert ((b ← Book.make (Book.mkConfig 100 103 4); s ← on_events (engine_start b 10) report_events;
        Ret (engine_throughput (λ _ _, "5") s)) = Ret ["engine: consumer throughput 5 msg/s"]) as Hall by (vm_compute; reflexivity).
      rewrite Hb in Hall. cbn [mbind outcome_bind] in Hall. rewrite Hrun in Hall. by injection Hall. }
    reflexivity.
Defined.
