(* ===== verification/Args.v ===== *)
(** * The command line

    [Args] of [include/llte/args.hpp]: the constructor and the lookups, with
    [strtoll] of the C library written out for base 10; and the options that the
    mains of the three processes read, with their casts. [strtod] is a parameter. *)

From stdpp Require Import strings.
From Stdlib Require Import Ascii.
From S2P Require Import Prelude Message.

#[local] Open Scope string_scope.
#[local] Open Scope Z_scope.

Module Args.

Abbreviation values := (gmap string string).

(** [token.rfind("--", 0) == 0], then [token.erase(0, 2)]. *)
Definition strip_dashes (token : string) : option string :=
  match token with
  | String "-" (String "-" rest) => Some rest
  | _ => None
  end.

(** [token.find('=')], and the two substrings. *)
Fixpoint split_equals (token : string) : option (string * string) :=
  match token with
  | "" => None
  | String c rest =>
      if decide (c = "="%char) then Some ("", rest)
      else match split_equals rest with
      | Some (k, v) => Some (String c k, v)
      | None => None
      end
  end.

(** [argv[i][0] != '-'], where an empty argument has its terminator there. *)
Definition is_value (token : string) : bool :=
  match token with
  | String "-" _ => false
  | _ => true
  end.

(** The loop of the constructor from an index on; [argv] without the name of the
    program. *)
Fixpoint parse (argv : list string) (values_ : values) : values :=
  match argv with
  | [] => values_
  | token :: rest =>
      match strip_dashes token with
      | None => parse rest values_
      | Some token =>
          match split_equals token with
          | Some (k, v) => parse rest (<[k := v]> values_)
          | None =>
              match rest with
              | value :: rest' =>
                  if is_value value then parse rest' (<[token := value]> values_)
                  else parse rest (<[token := "1"]> values_)
              | [] => <[token := "1"]> values_
              end
          end
      end
  end.

Definition args (argv : list string) : values := parse argv ∅.

Definition has (a : values) (key : string) : bool := bool_decide (is_Some (a !! key)).

Definition str (a : values) (key fallback : string) : string := default fallback (a !! key).

(** ** [strtoll] *)

Definition digit_of (c : ascii) : option Z :=
  let n := Z.of_nat (nat_of_ascii c) - 48 in
  if (0 <=? n) && (n <=? 9) then Some n else None.

(** The value of the leading digits. *)
Fixpoint read_digits (s : string) (acc : Z) : Z :=
  match s with
  | "" => acc
  | String c rest =>
      match digit_of c with
      | Some d => read_digits rest (acc * 10 + d)
      | None => acc
      end
  end.

Definition is_space (c : ascii) : bool :=
  let n := Z.of_nat (nat_of_ascii c) in (n =? 32) || ((9 <=? n) && (n <=? 13)).

Fixpoint skip_spaces (s : string) : string :=
  match s with
  | String c rest => if is_space c then skip_spaces rest else s
  | "" => s
  end.

(** Out of range, the nearest end of the type; without digits, zero. *)
Definition strtoll (s : string) : Z :=
  let n := match skip_spaces s with
           | String "-" rest => - read_digits rest 0
           | String "+" rest => read_digits rest 0
           | s => read_digits s 0
           end in
  Z.max int64_min (Z.min int64_max n).

Definition integer (a : values) (key : string) (fallback : Z) : Z :=
  match a !! key with
  | Some text => strtoll text
  | None => fallback
  end.

Definition real {double} (strtod : string → double) (a : values) (key : string) (fallback : double) : double :=
  match a !! key with
  | Some text => strtod text
  | None => fallback
  end.

(** [static_cast<int>] of a [long long]. *)
Definition to_int (z : Z) : Z := (z + 2 ^ 31) mod 2 ^ 32 - 2 ^ 31.

(** ** The options of the processes *)

Definition kDefaultMulticastGroup : string := "239.1.1.1".
Definition kDefaultInterface : string := "127.0.0.1".
Definition kDefaultMulticastPort : Z := 30001.
Definition kDefaultRecoveryPort : Z := 30002.

Record HandlerOptions := mkHandlerOptions {
  h_group : string;
  h_port : Z;
  h_interface_ip : string;
  h_recovery_host : string;
  h_recovery_port : Z;
  h_shm_name : string;
  h_expect : Z;
  h_idle_ms : Z;
  h_reorder : Z;
  h_cpu : Z;
  h_use_recovery : bool;
  h_quiet : bool
}.

Definition handler_options (a : values) : HandlerOptions :=
  mkHandlerOptions
    (str a "group" kDefaultMulticastGroup)
    (u16 (integer a "port" kDefaultMulticastPort))
    (str a "interface" kDefaultInterface)
    (str a "recovery-host" "127.0.0.1")
    (u16 (integer a "recovery-port" kDefaultRecoveryPort))
    (str a "shm" "/llte_feed")
    (u64 (integer a "expect" 0))
    (to_int (integer a "idle-ms" 1500))
    (u64 (integer a "reorder" (Z.shiftl 1 16)))
    (to_int (integer a "cpu" (-1)))
    (negb (has a "no-recovery"))
    (has a "quiet").

Record EngineOptions := mkEngineOptions {
  e_shm_name : string;
  e_min_price : Z;
  e_max_price : Z;
  e_max_orders : Z;
  e_sample_capacity : Z;
  e_csv_path : string;
  e_cpu : Z;
  e_attach_timeout_ms : Z;
  e_quiet : bool
}.

Definition engine_options (a : values) : EngineOptions :=
  mkEngineOptions
    (str a "shm" "/llte_feed")
    (integer a "min-price" 18250)
    (integer a "max-price" 19250)
    (u64 (integer a "max-orders" (Z.shiftl 1 20)))
    (u64 (integer a "samples" 2000000))
    (str a "csv" "")
    (to_int (integer a "cpu" (-1)))
    (to_int (integer a "attach-timeout-ms" 10000))
    (has a "quiet").

Record ExchangeOptions (double : Type) := mkExchangeOptions {
  x_group : string;
  x_port : Z;
  x_recovery_port : Z;
  x_interface_ip : string;
  x_total_messages : Z;
  x_rate_per_second : Z;
  x_batch : Z;
  x_drop_rate : double;
  x_seed : Z;
  x_history_capacity : Z;
  x_start_delay_ms : Z;
  x_linger_ms : Z;
  x_cpu : Z;
  x_quiet : bool
}.
Arguments mkExchangeOptions {double}.

(** [batch] before its two clamps. *)
Definition exchange_options {double} (strtod : string → double) (zero : double) (a : values)
    : ExchangeOptions double :=
  mkExchangeOptions
    (str a "group" kDefaultMulticastGroup)
    (u16 (integer a "port" kDefaultMulticastPort))
    (u16 (integer a "recovery-port" kDefaultRecoveryPort))
    (str a "interface" kDefaultInterface)
    (u64 (integer a "messages" 200000))
    (u64 (integer a "rate" 0))
    (u16 (integer a "batch" 1))
    (real strtod a "drop-rate" zero)
    (u64 (integer a "seed" 42))
    (u64 (integer a "history" (Z.shiftl 1 20)))
    (to_int (integer a "start-delay-ms" 0))
    (to_int (integer a "linger-ms" 2000))
    (to_int (integer a "cpu" (-1)))
    (has a "quiet").

(** [pin_to_cpu]: [setaffinity] is the answer of the system. *)
Definition pin_to_cpu (setaffinity : Z → bool) (cpu : Z) : bool :=
  if cpu <? 0 then true else setaffinity cpu.

(** ** Writing a command line *)

Inductive setting :=
  | Joined (key value : string)       (* --key=value *)
  | Detached (key value : string)     (* --key value *)
  | Flag (key : string).              (* --key *)

Definition dashed (s : string) : string := String "-" (String "-" s).

Definition render (s : setting) : list string :=
  match s with
  | Joined k v => [dashed (k +:+ "=" +:+ v)]
  | Detached k v => [dashed k; v]
  | Flag k => [dashed k]
  end.

Definition apply_setting (a : values) (s : setting) : values :=
  match s with
  | Joined k v | Detached k v => <[k := v]> a
  | Flag k => <[k := "1"]> a
  end.

(** A key has no equals sign; a detached value does not start with a dash. *)
Definition setting_ok (s : setting) : Prop :=
  match s with
  | Joined k _ | Flag k => split_equals k = None
  | Detached k v => split_equals k = None ∧ is_value v = true
  end.

(** Decimal notation. *)
Definition digit_char (d : Z) : ascii := ascii_of_nat (Z.to_nat (d + 48)).

Fixpoint print_digits (fuel : nat) (n : Z) (tail : string) : string :=
  match fuel with
  | O => tail
  | S fuel =>
      let s := String (digit_char (n mod 10)) tail in
      if n <? 10 then s else print_digits fuel (n / 10) s
  end.

Definition print (z : Z) : string :=
  if z <? 0 then String "-" (print_digits 20 (- z) "") else print_digits 20 z "".
End Args.
Import Args.

(** ** Settings are read back *)

Lemma split_equals_joined k v : split_equals k = None → split_equals (k +:+ "=" +:+ v) = Some (k, v).
Proof.
  induction k as [|c k IH]; simpl; [done|]. case_decide; [done|].
  destruct (split_equals k) as [[]|]; [done|]. intros _. by rewrite IH.
Qed.

Lemma parse_settings ss : ∀ a,
  Forall setting_ok ss → parse (concat (render <$> ss)) a = foldl apply_setting a ss.
Proof.
  induction ss as [|s ss IH]; intros a Hok; [done|]. apply Forall_cons in Hok as [Hs Hok].
  rewrite fmap_cons. simpl concat. destruct s as [k v|k v|k]; simpl in Hs |- *.
  - rewrite split_equals_joined by done. by apply IH.
  - destruct Hs as [Hk Hv]. rewrite Hk, Hv. by apply IH.
  - rewrite Hs. specialize (IH (<[k := "1"]> a) Hok).
    destruct (concat (render <$> ss)) as [|next rest] eqn:Hc; [exact IH|].
    assert (is_value next = false) as ->; [|exact IH].
    destruct ss as [|[]]; simpl in Hc; [done|..]; by injection Hc as <- _.
Qed.

Lemma digit_round d : 0 ≤ d < 10 → digit_of (digit_char d) = Some d.
Proof.
  assert (Forall (λ d, digit_of (digit_char d) = Some d) (seqZ 0 10)) as HF by (vm_compute; repeat constructor).
  rewrite Forall_forall in HF. intros Hd. apply HF, elem_of_seqZ. lia.
Qed.

Lemma read_print fuel : ∀ n tail, 0 ≤ n < 10 ^ Z.of_nat fuel → (0 < fuel)%nat →
  read_digits (print_digits fuel n tail) 0 = read_digits tail n.
Proof.
  induction fuel as [|fuel IH]; intros n tail Hn Hpos; [lia|]. cbn [print_digits].
  pose proof (Z.mod_pos_bound n 10 ltac:(lia)) as Hm. pose proof (Z.div_mod n 10 ltac:(lia)) as Hdm.
  destruct (Z.ltb_spec n 10).
  - cbn [read_digits]. rewrite digit_round by lia. f_equal. rewrite Z.mod_small by lia. lia.
  - rewrite Nat2Z.inj_succ, Z.pow_succ_r in Hn by lia. destruct fuel as [|fuel]; [simpl in Hn; lia|].
    rewrite IH; [|split; [apply Z.div_pos; lia|apply Z.div_lt_upper_bound; lia]|lia].
    cbn [read_digits]. rewrite digit_round by lia. f_equal. lia.
Qed.

(** A number starts with a digit, so nothing is skipped and no sign is seen. *)
Definition starts_with_digit (s : string) : Prop :=
  match s with String c _ => is_Some (digit_of c) | "" => False end.

Lemma print_starts fuel : ∀ n tail,
  starts_with_digit tail ∨ (0 < fuel)%nat → starts_with_digit (print_digits fuel n tail).
Proof.
  induction fuel as [|fuel IH]; intros n tail Ht; cbn [print_digits]; [destruct Ht; [done|lia]|].
  assert (starts_with_digit (String (digit_char (n mod 10)) tail)) as Hd.
  { simpl. rewrite digit_round; [by eexists|]. apply Z.mod_pos_bound. lia. }
  destruct (n <? 10); [done|]. apply IH. by left.
Qed.

Lemma strtoll_digits s : starts_with_digit s → strtoll s = Z.max int64_min (Z.min int64_max (read_digits s 0)).
Proof.
  destruct s as [|c s]; [done|]. simpl. intros [d Hd].
  destruct c as [[] [] [] [] [] [] [] []]; try (vm_compute in Hd; congruence); done.
Qed.

Lemma strtoll_print z : int64_min ≤ z ≤ int64_max → strtoll (print z) = z.
Proof.
  unfold int64_min, int64_max. intros Hz. unfold print. destruct (Z.ltb_spec z 0).
  - change (strtoll (String "-" ?s)) with (Z.max int64_min (Z.min int64_max (- read_digits s 0))).
    rewrite read_print by (simpl; lia). unfold int64_min, int64_max. simpl read_digits. lia.
  - rewrite strtoll_digits by (apply print_starts; right; lia). rewrite read_print by (simpl; lia).
    unfold int64_min, int64_max. simpl read_digits. lia.
Qed.

Lemma parse_detached_dash k s (a : values) :
  split_equals k = None → starts_with_digit s → parse [dashed k; String "-" s] a = <[k := "1"]> a.
Proof.
  intros Hk Hs. destruct s as [|c s]; [done|]. destruct Hs as [d Hd].
  simpl. rewrite Hk. destruct c as [[] [] [] [] [] [] [] []]; try (vm_compute in Hd; congruence); done.
Qed.

(** ** Properties *)

(** C39. A command line means what it says. Written from any settings, each as
    [--key=value], [--key value] (a value that does not start with a dash) or
    [--key], it is read back as exactly those settings, a later one overriding an
    earlier one and a flag standing for ["1"]; and a number of [long long] written
    in decimal, negative ones included, is read back as that number. *)
Theorem args_roundtrip ss k z fallback :
  Forall setting_ok ss → split_equals k = None → int64_min ≤ z ≤ int64_max →
  args (concat (render <$> ss)) = foldl apply_setting ∅ ss ∧
  integer (args (concat (render <$> (ss ++ [Joined k (print z)])%list))) k fallback = z.
Proof.
  intros Hss Hk Hz. split; [by apply parse_settings|]. unfold args.
  rewrite parse_settings by (apply Forall_app; split; [done|by apply Forall_singleton]).
  rewrite foldl_app. unfold integer. simpl. rewrite lookup_insert_eq. by apply strtoll_print.
Qed.

Lemma args_roundtrip_witness :
  args ["--quiet"; "--port"; "4"; "--shm=/a=b"] = <["shm" := "/a=b"]> (<["port" := "4"]> {["quiet" := "1"]}) ∧
  integer (args ["--quiet"; "--port"; "4"; "--shm=/a=b"; "--cpu=-17"]) "cpu" 0 = -17.
Proof.
  apply (args_roundtrip [Flag "quiet"; Detached "port" "4"; Joined "shm" "/a=b"] "cpu" (-17) 0).
  - repeat constructor.
  - reflexivity.
  - vm_compute. split; congruence.
Defined.

(** C40. A negative number is not taken as a detached value: whatever the key, in
    [--key -n] the value is skipped and the option reads as ["1"], so the default
    [--cpu -1] spelled out pins the process to CPU 1. *)
Theorem detached_negative_ignored k z fallback :
  split_equals k = None → int64_min ≤ z < 0 →
  integer (args [dashed k; print z]) k fallback = 1 ∧
  h_cpu (handler_options (args ["--cpu"; "-1"])) = 1 ∧ h_cpu (handler_options (args [])) = -1.
Proof.
  intros Hk Hz. split; [|split; vm_compute; reflexivity]. unfold args, print.
  destruct (Z.ltb_spec z 0) as [_|]; [|lia].
  rewrite parse_detached_dash by (done || apply print_starts; right; lia).
  unfold integer. by rewrite lookup_insert_eq.
Qed.

Lemma detached_negative_ignored_witness :
  integer (args ["--idle-ms"; "-250"]) "idle-ms" 1500 = 1.
Proof. apply (detached_negative_ignored "idle-ms" (-250) 1500); [reflexivity|vm_compute; split; congruence]. Defined.
