(* ===== verification/RaceDemoStops.v ===== *)
(** * The fixed pipeline of the race demonstration ends

    Under a schedule that gives every thread a turn again and again, all threads of
    [run_fixed] return. The measure is the work left, which no turn increases, and
    below it the number of turns until the thread that can work gets to it. With the
    options of the command line this gives the behaviour of the program's [main]. *)

From stdpp Require Import strings.
From S2P Require Import Prelude Message SpscQueue RaceDemo RaceDemoCorrect Args.
Import RaceDemo.

#[local] Open Scope Z_scope.
#[local] Open Scope llte_scope.

(** Some ring holds an item. *)
Definition busy (Ls : list (list Item)) : bool := existsb (λ L, negb (bool_decide (L = []))) Ls.

Lemma busy_false Ls : busy Ls = false ↔ ∀ j L, Ls⟦j⟧ = Some L → L = [].
Proof.
  unfold busy. split.
  - intros Hb j L HL. apply vget_elem_of in HL. destruct (decide (L = [])) as [|Hne]; [done|].
    assert (existsb (λ L : list Item, negb (bool_decide (L = []))) Ls = true) as E; [|congruence].
    apply existsb_exists. exists L. rewrite <- list_elem_of_In. by rewrite bool_decide_false.
  - intros Hall. apply not_true_iff_false. intros (L & HL & Hne)%existsb_exists.
    rewrite <- list_elem_of_In in HL. apply vget_in in HL as [j Hj]. by rewrite (Hall j L Hj) in Hne.
Qed.

Lemma busy_drop Ls k L : 0 ≤ k → Ls⟦k⟧ = Some L →
  busy (drop (Z.to_nat k) Ls) = negb (bool_decide (L = [])) || busy (drop (Z.to_nat (k + 1)) Ls).
Proof.
  intros Hk HL. unfold vget in HL. destruct (Z.leb_spec 0 k); [|done].
  rewrite (drop_S _ _ _ HL). replace (Z.to_nat (k + 1)) with (S (Z.to_nat k)) by lia. done.
Qed.

Section stops.
Context (n per deadline : Z) (Hn : 0 ≤ n) (Hper : 0 ≤ per) (Hfit : n * per < 2 ^ 64) (Hn64 : n < 2 ^ 64)
  (Hper64 : per < 2 ^ 64).
#[local] Abbreviation left := (left per).
#[local] Abbreviation supply := (supply per).
#[local] Abbreviation inv := (inv n per).
#[local] Abbreviation cap := kQueueCapacity.
Implicit Types (w : fixed) (Ls : list (list Item)) (D : list Item).

(** ** The measure *)

Definition running (s : sequencer_pc) : Z := match s with Stopped => 0 | _ => 1 end.
Definition status w : list Z := left <$> producers w.

Definition work w Ls D : Z := supply w Ls + 2 * vlen (hand w) + vlen D + running (sequencer w).

(** Turns of the sequencer until it takes an item or stops. *)
Definition seq_rank (s : sequencer_pc) Ls : Z :=
  match s with
  | Scan k moved =>
      Z.max 0 (n - k) +
      (if busy (drop (Z.to_nat k) Ls) then 0 else if busy Ls || moved then 2 * n + 4 else n + 2)
  | Drain k drained =>
      Z.max 0 (n - k) + (if busy Ls then n + 2 else if drained then 0 else 2 * n + 4)
  | Forward _ _ _ | Stopped => 0
  end.

(** Turns of the consumer until it takes an item, or until it returns. *)
Definition con_rank (c : consumer_pc) (to_return : bool) : Z :=
  match c with
  | AtPop => if to_return then 3 else 1
  | AtDone => if to_return then 2 else 3
  | AtEmpty => if to_return then 1 else 2
  | Returned => 0
  end.

(** The sequencer has to move when nothing is downstream and no producer can send;
    the consumer, when something is downstream or nothing will come any more. *)
Definition up_to_sequencer w Ls D : Prop :=
  running (sequencer w) = 1 ∧ D = [] ∧ ∀ id, ¬ able (status w) Ls id.
Definition up_to_consumer w D : Prop := D ≠ [] ∨ running (sequencer w) = 0.
Definition rank_of_consumer w D : Z := con_rank (consumer w) (bool_decide (D = [])).

(** Turns of the threads [ts] that left the work as it was. *)
Record stutter (ts : list thread) w Ls D w' : Prop := {
  st_work : work w' Ls D = work w Ls D;
  st_status : status w' = status w;
  st_running : running (sequencer w') = running (sequencer w);
  st_sequencer : up_to_sequencer w Ls D →
    seq_rank (sequencer w') Ls ≤ seq_rank (sequencer w) Ls ∧
    (Sequencer ∈ ts → seq_rank (sequencer w') Ls < seq_rank (sequencer w) Ls);
  st_consumer : up_to_consumer w D →
    rank_of_consumer w' D ≤ rank_of_consumer w D ∧
    (Consumer ∈ ts → 0 < rank_of_consumer w D → rank_of_consumer w' D < rank_of_consumer w D);
  st_producers id : Producer id ∈ ts → ¬ able (status w) Ls id
}.

Lemma status_total w : total left (producers w) = total id (status w).
Proof using All. unfold status. by rewrite total_fmap. Qed.

Lemma producer_step w Ls D id now :
  inv w Ls D → ∃ w' Ls', turn n per deadline w (Producer id) now = Ret w' ∧ inv w' Ls' D ∧
    (work w' Ls' D < work w Ls D ∨ Ls' = Ls ∧ stutter [Producer id] w Ls D w') ∧ (consumer w = Returned → consumer w' = Returned).
Proof using All.
  intros HI. destruct (producer_turn_inv n per deadline Hn Hper Hfit Hn64 Hper64 w Ls D id now HI)
    as (w' & Ls' & Hrun & HI' & Hs & Hc & Hcase).
  exists w', Ls'. split; [exact Hrun|]. split; [done|]. split; [|congruence]. unfold work, hand. rewrite Hs.
  destruct Hcase as [Hlt|(Hst & -> & Hno)]; [left; lia|right]. split; [done|]. split.
  - unfold work, hand, RaceDemoCorrect.supply. rewrite Hs, !status_total. unfold status. by rewrite Hst.
  - done.
  - by rewrite Hs.
  - intros _. rewrite Hs. split; [lia|]. set_solver.
  - intros _. unfold rank_of_consumer. rewrite Hc. split; [lia|]. set_solver.
  - intros id' [= ->]%list_elem_of_singleton. done.
Qed.

Lemma hand_of_scan w k m : sequencer w = Scan k m → hand w = [].
Proof using All. unfold hand. by intros ->. Qed.

Lemma same_work w w' Ls D :
  producers w' = producers w → hand w' = hand w → running (sequencer w') = running (sequencer w) →
  work w' Ls D = work w Ls D.
Proof using All. unfold work, RaceDemoCorrect.supply. by intros -> -> ->. Qed.

(** A turn of the sequencer that neither takes, hands on nor stops. *)
Lemma sequencer_stutter w Ls D w' :
  producers w' = producers w → consumer w' = consumer w → hand w' = hand w →
  running (sequencer w') = running (sequencer w) →
  (up_to_sequencer w Ls D → seq_rank (sequencer w') Ls < seq_rank (sequencer w) Ls) →
  stutter [Sequencer] w Ls D w'.
Proof using All.
  intros Hp Hc Hh Hr Hrank. split.
  - by apply same_work.
  - unfold status. by rewrite Hp.
  - done.
  - intros Hup%Hrank. split; [lia|done].
  - intros _. unfold rank_of_consumer. rewrite Hc. split; [lia|]. set_solver.
  - set_solver.
Qed.

(** When no producer can send and nothing is inbound, all have finished. *)
Lemma idle_finished w Ls D :
  inv w Ls D → (∀ id, ¬ able (status w) Ls id) → busy Ls = false → finished w = n.
Proof using All.
  intros [Hdata _ _ Hfin _ _ _] Hno Hbusy. rewrite busy_false in Hbusy.
  destruct (dt_lens _ _ _ _ _ _ _ Hdata) as (HP & HL & _). rewrite vlen_fmap in HP.
  assert (Forall (λ p, is_finished p = 1) (producers w)) as Hall.
  { apply Forall_forall. intros p [j Hj]%vget_in. destruct p as [i spins|]; [exfalso|done].
    pose proof (vget_Some_range _ _ _ Hj). destruct (vget_is_Some Ls j) as [L HLj]; [lia|].
    assert ((progress per <$> producers w)⟦j⟧ = Some i) as Hi by (by rewrite vget_fmap, Hj).
    pose proof (Forall_vget _ _ _ _ (dt_range _ _ _ _ _ _ _ Hdata) Hi) as Hir. simpl in Hir.
    apply (Hno j). exists (4 * (per - i) + 1), L. unfold status. rewrite vget_fmap, Hj. rewrite (Hbusy j L HLj).
    split; [done|]. split; [by rewrite <- (Hbusy j L HLj)|]. split; [lia|]. intros _. done. }
  rewrite Hfin, <- HP. clear -Hall. induction Hall as [|p l Hp _ IH]; [done|]. rewrite vlen_cons. simpl. lia.
Qed.

Lemma scan_step w Ls D k moved now :
  inv w Ls D → sequencer w = Scan k moved →
  ∃ w' Ls', sequencer_turn n deadline w now = Ret w' ∧ inv w' Ls' D ∧ consumer w' = consumer w ∧
    (work w' Ls' D < work w Ls D ∨ Ls' = Ls ∧ stutter [Sequencer] w Ls D w').
Proof using All.
  intros HI Hs. destruct (scan_inv n per deadline Hn Hper Hfit Hn64 Hper64 w Ls D k moved now HI Hs)
    as (w' & Ls' & Hrun & HI' & Hp & Hc & Hcase).
  exists w', Ls'. split; [done|]. split; [done|]. split; [done|].
  pose proof (iv_sequencer _ _ _ _ _ HI) as Hk. unfold sequencer_ok in Hk. rewrite Hs in Hk.
  destruct (dt_lens _ _ _ _ _ _ _ (iv_data _ _ _ _ _ HI)) as (_ & HL & _).
  pose proof (hand_of_scan _ _ _ Hs) as Hh.
  destruct Hcase as [(Hlt & it & L & HLk & -> & Hs')|[(Hlt & HLk & -> & Hs')|(Hge & -> & Hs')]].
  - left. unfold work, RaceDemoCorrect.supply, hand. rewrite Hp, Hs, Hs', (total_vset _ _ _ _ _ HLk), vlen_cons.
    change (vlen [it]) with 1. change (vlen (@nil Item)) with 0. cbn [running]. lia.
  - right. split; [done|]. apply sequencer_stutter; try done; [by rewrite Hh, (hand_of_scan _ _ _ Hs')|by rewrite Hs, Hs'|].
    intros _. rewrite Hs, Hs'. simpl. rewrite (busy_drop Ls k []) by done. rewrite bool_decide_true by done.
    cbn [negb orb]. destruct (busy _); lia.
  - right. split; [done|]. assert (drop (Z.to_nat k) Ls = []) as Hdrop by (apply drop_ge; unfold vlen in HL; lia).
    apply sequencer_stutter; try done; [rewrite Hh; unfold hand; rewrite Hs'; by destruct (_ || _)|
      rewrite Hs, Hs'; by destruct (_ || _)|].
    intros (_ & _ & Hno). rewrite Hs, Hs'. cbn [seq_rank]. rewrite Hdrop. change (busy []) with false. cbn [orb].
    destruct (busy Ls) eqn:Hbusy.
    + cbn [orb]. destruct (_ || _); cbn [seq_rank]; rewrite ?drop_0, Hbusy; lia.
    + rewrite (idle_finished w Ls D HI Hno Hbusy), Z.eqb_refl. destruct moved; cbn [negb orb seq_rank]; rewrite ?drop_0, Hbusy;
        cbn [orb]; lia.
Qed.

Lemma drain_step w Ls D k drained now :
  inv w Ls D → sequencer w = Drain k drained →
  ∃ w', sequencer_turn n deadline w now = Ret w' ∧ inv w' Ls D ∧ consumer w' = consumer w ∧
    (work w' Ls D < work w Ls D ∨ stutter [Sequencer] w Ls D w').
Proof using All.
  intros HI Hs. destruct (drain_inv n per deadline Hn Hper Hfit Hn64 Hper64 w Ls D k drained now HI Hs)
    as (w' & Hrun & HI' & Hp & Hc & Hcase).
  exists w'. split; [done|]. split; [done|]. split; [done|].
  pose proof (iv_sequencer _ _ _ _ _ HI) as Hok. unfold sequencer_ok in Hok. rewrite Hs in Hok. destruct Hok as (Hk & _ & Hdr).
  destruct (dt_lens _ _ _ _ _ _ _ (iv_data _ _ _ _ _ HI)) as (_ & HL & _).
  destruct Hcase as [(Hlt & L & HLk & Hs')|(Hge & Hs')].
  - right. apply sequencer_stutter; try done; [unfold hand; by rewrite Hs, Hs'|by rewrite Hs, Hs'|].
    intros _. rewrite Hs, Hs'. cbn [seq_rank]. destruct (busy Ls) eqn:Hbusy; [lia|].
    rewrite busy_false in Hbusy. rewrite (Hbusy k L HLk), bool_decide_true, andb_true_r by done. lia.
  - destruct drained.
    + left. unfold work, RaceDemoCorrect.supply, hand. rewrite Hp, Hs, Hs'. cbn [running]. lia.
    + right. apply sequencer_stutter; try done; [unfold hand; by rewrite Hs, Hs'|by rewrite Hs, Hs'|].
      intros _. rewrite Hs, Hs'. cbn [seq_rank]. rewrite drop_0, orb_false_r. destruct (busy Ls); lia.
Qed.

Lemma forward_step w Ls D k it spins now :
  inv w Ls D → sequencer w = Forward k it spins →
  ∃ w' D', sequencer_turn n deadline w now = Ret w' ∧ inv w' Ls D' ∧ consumer w' = consumer w ∧
    (work w' Ls D' < work w Ls D ∨ D' = D ∧ stutter [Sequencer] w Ls D w').
Proof using All.
  intros HI Hs. destruct (forward_inv n per deadline Hn Hper Hfit Hn64 Hper64 w Ls D k it spins now HI Hs)
    as (w' & D' & Hrun & HI' & Hp & Hc & Hcase).
  exists w', D'. split; [done|]. split; [done|]. split; [done|].
  destruct Hcase as [(Hle & Hs')|(-> & Hfull & spins' & Hs')].
  - left. unfold work, RaceDemoCorrect.supply, hand. rewrite Hp, Hs, Hs'. change (vlen [it]) with 1.
    change (vlen (@nil Item)) with 0. cbn [running]. lia.
  - right. split; [done|]. apply sequencer_stutter; try done; [unfold hand; by rewrite Hs, Hs'|by rewrite Hs, Hs'|].
    intros (_ & -> & _). change (vlen (@nil Item)) with 0 in Hfull. unfold kQueueCapacity in Hfull. lia.
Qed.

Lemma sequencer_step w Ls D now :
  inv w Ls D → ∃ w' Ls' D', turn n per deadline w Sequencer now = Ret w' ∧ inv w' Ls' D' ∧ consumer w' = consumer w ∧
    (work w' Ls' D' < work w Ls D ∨ Ls' = Ls ∧ D' = D ∧ stutter [Sequencer] w Ls D w').
Proof using All.
  intros HI. cbn [turn]. destruct (sequencer w) as [k moved|k it spins|k drained|] eqn:Hs.
  - destruct (scan_step _ _ _ _ _ now HI Hs) as (w' & Ls' & ? & ? & ? & [?|[? ?]]); exists w', Ls', D; auto 10.
  - destruct (forward_step _ _ _ _ _ _ now HI Hs) as (w' & D' & ? & ? & ? & [?|[? ?]]); exists w', Ls, D'; auto 10.
  - destruct (drain_step _ _ _ _ _ now HI Hs) as (w' & ? & ? & ? & [?|?]); exists w', Ls, D; auto 10.
  - exists w, Ls, D. unfold sequencer_turn. rewrite Hs. split; [done|]. split; [done|]. split; [done|]. right.
    split; [done|]. split; [done|]. apply sequencer_stutter; try done. intros (Hr & _). rewrite Hs in Hr. done.
Qed.

Lemma consumer_step w Ls D now :
  inv w Ls D → ∃ w' D', turn n per deadline w Consumer now = Ret w' ∧ inv w' Ls D' ∧
    (consumer w = Returned → consumer w' = Returned) ∧
    (work w' Ls D' < work w Ls D ∨ D' = D ∧ stutter [Consumer] w Ls D w').
Proof using All.
  intros HI. destruct (consumer_turn_inv n per deadline Hn Hper Hfit Hn64 Hper64 w Ls D HI)
    as (w' & D' & Hrun & HI' & Hp & Hs & HD & Hc).
  exists w', D'. split; [exact Hrun|]. split; [done|]. split; [intros E; by rewrite E in Hc|].
  assert (∀ D', work w' Ls D' - vlen D' = work w Ls D - vlen D) as Hwork.
  { intros D1. unfold work, RaceDemoCorrect.supply, hand. rewrite Hp, Hs. lia. }
  assert (D' = D → (up_to_consumer w D → 0 < rank_of_consumer w D → rank_of_consumer w' D < rank_of_consumer w D) →
    rank_of_consumer w' D ≤ rank_of_consumer w D ∨ ¬ up_to_consumer w D → stutter [Consumer] w Ls D w') as Hstut.
  { intros -> Hrank Hle. split; [specialize (Hwork D); lia|unfold status; by rewrite Hp|by rewrite Hs| | |set_solver].
    - intros _. rewrite Hs. split; [lia|set_solver].
    - intros Hup. split; [by destruct Hle|auto]. }
  unfold rank_of_consumer, up_to_consumer in Hstut. pose proof (iv_sequencer _ _ _ _ _ HI) as Hok. unfold sequencer_ok in Hok.
  pose proof (iv_consumer _ _ _ _ _ HI) as Hcok. unfold consumer_ok in Hcok.
  assert (running (sequencer w) = 0 → sequencer_done w = true) as Hdone.
  { destruct (sequencer w); try done. by destruct Hok. }
  destruct (consumer w) eqn:Hat; subst D'; rewrite Hc in Hstut; cbn [con_rank] in Hstut.
  - destruct D as [|it D]; cbn [tail] in *.
    + right. split; [done|]. apply Hstut; [done|by intros _ _; rewrite decide_True|left; by rewrite decide_True].
    + left. specialize (Hwork D). rewrite vlen_cons in Hwork. lia.
  - right. split; [done|]. apply Hstut; [done| |].
    + intros Hup _. destruct D as [|it D].
      * destruct Hup as [?|Hr]; [done|]. rewrite (Hdone Hr). by cbn.
      * rewrite bool_decide_false by done. destruct (sequencer_done w); by cbn.
    + destruct D as [|it D].
      * destruct (sequencer_done w) eqn:Hd; [by left|]. right. intros [?|Hr]; [done|]. by apply Hdone in Hr.
      * left. rewrite bool_decide_false by done. destruct (sequencer_done w); by cbn.
  - right. split; [done|]. apply Hstut; [done| |].
    + intros _ _. destruct D as [|it D]; [by rewrite decide_True|]. rewrite decide_False by done. by cbn.
    + left. destruct D as [|it D]; [by rewrite decide_True|]. rewrite decide_False by done. by cbn.
  - right. split; [done|]. apply Hstut; [done|intros _ ?; lia|left; lia].
Qed.

(** ** Any number of turns *)

Lemma stutter_refl w Ls D : stutter [] w Ls D w.
Proof using All. split; try done; try set_solver; intros _; (split; [lia|set_solver]). Qed.

Lemma stutter_trans ts ts' w w1 w2 Ls D :
  stutter ts w Ls D w1 → stutter ts' w1 Ls D w2 → stutter (ts ++ ts') w Ls D w2.
Proof using All.
  intros [A1 A2 A3 A4 A5 A6] [B1 B2 B3 B4 B5 B6]. split; [congruence|congruence|congruence| | |].
  - intros Hup. assert (up_to_sequencer w1 Ls D) as Hup1 by (unfold up_to_sequencer in *; by rewrite A2, A3).
    destruct (A4 Hup) as [Hle Hlt], (B4 Hup1) as [Hle1 Hlt1]. split; [lia|].
    intros [Hin|Hin]%elem_of_app; [specialize (Hlt Hin)|specialize (Hlt1 Hin)]; lia.
  - intros Hup. assert (up_to_consumer w1 D) as Hup1 by (unfold up_to_consumer in *; by rewrite A3).
    destruct (A5 Hup) as [Hle Hlt], (B5 Hup1) as [Hle1 Hlt1]. split; [lia|].
    intros [Hin|Hin]%elem_of_app Hpos; [specialize (Hlt Hin Hpos); lia|].
    destruct (decide (rank_of_consumer w1 D = rank_of_consumer w D)) as [E|]; [|lia]. rewrite <- E in Hpos |- *. by apply Hlt1.
  - intros id [Hin|Hin]%elem_of_app; [by apply A6|]. rewrite <- A2. by apply B6.
Qed.

Lemma turns_step ts : ∀ w Ls D,
  inv w Ls D → ∃ w' Ls' D', run_fixed n per deadline w ts = Ret w' ∧ inv w' Ls' D' ∧
    (consumer w = Returned → consumer w' = Returned) ∧
    (work w' Ls' D' < work w Ls D ∨ Ls' = Ls ∧ D' = D ∧ stutter ts.*1 w Ls D w').
Proof using All.
  induction ts as [|[t now] ts IH]; intros w Ls D HI; cbn [run_fixed].
  { exists w, Ls, D. split; [done|]. split; [done|]. split; [done|]. right. auto using stutter_refl. }
  assert (∃ w1 Ls1 D1, turn n per deadline w t now = Ret w1 ∧ inv w1 Ls1 D1 ∧ (consumer w = Returned → consumer w1 = Returned) ∧
    (work w1 Ls1 D1 < work w Ls D ∨ Ls1 = Ls ∧ D1 = D ∧ stutter [t] w Ls D w1)) as (w1 & Ls1 & D1 & -> & HI1 & Hret1 & Hcase).
  { destruct t as [id| |].
    - destruct (producer_step w Ls D id now HI) as (w1 & Ls1 & ? & ? & [?|[? ?]] & ?); exists w1, Ls1, D; auto 10.
    - destruct (sequencer_step w Ls D now HI) as (w1 & Ls1 & D1 & ? & ? & Hc & ?); exists w1, Ls1, D1. rewrite Hc. auto.
    - destruct (consumer_step w Ls D now HI) as (w1 & D1 & ? & ? & ? & [?|[? ?]]); exists w1, Ls, D1; auto 10. }
  returns. destruct (IH w1 Ls1 D1 HI1) as (w2 & Ls2 & D2 & -> & HI2 & Hret2 & Hcase2).
  exists w2, Ls2, D2. split; [done|]. split; [done|]. split; [auto|].
  destruct Hcase as [Hlt|(-> & -> & Hst)].
  - left. destruct Hcase2 as [?|(-> & -> & [E _ _ _ _ _])]; lia.
  - destruct Hcase2 as [?|(-> & -> & Hst2)]; [left; pose proof (st_work _ _ _ _ _ Hst); lia|]. right.
    split; [done|]. split; [done|]. exact (stutter_trans [t] ts.*1 w w1 w2 Ls D Hst Hst2).
Qed.

(** ** Rounds *)

(** Every thread gets a turn. *)
Definition fair_round (ts : list (thread * Z)) : Prop :=
  Sequencer ∈ ts.*1 ∧ Consumer ∈ ts.*1 ∧ ∀ id, 0 ≤ id < n → Producer id ∈ ts.*1.

Lemma run_fixed_app ts ts' : ∀ w,
  run_fixed n per deadline w (ts ++ ts') = (w ← run_fixed n per deadline w ts; run_fixed n per deadline w ts').
Proof using All.
  induction ts as [|[t now] ts IH]; intros w; [done|]. cbn [run_fixed app]. destruct (turn _ _ _ w t now); [apply IH|done].
Qed.

(** The result of some turns: less work, or the consumer has returned. *)
Definition less_work w Ls D ts (P : fixed → Prop) : Prop :=
  ∃ w' Ls' D', run_fixed n per deadline w ts = Ret w' ∧ inv w' Ls' D' ∧ (work w' Ls' D' < work w Ls D ∨ P w').

(** Turns after that do not undo it. *)
Lemma less_work_app w Ls D ts ts' :
  less_work w Ls D ts (λ w, consumer w = Returned) → less_work w Ls D (ts ++ ts') (λ w, consumer w = Returned).
Proof using All.
  intros (w1 & Ls1 & D1 & Hrun & HI1 & Hcase). destruct (turns_step ts' w1 Ls1 D1 HI1) as (w2 & Ls2 & D2 & Hrun2 & HI2 & Hret & Hle).
  exists w2, Ls2, D2. rewrite run_fixed_app, Hrun. split; [exact Hrun2|]. split; [done|].
  assert (work w2 Ls2 D2 ≤ work w1 Ls1 D1) as Hmono by (destruct Hle as [?|(-> & -> & [E _ _ _ _ _])]; lia).
  destruct Hcase as [?|?]; [left; lia|right; auto].
Qed.

(** One round: less work, or nothing but the control of a thread has moved. *)
Lemma round_step ts ts' w Ls D :
  inv w Ls D → less_work w Ls D (ts ++ ts') (λ w, consumer w = Returned) ∨
  ∃ w', run_fixed n per deadline w ts = Ret w' ∧ inv w' Ls D ∧ stutter ts.*1 w Ls D w' ∧
    (less_work w' Ls D ts' (λ w, consumer w = Returned) → less_work w Ls D (ts ++ ts') (λ w, consumer w = Returned)).
Proof using All.
  intros HI. destruct (turns_step ts w Ls D HI) as (w1 & Ls1 & D1 & Hrun & HI1 & Hret & [Hlt|(-> & -> & Hst)]).
  - left. apply less_work_app. exists w1, Ls1, D1. auto.
  - right. exists w1. split; [done|]. split; [done|]. split; [done|]. intros (w2 & Ls2 & D2 & Hrun2 & HI2 & Hcase).
    exists w2, Ls2, D2. rewrite run_fixed_app, Hrun. split; [exact Hrun2|]. split; [done|]. by rewrite <- (st_work _ _ _ _ _ Hst).
Qed.

Lemma seq_rank_bounds w Ls D : inv w Ls D → 0 ≤ seq_rank (sequencer w) Ls ≤ 3 * n + 4.
Proof using All.
  intros HI. pose proof (iv_sequencer _ _ _ _ _ HI) as Hok. unfold sequencer_ok in Hok.
  destruct (sequencer w) as [k m|k it sp|k d|]; cbn [seq_rank]; [destruct (busy (drop _ _)), (busy Ls || m)| |destruct (busy Ls), d|]; lia.
Qed.

Lemma rounds_sequencer r : ∀ rounds w Ls D,
  inv w Ls D → up_to_sequencer w Ls D → seq_rank (sequencer w) Ls ≤ Z.of_nat r → (r < length rounds)%nat →
  Forall fair_round rounds → less_work w Ls D (concat rounds) (λ w, consumer w = Returned).
Proof using All.
  induction r as [|r IH]; intros [|ts rounds] w Ls D HI Hup Hr Hlen Hfair; simpl in Hlen; try lia;
    apply Forall_cons in Hfair as [(Hs & _) Hfair]; cbn [concat];
    (destruct (round_step ts (concat rounds) w Ls D HI) as [?|(w1 & _ & HI1 & Hst & Hgo)]; [done|]);
    destruct (st_sequencer _ _ _ _ _ Hst Hup) as [_ Hlt]; specialize (Hlt Hs); pose proof (seq_rank_bounds w1 Ls D HI1).
  - lia.
  - apply Hgo, IH; try done; [|lia|lia]. unfold up_to_sequencer in *. by rewrite (st_status _ _ _ _ _ Hst), (st_running _ _ _ _ _ Hst).
Qed.

Lemma rank_of_consumer_bounds w D : 0 ≤ rank_of_consumer w D ≤ 3.
Proof using All. unfold rank_of_consumer. destruct (consumer w), (bool_decide (D = [])); cbn [con_rank]; lia. Qed.

Lemma rank_zero w D : rank_of_consumer w D ≤ 0 → consumer w = Returned.
Proof using All. unfold rank_of_consumer. destruct (consumer w), (bool_decide (D = [])); cbn [con_rank]; done || lia. Qed.

Lemma rounds_consumer r : ∀ rounds w Ls D,
  inv w Ls D → up_to_consumer w D → rank_of_consumer w D ≤ Z.of_nat r → (r ≤ length rounds)%nat →
  Forall fair_round rounds → less_work w Ls D (concat rounds) (λ w, consumer w = Returned).
Proof using All.
  induction r as [|r IH]; intros rounds w Ls D HI Hup Hr Hlen Hfair.
  { apply (less_work_app w Ls D [] (concat rounds)). exists w, Ls, D. split; [done|]. split; [done|]. right. by eapply rank_zero. }
  destruct rounds as [|ts rounds]; simpl in Hlen; [lia|]. apply Forall_cons in Hfair as [(_ & Hc & _) Hfair]. cbn [concat].
  destruct (round_step ts (concat rounds) w Ls D HI) as [?|(w1 & _ & HI1 & Hst & Hgo)]; [done|].
  destruct (st_consumer _ _ _ _ _ Hst Hup) as [Hle Hlt]. specialize (Hlt Hc). pose proof (rank_of_consumer_bounds w1 D).
  apply Hgo, IH; try done; [|lia|lia]. unfold up_to_consumer in *. by rewrite (st_running _ _ _ _ _ Hst).
Qed.

#[local] Instance able_dec S Ls id : Decision (able S Ls id).
Proof using All.
  destruct (S⟦id⟧) as [l|] eqn:Hl; [|right; intros (l & L & ? & _); congruence].
  destruct (Ls⟦id⟧) as [L|] eqn:HL; [|right; intros (l' & L & _ & ? & _); congruence].
  destruct (decide (0 < l ∧ (1 < l → vlen L < cap))) as [H|H]; [left|right].
  - exists l, L. tauto.
  - intros (l' & L' & H1 & H2 & H3). apply H. congruence.
Defined.

Lemma block w Ls D rounds :
  inv w Ls D → Forall fair_round rounds → 3 * n + 5 ≤ vlen rounds →
  less_work w Ls D (concat rounds) (λ w, consumer w = Returned).
Proof using All.
  intros HI Hfair Hlen. destruct (decide (Exists (able (status w) Ls) (seqZ 0 n))) as [Hab|Hno].
  - apply Exists_exists in Hab as (id & Hid%elem_of_seqZ & Hab). destruct rounds as [|ts rounds]; [unfold vlen in Hlen; simpl in Hlen; lia|].
    apply Forall_cons in Hfair as [(_ & _ & Hp) _]. cbn [concat].
    destruct (round_step ts (concat rounds) w Ls D HI) as [?|(w1 & _ & _ & Hst & _)]; [done|].
    by destruct (st_producers _ _ _ _ _ Hst id (Hp id ltac:(lia))).
  - assert (∀ id, ¬ able (status w) Ls id) as Hnone.
    { intros id Hab. apply Hno, Exists_exists. exists id. split; [|done]. apply elem_of_seqZ. destruct Hab as (l & L & Hl & _).
      apply vget_Some_range in Hl. destruct (dt_lens _ _ _ _ _ _ _ (iv_data _ _ _ _ _ HI)) as (HP & _).
      unfold status in Hl. rewrite vlen_fmap in Hl, HP. lia. }
    assert (running (sequencer w) = 1 ∨ running (sequencer w) = 0) as Hrun by (destruct (sequencer w); cbn; auto).
    destruct D as [|it D]; [destruct Hrun as [Hrun|Hrun]|].
    + pose proof (seq_rank_bounds w Ls [] HI). unfold vlen in Hlen.
      apply (rounds_sequencer (Z.to_nat (3 * n + 4))); try done; lia.
    + pose proof (rank_of_consumer_bounds w []). unfold vlen in Hlen. apply (rounds_consumer 3); [done|by right|lia|lia|done].
    + pose proof (rank_of_consumer_bounds w (it :: D)). unfold vlen in Hlen. apply (rounds_consumer 3); [done|by left|lia|lia|done].
Qed.

Lemma work_nonneg w Ls D : inv w Ls D → 0 ≤ work w Ls D.
Proof using All.
  intros HI. pose proof (iv_data _ _ _ _ _ HI) as Hdata. pose proof (data_bound n per deadline Hn Hper Hfit Hn64 Hper64 _ _ _ _ _ Hdata) as [_ Hb].
  unfold work, RaceDemoCorrect.supply. pose proof (vlen_nonneg (hand w)). pose proof (vlen_nonneg D).
  assert (0 ≤ running (sequencer w)) by (destruct (sequencer w); cbn; lia).
  assert (0 ≤ total left (producers w)); [|lia].
  pose proof (dt_range _ _ _ _ _ _ _ Hdata) as Hr. apply (proj1 (Forall_fmap _ _ _)) in Hr.
  clear -Hr. induction Hr as [|p l Hp _ IH]; [done|]. unfold compose in Hp. simpl. destruct p; simpl in *; lia.
Qed.

Lemma blocks k : ∀ w Ls D rounds,
  inv w Ls D → Forall fair_round rounds → work w Ls D ≤ Z.of_nat k → (Z.of_nat k + 1) * (3 * n + 5) ≤ vlen rounds →
  ∃ w' Ls' D', run_fixed n per deadline w (concat rounds) = Ret w' ∧ inv w' Ls' D' ∧ consumer w' = Returned.
Proof using All.
  induction k as [|k IH]; intros w Ls D rounds HI Hfair Hwork Hlen.
  - destruct (block w Ls D rounds HI Hfair ltac:(lia)) as (w1 & Ls1 & D1 & Hrun & HI1 & [Hlt|Hret]); [|eauto 10].
    pose proof (work_nonneg w1 Ls1 D1 HI1). lia.
  - set (m := Z.to_nat (3 * n + 5)). rewrite <- (take_drop m rounds) in Hfair |- *. apply Forall_app in Hfair as [Hf1 Hf2].
    assert (vlen (take m rounds) = 3 * n + 5 ∧ vlen (drop m rounds) = vlen rounds - (3 * n + 5)) as [Hl1 Hl2].
    { unfold vlen in *. rewrite length_take, length_drop. unfold m. nia. }
    rewrite concat_app, run_fixed_app.
    destruct (block w Ls D _ HI Hf1 ltac:(lia)) as (w1 & Ls1 & D1 & -> & HI1 & [Hlt|Hret]); returns.
    + apply (IH w1 Ls1 D1); try done; [lia|]. rewrite Hl2. lia.
    + destruct (turns_step (concat (drop m rounds)) w1 Ls1 D1 HI1) as (w2 & Ls2 & D2 & -> & HI2 & Hkeep & _). eauto 10.
Qed.

Lemma work_start : work (fixed_start n) (replicate (Z.to_nat n) []) [] = n * (4 * per + 1) + 1.
Proof using All.
  unfold work, RaceDemoCorrect.supply. simpl. rewrite !total_replicate, Z2Nat.id by done. simpl.
  change (hand (fixed_start n)) with (@nil Item). change (vlen (@nil Item)) with 0. lia.
Qed.

(** Before the deadline nobody gives up. *)
Lemma turns_unstalled ts : ∀ w w',
  run_fixed n per deadline w ts = Ret w' → Forall (λ t, t.2 ≤ deadline) ts → stalled w' = stalled w.
Proof using All.
  assert (∀ q it spins now q' a, now ≤ deadline → push_bounded q it deadline spins now = Ret (q', a) → a ≠ GaveUp) as Hpush.
  { intros q it spins now q' a Hnow. unfold push_bounded. intros ([q1 ok] & _ & [= _ <-])%bind_Ret_inv. destruct ok; [done|].
    unfold expired. destruct (Z.ltb_spec deadline now); [lia|]. by rewrite andb_false_r. }
  induction ts as [|[t now] ts IH]; intros w w'; cbn [run_fixed]; [by intros [= <-]|].
  intros (w1 & Hturn & Hrun)%bind_Ret_inv [Hnow Hts]%Forall_cons. rewrite (IH w1 w' Hrun Hts). cbn [snd] in Hnow. clear IH Hrun Hts.
  destruct t as [id| |]; cbn [turn] in Hturn.
  - unfold producer_turn in Hturn. destruct ((producers w)⟦id⟧) as [[i spins|]|]; [|by injection Hturn as <-..].
    apply bind_Ret_inv in Hturn as (q & _ & Hturn). destruct (i <? per); [|by injection Hturn as <-].
    apply bind_Ret_inv in Hturn as ([q' a] & Hp & [= <-]). pose proof (Hpush _ _ _ _ _ _ Hnow Hp). by destruct a.
  - unfold sequencer_turn in Hturn. destruct (sequencer w) as [k m|k it spins|k d|].
    + destruct (k <? _); [|destruct (_ || _); by injection Hturn as <-].
      apply bind_Ret_inv in Hturn as (q & _ & ([q' out] & _ & [= <-])%bind_Ret_inv). done.
    + apply bind_Ret_inv in Hturn as ([q' a] & Hp & [= <-]). pose proof (Hpush _ _ _ _ _ _ Hnow Hp). by destruct a.
    + destruct (k <? _); [apply bind_Ret_inv in Hturn as (q & _ & [= <-]); done|]. destruct d; by injection Hturn as <-.
    + by injection Hturn as <-.
  - unfold consumer_turn in Hturn. destruct (consumer w); [|by injection Hturn as <-..].
    apply bind_Ret_inv in Hturn as ([q out] & _ & Hturn). destruct out; [|by injection Hturn as <-].
    apply bind_Ret_inv in Hturn as (v & _ & [= <-]). done.
Qed.
End stops.

(** Rounds enough for every message to move four times and every thread to end. *)
Definition enough_rounds (producer_count per_producer : Z) : Z :=
  (producer_count * (4 * per_producer + 1) + 2) * (3 * producer_count + 5).

Lemma fixed_ends n per deadline rounds :
  0 ≤ n < 2 ^ 31 → 0 ≤ per < 2 ^ 64 → n * per < 2 ^ 64 →
  Forall (fair_round n) rounds → enough_rounds n per ≤ vlen rounds →
  ∃ w, run_fixed n per deadline (fixed_start n) (concat rounds) = Ret w ∧ joined w = true ∧
    received (fixed_verdict n per w) + stalled_pushes (fixed_verdict n per w) = n * per ∧
    (Forall (λ t, t.2 ≤ deadline) (concat rounds) → exit_code (fixed_verdict n per w) = 0).
Proof.
  intros [Hn Hn31] [Hper Hper64] Hfit Hfair Hlen. assert (n < 2 ^ 64) as Hn64 by lia. unfold enough_rounds in Hlen.
  pose proof (inv_start n per deadline Hn Hper Hfit Hn64 Hper64) as HI.
  destruct (blocks n per deadline Hn Hper Hfit Hn64 Hper64 (Z.to_nat (n * (4 * per + 1) + 1)) _ _ _ rounds HI Hfair)
    as (w & Ls & D & Hrun & HI' & Hret).
  { rewrite work_start by done. lia. }
  { rewrite Z2Nat.id by nia. lia. }
  pose proof (returned_joined _ _ _ _ _ HI' Hret) as Hj.
  destruct (joined_verdict n per deadline Hn Hper Hfit Hn64 Hper64 _ _ _ HI' Hj) as (_ & Hsum & _ & Hok).
  exists w. split; [done|]. split; [done|]. split; [done|]. intros Hclock. apply Hok.
  change (stalled w = 0). by rewrite (turns_unstalled n per deadline Hn Hper Hfit Hn64 Hper64 _ _ _ Hrun Hclock).
Qed.

(** ** [main] *)

Record RaceOptions := mkRaceOptions {
  o_mode : string;
  o_producers : Z;
  o_per_producer : Z;
  o_budget_ms : Z
}.

Definition race_options (a : Args.values) : RaceOptions :=
  mkRaceOptions (Args.str a "mode" "fixed") (Args.to_int (Args.integer a "producers" 2))
    (u64 (Args.integer a "messages" 200000)) (u64 (Args.integer a "time-budget-ms" 5000)).

Definition deadline_of (now budget_ms : Z) : Z := u64 (now + u64 (budget_ms * 1000000)).

(** The program has returned from [main], ended by the [std::length_error] that
    [reserve] throws for a negative count, or is still waiting for a thread. *)
Inductive ending :=
  | Exits (code : Z)
  | Throws
  | Waiting.

(** [now] is the first reading of the clock; [threads] and [racing] are the schedules
    of the threads in the two modes. *)
Definition race_main (a : Args.values) (now : Z) (threads : list (thread * Z)) (racing : list (option Z * Z))
    : outcome ending :=
  if Args.has a "help" then Ret (Exits 0)
  else
    let o := race_options a in
    let deadline_ns := deadline_of now (o_budget_ms o) in
    if o_producers o <? 0 then Ret Throws
    else if String.eqb (o_mode o) "broken" then
      w ← run_broken (o_producers o) (o_per_producer o) deadline_ns (broken_start (o_producers o)) racing;
      Ret (if broken_joined w then Exits (exit_code (broken_verdict (o_producers o) (o_per_producer o) w)) else Waiting)
    else
      w ← run_fixed (o_producers o) (o_per_producer o) deadline_ns (fixed_start (o_producers o)) threads;
      Ret (if joined w then Exits (exit_code (fixed_verdict (o_producers o) (o_per_producer o) w)) else Waiting).

Lemma race_options_ranges a : let o := race_options a in
  - 2 ^ 31 ≤ o_producers o < 2 ^ 31 ∧ 0 ≤ o_per_producer o < 2 ^ 64.
Proof. cbn. unfold Args.to_int. split; [|apply u64_range]. pose proof (Z.mod_pos_bound (Args.integer a "producers" 2 + 2 ^ 31) (2 ^ 32)). lia. Qed.

(** C23. The demonstration ends, in the fixed mode, under every schedule in which all
    threads keep getting turns: for any number of producers and messages whose product
    is a [std::uint64_t], [main] returns after [enough_rounds] rounds, whatever the
    clock says and however long a ring stays full; and if the deadline has not passed
    by then it returns 0, so that no message was lost, damaged or reordered. *)
Theorem race_main_ends a now rounds racing :
  let o := race_options a in
  Args.has a "help" = false → o_mode o ≠ "broken"%string → 0 ≤ o_producers o →
  o_producers o * o_per_producer o < 2 ^ 64 →
  Forall (fair_round (o_producers o)) rounds → enough_rounds (o_producers o) (o_per_producer o) ≤ vlen rounds →
  ∃ code, race_main a now (concat rounds) racing = Ret (Exits code) ∧
    (Forall (λ t, t.2 ≤ deadline_of now (o_budget_ms o)) (concat rounds) → code = 0).
Proof.
  intros o Hhelp Hmode Hn Hfit Hfair Hlen. destruct (race_options_ranges a) as [Hr Hp]. fold o in Hr, Hp.
  destruct (fixed_ends (o_producers o) (o_per_producer o) (deadline_of now (o_budget_ms o)) rounds ltac:(lia) Hp Hfit Hfair Hlen)
    as (w & Hrun & Hj & _ & Hok).
  unfold race_main. fold o. rewrite Hhelp. destruct (Z.ltb_spec (o_producers o) 0); [lia|].
  rewrite (proj2 (String.eqb_neq _ _) Hmode), Hrun. returns. rewrite Hj. eauto.
Qed.

Definition demo_args : Args.values := Args.args ["--producers=2"; "--messages"; "3"]%string.
Definition demo_round : list (thread * Z) := [(Consumer, 9); (Producer 1, 5); (Sequencer, 7); (Producer 0, 6); (Consumer, 9)].

Lemma race_main_ends_witness :
  race_main demo_args 8 (concat (replicate 400 demo_round)) [] = Ret (Exits 0).
Proof.
  destruct (race_main_ends demo_args 8 (replicate 400 demo_round) []) as (code & Hrun & Hok).
  - vm_compute. reflexivity.
  - vm_compute. discriminate.
  - vm_compute. discriminate.
  - vm_compute. reflexivity.
  - apply Forall_replicate. split; [|split].
    + repeat constructor.
    + repeat constructor.
    + change (o_producers (race_options demo_args)) with 2. intros id Hid.
      assert (id = 0 ∨ id = 1) as [-> | ->] by lia; repeat constructor.
  - vm_compute. discriminate.
  - rewrite Hrun. f_equal. f_equal. apply Hok. apply Forall_forall. intros t Ht.
    assert (t ∈ demo_round) as Hin.
    { apply list_elem_of_In, List.in_concat in Ht as (l & Hl & Ht). rewrite <- list_elem_of_In in Hl. apply elem_of_replicate in Hl as [-> _]. by apply list_elem_of_In. }
    unfold demo_round in Hin. change (deadline_of 8 _) with 5000000008. clear -Hin.
    repeat (apply elem_of_cons in Hin as [->|Hin]; [cbn; lia|]). by apply elem_of_nil in Hin.
Defined.
