(* ===== verification/QueueRuns.v ===== *)
(** * The runs of the queue benchmark

    [run_mutex] and [run_spinning] of [benchmarks/queue_benchmark.cpp]: a producer
    thread sends numbered items through a queue to a consumer thread. The threads take
    turns, each with the reading of the clock it takes in it, if any. A turn of
    [run_spinning] makes at most one call on the ring, as one step ([SpscRaceFree]
    takes the calls apart); the mutex queue is taken apart
    into the steps at which its threads can be interrupted: taking the mutex, testing the
    condition with the mutex held (and then either changing the queue or going to
    sleep, which gives up the mutex in the same step), and waking the other thread. *)

From stdpp Require Import strings.
From S2P Require Import Prelude Message SpscQueue QueueVariants BookSpec BookInterface Engine Latency Args.

#[local] Open Scope Z_scope.
#[local] Open Scope llte_scope.

Definition kCapacity : Z := 1024.

Record Item := mkItem { sequence : Z; sent_ns : Z }.

Record RunConfig := mkRun {
  messages : Z;
  sample_capacity : Z;
  producer_cpu : Z;
  consumer_cpu : Z;
  pace_rate : Z
}.

Definition deadline (config : RunConfig) (start_ns index : Z) : Z :=
  u64 (start_ns + u64 (index * (1000000000 / pace_rate config))).

(** [pace]: whether it returns at the reading [now] *)
Definition pace (config : RunConfig) (start_ns index now : Z) : bool :=
  (pace_rate config =? 0) || negb (now <? deadline config start_ns index).

(** No deadline of a pacing loop that began at [start_ns] is after [last]. *)
Definition due_by (config : RunConfig) (start_ns last : Z) : Prop :=
  pace_rate config = 0 ∨ ∀ i, 0 ≤ i < messages config → deadline config start_ns i ≤ last.

Lemma pace_due config start_ns last i now :
  due_by config start_ns last → 0 ≤ i < messages config → last ≤ now → pace config start_ns i now = true.
Proof.
  intros [Hr|Hd] Hi Hnow; unfold pace; [by rewrite Hr|]. specialize (Hd i Hi).
  destruct (Z.ltb_spec now (deadline config start_ns i)); [lia|]. apply orb_true_r.
Qed.

Inductive thread := Producer | Consumer.

#[export] Instance thread_eq_dec : EqDecision thread.
Proof. solve_decision. Defined.

(** ** [run_spinning] *)

(** [queue.empty()] *)
Class EmptyOps (Q : Type) := q_empty : Q → bool.

#[export] Instance false_shared_empty {T} : EmptyOps (FalseSharedQueue.t T) := FalseSharedQueue.empty.
#[export] Instance spsc_empty {T} : EmptyOps (Spsc.t T) := Spsc.empty.

Module Spinning.

Inductive producer_pc :=
  | Starting                                (* while (!consumer_ready.load()) *)
  | Pacing (start i : Z)                    (* the loop test and pace *)
  | Stamping (start i : Z)                  (* now_ns() for the item *)
  | Pushing (start i sent : Z)              (* while (!queue.try_push(item)) *)
  | Finished.

Inductive consumer_pc := AtStart | AtPop | AtDone | AtEmpty | Returned.

(** [got]: the items popped so far. *)
Record t (Q : Type) := mkRunning {
  queue : Q;
  producer_done : bool;
  consumer_ready : bool;
  measured_start : Z;
  transit : LatencySamples;
  producer : producer_pc;
  consumer : consumer_pc;
  got : list Item
}.
Arguments mkRunning {Q}.
Arguments queue {Q}.
Arguments producer_done {Q}.
Arguments consumer_ready {Q}.
Arguments measured_start {Q}.
Arguments transit {Q}.
Arguments producer {Q}.
Arguments consumer {Q}.
Arguments got {Q}.

Section run.
Context {Q : Type} `{FifoOps Q Item} `{EmptyOps Q} (config : RunConfig).

Definition start (q : Q) : t Q :=
  mkRunning q false false 0 (samples_make (sample_capacity config)) Starting AtStart [].

Definition set_producer (w : t Q) (q : Q) (pc : producer_pc) : t Q :=
  mkRunning q (producer_done w) (consumer_ready w) (measured_start w) (transit w) pc (consumer w) (got w).
Definition set_consumer (w : t Q) (q : Q) (pc : consumer_pc) : t Q :=
  mkRunning q (producer_done w) (consumer_ready w) (measured_start w) (transit w) (producer w) pc (got w).

Definition producer_turn (w : t Q) (now : Z) : outcome (t Q) :=
  match producer w with
  | Starting =>
      Ret (if consumer_ready w
           then mkRunning (queue w) (producer_done w) (consumer_ready w) now (transit w) (Pacing now 0) (consumer w) (got w)
           else w)
  | Pacing start i =>
      Ret (if i <? messages config
           then if pace config start i now then set_producer w (queue w) (Stamping start i) else w
           else mkRunning (queue w) true (consumer_ready w) (measured_start w) (transit w) Finished (consumer w) (got w))
  | Stamping start i => Ret (set_producer w (queue w) (Pushing start i now))
  | Pushing start i sent =>
      '(q, ok) ← q_push (queue w) (mkItem i sent);
      Ret (set_producer w q (if ok : bool then Pacing start (u64 (i + 1)) else Pushing start i sent))
  | Finished => Ret w
  end.

Definition consumer_turn (w : t Q) (now : Z) : outcome (t Q) :=
  match consumer w with
  | AtStart =>
      Ret (mkRunning (queue w) (producer_done w) true (measured_start w) (transit w) (producer w) AtPop (got w))
  | AtPop =>
      '(q, out) ← q_pop (queue w);
      Ret (match out with
           | Some item =>
               mkRunning q (producer_done w) (consumer_ready w) (measured_start w)
                 (samples_add (transit w) (u64 (now - sent_ns item))) (producer w) AtPop (got w ++ [item])
           | None => set_consumer w q AtDone
           end)
  | AtDone => Ret (set_consumer w (queue w) (if producer_done w then AtEmpty else AtPop))
  | AtEmpty => Ret (set_consumer w (queue w) (if q_empty (queue w) then Returned else AtPop))
  | Returned => Ret w
  end.

Definition turn (w : t Q) (tn : thread * Z) : outcome (t Q) :=
  match tn.1 with Producer => producer_turn w tn.2 | Consumer => consumer_turn w tn.2 end.
End run.
End Spinning.

(** ** [run_mutex] *)

Module Mutexed.

(** Where the producer is: in [push] from [Locking] to [Notifying], in [finish] from
    [FinishLocking] to [FinishNotifying]. *)
Inductive producer_pc :=
  | Starting
  | Pacing (start i : Z)
  | Stamping (start i : Z)
  | Locking (start i sent : Z)              (* lock(mutex_), also after a wake-up *)
  | Testing (start i sent : Z)              (* the predicate of drained_.wait, mutex held *)
  | Sleeping (start i sent : Z)             (* in drained_.wait *)
  | Notifying (start i : Z)                 (* ready_.notify_one() *)
  | FinishLocking
  | FinishSetting                           (* done_ = true, mutex held *)
  | FinishNotifying                         (* ready_.notify_all() *)
  | Finished.

Inductive consumer_pc :=
  | AtStart
  | AtLoop                                  (* received < config.messages *)
  | AtLock
  | AtTest                                  (* the predicate of ready_.wait, mutex held *)
  | Asleep                                  (* in ready_.wait *)
  | AtNotify (item : Item)                  (* drained_.notify_one() *)
  | Returned.

Record t := mkRunning {
  queue : MutexQueue.t Item;
  mutex_ : option thread;
  consumer_ready : bool;
  measured_start : Z;
  transit : LatencySamples;
  producer : producer_pc;
  consumer : consumer_pc;
  received : Z;
  got : list Item
}.

(** A turn of a thread, or a wake-up that nobody asked for. *)
Inductive event := Turn (th : thread) (now : Z) | Spurious (th : thread).

Section run.
Context (cap : Z) (config : RunConfig).

Definition start : t :=
  mkRunning MutexQueue.make None false 0 (samples_make (sample_capacity config)) Starting AtStart 0 [].

Definition go (w : t) (pc : producer_pc) : t :=
  mkRunning (queue w) (mutex_ w) (consumer_ready w) (measured_start w) (transit w) pc (consumer w) (received w) (got w).
Definition come (w : t) (pc : consumer_pc) : t :=
  mkRunning (queue w) (mutex_ w) (consumer_ready w) (measured_start w) (transit w) (producer w) pc (received w) (got w).
(** Changes of the queue by the thread that holds the mutex, which it then gives up. *)
Definition leave (w : t) (q : MutexQueue.t Item) : t :=
  mkRunning q None (consumer_ready w) (measured_start w) (transit w) (producer w) (consumer w) (received w) (got w).
Definition lock (w : t) (th : thread) : option t :=
  match mutex_ w with
  | None => Some (mkRunning (queue w) (Some th) (consumer_ready w) (measured_start w) (transit w) (producer w) (consumer w)
                    (received w) (got w))
  | Some _ => None
  end.

(** [notify_one] and [notify_all] on [ready_] and on [drained_]: one thread at most waits there. *)
Definition wake_consumer (w : t) : t := match consumer w with Asleep => come w AtLock | _ => w end.
Definition wake_producer (w : t) : t :=
  match producer w with Sleeping start i sent => go w (Locking start i sent) | _ => w end.

Definition producer_turn (w : t) (now : Z) : t :=
  match producer w with
  | Starting =>
      if consumer_ready w
      then mkRunning (queue w) (mutex_ w) (consumer_ready w) now (transit w) (Pacing now 0) (consumer w) (received w) (got w)
      else w
  | Pacing start i =>
      if i <? messages config
      then if pace config start i now then go w (Stamping start i) else w
      else go w FinishLocking
  | Stamping start i => go w (Locking start i now)
  | Locking start i sent => match lock w Producer with Some w => go w (Testing start i sent) | None => w end
  | Testing start i sent =>
      match MutexQueue.push cap (queue w) (mkItem i sent) with
      | Some q => go (leave w q) (Notifying start i)
      | None => go (leave w (queue w)) (Sleeping start i sent)
      end
  | Sleeping _ _ _ => w
  | Notifying start i => go (wake_consumer w) (Pacing start (u64 (i + 1)))
  | FinishLocking => match lock w Producer with Some w => go w FinishSetting | None => w end
  | FinishSetting => go (leave w (MutexQueue.finish (queue w))) FinishNotifying
  | FinishNotifying => go (wake_consumer w) Finished
  | Finished => w
  end.

Definition consumer_turn (w : t) (now : Z) : t :=
  match consumer w with
  | AtStart =>
      mkRunning (queue w) (mutex_ w) true (measured_start w) (transit w) (producer w) AtLoop (received w) (got w)
  | AtLoop => come w (if received w <? messages config then AtLock else Returned)
  | AtLock => match lock w Consumer with Some w => come w AtTest | None => w end
  | AtTest =>
      match MutexQueue.pop (queue w) with
      | Some (q, Some item) => come (leave w q) (AtNotify item)
      | Some (q, None) => come (leave w q) Returned
      | None => come (leave w (queue w)) Asleep
      end
  | Asleep => w
  | AtNotify item =>
      let w := wake_producer w in
      mkRunning (queue w) (mutex_ w) (consumer_ready w) (measured_start w)
        (samples_add (transit w) (u64 (now - sent_ns item))) (producer w) AtLoop (u64 (received w + 1)) (got w ++ [item])
  | Returned => w
  end.

Definition turn (w : t) (e : event) : outcome t :=
  Ret (match e with
       | Turn Producer now => producer_turn w now
       | Turn Consumer now => consumer_turn w now
       | Spurious Producer => wake_producer w
       | Spurious Consumer => wake_consumer w
       end).
End run.
End Mutexed.

(** ** What a run reports *)

Section report.
Context {double : Type} (zero : double) (mean_of : list Z → double) (fused : bool).
(** [static_cast<double>(n) / (ns / 1e9)] *)
Context (per_second : Z → Z → double).

Definition outcome_of (config : RunConfig) (measured_start now : Z) (transit : LatencySamples)
    : outcome (double * Latency.Summary double) :=
  let throughput := per_second (messages config) (u64 (now - measured_start)) in
  '(_, s) ← Latency.summarize zero mean_of fused transit;
  Ret (throughput, s).
End report.

(** ** The options *)

(** The configuration of the first phase, flat out, and of the second, paced. *)
Definition saturated (a : Args.values) : RunConfig :=
  let n := u64 (Args.integer a "messages" 2000000) in
  mkRun n n (Args.to_int (Args.integer a "producer-cpu" (-1))) (Args.to_int (Args.integer a "consumer-cpu" (-1))) 0.

Definition paced (a : Args.values) : RunConfig :=
  let c := saturated a in
  mkRun (messages c) (sample_capacity c) (producer_cpu c) (consumer_cpu c) (u64 (Args.integer a "pace-rate" 1000000)).
