(* ===== verification/MutexRuns.v ===== *)
(** * The mutex queue delivers everything

    [run_mutex] under every schedule that keeps giving turns to both threads: no
    wake-up is lost, so the threads are never both stuck, and each of them ends. *)

From S2P Require Import Prelude Message Fairness SpscQueue QueueVariants BookSpec BookInterface Engine Latency Report QueueRuns.
Import Mutexed.

#[local] Open Scope Z_scope.
#[local] Open Scope llte_scope.

Section run.
Context (cap : Z) (Hcap : 0 < cap) (config : RunConfig).
#[local] Abbreviation m := (messages config).
Context (Hm : 0 ≤ m < 2 ^ 64).
Implicit Types (w : t) (p : producer_pc) (c : consumer_pc).

(** ** The invariant *)

Definition in_range p : Prop :=
  match p with
  | Pacing _ i => 0 ≤ i ≤ m
  | Stamping _ i | Locking _ i _ | Testing _ i _ | Sleeping _ i _ | Notifying _ i => 0 ≤ i < m
  | _ => True
  end.

(** Items pushed so far. *)
Definition pushes p : Z :=
  match p with
  | Starting => 0
  | Pacing _ i | Stamping _ i | Locking _ i _ | Testing _ i _ | Sleeping _ i _ => i
  | Notifying _ i => i + 1
  | FinishLocking | FinishSetting | FinishNotifying | Finished => m
  end.

(** The reading the deadlines count from. *)
Definition started_at p (ms : Z) : Prop :=
  match p with
  | Pacing st _ | Stamping st _ | Locking st _ _ | Testing st _ _ | Sleeping st _ _ | Notifying st _ => st = ms
  | _ => True
  end.

Definition in_hand c : list Item := match c with AtNotify item => [item] | _ => [] end.

Definition holder p c : option thread :=
  match p, c with
  | (Testing _ _ _ | FinishSetting), _ => Some Producer
  | _, AtTest => Some Consumer
  | _, _ => None
  end.

Definition is_done p : bool := match p with FinishNotifying | Finished => true | _ => false end.
Definition is_ready c : bool := match c with AtStart => false | _ => true end.
Definition in_pop c : bool := match c with AtLock | AtTest | Asleep | AtNotify _ => true | _ => false end.
Definition will_notify p : bool := match p with Notifying _ _ | FinishNotifying => true | _ => false end.

Record inv w : Prop := {
  iv_range : in_range (producer w);
  iv_items : sequence <$> got w ++ in_hand (consumer w) ++ MutexQueue.items_ (queue w) = seqZ 0 (pushes (producer w));
  iv_mutex : mutex_ w = holder (producer w) (consumer w);
  iv_one : holder (producer w) AtStart = Some Producer → consumer w ≠ AtTest;
  iv_received : received w = vlen (got w);
  iv_done : MutexQueue.done_ (queue w) = is_done (producer w);
  iv_ready : consumer_ready w = is_ready (consumer w);
  iv_started : producer w ≠ Starting → consumer w ≠ AtStart;
  iv_sleeping : ∀ st i sent, producer w = Sleeping st i sent →
    cap ≤ vlen (MutexQueue.items_ (queue w)) ∨ in_hand (consumer w) ≠ [];
  iv_asleep : consumer w = Asleep →
    MutexQueue.items_ (queue w) = [] ∧ is_done (producer w) = false ∨ will_notify (producer w) = true;
  iv_loop : in_pop (consumer w) = true → vlen (got w) < m;
  iv_returned : consumer w = Returned → vlen (got w) = m;
  iv_start : started_at (producer w) (measured_start w);
  iv_samples : sampled (sample_capacity config) (vlen (got w)) (transit w)
}.

Lemma mutex_inv_start : 0 ≤ sample_capacity config → inv (start config).
Proof using.
  intros Hs. split; try done. split; cbn; [unfold vlen; simpl; lia|done|]. by rewrite Z.min_l by (unfold vlen; simpl; lia).
Qed.

Lemma mutex_pushes_bounds p : in_range p → 0 ≤ pushes p ≤ m.
Proof using Hm. destruct p; simpl; lia. Qed.

(** What is received, in hand and in the queue is what was pushed. *)
Lemma mutex_inv_count w : inv w →
  vlen (got w) + vlen (in_hand (consumer w)) + vlen (MutexQueue.items_ (queue w)) = pushes (producer w).
Proof using Hm.
  intros HI. pose proof (f_equal length (iv_items _ HI)) as Hl. pose proof (mutex_pushes_bounds _ (iv_range _ HI)).
  rewrite length_fmap, !length_app, length_seqZ in Hl. unfold vlen. lia.
Qed.

Lemma seqZ_next (got hand items : list Item) item n :
  0 ≤ n → sequence item = n → sequence <$> got ++ hand ++ items = seqZ 0 n →
  sequence <$> got ++ hand ++ items ++ [item] = seqZ 0 (n + 1).
Proof using.
  intros Hn Hi Hs. rewrite !app_assoc, fmap_app, <- app_assoc, Hs, seqZ_app by lia. simpl. by rewrite Hi.
Qed.

(** ** Turns keep it *)

Ltac keep := split; cbn in *; try first [done | lia | (split; [by intuition|lia]) | by intuition | intros; congruence | by eauto].

Lemma mutex_producer_inv w now : inv w → inv (producer_turn cap config w now).
Proof using Hm Hcap.
  intros HI. pose proof (mutex_inv_count w HI) as Hc. destruct HI as [H1 H2 H3 H4 H5 H6 H7 H8 H9 H10 H11 H12 H14 H13].
  destruct w as [q mu rdy ms tr p c rc gt]. simpl in *. unfold producer_turn, lock. cbn [producer mutex_].
  destruct p as [|st i|st i|st i sent|st i sent|st i sent|st i| | | |]; cbn in *.
  - destruct rdy; [|by split]. keep. by destruct c.
  - destruct (Z.ltb_spec i m).
    + destruct (pace config st i now); [keep|by split].
    + assert (i = m) as -> by lia. keep.
  - keep.
  - rewrite H3. destruct c; cbn in *; keep.
  - specialize (H4 eq_refl). assert (None = holder Starting c) as Hfree by (by destruct c).
    destruct (MutexQueue.push cap q _) as [q'|] eqn:Hpush; unfold MutexQueue.push in Hpush;
      destruct (Z.ltb_spec (vlen (MutexQueue.items_ q)) cap); try done; [injection Hpush as <-|]; keep.
    apply seqZ_next; [lia|done|done].
  - by split.
  - rewrite u64_small by lia. unfold wake_consumer. cbn. destruct c; cbn in *; keep.
  - rewrite H3. destruct c; cbn in *; keep.
  - specialize (H4 eq_refl). keep. by destruct c.
  - unfold wake_consumer. cbn. destruct c; cbn in *; keep.
  - by split.
Qed.

Lemma mutex_consumer_inv w now : inv w → inv (consumer_turn config w now).
Proof using Hm Hcap.
  intros HI. pose proof (mutex_inv_count w HI) as Hc. pose proof (mutex_pushes_bounds _ (iv_range _ HI)) as Hb.
  destruct HI as [H1 H2 H3 H4 H5 H6 H7 H8 H9 H10 H11 H12 H14 H13].
  destruct w as [q mu rdy ms tr p c rc gt]. simpl in *. unfold consumer_turn, lock. cbn [consumer mutex_].
  destruct c as [| | | | |item|]; cbn in *.
  - keep.
  - destruct (Z.ltb_spec rc m); keep. intros _. pose proof (vlen_nonneg (MutexQueue.items_ q)). unfold vlen in *. simpl in *. lia.
  - rewrite H3. destruct p; cbn in *; keep.
  - assert (holder p AtStart = None) as Hfree by (destruct p; try done; by destruct (H4 eq_refl)).
    unfold MutexQueue.pop. destruct q as [[|x l] d]; cbn in *; [destruct d|]; keep.
    intros _. change (vlen []) with 0 in Hc. destruct p; cbn in *; done || lia.
  - by split.
  - specialize (H11 eq_refl). pose proof (vlen_nonneg gt). assert (u64 (rc + 1) = vlen (gt ++ [item])) as Hr by (rewrite vlen_snoc, u64_small; lia).
    assert (sampled (sample_capacity config) (vlen (gt ++ [item])) (samples_add tr (u64 (now - sent_ns item)))) as Hs.
    { rewrite vlen_snoc. by apply sampled_add. }
    assert (sequence <$> (gt ++ [item]) ++ MutexQueue.items_ q = seqZ 0 (pushes p)) as Hq by (by rewrite <- app_assoc).
    unfold wake_producer. cbn. destruct p; cbn in *; keep.
  - by split.
Qed.

Lemma wake_inv w : inv w → inv (wake_producer w) ∧ inv (wake_consumer w).
Proof using.
  intros HI. pose proof HI as [H1 H2 H3 H4 H5 H6 H7 H8 H9 H10 H11 H12 H14 H13]. destruct w as [q mu rdy ms tr p c rc gt]. simpl in *. split.
  - unfold wake_producer. cbn. destruct p; try exact HI. keep.
  - unfold wake_consumer. cbn. destruct c; try exact HI. keep. all: by destruct p.
Qed.

Lemma mutex_turn_inv w e : inv w → ∃ w', turn cap config w e = Ret w' ∧ inv w'.
Proof using Hm Hcap.
  intros HI. unfold turn. eexists. split; [done|]. destruct (wake_inv w HI).
  destruct e as [[|] now|[|]]; auto using mutex_producer_inv, mutex_consumer_inv.
Qed.

(** Once the producer has started, the reading it counts from stays. *)
Lemma mutex_turn_started w w' e : turn cap config w e = Ret w' → producer w ≠ Starting →
  producer w' ≠ Starting ∧ measured_start w' = measured_start w.
Proof using.
  unfold turn. intros [= <-] Hp. destruct w as [q mu rdy ms tr p c rc gt].
  destruct e as [[|] now|[|]]; unfold producer_turn, consumer_turn, wake_producer, wake_consumer, lock; cbn in *;
    repeat (case_match; simplify_eq; cbn; try done).
Qed.

(** It starts with its first turn after the consumer's first. *)
Lemma mutex_run_begins w w1 w2 a b : inv w →
  turn cap config w (Turn Consumer a) = Ret w1 → turn cap config w1 (Turn Producer b) = Ret w2 → producer w2 ≠ Starting.
Proof using Hm Hcap.
  intros HI H1 H2. destruct (mutex_turn_inv w (Turn Consumer a) HI) as (w1' & H1' & HI1). assert (w1' = w1) as -> by congruence.
  assert (producer w1 = Starting ∨ producer w1 ≠ Starting) as [Hs|] by (destruct (producer w1); by (left + right)); [|by apply (mutex_turn_started w1 w2 (Turn Producer b))].
  assert (consumer w1 ≠ AtStart) as Hc.
  { injection H1 as <-. unfold consumer_turn. destruct (consumer w) eqn:Hcw; cbn; try congruence.
    - by case_match.
    - unfold lock. destruct (mutex_ w); cbn; congruence.
    - repeat case_match; cbn; congruence. }
  injection H2 as <-. unfold producer_turn. rewrite Hs, (iv_ready _ HI1). by destruct (consumer w1).
Qed.

Lemma turns_inv es : ∀ w w', take_turns (turn cap config) w es = Ret w' → inv w → inv w'.
Proof using Hm Hcap.
  induction es as [|e es IH]; intros w w' Hrun HI; cbn [take_turns] in Hrun; [by injection Hrun as <-|].
  destruct (mutex_turn_inv w e HI) as (w1 & Ht & HI1). rewrite Ht in Hrun. by apply (IH w1).
Qed.

(** ** Nobody is stuck *)

Definition enabled w (th : thread) : Prop :=
  match th with
  | Producer =>
      match producer w with
      | Starting => consumer_ready w = true
      | Locking _ _ _ | FinishLocking => mutex_ w = None
      | Sleeping _ _ _ | Finished => False
      | _ => True
      end
  | Consumer =>
      match consumer w with
      | AtLock => mutex_ w = None
      | Asleep | Returned => False
      | _ => True
      end
  end.

Definition ended w : Prop := producer w = Finished ∧ consumer w = Returned.

(** No wake-up is lost: as long as a thread has not ended, one of them can go on. *)
Lemma never_stuck w : inv w → ended w ∨ enabled w Producer ∨ enabled w Consumer.
Proof using Hm Hcap.
  intros HI. pose proof (mutex_inv_count w HI) as Hc. destruct HI as [H1 H2 H3 H4 H5 H6 H7 H8 H9 H10 H11 H12 H14 H13].
  destruct w as [q mu rdy ms tr p c rc gt]. unfold ended, enabled. cbn [producer consumer consumer_ready mutex_ queue got] in *.
  pose proof (vlen_nonneg gt). pose proof (vlen_nonneg (MutexQueue.items_ q)).
  destruct p; try (right; left; exact I).
  - destruct c; cbn in *; auto.
  - destruct c; cbn in *; auto.
  - specialize (H9 _ _ _ eq_refl). destruct c; cbn in *; auto.
    + destruct (H10 eq_refl) as [[Hq _]|?]; [|done]. rewrite Hq in H9. unfold vlen in H9. simpl in H9. destruct H9; [lia|done].
    + specialize (H12 eq_refl). change (vlen (A := Item) []) with 0 in Hc. lia.
  - destruct c; cbn in *; auto.
  - destruct c; cbn in *; auto. destruct (H10 eq_refl) as [[_ ?]|?]; done.
Qed.

(** ** How far it is to the end *)

Definition producer_rank p : Z :=
  match p with
  | Starting => 8 * m + 7
  | Pacing _ i => 8 * (m - i) + 6
  | Stamping _ i => 8 * (m - i) + 5
  | Locking _ i _ => 8 * (m - i) + 4
  | Testing _ i _ => 8 * (m - i) + 3
  | Sleeping _ i _ => 8 * (m - i) + 2
  | Notifying _ i => 8 * (m - i) + 1
  | FinishLocking => 5 | FinishSetting => 4 | FinishNotifying => 3 | Finished => 0
  end.

Definition consumer_rank c (received : Z) : Z :=
  match c with
  | AtStart => 7 * m + 2
  | AtLoop => 7 * (m - received) + 1
  | AtLock => 7 * (m - received)
  | AtTest => 7 * (m - received) - 1
  | Asleep => 7 * (m - received) - 2
  | AtNotify _ => 7 * (m - received) - 3
  | Returned => 0
  end.

Definition rank w : Z := producer_rank (producer w) + consumer_rank (consumer w) (received w).

Lemma mutex_rank_bounds w : inv w → 0 ≤ producer_rank (producer w) ∧ 0 ≤ consumer_rank (consumer w) (received w) ∧ rank w ≤ 15 * m + 9.
Proof using Hm.
  intros HI. pose proof (mutex_inv_count w HI) as Hc. pose proof (mutex_pushes_bounds _ (iv_range _ HI)) as Hb.
  destruct HI as [H1 _ _ _ H5 _ _ _ _ _ H11 _ _ _]. unfold rank. rewrite H5. pose proof (vlen_nonneg (got w)).
  pose proof (vlen_nonneg (in_hand (consumer w))). pose proof (vlen_nonneg (MutexQueue.items_ (queue w))).
  assert (0 ≤ producer_rank (producer w) ≤ 8 * m + 7) by (destruct (producer w); cbn in *; lia).
  assert (0 ≤ consumer_rank (consumer w) (vlen (got w)) ≤ 7 * m + 2); [|lia].
  destruct (consumer w); cbn in *; try specialize (H11 eq_refl); lia.
Qed.

Lemma lock_spec w th w' : lock w th = Some w' → mutex_ w = None ∧ producer w' = producer w ∧ consumer w' = consumer w ∧ received w' = received w.
Proof using. unfold lock. destruct (mutex_ w); [done|]. by intros [= <-]. Qed.

(** [last]: a time by which every deadline of the pacing loop has passed. *)
Context (ms last : Z) (Hdue : due_by config ms last).

(** A turn moves a thread closer to the end, or the thread could not go on. *)
Lemma mutex_producer_progress w now :
  inv w → measured_start w = ms → rank (producer_turn cap config w now) < rank w ∨
    producer_turn cap config w now = w ∧ (enabled w Producer → now < last).
Proof using Hm Hdue.
  intros HI Hms. destruct HI as [H1 _ _ _ _ _ _ _ _ _ _ _ H12 _]. unfold producer_turn, enabled, rank.
  destruct (producer w) as [|st i|st i|st i sent|st i sent|st i sent|st i| | | |] eqn:Hp; cbn in H1.
  - destruct (consumer_ready w); [left|right]; cbn; [lia|done].
  - destruct (Z.ltb_spec i m); [|left; cbn; lia]. destruct (pace config st i now) eqn:Hpace; [left; cbn; lia|right].
    split; [done|]. intros _. destruct (Z.le_gt_cases last now) as [Hl|]; [|done]. cbn in H12. subst st.
    rewrite Hms, (pace_due _ _ _ _ _ Hdue) in Hpace; done || lia.
  - left. cbn. lia.
  - destruct (lock w Producer) as [w'|] eqn:Hl; [left|right].
    + apply lock_spec in Hl as (_ & _ & Hc & Hr). cbn. rewrite Hc, Hr. lia.
    + split; [done|]. unfold lock in Hl. by destruct (mutex_ w).
  - left. destruct (MutexQueue.push cap (queue w) _); cbn; lia.
  - right. done.
  - left. rewrite u64_small by lia. unfold wake_consumer. destruct (consumer w) eqn:Hc; cbn; rewrite ?Hc; cbn; lia.
  - destruct (lock w Producer) as [w'|] eqn:Hl; [left|right].
    + apply lock_spec in Hl as (_ & _ & Hc & Hr). cbn. rewrite Hc, Hr. lia.
    + split; [done|]. unfold lock in Hl. by destruct (mutex_ w).
  - left. cbn. lia.
  - left. unfold wake_consumer. destruct (consumer w) eqn:Hc; cbn; rewrite ?Hc; cbn; lia.
  - right. done.
Qed.

Lemma mutex_consumer_progress w now :
  inv w → rank (consumer_turn config w now) < rank w ∨ consumer_turn config w now = w ∧ ¬ enabled w Consumer.
Proof using Hm.
  intros HI. pose proof (mutex_inv_count w HI) as Hcount. pose proof (mutex_pushes_bounds _ (iv_range _ HI)) as Hb.
  destruct HI as [_ _ _ _ H5 _ _ _ _ _ H11 _ _ _]. unfold consumer_turn, enabled, rank.
  pose proof (vlen_nonneg (got w)). pose proof (vlen_nonneg (MutexQueue.items_ (queue w))).
  pose proof (vlen_nonneg (in_hand (consumer w))).
  destruct (consumer w) as [| | | | |item|] eqn:Hc; cbn [in_pop in_hand] in *; try specialize (H11 eq_refl).
  - left. cbn. lia.
  - left. destruct (Z.ltb_spec (received w) m); cbn; lia.
  - destruct (lock w Consumer) as [w'|] eqn:Hl; [left|right].
    + apply lock_spec in Hl as (_ & Hp & _ & Hr). cbn. rewrite Hp, Hr. lia.
    + split; [done|]. unfold lock in Hl. by destruct (mutex_ w).
  - left. destruct (MutexQueue.pop (queue w)) as [[q [item|]]|]; cbn; lia.
  - right. auto.
  - left. unfold wake_producer. destruct (producer w) eqn:Hp; cbn; rewrite ?Hp, u64_small by lia; cbn; lia.
  - right. auto.
Qed.

(** ** Fair schedules *)

Definition helps w (e : event) : Prop :=
  match e with
  | Turn Producer now => enabled w Producer ∧ last ≤ now
  | Turn Consumer _ => enabled w Consumer
  | Spurious _ => False
  end.

(** A turn, not a spurious wake-up. *)
Definition proper (e : event) : Prop := match e with Turn _ _ => True | Spurious _ => False end.

(** Both threads get a turn, the producer at a time when no deadline is ahead. *)
Definition fair (es : list event) : Prop :=
  Forall proper es ∧ (∃ now, Turn Consumer now ∈ es) ∧ ∃ now, Turn Producer now ∈ es ∧ last ≤ now.

Definition running w : Prop := inv w ∧ producer w ≠ Starting ∧ measured_start w = ms.

#[local] Instance mutex_run_progress : Progress (turn cap config) running ended (λ w, Z.to_nat (rank w)) helps proper.
Proof using Hm Hcap Hdue.
  split.
  - intros w e (HI & Hst & Hms) He. destruct e as [th now|]; [|done]. destruct (mutex_turn_inv w (Turn th now) HI) as (w' & Hturn & HI').
    exists w'. split; [done|]. destruct (mutex_turn_started _ _ _ Hturn Hst). split; [split; [done|]; by rewrite <- Hms|].
    destruct (mutex_rank_bounds w HI) as (? & ? & _), (mutex_rank_bounds w' HI') as (? & ? & _).
    unfold rank in *. unfold turn in Hturn. injection Hturn as Hw'. destruct th; subst w'.
    + destruct (mutex_producer_progress w now HI Hms) as [Hlt|[Heq Hno]]; [left; unfold rank in Hlt; lia|right].
      rewrite Heq. split; [done|]. split; [|done]. intros [Hen Hl]. specialize (Hno Hen). lia.
    + destruct (mutex_consumer_progress w now HI) as [Hlt|[Heq Hno]]; [left; unfold rank in Hlt; lia|right].
      rewrite Heq. split; [done|]. split; [|done]. intros Hen. by destruct Hno.
  - intros w (HI & _) Hr. destruct (mutex_rank_bounds w HI) as (Hp & Hc & _). unfold rank in Hr.
    pose proof (mutex_inv_count w HI) as Hcount. pose proof (vlen_nonneg (got w)). pose proof (mutex_pushes_bounds _ (iv_range _ HI)).
    pose proof (vlen_nonneg (MutexQueue.items_ (queue w))).
    destruct HI as [Hrange _ _ _ Hrec _ _ _ _ _ Hpop _ _ _]. rewrite Hrec in *. split.
    + destruct (producer w); cbn in *; done || lia.
    + destruct (consumer w); cbn in *; try specialize (Hpop eq_refl); try change (vlen (A := Item) []) with 0 in *; done || lia.
  - intros w w' e HI [Hp Hc] Hturn. unfold turn in Hturn. injection Hturn as <-. unfold ended.
    destruct e as [[|] now|[|]]; unfold producer_turn, consumer_turn, wake_producer, wake_consumer; by rewrite ?Hp, ?Hc.
Qed.

Lemma fair_helps es : fair es → fair_round running ended helps proper es.
Proof using Hm Hcap.
  intros (Hes & (now & Hin) & (now' & Hin' & Hl)). split; [done|]. intros w (HI & _).
  destruct (never_stuck w HI) as [?|[Hen|Hen]]; [by left|right; by exists (Turn Producer now')|right; by exists (Turn Consumer now)].
Qed.

Lemma mutex_run_ends w rounds :
  running w → Forall fair rounds → 15 * m + 9 ≤ vlen rounds →
  ∃ w', take_turns (turn cap config) w (concat rounds) = Ret w' ∧ inv w' ∧ ended w'.
Proof using Hm Hcap Hdue.
  intros Hw Hfair Hlen. destruct (mutex_rank_bounds w (proj1 Hw)) as (? & ? & Hr).
  destruct (fair_rounds_end (turn cap config) running ended (λ w, Z.to_nat (rank w)) helps proper rounds w Hw)
    as (w' & Hrun & (HI & _) & He); [|unfold vlen in Hlen; lia|by exists w'].
  eapply Forall_impl; [exact Hfair|]. apply fair_helps.
Qed.

Lemma mutex_ended_complete w : inv w → ended w →
  sequence <$> got w = seqZ 0 m ∧ MutexQueue.items_ (queue w) = [] ∧ vlen (got w) = m.
Proof using Hm.
  intros HI [Hp Hc]. pose proof (mutex_inv_count w HI) as Hcount. pose proof (iv_items _ HI) as Hseq. pose proof (iv_returned _ HI Hc) as Hg.
  rewrite Hp, Hc in *. cbn in *. change (vlen (A := Item) []) with 0 in Hcount.
  destruct (MutexQueue.items_ (queue w)) as [|x l]; [|rewrite vlen_cons in Hcount; pose proof (vlen_nonneg l); lia].
  by rewrite app_nil_r in Hseq.
Qed.
End run.

(** C24. The mutex queue delivers everything, and nobody waits forever. Take any moment of a
    run, spurious wake-ups included, at which the producer has begun to count. Once
    both threads keep getting turns and the clock has passed the last deadline of the
    pacing loop, both threads end within [15 n + 9] rounds: no wake-up is lost between a
    test of the queue, going to sleep and the notification. The consumer has then
    received every item, once and in the order of sending, the queue is empty, and the
    report has a sample of each. *)
Theorem mutex_run_complete {double} (zero : double) mean_of fused per_second cap config last early w rounds now :
  0 < cap → 0 ≤ messages config < 2 ^ 64 → sample_capacity config = messages config →
  take_turns (turn cap config) (start config) early = Ret w → producer w ≠ Starting →
  due_by config (measured_start w) last → Forall (fair last) rounds → 15 * messages config + 9 ≤ vlen rounds →
  ∃ w' throughput summary,
    take_turns (turn cap config) w (concat rounds) = Ret w' ∧ ended w' ∧
    sequence <$> got w' = seqZ 0 (messages config) ∧ MutexQueue.items_ (queue w') = [] ∧
    outcome_of zero mean_of fused per_second config (measured_start w') now (transit w') = Ret (throughput, summary) ∧
    Latency.count summary = messages config ∧ dropped_ (transit w') = 0.
Proof.
  intros Hcap Hm Hsc Hearly Hst Hdue Hfair Hlen.
  pose proof (turns_inv cap Hcap config Hm early _ _ Hearly (mutex_inv_start cap config ltac:(lia))) as HI0.
  destruct (mutex_run_ends cap Hcap config Hm _ last Hdue w rounds ltac:(done) Hfair Hlen) as (w' & Hrun & HI & He).
  destruct (mutex_ended_complete cap config Hm w' HI He) as (Hseq & Hq & Hg).
  pose proof (iv_samples _ _ _ HI) as Hsm. rewrite Hsc, Hg in Hsm.
  destruct (sampled_full _ _ Hsm ltac:(lia) zero mean_of fused) as (s' & s & Hs & Hcount & Hd).
  eexists w', _, s. split; [exact Hrun|]. split; [done|]. split; [done|]. split; [done|].
  unfold outcome_of. rewrite Hs. returns. split; [done|]. split; [lia|done].
Qed.

(** Two messages a microsecond apart through a queue of one slot: the consumer falls
    asleep before anything is sent, is woken for nothing, and the producer has still to
    wait for its second deadline. *)
Lemma mutex_run_complete_witness : ∃ w,
  take_turns (turn 1 (mkRun 2 2 (-1) (-1) 1000000)) (start (mkRun 2 2 (-1) (-1) 1000000))
    [Turn Consumer 5; Turn Consumer 5; Turn Consumer 5; Turn Consumer 5; Spurious Consumer; Turn Producer 6; Turn Producer 7] = Ret w ∧ ∃ w' throughput summary,
  take_turns (turn 1 (mkRun 2 2 (-1) (-1) 1000000)) w
    (concat (replicate 39 [Turn Producer 8; Turn Producer 1007; Turn Consumer 1008])) = Ret w' ∧ ended w' ∧
  sequence <$> got w' = seqZ 0 2 ∧ MutexQueue.items_ (queue w') = [] ∧
  outcome_of 0 (λ _, 0) false (λ _ ns, ns) (mkRun 2 2 (-1) (-1) 1000000) (measured_start w') 2000 (transit w')
    = Ret (throughput, summary) ∧
  Latency.count summary = 2 ∧ dropped_ (transit w') = 0.
Proof.
  eexists. split; [vm_compute; reflexivity|].
  apply (mutex_run_complete 0 (λ _, 0) false (λ _ ns, ns) 1 (mkRun 2 2 (-1) (-1) 1000000) 1006
    [Turn Consumer 5; Turn Consumer 5; Turn Consumer 5; Turn Consumer 5; Spurious Consumer; Turn Producer 6; Turn Producer 7]); try done.
  - right. intros i Hi. cbn in Hi. assert (i = 0 ∨ i = 1) as [-> | ->] by lia; vm_compute; done.
  - apply Forall_replicate. split; [repeat constructor|]. split.
    + exists 1008. set_solver.
    + exists 1007. split; [set_solver|lia].
Defined.
