(* ===== verification/SpinRuns.v ===== *)
(** * The rings deliver everything

    [run_spinning] for every queue that keeps the contract [FifoLaws] and whose [empty]
    tells the truth: under every schedule that keeps giving turns to both threads, each of
    them ends, and the consumer has then received everything. *)

From S2P Require Import Prelude Message Fairness SpscQueue QueueVariants BookSpec BookInterface Engine Latency Report QueueRuns.
Import Spinning.

#[local] Open Scope Z_scope.
#[local] Open Scope llte_scope.

(** [empty] as the consumer of a queue relies on it. *)
Class EmptyLaws (Q T : Type) `{EmptyOps Q} (R : Q → list T → Prop) : Prop :=
  law_empty q l : R q l → q_empty q = bool_decide (l = []).

#[export] Instance spsc_empty_laws {T} lg `{Hlg : Spsc.Exponent lg} : EmptyLaws (Spsc.t T) T (Spsc.rep (2 ^ lg)).
Proof. intros q l Hq. by apply (Spsc.empty_spec (2 ^ lg) lg Hlg). Qed.

#[export] Instance false_shared_empty_laws {T} lg `{Hlg : Spsc.Exponent lg} :
  EmptyLaws (FalseSharedQueue.t T) T (FalseSharedQueue.rep (2 ^ lg)).
Proof.
  intros q l (W & R & HC & Hrest). apply (Spsc.empty_spec (2 ^ lg) lg Hlg eq_refl (FalseSharedQueue.as_ring q)).
  by exists W, R, R, W.
Qed.

Section run.
Context {Q : Type} {ops : FifoOps Q Item} {eops : EmptyOps Q} {cap : Z} {R : Q → list Item → Prop}.
Context {laws : FifoLaws Q Item cap R} {elaws : EmptyLaws Q Item R} (Hcap : 0 < cap).
Context (config : RunConfig).
#[local] Abbreviation m := (messages config).
Context (Hm : 0 ≤ m < 2 ^ 64).
Implicit Types (w : t Q) (p : producer_pc) (c : consumer_pc) (l : list Item).

(** ** The invariant *)

Definition in_range p : Prop :=
  match p with
  | Pacing _ i => 0 ≤ i ≤ m
  | Stamping _ i | Pushing _ i _ => 0 ≤ i < m
  | _ => True
  end.

Definition pushes p : Z :=
  match p with Starting => 0 | Pacing _ i | Stamping _ i | Pushing _ i _ => i | Finished => m end.

Definition started_at p (ms : Z) : Prop :=
  match p with Pacing st _ | Stamping st _ | Pushing st _ _ => st = ms | _ => True end.

Definition is_done p : bool := match p with Finished => true | _ => false end.
Definition is_ready c : bool := match c with AtStart => false | _ => true end.

(** [l]: what is inside the ring. The consumer looks at the ring once more after it
    has seen that the producer is done. *)
Record inv w l : Prop := {
  iv_queue : R (queue w) l;
  iv_range : in_range (producer w);
  iv_items : sequence <$> got w ++ l = seqZ 0 (pushes (producer w));
  iv_done : producer_done w = is_done (producer w);
  iv_ready : consumer_ready w = is_ready (consumer w);
  iv_started : producer w ≠ Starting → consumer w ≠ AtStart;
  iv_start : started_at (producer w) (measured_start w);
  iv_empty : consumer w = AtEmpty → producer w = Finished;
  iv_returned : consumer w = Returned → producer w = Finished ∧ l = [];
  iv_samples : sampled (sample_capacity config) (vlen (got w)) (transit w)
}.

Lemma spin_inv_start q : 0 ≤ sample_capacity config → R q [] → inv (start config q) [].
Proof using.
  intros Hs Hq. split; try done. split; cbn; [unfold vlen; simpl; lia|done|]. by rewrite Z.min_l by (unfold vlen; simpl; lia).
Qed.

Lemma spin_pushes_bounds p : in_range p → 0 ≤ pushes p ≤ m.
Proof using Hm. destruct p; simpl; lia. Qed.

Lemma spin_inv_count w l : inv w l → vlen (got w) + vlen l = pushes (producer w).
Proof using Hm.
  intros HI. pose proof (f_equal length (iv_items _ _ HI)) as Hl. pose proof (spin_pushes_bounds _ (iv_range _ _ HI)).
  rewrite length_fmap, length_app, length_seqZ in Hl. unfold vlen. lia.
Qed.

(** ** Turns keep it *)

Ltac keep := split; cbn in *; try first [done | lia | by intuition | intros; congruence | by eauto].

Lemma spin_producer_inv w l now : inv w l → ∃ w' l', producer_turn config w now = Ret w' ∧ inv w' l'.
Proof using Hm laws.
  intros HI. pose proof HI as [H1 H2 H3 H4 H5 H6 H7 H8 H9 H10].
  destruct w as [q pd rdy ms tr p c gt]. unfold producer_turn. cbn in *.
  destruct p as [|st i|st i|st i sent|]; cbn in *.
  - eexists _, l. split; [done|]. destruct rdy; [|done]. keep. by destruct c.
  - eexists _, l. split; [done|]. destruct (Z.ltb_spec i m).
    + destruct (pace config st i now); [keep|done].
    + assert (i = m) as -> by lia. keep.
  - eexists _, l. split; [done|]. keep.
  - destruct (law_push q l (mkItem i sent) H1) as (q' & -> & Hq'). returns.
    eexists _, (if decide (vlen l < cap) then l ++ [_] else l). split; [done|]. destruct (decide (vlen l < cap)); [rewrite bool_decide_true by done|rewrite bool_decide_false by done; keep].
    rewrite u64_small by lia. keep. by rewrite app_assoc, fmap_app, H3, seqZ_app by lia.
  - eexists _, l. by split.
Qed.

Lemma spin_consumer_inv w l now : inv w l → ∃ w' l', consumer_turn w now = Ret w' ∧ inv w' l'.
Proof using Hm laws elaws.
  intros HI. pose proof HI as [H1 H2 H3 H4 H5 H6 H7 H8 H9 H10].
  destruct w as [q pd rdy ms tr p c gt]. unfold consumer_turn. cbn in *. destruct c; cbn in *.
  - eexists _, l. split; [done|]. keep.
  - destruct (law_pop q l H1) as (q' & -> & Hq'). returns. eexists _, (tail l). split; [done|].
    destruct l as [|x l]; cbn in *; keep.
    + by rewrite <- app_assoc.
    + rewrite vlen_snoc. by apply sampled_add.
  - eexists _, l. split; [done|]. rewrite H4. destruct p; cbn in *; keep.
  - eexists _, l. split; [done|]. rewrite (law_empty q l H1). case_bool_decide; keep.
  - eexists _, l. by split.
Qed.

Lemma spin_turn_inv w l tn : inv w l → ∃ w' l', turn config w tn = Ret w' ∧ inv w' l'.
Proof using Hm laws elaws. intros HI. destruct tn as [[] now]; [by apply (spin_producer_inv w l)|by apply (spin_consumer_inv w l)]. Qed.

Lemma turns_total ts : ∀ w l, inv w l → ∃ w' l', take_turns (turn config) w ts = Ret w' ∧ inv w' l'.
Proof using Hm laws elaws.
  induction ts as [|tn ts IH]; intros w l HI; cbn [take_turns]; [by exists w, l|].
  destruct (spin_turn_inv w l tn HI) as (w1 & l1 & -> & HI1). returns. by apply (IH w1 l1).
Qed.

(** ** How far it is to the end *)

Definition producer_rank p : Z :=
  match p with
  | Starting => 3 * m + 2
  | Pacing _ i => 3 * (m - i) + 1
  | Stamping _ i => 3 * (m - i)
  | Pushing _ i _ => 3 * (m - i) - 1
  | Finished => 0
  end.

Definition inside w : Z := pushes (producer w) - vlen (got w).

(** Whether it is up to the consumer: there is something to receive, or nothing more will come. *)
Definition consumers w : bool := is_done (producer w) || negb (inside w =? 0).

(** Steps of the consumer to its next item, or to its end. *)
Definition minor w : Z :=
  if consumers w then
    match consumer w with
    | AtStart => 3
    | AtPop => if inside w =? 0 then 3 else 1
    | AtDone => if inside w =? 0 then 2 else 3
    | AtEmpty => if inside w =? 0 then 1 else 2
    | Returned => 0
    end
  else 3.

Definition rank w : Z := 4 * (producer_rank (producer w) + (m - vlen (got w))) + minor w.

Lemma inv_inside w l : inv w l → inside w = vlen l.
Proof using Hm. intros HI. pose proof (spin_inv_count w l HI). unfold inside. lia. Qed.

Lemma minor_bounds w : 0 ≤ minor w ≤ 3.
Proof using. unfold minor. destruct (consumers w), (consumer w); try case_match; lia. Qed.

Lemma spin_rank_bounds w l : inv w l → 0 ≤ producer_rank (producer w) ∧ vlen (got w) ≤ m ∧ (producer w ≠ Starting → rank w ≤ 16 * m + 7).
Proof using Hm.
  intros HI. pose proof (spin_inv_count w l HI). pose proof (vlen_nonneg l). pose proof (vlen_nonneg (got w)).
  pose proof (spin_pushes_bounds _ (iv_range _ _ HI)). pose proof (minor_bounds w). pose proof (iv_range _ _ HI). unfold rank.
  destruct (producer w); cbn in *; (split; [lia|]); (split; [lia|]); intros Hst; done || lia.
Qed.

(** A run in which something moved on besides the consumer's search is nearer to its end. *)
Lemma rank_lower w w' :
  producer_rank (producer w') - vlen (got w') < producer_rank (producer w) - vlen (got w) → rank w' < rank w.
Proof using. intros. pose proof (minor_bounds w). pose proof (minor_bounds w'). unfold rank. lia. Qed.

(** ** Progress *)

(** [last]: a time by which every deadline of the pacing loop has passed. *)
Context (ms last : Z) (Hdue : due_by config ms last).

Definition helps w (tn : thread * Z) : Prop :=
  match tn.1 with
  | Producer => consumers w = false ∧ last ≤ tn.2
  | Consumer => consumers w = true
  end.

Definition ended w : Prop := producer w = Finished ∧ consumer w = Returned.

Definition running w : Prop := (∃ l, inv w l) ∧ producer w ≠ Starting ∧ measured_start w = ms.

Lemma spin_producer_progress w l now w' :
  inv w l → measured_start w = ms → producer w ≠ Starting → producer_turn config w now = Ret w' →
  rank w' < rank w ∨ rank w' = rank w ∧ consumers w' = consumers w ∧ (consumers w = false → now < last).
Proof using Hm Hdue Hcap laws.
  intros HI Hms Hns. pose proof (iv_range _ _ HI) as Hr. pose proof (iv_start _ _ HI) as Hs. pose proof (inv_inside w l HI) as Hin.
  unfold producer_turn. destruct (producer w) as [|st i|st i|st i sent|] eqn:Hp; cbn in Hr, Hs.
  - done.
  - intros [= <-]. destruct (Z.ltb_spec i m); [|left; apply rank_lower; cbn; rewrite Hp; cbn; lia].
    destruct (pace config st i now) eqn:Hpace; [left; apply rank_lower; cbn; rewrite Hp; cbn; lia|].
    right. split; [done|]. split; [done|]. intros _. destruct (Z.le_gt_cases last now); [|done].
    rewrite Hs, Hms, (pace_due _ _ _ _ _ Hdue) in Hpace; done || lia.
  - intros [= <-]. left. apply rank_lower. cbn. rewrite Hp. cbn. lia.
  - destruct (law_push (queue w) l (mkItem i sent) (iv_queue _ _ HI)) as (q' & -> & Hq'). returns. intros [= <-].
    case_bool_decide; [left; apply rank_lower; cbn; rewrite Hp, u64_small by lia; cbn; lia|].
    right. unfold rank, minor, consumers, inside in *. rewrite Hp in *. cbn in *. split; [done|]. split; [done|].
    destruct (Z.eqb_spec (i - vlen (got w)) 0); [lia|done].
  - intros [= <-]. right. unfold consumers. by rewrite Hp.
Qed.

Lemma spin_consumer_progress w l now w' :
  inv w l → producer w ≠ Starting → consumer_turn w now = Ret w' →
  rank w' < rank w ∨ rank w' = rank w ∧ consumers w' = consumers w ∧ (consumers w = true → ended w).
Proof using Hm laws elaws.
  intros HI Hns. pose proof (inv_inside w l HI) as Hin. pose proof (iv_started _ _ HI Hns) as Hst.
  pose proof (iv_done _ _ HI) as Hd. pose proof (iv_empty _ _ HI) as He. pose proof (iv_returned _ _ HI) as Hret.
  unfold consumer_turn. destruct (consumer w) eqn:Hc; [done| | | |].
  - destruct (law_pop (queue w) l (iv_queue _ _ HI)) as (q' & -> & Hq'). returns. intros [= <-]. destruct l as [|x l]; cbn.
    + unfold rank, minor, consumers, inside in *. rewrite Hc. cbn in *. rewrite Hin. change (vlen (A := Item) [] =? 0) with true.
      destruct (producer w); cbn; [right|right|right|right|left]; done || lia.
    + left. apply rank_lower. cbn. rewrite vlen_snoc. lia.
  - intros [= <-]. rewrite Hd. unfold rank, minor, consumers, inside in *. rewrite Hc. cbn in *.
    destruct (Z.eqb_spec (pushes (producer w) - vlen (got w)) 0), (producer w); cbn; (left; lia) || (right; done).
  - rewrite (law_empty (queue w) l (iv_queue _ _ HI)). intros [= <-]. left. specialize (He eq_refl).
    unfold rank, minor, consumers, inside in *. cbn in *. rewrite Hc, He in *. cbn in *. rewrite Hin.
    case_bool_decide as Hl; [subst l; change (vlen (A := Item) [] =? 0) with true; cbn; lia|]. destruct l as [|x l]; [done|]. rewrite vlen_cons. pose proof (vlen_nonneg l).
    case_match; lia.
  - intros [= <-]. right. split; [done|]. split; [done|]. intros _. by destruct (Hret eq_refl).
Qed.

Lemma spin_turn_started w w' tn : turn config w tn = Ret w' → producer w ≠ Starting →
  producer w' ≠ Starting ∧ measured_start w' = measured_start w.
Proof using.
  destruct w as [q pd rdy mst tr p c gt], tn as [[|] now]; unfold turn, producer_turn, consumer_turn; cbn; intros Ht Hp.
  - destruct p; try done; [injection Ht as <-..| |by injection Ht as <-]; [repeat (case_match; cbn; try done)|done|].
    destruct (q_push q _) as [[q' ok]|]; [|done]. injection Ht as <-. by destruct ok.
  - destruct c; [by injection Ht as <-| |by injection Ht as <-..].
    destruct (q_pop q) as [[q' [x|]]|]; [by injection Ht as <-..|done].
Qed.

(** The producer starts with its first turn after the consumer's first. *)
Lemma spin_run_begins w l w1 w2 a b : inv w l →
  turn config w (Consumer, a) = Ret w1 → turn config w1 (Producer, b) = Ret w2 → producer w2 ≠ Starting.
Proof using Hm laws elaws.
  intros HI H1 H2. destruct (spin_turn_inv w l (Consumer, a) HI) as (w1' & l1 & H1' & HI1). assert (w1' = w1) as -> by congruence.
  assert (producer w1 = Starting ∨ producer w1 ≠ Starting) as [Hs|] by (destruct (producer w1); by (left + right));
    [|by apply (spin_turn_started w1 w2 (Producer, b))].
  assert (consumer w1 ≠ AtStart) as Hc.
  { cbn in H1. unfold consumer_turn in H1. destruct (consumer w) eqn:Hcw; [by injection H1 as <-| |injection H1 as <-..]; cbn; try congruence.
    - destruct (q_pop (queue w)) as [[q [x|]]|]; cbn in H1; [injection H1 as <-; cbn; congruence..|done].
    - by case_match.
    - by case_match. }
  cbn in H2. unfold producer_turn in H2. rewrite Hs, (iv_ready _ _ HI1) in H2. injection H2 as <-. by destruct (consumer w1).
Qed.

#[local] Instance spin_run_progress : Progress (turn config) running ended (λ w, Z.to_nat (rank w)) helps (λ _, True).
Proof using Hm Hdue Hcap laws elaws.
  assert (∀ w l, inv w l → 0 ≤ rank w) as Hpos.
  { intros w l HI. destruct (spin_rank_bounds w l HI) as (? & ? & _). pose proof (minor_bounds w). unfold rank. lia. }
  split.
  - intros w tn ([l HI] & Hns & Hms) _. destruct (spin_turn_inv w l tn HI) as (w' & l' & Ht & HI').
    exists w'. split; [done|]. destruct (spin_turn_started w w' tn Ht Hns). split; [split; [by exists l'|]; by rewrite <- Hms|].
    pose proof (Hpos w l HI). pose proof (Hpos w' l' HI'). destruct tn as [[] now]; cbn in Ht.
    + destruct (spin_producer_progress w l now w' HI Hms Hns Ht) as [?|(? & Hcs & Hno)]; [left; lia|right].
      split; [lia|]. unfold helps. cbn. rewrite Hcs. split; [|done]. intros [Hf ?]. specialize (Hno Hf). lia.
    + destruct (spin_consumer_progress w l now w' HI Hns Ht) as [?|(? & Hcs & Hno)]; [left; lia|right].
      split; [lia|]. unfold helps. cbn. rewrite Hcs. done.
  - intros w ([l HI] & Hns & _) Hr. pose proof (Hpos w l HI). destruct (spin_rank_bounds w l HI) as (? & ? & _).
    pose proof (minor_bounds w). unfold rank, ended in *. assert (minor w = 0) as Hmin by lia. unfold minor, consumers in Hmin.
    assert (producer_rank (producer w) = 0) as Hp by lia. pose proof (iv_range _ _ HI).
    destruct (producer w) eqn:Hpr; cbn in *; try lia. split; [done|]. by destruct (consumer w); try (case_match; lia).
  - intros w w' tn _ [Hp Hc] Ht. destruct tn as [[] now]; cbn in Ht; unfold producer_turn, consumer_turn in Ht;
      rewrite ?Hp, ?Hc in Ht; by injection Ht as <-.
Qed.

(** Both threads get a turn, the producer at a time when no deadline is ahead. *)
Definition fair (ts : list (thread * Z)) : Prop :=
  (∃ now, (Consumer, now) ∈ ts) ∧ ∃ now, (Producer, now) ∈ ts ∧ last ≤ now.

Lemma spin_run_ends w rounds :
  running w → Forall fair rounds → 16 * m + 7 ≤ vlen rounds →
  ∃ w' l, take_turns (turn config) w (concat rounds) = Ret w' ∧ inv w' l ∧ ended w'.
Proof using Hm Hdue Hcap laws elaws.
  intros Hw Hfair Hlen. pose proof Hw as ([l HI] & Hns & _). destruct (spin_rank_bounds w l HI) as (_ & _ & Hr). specialize (Hr Hns).
  destruct (fair_rounds_end (turn config) running ended (λ w, Z.to_nat (rank w)) helps (λ _, True) rounds w Hw)
    as (w' & Hrun & ([l' HI'] & _) & He); [|unfold vlen in Hlen; lia|by exists w', l'].
  eapply Forall_impl; [exact Hfair|]. intros ts ((now & Hin) & (now' & Hin' & Hl)). split; [by apply Forall_true|].
  intros w0 _. right. destruct (consumers w0) eqn:Hcs; [by exists (Consumer, now)|by exists (Producer, now')].
Qed.

Lemma spin_ended_complete w l : inv w l → ended w → sequence <$> got w = seqZ 0 m ∧ l = [] ∧ vlen (got w) = m.
Proof using Hm.
  intros HI [Hp Hc]. pose proof (spin_inv_count w l HI) as Hcount. pose proof (iv_items _ _ HI) as Hseq.
  destruct (iv_returned _ _ HI Hc) as [_ ->]. rewrite Hp, app_nil_r in *. cbn in *. change (vlen (A := Item) []) with 0 in Hcount.
  by rewrite Z.add_0_r in Hcount.
Qed.
End run.

(** ** The three rings *)

(** What [run_spinning<QueueType>] promises. No turn of a run faults. Take any moment
    at which the producer has begun to count; once both threads keep getting turns, with
    the deadlines of the pacing loop past, they end, and everything was received, in order
    and with a sample each. *)
Definition completes {Q : Type} {ops : FifoOps Q Item} {eops : EmptyOps Q} (fresh : Q) (config : RunConfig) : Prop :=
  ∀ early, ∃ w, take_turns (turn config) (start config fresh) early = Ret w ∧
  ∀ last rounds double (zero : double) mean_of fused per_second now,
    producer w ≠ Starting → due_by config (measured_start w) last →
    Forall (fair last) rounds → 16 * messages config + 7 ≤ vlen rounds →
    ∃ w' throughput summary,
      take_turns (turn config) w (concat rounds) = Ret w' ∧ ended w' ∧
      sequence <$> got w' = seqZ 0 (messages config) ∧ q_empty (queue w') = true ∧
      outcome_of zero mean_of fused per_second config (measured_start w') now (transit w') = Ret (throughput, summary) ∧
      Latency.count summary = messages config ∧ dropped_ (transit w') = 0.

Lemma laws_complete {Q} {ops : FifoOps Q Item} {eops : EmptyOps Q} cap R {laws : FifoLaws Q Item cap R}
    {elaws : EmptyLaws Q Item R} fresh config :
  0 < cap → R fresh [] → 0 ≤ messages config < 2 ^ 64 → sample_capacity config = messages config →
  completes fresh config.
Proof.
  intros Hcap Hfresh Hm Hsc early. pose proof (spin_inv_start (R := R) config fresh ltac:(lia) Hfresh) as HI.
  destruct (turns_total config Hm early _ _ HI) as (w & l & Hw & HI0). exists w. split; [done|].
  intros last rounds double zero mean_of fused per_second now Hst Hdue Hfair Hlen.
  destruct (spin_run_ends Hcap config Hm _ last Hdue w rounds) as (w' & l' & Hrun & HI' & He); [by split; [exists l|]|done|done|].
  destruct (spin_ended_complete config Hm w' l' HI' He) as (Hseq & -> & Hg).
  pose proof (iv_samples _ _ _ HI') as Hsm. rewrite Hsc, Hg in Hsm.
  destruct (sampled_full _ _ Hsm ltac:(lia) zero mean_of fused) as (s' & s & Hs & Hcount & Hd).
  eexists w', _, s. split; [exact Hrun|]. split; [done|]. split; [done|]. split; [by apply (law_empty _ _ (iv_queue _ _ _ HI'))|].
  unfold outcome_of. rewrite Hs. returns. split; [done|]. split; [lia|done].
Qed.

(** C25. Every ring of the benchmark delivers everything. For the ring that shares a cache
    line, the aligned one and the shipped one, with the 1024 slots of the benchmark and
    any number of messages, at any rate: no turn of a run reads outside the ring, and from
    any moment on at which the producer has begun, both threads end within [16 n + 7] fair
    rounds (the consumer looks at the ring once more after it has seen that the producer
    is done, so the last items are not left behind). It has then received every item,
    once and in the order of sending, and the report has a sample of each. *)
Theorem spinning_run_complete config :
  0 ≤ messages config < 2 ^ 64 → sample_capacity config = messages config →
  completes (ops := FalseSharedQueue.uncached_ops kCapacity) (FalseSharedQueue.make kCapacity (mkItem 0 0)) config ∧
  completes (ops := {| q_push := AlignedQueue.try_push kCapacity; q_pop := AlignedQueue.try_pop kCapacity |})
    (eops := AlignedQueue.empty) (FalseSharedQueue.make kCapacity (mkItem 0 0)) config ∧
  completes (ops := Spsc.spsc_ops kCapacity) (Spsc.make kCapacity (mkItem 0 0)) config.
Proof.
  intros Hm Hsc. assert (Spsc.Exponent 10) as Hlg by done. change kCapacity with (2 ^ 10).
  assert (completes (ops := FalseSharedQueue.uncached_ops (2 ^ 10)) (FalseSharedQueue.make (2 ^ 10) (mkItem 0 0)) config) as Hplain.
  { apply (laws_complete (2 ^ 10) (FalseSharedQueue.rep (2 ^ 10)) (laws := FalseSharedQueue.uncached_laws 10)); [done| |done|done].
    by apply (FalseSharedQueue.plain_drained_rep (2 ^ 10) 10 Hlg eq_refl 0). }
  split; [exact Hplain|]. split; [exact Hplain|].
  apply (laws_complete (2 ^ 10) (Spsc.rep (2 ^ 10)) (laws := Spsc.spsc_laws 10)); [done| |done|done].
  rewrite Spsc.make_drained. by apply (Spsc.drained_rep (2 ^ 10) 10 Hlg eq_refl 0).
Qed.

(** Two messages a microsecond apart through the shipped ring. *)
Lemma spinning_run_complete_witness :
  ∃ w, take_turns (turn (mkRun 2 2 (-1) (-1) 1000000) (H := Spsc.spsc_ops kCapacity))
    (start (mkRun 2 2 (-1) (-1) 1000000) (Spsc.make kCapacity (mkItem 0 0)))
    [(Consumer, 5); (Consumer, 5); (Producer, 6); (Consumer, 7); (Producer, 7)] = Ret w ∧ ∃ w' throughput summary,
    take_turns (turn (mkRun 2 2 (-1) (-1) 1000000) (H := Spsc.spsc_ops kCapacity)) w
      (concat (replicate 39 [(Producer, 8); (Producer, 1006); (Consumer, 1008)])) = Ret w' ∧ ended w' ∧
    sequence <$> got w' = seqZ 0 2 ∧ q_empty (queue w') = true ∧
    outcome_of 0 (λ _, 0) false (λ _ ns, ns) (mkRun 2 2 (-1) (-1) 1000000) (measured_start w') 2000 (transit w')
      = Ret (throughput, summary) ∧
    Latency.count summary = 2 ∧ dropped_ (transit w') = 0.
Proof.
  destruct (spinning_run_complete (mkRun 2 2 (-1) (-1) 1000000) ltac:(done) eq_refl) as (_ & _ & Hspsc).
  destruct (Hspsc [(Consumer, 5); (Consumer, 5); (Producer, 6); (Consumer, 7); (Producer, 7)]) as (w & Hw & Hrest).
  exists w. split; [exact Hw|]. vm_compute in Hw. injection Hw as <-. apply (Hrest 1006); [done| | |done].
  - right. intros i Hi. cbn in Hi. assert (i = 0 ∨ i = 1) as [-> | ->] by lia; vm_compute; done.
  - apply Forall_replicate. split; [exists 1008; set_solver|]. exists 1006. split; [set_solver|lia].
Defined.
