(* ===== verification/Pipeline.v ===== *)
(** * The pipeline in one process

    [benchmarks/end_to_end.cpp]: a stream of messages is built in advance; a producer
    thread cuts it into packets, sequences them and pushes the events into a ring, a
    consumer thread applies them to a book and records what each stage took. The
    turns of the consumer fall between the attempts of the producer to push, as a
    schedule says; nothing else is shared while both run. *)

From stdpp Require Import strings.
From S2P Require Import Prelude Message History BookSpec BookInterface OrderBook OrderBookRep OrderBookMake.
From S2P Require Import OrderBookTheorems SpscQueue Channel SequenceManager SequenceInv SequenceProperties InOrder.
From S2P Require Import Engine EngineProperties BookBenchmark Handler HandlerProperties Exchange ExchangeProperties.
From S2P Require Import Recovery EndToEnd System Report Args.

#[local] Open Scope Z_scope.
#[local] Open Scope llte_scope.

Module Pipeline.

(** ** The stream *)

Section stream.
Context {E : Type} `{RngEnv E}.

(** The body of the loop of [build_stream]. *)
Definition stream_message (e : E) (live : list Z) (next_order_id sequence : Z)
    : outcome (E * MarketMessage * list Z * Z) :=
  let message type oid s p q := mkMessage sequence 0 oid p q 1 type s 0 in
  let '(e, draw) := rng e in
  let roll := draw mod 100 in
  if (vlen live =? 0) || (roll <? 60) then
    let '(e, bit) := rng e in
    let side := if negb (Z.land bit 1 =? 0) then Buy else Sell in
    let '(e, off) := offset e in
    price ← i32 (18750 + off);
    price ← i32 (price + (if decide (side = Buy) then -2 else 2));
    let '(e, lots) := lot e in
    Ret (e, message Add next_order_id side price (u32 (lots * 10)), live ++ [next_order_id], u64 (next_order_id + 1))
  else
    let '(e, draw) := rng e in
    index ← umod draw (vlen live);
    id ← load live index;
    if roll <? 80 then
      live ← take_out live index;
      Ret (e, message Cancel id (Side_raw 0) 0 0, live, next_order_id)
    else if roll <? 92 then
      let '(e, off) := offset e in
      price ← i32 (18750 + off);
      let '(e, lots) := lot e in
      Ret (e, message Modify id (Side_raw 0) price (u32 (lots * 10)), live, next_order_id)
    else
      let '(e, lots) := lot e in
      Ret (e, message Trade id (Side_raw 0) 0 (u32 (lots * 5)), live, next_order_id).

Fixpoint stream_loop (n : nat) (e : E) (live : list Z) (next_order_id sequence : Z) : outcome (list MarketMessage) :=
  match n with
  | O => Ret []
  | S n =>
      '(e, message, live, next_order_id) ← stream_message e live next_order_id sequence;
      stream ← stream_loop n e live next_order_id (u64 (sequence + 1));
      Ret (message :: stream)
  end.

Definition build_stream (count : Z) (e : E) : outcome (list MarketMessage) := stream_loop (Z.to_nat count) e [] 1 1001.
End stream.

(** ** The consumer *)

Record consumer := mkConsumer {
  c_book : Book.t;
  decode_stage : LatencySamples;
  sequence_stage : LatencySamples;
  ring_stage : LatencySamples;
  c_book_stage : LatencySamples;
  total_stage : LatencySamples;
  c_consumed : Z
}.

Definition consumer_start (b : Book.t) (message_count : Z) : consumer :=
  let s := samples_make message_count in mkConsumer b s s s s s 0.

(** The loop body for an event that [try_pop] returned. *)
Definition on_popped (c : consumer) (event : PipelineEvent) (t3_dequeue t4_book : Z) : outcome consumer :=
  let message := msg event in
  b ← match type message with
      | Add => '(b, _) ← Book.add (c_book c) (order_id message) (side message) (price message) (quantity message); Ret b
      | Cancel => '(b, _) ← Book.cancel (c_book c) (order_id message); Ret b
      | Modify => '(b, _) ← Book.modify (c_book c) (order_id message) (price message) (quantity message); Ret b
      | Trade => '(b, _) ← Book.execute (c_book c) (order_id message) (quantity message); Ret b
      | MessageType_raw _ => Ret (c_book c)
      end;
  Ret (mkConsumer b (samples_add (decode_stage c) (u64 (ev_t1_parsed event - ev_t0_recv event)))
    (samples_add (sequence_stage c) (u64 (t2_enqueue event - ev_t1_parsed event)))
    (samples_add (ring_stage c) (u64 (t3_dequeue - t2_enqueue event)))
    (samples_add (c_book_stage c) (u64 (t4_book - t3_dequeue)))
    (samples_add (total_stage c) (u64 (t4_book - ev_t0_recv event))) (u64 (c_consumed c + 1))).

(** What the two threads share, and the consumer's own state. *)
Record joint := mkJoint { j_channel : Channel.t PipelineEvent; j_consumer : consumer }.

(** One turn of the consumer's loop, with the clock readings of an event. *)
Definition consumer_turn (cap : Z) (s : joint) (stamps : Z * Z) : outcome joint :=
  '(c, out) ← Channel.consume cap (j_channel s);
  match out with
  | Some ev => consumer ← on_popped (j_consumer s) ev stamps.1 stamps.2; Ret (mkJoint c consumer)
  | None => Ret (mkJoint c (j_consumer s))
  end.

Fixpoint consumer_turns (cap : Z) (s : joint) (stamps : list (Z * Z)) : outcome joint :=
  match stamps with
  | [] => Ret s
  | st :: stamps => s ← consumer_turn cap s st; consumer_turns cap s stamps
  end.

(** ** The producer *)

(** The readings the producer has taken of the clock, what it shares with the
    consumer, and the attempts it has made to push. *)
Record world := mkWorld { w_ticks : nat; w_joint : joint; w_attempts : nat }.

Section producer.
Context (cap : Z) (clock : nat → Z) (turns : nat → list (Z * Z)).

Definition now (w : world) : world * Z := (mkWorld (S (w_ticks w)) (w_joint w) (w_attempts w), clock (w_ticks w)).

(** The sequencer is built with [nullptr] for the recovery client: no request. *)
#[export] Instance world_env : SeqEnv world := { env_request w _ _ := (w, None); env_now := now }.

(** [while (llte::now_ns() < deadline)] *)
Fixpoint pace (fuel : nat) (w : world) (deadline : Z) : outcome world :=
  match fuel with
  | O => Fault OutOfFuel
  | S fuel => let '(w, t) := now w in if t <? deadline then pace fuel w deadline else Ret w
  end.

(** [ring.try_push(event)], after the turns the consumer takes before it. *)
Definition try_push (w : world) (ev : PipelineEvent) : outcome (world * bool) :=
  s ← consumer_turns cap (w_joint w) (turns (w_attempts w));
  '(c, ok) ← Channel.publish cap (j_channel s) ev;
  Ret (mkWorld (w_ticks w) (mkJoint c (j_consumer s)) (S (w_attempts w)), ok).

(** [while (!ring.try_push(event)) event.t2_enqueue = now_ns();] *)
Fixpoint push (fuel : nat) (w : world) (ev : PipelineEvent) : outcome world :=
  match fuel with
  | O => Fault OutOfFuel
  | S fuel =>
      '(w, ok) ← try_push w ev;
      if ok : bool then Ret w else let '(w, t2) := now w in push fuel w (Handler.stamp t2 ev)
  end.

(** [while (sequencer.next_deliverable(deliverable))] with its body. *)
Fixpoint deliver (fuel spin_fuel : nat) (w : world) (q : Seq.t) : outcome (world * Seq.t) :=
  match fuel with
  | O => Fault OutOfFuel
  | S fuel =>
      '(q, out) ← Seq.next_deliverable q;
      match out with
      | None => Ret (w, q)
      | Some m =>
          let '(w, t2) := now w in
          w ← push spin_fuel w (mkEvent (message m) (t0_recv m) (t1_parsed m) t2 0);
          deliver fuel spin_fuel w q
      end
  end.

Definition set_timestamp (t : Z) (m : MarketMessage) : MarketMessage :=
  mkMessage (sequence_number m) t (order_id m) (price m) (quantity m) (symbol_id m) (type m) (side m) (reserved m).

(** [payload[i] = stream[position + i]; payload[i].timestamp_ns = now_ns();] for [n] messages *)
Fixpoint fill (stream : list MarketMessage) (n : nat) (w : world) (position : Z) : outcome (world * list MarketMessage) :=
  match n with
  | O => Ret (w, [])
  | S n =>
      m ← load stream position;
      let '(w, t) := now w in
      '(w, payload) ← fill stream n w (position + 1);
      Ret (w, set_timestamp t m :: payload)
  end.

(** The body of the producer's loop from the packet on; the packet has room for
    [kMaxBatch] messages, and its magic number is the one just written. *)
Definition send (spin_fuel : nat) (stream : list MarketMessage) (w : world) (q : Seq.t) (position count : Z)
    : outcome (world * Seq.t) :=
  if kMaxBatch <? count then Fault OutOfBounds
  else
    '(w, payload) ← fill stream (Z.to_nat count) w position;
    let '(w, t0_recv) := now w in
    if (count =? 0) || (kMaxBatch <? count) then Ret (w, q)
    else
      let '(w, t1_parsed) := now w in
      '(w, q) ← Handler.accept_payload w q t0_recv t1_parsed payload;
      deliver (S (length (Seq.buffer_ q))) spin_fuel w q.

Fixpoint produce (fuel spin_fuel pace_fuel : nat) (stream : list MarketMessage) (batch interval_ns start_ns : Z)
    (w : world) (q : Seq.t) (position : Z) : outcome world :=
  match fuel with
  | O => Fault OutOfFuel
  | S fuel =>
      if position <? vlen stream then
        w ← (if 0 <? interval_ns then pace pace_fuel w (u64 (start_ns + u64 (position * interval_ns))) else Ret w);
        let count := u16 (Z.min batch (vlen stream - position)) in
        '(w, q) ← send spin_fuel stream w q position count;
        produce fuel spin_fuel pace_fuel stream batch interval_ns start_ns w q (u64 (position + count))
      else Ret w
  end.

Definition interval_of (rate : Z) : Z := if 0 <? rate then 1000000000 / rate else 0.

(** The producer thread, once the consumer has built its book; the flag is set by [run]. *)
Definition producer (fuel spin_fuel pace_fuel : nat) (stream : list MarketMessage) (batch rate : Z) (w : world)
    : outcome world :=
  let '(w, start_ns) := now w in
  produce fuel spin_fuel pace_fuel stream batch (interval_of rate) start_ns w (Seq.make (Z.shiftl 1 16) false) 0.

(** Both threads: [producer_done.store(true)] ends the producer, [stamps] are the
    consumer's turns from there on. *)
Definition run (max_orders : Z) (fuel spin_fuel pace_fuel : nat) (stream : list MarketMessage) (batch rate message_count : Z)
    (stamps : list (Z * Z)) : outcome joint :=
  b ← Book.make (book_config max_orders);
  w ← producer fuel spin_fuel pace_fuel stream batch rate
        (mkWorld 0 (mkJoint (Channel.init cap PipelineEvent_zero) (consumer_start b message_count)) 0);
  consumer_turns cap (mkJoint (Channel.finish (j_channel (w_joint w))) (j_consumer (w_joint w))) stamps.
End producer.

(** ** The options *)

Record Options := mkOptions { message_count : Z; batch : Z; seed : Z; producer_cpu : Z; consumer_cpu : Z; rate : Z }.

Definition options (a : Args.values) : Options :=
  mkOptions (u64 (Args.integer a "messages"%string 2000000)) (Exchange.clamp_batch (Args.integer a "batch"%string 1))
    (u64 (Args.integer a "seed"%string 5)) (Args.to_int (Args.integer a "producer-cpu"%string (-1)))
    (Args.to_int (Args.integer a "consumer-cpu"%string (-1))) (u64 (Args.integer a "rate"%string 1000000)).

(** [main] up to the two joins; [None] after the usage text. [generator] seeds the random
    generator. What [pin_to_cpu] answers is not looked at. *)
Definition main {E} `{RngEnv E} (cap max_orders : Z) (fuel spin_fuel pace_fuel : nat) (generator : Z → E)
    (clock : nat → Z) (turns : nat → list (Z * Z)) (stamps : list (Z * Z)) (a : Args.values) : outcome (option joint) :=
  if Args.has a "help"%string then Ret None
  else
    let o := options a in
    stream ← build_stream (message_count o) (generator (seed o));
    s ← run cap clock turns max_orders fuel spin_fuel pace_fuel stream (batch o) (rate o) (message_count o) stamps;
    Ret (Some s).
End Pipeline.
Import Pipeline.

(** ** The stream is the workload of the book benchmark *)

(** The message that stands for an operation. *)
Definition message_of (sequence : Z) (o : Operation) : MarketMessage :=
  let message type s p q := mkMessage sequence 0 (op_order_id o) p q 1 type s 0 in
  match action o with
  | DoAdd => message Add (op_side o) (op_price o) (op_quantity o)
  | DoCancel => message Cancel (Side_raw 0) 0 0
  | DoModify => message Modify (Side_raw 0) (op_price o) (op_quantity o)
  | DoExecute => message Trade (Side_raw 0) 0 (op_quantity o)
  end.

Fixpoint messages_of (sequence : Z) (os : list Operation) : list MarketMessage :=
  match os with
  | [] => []
  | o :: os => message_of sequence o :: messages_of (u64 (sequence + 1)) os
  end.

Section same_flow.
Context {E : Type} `{RngEnv E}.

Lemma stream_message_of (e : E) live next_id sequence :
  stream_message e live next_id sequence =
  ('(e, o, live, next_id) ← next_operation e live next_id; Ret (e, message_of sequence o, live, next_id)).
Proof using.
  unfold stream_message, next_operation, new_operation. destruct (rng e) as [e1 draw]. destruct (_ || _).
  - destruct (rng e1) as [e2 bit], (offset e2) as [e3 off]. set (side := if negb _ then Buy else Sell).
    destruct (i32 _) as [p|]; [|done]. returns. destruct (i32 _) as [p'|]; [|done]. returns. by destruct (lot e3).
  - destruct (rng e1) as [e2 d2]. destruct (umod _ _) as [i|]; [|done]. returns.
    destruct (load live i) as [id|]; [|done]. returns. destruct (_ <? 80).
    + by destruct (take_out live i).
    + destruct (_ <? 92); [|by destruct (lot e2)]. destruct (offset e2) as [e3 off].
      destruct (i32 _) as [p|]; [|done]. returns. by destruct (lot e3).
Qed.

Lemma stream_loop_of n : ∀ (e : E) live next_id sequence,
  stream_loop n e live next_id sequence = (os ← build_loop n e live next_id; Ret (messages_of sequence os)).
Proof using.
  induction n as [|n IH]; intros e live next_id sequence; [done|]. cbn [stream_loop build_loop].
  rewrite stream_message_of. destruct (next_operation e live next_id) as [[[[e1 o] live1] next1]|]; [|done]. returns.
  rewrite IH. by destruct (build_loop n e1 live1 next1).
Qed.
End same_flow.

Lemma messages_of_length sequence os : length (messages_of sequence os) = length os.
Proof. revert sequence. induction os as [|o os IH]; intros sequence; [done|]. simpl. by rewrite IH. Qed.

(** A message of the stream: unstamped, with the number of its place. *)
Lemma messages_of_lookup os : ∀ sequence i m,
  0 ≤ sequence → sequence + vlen os < 2 ^ 64 → messages_of sequence os !! i = Some m →
  ∃ o, os !! i = Some o ∧ m = message_of (sequence + Z.of_nat i) o.
Proof.
  induction os as [|o os IH]; intros sequence i m Hs Hfit; [done|]. rewrite vlen_cons in Hfit. pose proof (vlen_nonneg os).
  cbn [messages_of]. rewrite u64_small by lia. destruct i as [|i]; simpl.
  - intros [= <-]. exists o. by rewrite Z.add_0_r.
  - intros Hm. destruct (IH (sequence + 1) i m ltac:(lia) ltac:(lia) Hm) as (o' & Ho & ->). exists o'. split; [done|]. f_equal. lia.
Qed.

Lemma message_of_number sequence o : sequence_number (message_of sequence o) = sequence.
Proof. unfold message_of. by destruct (action o). Qed.

Lemma message_of_quantity sequence o : operation_ok o → quantity_ok (message_of sequence o).
Proof. unfold operation_ok, quantity_ok, message_of, sound_quantity. destruct (action o); simpl; lia. Qed.

(** A message but for its time stamp. *)
Definition unstamped (m : MarketMessage) : MarketMessage := set_timestamp 0 m.

Lemma unstamped_message_of t sequence o : unstamped (set_timestamp t (message_of sequence o)) = message_of sequence o.
Proof. unfold message_of. by destruct (action o). Qed.

(** ** The consumer is the engine, with less to report *)

Definition consumer_of (s : engine Book.t) : Pipeline.consumer :=
  mkConsumer (book s) (parse_stage (stages s)) (enqueue_stage (stages s)) (queue_stage (stages s))
    (book_stage (stages s)) (handler_to_book (stages s)) (consumed s).

Definition view (s : shared) : joint := mkJoint (channel s) (consumer_of (System.consumer s)).

Lemma on_popped_view s ev t3 t4 :
  on_popped (consumer_of s) ev t3 t4 = (s ← on_event s ev t3 t4; Ret (consumer_of s)).
Proof.
  unfold on_popped, on_event, apply_message, book_call. cbn [c_book consumer_of]. destruct (type (msg ev)); cbn.
  - by destruct (Book.add _ _ _ _ _) as [[b r]|].
  - by destruct (Book.cancel _ _) as [[b r]|].
  - by destruct (Book.modify _ _ _ _) as [[b r]|].
  - by destruct (Book.execute _ _ _) as [[b r]|].
  - done.
Qed.

Lemma consumer_turns_view cap stamps : ∀ s,
  consumer_turns cap (view s) stamps = (s ← engine_turns cap s stamps; Ret (view s)).
Proof.
  induction stamps as [|st stamps IH]; intros s; [done|]. cbn [consumer_turns engine_turns].
  unfold consumer_turn, engine_turn. cbn [j_channel j_consumer view].
  destruct (Channel.consume cap (channel s)) as [[c [ev|]]|]; [|apply (IH (mkShared c (System.consumer s)))|done]. returns.
  rewrite on_popped_view. destruct (on_event (System.consumer s) ev st.1 st.2) as [eng|]; [|done].
  apply (IH (mkShared c eng)).
Qed.

(** ** The producer gets everything through *)

Section through.
Context (lg : Z) (Hlg : 0 ≤ lg < 64) (c0 : Book.Config) (HL : limits_ok (limits_of c0)).
Context (b : Book.t) (Hb : Book.make c0 = Ret b) (sc : Z) (clock : nat → Z).
Context (turns : nat → list (Z * Z)) (gap : nat) (Hfair : keeps_running gap turns).
#[local] Abbreviation cap := (2 ^ lg).

(** Both threads are at work and [evs] have been pushed. *)
Record working (w : world) (s : shared) (inside evs : list PipelineEvent) : Prop := {
  wk_view : w_joint w = view s;
  wk_ok : shared_ok lg b sc s inside;
  wk_running : Channel.producer_done (channel s) = false;
  wk_pushed : Channel.pushed (channel s) = evs
}.

Lemma working_ticks w s inside evs k :
  working w s inside evs → working (mkWorld k (w_joint w) (w_attempts w)) s inside evs.
Proof using. by intros [? ? ? ?]. Qed.

Lemma try_push_ok w s inside evs ev :
  working w s inside evs → quantity_ok (msg ev) →
  ∃ w' s' inside' ok, try_push cap turns w ev = Ret (w', ok) ∧ w_attempts w' = S (w_attempts w) ∧
    working w' s' inside' (if ok : bool then evs ++ [ev] else evs) ∧
    (ok = false → (patience_of lg turns gap s' inside' (w_attempts w') < patience_of lg turns gap s inside (w_attempts w))%nat).
Proof using Hlg HL Hb Hfair.
  intros [Hv Hs Hd Hp] Hq. set (sy := mkSystem (RecoveryClient.mkClient (Some (mkLoop (HistoryStore.make 1) []))) 0 [] (Ret s) (w_attempts w)).
  destruct (attempt_ok lg Hlg c0 HL b Hb sc turns (store := HistoryStore.make 1) sy ev
    (conj eq_refl (ex_intro _ s (ex_intro _ inside (conj eq_refl (conj Hs Hd))))) Hq)
    as (sh & sh' & inside0 & inside' & ok & [= <-] & Hin & Hatt & Hs' & Hd' & Hp' & Hn').
  unfold attempt in Hatt. cbn [sy_shared sy sy_attempts] in Hatt, Hn'. unfold try_push. rewrite Hv, consumer_turns_view.
  apply bind_Ret_inv in Hatt as (s0 & [= <-] & (s1 & Hturns & ([c k] & Hpub & [= <- <-])%bind_Ret_inv)%bind_Ret_inv).
  rewrite Hturns. returns. cbn [j_channel view]. rewrite Hpub. returns.
  eexists _, (mkShared c (System.consumer s1)), inside', _. split; [done|]. split; [done|]. split.
  - split; [done|exact Hs'|exact Hd'|]. simpl in Hp'. cbn [channel]. rewrite Hp', Hp. done.
  - intros Hno. apply (refused_patience lg Hlg turns gap Hfair). specialize (Hn' Hno).
    assert (inside0 = inside) as <- by (by rewrite <- (inside_is lg b sc _ _ Hs), <- (inside_is lg b sc _ _ Hin)).
    exact Hn'.
Qed.

Lemma push_through fuel : ∀ w s inside evs ev,
  working w s inside evs → quantity_ok (msg ev) →
  (patience_of lg turns gap s inside (w_attempts w) < fuel)%nat →
  ∃ w' s' inside' ev', push cap clock turns fuel w ev = Ret w' ∧ working w' s' inside' (evs ++ [ev']) ∧ msg ev' = msg ev.
Proof using Hlg HL Hb Hfair.
  induction fuel as [|fuel IH]; intros w s inside evs ev Hw Hq Hf; [lia|]. cbn [push].
  destruct (try_push_ok w s inside evs ev Hw Hq) as (w1 & s1 & inside1 & ok & -> & Hk & Hw1 & Hpat). returns.
  destruct ok; [by exists w1, s1, inside1, ev|]. specialize (Hpat eq_refl). cbn [now].
  destruct (IH (mkWorld (S (w_ticks w1)) (w_joint w1) (w_attempts w1)) s1 inside1 evs (Handler.stamp (clock (w_ticks w1)) ev))
    as (w' & s' & inside' & ev' & -> & Hw' & Hm); [by apply working_ticks|done|simpl; lia|].
  exists w', s', inside', ev'. split; [done|]. split; [done|]. exact Hm.
Qed.

(** What the sequencer holds is pushed, in order. *)
Lemma deliver_ok spin_fuel ms : ∀ fuel w s inside evs q first,
  working w s inside evs → holding q first ms → Forall (λ m, quantity_ok (message m)) ms →
  (length ms < fuel)%nat → (3 * gap < spin_fuel)%nat → 0 ≤ first → first + vlen ms < 2 ^ 64 →
  ∃ w' s' inside' evs' q', deliver cap clock turns fuel spin_fuel w q = Ret (w', q') ∧
    working w' s' inside' (evs ++ evs') ∧ msg <$> evs' = message <$> ms ∧
    holding q' (first + vlen ms) [] ∧ SequenceInv.size q' = SequenceInv.size q.
Proof using Hlg HL Hb Hfair.
  induction ms as [|m ms IH]; intros fuel w s inside evs q first Hw Hq Hqty Hf Hsp Hfirst Hfit;
    (destruct fuel as [|fuel]; [simpl in Hf; lia|]); cbn [deliver].
  - rewrite (next_nothing q first Hq). returns. exists w, s, inside, [], q. rewrite app_nil_r.
    change (vlen []) with 0. rewrite Z.add_0_r. done.
  - rewrite vlen_cons in Hfit. pose proof (vlen_nonneg ms). apply Forall_cons in Hqty as [Hm Hms].
    destruct (next_held q first m ms Hq Hfirst ltac:(lia)) as (q1 & -> & Hq1 & Hs1). returns. cbn [now].
    destruct (push_through spin_fuel (mkWorld (S (w_ticks w)) (w_joint w) (w_attempts w)) s inside evs
      (mkEvent (message m) (t0_recv m) (t1_parsed m) (clock (w_ticks w)) 0))
      as (w1 & s1 & inside1 & ev & -> & Hw1 & Hev); [by apply working_ticks|done| |].
    { pose proof (patience_bound lg Hlg turns gap Hfair s inside (w_attempts w)). simpl. lia. }
    returns. destruct (IH fuel w1 s1 inside1 (evs ++ [ev]) q1 (first + 1) Hw1 Hq1 Hms ltac:(simpl in Hf; lia) Hsp ltac:(lia) ltac:(lia))
      as (w2 & s2 & inside2 & evs2 & q2 & -> & Hw2 & Hmsg & Hq2 & Hs2).
    exists w2, s2, inside2, (ev :: evs2), q2. rewrite <- app_assoc in Hw2. split; [done|]. split; [done|].
    split; [by rewrite !fmap_cons, Hev, Hmsg|]. split; [|congruence]. rewrite vlen_cons.
    by replace (first + (vlen ms + 1)) with (first + 1 + vlen ms) by lia.
Qed.

Lemma fill_ok stream n : ∀ w position,
  0 ≤ position → position + Z.of_nat n ≤ vlen stream →
  ∃ k payload, fill clock stream n w position = Ret (mkWorld k (w_joint w) (w_attempts w), payload) ∧
    unstamped <$> payload = unstamped <$> take n (drop (Z.to_nat position) stream).
Proof using.
  induction n as [|n IH]; intros w position Hpos Hfit; cbn [fill].
  { exists (w_ticks w), []. by destruct w. }
  destruct (vget_is_Some stream position ltac:(lia)) as [m Hm]. rewrite (load_Some _ _ _ Hm). returns. cbn [now].
  destruct (IH (mkWorld (S (w_ticks w)) (w_joint w) (w_attempts w)) (position + 1) ltac:(lia) ltac:(lia)) as (k & payload & -> & Heq).
  returns. exists k, (set_timestamp (clock (w_ticks w)) m :: payload). split; [done|].
  rewrite <- (Z2Nat.id position), vget_nat in Hm by lia. rewrite (drop_S _ _ _ Hm). rewrite firstn_cons, !fmap_cons, Heq.
  f_equal. replace (Z.to_nat (position + 1)) with (S (Z.to_nat position)) by lia. done.
Qed.

Lemma pace_ok fuel deadline : ∀ w,
  (∃ j, (j < fuel)%nat ∧ deadline ≤ clock (w_ticks w + j)%nat) →
  ∃ k, pace clock fuel w deadline = Ret (mkWorld k (w_joint w) (w_attempts w)).
Proof using.
  induction fuel as [|fuel IH]; intros w (j & Hj & Hd); [lia|]. cbn [pace now].
  destruct (Z.ltb_spec (clock (w_ticks w)) deadline); [|by eexists].
  destruct j as [|j]; [rewrite Nat.add_0_r in Hd; lia|].
  apply (IH (mkWorld (S (w_ticks w)) (w_joint w) (w_attempts w))). exists j. split; [lia|].
  simpl. by rewrite Nat.add_succ_r in Hd.
Qed.

(** ** The whole stream *)

Context (stream : list MarketMessage) (Hqty : Forall quantity_ok stream).
Context (Hnum : ∀ i m, stream !! i = Some m → sequence_number m = 1001 + Z.of_nat i).
Context (Hfit : 1001 + vlen stream < 2 ^ 64).

(** The sequencer before the packet at [position]. *)
Definition ready (q : Seq.t) (position : Z) : Prop :=
  holding q (1001 + position) [] ∧ SequenceInv.size q = 65536 ∨ position = 0 ∧ q = Seq.make 65536 false.

(** The payload of the packet at [position]. *)
Lemma payload_numbers payload n position t0 t1 :
  unstamped <$> payload = unstamped <$> take n (drop (Z.to_nat position) stream) → 0 ≤ position →
  ∀ i m, (feed t0 t1 <$> payload) !! i = Some m → sequence_number (message m) = 1001 + position + Z.of_nat i.
Proof using Hnum.
  intros Heq Hpos i m Hm. apply list_lookup_fmap_Some in Hm as (m0 & -> & Hm0).
  assert ((unstamped <$> payload) !! i = Some (unstamped m0)) as Hi by (by rewrite list_lookup_fmap, Hm0).
  rewrite Heq, list_lookup_fmap in Hi. destruct (take n _ !! i) as [m1|] eqn:Hi1; [|done]. injection Hi as Hi.
  apply lookup_take_Some in Hi1 as [Hi1 _]. rewrite lookup_drop in Hi1. apply Hnum in Hi1.
  change (sequence_number m0 = 1001 + position + Z.of_nat i). lia.
Qed.

Lemma payload_quantities payload n position :
  unstamped <$> payload = unstamped <$> take n (drop (Z.to_nat position) stream) → Forall quantity_ok payload.
Proof using Hqty.
  intros Heq. assert (Forall quantity_ok (unstamped <$> payload)) as Hp; [|by apply (proj1 (Forall_fmap _ _ _)) in Hp].
  rewrite Heq. apply Forall_fmap. eapply Forall_impl; [apply Forall_take, Forall_drop, Hqty|]. done.
Qed.

Lemma accept_packet (w : world) q position payload t0 t1 :
  ready q position → 0 ≤ position → payload ≠ [] → vlen payload ≤ kMaxBatch → 1001 + position + vlen payload < 2 ^ 64 →
  (∀ i m, (feed t0 t1 <$> payload) !! i = Some m → sequence_number (message m) = 1001 + position + Z.of_nat i) →
  ∃ q', Handler.accept_payload (H := world_env clock) w q t0 t1 payload = Ret (w, q') ∧
    holding q' (1001 + position) (feed t0 t1 <$> payload) ∧ SequenceInv.size q' = 65536.
Proof using.
  intros Hq Hpos Hne Hlen Htop Hn. rewrite accept_payload_all. unfold kMaxBatch in Hlen.
  assert (∃ q0, accept_all (H := world_env clock) w q (feed t0 t1 <$> payload) =
      accept_all (H := world_env clock) w q0 (feed t0 t1 <$> payload) ∧
      holding q0 (1001 + position) [] ∧ SequenceInv.size q0 = 65536) as (q0 & -> & Hq0 & Hs0).
  { destruct Hq as [[Hq Hs]|[-> ->]]; [by exists q|]. destruct payload as [|m payload]; [done|].
    rewrite fmap_cons, (accept_all_starting (H := world_env clock) w) by done.
    rewrite (Hn 0%nat (feed t0 t1 m) eq_refl), !Z.add_0_r. eexists. split; [reflexivity|].
    split; [apply holding_start; lia|apply size_starting; lia]. }
  destruct (accept_all_next (H := world_env clock) (feed t0 t1 <$> payload) w q0 (1001 + position) [] Hq0)
    as (q1 & -> & Hq1 & Hs1); try (change (vlen (A := FeedMessage) []) with 0; rewrite ?feed_length; lia).
  - intros i m Hm. rewrite (Hn i m Hm). change (vlen (A := FeedMessage) []) with 0. lia.
  - exists q1. split; [done|]. split; [done|congruence].
Qed.

Lemma send_ok spin_fuel w s inside evs q position count :
  working w s inside evs → ready q position → 0 ≤ position → 1 ≤ count ≤ kMaxBatch → position + count ≤ vlen stream →
  (3 * gap < spin_fuel)%nat →
  ∃ w' s' inside' evs' q', send cap clock turns spin_fuel stream w q position count = Ret (w', q') ∧
    working w' s' inside' (evs ++ evs') ∧ ready q' (position + count) ∧
    unstamped <$> (msg <$> evs') = unstamped <$> take (Z.to_nat count) (drop (Z.to_nat position) stream).
Proof using Hlg HL Hb Hfair Hqty Hnum Hfit.
  intros Hw Hq Hpos Hc Hle Hsp. unfold send. destruct (Z.ltb_spec kMaxBatch count); [lia|].
  destruct (fill_ok stream (Z.to_nat count) w position Hpos ltac:(lia)) as (k & payload & -> & Heq). returns. cbn [now].
  destruct (Z.eqb_spec count 0); [lia|]. simpl orb. cbv iota. cbn [w_joint w_attempts w_ticks].
  assert (vlen payload = count) as Hlen.
  { apply (f_equal length) in Heq. rewrite !length_fmap, length_take, length_drop in Heq. unfold vlen in *. lia. }
  set (w1 := mkWorld _ _ _).
  destruct (accept_packet w1 q position payload (clock k) (clock (S k)) Hq Hpos) as (q1 & -> & Hq1 & Hs1); try lia.
  { intros ->. unfold vlen in Hlen. simpl in Hlen. lia. }
  { by apply (payload_numbers payload (Z.to_nat count)). }
  returns.
  destruct (deliver_ok spin_fuel (feed (clock k) (clock (S k)) <$> payload) (S (length (Seq.buffer_ q1))) w1 s inside evs q1
    (1001 + position)) as (w2 & s2 & inside2 & evs2 & q2 & -> & Hw2 & Hmsg & Hq2 & Hs2);
    rewrite ?feed_length, ?Hlen; try lia; try done.
  { by apply working_ticks. }
  { apply Forall_fmap. eapply payload_quantities. exact Heq. }
  { rewrite length_fmap. unfold SequenceInv.size, vlen, kMaxBatch in *. lia. }
  exists w2, s2, inside2, evs2, q2. split; [done|]. split; [done|]. rewrite feed_length, Hlen in Hq2.
  split; [left; split; [by rewrite Z.add_assoc|congruence]|].
  rewrite Hmsg, <- Heq. f_equal. rewrite <- list_fmap_compose. apply list_fmap_id.
Qed.

Lemma produce_ok spin_fuel pace_fuel batch interval_ns start_ns fuel : ∀ w s inside evs q position,
  working w s inside evs → ready q position → 0 ≤ position ≤ vlen stream → vlen stream - position < Z.of_nat fuel →
  (3 * gap < spin_fuel)%nat → 1 ≤ batch ≤ kMaxBatch →
  (∀ i p, 0 < interval_ns → 0 ≤ p < vlen stream →
     ∃ j, (j < pace_fuel)%nat ∧ u64 (start_ns + u64 (p * interval_ns)) ≤ clock (i + j)%nat) →
  ∃ w' s' inside' evs',
    produce cap clock turns fuel spin_fuel pace_fuel stream batch interval_ns start_ns w q position = Ret w' ∧
    working w' s' inside' (evs ++ evs') ∧ unstamped <$> (msg <$> evs') = unstamped <$> drop (Z.to_nat position) stream.
Proof using Hlg HL Hb Hfair Hqty Hnum Hfit.
  induction fuel as [|fuel IH]; intros w s inside evs q position Hw Hq Hpos Hf Hsp Hbatch Hpace; [lia|]. cbn [produce].
  destruct (Z.ltb_spec position (vlen stream)).
  2: { exists w, s, inside, []. rewrite app_nil_r, drop_ge by (unfold vlen in *; lia). done. }
  assert (∃ k, (if 0 <? interval_ns then pace clock pace_fuel w (u64 (start_ns + u64 (position * interval_ns))) else Ret w) =
    Ret (mkWorld k (w_joint w) (w_attempts w))) as [k ->].
  { destruct (Z.ltb_spec 0 interval_ns); [apply pace_ok, Hpace; lia|exists (w_ticks w); by destruct w]. }
  returns. set (count := Z.min batch (vlen stream - position)). unfold kMaxBatch in *.
  assert (u16 count = count) as -> by (apply Z.mod_small; lia).
  destruct (send_ok spin_fuel (mkWorld k (w_joint w) (w_attempts w)) s inside evs q position count)
    as (w1 & s1 & inside1 & evs1 & q1 & -> & Hw1 & Hq1 & Heq1); try (unfold kMaxBatch; lia); [by apply working_ticks|done|].
  returns. rewrite u64_small by lia.
  destruct (IH w1 s1 inside1 (evs ++ evs1) q1 (position + count)) as (w2 & s2 & inside2 & evs2 & -> & Hw2 & Heq2); try done; try lia.
  exists w2, s2, inside2, (evs1 ++ evs2). split; [done|]. rewrite app_assoc. split; [done|].
  rewrite !fmap_app, Heq1, Heq2, <- fmap_app. f_equal.
  rewrite <- (take_drop (Z.to_nat count) (drop (Z.to_nat position) stream)) at 2. f_equal. rewrite drop_drop. f_equal. lia.
Qed.

(** Both threads, to the end. *)
Lemma run_ok max_orders fuel spin_fuel pace_fuel batch rate stamps :
  c0 = book_config max_orders → vlen stream < Z.of_nat fuel → (3 * gap < spin_fuel)%nat → 1 ≤ batch ≤ kMaxBatch →
  (∀ i p, 0 < interval_of rate → 0 ≤ p < vlen stream →
     ∃ j, (j < pace_fuel)%nat ∧ u64 (clock 0%nat + u64 (p * interval_of rate)) ≤ clock (i + j)%nat) →
  4 * cap + 5 ≤ vlen stamps →
  ∃ s, run cap clock turns max_orders fuel spin_fuel pace_fuel stream batch rate sc stamps = Ret (view s) ∧
    shared_ok lg b sc s [] ∧ Channel.at_ (channel s) = Channel.Exited ∧
    unstamped <$> (msg <$> Channel.popped (channel s)) = unstamped <$> stream.
Proof using Hlg HL Hb Hfair Hqty Hnum Hfit.
  intros Hc0 Hf Hsp Hbatch Hpace Hst. unfold run, producer. rewrite <- Hc0, Hb. returns. cbn [now w_ticks w_joint w_attempts].
  set (s0 := mkShared (Channel.init cap PipelineEvent_zero) (engine_start b sc)). pose proof (vlen_nonneg stream).
  destruct (produce_ok spin_fuel pace_fuel batch (interval_of rate) (clock 0%nat) fuel (mkWorld 1 (view s0) 0) s0 [] []
    (Seq.make 65536 false) 0) as (w & s & inside & evs & Hrun & [Hv Hok Hd Hp] & Heq); try done; try lia.
  { split; try done. split; simpl; [by apply Channel.channel_inv_init|by exists []|by constructor]. }
  { by right. }
  change (Z.shiftl 1 16) with 65536. unfold view in Hrun at 1. cbn [channel System.consumer s0] in Hrun.
  change (consumer_of (engine_start b sc)) with (consumer_start b sc) in Hrun. rewrite Hrun. returns. rewrite Hv.
  change (mkJoint _ _) with (view (shut_down s)). rewrite consumer_turns_view.
  assert (shared_ok lg b sc (shut_down s) inside) as Hok'.
  { destruct Hok as [Hch Hev Hps]. split; [by apply Channel.finish_inv|done|done]. }
  destruct (engine_drains lg Hlg c0 HL b Hb sc stamps (shut_down s) inside Hok' eq_refl) as (s1 & -> & Hs1 & Hat & Hp1).
  { pose proof (distance_bound lg Hlg _ _ (so_channel _ _ _ _ _ Hok')). unfold vlen in Hst. lia. }
  exists s1. split; [done|]. split; [done|]. split; [done|].
  pose proof (Channel.iv_order _ _ _ (so_channel _ _ _ _ _ Hs1)) as Hord. rewrite app_nil_r in Hord.
  rewrite <- Hord, Hp1. simpl. rewrite Hp. exact Heq.
Qed.
End through.

(** ** The consumer's book *)

Lemma apply_message_book m sequence o b c b' c' :
  unstamped m = message_of sequence o → apply_message b c m = Ret (b', c') → apply_preallocated b o = Ret b'.
Proof.
  destruct m as [n t id p q sym ty s r]. unfold unstamped, set_timestamp, message_of, apply_message, book_call, apply_preallocated.
  cbn. destruct (action o); intros [= -> -> -> -> -> -> -> ->]; cbn;
    intros ([b1 r1] & Hrun & [= <- <-])%bind_Ret_inv; by rewrite Hrun.
Qed.

(** Consuming the events of a stream is running the workload on the book. *)
Lemma on_events_preallocated evs : ∀ (s s' : engine Book.t) os sequence clock latency,
  on_events s evs = Ret s' → unstamped <$> (msg <$> evs.*1) = messages_of sequence os →
  ∃ latency', timed apply_preallocated clock (book s) latency os = Ret (book s', latency').
Proof.
  induction evs as [|[ev [t3 t4]] evs IH]; intros s s' os sequence clock latency; cbn [on_events].
  { intros [= <-] Hos. destruct os; [|done]. by eexists. }
  intros (s1 & Hev & Hrun)%bind_Ret_inv Hos. destruct os as [|o os]; [done|]. rewrite !fmap_cons in Hos. cbn [messages_of] in Hos.
  injection Hos as Ho Hos. unfold on_event in Hev. apply bind_Ret_inv in Hev as ([b c] & Hm & [= <-]). cbn [timed].
  rewrite (apply_message_book (msg ev) sequence o _ _ _ _ Ho Hm). returns. exact (IH _ _ _ _ _ _ Hrun Hos).
Qed.

(** A sample for every event, none dropped. *)
Lemma consumed_all c b evs count (s : engine Book.t) :
  limits_ok (limits_of c) → Book.make c = Ret b → on_events (engine_start b count) evs = Ret s →
  Forall (λ ev, quantity_ok (msg ev)) evs.*1 → vlen evs = count → count < 2 ^ 64 →
  c_consumed (consumer_of s) = count ∧
  Forall (λ st, vlen (samples_ st) = count ∧ dropped_ st = 0)
    [decode_stage (consumer_of s); sequence_stage (consumer_of s); ring_stage (consumer_of s); c_book_stage (consumer_of s);
     total_stage (consumer_of s)].
Proof.
  intros HL Hb Hevs Hq Hlen Hfit. apply (proj1 (Forall_fmap fst _ evs)) in Hq. pose proof (vlen_nonneg evs).
  destruct (engine_run_full c evs count HL Hq) as (b' & s' & Hb' & Hevs' & _ & _ & Hcons).
  rewrite Hb in Hb'. injection Hb' as <-. rewrite Hevs in Hevs'. injection Hevs' as <-.
  split; [cbn; by rewrite Hcons, Hlen, u64_small by lia|].
  destruct (on_events_staged count evs _ s 0 0 Hevs (staged_start count ltac:(lia)) eq_refl) as [[H1 H2 H3 H4 H5 _] _].
  rewrite Z.add_0_l, Hlen in *.
  assert (∀ st, sampled count count st → vlen (samples_ st) = count ∧ dropped_ st = 0) as Hst.
  { intros st [Hl _ Hd]. rewrite Z.min_id in *. split; [done|]. by rewrite Hd, Z.sub_diag. }
  repeat constructor; by apply Hst.
Qed.

(** C22. The pipeline in one process loses nothing. The stream it is given is the order
    flow of the book benchmark, message by message. For every batch size and rate,
    every clock that reaches the deadlines of the pacing loop, and every interleaving
    of the two threads that does not leave the consumer out forever, the producer
    ends, the consumer leaves its loop, and neither faults; the consumer has taken every
    message of the stream, in order and unchanged but for its time stamp; each of the
    five stages has a sample for every message and has dropped none; and the book it
    ends with is, field for field, the one [book_benchmark] ends with. *)
Theorem pipeline_complete {E} {env : RngEnv E} {EI : E → Prop} {Hlaws : RngLaws E EI} generator a lg max_orders
    fuel spin_fuel pace_fuel clock clock' turns gap stamps sample_capacity :
  let o := options a in
  let count := message_count o in
  Args.has a "help"%string = false → EI (generator (seed o)) → 1001 + count < 2 ^ 64 → 0 < max_orders ≤ Book.kNullOrder →
  0 ≤ lg < 64 → keeps_running gap turns → (3 * gap < spin_fuel)%nat → count < Z.of_nat fuel → 4 * 2 ^ lg + 5 ≤ vlen stamps →
  (∀ i p, 0 < interval_of (rate o) → 0 ≤ p < count →
     ∃ j, (j < pace_fuel)%nat ∧ u64 (clock 0%nat + u64 (p * interval_of (rate o))) ≤ clock (i + j)%nat) →
  ∃ os stream s latency,
    build_workload count (generator (seed o)) = Ret os ∧ build_stream count (generator (seed o)) = Ret stream ∧
    stream = messages_of 1001 os ∧ vlen stream = count ∧
    main (2 ^ lg) max_orders fuel spin_fuel pace_fuel generator clock turns stamps a = Ret (Some s) ∧
    Channel.at_ (j_channel s) = Channel.Exited ∧
    unstamped <$> (msg <$> Channel.popped (j_channel s)) = stream ∧
    c_consumed (j_consumer s) = count ∧
    Forall (λ st, vlen (samples_ st) = count ∧ dropped_ st = 0)
      [decode_stage (j_consumer s); sequence_stage (j_consumer s); ring_stage (j_consumer s); c_book_stage (j_consumer s);
       total_stage (j_consumer s)] ∧
    run_preallocated max_orders clock' sample_capacity os = Ret (c_book (j_consumer s), latency).
Proof.
  intros o count Hhelp He Hfit Hn Hlg Hfair Hsp Hf Hst Hpace. set (e := generator (seed o)) in *.
  assert (0 ≤ count) as Hc by (apply u64_range).
  assert (limits_ok (limits_of (book_config max_orders))) as HL by (split; [by vm_compute|done]).
  destruct (build_loop_ok (Z.to_nat count) e [] 1 He ltac:(lia) ltac:(lia)) as (os & Hos & Hlen & Hok & _).
  destruct (make_spec _ HL) as (b & Hb & _). set (stream := messages_of 1001 os).
  assert (vlen os = count) as Hvo by (unfold vlen; lia).
  assert (vlen stream = count) as Hvs by (rewrite <- Hvo; unfold vlen, stream; by rewrite messages_of_length).
  assert (∀ i m, stream !! i = Some m → ∃ x, os !! i = Some x ∧ m = message_of (1001 + Z.of_nat i) x) as Hlook.
  { intros i m. apply messages_of_lookup; lia. }
  assert (unstamped <$> stream = stream) as Hun.
  { apply list_eq. intros i. rewrite list_lookup_fmap. destruct (stream !! i) as [m|] eqn:Hm; [|done].
    destruct (Hlook i m Hm) as (x & _ & ->). simpl. f_equal. apply (unstamped_message_of 0). }
  destruct (run_ok lg Hlg _ HL b Hb count clock turns gap Hfair stream) with (max_orders := max_orders) (fuel := fuel)
    (spin_fuel := spin_fuel) (pace_fuel := pace_fuel) (batch := batch o) (rate := rate o) (stamps := stamps)
    as (s & Hrun & [Hch (evs & Hpop & Hevs) Hps] & Hat & Heq); rewrite ?Hvs; try done.
  { apply Forall_lookup. intros i m Hm. destruct (Hlook i m Hm) as (x & Hx & ->). apply message_of_quantity.
    rewrite Forall_lookup in Hok. by eapply Hok. }
  { intros i m Hm. destruct (Hlook i m Hm) as (x & _ & ->). apply message_of_number. }
  { apply clamp_batch_ok. }
  pose proof (Channel.iv_order _ _ _ Hch) as Hord. rewrite app_nil_r in Hord. rewrite Hord, Hpop in Hps. rewrite Hun in Heq.
  destruct (consumed_all (book_config max_orders) b evs count (System.consumer s) HL Hb Hevs Hps) as [Hcons Hsamp].
  { apply (f_equal vlen) in Heq. rewrite Hpop, !vlen_fmap in Heq. congruence. }
  { lia. }
  rewrite Hpop in Heq. destruct (on_events_preallocated evs _ _ os 1001 clock' (samples_make sample_capacity) Hevs Heq) as [latency Hlat].
  assert (build_stream count e = Ret stream) as Hstream by (unfold build_stream; rewrite stream_loop_of; by rewrite Hos).
  exists os, stream, (view s), latency. split; [exact Hos|]. split; [exact Hstream|]. split; [done|]. split; [done|].
  split. { unfold main. fold o. fold count. fold e. rewrite Hhelp, Hstream. returns. by rewrite Hrun. } split; [exact Hat|]. cbn [j_channel j_consumer view].
  rewrite Hpop. split; [done|]. split; [exact Hcons|]. split; [exact Hsamp|]. unfold run_preallocated. by rewrite Hb.
Qed.

(** Ten messages in packets of three, one every ten nanoseconds, through a ring of two
    slots, with a consumer that runs at every other attempt. *)
Definition ten_args : Args.values := Args.args ["--messages=10"; "--batch"; "3"; "--rate=100000000"]%string.

Lemma pipeline_complete_witness :
  ∃ stream s, build_stream (H := counting) 10 5 = Ret stream ∧
    main (H := counting) 2 64 11 7 31 (λ seed, seed) (λ i, 3 * Z.of_nat i) every_other (replicate 13 (7, 8)) ten_args =
      Ret (Some s) ∧
    Channel.at_ (j_channel s) = Channel.Exited ∧
    unstamped <$> (msg <$> Channel.popped (j_channel s)) = stream ∧ c_consumed (j_consumer s) = 10.
Proof.
  destruct (pipeline_complete (Hlaws := counting_laws) (λ seed, seed) ten_args 1 64 11 7 31 (λ i, 3 * Z.of_nat i) (λ _, (5, 9))
    every_other 2 (replicate 13 (7, 8)) 10) as (os & stream & s & latency & _ & H1 & _ & _ & H2 & H3 & H4 & H5 & _);
    change (message_count (options ten_args)) with 10 in *; change (seed (options ten_args)) with 5 in *.
  - reflexivity.
  - lia.
  - lia.
  - vm_compute. split; congruence.
  - lia.
  - exact every_other_fair.
  - lia.
  - lia.
  - vm_compute. congruence.
  - intros i p _ Hp. exists 30%nat. split; [lia|]. change (interval_of (rate (options ten_args))) with 10.
    rewrite (u64_small (p * 10)), u64_small by lia. lia.
  - exists stream, s. split; [exact H1|]. split; [exact H2|]. split; [exact H3|]. split; [exact H4|exact H5].
Defined.
