(* ===== verification/Process.v ===== *)
(** * The three processes

    The mains of [market_data_handler.cpp], [order_book_engine.cpp] and
    [exchange_simulator.cpp] from the command line to the exit code: what they
    open and in which order, the early returns, the loops, and the destructors
    that run on every way out. Printing is left out (see the reports).

    The system is three independent parts: sockets ([SocketOs]), shared memory
    ([ShmOs], with the channel that a mapping shows: [ChannelOs]) and the rest
    ([ProcOs]: clock, signals, sleeping, CPU affinity, files). *)

From stdpp Require Import strings.
From Stdlib Require Import QArith.
From S2P Require Import Prelude Message Wire History BookSpec BookInterface OrderBook OrderBookTheorems.
From S2P Require Import SharedMemory Recovery Sockets SequenceManager Engine EngineProperties Handler Exchange ExchangeProperties Args.
Import Args.

#[local] Open Scope Z_scope.

(** The members of the [ShmChannel] at a mapped region; the other process uses
    them at the same time. *)
Class ChannelOs (M : Type) := {
  ch_try_push : M → Z → PipelineEvent → M * bool;
  ch_try_pop : M → Z → M * option PipelineEvent;
  ch_empty : M → Z → M * bool;
  ch_producer_done : M → Z → M * Z;
  ch_store_produced_count : M → Z → Z → M;
  ch_store_producer_done : M → Z → Z → M
}.

(** A line of the engine's CSV file. *)
Inductive csv_line := Header | Row (fields : list Z).

Class ProcOs (P : Type) := {
  pr_setaffinity : P → Z → P * bool;
  pr_stop : P → P * bool;                       (* g_stop != 0 *)
  pr_now : P → P * Z;
  pr_sleep_ms : P → Z → P;
  pr_fopen : P → string → P * option Z;
  pr_fprintf : P → Z → csv_line → P;
  pr_fclose : P → Z → P
}.

(** [pin_to_cpu(cpu)], whose result the mains ignore. *)
Definition pin {P} `{ProcOs P} (p : P) (cpu : Z) : P :=
  if cpu <? 0 then p else (pr_setaffinity p cpu).1.

(** ** The handler *)

Module HandlerProcess.
Section main.
Context {S M P : Type} `{SocketOs S} `{ShmOs M} `{ChannelOs M} `{ProcOs P} (channel_size : Z).

(** What the loop works with: [recovery] is the descriptor of the client, [region]
    the mapped channel. *)
Record world := mkWorld {
  net : S;
  mem : M;
  proc : P;
  recovery : Z;
  receiver : MulticastReceiver.t;
  region : Z
}.

Definition set_net (n : S) (w : world) : world :=
  mkWorld n (mem w) (proc w) (recovery w) (receiver w) (region w).
Definition set_mem (m : M) (w : world) : world :=
  mkWorld (net w) m (proc w) (recovery w) (receiver w) (region w).
Definition set_proc (p : P) (w : world) : world :=
  mkWorld (net w) (mem w) p (recovery w) (receiver w) (region w).

Definition request (w : world) (from to : Z) : world * option (list MarketMessage) :=
  let '(n, fd, answer) := ClientSocket.request (net w) (recovery w) from to in
  (mkWorld n (mem w) (proc w) fd (receiver w) (region w), answer).

Definition now (w : world) : world * Z :=
  let '(p, t) := pr_now (proc w) in (set_proc p w, t).

(** [receiver.receive(packet, sizeof(packet))] *)
Definition receive (w : world) : world * received :=
  let '(n, (count, buffer)) := MulticastReceiver.receive (net w) (receiver w) kMaxPacketBytes in
  (set_net n w,
   if count <? 0 then RecvError
   else if count =? 0 then Timeout else Datagram (take (Z.to_nat count) buffer)).

Definition push (w : world) (ev : PipelineEvent) : world * bool :=
  let '(m, ok) := ch_try_push (mem w) (region w) ev in (set_mem m w, ok).

Definition stop (w : world) : world * bool :=
  let '(p, b) := pr_stop (proc w) in (set_proc p w, b).

#[export] Instance world_seq : SeqEnv world := { env_request := request; env_now := now }.
#[export] Instance world_handler : HandlerEnv world :=
  { h_receive := receive; h_push := push; h_stop := stop }.

(** The wait for the consumer to drain the ring. *)
Fixpoint wait_drained (fuel : nat) (m : M) (p : P) (region waited : Z) : outcome (M * P) :=
  match fuel with
  | O => Fault OutOfFuel
  | Datatypes.S fuel =>
      if waited <? 5000 then
        let '(m, empty) := ch_empty m region in
        if empty : bool then Ret (m, p)
        else
          waited ← i32 (waited + 10);
          wait_drained fuel m (pr_sleep_ms p 10) region waited
      else Ret (m, p)
  end.

(** The destructors of [receiver], [recovery] and [shm], in this order; one that
    was not opened closes nothing. *)
Definition unwind (n : S) (m : M) (receiver : MulticastReceiver.t) (recovery : Z) (shm : Shm.t) : S * M :=
  let '(n, _) := MulticastReceiver.close n receiver in
  let '(n, _) := ClientSocket.close n recovery in
  let '(m, _) := Shm.close m shm in
  (n, m).

(** From the sequencer on: the loop, the two stores and the wait. *)
Definition serve (fuel : nat) (o : HandlerOptions) (w : world) : outcome world :=
  '(w, h) ← Handler.main_loop fuel fuel (h_expect o) (h_idle_ms o) w
              (Handler.start (h_reorder o) (h_use_recovery o));
  let m := ch_store_produced_count (mem w) (region w) (Handler.published h) in
  let m := ch_store_producer_done m (region w) 1 in
  '(m, p) ← wait_drained fuel m (proc w) (region w) 0;
  Ret (set_proc p (set_mem m w)).

Definition main (fuel : nat) (argv : list string) (n : S) (m : M) (p : P) : outcome (S * M * P * Z) :=
  let a := args argv in
  if has a "help" then Ret (n, m, p, 0)
  else
    let o := handler_options a in
    let p := pin p (h_cpu o) in
    let '(m, shm, ok) := Shm.create channel_size m Shm.fresh (h_shm_name o) in
    if negb ok then Ret (unwind n m MulticastReceiver.fresh (-1) shm, p, 1)
    else
      '(n, recovery, ok) ←
        (if h_use_recovery o
         then ClientSocket.connect fuel n (-1) (h_recovery_host o) (h_recovery_port o) 5000
         else Ret (n, -1, true));
      if negb ok then Ret (unwind n m MulticastReceiver.fresh recovery shm, p, 1)
      else
        let '(n, receiver, ok) :=
          MulticastReceiver.open n MulticastReceiver.fresh (h_group o) (h_port o) (h_interface_ip o) in
        if negb ok then Ret (unwind n m receiver recovery shm, p, 1)
        else
          let '(n, ok) := MulticastReceiver.set_receive_timeout n receiver 50 in
          if negb ok then Ret (unwind n m receiver recovery shm, p, 1)
          else
            region ← of_option OutOfBounds (Shm.channel_ shm);
            '(mkWorld n m p recovery receiver _) ← serve fuel o (mkWorld n m p recovery receiver region);
            Ret (unwind n m receiver recovery shm, p, 0).
End main.
Arguments world : clear implicits.
End HandlerProcess.

(** ** The engine *)

Module EngineProcess.
Section main.
Context {M P : Type} `{ShmOs M} `{ChannelOs M} `{ProcOs P} (channel_size : Z).

Definition csv_row (event : PipelineEvent) (t3_dequeue t4_book : Z) : csv_line :=
  let message := msg event in
  Row [sequence_number message; ev_recovered event;
       u64 (ev_t1_parsed event - ev_t0_recv event);
       u64 (t2_enqueue event - ev_t1_parsed event);
       u64 (t3_dequeue - t2_enqueue event);
       u64 (t4_book - t3_dequeue);
       u64 (t4_book - ev_t0_recv event);
       if timestamp_ns message <? t4_book then u64 (t4_book - timestamp_ns message) else 0].

Fixpoint event_loop (fuel : nat) (m : M) (p : P) (channel : Z) (csv : option Z) (s : engine Book.t)
    : outcome (M * P * engine Book.t) :=
  match fuel with
  | O => Fault OutOfFuel
  | S fuel =>
      let '(p, stop) := pr_stop p in
      if stop : bool then Ret (m, p, s)
      else
        let '(m, popped) := ch_try_pop m channel in
        match popped with
        | None =>
            let '(m, done) := ch_producer_done m channel in
            if done =? 1 then
              let '(m, empty) := ch_empty m channel in
              if empty : bool then Ret (m, p, s) else event_loop fuel m p channel csv s
            else event_loop fuel m p channel csv s
        | Some event =>
            let '(p, t3_dequeue) := pr_now p in
            let '(p, t4_book) := pr_now p in
            s ← on_event s event t3_dequeue t4_book;
            let p := match csv with
                     | Some file => pr_fprintf p file (csv_row event t3_dequeue t4_book)
                     | None => p
                     end in
            event_loop fuel m p channel csv s
        end
  end.

(** [csv] of the main: [None] when the file cannot be opened. *)
Definition open_csv (p : P) (path : string) : P * option (option Z) :=
  if decide (path = "") then (p, Some None)
  else
    let '(p, file) := pr_fopen p path in
    match file with
    | None => (p, None)
    | Some file => (pr_fprintf p file Header, Some (Some file))
    end.

Definition main (fuel : nat) (argv : list string) (m : M) (p : P) : outcome (M * P * Z) :=
  let a := args argv in
  if has a "help" then Ret (m, p, 0)
  else
    let o := engine_options a in
    let p := pin p (e_cpu o) in
    '(m, shm, ok) ← Shm.attach channel_size fuel m Shm.fresh (e_shm_name o) (e_attach_timeout_ms o);
    if negb ok then Ret ((Shm.close m shm).1, p, 1)
    else
      channel ← of_option OutOfBounds (Shm.channel_ shm);
      book ← Book.make (Book.mkConfig (e_min_price o) (e_max_price o) (e_max_orders o));
      let '(p, csv) := open_csv p (e_csv_path o) in
      match csv with
      | None => Ret ((Shm.close m shm).1, p, 1)
      | Some csv =>
          '(m, p, s) ← event_loop fuel m p channel csv (engine_start book (e_sample_capacity o));
          let p := match csv with Some file => pr_fclose p file | None => p end in
          _ ← (if e_quiet o then Ret 0 else spread (Engine.book s));
          Ret ((Shm.close m shm).1, p, 0)
      end.
End main.
End EngineProcess.

(** ** The exchange *)

(** [std::mt19937_64] and the distributions of the main. *)
Class RngOs (G : Type) := {
  rng_seed : Z → G;
  rng_unit : G → G * Q;
  rng_depth : G → G * Z;
  rng_lot : G → G * Z;
  rng_pick : G → Z → G * Z
}.

Module ExchangeProcess.
Section main.
Context {S P G : Type} `{SocketOs S} `{ProcOs P} `{RngOs G} (strtod : string → Q) (pad : list Z).

(** What the publishing loop works with; [sent] keeps the datagrams that the
    socket took. *)
Record world := mkWorld {
  net : S;
  proc : P;
  rng : G;
  publisher : MulticastPublisher.t;
  sent : list (list Z)
}.

Definition drawn {A} (w : world) (r : G * A) : world * A :=
  (mkWorld (net w) (proc w) r.1 (publisher w) (sent w), r.2).
Definition set_proc (p : P) (w : world) : world :=
  mkWorld (net w) p (rng w) (publisher w) (sent w).

Definition send (w : world) (packet : list Z) : world * bool :=
  let '(n, ok) := MulticastPublisher.send (net w) (publisher w) packet in
  (mkWorld n (proc w) (rng w) (publisher w) (sent w ++ if (ok : bool) then [packet] else []), ok).

#[export] Instance world_exchange : ExchangeEnv world := {
  draw_unit w := drawn w (rng_unit (rng w));
  draw_depth w := drawn w (rng_depth (rng w));
  draw_lot w := drawn w (rng_lot (rng w));
  draw_pick w n := drawn w (rng_pick (rng w) n);
  x_now w := (set_proc (pr_now (proc w)).1 w, (pr_now (proc w)).2);
  x_send := send;
  x_stop w := (set_proc (pr_stop (proc w)).1 w, (pr_stop (proc w)).2)
}.

(** [RecoveryServer::stop] with the [join] of its thread. [served] are the loads of
    [running_] by that thread, as in [Listener.run]; its accepts and requests, which come at
    any time from [start] on, are all put at the [join]. *)
Definition stop_server (served : list (list bool)) (n : S) (server : Listener.t) (h : HistoryStore.t)
    : outcome (S * Listener.t) :=
  '(n, _) ← (if Listener.running_ server then Listener.run served n server (RecoveryServer.mkServer h 0 0)
             else Ret (n, RecoveryServer.mkServer h 0 0));
  Ret (Listener.stop n server).

(** The destructors of [publisher] and [recovery_server]. *)
Definition unwind (served : list (list bool)) (n : S) (publisher : MulticastPublisher.t) (server : Listener.t)
    (h : HistoryStore.t) : outcome S :=
  let '(n, _) := MulticastPublisher.close n publisher in
  '(n, _) ← stop_server served n server h;
  Ret n.

Definition interval_ns (rate_per_second : Z) : Z :=
  if 0 <? rate_per_second then 1000000000 / rate_per_second else 0.

Definition publish_options (o : ExchangeOptions Q) (start_ns : Z) : Exchange.Options :=
  Exchange.mkOptions (x_total_messages _ o) (Exchange.clamp_batch (x_batch _ o)) (x_drop_rate _ o)
    (interval_ns (x_rate_per_second _ o)) start_ns pad.

Definition main (fuel spins : nat) (served : list (list bool)) (argv : list string) (n : S) (p : P)
    : outcome (S * P * Z) :=
  let a := args argv in
  if has a "help" then Ret (n, p, 0)
  else
    let o := exchange_options strtod 0%Q a in
    let p := pin p (x_cpu _ o) in
    let history := HistoryStore.make (x_history_capacity _ o) in
    let '(n, server, ok) := Listener.start n Listener.fresh (x_recovery_port _ o) in
    if negb ok then n ← unwind served n MulticastPublisher.fresh server history; Ret (n, p, 1)
    else
      let '(n, publisher, ok) :=
        MulticastPublisher.open n MulticastPublisher.fresh (x_group _ o) (x_port _ o) (x_interface_ip _ o) in
      if negb ok then n ← unwind served n publisher server history; Ret (n, p, 1)
      else
        book ← Book.make (exchange_config (Z.shiftl 1 20));
        let p := pr_sleep_ms p (x_start_delay_ms _ o) in
        let '(p, start_ns) := pr_now p in
        '(mkWorld n p _ publisher _, x, going) ← Exchange.run fuel spins (publish_options o start_ns)
          (mkWorld n p (rng_seed (x_seed _ o)) publisher []) (Exchange.make book (x_history_capacity _ o));
        if negb going then n ← unwind served n publisher server (Exchange.history x); Ret (n, p, 1)
        else
          let '(p, _) := pr_now p in
          let p := pr_sleep_ms p (x_linger_ms _ o) in
          '(n, server) ← stop_server served n server (Exchange.history x);
          n ← unwind served n publisher server (Exchange.history x);
          Ret (n, p, 0).
End main.
Arguments world : clear implicits.
End ExchangeProcess.
