(* ===== verification/ProcessProperties.v ===== *)
(** * What the processes guarantee

    Each main returns with an exit code and gives back everything it has opened,
    on every path: descriptors, mappings, streams, and the name of the segment. The
    laws of the system say what POSIX says of the calls and that the clock and the
    signals make progress; of the peers it is assumed that the numbers they send stay
    clear of the end of their type. *)

From stdpp Require Import strings.
From Stdlib Require Import QArith.
From S2P Require Import Prelude Message Wire History BookSpec BookInterface OrderBook OrderBookRep OrderBookMake.
From S2P Require Import OrderBookTheorems SharedMemory Recovery Sockets SequenceManager SequenceInv SequenceCorrect.
From S2P Require Import Engine EngineProperties Handler HandlerStops Exchange ExchangeCorrect ExchangeProperties.
From S2P Require Import Args Process.
Import Args.

#[local] Open Scope Z_scope.

(** ** Laws *)

(** [streams]: the open streams; [grace]: how often at most the stop flag will still be
    read as clear. *)
Definition steady {P} (grace : P → nat) (streams : P → Z) (p p' : P) : Prop :=
  streams p' = streams p ∧ (grace p' ≤ grace p)%nat.

Class ProcLaws (P : Type) `{ProcOs P} (grace : P → nat) (streams : P → Z) : Prop := {
  pl_setaffinity p cpu : steady grace streams p (pr_setaffinity p cpu).1;
  pl_stop p : steady grace streams p (pr_stop p).1 ∧
    ((pr_stop p).2 = false → (grace (pr_stop p).1 < grace p)%nat);
  pl_now p : steady grace streams p (pr_now p).1 ∧ 0 ≤ (pr_now p).2 < 2 ^ 64;
  pl_sleep p ms : steady grace streams p (pr_sleep_ms p ms);
  pl_fopen p path : streams (pr_fopen p path).1 = streams p + SharedMemory.opened (pr_fopen p path).2 ∧
    (grace (pr_fopen p path).1 ≤ grace p)%nat;
  pl_fprintf p file line : steady grace streams p (pr_fprintf p file line);
  pl_fclose p file : streams (pr_fclose p file) = streams p - 1 ∧ (grace (pr_fclose p file) ≤ grace p)%nat
}.

(** The channel is memory: using it opens nothing. A popped event has the type
    that the code gives it. *)
Class ChannelLaws (M : Type) `{ChannelOs M} (used : M → usage) : Prop := {
  cl_push m r ev : used (ch_try_push m r ev).1 = used m;
  cl_pop m r : used (ch_try_pop m r).1 = used m ∧
    ∀ ev, (ch_try_pop m r).2 = Some ev → quantity_ok (msg ev);
  cl_empty m r : used (ch_empty m r).1 = used m;
  cl_done m r : used (ch_producer_done m r).1 = used m;
  cl_store_count m r v : used (ch_store_produced_count m r v) = used m;
  cl_store_done m r v : used (ch_store_producer_done m r v) = used m
}.

(** [linked]: the segments that have a name. *)
Class ShmNames (M : Type) `{ShmOs M} (linked : M → gset string) : Prop :=
  unlink_law m name : name ∉ linked (os_unlink m name).

(** An assumption about the peers, not about the calls: no message that the exchange sends
    and none that the recovery server answers is numbered within a recovery batch of 2^64.
    An exchange numbers from 1001 on. For a gap that ends higher the loop of
    [recover_range] wraps around and runs on. *)
Definition numbered (m : MarketMessage) : Prop := 0 ≤ sequence_number m < top.

Class FeedNumbers (S : Type) `{SocketOs S} : Prop := {
  recv_numbers n fd len n' count buffer errno ms :
    so_recv n fd len = (n', (count, buffer, errno)) →
    parse_packet (take (Z.to_nat count) buffer) = Some ms → Forall numbered ms;
  read_numbers n fd len n' bytes k :
    so_read_exact n fd len = (n', Some bytes) → Forall numbered (decode_messages k bytes)
}.

(** ** Owned descriptors *)

Definition owned (fd : Z) : gset Z := if 0 <=? fd then {[fd]} else ∅.

Section descriptors.
Context `{Hlaws : SocketLaws Net fds}.
Implicit Types (n : Net) (B : gset Z).

Lemma opened_owned B n fd ok : opened (fds := fds) B n fd ok → fds n = owned fd ∪ B ∧ owned fd ## B.
Proof using Hlaws.
  unfold opened, owned. destruct ok.
  - intros (H0 & Hn & ->). destruct (Z.leb_spec 0 fd); [|lia]. set_solver.
  - intros [Hn ->]. destruct (Z.leb_spec 0 fd); [lia|]. set_solver.
Qed.

Lemma owned_opened B n fd : fds n = owned fd ∪ B → owned fd ## B → opened (fds := fds) B n fd (0 <=? fd).
Proof using Hlaws.
  unfold opened, owned. destruct (Z.leb_spec 0 fd).
  - intros Hf Hd. split; [done|]. split; [set_solver|done].
  - intros Hf _. split; [done|set_solver].
Qed.

Lemma close_owned B n fd : fds n = owned fd ∪ B → owned fd ## B →
  fds (if 0 <=? fd then so_close n fd else n) = B.
Proof using Hlaws.
  unfold owned. destruct (0 <=? fd); intros Hf Hd; [rewrite close_law|]; rewrite Hf; set_solver.
Qed.

Lemma client_close_owned B n fd : fds n = owned fd ∪ B → owned fd ## B → fds (ClientSocket.close n fd).1 = B.
Proof using Hlaws.
  intros Hf Hd. rewrite <- (close_owned B n fd Hf Hd). unfold ClientSocket.close. by destruct (0 <=? fd).
Qed.

Lemma publisher_close_owned B n p :
  let fd := MulticastPublisher.fd_ p in
  fds n = owned fd ∪ B → owned fd ## B → fds (MulticastPublisher.close n p).1 = B.
Proof using Hlaws.
  intros fd Hf Hd. rewrite <- (close_owned B n fd Hf Hd). unfold MulticastPublisher.close. fold fd. by destruct (0 <=? fd).
Qed.

Lemma receiver_close_owned B n r :
  let fd := MulticastReceiver.fd_ r in
  fds n = owned fd ∪ B → owned fd ## B → fds (MulticastReceiver.close n r).1 = B.
Proof using Hlaws.
  intros fd Hf Hd. unfold MulticastReceiver.close. fold fd.
  set (n1 := if MulticastReceiver.joined_ r then _ else n).
  assert (fds n1 = fds n) as H1 by (unfold n1; destruct (MulticastReceiver.joined_ r); [apply setsockopt_law|done]).
  rewrite <- (close_owned B n1 fd) by (done || congruence). unfold n1. by destruct (0 <=? fd).
Qed.

(** The listening socket is open exactly while the server runs. *)
Lemma stop_owned B n l :
  fds n = owned (Listener.listen_fd_ l) ∪ B → owned (Listener.listen_fd_ l) ## B →
  Listener.running_ l = (0 <=? Listener.listen_fd_ l) →
  let '(n', l') := Listener.stop n l in fds n' = B ∧ Listener.running_ l' = false.
Proof using Hlaws.
  intros Hf Hd Hr. pose proof (close_owned B n _ Hf Hd) as Hc. unfold Listener.stop. rewrite Hr.
  by destruct (0 <=? Listener.listen_fd_ l).
Qed.

Lemma connect_owned fuel n host port :
  (502 ≤ fuel)%nat →
  yields (ClientSocket.connect fuel n (-1) host port 5000) (λ '(n', fd, _), fds n' = owned fd ∪ fds n ∧ owned fd ## fds n).
Proof using Hlaws.
  intros Hf. unfold ClientSocket.connect. destruct (inet_pton host) as [a|]; [|apply yields_ret; unfold owned; set_solver].
  destruct (connect_loop_spec (mkAddr a port) 5000 fuel n 0) as (n1 & fd & ok & -> & Hop); [lia..|].
  apply yields_ret. by eapply opened_owned.
Qed.
End descriptors.

(** ** The rest of the system *)

Section process.
Context `{Hproc : ProcLaws P grace streams}.
Implicit Types p : P.

Lemma steady_refl p : steady grace streams p p.
Proof using. done. Qed.

Lemma steady_trans p1 p2 p3 : steady grace streams p1 p2 → steady grace streams p2 p3 → steady grace streams p1 p3.
Proof using. unfold steady. intros [] []. split; [congruence|lia]. Qed.

Lemma pin_steady p cpu : steady grace streams p (pin p cpu).
Proof using Hproc. unfold pin. destruct (cpu <? 0); [done|]. apply pl_setaffinity. Qed.
End process.

(** ** The handler *)

Section handler.
Context `{Hnet : SocketLaws Net fds} `{Hshm : ShmLaws M used} `{Hch : !ChannelOs M} `{Hchl : !ChannelLaws M used}.
Context `{Hproc : ProcLaws P grace streams} `{Hfeed : !FeedNumbers Net} (channel_size : Z).
Import HandlerProcess.
Implicit Types (w : world Net M P).

(** During the loop: the receiver is open and owned by [rcv], [base] are the
    descriptors of others, and the recovery client has its own descriptor or none. *)
Record world_ok (base : gset Z) (u : usage) (k : Z) (rcv : MulticastReceiver.t) (reg : Z) w : Prop := {
  wo_receiver : receiver w = rcv;
  wo_region : region w = reg;
  wo_base : owned (MulticastReceiver.fd_ rcv) ## base;
  wo_net : opened (fds := fds) (owned (MulticastReceiver.fd_ rcv) ∪ base) (net w) (recovery w) (0 <=? recovery w);
  wo_mem : used (mem w) = u;
  wo_proc : streams (proc w) = k
}.

Definition world_grace w : nat := grace (proc w).

Lemma opened_fds B n n' fd : fds n' = fds n → opened (fds := fds) B n fd (0 <=? fd) → opened (fds := fds) B n' fd (0 <=? fd).
Proof using Hnet.
  intros Hf Ho. destruct (opened_owned _ _ _ _ Ho) as [Hf1 Hd1]. apply owned_opened; [congruence|done].
Qed.

Lemma request_numbered n fd from to n' fd' ms :
  ClientSocket.request n fd from to = (n', fd', Some ms) → Forall numbered ms.
Proof using Hfeed.
  unfold ClientSocket.request. intros Heq.
  destruct (fd <? 0); [done|]. destruct (to <? from); [done|].
  destruct (so_write_exact _ _ _) as [n1 []]; [|done]. cbn [negb] in Heq.
  destruct (so_read_exact n1 fd response_bytes) as [n2 [bytes|]]; [|done]. destruct (_ || _); [done|].
  destruct (_ =? 0); [injection Heq as <- <- <-; constructor|].
  destruct (so_read_exact n2 fd _) as [n3 [payload|]] eqn:Er; [|done]. injection Heq as <- <- <-.
  eapply read_numbers. exact Er.
Qed.

Section world.
Context (base : gset Z) (u : usage) (k : Z) (rcv : MulticastReceiver.t) (reg : Z).
#[local] Abbreviation ok := (world_ok base u k rcv reg).
#[local] Abbreviation within := (within ok world_grace).

Lemma within_proc g w p : within g w → steady grace streams (proc w) p → within g (set_proc p w).
Proof using.
  intros [[W1 W2 W3 W4 W5 W6] Hg] [Hf Hle]. split; [by split; simpl; try congruence|].
  unfold world_grace in *. simpl. lia.
Qed.

Lemma world_now g w : within g w → within g (now w).1.
Proof using Hproc.
  intros Hw. unfold now. destruct (pl_now (proc w)) as [Hk _]. destruct (pr_now (proc w)). by apply within_proc.
Qed.

Lemma world_env g : EnvLaws (world Net M P) (within g) numbered.
Proof using Hnet Hproc Hfeed.
  split.
  - intros w from to [[W1 W2 W3 W4 W5 W6] Hg] _. cbn [env_request world_seq]. unfold request.
    pose proof (request_spec_fd _ _ _ from to W4) as Hr.
    destruct (ClientSocket.request (net w) (recovery w) from to) as [[n fd] answer]. destruct Hr as [Hr _].
    by split; [split|].
  - intros w from to ms _ _. cbn [env_request world_seq]. unfold request.
    destruct (ClientSocket.request (net w) (recovery w) from to) as [[n fd] answer] eqn:E. simpl. intros ->.
    by eapply request_numbered.
  - intros w. apply world_now.
  - done.
Qed.

Lemma world_stops : StopLaws (world Net M P) ok numbered world_grace.
Proof using Hnet Hproc Hfeed Hchl.
  split.
  - apply world_env.
  - intros g w ev [[W1 W2 W3 W4 W5 W6] Hg]. cbn [h_push world_handler]. unfold push.
    pose proof (cl_push (mem w) (region w) ev) as Hp. destruct (ch_try_push _ _ _) as [m b]. simpl in *.
    split; [split; simpl; congruence || done|done].
  - intros g w Hw. cbn [h_stop world_handler]. unfold stop. destruct (pl_stop (proc w)) as [Hk Hlt].
    destruct (pr_stop (proc w)) as [p b]. cbn [fst snd] in *. split; [by apply within_proc|]. exact Hlt.
  - intros g w [[W1 W2 W3 W4 W5 W6] Hg]. cbn [h_receive world_handler]. unfold receive, MulticastReceiver.receive.
    pose proof (recv_law (net w) (MulticastReceiver.fd_ (receiver w)) kMaxPacketBytes) as Hr.
    destruct (so_recv _ _ _) as [n [[count buffer] errno]] eqn:Er. cbn [fst] in Hr.
    assert (within g (set_net n w)) as Hw.
    { split; [split; simpl; try done|done]. by eapply opened_fds. }
    destruct (Z.ltb_spec count 0).
    + split; [done|]. intros packet ms. by destruct (errno =? EAGAIN).
    + split; [done|]. intros packet ms. simpl. destruct (Z.ltb_spec count 0); [lia|].
      destruct (count =? 0); [done|]. intros [= <-]. by eapply recv_numbers.
Qed.

Lemma wait_drained_ends fuel : ∀ m p waited,
  5010 ≤ waited + 10 * Z.of_nat fuel → 0 ≤ waited < 5010 →
  yields (wait_drained fuel m p reg waited) (λ '(m', p'), used m' = used m ∧ steady grace streams p p').
Proof using Hchl Hproc.
  induction fuel as [|fuel IH]; intros m p waited Hf Hw; [lia|]. cbn [wait_drained].
  destruct (Z.ltb_spec waited 5000); [|by apply yields_ret].
  pose proof (cl_empty m reg) as He. destruct (ch_empty m reg) as [m1 []]; cbn [fst] in He; [by apply yields_ret|].
  assert (i32 (waited + 10) = Ret (waited + 10)) as ->.
  { unfold i32. destruct (Z.leb_spec (- 2 ^ 31) (waited + 10)), (Z.leb_spec (waited + 10) (2 ^ 31 - 1)); lia || done. }
  returns. eapply yields_impl; [apply (IH m1 (pr_sleep_ms p 10)); lia|].
  intros [m2 p2] [Hm Hk]. split; [congruence|]. eapply steady_trans; [apply pl_sleep|done].
Qed.

Lemma serve_ends fuel o w :
  ok w → (502 + grace (proc w) ≤ fuel)%nat → 0 < h_reorder o < 2 ^ 64 → h_idle_ms o < 2 ^ 31 - 50 →
  yields (serve fuel o w) ok.
Proof using Hnet Hproc Hfeed Hchl.
  intros Hw Hf Hr Hi. pose proof world_stops as Hlaws. unfold serve.
  eapply yields_bind.
  { apply (main_loop_ends (grace (proc w))); [by split|lia|unfold world_grace; lia|by apply start_ok|done]. }
  intros [w1 h1] [[W1 W2 W3 W4 W5 W6] _]. rewrite W2.
  eapply yields_bind; [apply wait_drained_ends; lia|]. intros [m2 p2] [Hm [Hk _]].
  rewrite cl_store_done, cl_store_count in Hm.
  apply yields_ret. by split; simpl; try congruence.
Qed.
End world.

Lemma unwind_releases base u n m rcv rec shm `{Hnames : !ShmNames M linked} :
  let fd := MulticastReceiver.fd_ rcv in
  fds n = owned fd ∪ (owned rec ∪ base) → owned fd ## owned rec ∪ base → owned rec ## base →
  used m = holding u shm →
  let '(n', m') := unwind n m rcv rec shm in
  fds n' = base ∧ used m' = u ∧ (Shm.owner_ shm = true → Shm.name_ shm ≠ "" → Shm.name_ shm ∉ linked m').
Proof using Hnet Hshm.
  intros fd Hf Hd Hd2 Hu. unfold unwind.
  pose proof (receiver_close_owned _ _ _ Hf Hd) as Hf1. destruct (MulticastReceiver.close n rcv) as [n1 r1]. cbn [fst] in Hf1.
  pose proof (client_close_owned _ _ _ Hf1 Hd2) as Hf2. destruct (ClientSocket.close n1 rec) as [n2 r2]. cbn [fst] in Hf2.
  pose proof (close_releases u m shm Hu) as Hc. destruct (Shm.close m shm) as [m2 shm2] eqn:Ec.
  destruct Hc as [Hc Hrel]. split; [done|]. split; [by rewrite Hc, holding_released|].
  intros Ho Hn. unfold Shm.close in Ec. rewrite Ho, bool_decide_false in Ec by done. simpl in Ec.
  injection Ec as <- _. apply unlink_law.
Qed.

Lemma create_owner m name m' q : Shm.create channel_size m Shm.fresh name = (m', q, true) →
  Shm.owner_ q = true ∧ Shm.name_ q = name.
Proof using.
  unfold Shm.create. destruct (os_create _ _) as [m1 [fd|]]; [|done]. destruct (os_ftruncate m1 fd channel_size) as [m2 []]; simpl.
  - destruct (os_mmap m2 fd) as [m3 [r|]]; [|by destruct (Shm.close _ _)]. by intros [= <- <-].
  - by destruct (Shm.close _ _).
Qed.

(** The state in which [main] may end. *)
Definition handler_left (linked : M → gset string) n m p (argv : list string) (r : Net * M * P * Z) : Prop :=
  let '(n', m', p', code) := r in
  fds n' = fds n ∧ used m' = used m ∧ streams p' = streams p ∧ (code = 0 ∨ code = 1) ∧
  let name := h_shm_name (handler_options (args argv)) in
  (has (args argv) "help" = false → (Shm.create channel_size m Shm.fresh name).2 = true → name ≠ "" → name ∉ linked m').

(** Leaving with [code], everything that is owned given back. *)
Lemma handler_exit `{Hnames : !ShmNames M linked} n m p argv n1 m1 shm created n2 m2 p2 rcv rec code :
  let o := handler_options (args argv) in
  Shm.create channel_size m Shm.fresh (h_shm_name o) = (m1, shm, created) →
  used m2 = holding (used m) shm → streams p2 = streams p → (code = 0 ∨ code = 1) →
  fds n1 = fds n → fds n2 = owned (MulticastReceiver.fd_ rcv) ∪ (owned rec ∪ fds n1) →
  owned (MulticastReceiver.fd_ rcv) ## owned rec ∪ fds n → owned rec ## fds n →
  yields (Ret (unwind n2 m2 rcv rec shm, p2, code)) (handler_left linked n m p argv).
Proof using Hnet Hshm.
  intros o Ec Hu Hp Hc Hn1 Hf Hd1 Hd2. rewrite Hn1 in Hf. apply yields_ret. unfold handler_left. fold o.
  pose proof (unwind_releases (fds n) (used m) n2 m2 rcv rec shm Hf Hd1 Hd2 Hu) as Hw.
  destruct (unwind n2 m2 rcv rec shm) as [n3 m3]. destruct Hw as (Hn3 & Hm3 & Hnm). split_and!; try done.
  rewrite Ec. intros _ Hcr. simpl in Hcr. subst created. destruct (create_owner _ _ _ _ Ec) as [Ho <-]. by apply Hnm.
Qed.

Lemma handler_main_ends `{Hnames : !ShmNames M linked} fuel argv n m p :
  let o := handler_options (args argv) in
  (502 + grace p ≤ fuel)%nat → 0 < h_reorder o → h_idle_ms o < 2 ^ 31 - 50 →
  yields (main channel_size fuel argv n m p) (handler_left linked n m p argv).
Proof using Hnet Hshm Hproc Hfeed Hchl.
  intros o Hf Hr Hi. unfold main. fold o. destruct (has (args argv) "help") eqn:Eh.
  { apply yields_ret. unfold handler_left. rewrite Eh. split_and!; auto. done. }
  destruct (pin_steady p (h_cpu o)) as [Hp Hg]. set (p1 := pin p (h_cpu o)) in *.
  pose proof (create_settled channel_size m (h_shm_name o)) as Hs.
  destruct (Shm.create channel_size m Shm.fresh (h_shm_name o)) as [[m1 shm] created] eqn:Ec. destruct Hs as [Hu Hs].
  pose proof (λ n2 m2 p2 rcv rec code, handler_exit n m p argv n m1 shm created n2 m2 p2 rcv rec code Ec) as Hexit.
  assert (owned (-1) = ∅) as Hnone by done.
  destruct created; cbn [negb]; [|by apply Hexit; auto; simpl; rewrite Hnone; set_solver].
  eapply (yields_bind _ _ (λ '(n1, rec, _), fds n1 = owned rec ∪ fds n ∧ owned rec ## fds n)).
  { destruct (h_use_recovery o); [apply connect_owned; lia|apply yields_ret; rewrite Hnone; set_solver]. }
  intros [[n1 rec] connected] [Hn1 Hd1].
  destruct connected; cbn [negb]; [|by apply Hexit; auto; simpl; rewrite Hnone; set_solver].
  pose proof (receiver_open n1 (h_group o) (h_port o) (h_interface_ip o)) as Hopen.
  destruct (MulticastReceiver.open n1 _ _ _ _) as [[n2 rcv] opened]. destruct Hopen as [Hopen _].
  apply opened_owned in Hopen as [Hn2 Hd2]. rewrite Hn1 in Hn2, Hd2.
  destruct opened; cbn [negb]; [|by apply Hexit; auto].
  unfold MulticastReceiver.set_receive_timeout.
  match goal with |- context [so_setsockopt n2 ?a ?b] =>
    pose proof (setsockopt_law n2 a b) as Hn3; destruct (so_setsockopt n2 a b) as [n3 e] end.
  cbn [fst] in Hn3. rewrite Hn2 in Hn3. destruct (negb (e <? 0)); cbn [negb]; [|by apply Hexit; auto].
  destruct Hs as (_ & [reg Hreg] & Hch'). rewrite Hch', Hreg. cbn [of_option]. returns.
  eapply yields_bind.
  { apply (serve_ends (fds n) (used m1) (streams p) rcv reg); [|simpl; lia|split; [done|apply Z.mod_pos_bound; lia]|done].
    split; simpl; try done; [set_solver|]. apply owned_opened; [rewrite Hn3; set_solver|set_solver]. }
  intros [n4 m4 p4 rec4 rcv4 reg4] [W1 W2 W3 W4 W5 W6]. simpl in *. subst rcv4.
  apply opened_owned in W4 as [Hf4 Hd4]. apply Hexit; auto; try congruence; set_solver.
Qed.
End handler.

(** ** The engine *)

Section engine.
Context `{Hshm : ShmLaws M used} `{Hch : !ChannelOs M} `{Hchl : !ChannelLaws M used}.
Context `{Hproc : ProcLaws P grace streams} (channel_size : Z).
Import EngineProcess.
Implicit Types (m : M) (p : P).

(** The engine after some events. *)
Definition after_events (c : Book.Config) (cap : Z) (s : engine Book.t) : Prop :=
  ∃ b evs, Book.make c = Ret b ∧ Forall (λ e, quantity_ok (msg e.1)) evs ∧
    on_events (engine_start b cap) evs = Ret s.

Lemma after_event c cap s ev t3 t4 :
  limits_ok (limits_of c) → after_events c cap s → quantity_ok (msg ev) →
  yields (on_event s ev t3 t4) (after_events c cap).
Proof using.
  intros HL (b & evs & Hb & Hq & Hrun) Hev.
  assert (Forall (λ e, quantity_ok (msg e.1)) (evs ++ [(ev, (t3, t4))])) as Hq' by (apply Forall_app; auto).
  destruct (engine_run c _ cap HL Hq') as (b' & s' & Hb' & Hrun' & _). rewrite Hb in Hb'. injection Hb' as <-.
  pose proof Hrun' as Hlast. rewrite on_events_app, Hrun in Hlast. simpl in Hlast.
  destruct (on_event s ev t3 t4) as [s1|]; [|done]. injection Hlast as ->. apply yields_ret. by exists b, (evs ++ [(ev, (t3, t4))]).
Qed.

Lemma event_loop_ends c cap channel csv fuel : ∀ m p s,
  limits_ok (limits_of c) → after_events c cap s → (grace p < fuel)%nat →
  yields (event_loop fuel m p channel csv s)
    (λ '(m', p', s'), used m' = used m ∧ steady grace streams p p' ∧ after_events c cap s').
Proof using Hchl Hproc.
  induction fuel as [|fuel IH]; intros m p s HL Hs Hf; [lia|]. cbn [event_loop].
  destruct (pl_stop p) as [Hk1 Hlt]. destruct (pr_stop p) as [p1 stop]. cbn [fst snd] in *.
  destruct stop; [by apply yields_ret|]. specialize (Hlt eq_refl).
  assert (∀ m2 p2 s2, used m2 = used m → steady grace streams p1 p2 → after_events c cap s2 →
    yields (event_loop fuel m2 p2 channel csv s2)
      (λ '(m', p', s'), used m' = used m ∧ steady grace streams p p' ∧ after_events c cap s')) as Hnext.
  { intros m2 p2 s2 Hm2 Hk2 Hs2. eapply yields_impl; [apply IH; [done|done|destruct Hk2; lia]|].
    intros [[m3 p3] s3] (Hm3 & Hk3 & Hs3). split; [congruence|]. split; [|done].
    by eapply steady_trans, steady_trans. }
  destruct (cl_pop m channel) as [Hm1 Hq]. destruct (ch_try_pop m channel) as [m1 popped]. cbn [fst snd] in *.
  destruct popped as [ev|].
  - destruct (pl_now p1) as [Hk2 _]. destruct (pr_now p1) as [p2 t3]. cbn [fst] in Hk2.
    destruct (pl_now p2) as [Hk3 _]. destruct (pr_now p2) as [p3 t4]. cbn [fst] in Hk3.
    eapply yields_bind; [by eapply after_event; auto|]. intros s1 Hs1. apply Hnext; [done| |done].
    eapply steady_trans; [exact Hk2|]. eapply steady_trans; [exact Hk3|].
    destruct csv; [apply pl_fprintf|apply steady_refl].
  - pose proof (cl_done m1 channel) as Hm2. destruct (ch_producer_done m1 channel) as [m2 d]. cbn [fst] in Hm2.
    destruct (d =? 1); [|apply Hnext; [congruence|done|done]].
    pose proof (cl_empty m2 channel) as Hm3. destruct (ch_empty m2 channel) as [m3 []]; cbn [fst] in Hm3.
    + apply yields_ret. split; [congruence|done].
    + apply Hnext; [congruence|done|done].
Qed.

Definition engine_left m p (r : M * P * Z) : Prop :=
  let '(m', p', code) := r in used m' = used m ∧ streams p' = streams p ∧ (code = 0 ∨ code = 1).

Definition engine_config (o : EngineOptions) : Book.Config :=
  Book.mkConfig (e_min_price o) (e_max_price o) (e_max_orders o).

(** [close] of what [attach] left, whatever that is. *)
Lemma close_used m1 m2 q ok u : settled used u m1 q ok → used m2 = used m1 → used (Shm.close m2 q).1 = u.
Proof using Hshm.
  intros [Hu _] He. rewrite <- He in Hu. pose proof (close_releases u m2 q Hu) as Hc.
  destruct (Shm.close m2 q) as [m3 q3]. destruct Hc as [Hc Hr]. cbn [fst]. by rewrite Hc, holding_released.
Qed.

Lemma open_csv_spec p path :
  let '(p', csv) := open_csv p path in
  (grace p' ≤ grace p)%nat ∧
  streams p' = streams p + match csv with Some (Some _) => 1 | _ => 0 end.
Proof using Hproc.
  unfold open_csv. case_decide; [split; lia|].
  destruct (pl_fopen p path) as [Hs Hg]. destruct (pr_fopen p path) as [p1 [file|]]; simpl in *; [|split; lia].
  destruct (pl_fprintf p1 file Header). split; lia.
Qed.

(** The quotes are always there; what may fail is their difference. *)
Lemma spread_ends c cap s : limits_ok (limits_of c) → after_events c cap s →
  (∃ v, spread (book s) = Ret v) ∨ spread (book s) = Fault SignedOverflow.
Proof using.
  intros HL (b & evs & Hb & Hq & Hrun). destruct (engine_run c evs cap HL Hq) as (b' & s' & Hb' & Hrun' & Hobs).
  rewrite Hb in Hb'. injection Hb' as <-. rewrite Hrun in Hrun'. injection Hrun' as <-.
  destruct (ob_bid _ _ _ Hobs) as (bid & Hbid & _), (ob_ask _ _ _ Hobs) as (ask & Hask & _).
  unfold spread. rewrite Hask, Hbid. simpl. unfold i64. destruct (in_i64 (ask - bid)); eauto.
Qed.

Lemma engine_main_ends fuel argv m p :
  let o := engine_options (args argv) in
  0 ≤ e_attach_timeout_ms o ≤ 2 ^ 31 - 11 → limits_ok (limits_of (engine_config o)) →
  e_attach_timeout_ms o + 10 < 10 * Z.of_nat fuel → (grace p < fuel)%nat →
  yields (main channel_size fuel argv m p) (engine_left m p) ∨
  e_quiet o = false ∧ main channel_size fuel argv m p = Fault SignedOverflow.
Proof using Hshm Hchl Hproc.
  intros o Ht HL Hfa Hf. unfold main. destruct (has (args argv) "help"); [left; apply yields_ret; by split; auto|]. fold o.
  destruct (pin_steady p (e_cpu o)) as [Hp Hg]. set (p1 := pin p (e_cpu o)) in *.
  destruct (attach_settled channel_size fuel m (e_shm_name o) (e_attach_timeout_ms o) Ht Hfa)
    as (m1 & q & ok & -> & Hset & _). returns.
  destruct ok; cbn [negb]; [|left; apply yields_ret; split; [by eapply close_used|auto]].
  pose proof Hset as [_ (_ & [reg Hreg] & Hch')]. rewrite Hch', Hreg. cbn [of_option]. returns.
  destruct (make_spec (engine_config o) HL) as (b & Hb & _). unfold engine_config in Hb. rewrite Hb. returns.
  pose proof (open_csv_spec p1 (e_csv_path o)) as Hcsv. destruct (open_csv p1 (e_csv_path o)) as [p2 csv].
  destruct Hcsv as [Hg2 Hs2]. destruct csv as [csv|]; [|left; apply yields_ret; split; [by eapply close_used|split; [lia|auto]]].
  destruct (event_loop_ends (engine_config o) (e_sample_capacity o) reg csv fuel m1 p2 (engine_start b (e_sample_capacity o)) HL)
    as ([[m3 p3] s3] & -> & Hm3 & [Hs3 _] & Haft); [by exists b, []|lia|]. returns.
  assert (engine_left m p ((Shm.close m3 q).1, match csv with Some file => pr_fclose p3 file | None => p3 end, 0)) as Hleft.
  { split; [by eapply close_used|]. split; [|auto]. destruct csv as [file|]; [destruct (pl_fclose p3 file)|]; lia. }
  destruct (e_quiet o); [left; by apply yields_ret|].
  destruct (spread_ends _ _ _ HL Haft) as [[v ->]| ->]; [left; by apply yields_ret|by right].
Qed.
End engine.

(** ** The exchange *)

(** Any deadline is reached within [spins] readings of the clock. *)
Class ClockLaws (P : Type) `{ProcOs P} (spins : nat) : Prop :=
  clock_law p d : 0 ≤ d < 2 ^ 64 →
    ∃ k, (k < spins)%nat ∧ d ≤ (pr_now (Nat.iter k (λ p, (pr_now p).1) p)).2.

(** The ranges of the distributions. *)
Class RngLaws (G : Type) `{RngOs G} : Prop := {
  depth_law g : 1 ≤ (rng_depth g).2 ≤ 40;
  lot_law g : 1 ≤ (rng_lot g).2 ≤ 20;
  pick_law g n : 0 < n → 0 ≤ (rng_pick g n).2 < n
}.

(** What is asked of the recovery server: no request ends at the last 64-bit number. *)
Class RequestNumbers (S : Type) `{SocketOs S} : Prop :=
  request_numbers : ∀ n fd n' bytes, so_read_exact n fd request_bytes = (n', Some bytes) → countable bytes.

Section exchange.
Context `{Hnet : SocketLaws Net fds} `{Hreq : !RequestNumbers Net} `{Hproc : ProcLaws P grace streams} `{Hrng : RngLaws G}.
Context {spins : nat} `{Hclock : !ClockLaws P spins} (strtod : string → Q) (pad : list Z).
Import ExchangeProcess.
Implicit Types (w : world Net P G).

Record publishing_ok (F : gset Z) (k : Z) (pub : MulticastPublisher.t) w : Prop := {
  po_net : fds (net w) = F;
  po_proc : streams (proc w) = k;
  po_publisher : publisher w = pub
}.

Section world.
Context (F : gset Z) (k : Z) (pub : MulticastPublisher.t).
#[local] Abbreviation ok := (publishing_ok F k pub).

Lemma wait_ends d n : ∀ fuel w, ok w → (n < fuel)%nat →
  d ≤ (pr_now (Nat.iter n (λ p, (pr_now p).1) (proc w))).2 →
  ∃ w', Exchange.busy_wait_until fuel w d = Ret w' ∧ ok w' ∧ sent w' = sent w.
Proof using Hproc.
  induction n as [|n IH]; intros fuel w Hw Hf Hd; (destruct fuel as [|fuel]; [lia|]);
    cbn [Exchange.busy_wait_until x_now world_exchange];
    pose proof Hw as [W1 W2 W3]; destruct (pl_now (proc w)) as [[Hs _] _];
    (assert (ok (set_proc (pr_now (proc w)).1 w)) as Hw1 by (split; simpl; congruence || done));
    destruct (Z.ltb_spec (pr_now (proc w)).2 d); try (by eexists).
  - simpl in Hd. lia.
  - destruct (IH fuel (set_proc (pr_now (proc w)).1 w) Hw1 ltac:(lia)) as (w' & Hrun & Hw' & Hsent); [|by exists w'].
    rewrite Nat.iter_succ_r in Hd. exact Hd.
Qed.

Lemma world_publishes : ExchangeLaws (world Net P G) ok sent spins.
Proof using Hnet Hproc Hrng Hclock.
  split.
  - intros w [W1 W2 W3]. by split; [split|].
  - intros w [W1 W2 W3]. split; [by split|]. split; [done|]. apply depth_law.
  - intros w [W1 W2 W3]. split; [by split|]. split; [done|]. apply lot_law.
  - intros w n [W1 W2 W3] Hn. split; [by split|]. split; [done|]. by apply pick_law.
  - intros w [W1 W2 W3]. destruct (pl_now (proc w)) as [[Hs _] Ht]. split; [split; simpl; congruence || done|done].
  - intros w [W1 W2 W3]. destruct (pl_stop (proc w)) as [[Hs _] _]. split; [split; simpl; congruence || done|done].
  - intros w d Hw Hd. destruct (clock_law (proc w) d Hd) as (n & Hn & Hr). by apply (wait_ends d n).
  - intros w packet [W1 W2 W3]. cbn [x_send world_exchange]. unfold send, MulticastPublisher.send.
    pose proof (sendto_law (net w) (MulticastPublisher.fd_ (publisher w)) packet (MulticastPublisher.destination_ (publisher w))) as Hs.
    destruct (so_sendto _ _ _ _) as [n e]. cbn [fst] in Hs. split; [split; simpl; congruence || done|done].
Qed.
End world.

(** The server thread gives back what it accepted, and the server its own descriptor;
    after that a second [stop] finds nothing to do. *)
Lemma stop_server_owned cap first h ms served B n l :
  hist_rep cap first h ms →
  fds n = owned (Listener.listen_fd_ l) ∪ B → owned (Listener.listen_fd_ l) ## B →
  Listener.running_ l = (0 <=? Listener.listen_fd_ l) →
  yields (stop_server served n l h)
    (λ '(n', l'), fds n' = B ∧ Listener.running_ l' = false ∧ Listener.listen_fd_ l' < 0).
Proof using Hnet Hreq.
  intros HR Hf Hd Hr. unfold stop_server.
  destruct (run_keeps (cap := cap) (first := first) (ms := ms) request_numbers l served n
    (RecoveryServer.mkServer h 0 0) HR) as (n1 & r & Hrun & Hf1 & _).
  destruct (Z.leb_spec 0 (Listener.listen_fd_ l)) as [Hl|Hl]; rewrite Hr.
  - rewrite Hrun. returns. apply yields_ret. unfold Listener.stop. rewrite Hr. rewrite <- Hf1 in Hf.
    pose proof (close_owned B n1 _ Hf Hd) as Hc. destruct (Z.leb_spec 0 (Listener.listen_fd_ l)); [|lia]. by split_and!.
  - returns. apply yields_ret. unfold Listener.stop. rewrite Hr. split_and!; [|done|done].
    rewrite Hf. unfold owned. destruct (Z.leb_spec 0 (Listener.listen_fd_ l)); [lia|]. apply (left_id_L ∅ (∪)).
Qed.

Lemma unwind_owned cap first h ms served B n pub l :
  hist_rep cap first h ms →
  fds n = owned (MulticastPublisher.fd_ pub) ∪ (owned (Listener.listen_fd_ l) ∪ B) →
  owned (MulticastPublisher.fd_ pub) ## owned (Listener.listen_fd_ l) ∪ B → owned (Listener.listen_fd_ l) ## B →
  Listener.running_ l = (0 <=? Listener.listen_fd_ l) → yields (unwind served n pub l h) (λ n', fds n' = B).
Proof using Hnet Hreq.
  intros HR Hf Hd Hd2 Hr. unfold unwind.
  pose proof (publisher_close_owned _ _ _ Hf Hd) as Hf1. destruct (MulticastPublisher.close n pub) as [n1 p1]. cbn [fst] in Hf1.
  eapply yields_bind; [by eapply stop_server_owned|]. intros [n2 l2] (Hn & _). by apply yields_ret.
Qed.

Definition exchange_left n p (r : Net * P * Z) : Prop :=
  let '(n', p', code) := r in fds n' = fds n ∧ streams p' = streams p ∧ (code = 0 ∨ code = 1).

(** Every return of the main, the server's thread joined on the way out. *)
Lemma unwind_left cap first h ms served n0 p0 n p code pub l :
  hist_rep cap first h ms →
  fds n = owned (MulticastPublisher.fd_ pub) ∪ (owned (Listener.listen_fd_ l) ∪ fds n0) →
  owned (MulticastPublisher.fd_ pub) ## owned (Listener.listen_fd_ l) ∪ fds n0 →
  owned (Listener.listen_fd_ l) ## fds n0 → Listener.running_ l = (0 <=? Listener.listen_fd_ l) →
  streams p = streams p0 → code = 0 ∨ code = 1 →
  yields (n ← unwind served n pub l h; Ret (n, p, code)) (exchange_left n0 p0).
Proof using Hnet Hreq.
  intros HR Hf Hd Hd2 Hr Hp Hc. eapply yields_bind; [by eapply unwind_owned|].
  intros n' Hn. apply yields_ret. by split_and!.
Qed.

Lemma exchange_main_ends fuel served argv n p :
  let o := exchange_options strtod 0%Q (args argv) in
  0 < x_history_capacity _ o → 1001 + x_total_messages _ o < 2 ^ 64 → x_total_messages _ o < Z.of_nat fuel →
  yields (main (G := G) strtod pad fuel spins served argv n p) (exchange_left n p).
Proof using Hnet Hreq Hproc Hrng Hclock.
  intros o Hh Hfit Hf. unfold main. destruct (has (args argv) "help"); [apply yields_ret; by split; auto|]. fold o.
  destruct (pin_steady p (x_cpu _ o)) as [Hp _]. set (p1 := pin p (x_cpu _ o)) in *.
  assert (0 < x_history_capacity _ o < 2 ^ 64) as Hcap by (split; [done|apply Z.mod_pos_bound; lia]).
  pose proof (hist_rep_make _ 1001 Hcap ltac:(lia)) as HR0.
  pose proof (start_spec n (x_recovery_port _ o)) as Hst.
  destruct (Listener.start n Listener.fresh (x_recovery_port _ o)) as [[n1 l] started]. destruct Hst as [Hl Hrun].
  assert (Listener.running_ l = (0 <=? Listener.listen_fd_ l)) as Hr.
  { rewrite Hrun. destruct started; [destruct Hl as [? _]|destruct Hl]; by destruct (Z.leb_spec 0 (Listener.listen_fd_ l)); try lia. }
  apply opened_owned in Hl as [Hn1 Hd1].
  destruct started; cbn [negb].
  2: { eapply unwind_left; [exact HR0| | |done|done|done|auto]; rewrite ?Hn1; unfold owned; set_solver. }
  pose proof (publisher_open n1 (x_group _ o) (x_port _ o) (x_interface_ip _ o)) as Ho.
  destruct (MulticastPublisher.open n1 _ _ _ _) as [[n2 pub] opened]. destruct Ho as [Ho _].
  apply opened_owned in Ho as [Hn2 Hd2]. rewrite Hn1 in Hn2, Hd2.
  destruct opened; cbn [negb]; [|by eapply unwind_left; eauto].
  set (p2 := pr_sleep_ms p1 _). assert (streams p2 = streams p) as Hp2.
  { destruct (pl_sleep p1 (x_start_delay_ms _ o)). unfold p2. congruence. }
  destruct (pl_now p2) as [[Hp3 _] _]. destruct (pr_now p2) as [p3 start_ns]. cbn [fst] in Hp3.
  pose proof (world_publishes (fds n2) (streams p) pub) as Hlaws.
  destruct (array_run (Henv := Hlaws) (publish_options pad o start_ns) (x_history_capacity _ o) (Z.shiftl 1 20) fuel
    (mkWorld n2 p3 (rng_seed (x_seed _ o)) pub [])) as (b & w & x & going & ms & chunks & -> & Hx & Hinv & _).
  - apply clamp_batch_ok.
  - exact Hcap.
  - vm_compute. split; congruence.
  - split; simpl; congruence || done.
  - apply Z.mod_pos_bound. lia.
  - done.
  - done.
  - destruct Hinv as [[W1 W2 W3] _ _ HR _ _ _ _ _ _ _ _ _ _ _].
    returns. rewrite Hx. returns. destruct w as [n4 p4 g4 pub4 sent4]. simpl in W1, W2, W3. subst pub4.
    rewrite Hn2 in W1. destruct going; cbn [negb]; [|by eapply unwind_left; eauto].
    destruct (pl_now p4) as [[Hp5 _] _]. destruct (pr_now p4) as [p5 t5]. cbn [fst] in Hp5.
    destruct (pl_sleep p5 (x_linger_ms _ o)) as [Hp6 _].
    eapply yields_bind; [eapply (stop_server_owned _ _ _ _ served (owned (MulticastPublisher.fd_ pub) ∪ fds n)); [exact HR| | |exact Hr]|].
    + rewrite W1. clear. set_solver.
    + clear -Hd1 Hd2. set_solver.
    + intros [n5 l5] (Hn5 & Hr5 & Hl5). assert (owned (Listener.listen_fd_ l5) = ∅) as Ho5.
      { unfold owned. by destruct (Z.leb_spec 0 (Listener.listen_fd_ l5)); [lia|]. }
      eapply unwind_left; [exact HR| | | | | |auto]; rewrite ?Ho5, ?(left_id_L ∅ (∪)); [done| | | |].
      * clear -Hd2. set_solver.
      * apply disjoint_empty_l.
      * rewrite Hr5. by destruct (Z.leb_spec 0 (Listener.listen_fd_ l5)); [lia|].
      * congruence.
Qed.
End exchange.

(** ** Capacities of zero *)

(** [--reorder 0] and [--history 0] are accepted and divide by zero at the first
    message. *)
Lemma zero_capacity_faults {E} `{SeqEnv E} (e : E) connected inc m :
  Seq.accept e (Seq.make 0 connected) inc = Fault DivByZero ∧
  HistoryStore.append (HistoryStore.make 0) m = Fault DivByZero.
Proof.
  split; [|done]. unfold Seq.accept, Seq.accept_new. cbn [Seq.started_ Seq.make Seq.set_stats Seq.expected_ Seq.set_started Seq.set_expected].
  rewrite Z.ltb_irrefl, Z.sub_diag. done.
Qed.

(** ** A small system *)

(** Segments as in [boot], and the events in the one channel there is. *)
Definition memory : Type := posix * list PipelineEvent.

Definition lift {A} (m : memory) (r : posix * A) : memory * A := ((r.1, m.2), r.2).

#[export] Instance memory_shm : ShmOs memory := {
  os_unlink m n := (os_unlink m.1 n, m.2);
  os_create m n := lift m (os_create m.1 n);
  os_open m n := lift m (os_open m.1 n);
  os_ftruncate m fd n := lift m (os_ftruncate m.1 fd n);
  os_fstat m fd := lift m (os_fstat m.1 fd);
  os_mmap m fd := lift m (os_mmap m.1 fd);
  os_munmap m r := (os_munmap m.1 r, m.2);
  os_close m fd := (os_close m.1 fd, m.2);
  os_construct m r := (os_construct m.1 r, m.2);
  os_store_ready m r v := (os_store_ready m.1 r v, m.2);
  os_load_ready m r := lift m (os_load_ready m.1 r);
  os_sleep m := (os_sleep m.1, m.2)
}.

(** The producer has finished; quantities are cut to their type. *)
#[export] Instance memory_channel : ChannelOs memory := {
  ch_try_push m _ ev := ((m.1, m.2 ++ [ev]), true);
  ch_try_pop m _ :=
    match m.2 with
    | [] => (m, None)
    | ev :: rest => ((m.1, rest), if bool_decide (0 ≤ quantity (msg ev) < 2 ^ 32) then Some ev else None)
    end;
  ch_empty m _ := (m, bool_decide (m.2 = []));
  ch_producer_done m _ := (m, 1);
  ch_store_produced_count m _ _ := m;
  ch_store_producer_done m _ _ := m
}.

Definition memory_used (m : memory) : usage := in_use m.1.
Definition memory_linked (m : memory) : gset string := dom (SharedMemory.names m.1).

Lemma memory_laws : ShmLaws memory memory_used.
Proof.
  pose proof posix_laws as [L1 L2 L3 L4 L5 L6 L7 L8 L9 L10 L11 L12].
  split; intros m *; destruct m as [x evs]; unfold memory_used; simpl; done || apply L2 || apply L3.
Qed.

Lemma memory_channel_laws : ChannelLaws memory memory_used.
Proof.
  split; try done. intros [x evs] r. simpl. destruct evs as [|ev evs]; simpl; [done|]. split; [done|].
  intros ev'. case_bool_decide; [|done]. by intros [= <-].
Qed.

Lemma memory_names : ShmNames memory memory_linked.
Proof. intros [x evs] name. unfold memory_linked. simpl. set_solver. Qed.

(** The same host with a feed that sends the three messages of [demo_history] again and
    again. *)
Definition feeding_os : SocketOs host := {|
  so_socket := so_socket (Os := host);
  so_setsockopt := so_setsockopt;
  so_bind := so_bind;
  so_listen := so_listen;
  so_accept := so_accept;
  so_connect := so_connect;
  so_sendto := so_sendto;
  so_recv h _ _ := let packet := encode_packet [0; 0; 0; 0] demo_history in (h, (vlen packet, packet, 0));
  so_close := so_close;
  so_read_exact := so_read_exact;
  so_write_exact := so_write_exact;
  so_sleep_ms := so_sleep_ms;
  inet_pton := inet_pton (Os := host)
|}.

Lemma feeding_laws : SocketLaws host (H := feeding_os) open_fds.
Proof. destruct host_laws. by split. Qed.

Lemma feeding_numbers : FeedNumbers host (H := feeding_os).
Proof.
  split; [|done]. intros n fd len n' count buffer errno ms Hr Hp. cbn in Hr. injection Hr as _ <- <- _.
  vm_compute in Hp. injection Hp as <-. repeat constructor; vm_compute; congruence.
Qed.

(** A process that is told to stop after [checks] readings of the flag, under a
    clock that stands at its last value. *)
Record clerk := mkClerk { checks : nat; open_files : Z }.

#[export] Instance clerk_os : ProcOs clerk := {
  pr_setaffinity c _ := (c, true);
  pr_stop c := match checks c with O => (c, true) | S n => (mkClerk n (open_files c), false) end;
  pr_now c := (c, 2 ^ 64 - 1);
  pr_sleep_ms c _ := c;
  pr_fopen c _ := (mkClerk (checks c) (open_files c + 1), Some 9);
  pr_fprintf c _ _ := c;
  pr_fclose c _ := mkClerk (checks c) (open_files c - 1)
}.

Lemma clerk_laws : ProcLaws clerk checks open_files.
Proof.
  split; unfold steady; try (intros; simpl; split; (done || lia)).
  - intros [[|n] k]; simpl; (split; [split; [done|lia]|]); [done|lia].
Qed.

Lemma clerk_clock : ClockLaws clerk 1.
Proof. intros c d Hd. exists 0%nat. simpl. lia. Qed.

#[export] Instance dice_os : RngOs unit := {
  rng_seed _ := tt;
  rng_unit g := (g, (1 # 4)%Q);
  rng_depth g := (g, 1);
  rng_lot g := (g, 1);
  rng_pick g _ := (g, 0)
}.

Lemma dice_laws : RngLaws unit.
Proof. split; simpl; intros; lia. Qed.

(** ** Properties *)

(** C27. The handler process ends in order. With a reorder window that is not empty and an
    idle time-out below 2^31 - 50 ms, and as long as the feed and the recovery server send
    no message number from 2^64 - 1024 on, once the process is asked to stop the main
    returns, without fault, 0 or 1, whatever else the socket calls, the recovery server,
    the feed and the engine do; every descriptor, mapping and stream it opened is
    released on every path, those of its failures included; and the segment of a [create]
    that succeeded has lost its name (one whose [create] fails after [shm_open] keeps
    it). *)
Theorem handler_main_clean {Net M P} {fds : Net → gset Z} {used : M → usage} {linked : M → gset string}
    {grace : P → nat} {streams : P → Z} `{SocketLaws Net fds} `{ShmLaws M used} `{ChannelOs M} `{!ChannelLaws M used}
    `{!ShmNames M linked} `{ProcLaws P grace streams} `{!FeedNumbers Net}
    channel_size fuel argv (n : Net) (m : M) (p : P) :
  let o := handler_options (args argv) in
  (502 + grace p ≤ fuel)%nat → 0 < h_reorder o → h_idle_ms o < 2 ^ 31 - 50 →
  ∃ n' m' p' code, HandlerProcess.main channel_size fuel argv n m p = Ret (n', m', p', code) ∧
    (code = 0 ∨ code = 1) ∧ fds n' = fds n ∧ used m' = used m ∧ streams p' = streams p ∧
    (has (args argv) "help" = false → (Shm.create channel_size m Shm.fresh (h_shm_name o)).2 = true →
     h_shm_name o ≠ "" → h_shm_name o ∉ linked m').
Proof.
  intros o Hf Hr Hi. destruct (handler_main_ends channel_size fuel argv n m p Hf Hr Hi) as ([[[n' m'] p'] code] & Hrun & Hleft).
  exists n', m', p', code. destruct Hleft as (H1' & H2' & H3' & H4' & H5'). split_and!; done.
Qed.

(** The three messages of the feed are pushed once, and the main is told to stop. *)
Lemma handler_main_clean_witness :
  ∃ n' m' p' code, HandlerProcess.main (H := feeding_os) 64 600 ["--cpu=3"; "--reorder=16"] booted (boot, []) (mkClerk 9 0)
      = Ret (n', m', p', code) ∧ msg <$> m'.2 = demo_history ∧
    open_fds n' = {[0; 1; 2]} ∧ memory_used m' = mkUsage 3 0 ∧ "/llte_feed" ∉ memory_linked m'.
Proof.
  destruct (handler_main_clean (H0 := feeding_laws) (H2 := memory_laws) (ChannelLaws0 := memory_channel_laws)
    (ShmNames0 := memory_names) (H5 := clerk_laws) (FeedNumbers0 := feeding_numbers) 64 600 ["--cpu=3"; "--reorder=16"]
    booted (boot, []) (mkClerk 9 0)) as (n' & m' & p' & code & Hrun & Hcode & Hf & Hu & Hs & Hn).
  - simpl. lia.
  - vm_compute. reflexivity.
  - vm_compute. reflexivity.
  - exists n', m', p', code. split; [exact Hrun|]. split; [vm_compute in Hrun; injection Hrun as _ <- _ _; vm_compute; reflexivity|].
    split; [exact Hf|]. split; [exact Hu|]. apply Hn; [reflexivity|vm_compute; reflexivity|discriminate].
Defined.

(** C28. The engine process ends in order: once it is asked to stop, the main
    returns, 0 or 1, with every descriptor, mapping and stream released, whatever
    the system calls answer and whatever events it pops; the one exception is a
    run without [--quiet], in which the subtraction for the printed spread may
    overflow. *)
Theorem engine_main_clean {M P} {used : M → usage} {grace : P → nat} {streams : P → Z}
    `{ShmLaws M used} `{ChannelOs M} `{!ChannelLaws M used} `{ProcLaws P grace streams}
    channel_size fuel argv (m : M) (p : P) :
  let o := engine_options (args argv) in
  0 ≤ e_attach_timeout_ms o ≤ 2 ^ 31 - 11 → limits_ok (limits_of (engine_config o)) →
  e_attach_timeout_ms o + 10 < 10 * Z.of_nat fuel → (grace p < fuel)%nat →
  (∃ m' p' code, EngineProcess.main channel_size fuel argv m p = Ret (m', p', code) ∧
     (code = 0 ∨ code = 1) ∧ used m' = used m ∧ streams p' = streams p) ∨
  e_quiet o = false ∧ EngineProcess.main channel_size fuel argv m p = Fault SignedOverflow.
Proof.
  intros o Ht HL Hfa Hf. destruct (engine_main_ends channel_size fuel argv m p Ht HL Hfa Hf) as [(r & Hrun & Hleft)|Hfault].
  - destruct r as [[m' p'] code]. left. exists m', p', code. destruct Hleft as (H1' & H2' & H3'). by split_and!.
  - by right.
Qed.

(** A segment that is ready, with one offer in the channel: with [--quiet] the
    engine ends well, without it the spread overflows. *)
Definition one_offer : memory := (stale, [mkEvent (mkMessage 1001 5 1 102 10 1 Add Sell 0) 1 2 3 0]).
Definition small_book : list string :=
  ["--min-price=100"; "--max-price=103"; "--max-orders=4"; "--samples=8"; "--attach-timeout-ms=10"; "--csv=out.csv"].

Lemma engine_main_clean_witness :
  (∃ m' p', EngineProcess.main 64 5 (small_book ++ ["--quiet"]) one_offer (mkClerk 4 0) = Ret (m', p', 0) ∧
     memory_used m' = mkUsage 3 0 ∧ open_files p' = 0) ∧
  EngineProcess.main 64 5 small_book one_offer (mkClerk 4 0) = Fault SignedOverflow.
Proof.
  split.
  - destruct (engine_main_clean (H0 := memory_laws) (ChannelLaws0 := memory_channel_laws) (H3 := clerk_laws)
      64 5 (small_book ++ ["--quiet"]) one_offer (mkClerk 4 0)) as [(m' & p' & code & Hrun & _ & Hu & Hs)|[Hq _]].
    + vm_compute. split; congruence.
    + repeat split; vm_compute; congruence.
    + vm_compute. reflexivity.
    + simpl. lia.
    + assert (code = 0) as -> by (vm_compute in Hrun; congruence).
      exists m', p'. split; [exact Hrun|]. split; [exact Hu|exact Hs].
    + vm_compute in Hq. discriminate.
  - vm_compute. reflexivity.
Defined.

(** The server thread's clients ask for messages 1 and 2, so no request ends at the last
    64-bit number. *)
Lemma asking_numbers : RequestNumbers host (H := asking_os).
Proof. intros n fd n' bytes Hr. cbn in Hr. injection Hr as _ <-. vm_compute. repeat split; congruence. Qed.

(** C29. The exchange process ends in order. With a history that holds something, fewer
    than 2^64-1001 messages, a clock that passes any deadline within [spins] readings and
    no request that ends at the last 64-bit number (for which the server's thread runs on
    and cannot be joined), the main returns, 0 or 1, without fault, whatever the socket
    calls answer and whatever is drawn, after at most [total_messages] turns of the
    publishing loop, the server's thread joined on every path; every descriptor and
    stream opened, those of its accepted connections included, is released on every
    path. *)
Theorem exchange_main_clean {Net P G} {fds : Net → gset Z} {grace : P → nat} {streams : P → Z} {spins : nat}
    `{SocketLaws Net fds} `{!RequestNumbers Net} `{ProcLaws P grace streams} `{RngLaws G} `{!ClockLaws P spins}
    strtod pad fuel served argv (n : Net) (p : P) :
  let o := exchange_options strtod 0%Q (args argv) in
  0 < x_history_capacity _ o → 1001 + x_total_messages _ o < 2 ^ 64 → x_total_messages _ o < Z.of_nat fuel →
  ∃ n' p' code, ExchangeProcess.main (G := G) strtod pad fuel spins served argv n p = Ret (n', p', code) ∧
    (code = 0 ∨ code = 1) ∧ fds n' = fds n ∧ streams p' = streams p.
Proof.
  intros o Hh Hfit Hf.
  destruct (exchange_main_ends strtod pad fuel served argv n p Hh Hfit Hf) as ([[n' p'] code] & Hrun & Hleft).
  exists n', p', code. destruct Hleft as (H1' & H2' & H3'). by split_and!.
Qed.

(** Two messages are published; one client connects and is answered twice. *)
Lemma exchange_main_clean_witness :
  ∃ n' p' code, ExchangeProcess.main (H := asking_os) (G := unit) (λ _, 0%Q) [0; 0; 0; 0] 3 1 [[true; true]]
      ["--messages=2"; "--history=8"] booted (mkClerk 9 0) = Ret (n', p', code) ∧ open_fds n' = {[0; 1; 2]}.
Proof.
  destruct (exchange_main_clean (H0 := asking_laws) (RequestNumbers0 := asking_numbers) (H2 := clerk_laws) (H4 := dice_laws)
    (ClockLaws0 := clerk_clock) (λ _, 0%Q) [0; 0; 0; 0] 3 [[true; true]] ["--messages=2"; "--history=8"] booted (mkClerk 9 0))
    as (n' & p' & code & Hrun & _ & Hf & _).
  - vm_compute. reflexivity.
  - vm_compute. reflexivity.
  - vm_compute. reflexivity.
  - exists n', p', code. split; [exact Hrun|exact Hf].
Defined.
