(* ===== verification/Conformance.v ===== *)
(** * The unit tests, run on the model

    The deterministic tests of [tests/test_order_book.cpp], [tests/test_queue.cpp] and
    [tests/test_gap_recovery.cpp], call by call and check by check. Each of them passes on
    the definitions of this development, evaluated by the kernel. Left out: the random
    test of the book and the threaded test of the ring, whose claims are theorems
    here ([book_run_refines], [spsc_concurrent_fifo]), the test of the memory layout, and
    the search for a free port. *)

From S2P Require Import Prelude Message BookSpec OrderBook BookInterface SpscQueue History Wire Recovery SequenceManager OrderBookTheorems.

#[local] Open Scope Z_scope.
#[local] Open Scope llte_scope.

(** ** The order book *)

Module BookTests.
Import Book.

(** One line of a test: a call with the result it must have (a bare call checks
    nothing), or a query with its answer. *)
Inductive line :=
  | Call (o : op) (r : Result)
  | Bare (o : op)
  | BestBid (p : Z)
  | BestAsk (p : Z)
  | QuantityAt (s : Side) (p q : Z)
  | OrderCountAt (s : Side) (p n : Z)
  | Contains (id : Z) (found : bool)
  | LiveOrders (n : Z).

Definition run_line (b : t) (l : line) : outcome (t * bool) :=
  match l with
  | Call o r => '(b, got) ← apply_op b o; Ret (b, bool_decide (got = Some r))
  | Bare o => '(b, _) ← apply_op b o; Ret (b, true)
  | BestBid p => got ← best_bid b; Ret (b, got =? p)
  | BestAsk p => got ← best_ask b; Ret (b, got =? p)
  | QuantityAt s p q => got ← quantity_at b s p; Ret (b, got =? q)
  | OrderCountAt s p n => got ← order_count_at b s p; Ret (b, got =? n)
  | Contains id found => got ← contains b id; Ret (b, Bool.eqb got found)
  | LiveOrders n => Ret (b, live_order_count b =? n)
  end.

Fixpoint run_lines (b : t) (ls : list line) : outcome bool :=
  match ls with
  | [] => Ret true
  | l :: ls => '(b, ok) ← run_line b l; if ok : bool then run_lines b ls else Ret false
  end.

Definition run_test (max_orders : Z) (ls : list line) : outcome bool :=
  b ← make (mkConfig 18000 19000 max_orders); run_lines b ls.

Definition test_add_and_touch : list line := [
  BestBid kNoPrice; BestAsk kNoPrice;
  Call (OpAdd 1 Buy 18750 100) Ok; Call (OpAdd 2 Buy 18751 200) Ok;
  Call (OpAdd 3 Sell 18755 300) Ok; Call (OpAdd 4 Sell 18754 50) Ok;
  BestBid 18751; BestAsk 18754; QuantityAt Buy 18750 100; QuantityAt Sell 18755 300; LiveOrders 4].

Definition test_rejects_bad_input : list line := [
  Call (OpAdd 1 Buy 17000 100) PriceOutOfBand; Call (OpAdd 2 Buy 18500 0) InvalidQuantity;
  Call (OpAdd 3 Buy 18500 100) Ok; Call (OpAdd 3 Buy 18501 100) DuplicateOrder;
  Call (OpCancel 999) UnknownOrder; Call (OpModify 999 18500 10) UnknownOrder; Call (OpExecute 999 10) UnknownOrder].

Definition test_price_time_priority : list line := [
  Bare (OpAdd 1 Buy 18700 100); Bare (OpAdd 2 Buy 18700 200); Bare (OpAdd 3 Buy 18700 300);
  OrderCountAt Buy 18700 3; QuantityAt Buy 18700 600;
  Call (OpModify 1 18700 50) Ok; QuantityAt Buy 18700 550; OrderCountAt Buy 18700 3;
  Call (OpModify 1 18700 400) Ok; QuantityAt Buy 18700 900; OrderCountAt Buy 18700 3].

Definition test_modify_moves_levels : list line := [
  Bare (OpAdd 1 Buy 18700 100); Bare (OpAdd 2 Buy 18690 100); BestBid 18700;
  Call (OpModify 1 18680 100) Ok; BestBid 18690; QuantityAt Buy 18700 0; QuantityAt Buy 18680 100;
  Call (OpModify 1 18710 100) Ok; BestBid 18710].

Definition test_execute_and_cancel : list line := [
  Bare (OpAdd 1 Sell 18800 100); Bare (OpAdd 2 Sell 18800 100); Bare (OpAdd 3 Sell 18810 500); BestAsk 18800;
  Call (OpExecute 1 40) Ok; QuantityAt Sell 18800 160; Contains 1 true;
  Call (OpExecute 1 60) Ok; Contains 1 false; QuantityAt Sell 18800 100;
  Call (OpExecute 2 999) Ok; QuantityAt Sell 18800 0; BestAsk 18810;
  Call (OpCancel 3) Ok; BestAsk kNoPrice; LiveOrders 0].

Definition test_pool_exhaustion : list line :=
  ((λ id, Call (OpAdd id Buy 18500 10) Ok) <$> [1; 2; 3; 4]) ++
  [Call (OpAdd 5 Buy 18500 10) PoolExhausted; Call (OpCancel 2) Ok; Call (OpAdd 5 Buy 18500 10) Ok].

Lemma book_tests_pass :
  run_test 1024 <$> [test_add_and_touch; test_rejects_bad_input; test_price_time_priority;
    test_modify_moves_levels; test_execute_and_cancel] = replicate 5 (Ret true) ∧
  run_test 4 test_pool_exhaustion = Ret true.
Proof. split; vm_compute; reflexivity. Qed.
End BookTests.

(** ** The ring *)

Module QueueTests.

(** A payload is its value and its checksum. *)
Definition test_fifo_and_capacity : outcome bool :=
  let queue := Spsc.make 8 (0, 0) in
  let items := (λ i, (i, 2 ^ 64 - 1 - i)) <$> seqZ 0 8 in
  '(filled, pushed) ← run_calls (H := Spsc.spsc_ops 8) queue ((CPush <$> items) ++ [CPush (99, 0)]);
  '(drained, popped) ← run_calls (H := Spsc.spsc_ops 8) filled (replicate 9 CPop);
  Ret (Spsc.empty queue && (Spsc.size queue =? 0) && (Spsc.size filled =? 8) && Spsc.empty drained &&
       bool_decide (accepted ((CPush <$> items) ++ [CPush (99, 0)]) pushed = items) &&
       bool_decide (delivered popped = items)).

Definition test_wraparound : outcome bool :=
  let items := (λ round, (round, round * 3)) <$> seqZ 0 1000 in
  '(queue, answers) ← run_calls (H := Spsc.spsc_ops 4) (Spsc.make 4 (0, 0)) (items ≫= λ item, [CPush item; CPop]);
  Ret (bool_decide (delivered answers = items) && Spsc.empty queue).

Lemma queue_tests_pass : test_fifo_and_capacity = Ret true ∧ test_wraparound = Ret true.
Proof. split; vm_compute; reflexivity. Qed.
End QueueTests.

(** ** Recovery *)

Module RecoveryTests.

Definition kFirstSequence : Z := 1001.

Definition make_message (sequence : Z) : MarketMessage :=
  mkMessage sequence (sequence * 1000) sequence (18700 + sequence mod 20) 10 1 Add
    (if sequence mod 2 =? 0 then Sell else Buy) 0.

Definition feed (sequence : Z) : FeedMessage := mkFeed (make_message sequence) 0 0 false.

Definition test_history_store_retains_a_bounded_window : outcome bool :=
  history ← append_all (HistoryStore.make 16) (make_message <$> seqZ 100 40);
  gone ← HistoryStore.fetch 64 history 100 120 64;
  kept ← HistoryStore.fetch 64 history 124 139 64;
  edge ← HistoryStore.fetch 64 history 120 130 64;
  Ret (bool_decide (gone = []) && bool_decide (kept = make_message <$> seqZ 124 16) &&
       bool_decide (edge = make_message <$> seqZ 124 7)).

(** The client on a connection to the server; the times of the messages are not looked at. *)
#[local] Instance loopback : SeqEnv (RecoveryClient.t loop) := {
  env_request c from to := RecoveryClient.request c from to;
  env_now c := (c, 0)
}.

(** [accept] and then [drain], for each number in turn. *)
Fixpoint accept_each (client : RecoveryClient.t loop) (q : Seq.t) (ns : list Z)
    : outcome (RecoveryClient.t loop * Seq.t * list FeedMessage) :=
  match ns with
  | [] => Ret (client, q, [])
  | n :: ns =>
      '(client, q) ← Seq.accept client q (feed n);
      '(q, batch) ← Seq.drain (S (length (Seq.buffer_ q))) q;
      '(client, q, rest) ← accept_each client q ns;
      Ret (client, q, batch ++ rest)
  end.

Definition sequences (ms : list FeedMessage) : list Z := (λ m, sequence_number (message m)) <$> ms.

Definition dropped (sequence : Z) : bool :=
  let offset := sequence - kFirstSequence in
  (offset =? 5) || ((100 <=? offset) && (offset <=? 103)) || ((300 <=? offset) && (offset <=? 330)).

Definition test_recovers_dropped_messages : outcome bool :=
  let numbers := seqZ kFirstSequence 500 in
  history ← append_all (HistoryStore.make 4096) (make_message <$> numbers);
  let client := RecoveryClient.mkClient (Some (mkLoop history [])) in
  let drop_count := vlen (filter (λ n, dropped n = true) numbers) in
  '(_, q, delivered) ← accept_each client (Seq.make 1024 true) (filter (λ n, dropped n = false) numbers);
  let stats := Seq.stats_ q in
  Ret ((Seq.gaps_detected stats =? 3) && (Seq.missing_messages stats =? drop_count) &&
       (Seq.messages_recovered stats =? drop_count) && (Seq.unrecoverable stats =? 0) &&
       (vlen (filter (λ m, recovered m = true) delivered) =? drop_count) &&
       bool_decide (sequences delivered = numbers)).

(** Without a recovery client. *)
Definition alone : RecoveryClient.t loop := RecoveryClient.mkClient None.

Definition test_duplicates_and_reordering : outcome bool :=
  '(client, q, first) ← accept_each alone (Seq.make 64 false) [1001];
  '(client, q) ← Seq.accept client q (feed 1003);
  let gaps := Seq.gaps_detected (Seq.stats_ q) in
  '(client, q, delivered) ← accept_each client q [1002];
  '(client, q) ← Seq.accept client q (feed 1002);
  '(client, q) ← Seq.accept client q (feed 1003);
  '(q, again) ← Seq.drain (S (length (Seq.buffer_ q))) q;
  Ret ((vlen first =? 1) && (gaps =? 1) && bool_decide (sequences delivered = [1002; 1003]) &&
       (vlen again =? 0) && (Seq.duplicates (Seq.stats_ q) =? 2)).

Definition test_unrecoverable_gap_does_not_stall : outcome bool :=
  '(client, q, _) ← accept_each alone (Seq.make 64 false) [1001];
  '(client, q, delivered) ← accept_each client q [1005];
  let stats := Seq.stats_ q in
  '(client, q, next) ← accept_each client q [1006];
  Ret ((Seq.gaps_detected stats =? 1) && (Seq.unrecoverable stats =? 3) &&
       bool_decide (sequences delivered = [1005]) && (vlen next =? 1)).

Definition test_reorder_window_overflow_resynchronizes : outcome bool :=
  '(client, q, _) ← accept_each alone (Seq.make 16 false) [1001];
  '(client, q, delivered) ← accept_each client q [2000];
  Ret ((Seq.reorder_overflows (Seq.stats_ q) =? 1) && bool_decide (sequences delivered = [2000]) &&
       (Seq.expected_ q =? 2001)).

Lemma recovery_tests_pass :
  [test_history_store_retains_a_bounded_window; test_recovers_dropped_messages; test_duplicates_and_reordering;
   test_unrecoverable_gap_does_not_stall; test_reorder_window_overflow_resynchronizes] = replicate 5 (Ret true).
Proof. vm_compute. reflexivity. Qed.
End RecoveryTests.
